(* ===== verification/_CoqProject ===== *)
-Q . S2P
Prelude.v
Errors.v
Consts.v
Config.v
Shm.v
Queue.v
QueueConc.v
Slices.v
Pool.v
BufList.v
BufListConc.v
Manager.v
Mapping.v
Sizing.v
Registry.v
Lifecycle.v
Linked.v
LinkedWrite.v
LinkedRead.v
Wire.v
Stream.v
StreamRecv.v
StreamSend.v
StreamClose.v
Session.v
Delivery.v
BufReader.v
Handshake.v
ServerSession.v
Scenario.v
Guarantees.v
Duplex.v
Bench.v
Events.v
Table.v
Text.v
Loops.v
Channel.v
SessionThreads.v
Managers.v
Compact.v
Greeter.v
Transport.v
Descriptors.v
Trace.v
Conformance.v
