(* ===== verification/Prelude.v ===== *)
(** * Verification of shmipc-cpp

    shmipc carries byte streams between two processes through shared memory.
    A client creates two mappings: a pool of buffer slices and a pair of ring
    queues.  A handshake over a Unix socket makes the server map both.  To send,
    a stream fills slices of the pool, links them into a message and puts the
    offset of the first on the queue; a working flag in the queue tells whether
    the peer has to be woken by a polling event on the socket.  The receiver
    drains the queue, hands each message to its stream, and readers get views
    of the slices, which go back to the pool when they are released.  What does
    not fit in the pool goes over the socket as a fallback event.

    ** Conventions

    Integers are [Z] with the wrap-around of their width written out ([u32],
    [i64], ...).  An operation that can fail returns [result] ([Ok] or
    [Unexpected], the source's [std::expected]).  An [option] around it is for
    what the source leaves undefined, a failed assertion, a call that never
    returns, or fuel that ran out: a theorem that gives [Some] excludes them.
    Pointers into a mapping are offsets; both processes see one [shm].  A
    process's [memory] is that mapping and its own heap.  Stream handles alias
    the objects of a store.  What other threads or the peer do where the source
    waits, and what system calls answer, are arguments.  Log lines are left out of
    the operations; what a line says is in [Trace].

    ** Files

    - [Prelude] (this file), [Errors] (error.hpp, error.cpp), [Consts]
      (consts.hpp, buffer/layout.hpp), [Config] (config.hpp, config.cpp,
      session_config.hpp): integers, results, constants, configuration.
    - [Shm]: the mapping and its accesses.
    - [Queue]: [Queue::put], [pop], the flag, creation and mapping (queue.cpp).
      [QueueConc]: the same accesses one at a time, with all threads and both
      processes interleaved, and the polling events between them.
    - [Slices] (buffer/slice.cpp), [BufList] (buffer/list.cpp), [Manager]
      (buffer/manager.cpp): headers, slices, free lists and the pool.  [BufListConc]:
      [pop] and [push] of a free list one access at a time, by any number of
      threads.  [Pool] is
      the interface of the pool, a record of operations with a class of laws;
      [Manager.manager_pool] is its instance, and everything above the pool is
      proved from the laws alone.
    - [Mapping]: the operating system as a record of calls with a class of
      laws, and over it the factories of queues (queue.cpp, util/dev_shm.cpp) and
      of pools (buffer/manager.cpp) with the table of managers of a process.
      [Sizing]: from [Config::verify] to the lists of a pool.  [Registry]: the
      reference counts of that table.  [Lifecycle] and [ServerSession]: what
      [Session::create], of a client and of a server, and [close] do to it.
    - [Linked] (buffer/linked.cpp, buffer/buf.hpp) with [LinkedWrite] and
      [LinkedRead]: the buffer a stream writes and reads.
    - [Wire] (protocol/event.cpp, the codecs of protocol/initializer.cpp):
      headers, events and metadata.
    - [Stream] (stream.cpp, stats.hpp, and what a stream asks of session.cpp)
      with [StreamRecv], [StreamSend], [StreamClose].
    - [Session] (session.cpp, stream_pool.cpp): streams of a session and event
      handlers.  [Delivery]: queue to streams; [Events]: socket to streams;
      [Table]: the table of streams; [Loops]: the loops that read and write
      the socket; [SessionThreads]: the threads these loops run in, one access
      at a time, with [Session::close] and [~SessionShared].
    - [BufReader] (util/buf_reader.cpp, protocol/block_io.cpp): reading and
      writing sockets.
    - [Channel] (sync/channel.hpp, sync/event.hpp): channels between threads,
      one critical section at a time.
    - [Handshake] (protocol/adapter.cpp, initializer.cpp, protocol.cpp): both
      ends as programs on a socket, run side by side.
    - [Managers] (session_manager.hpp, listener.hpp, listener.cpp): many sessions
      to one peer, and the sessions of a server.
    - [Compact] (compact.cpp, util/shmbuf_reader.hpp): streams as byte streams.
    - [Transport] (transport.cpp, log.cpp, and the descriptors and timeouts of
      protocol/block_io.cpp and protocol.cpp): addresses and sockets, over the
      strings and numbers of [Text].  [Descriptors] (transport.hpp): halves,
      streams and listeners as owners of descriptors.  [Trace] (log.cpp, log.hpp,
      protocol.cpp): log lines, traces and the timeouts of the handshake.
    - [Scenario]: one concrete session; [Guarantees]: the theorems on buffers,
      streams and their composition, applied to it; [Duplex]: both ends of a
      stream in any order of calls, as a pair of byte channels.
    - [Bench] (bench/bench_ping_pong.cpp) and [Greeter] (examples/): the programs
      over the library.
    - [Conformance] (tests/): unit tests of the repository, run on the definitions.

    ** What is shown

    - Queue: it refines a bounded FIFO; under every interleaving elements
      arrive in order and untorn, no wake-up is lost, and every run ends with
      everything put popped.
    - Pool: slices that are out never overlap and all can be returned; a pool
      made by one side is mapped identically by the other; chains of slices are
      given back whole.  Threads that [pop] and [push] at the same time get
      different slices and leave the list whole, except when a head that was
      taken and given back meanwhile is taken for the old one, as
      [BufListConc.list_aba] shows.
    - Buffers: writes append, a reserved window is what the buffer then holds,
      reads return the next bytes and keep the views returned before.
    - Streams: a flush publishes exactly the bytes written or gives every slice
      back with an error; reads return what arrived in order whatever arrives
      meanwhile; closing gives everything back and tells the peer.
    - Composition: a flush on one side, a round of polling and a read on the
      other return the bytes written; a fallback event delivers its payload,
      and an incomplete one waits.  However the two ends of a stream write,
      flush, poll, read and release, each direction carries the bytes written
      once and in order ([Duplex.stream_is_duplex]); a message of the benchmark
      and a greeting of the examples arrive.  [Bench.reuse_loses] shows what
      [release_read_and_reuse] loses.
    - The socket: however writes and reads split the bytes, the peer handles
      exactly the events that were sent, one after the other; an event with too
      short a length makes the reader spin.
    - Channels: values arrive once and in order; threads come to rest, and none
      sleeps that could go on.
    - Sessions: the table of streams stays well formed; a manager's streams find
      their session again and its sessions have names of their own.  The threads
      of a session that was closed end, and its destructor runs once and last;
      [SessionThreads.close_races] has the exceptions.
    - The process: both sides of a queue are the same memory with the roles
      exchanged; no factory loses a descriptor but one; a pool is mapped exactly
      while somebody holds it, except in the race [Registry.release_race] shows;
      a session that is closed leaves the counts as they were, on both sides;
      a client whose handshake fails, and a server that cannot send the last
      acknowledgement, do not.  A configuration [verify] accepts makes a pool
      exactly when each slice size gets a slice.  A descriptor of a connection
      has one owner and is closed once.
    - Adapters and addresses: [read_exact] returns the bytes asked for; addresses
      are read back.
    - Handshake: every interleaving of the two ends ends alike, with one
      version and the same mappings, or with the queues unmapped.
    - Formats and configuration: round trips, exact acceptance and rejection; a
      header is printed whole.
    - The tests of the repository pass on the model, the pool of one of them with
      a slice too few, which that test does not look at ([Conformance]).

    ** Bounds

    [fuel] of the stream operations bounds the slices of one message, and the
    theorems ask only that a message is not longer; [turns] and [n] of the event
    handlers bound the events of a buffer and the elements of a round; [rounds]
    of the read loop bounds its turns, and one more than the bytes read is enough.
    The loops of the benchmark and of the examples take the number of their turns.
    The 64-bit counters of a queue do not wrap for 2^63 puts.  Paths of the
    handshake are shorter than 65536 bytes, the range of their length field.

    ** Not modelled

    The kernel side of system calls: files, memfds and mappings are what the
    laws of [Mapping] say, sockets give any answer.  The threads of a session are
    interleaved with its end in [SessionThreads], but not with the bytes of its
    streams: there the operations of a stream are one step each, and what runs
    beside them is an argument.  The threads of a session manager and of a
    listener are arguments too, as is when they are joined.  What the pool does
    above its free lists, and reading a slice just popped, is not interleaved.
    Mutexes where an operation is one critical section.  Socket options other than
    the timeouts.  Of the examples and the benchmark the threads, the clock, the
    paths, the set-up of sockets and what they print.  Of the headers of the
    library, what only declares: copy and move of classes whose members have it,
    forward declarations, accessors of one member.  Of the tests, those that need
    several threads or processes ([test_integration.cpp]). *)
From Stdlib Require Export ZArith Lia.
From stdpp Require Export base numbers gmap strings option list.

Declare Scope shm_scope.
Delimit Scope shm_scope with shm.
Global Open Scope Z_scope.
Global Open Scope shm_scope.

(** * Machine integers

    Integers of the source are kept in [Z]; a conversion or an arithmetic
    operation of a fixed width is written with the wrap-around below. *)

Definition u8 (x : Z) : Z := x mod 256.
Definition u16 (x : Z) : Z := x mod 65536.
Definition u32 (x : Z) : Z := x mod 4294967296.
Definition u64 (x : Z) : Z := x mod 18446744073709551616.
Definition i32 (x : Z) : Z := (x + 2147483648) mod 4294967296 - 2147483648.
Definition i64 (x : Z) : Z :=
  (x + 9223372036854775808) mod 18446744073709551616 - 9223372036854775808.
Definition UINT32_MAX : Z := 4294967295.

(** Signed remainder and quotient of the source; a zero divisor is undefined. *)
Definition c_rem (x y : Z) : option Z := if y =? 0 then None else Some (Z.rem x y).
Definition c_udiv (x y : Z) : option Z := if y =? 0 then None else Some (x / y).

(** [snprintf] into a buffer of [n] bytes keeps the first [n - 1] characters. *)
Definition snprintf (n : nat) (s : string) : string := String.substring 0 (n - 1) s.

(** * Tactics and hint databases *)

(** Rewriting of accesses to the shared mapping, extended by [Shm]. *)
Create Rewrite HintDb shm.
(** Wrap-arounds that do nothing on values in range. *)
Create Rewrite HintDb width.
(** Well-formedness and bounds facts closed by [eauto]. *)
Create HintDb bounds discriminated.

(** Machine arithmetic: unfold the wrap-arounds and leave the rest to [lia]. *)
Ltac mlia :=
  unfold u8, u16, u32, u64, i32, i64, UINT32_MAX in *;
  Z.div_mod_to_equations; lia.

(** Case analysis on every boolean comparison of the goal. *)
Ltac case_if :=
  match goal with
  | |- context [if ?b then _ else _] =>
      let E := fresh "E" in destruct b eqn:E
  end.

(** Case analysis on the scrutinee of a hypothesis' outermost conditional. *)
Ltac case_in H :=
  match type of H with
  | context [if ?b then _ else _] => let E := fresh "E" in destruct b eqn:E
  end.

(** Drop the wrap-arounds of values in range. *)
Ltac width_simp := autorewrite with width in * |-.

(** * Widths *)

Lemma u8_range x : 0 <= u8 x < 256.
Proof. mlia. Qed.
Lemma u16_range x : 0 <= u16 x < 65536.
Proof. mlia. Qed.
Lemma u32_range x : 0 <= u32 x < 4294967296.
Proof. mlia. Qed.
Lemma i32_range x : -2147483648 <= i32 x < 2147483648.
Proof. mlia. Qed.
Lemma i64_range x : -9223372036854775808 <= i64 x < 9223372036854775808.
Proof. mlia. Qed.
#[export] Hint Resolve u8_range u16_range u32_range i32_range i64_range : bounds.

Lemma u8_id x : 0 <= x < 256 -> u8 x = x.
Proof. mlia. Qed.
Lemma u16_id x : 0 <= x < 65536 -> u16 x = x.
Proof. mlia. Qed.
Lemma u32_id x : 0 <= x < 4294967296 -> u32 x = x.
Proof. mlia. Qed.
Lemma u64_id x : 0 <= x < 18446744073709551616 -> u64 x = x.
Proof. mlia. Qed.
Lemma i32_id x : -2147483648 <= x < 2147483648 -> i32 x = x.
Proof. mlia. Qed.
Lemma i64_id x : -9223372036854775808 <= x < 9223372036854775808 -> i64 x = x.
Proof. mlia. Qed.
#[export] Hint Rewrite u8_id u16_id u32_id u64_id i32_id i64_id using lia : width.

Lemma u8_idemp x : u8 (u8 x) = u8 x.
Proof. apply u8_id, u8_range. Qed.
Lemma u32_idemp x : u32 (u32 x) = u32 x.
Proof. apply u32_id, u32_range. Qed.
(** A signed value written as an unsigned one and read back signed. *)
Lemma i32_u32 x : i32 (u32 x) = i32 x.
Proof.
  unfold i32, u32. rewrite Zplus_mod_idemp_l. reflexivity.
Qed.
Lemma i64_u64 x : i64 (u64 x) = i64 x.
Proof.
  unfold i64, u64. rewrite Zplus_mod_idemp_l. reflexivity.
Qed.

(** * Lists *)

(** The last element of a non-empty list, by the shape the proofs use. *)
Lemma list_snoc_inv {A} (l : list A) : l <> [] -> exists l' x, l = l' ++ [x].
Proof.
  intros H. destruct (exists_last H) as (l' & x & ->). eauto.
Qed.

Lemma head_fmap {A B} (f : A -> B) (l : list A) : head (f <$> l) = f <$> head l.
Proof. now destruct l. Qed.

Lemma Forall2_impl_in {A B} (P Q : A -> B -> Prop) l k :
  (forall x y, x ∈ l -> P x y -> Q x y) -> Forall2 P l k -> Forall2 Q l k.
Proof.
  intros H F. induction F as [|x y l k Hxy F IH]; constructor.
  - apply H; [constructor|exact Hxy].
  - apply IH. intros x' y' Hx'. apply H. now constructor.
Qed.

(** An element at another position than the middle one. *)
Lemma elem_of_other {A} (a b : list A) s i u :
  (a ++ s :: b) !! i = Some u -> i <> length a -> u ∈ a ++ b.
Proof.
  intros H Hi. apply lookup_app_Some in H as [H|[Hle H]].
  - apply elem_of_app. left. eapply list_elem_of_lookup_2, H.
  - apply lookup_cons_Some in H as [[H _]|[_ H]]; [lia|].
    apply elem_of_app. right. eapply list_elem_of_lookup_2, H.
Qed.

Lemma Forall2_snoc {A B} (P : A -> B -> Prop) l k x y :
  Forall2 P l k -> P x y -> Forall2 P (l ++ [x]) (k ++ [y]).
Proof. intros. apply Forall2_app; auto. Qed.

(** * Step relations *)

(** What every step preserves holds in every reachable state. *)
Lemma rtc_invariant {A} (R : relation A) (P : A -> Prop) a b :
  (forall x y, P x -> R x y -> P y) -> P a -> rtc R a b -> P b.
Proof. intros Hstep Ha Hr. induction Hr; eauto. Qed.
