(* ===== verification/Errors.v ===== *)
(** Errors: [include/shmipc/error.hpp] and [src/error.cpp].

    [Err] is the enumeration of error kinds, [Error] the error value, and
    [result] stands for [Result<T>] ([std::expected<T, Error>]).  The text of
    an error built with [snprintf] is kept as its format string outside the
    handshake: the numbers that are interpolated are dropped, no code of the
    program branches on them.  The two messages of [Error::message] that print a size are kept
    exactly, with the truncation of their 64-byte buffer. *)
From stdpp Require Import pretty.
From S2P Require Import Prelude.

Inductive Err :=
| kInvalidVersion
| kInvalidMsgType
| kSessionShutdown
| kStreamsExhausted
| kDuplicateStream
| kTimeout
| kStreamClosed
| kStreamReset
| kConnectionWriteTimeout
| kConnectionTimeout
| kKeepAliveTimeout
| kEndOfStream
| kSessionUnhealthy
| kNotEnoughData
| kNoMoreBuffer
| kSizeTooLarge
| kBrokenBuffer
| kShareMemoryHadNotLeftSpace
| kStreamCallbackHadExisted
| kExchangeConfig
| kExchangeConfigTimeout
| kOSNonSupported
| kArchNonSupported
| kHotRestartInProgress
| kInHandshakeStage
| kFileNameTooLong
| kQueueEmpty
| kQueueFull
| kStreamPoolFull
| kStreamHasUnreadData
| kStreamHasPendingData
| kIo
| kOther.

#[global] Instance Err_eq_dec : EqDecision Err.
Proof. solve_decision. Defined.

Definition err_message (kind : Err) : string :=
  match kind with
  | kInvalidVersion => "invalid protocol version"
  | kInvalidMsgType => "invalid msg type"
  | kSessionShutdown => "session shutdown"
  | kStreamsExhausted => "streams exhausted"
  | kDuplicateStream => "duplicate stream initiated"
  | kTimeout => "i/o deadline reached"
  | kStreamClosed => "stream closed"
  | kStreamReset => "stream reset by peer"
  | kConnectionWriteTimeout => "connection write timeout"
  | kConnectionTimeout => "connection timeout"
  | kKeepAliveTimeout => "keepalive timeout"
  | kEndOfStream => "end of stream"
  | kSessionUnhealthy => "now the session is unhealthy, please retry later"
  | kNotEnoughData => "current buffer is not enough data to read"
  | kNoMoreBuffer => "share memory no more buffer"
  | kSizeTooLarge => "alloc size exceed"
  | kBrokenBuffer => "share memory's buffer had broken"
  | kShareMemoryHadNotLeftSpace => "share memory had not left space"
  | kStreamCallbackHadExisted => "stream callbacks had existed"
  | kExchangeConfig => "exchange config protocol invalid"
  | kExchangeConfigTimeout => "exchange config timeout"
  | kOSNonSupported => "shmipc just support linux OS now"
  | kArchNonSupported => "shmipc just support amd64 or arm64 arch"
  | kHotRestartInProgress => "hot restart in progress, try again later"
  | kInHandshakeStage => "session in handshake stage, try again later"
  | kFileNameTooLong => "share memory path prefix too long"
  | kQueueEmpty => "the queue is empty"
  | kQueueFull => "the queue is full"
  | kStreamPoolFull => "stream pool is full"
  | kStreamHasUnreadData => "stream had unread data"
  | kStreamHasPendingData => "stream had pending data"
  | kIo => "io error"
  | kOther => "other error"
  end.

Record Error := mkError {
  kind_ : Err;
  size_payload_ : Z;
  message_ : string;
}.

#[global] Instance Error_eq_dec : EqDecision Error.
Proof. solve_decision. Defined.

(** [Error(Err kind)]: the implicit conversion of an error kind. *)
Definition of_kind (k : Err) : Error := mkError k 0 "".
Definition with_size (k : Err) (payload : Z) : Error := mkError k payload "".
Definition error_io (msg : string) : Error := mkError kIo 0 msg.
Definition error_other (msg : string) : Error := mkError kOther 0 msg.

(** [Error::from_errno]; [strerror_r] is the C library's. *)
Definition from_errno (strerror_r : Z -> option string) (errnum : Z) : Error :=
  mkError kIo 0 (match strerror_r errnum with
                 | Some msg => msg
                 | None => "unknown errno"
                 end).

(** [Error::message]. *)
Definition message (e : Error) : string :=
  match kind_ e with
  | kStreamHasUnreadData =>
      snprintf 64 ("stream had unread data, size: " +:+ pretty (size_payload_ e))
  | kStreamHasPendingData =>
      snprintf 64 ("stream had pending data, pending slice len: "
                     +:+ pretty (size_payload_ e))
  | kIo | kOther =>
      if String.eqb (message_ e) "" then err_message (kind_ e) else message_ e
  | k => err_message k
  end.

(** [operator==] of two errors compares the kinds only. *)
Definition error_eqb (a b : Error) : bool := bool_decide (kind_ a = kind_ b).
(** [Error::is], and [operator==] of an error and a kind. *)
Definition error_is (e : Error) (k : Err) : bool := bool_decide (kind_ e = k).

(** The [std::errc] values [to_io_error_code] uses. *)
Inductive errc :=
| invalid_argument
| connection_reset
| resource_unavailable_try_again
| already_connected
| timed_out
| connection_aborted
| broken_pipe
| not_enough_memory
| not_supported
| io_error.

#[global] Instance errc_eq_dec : EqDecision errc.
Proof. solve_decision. Defined.

Definition to_io_error_code (e : Error) : errc :=
  match kind_ e with
  | kInvalidVersion | kInvalidMsgType | kConnectionWriteTimeout => invalid_argument
  | kSessionShutdown | kStreamReset => connection_reset
  | kStreamsExhausted | kSessionUnhealthy | kNotEnoughData | kNoMoreBuffer
  | kShareMemoryHadNotLeftSpace | kQueueEmpty | kQueueFull | kStreamPoolFull
  | kHotRestartInProgress | kInHandshakeStage => resource_unavailable_try_again
  | kDuplicateStream | kStreamCallbackHadExisted => already_connected
  | kTimeout | kConnectionTimeout | kKeepAliveTimeout | kExchangeConfigTimeout => timed_out
  | kStreamClosed => connection_aborted
  | kEndOfStream => broken_pipe
  | kSizeTooLarge => not_enough_memory
  | kBrokenBuffer => broken_pipe
  | kOSNonSupported | kArchNonSupported => not_supported
  | kFileNameTooLong => invalid_argument
  | kIo => io_error
  | _ => io_error
  end.

(** [Result<T>]: a value or an error ([std::unexpected]). *)
Inductive result (A : Type) :=
| Ok (a : A)
| Unexpected (e : Error).
Arguments Ok {A} a.
Arguments Unexpected {A} e.

(** [IoResult<T>]. *)
Inductive io_result (A : Type) :=
| IoOk (a : A)
| IoErr (e : errc).
Arguments IoOk {A} a.
Arguments IoErr {A} e.

(** [return std::unexpected(Err::k)]. *)
Definition fail_with {A} (k : Err) : result A := Unexpected (of_kind k).

Definition is_ok {A} (r : result A) : bool :=
  match r with Ok _ => true | Unexpected _ => false end.

(** Every error kind has its own message. *)
Lemma err_message_inj : Inj (=) (=) err_message.
Proof. intros a b. destruct a, b; intros H; try reflexivity; discriminate H. Qed.
