(* ===== verification/Consts.v ===== *)
(** Constants: [include/shmipc/consts.hpp] and [include/shmipc/buffer/layout.hpp],
    with the layout constants of [buffer/list.hpp] and [queue.hpp]. *)
From S2P Require Import Prelude.

(** ** Protocol *)
Definition kProtoVersion : Z := 2.
Definition kMaxSupportProtoVersion : Z := 3.
Definition kMagicNumber : Z := 0x7758.
Definition kBufferPathSuffix : string := "_buffer".
Definition kMemfdCount : Z := 2.

Definition kFileNameMaxLen : Z := 255.
Definition kEpochInfoMaxLen : Z := 7 + 20 + 1 + 20.
Definition kQueueInfoMaxLen : Z := 7 + 20.

Definition kDefaultQueueCap : Z := 8192.
Definition kDefaultShareMemoryCap : Z := 32 * 1024 * 1024.
Definition kDefaultSingleBufferSize : Z := 4096.

Definition kQueueElementLen : Z := 12.
Definition kQueueCount : Z := 2.

Definition kSizeOfLength : Z := 4.
Definition kSizeOfMagic : Z := 2.
Definition kSizeOfVersion : Z := 1.
Definition kSizeOfType : Z := 1.
Definition kHeaderSize : Z :=
  kSizeOfLength + kSizeOfMagic + kSizeOfVersion + kSizeOfType.

(** ** The header of a buffer: cap 4 | size 4 | start 4 | next 4 | flag 4 *)
Definition kBufferHeaderSize : Z := 4 + 4 + 4 + 4 + 4.
Definition kBufferCapOffset : Z := 0.
Definition kBufferSizeOffset : Z := kBufferCapOffset + 4.
Definition kBufferDataStartOffset : Z := kBufferSizeOffset + 4.
Definition kNextBufferOffset : Z := kBufferDataStartOffset + 4.
Definition kBufferFlagOffset : Z := kNextBufferOffset + 4.

Definition kBufferManagerHeaderSize : Z := 8.
Definition kBmCapOffset : Z := 4.

Definition kHasNextBufferFlag : Z := 1.
Definition kSliceInUsedFlag : Z := 2.

(** ** The header of a buffer list ([buffer/list.hpp]) *)
Definition kBufferListHeaderSize : Z := 36.
Definition kCounterListOffset : Z := 20.

(** ** The header of a queue ([queue.hpp]) *)
Definition kQueueHeaderLength : Z := 24.

(** Put the layout constants' values before arithmetic. *)
Ltac consts :=
  change kQueueElementLen with 12 in *; change kQueueCount with 2 in *;
  change kHeaderSize with 8 in *; change kSizeOfLength with 4 in *;
  change kSizeOfMagic with 2 in *; change kSizeOfVersion with 1 in *;
  change kSizeOfType with 1 in *; change kBufferFlagOffset with 16 in *;
  change kNextBufferOffset with 12 in *; change kBufferDataStartOffset with 8 in *;
  change kBufferSizeOffset with 4 in *; change kBufferCapOffset with 0 in *;
  change kBufferHeaderSize with 20 in *; change kBufferManagerHeaderSize with 8 in *;
  change kBmCapOffset with 4 in *; change kBufferListHeaderSize with 36 in *;
  change kCounterListOffset with 20 in *; change kQueueHeaderLength with 24 in *;
  change kDefaultSingleBufferSize with 4096 in *; change kHasNextBufferFlag with 1 in *;
  change kSliceInUsedFlag with 2 in *.

(** Linear arithmetic over the layout constants. *)
Ltac clia := consts; lia.
