(* ===== verification/Config.v ===== *)
(** Configuration: [include/shmipc/config.hpp], [src/config.cpp] and
    [include/shmipc/session_config.hpp].

    [verify] returns the configuration it leaves behind together with its
    result: like the source it aligns the slice sizes and the queue capacity
    in place, and keeps the alignments done before a later check fails. *)
From S2P Require Import Prelude Errors Consts.

Inductive MemMapType := kDevShmFile | kMemFd.

#[global] Instance MemMapType_eq_dec : EqDecision MemMapType.
Proof. solve_decision. Defined.

(** Mirror of Rust [StateType]. *)
Inductive StateType := kDefault | kHotRestart | kHotRestartDone.

Record SizePercentPair := mkPair { size : Z; percent : Z }.

#[global] Instance SizePercentPair_eq_dec : EqDecision SizePercentPair.
Proof. solve_decision. Defined.

(** Durations are in nanoseconds; 0 stands for no timeout. *)
Record Config := mkConfig {
  connection_write_timeout : Z;
  connection_read_timeout : Z;
  connection_timeout : Z;
  initialize_timeout : Z;
  queue_cap : Z;
  queue_path : string;
  share_memory_buffer_cap : Z;
  share_memory_path_prefix : string;
  buffer_slice_sizes : list SizePercentPair;
  mem_map_type : MemMapType;
  rebuild_interval : Z;
  max_stream_num : Z;
}.

(** [Config::Config()] with the member initialisers. *)
Definition default_config : Config := {|
  connection_write_timeout := 10 * 1000000000;
  connection_read_timeout := 0;
  connection_timeout := 0;
  initialize_timeout := 1000 * 1000000;
  queue_cap := 8192;
  queue_path := "/dev/shm/shmipc_queue";
  share_memory_buffer_cap := 32 * 1024 * 1024;
  share_memory_path_prefix := "/dev/shm/shmipc";
  buffer_slice_sizes :=
    [mkPair (8192 - kBufferHeaderSize) 50;
     mkPair (32 * 1024 - kBufferHeaderSize) 30;
     mkPair (128 * 1024 - kBufferHeaderSize) 20];
  mem_map_type := kMemFd;
  rebuild_interval := 60 * 1000000000;
  max_stream_num := 4096;
|}.

Definition set_slice_sizes (c : Config) (l : list SizePercentPair) : Config :=
  mkConfig (connection_write_timeout c) (connection_read_timeout c)
    (connection_timeout c) (initialize_timeout c) (queue_cap c) (queue_path c)
    (share_memory_buffer_cap c) (share_memory_path_prefix c) l
    (mem_map_type c) (rebuild_interval c) (max_stream_num c).

Definition set_queue_cap (c : Config) (q : Z) : Config :=
  mkConfig (connection_write_timeout c) (connection_read_timeout c)
    (connection_timeout c) (initialize_timeout c) q (queue_path c)
    (share_memory_buffer_cap c) (share_memory_path_prefix c) (buffer_slice_sizes c)
    (mem_map_type c) (rebuild_interval c) (max_stream_num c).

(** [(x + 3) & ~3u] and [(x + 7) & ~7u] on 32 bits. *)
Definition align4 (x : Z) : Z := Z.land (u32 (x + 3)) (u32 (Z.lnot 3)).
Definition align8 (x : Z) : Z := Z.land (u32 (x + 7)) (u32 (Z.lnot 7)).

(** The loop of [Config::verify] over the slice sizes: the sum of the percents
    (on 32 bits) or the error, and the list as the loop leaves it. *)
Fixpoint verify_pairs (cap sum : Z) (l : list SizePercentPair)
    : result Z * list SizePercentPair :=
  match l with
  | [] => (Ok sum, [])
  | p :: rest =>
      let sum := u32 (sum + percent p) in
      if cap <? size p then
        (Unexpected (error_other
           "buffer_slice_sizes's size:%u couldn't greater than share_memory_buffer_cap:%u"),
         p :: rest)
      else
        let aligned := align4 (size p) in
        let p' := if aligned =? size p then p else mkPair aligned (percent p) in
        let '(r, rest') := verify_pairs cap sum rest in
        (r, p' :: rest')
  end.

Definition verify (c : Config) : result unit * Config :=
  if share_memory_buffer_cap c <? Z.shiftl 1 20 then
    (Unexpected (error_other "share memory size is too small:%u, must greater than %u"), c)
  else if bool_decide (buffer_slice_sizes c = []) then
    (Unexpected (error_other "buffer_slice_sizes could not be nil"), c)
  else
    let '(r, l) := verify_pairs (share_memory_buffer_cap c) 0 (buffer_slice_sizes c) in
    let c := set_slice_sizes c l in
    match r with
    | Unexpected e => (Unexpected e, c)
    | Ok sum =>
        if negb (sum =? 100) then
          (Unexpected (error_other
             "the sum of buffer_slice_sizes's percent should be 100"), c)
        else
          let aligned_queue_cap := align8 (queue_cap c) in
          let c := if aligned_queue_cap =? queue_cap c then c
                   else set_queue_cap c aligned_queue_cap in
          if String.eqb (share_memory_path_prefix c) "" || String.eqb (queue_path c) "" then
            (Unexpected (error_other "buffer path or queue path could not be nil"), c)
          else (Ok tt, c)
    end.

(** [SessionManagerConfig] ([session_config.hpp]). *)
Record SessionManagerConfig := mkSMConfig {
  config_ : Config;
  session_num_ : Z;
  stream_max_idle_time_ : Z;
}.

Definition default_sm_config : SessionManagerConfig :=
  mkSMConfig default_config 1 (30 * 1000000000).
Definition with_config (s : SessionManagerConfig) (c : Config) : SessionManagerConfig :=
  mkSMConfig c (session_num_ s) (stream_max_idle_time_ s).
Definition with_session_num (s : SessionManagerConfig) (n : Z) : SessionManagerConfig :=
  mkSMConfig (config_ s) n (stream_max_idle_time_ s).
Definition with_stream_max_idle_time (s : SessionManagerConfig) (t : Z)
    : SessionManagerConfig :=
  mkSMConfig (config_ s) (session_num_ s) t.

(** ** What [verify] accepts and produces *)

Definition percent_sum (l : list SizePercentPair) : Z :=
  foldr (fun p acc => percent p + acc) 0 l.

Definition align_pair (p : SizePercentPair) : SizePercentPair :=
  mkPair (align4 (size p)) (percent p).

(** The configuration a successful [verify] leaves. *)
Definition aligned_config (c : Config) : Config :=
  set_queue_cap (set_slice_sizes c (map align_pair (buffer_slice_sizes c)))
    (align8 (queue_cap c)).

(** What a configuration needs for [verify] to accept it. *)
Definition acceptable (c : Config) : Prop :=
  1048576 <= share_memory_buffer_cap c /\
  buffer_slice_sizes c <> [] /\
  Forall (fun p => size p <= share_memory_buffer_cap c) (buffer_slice_sizes c) /\
  u32 (percent_sum (buffer_slice_sizes c)) = 100 /\
  share_memory_path_prefix c <> ""%string /\
  queue_path c <> ""%string.

(** ** Alignment *)

(** Masking the low [n] bits of a 32-bit value. *)
Lemma land_clear_low x n :
  0 <= n -> 0 <= x < 4294967296 ->
  Z.land x (Z.land (Z.ones 32) (Z.lnot (Z.ones n))) = x - x mod 2 ^ n.
Proof.
  intros Hn Hx.
  rewrite Z.land_assoc, Z.land_ones by lia. change (2 ^ 32) with 4294967296.
  rewrite Z.mod_small, <- Z.ldiff_land, Z.ldiff_ones_r by lia.
  rewrite Z.shiftl_mul_pow2, Z.shiftr_div_pow2 by lia.
  assert (0 < 2 ^ n) by (apply Z.pow_pos_nonneg; lia).
  pose proof (Z.div_mod x (2 ^ n) ltac:(lia)). lia.
Qed.

Lemma align4_spec x : align4 x = u32 (x + 3) - u32 (x + 3) mod 4.
Proof. apply (land_clear_low _ 2); [lia|apply u32_range]. Qed.

Lemma align8_spec x : align8 x = u32 (x + 7) - u32 (x + 7) mod 8.
Proof. apply (land_clear_low _ 3); [lia|apply u32_range]. Qed.

(** Rounding up to a multiple of 4 that still fits in 32 bits. *)
Lemma align4_up x : 0 <= x <= 4294967292 ->
  x <= align4 x < x + 4 /\ align4 x mod 4 = 0 /\ align4 x < 4294967296.
Proof. intros. rewrite align4_spec. mlia. Qed.

Lemma align8_up x : 0 <= x <= 4294967288 ->
  x <= align8 x < x + 8 /\ align8 x mod 8 = 0 /\ align8 x < 4294967296.
Proof. intros. rewrite align8_spec. mlia. Qed.

Lemma align4_idemp x : align4 (align4 x) = align4 x.
Proof. rewrite !align4_spec. mlia. Qed.

Lemma align8_idemp x : align8 (align8 x) = align8 x.
Proof. rewrite !align8_spec. mlia. Qed.

Lemma align4_mod x : align4 x mod 4 = 0.
Proof. rewrite align4_spec. mlia. Qed.

Lemma align8_mod x : align8 x mod 8 = 0.
Proof. rewrite align8_spec. mlia. Qed.

(** ** The slice-size loop *)

Lemma aligned_pair p :
  (if align4 (size p) =? size p then p else mkPair (align4 (size p)) (percent p))
  = align_pair p.
Proof. unfold align_pair. destruct p; cbn. case_if; [f_equal; lia|reflexivity]. Qed.

Lemma verify_pairs_ok cap sum l :
  0 <= sum < 4294967296 ->
  Forall (fun p => size p <= cap) l ->
  verify_pairs cap sum l = (Ok (u32 (sum + percent_sum l)), map align_pair l).
Proof.
  intros Hs Hl. revert sum Hs. induction Hl as [|p l Hp Hl IH]; intros sum Hs; cbn.
  - now rewrite Z.add_0_r, u32_id.
  - destruct (Z.ltb_spec cap (size p)); [lia|].
    rewrite aligned_pair, IH by apply u32_range.
    do 2 f_equal. unfold u32. now rewrite Zplus_mod_idemp_l, Z.add_assoc.
Qed.

Lemma verify_pairs_bad cap sum l :
  ~ Forall (fun p => size p <= cap) l ->
  exists e l', verify_pairs cap sum l = (Unexpected e, l').
Proof.
  revert sum. induction l as [|p l IH]; intros sum H; [now destruct H|]. cbn.
  destruct (Z.ltb_spec cap (size p)); [eauto|].
  destruct (IH (u32 (sum + percent p))) as (e & l' & ->); [|eauto].
  intros Hl. apply H. now constructor.
Qed.

Lemma set_queue_cap_same c : set_queue_cap c (queue_cap c) = c.
Proof. now destruct c. Qed.

(** The tail of [verify] once the slice sizes are accepted. *)
Lemma verify_queue_cap c :
  (if align8 (queue_cap c) =? queue_cap c then c else set_queue_cap c (align8 (queue_cap c)))
  = set_queue_cap c (align8 (queue_cap c)).
Proof.
  case_if; [|reflexivity].
  replace (align8 (queue_cap c)) with (queue_cap c) by lia.
  now rewrite set_queue_cap_same.
Qed.

(** The whole of [verify], by cases on its checks. *)
Lemma verify_cases c c' :
  verify c = (Ok tt, c') <-> acceptable c /\ c' = aligned_config c.
Proof.
  unfold verify, acceptable. change (Z.shiftl 1 20) with 1048576.
  destruct (Z.ltb_spec (share_memory_buffer_cap c) 1048576).
  { split; [discriminate|lia]. }
  case_bool_decide as Hnil; [split; [discriminate|tauto]|].
  destruct (decide (Forall (fun p => size p <= share_memory_buffer_cap c)
                      (buffer_slice_sizes c))) as [Hl|Hl].
  - rewrite verify_pairs_ok, Z.add_0_l by (lia || assumption).
    destruct (Z.eqb_spec (u32 (percent_sum (buffer_slice_sizes c))) 100); cbn [negb];
      [|split; [discriminate|tauto]].
    rewrite verify_queue_cap. cbn.
    destruct (String.eqb_spec (share_memory_path_prefix c) "");
      [split; [discriminate|tauto]|].
    destruct (String.eqb_spec (queue_path c) ""); [split; [discriminate|tauto]|].
    cbn. split; [intros [= <-]; tauto|intros [_ ->]; reflexivity].
  - destruct (verify_pairs_bad _ 0 _ Hl) as (e & l' & ->).
    split; [discriminate|tauto].
Qed.

(** [Config::verify] accepts exactly the configurations with at least 1 MiB
    of share memory, a non-empty list of slice sizes each no larger than the
    share memory, percents that add up to 100 on 32 bits and two non-empty
    paths; and then leaves the configuration with the slice sizes rounded up
    to 4 bytes and the queue capacity to 8, everything else unchanged. *)
Theorem verify_ok_iff c c' :
  verify c = (Ok tt, c') <-> acceptable c /\ c' = aligned_config c.
Proof. apply verify_cases. Qed.

Lemma percent_sum_align l : percent_sum (map align_pair l) = percent_sum l.
Proof. unfold percent_sum. induction l as [|p l IH]; cbn in *; lia. Qed.

Lemma map_align_idemp l : map align_pair (map align_pair l) = map align_pair l.
Proof.
  rewrite map_map. apply map_ext. intros p. unfold align_pair. cbn.
  now rewrite align4_idemp.
Qed.

Lemma aligned_config_idemp c : aligned_config (aligned_config c) = aligned_config c.
Proof.
  unfold aligned_config, set_queue_cap, set_slice_sizes; cbn.
  now rewrite map_align_idemp, align8_idemp.
Qed.

(** Rounding up does not pass a bound that is itself aligned. *)
Lemma align4_le x cap :
  0 <= x <= cap -> cap < 4294967296 -> cap mod 4 = 0 -> align4 x <= cap.
Proof. intros. rewrite align4_spec. mlia. Qed.

(** Verifying twice is verifying once: where the share-memory capacity is a
    multiple of 4, the configuration [verify] leaves is accepted again and
    left unchanged. *)
Theorem verify_idempotent c c' :
  verify c = (Ok tt, c') ->
  share_memory_buffer_cap c mod 4 = 0 ->
  share_memory_buffer_cap c < 4294967296 ->
  Forall (fun p => 0 <= size p) (buffer_slice_sizes c) ->
  verify c' = (Ok tt, c').
Proof.
  intros H Hmod Hcap Hpos. apply verify_cases in H as [Ha ->].
  apply verify_cases. split; [|now rewrite aligned_config_idemp].
  destruct Ha as (? & ? & Hl & ? & ? & ?). unfold acceptable; cbn.
  rewrite percent_sum_align. repeat split; try assumption.
  - now destruct (buffer_slice_sizes c).
  - apply Forall_map, Forall_forall. intros p Hp. cbn.
    rewrite Forall_forall in Hl, Hpos. apply align4_le; [|assumption..].
    split; auto.
Qed.

Lemma verify_idempotent_witness :
  verify default_config = (Ok tt, default_config) /\
  verify default_config = (Ok tt, default_config).
Proof.
  split; [vm_compute; reflexivity|].
  apply (verify_idempotent default_config); [vm_compute; reflexivity..|].
  repeat constructor; vm_compute; discriminate.
Defined.

Lemma aligned_default : aligned_config default_config = default_config.
Proof. vm_compute. reflexivity. Qed.
