(* ===== verification/Shm.v ===== *)
(** The shared mapping: the bytes both processes see through [MemoryMap]
    ([include/shmipc/queue.hpp]) and the accesses the sources make to them
    ([load_u32], [store_u32], [load_unaligned_i64], the [std::atomic]
    operations, [memcpy]).

    Both processes map the same bytes at different base addresses and every
    pointer the sources keep is [base + offset]; here a pointer is the offset,
    so that one value of [shm] is what both processes read and write.  A fresh
    mapping ([ftruncate] of a new file) reads as zeros, so absent bytes are 0.
    Multi-byte values are little-endian (the x86_64 and aarch64 [memcpy]).

    An access outside the mapping is undefined in the source.  The accesses
    are partial here and [None] stands for it, so a theorem that an operation
    returns [Some] is also a proof that it stays inside the mapping. *)
From S2P Require Import Prelude.

Record shm := Shm { shm_len : Z; shm_data : gmap Z Z }.

(** A byte of the mapping; a cell holds 8 bits. *)
Definition get8 (m : shm) (a : Z) : Z := u8 (default 0 (shm_data m !! a)).
Definition put8 (m : shm) (a v : Z) : shm :=
  Shm (shm_len m) (<[a := u8 v]> (shm_data m)).

(** [n] bytes, little-endian. *)
Fixpoint get_le (n : nat) (m : shm) (a : Z) : Z :=
  match n with
  | O => 0
  | S n' => get8 m a + 256 * get_le n' m (a + 1)
  end.

Fixpoint put_le (n : nat) (m : shm) (a v : Z) : shm :=
  match n with
  | O => m
  | S n' => put_le n' (put8 m a v) (a + 1) (v / 256)
  end.

Definition get16 : shm -> Z -> Z := get_le 2.
Definition put16 : shm -> Z -> Z -> shm := put_le 2.
Definition get32 : shm -> Z -> Z := get_le 4.
Definition put32 : shm -> Z -> Z -> shm := put_le 4.
Definition get64 : shm -> Z -> Z := get_le 8.
Definition put64 : shm -> Z -> Z -> shm := put_le 8.

(** A run of bytes. *)
Definition get_bytes (m : shm) (a : Z) (n : nat) : list Z :=
  map (fun i => get8 m (a + Z.of_nat i)) (seq 0 n).

Fixpoint put_bytes (m : shm) (a : Z) (bs : list Z) : shm :=
  match bs with
  | [] => m
  | b :: bs' => put_bytes (put8 m a b) (a + 1) bs'
  end.

(** The access [[a, a + n)] lies in the mapping. *)
Definition in_bounds (m : shm) (a n : Z) : bool := (0 <=? a) && (a + n <=? shm_len m).

Definition load_u8 (m : shm) (a : Z) : option Z :=
  if in_bounds m a 1 then Some (get8 m a) else None.
Definition store_u8 (m : shm) (a v : Z) : option shm :=
  if in_bounds m a 1 then Some (put8 m a v) else None.
Definition load_u16 (m : shm) (a : Z) : option Z :=
  if in_bounds m a 2 then Some (get16 m a) else None.
Definition store_u16 (m : shm) (a v : Z) : option shm :=
  if in_bounds m a 2 then Some (put16 m a v) else None.
Definition load_u32 (m : shm) (a : Z) : option Z :=
  if in_bounds m a 4 then Some (get32 m a) else None.
Definition store_u32 (m : shm) (a v : Z) : option shm :=
  if in_bounds m a 4 then Some (put32 m a v) else None.
Definition load_i32 (m : shm) (a : Z) : option Z :=
  if in_bounds m a 4 then Some (i32 (get32 m a)) else None.
Definition load_i64 (m : shm) (a : Z) : option Z :=
  if in_bounds m a 8 then Some (i64 (get64 m a)) else None.
Definition store_i64 (m : shm) (a v : Z) : option shm :=
  if in_bounds m a 8 then Some (put64 m a v) else None.

Definition load_bytes (m : shm) (a n : Z) : option (list Z) :=
  if (n =? 0) || in_bounds m a n then Some (get_bytes m a (Z.to_nat n)) else None.
(** [memcpy(p, src, n)]; copying nothing touches nothing. *)
Definition store_bytes (m : shm) (a : Z) (bs : list Z) : option shm :=
  if (Z.of_nat (length bs) =? 0) || in_bounds m a (Z.of_nat (length bs))
  then Some (put_bytes m a bs) else None.

(** [std::memset(p, 0, n)]. *)
Definition memset0 (m : shm) (a n : Z) : option shm :=
  store_bytes m a (replicate (Z.to_nat n) 0).

(** [std::atomic<std::int32_t>::fetch_add]: the previous value. *)
Definition fetch_add_i32 (m : shm) (a d : Z) : option (Z * shm) :=
  if in_bounds m a 4 then
    let old := i32 (get32 m a) in Some (old, put32 m a (old + d))
  else None.
Definition fetch_sub_i32 (m : shm) (a d : Z) : option (Z * shm) := fetch_add_i32 m a (- d).

(** [compare_exchange_strong] on 32 bits: whether it stored, and [expected]
    as it leaves it. *)
Definition cas_u32 (m : shm) (a expected desired : Z) : option (bool * Z * shm) :=
  if in_bounds m a 4 then
    let cur := get32 m a in
    if cur =? expected then Some (true, expected, put32 m a desired)
    else Some (false, cur, m)
  else None.

(** A fresh mapping of [n] bytes. *)
Definition zero_shm (n : Z) : shm := Shm n ∅.

(** Two mappings with the same bytes. *)
#[global] Instance shm_equiv : Equiv shm :=
  fun m1 m2 => shm_len m1 = shm_len m2 /\ forall a, get8 m1 a = get8 m2 a.

(** [m1] and [m2] hold the same bytes on [[a, a + n)]. *)
Definition same_on (a n : Z) (m1 m2 : shm) : Prop :=
  forall b, a <= b < a + n -> get8 m1 b = get8 m2 b.

(** [m2] differs from [m1] on [[a, a + n)] at most. *)
Definition same_outside (a n : Z) (m1 m2 : shm) : Prop :=
  shm_len m1 = shm_len m2 /\ forall b, b < a \/ a + n <= b -> get8 m1 b = get8 m2 b.

(** [m2] differs from [m1] at the addresses of [P] at most. *)
Definition same_but (P : Z -> Prop) (m1 m2 : shm) : Prop :=
  shm_len m1 = shm_len m2 /\ forall b, ~ P b -> get8 m1 b = get8 m2 b.

#[global] Arguments get8 : simpl never.
#[global] Arguments put8 : simpl never.
#[global] Arguments get16 : simpl never.
#[global] Arguments put16 : simpl never.
#[global] Arguments get32 : simpl never.
#[global] Arguments put32 : simpl never.
#[global] Arguments get64 : simpl never.
#[global] Arguments put64 : simpl never.
#[global] Arguments get_bytes : simpl never.

(** * Bytes *)

Lemma get8_range m a : 0 <= get8 m a < 256.
Proof. apply u8_range. Qed.
#[export] Hint Resolve get8_range : bounds.

Lemma get8_put8 m a b v : get8 (put8 m a v) b = if decide (a = b) then u8 v else get8 m b.
Proof.
  unfold get8, put8; cbn. rewrite lookup_insert.
  case_decide; [apply u8_idemp|reflexivity].
Qed.

Lemma get8_put8_eq m a b v : a = b -> get8 (put8 m a v) b = u8 v.
Proof. intros ->. rewrite get8_put8, decide_True; reflexivity. Qed.
Lemma get8_put8_ne m a b v : a <> b -> get8 (put8 m a v) b = get8 m b.
Proof. intros. now rewrite get8_put8, decide_False. Qed.

Lemma get8_put_le n m a v b :
  get8 (put_le n m a v) b =
  if decide (a <= b < a + Z.of_nat n) then u8 (v / 256 ^ (b - a)) else get8 m b.
Proof.
  revert m a v. induction n as [|n IH]; intros m a v; cbn [put_le].
  - rewrite decide_False by lia. reflexivity.
  - rewrite IH. destruct (decide (a = b)) as [->|Hne].
    + rewrite decide_False, decide_True by lia.
      now rewrite get8_put8_eq, Z.sub_diag, Z.div_1_r.
    + rewrite get8_put8_ne by lia.
      destruct (decide (a + 1 <= b < a + 1 + Z.of_nat n)).
      * rewrite decide_True by lia. f_equal.
        rewrite Z.div_div by (try apply Z.pow_pos_nonneg; lia). f_equal.
        change 256 with (256 ^ 1) at 1. rewrite <- Z.pow_add_r by lia. f_equal. lia.
      * rewrite decide_False by lia. reflexivity.
Qed.

Lemma get8_put32_eq m a b v : a = b -> get8 (put32 m a v) b = u8 v.
Proof.
  intros ->. unfold put32. cbn [put_le]. rewrite !get8_put8_ne, get8_put8_eq by lia. reflexivity.
Qed.

Lemma get8_put_bytes m a bs b :
  get8 (put_bytes m a bs) b =
  if decide (a <= b < a + Z.of_nat (length bs))
  then u8 (default 0 (bs !! Z.to_nat (b - a))) else get8 m b.
Proof.
  revert m a. induction bs as [|x bs IH]; intros m a; cbn [put_bytes length].
  - rewrite decide_False by lia. reflexivity.
  - rewrite IH. destruct (decide (a = b)) as [->|Hne].
    + rewrite decide_False, decide_True by lia.
      now rewrite get8_put8_eq, Z.sub_diag.
    + rewrite get8_put8_ne by lia.
      destruct (decide (a + 1 <= b < a + 1 + Z.of_nat (length bs))).
      * rewrite decide_True by lia.
        replace (Z.to_nat (b - a)) with (S (Z.to_nat (b - (a + 1)))) by lia.
        reflexivity.
      * rewrite decide_False by lia. reflexivity.
Qed.

Lemma put_le_len n m a v : shm_len (put_le n m a v) = shm_len m.
Proof. revert m a v. induction n; intros; cbn; [reflexivity|now rewrite IHn]. Qed.
Lemma put_bytes_len m a bs : shm_len (put_bytes m a bs) = shm_len m.
Proof. revert m a. induction bs; intros; cbn; [reflexivity|now rewrite IHbs]. Qed.
Lemma put8_len m a v : shm_len (put8 m a v) = shm_len m.
Proof. reflexivity. Qed.
Lemma put16_len m a v : shm_len (put16 m a v) = shm_len m.
Proof. apply put_le_len. Qed.
Lemma put32_len m a v : shm_len (put32 m a v) = shm_len m.
Proof. apply put_le_len. Qed.
Lemma put64_len m a v : shm_len (put64 m a v) = shm_len m.
Proof. apply put_le_len. Qed.
#[export] Hint Rewrite put8_len put16_len put32_len put64_len put_bytes_len : shm.

(** * Words *)

Lemma get_le_ext n m1 m2 a :
  same_on a (Z.of_nat n) m1 m2 -> get_le n m1 a = get_le n m2 a.
Proof.
  revert a. induction n as [|n IH]; intros a H; cbn; [reflexivity|].
  rewrite (H a) by lia. f_equal. f_equal. apply IH. intros b Hb. apply H. lia.
Qed.

Lemma get_le_range n m a : 0 <= get_le n m a < 256 ^ Z.of_nat n.
Proof.
  revert a. induction n as [|n IH]; intros a; cbn [get_le]; [lia|].
  pose proof (get8_range m a). pose proof (IH (a + 1)).
  rewrite Nat2Z.inj_succ, Z.pow_succ_r by lia. lia.
Qed.

Lemma get_le_put_le n m a v : get_le n (put_le n m a v) a = v mod 256 ^ Z.of_nat n.
Proof.
  revert m a v. induction n as [|n IH]; intros m a v; cbn [put_le get_le].
  - now rewrite Z.mod_1_r.
  - rewrite IH, get8_put_le, decide_False, get8_put8_eq by lia.
    rewrite Nat2Z.inj_succ, Z.pow_succ_r by lia.
    rewrite Z.rem_mul_r by (try apply Z.pow_pos_nonneg; lia). reflexivity.
Qed.

Lemma get_le_put_le_ne n k m a v b :
  b + Z.of_nat n <= a \/ a + Z.of_nat k <= b ->
  get_le n (put_le k m a v) b = get_le n m b.
Proof.
  intros H. apply get_le_ext. intros c Hc. rewrite get8_put_le, decide_False by lia.
  reflexivity.
Qed.

Lemma get_le_put_bytes_ne n m a bs b :
  b + Z.of_nat n <= a \/ a + Z.of_nat (length bs) <= b ->
  get_le n (put_bytes m a bs) b = get_le n m b.
Proof.
  intros H. apply get_le_ext. intros c Hc. rewrite get8_put_bytes, decide_False by lia.
  reflexivity.
Qed.

Lemma get_le_put8_ne n m a v b :
  b + Z.of_nat n <= a \/ a + 1 <= b -> get_le n (put8 m a v) b = get_le n m b.
Proof. intros H. apply get_le_ext. intros c Hc. apply get8_put8_ne. lia. Qed.

Lemma get16_range m a : 0 <= get16 m a < 65536.
Proof. apply (get_le_range 2). Qed.
Lemma get32_range m a : 0 <= get32 m a < 4294967296.
Proof. apply (get_le_range 4). Qed.
Lemma get64_range m a : 0 <= get64 m a < 18446744073709551616.
Proof. apply (get_le_range 8). Qed.
#[export] Hint Resolve get16_range get32_range get64_range : bounds.

Lemma get16_put16 m a b v : a = b -> get16 (put16 m a v) b = u16 v.
Proof. intros ->. apply (get_le_put_le 2). Qed.
Lemma get32_put32 m a b v : a = b -> get32 (put32 m a v) b = u32 v.
Proof. intros ->. apply (get_le_put_le 4). Qed.
Lemma get64_put64 m a b v : a = b -> get64 (put64 m a v) b = u64 v.
Proof. intros ->. apply (get_le_put_le 8). Qed.

(** Reads past disjoint writes. *)
Lemma get8_put16_ne m a b v : b + 1 <= a \/ a + 2 <= b -> get8 (put16 m a v) b = get8 m b.
Proof. intros. unfold put16. rewrite get8_put_le, decide_False by lia. reflexivity. Qed.
Lemma get8_put32_ne m a b v : b + 1 <= a \/ a + 4 <= b -> get8 (put32 m a v) b = get8 m b.
Proof. intros. unfold put32. rewrite get8_put_le, decide_False by lia. reflexivity. Qed.
Lemma get8_put64_ne m a b v : b + 1 <= a \/ a + 8 <= b -> get8 (put64 m a v) b = get8 m b.
Proof. intros. unfold put64. rewrite get8_put_le, decide_False by lia. reflexivity. Qed.
Lemma get8_put_bytes_ne m a bs b :
  b + 1 <= a \/ a + Z.of_nat (length bs) <= b -> get8 (put_bytes m a bs) b = get8 m b.
Proof. intros. rewrite get8_put_bytes, decide_False by lia. reflexivity. Qed.
Lemma get16_put32_ne m a b v : b + 2 <= a \/ a + 4 <= b -> get16 (put32 m a v) b = get16 m b.
Proof. intros. apply (get_le_put_le_ne 2 4). lia. Qed.
Lemma get16_put16_ne m a b v : b + 2 <= a \/ a + 2 <= b -> get16 (put16 m a v) b = get16 m b.
Proof. intros. apply (get_le_put_le_ne 2 2). lia. Qed.
Lemma get16_put8_ne m a b v : b + 2 <= a \/ a + 1 <= b -> get16 (put8 m a v) b = get16 m b.
Proof. intros. apply (get_le_put8_ne 2). lia. Qed.
Lemma get32_put8_ne m a b v : b + 4 <= a \/ a + 1 <= b -> get32 (put8 m a v) b = get32 m b.
Proof. intros. apply (get_le_put8_ne 4). lia. Qed.
Lemma get32_put16_ne m a b v : b + 4 <= a \/ a + 2 <= b -> get32 (put16 m a v) b = get32 m b.
Proof. intros. apply (get_le_put_le_ne 4 2). lia. Qed.
Lemma get32_put32_ne m a b v : b + 4 <= a \/ a + 4 <= b -> get32 (put32 m a v) b = get32 m b.
Proof. intros. apply (get_le_put_le_ne 4 4). lia. Qed.
Lemma get32_put64_ne m a b v : b + 4 <= a \/ a + 8 <= b -> get32 (put64 m a v) b = get32 m b.
Proof. intros. apply (get_le_put_le_ne 4 8). lia. Qed.
Lemma get32_put_bytes_ne m a bs b :
  b + 4 <= a \/ a + Z.of_nat (length bs) <= b -> get32 (put_bytes m a bs) b = get32 m b.
Proof. intros. apply (get_le_put_bytes_ne 4). lia. Qed.
Lemma get64_put32_ne m a b v : b + 8 <= a \/ a + 4 <= b -> get64 (put32 m a v) b = get64 m b.
Proof. intros. apply (get_le_put_le_ne 8 4). lia. Qed.
Lemma get64_put64_ne m a b v : b + 8 <= a \/ a + 8 <= b -> get64 (put64 m a v) b = get64 m b.
Proof. intros. apply (get_le_put_le_ne 8 8). lia. Qed.

#[export] Hint Rewrite get8_put8_eq get8_put32_eq get8_put8_ne get8_put16_ne get8_put32_ne get8_put64_ne
  get8_put_bytes_ne get16_put16 get16_put16_ne get16_put32_ne get16_put8_ne
  get32_put32 get32_put32_ne get32_put8_ne get32_put16_ne get32_put64_ne
  get32_put_bytes_ne get64_put64 get64_put64_ne get64_put32_ne using lia : shm.

(** * Accesses in bounds *)

Section in_bounds.
Context (m : shm) (a : Z).

Lemma in_bounds_true n : 0 <= a -> a + n <= shm_len m -> in_bounds m a n = true.
Proof. unfold in_bounds. lia. Qed.

Lemma load_u8_in : 0 <= a -> a + 1 <= shm_len m -> load_u8 m a = Some (get8 m a).
Proof. intros. unfold load_u8. now rewrite in_bounds_true. Qed.
Lemma store_u8_in v : 0 <= a -> a + 1 <= shm_len m -> store_u8 m a v = Some (put8 m a v).
Proof. intros. unfold store_u8. now rewrite in_bounds_true. Qed.
Lemma load_u16_in : 0 <= a -> a + 2 <= shm_len m -> load_u16 m a = Some (get16 m a).
Proof. intros. unfold load_u16. now rewrite in_bounds_true. Qed.
Lemma store_u16_in v : 0 <= a -> a + 2 <= shm_len m -> store_u16 m a v = Some (put16 m a v).
Proof. intros. unfold store_u16. now rewrite in_bounds_true. Qed.
Lemma load_u32_in : 0 <= a -> a + 4 <= shm_len m -> load_u32 m a = Some (get32 m a).
Proof. intros. unfold load_u32. now rewrite in_bounds_true. Qed.
Lemma store_u32_in v : 0 <= a -> a + 4 <= shm_len m -> store_u32 m a v = Some (put32 m a v).
Proof. intros. unfold store_u32. now rewrite in_bounds_true. Qed.
Lemma load_i32_in : 0 <= a -> a + 4 <= shm_len m -> load_i32 m a = Some (i32 (get32 m a)).
Proof. intros. unfold load_i32. now rewrite in_bounds_true. Qed.
Lemma load_i64_in : 0 <= a -> a + 8 <= shm_len m -> load_i64 m a = Some (i64 (get64 m a)).
Proof. intros. unfold load_i64. now rewrite in_bounds_true. Qed.
Lemma store_i64_in v : 0 <= a -> a + 8 <= shm_len m -> store_i64 m a v = Some (put64 m a v).
Proof. intros. unfold store_i64. now rewrite in_bounds_true. Qed.
Lemma fetch_add_i32_in d : 0 <= a -> a + 4 <= shm_len m ->
  fetch_add_i32 m a d = Some (i32 (get32 m a), put32 m a (i32 (get32 m a) + d)).
Proof. intros. unfold fetch_add_i32. now rewrite in_bounds_true. Qed.
Lemma fetch_sub_i32_in d : 0 <= a -> a + 4 <= shm_len m ->
  fetch_sub_i32 m a d = Some (i32 (get32 m a), put32 m a (i32 (get32 m a) - d)).
Proof. intros. unfold fetch_sub_i32. now rewrite fetch_add_i32_in. Qed.
Lemma cas_u32_hit e d : 0 <= a -> a + 4 <= shm_len m -> get32 m a = e ->
  cas_u32 m a e d = Some (true, e, put32 m a d).
Proof. intros ?? He. unfold cas_u32. now rewrite in_bounds_true, He, Z.eqb_refl. Qed.
Lemma cas_u32_miss e d : 0 <= a -> a + 4 <= shm_len m -> get32 m a <> e ->
  cas_u32 m a e d = Some (false, get32 m a, m).
Proof.
  intros ?? He. unfold cas_u32. rewrite in_bounds_true by assumption.
  cbv zeta. destruct (Z.eqb_spec (get32 m a) e); [contradiction|reflexivity].
Qed.
Lemma load_bytes_in n : 0 <= a -> a + n <= shm_len m ->
  load_bytes m a n = Some (get_bytes m a (Z.to_nat n)).
Proof. intros. unfold load_bytes. rewrite in_bounds_true, orb_true_r by lia. reflexivity. Qed.
Lemma store_bytes_in bs : 0 <= a -> a + Z.of_nat (length bs) <= shm_len m ->
  store_bytes m a bs = Some (put_bytes m a bs).
Proof. intros. unfold store_bytes. rewrite in_bounds_true, orb_true_r by lia. reflexivity. Qed.
End in_bounds.

(** Run the accesses of a goal: each is in bounds by arithmetic on the
    (unchanged) length of the mapping. *)
Ltac shm_run :=
  repeat first
    [ rewrite load_u8_in by (autorewrite with shm; lia)
    | rewrite store_u8_in by (autorewrite with shm; lia)
    | rewrite load_u16_in by (autorewrite with shm; lia)
    | rewrite store_u16_in by (autorewrite with shm; lia)
    | rewrite load_u32_in by (autorewrite with shm; lia)
    | rewrite store_u32_in by (autorewrite with shm; lia)
    | rewrite load_i32_in by (autorewrite with shm; lia)
    | rewrite load_i64_in by (autorewrite with shm; lia)
    | rewrite store_i64_in by (autorewrite with shm; lia)
    | rewrite fetch_add_i32_in by (autorewrite with shm; lia)
    | rewrite fetch_sub_i32_in by (autorewrite with shm; lia)
    | progress cbn [mbind option_bind fst snd] ].

(** Simplify reads of written memory. *)
Ltac shm_simp := autorewrite with shm width.

(** * Runs of bytes *)

Lemma get_bytes_length m a n : length (get_bytes m a n) = n.
Proof. unfold get_bytes. now rewrite length_map, length_seq. Qed.

Lemma get_bytes_lookup m a n i :
  (i < n)%nat -> get_bytes m a n !! i = Some (get8 m (a + Z.of_nat i)).
Proof.
  intros. unfold get_bytes. rewrite list_lookup_fmap, lookup_seq_lt by lia. reflexivity.
Qed.

Lemma get_bytes_ext m1 m2 a n :
  same_on a (Z.of_nat n) m1 m2 -> get_bytes m1 a n = get_bytes m2 a n.
Proof.
  intros H. apply map_ext_in. intros i [_ Hi]%in_seq. apply H. lia.
Qed.

Lemma get_bytes_app m a n k :
  get_bytes m a (n + k) = get_bytes m a n ++ get_bytes m (a + Z.of_nat n) k.
Proof.
  unfold get_bytes. rewrite seq_app, map_app. f_equal. rewrite Nat.add_0_l.
  rewrite <- (Nat.add_0_r n) at 1. generalize 0%nat as s.
  induction k as [|k IH]; intros s; cbn; [reflexivity|].
  rewrite <- Nat.add_succ_r, IH. f_equal. f_equal. lia.
Qed.

Lemma get_bytes_byte m a n : Forall (fun b => 0 <= b < 256) (get_bytes m a n).
Proof. apply Forall_map, Forall_forall. intros. apply get8_range. Qed.

(** [memcpy] then read back. *)
Lemma get_bytes_put_bytes m a bs :
  Forall (fun b => 0 <= b < 256) bs ->
  get_bytes (put_bytes m a bs) a (length bs) = bs.
Proof.
  intros Hb. apply list_eq_same_length with (length bs);
    [reflexivity|apply get_bytes_length|].
  intros i x y Hi Hx Hy. rewrite get_bytes_lookup in Hx by lia.
  simplify_eq. rewrite get8_put_bytes, decide_True by lia.
  replace (Z.to_nat (a + Z.of_nat i - a)) with i by lia. rewrite Hy. cbn.
  apply u8_id. rewrite Forall_lookup in Hb. eauto.
Qed.

Lemma get_bytes_put_bytes_ne m a bs b n :
  b + Z.of_nat n <= a \/ a + Z.of_nat (length bs) <= b ->
  get_bytes (put_bytes m a bs) b n = get_bytes m b n.
Proof. intros. apply get_bytes_ext. intros c Hc. apply get8_put_bytes_ne. lia. Qed.

(** * Equal bytes *)

#[global] Instance shm_equiv_equivalence : Equivalence (≡@{shm}).
Proof.
  split.
  - intros m. split; reflexivity.
  - intros m1 m2 [Hl Hb]. split; [now symmetry|]. intros a. now symmetry.
  - intros m1 m2 m3 [Hl1 Hb1] [Hl2 Hb2]. split; [congruence|].
    intros a. now rewrite Hb1.
Qed.

#[global] Instance get8_proper : Proper ((≡) ==> (=) ==> (=)) get8.
Proof. intros m1 m2 [_ Hb] a ? <-. apply Hb. Qed.
#[global] Instance get_le_proper n : Proper ((≡) ==> (=) ==> (=)) (get_le n).
Proof. intros m1 m2 [_ Hb] a ? <-. apply get_le_ext. intros b _. apply Hb. Qed.
#[global] Instance get32_proper : Proper ((≡) ==> (=) ==> (=)) get32 := get_le_proper 4.
#[global] Instance get64_proper : Proper ((≡) ==> (=) ==> (=)) get64 := get_le_proper 8.
#[global] Instance get_bytes_proper : Proper ((≡) ==> (=) ==> (=) ==> (=)) get_bytes.
Proof. intros m1 m2 [_ Hb] a ? <- n ? <-. apply get_bytes_ext. intros b _. apply Hb. Qed.
#[global] Instance shm_len_proper : Proper ((≡) ==> (=)) shm_len.
Proof. intros m1 m2 [Hl _]. exact Hl. Qed.

(** A word determines its bytes. *)
Lemma get_le_inj n m1 m2 a :
  get_le n m1 a = get_le n m2 a -> same_on a (Z.of_nat n) m1 m2.
Proof.
  revert a. induction n as [|n IH]; intros a H b Hb; [lia|]. cbn [get_le] in H.
  pose proof (get8_range m1 a). pose proof (get8_range m2 a).
  destruct (decide (b = a)) as [->|]; [lia|].
  apply (IH (a + 1)); lia.
Qed.

(** Writing back the word that is there changes nothing. *)
Lemma put32_same m a v : u32 v = get32 m a -> put32 m a v ≡ m.
Proof.
  intros Hv. split; [apply put_le_len|]. intros b.
  destruct (decide (a <= b < a + 4)) as [Hb|Hb].
  - apply (get_le_inj 4 (put32 m a v) m a); [|cbn; lia].
    change (get32 (put32 m a v) a = get32 m a). now rewrite get32_put32.
  - apply get8_put32_ne. lia.
Qed.

Lemma put32_put32 m a v w : put32 (put32 m a v) a w ≡ put32 m a w.
Proof.
  split; [now rewrite !put32_len|]. intros b. unfold put32.
  rewrite !get8_put_le. case_decide; reflexivity.
Qed.

#[global] Instance put32_proper : Proper ((≡) ==> (=) ==> (=) ==> (≡)) put32.
Proof.
  intros m1 m2 [Hl Hb] a ? <- v ? <-. split; [now rewrite !put32_len|].
  intros b. unfold put32. rewrite !get8_put_le. case_decide; [reflexivity|apply Hb].
Qed.

(** * Frames *)

Lemma same_outside_refl a n m : same_outside a n m m.
Proof. split; reflexivity. Qed.
Lemma same_outside_trans a n m1 m2 m3 :
  same_outside a n m1 m2 -> same_outside a n m2 m3 -> same_outside a n m1 m3.
Proof.
  intros [H1 H1'] [H2 H2']. split; [congruence|]. intros b Hb.
  now rewrite H1', H2'.
Qed.
Lemma same_outside_put32 a n m1 m2 b v :
  same_outside a n m1 m2 -> a <= b -> b + 4 <= a + n -> same_outside a n m1 (put32 m2 b v).
Proof.
  intros [H1 H1'] ??. split; [now rewrite put32_len|]. intros c Hc.
  rewrite get8_put32_ne by lia. auto.
Qed.
Lemma same_outside_put8 a n m1 m2 b v :
  same_outside a n m1 m2 -> a <= b -> b + 1 <= a + n -> same_outside a n m1 (put8 m2 b v).
Proof.
  intros [H1 H1'] ??. split; [exact H1|]. intros c Hc.
  rewrite get8_put8_ne by lia. auto.
Qed.
Lemma same_outside_weaken a n b k m1 m2 :
  same_outside a n m1 m2 -> b <= a -> a + n <= b + k -> same_outside b k m1 m2.
Proof. intros [H1 H1'] ??. split; [exact H1|]. intros c Hc. apply H1'. lia. Qed.
Lemma same_outside_get32 a n m1 m2 b :
  same_outside a n m1 m2 -> b + 4 <= a \/ a + n <= b -> get32 m2 b = get32 m1 b.
Proof.
  intros [_ H] Hb. symmetry. apply (get_le_ext 4). intros c Hc. apply H. cbn in Hc. lia.
Qed.
Lemma same_outside_get8 a n m1 m2 b :
  same_outside a n m1 m2 -> b + 1 <= a \/ a + n <= b -> get8 m2 b = get8 m1 b.
Proof. intros [_ H] Hb. symmetry. apply H. lia. Qed.
#[export] Hint Resolve same_outside_refl : bounds.

(** Prove that a chain of writes stays inside a range. *)
Ltac frame :=
  repeat first [ apply same_outside_put32; [|lia|lia]
               | apply same_outside_put8; [|lia|lia]
               | assumption | apply same_outside_refl ].

Lemma same_but_refl P m : same_but P m m.
Proof. split; reflexivity. Qed.
Lemma same_but_trans P m1 m2 m3 : same_but P m1 m2 -> same_but P m2 m3 -> same_but P m1 m3.
Proof.
  intros [H1 H1'] [H2 H2']. split; [congruence|]. intros b Hb. now rewrite H1', H2'.
Qed.
Lemma same_but_weaken (P Q : Z -> Prop) m1 m2 :
  same_but P m1 m2 -> (forall b, P b -> Q b) -> same_but Q m1 m2.
Proof. intros [H1 H2] HPQ. split; [exact H1|]. auto. Qed.
Lemma same_but_put32 (P : Z -> Prop) m1 m2 a v :
  same_but P m1 m2 -> (forall b, a <= b < a + 4 -> P b) -> same_but P m1 (put32 m2 a v).
Proof.
  intros [H1 H2] HP. split; [now rewrite put32_len|]. intros b Hb.
  rewrite H2 by assumption. unfold put32. rewrite get8_put_le. case_decide as E; [|reflexivity].
  destruct Hb. apply HP. cbn in E. lia.
Qed.
Lemma same_but_put8 (P : Z -> Prop) m1 m2 a v :
  same_but P m1 m2 -> P a -> same_but P m1 (put8 m2 a v).
Proof.
  intros [H1 H2] HP. split; [exact H1|]. intros b Hb. rewrite H2 by assumption.
  rewrite get8_put8. case_decide; [now subst|reflexivity].
Qed.
Lemma same_but_put_bytes (P : Z -> Prop) m1 m2 a bs :
  same_but P m1 m2 -> (forall b, a <= b < a + Z.of_nat (length bs) -> P b) ->
  same_but P m1 (put_bytes m2 a bs).
Proof.
  intros [H1 H2] HP. split; [now rewrite put_bytes_len|]. intros b Hb.
  rewrite H2 by assumption. rewrite get8_put_bytes_ne; [reflexivity|].
  destruct (decide (b + 1 <= a)); [now left|]. right.
  destruct (decide (a + Z.of_nat (length bs) <= b)); [assumption|].
  destruct Hb. apply HP. lia.
Qed.
Lemma same_but_get32 (P : Z -> Prop) m1 m2 a :
  same_but P m1 m2 -> (forall b, a <= b < a + 4 -> ~ P b) -> get32 m2 a = get32 m1 a.
Proof. intros [_ H] Ha. symmetry. apply (get_le_ext 4). intros b Hb. apply H, Ha. cbn in Hb. lia. Qed.
Lemma same_but_bytes (P : Z -> Prop) m1 m2 a n :
  same_but P m1 m2 -> (forall b, a <= b < a + Z.of_nat n -> ~ P b) ->
  get_bytes m2 a n = get_bytes m1 a n.
Proof. intros [_ H] Ha. symmetry. apply get_bytes_ext. intros b Hb. apply H, Ha. lia. Qed.
#[export] Hint Resolve same_but_refl : bounds.
