(* ===== verification/Queue.v ===== *)
(** The IO queue: [include/shmipc/queue.hpp] and the [Queue] part of
    [src/queue.cpp].

    A [Queue] is a handle: the addresses of its counters and of its slots in
    the mapping.  The operations read and write the mapping itself, so the
    handles of the two processes alias the same queue.  Here each operation
    runs alone; [QueueConc] interleaves their single accesses. *)
From S2P Require Import Prelude Errors Consts Shm.

(** [#if defined(__aarch64__)]: the two layouts of the queue header. *)
Inductive arch := x86_64 | aarch64.

Record QueueElement := mkElem {
  seq_id : Z;
  offset_in_shm_buf : Z;
  status : Z;
}.

#[global] Instance QueueElement_eq_dec : EqDecision QueueElement.
Proof. solve_decision. Defined.

Record Queue := mkQueue {
  head_ : Z;
  tail_ : Z;
  working_flag_ : Z;
  queue_bytes_on_memory_ : Z;
  cap_ : Z;
  len_ : Z;
}.

Definition count_queue_mem_size (queue_cap : Z) : Z :=
  u64 (kQueueHeaderLength + kQueueElementLen * queue_cap).

Definition mapping_from_bytes (a : arch) (m : shm) (data : Z) : option Queue :=
  cap ← load_u32 m data;
  let queue_start_offset := kQueueHeaderLength in
  let queue_end_offset := kQueueHeaderLength + kQueueElementLen * cap in
  Some (match a with
        | aarch64 =>
            mkQueue (data + 8) (data + 16) (data + 4)
              (data + queue_start_offset) cap (queue_end_offset - queue_start_offset)
        | x86_64 =>
            mkQueue (data + 4) (data + 12) (data + 20)
              (data + queue_start_offset) cap (queue_end_offset - queue_start_offset)
        end).

Definition create_from_bytes (a : arch) (m : shm) (data cap : Z) : option (Queue * shm) :=
  m ← store_u32 m data cap;
  q ← mapping_from_bytes a m data;
  m ← store_i64 m (head_ q) 0;
  m ← store_i64 m (tail_ q) 0;
  m ← store_u32 m (working_flag_ q) 0;
  Some (q, m).

Definition load_head_unaligned (m : shm) (q : Queue) : option Z := load_i64 m (head_ q).
Definition load_tail_unaligned (m : shm) (q : Queue) : option Z := load_i64 m (tail_ q).
Definition store_head_unaligned (m : shm) (q : Queue) (v : Z) : option shm :=
  store_i64 m (head_ q) v.
Definition store_tail_unaligned (m : shm) (q : Queue) (v : Z) : option shm :=
  store_i64 m (tail_ q) v.

(** [Queue::put], the mutex held throughout. *)
Definition put (m : shm) (q : Queue) (e : QueueElement) : option (result unit * shm) :=
  t ← load_tail_unaligned m q;
  h ← load_head_unaligned m q;
  if cap_ q <=? i64 (t - h) then Some (fail_with kQueueFull, m)
  else
    t ← load_tail_unaligned m q;
    r ← c_rem t (cap_ q);
    let queue_offset := u64 (r * kQueueElementLen) in
    let base := queue_bytes_on_memory_ q in
    m ← store_u32 m (base + queue_offset) (seq_id e);
    m ← store_u32 m (base + (queue_offset + 4)) (offset_in_shm_buf e);
    m ← store_u32 m (base + (queue_offset + 8)) (status e);
    t ← load_tail_unaligned m q;
    m ← store_tail_unaligned m q (i64 (t + 1));
    Some (Ok tt, m).

Definition pop (m : shm) (q : Queue) : option (result QueueElement * shm) :=
  h ← load_head_unaligned m q;
  t ← load_tail_unaligned m q;
  if t <=? h then Some (fail_with kQueueEmpty, m)
  else
    h ← load_head_unaligned m q;
    r ← c_rem h (cap_ q);
    let queue_offset := u64 (r * kQueueElementLen) in
    let base := queue_bytes_on_memory_ q in
    x ← load_u32 m (base + queue_offset);
    y ← load_u32 m (base + (queue_offset + 4));
    z ← load_u32 m (base + (queue_offset + 8));
    h ← load_head_unaligned m q;
    m ← store_head_unaligned m q (i64 (h + 1));
    Some (Ok (mkElem x y z), m).

(** [Queue::size], [is_full], [is_empty]. *)
Definition queue_size (m : shm) (q : Queue) : option Z :=
  t ← load_tail_unaligned m q;
  h ← load_head_unaligned m q;
  Some (i64 (t - h)).
Definition is_full (m : shm) (q : Queue) : option bool :=
  n ← queue_size m q; Some (n =? cap_ q).
Definition is_empty (m : shm) (q : Queue) : option bool :=
  n ← queue_size m q; Some (n =? 0).

Definition consumer_is_working (m : shm) (q : Queue) : option bool :=
  v ← load_u32 m (working_flag_ q); Some (0 <? v).

Definition mark_working (m : shm) (q : Queue) : option (bool * shm) :=
  '(b, _, m) ← cas_u32 m (working_flag_ q) 0 1; Some (b, m).

Definition mark_not_working (m : shm) (q : Queue) : option (bool * shm) :=
  m ← store_u32 m (working_flag_ q) 0;
  n ← queue_size m q;
  if n =? 0 then Some (true, m)
  else
    m ← store_u32 m (working_flag_ q) 1;
    Some (false, m).

(** * The contract: a bounded FIFO *)

Module Fifo.
Definition put (cap : Z) (l : list QueueElement) (e : QueueElement)
    : result unit * list QueueElement :=
  if Z.of_nat (length l) <? cap then (Ok tt, l ++ [e]) else (fail_with kQueueFull, l).
Definition pop (l : list QueueElement) : result QueueElement * list QueueElement :=
  match l with
  | [] => (fail_with kQueueEmpty, [])
  | e :: l' => (Ok e, l')
  end.
End Fifo.

(** A queue header of capacity [cap] at [base], on each architecture. *)
Definition queue_at (a : arch) (base cap : Z) : Queue :=
  match a with
  | aarch64 => mkQueue (base + 8) (base + 16) (base + 4) (base + 24) cap (12 * cap)
  | x86_64 => mkQueue (base + 4) (base + 12) (base + 20) (base + 24) cap (12 * cap)
  end.

(** The fields are 32-bit values. *)
Definition elem_wf (e : QueueElement) : Prop :=
  0 <= seq_id e < 4294967296 /\ 0 <= offset_in_shm_buf e < 4294967296 /\
  0 <= status e < 4294967296.

(** Where the [i]-th element ever put goes. *)
Definition slot (q : Queue) (i : Z) : Z :=
  queue_bytes_on_memory_ q + (i mod cap_ q) * 12.

Definition elem_at (m : shm) (p : Z) (e : QueueElement) : Prop :=
  get32 m p = seq_id e /\ get32 m (p + 4) = offset_in_shm_buf e /\
  get32 m (p + 8) = status e.

(** The mapping has room for the queue. *)
Definition queue_fits (len base cap : Z) : Prop :=
  0 <= base /\ 0 <= cap < 4294967296 /\ base + 24 + 12 * cap <= len.

(** [m] holds at [base] a queue of capacity [cap] whose head counter is [h]
    and which contains [l], oldest first. *)
Record queue_rep (a : arch) (base cap : Z) (m : shm) (h : Z) (l : list QueueElement) : Prop := {
  rep_fits : queue_fits (shm_len m) base cap;
  rep_cap : get32 m base = cap;
  rep_head : get64 m (head_ (queue_at a base cap)) = h;
  rep_tail : get64 m (tail_ (queue_at a base cap)) = h + Z.of_nat (length l);
  rep_nonneg : 0 <= h;
  rep_nowrap : h + Z.of_nat (length l) < 9223372036854775808;
  rep_bounded : Z.of_nat (length l) <= cap;
  rep_elems : forall i e, l !! i = Some e ->
    elem_at m (slot (queue_at a base cap) (h + Z.of_nat i)) e;
}.

(** * Slots *)

(** Two positions of one window of [cap] elements have different slots. *)
Lemma mod_window cap i j : 0 < cap -> i < j < i + cap -> i mod cap <> j mod cap.
Proof.
  intros Hc Hij Heq.
  pose proof (Z.div_mod i cap ltac:(lia)). pose proof (Z.div_mod j cap ltac:(lia)).
  assert (j - i = cap * (j / cap - i / cap)) by lia.
  assert (0 < j / cap - i / cap < 1) by nia. lia.
Qed.

Lemma slot_range a base cap i : 0 < cap ->
  base + 24 <= slot (queue_at a base cap) i /\
  slot (queue_at a base cap) i + 12 <= base + 24 + 12 * cap.
Proof.
  intros. unfold slot. pose proof (Z.mod_pos_bound i cap ltac:(lia)).
  destruct a; cbn; nia.
Qed.

Lemma slot_disjoint a base cap i j : 0 < cap -> i < j < i + cap ->
  slot (queue_at a base cap) i + 12 <= slot (queue_at a base cap) j \/
  slot (queue_at a base cap) j + 12 <= slot (queue_at a base cap) i.
Proof.
  intros Hc Hij. pose proof (mod_window cap i j Hc Hij). unfold slot.
  destruct a; cbn; lia.
Qed.

(** The offset the code computes is the slot. *)
Lemma slot_offset a base cap t : 0 < cap < 4294967296 -> 0 <= t ->
  c_rem t cap = Some (t mod cap) /\
  queue_bytes_on_memory_ (queue_at a base cap) + u64 (t mod cap * kQueueElementLen)
  = slot (queue_at a base cap) t.
Proof.
  intros Hc Ht. pose proof (Z.mod_pos_bound t cap ltac:(lia)).
  unfold c_rem, slot. rewrite Z.rem_mod_nonneg by lia.
  destruct (Z.eqb_spec cap 0); [lia|]. split; [reflexivity|].
  unfold kQueueElementLen. rewrite u64_id by lia. destruct a; reflexivity.
Qed.

Lemma elem_at_ext m1 m2 p e :
  same_on p 12 m1 m2 -> elem_at m1 p e -> elem_at m2 p e.
Proof.
  intros H (H1 & H2 & H3).
  assert (forall k, 0 <= k <= 8 -> get32 m2 (p + k) = get32 m1 (p + k)) as Hk.
  { intros k Hk. symmetry. apply (get_le_ext 4). intros b Hb. apply H. cbn in Hb. lia. }
  unfold elem_at. rewrite <- (Z.add_0_r p) at 1. rewrite !Hk by lia.
  now rewrite Z.add_0_r.
Qed.

(** * The operations on a represented queue *)

Section ops.
Context (a : arch) (base cap : Z).
Let q := queue_at a base cap.

(** Rebuild the representation after writes elsewhere in the mapping. *)
Lemma queue_rep_frame m m' h l :
  queue_rep a base cap m h l -> shm_len m' = shm_len m ->
  same_on base (24 + 12 * cap) m m' -> queue_rep a base cap m' h l.
Proof.
  intros [Hf Hc Hh Ht ? ? Hb He] Hl Hs.
  destruct Hf as (? & ? & ?).
  assert (forall n p, base <= p -> p + Z.of_nat n <= base + (24 + 12 * cap) ->
            get_le n m' p = get_le n m p) as Hg.
  { intros n p ??. symmetry. apply get_le_ext. intros b Hb'. apply Hs. lia. }
  constructor; try assumption.
  - unfold queue_fits. rewrite Hl. lia.
  - rewrite <- Hc. apply (Hg 4%nat); lia.
  - rewrite <- Hh. apply (Hg 8%nat); destruct a; cbn; lia.
  - rewrite <- Ht. apply (Hg 8%nat); destruct a; cbn; lia.
  - intros i e Hi. apply elem_at_ext with m; [|auto].
    assert (0 < cap) by (apply lookup_lt_Some in Hi; lia).
    pose proof (slot_range a base cap (h + Z.of_nat i) ltac:(lia)).
    intros b Hb'. apply Hs. lia.
Qed.

Lemma load_counters m h l : queue_rep a base cap m h l ->
  load_head_unaligned m q = Some h /\
  load_tail_unaligned m q = Some (h + Z.of_nat (length l)).
Proof.
  intros [Hf Hc Hh Ht ? ? Hb He]. destruct Hf as (? & ? & ?).
  unfold load_head_unaligned, load_tail_unaligned, q.
  split; (rewrite load_i64_in by (destruct a; cbn; lia));
    rewrite ?Hh, ?Ht, i64_id by lia; reflexivity.
Qed.

Lemma queue_size_rep m h l : queue_rep a base cap m h l ->
  queue_size m q = Some (Z.of_nat (length l)).
Proof.
  intros H. destruct (load_counters _ _ _ H) as [Hh Ht]. destruct H.
  unfold queue_size. rewrite Ht, Hh; cbn. f_equal. rewrite i64_id; lia.
Qed.

Lemma put_full m h l e : queue_rep a base cap m h l ->
  cap <= Z.of_nat (length l) -> put m q e = Some (fail_with kQueueFull, m).
Proof.
  intros H Hfull. destruct (load_counters _ _ _ H) as [Hh Ht]. destruct H.
  unfold put. rewrite Ht, Hh; cbn.
  replace (cap_ q) with cap by (unfold q; destruct a; reflexivity).
  rewrite i64_id by lia. destruct (Z.leb_spec cap (h + Z.of_nat (length l) - h)); [|lia].
  reflexivity.
Qed.

(** The mapping after a successful [put]. *)
Definition put_mem (m : shm) (t : Z) (e : QueueElement) : shm :=
  let p := slot q t in
  put64 (put32 (put32 (put32 m p (seq_id e)) (p + 4) (offset_in_shm_buf e))
           (p + 8) (status e)) (tail_ q) (t + 1).

Lemma put_run m h l e : queue_rep a base cap m h l ->
  Z.of_nat (length l) < cap ->
  h + Z.of_nat (length l) + 1 < 9223372036854775808 ->
  put m q e = Some (Ok tt, put_mem m (h + Z.of_nat (length l)) e).
Proof.
  intros H Hroom Hbig. destruct (load_counters _ _ _ H) as [Hh Ht].
  destruct H as [(? & ? & ?) Hc Hh' Ht' ? ? Hb He].
  unfold put. rewrite Ht, Hh; cbn.
  replace (cap_ q) with cap by (unfold q; destruct a; reflexivity).
  set (t := h + Z.of_nat (length l)) in *.
  rewrite i64_id by lia. destruct (Z.leb_spec cap (t - h)); [lia|].
  destruct (slot_offset a base cap t ltac:(lia) ltac:(lia)) as [Hr Hs].
  rewrite Hr; cbn. fold q in Hs. rewrite !Z.add_assoc, Hs.
  pose proof (slot_range a base cap t ltac:(lia)) as Hsr. fold q in Hsr.
  shm_run. unfold load_tail_unaligned, store_tail_unaligned.
  assert (base + 4 <= tail_ q /\ tail_ q + 8 <= base + 24)
    by (unfold q; destruct a; cbn; lia).
  rewrite load_i64_in by (shm_simp; lia). shm_simp.
  fold q in Ht'. rewrite Ht', i64_id by lia. cbn.
  rewrite i64_id, store_i64_in by (shm_simp; lia). reflexivity.
Qed.

(** Writing the slot of position [t] and the tail leaves the elements of the
    window alone. *)
Lemma put_mem_elem m t e i x : 0 < cap -> queue_fits (shm_len m) base cap ->
  t - cap < i < t -> elem_at m (slot q i) x -> elem_at (put_mem m t e) (slot q i) x.
Proof.
  intros Hc Hf Hi Hx. eapply elem_at_ext; [|exact Hx].
  intros b Hb. unfold put_mem.
  pose proof (slot_disjoint a base cap i t ltac:(lia) ltac:(lia)) as Hd. fold q in Hd.
  pose proof (slot_range a base cap i Hc) as Hr. fold q in Hr.
  assert (tail_ q + 8 <= base + 24) by (unfold q; destruct a; cbn; lia).
  autorewrite with shm. reflexivity.
Qed.

Lemma put_mem_new m t e : 0 < cap -> elem_wf e -> elem_at (put_mem m t e) (slot q t) e.
Proof.
  intros Hc (? & ? & ?). pose proof (slot_range a base cap t Hc) as Hr. fold q in Hr.
  assert (tail_ q + 8 <= base + 24) by (unfold q; destruct a; cbn; lia).
  unfold elem_at, put_mem. shm_simp. auto.
Qed.

Lemma put_rep m h l e : queue_rep a base cap m h l -> elem_wf e ->
  Z.of_nat (length l) < cap ->
  h + Z.of_nat (length l) + 1 < 9223372036854775808 ->
  queue_rep a base cap (put_mem m (h + Z.of_nat (length l)) e) h (l ++ [e]).
Proof.
  intros [Hf Hc Hh Ht ? ? Hb He] Hwf Hroom Hbig.
  set (t := h + Z.of_nat (length l)) in *.
  pose proof (slot_range a base cap t ltac:(lia)) as Hr. fold q in Hr, Ht, Hh.
  pose proof Hf as (? & ? & ?).
  assert (base + 4 <= head_ q /\ head_ q + 8 <= tail_ q /\ tail_ q + 8 <= base + 24)
    by (unfold q; destruct a; cbn; lia).
  constructor; fold q; rewrite ?length_app; cbn [length];
    try (unfold put_mem; shm_simp; assumption || lia).
  intros i x Hi.
  destruct (decide (i < length l)%nat) as [Hlt|Hge].
  - rewrite lookup_app_l in Hi by lia.
    apply (put_mem_elem m t e (h + Z.of_nat i) x); [lia|assumption|lia|].
    now apply He.
  - apply lookup_app_Some in Hi as [Hi|[? Hi]];
      [apply lookup_lt_Some in Hi; lia|].
    apply list_lookup_singleton_Some in Hi as [Hi <-].
    replace (h + Z.of_nat i) with t by lia.
    apply put_mem_new; [lia|assumption].
Qed.

Lemma pop_empty m h : queue_rep a base cap m h [] ->
  pop m q = Some (fail_with kQueueEmpty, m).
Proof.
  intros H. destruct (load_counters _ _ _ H) as [Hh Ht].
  unfold pop. rewrite Hh, Ht; cbn. rewrite Z.add_0_r, Z.leb_refl. reflexivity.
Qed.

Lemma pop_run m h e l : queue_rep a base cap m h (e :: l) ->
  pop m q = Some (Ok e, put64 m (head_ q) (h + 1)).
Proof.
  intros H. destruct (load_counters _ _ _ H) as [Hh Ht].
  destruct H as [(? & ? & ?) Hc Hh' Ht' ? ? Hb He]. cbn [length] in *.
  unfold pop. rewrite Hh, Ht; cbn [mbind option_bind].
  replace (cap_ q) with cap by (unfold q; destruct a; reflexivity).
  destruct (Z.leb_spec (h + Z.of_nat (S (length l))) h); [lia|].
  destruct (slot_offset a base cap h ltac:(lia) ltac:(lia)) as [Hr Hs].
  rewrite Hr; cbn [mbind option_bind]. fold q in Hs. rewrite !Z.add_assoc, Hs.
  pose proof (slot_range a base cap h ltac:(lia)) as Hsr. fold q in Hsr.
  destruct (He O e eq_refl) as (E1 & E2 & E3). fold q in E1, E2, E3.
  rewrite Z.add_0_r in E1, E2, E3.
  shm_run. rewrite E1, E2, E3.
  rewrite i64_id by lia. unfold store_head_unaligned.
  rewrite store_i64_in by (unfold q; destruct a; cbn; lia). cbn.
  now destruct e.
Qed.

Lemma pop_rep m h e l : queue_rep a base cap m h (e :: l) ->
  queue_rep a base cap (put64 m (head_ q) (h + 1)) (h + 1) l.
Proof.
  intros [Hf Hc Hh Ht ? ? Hb He]. cbn [length] in *. pose proof Hf as (? & ? & ?).
  assert (base + 4 <= head_ q /\ head_ q + 8 <= tail_ q /\ tail_ q + 8 <= base + 24)
    by (unfold q; destruct a; cbn; lia).
  fold q in Hh, Ht.
  constructor; fold q; shm_simp; try assumption; try lia.
  intros i x Hi. apply elem_at_ext with m.
  - intros b Hb'. assert (0 < cap) by lia.
    pose proof (slot_range a base cap (h + 1 + Z.of_nat i) ltac:(lia)) as Hr.
    fold q in Hr, Hb'. shm_simp. reflexivity.
  - replace (h + 1 + Z.of_nat i) with (h + Z.of_nat (S i)) by lia. now apply He.
Qed.

(** A [pop] stays inside the queue. *)
Lemma pop_outside m h l v : queue_rep a base cap m h l ->
  same_outside base (24 + 12 * cap) m (put64 m (head_ q) v).
Proof.
  intros H. pose proof (rep_fits _ _ _ _ _ _ H) as (? & ? & ?).
  assert (base + 4 <= head_ q /\ head_ q + 8 <= base + 24) by (unfold q; destruct a; cbn; lia).
  split; [now shm_simp|]. intros b Hb. now shm_simp.
Qed.

(** The working flag. *)
Definition flag_of (m : shm) : Z := get32 m (working_flag_ q).

Lemma flag_place : base + 4 <= working_flag_ q /\ working_flag_ q + 4 <= base + 24 /\
  (working_flag_ q + 4 <= head_ q \/ head_ q + 8 <= working_flag_ q) /\
  (working_flag_ q + 4 <= tail_ q \/ tail_ q + 8 <= working_flag_ q).
Proof. unfold q. destruct a; cbn; lia. Qed.

Lemma set_flag_rep m h l v : queue_rep a base cap m h l ->
  queue_rep a base cap (put32 m (working_flag_ q) v) h l.
Proof.
  intros [Hf Hc Hh Ht ? ? Hb He]. pose proof flag_place as (F1 & F2 & F3 & F4).
  pose proof Hf as (? & ? & ?). fold q in Hh, Ht.
  constructor; fold q; shm_simp; try assumption.
  intros i x Hi. apply elem_at_ext with m; [|now apply He]. intros b Hb'.
  assert (0 < cap) by (apply lookup_lt_Some in Hi; lia).
  pose proof (slot_range a base cap (h + Z.of_nat i) ltac:(lia)) as Hr. fold q in Hr, Hb'.
  now shm_simp.
Qed.

Lemma mark_working_rep m h l : queue_rep a base cap m h l ->
  exists m', mark_working m q = Some (bool_decide (flag_of m = 0), m') /\
    queue_rep a base cap m' h l /\ same_outside base (24 + 12 * cap) m m' /\ flag_of m' <> 0.
Proof.
  intros H. pose proof (rep_fits _ _ _ _ _ _ H) as (? & ? & ?). pose proof flag_place as (? & ? & _).
  unfold mark_working. destruct (decide (flag_of m = 0)) as [E|E].
  - rewrite cas_u32_hit by (auto; lia). cbn. eexists. rewrite bool_decide_eq_true_2 by exact E.
    split; [reflexivity|]. split; [now apply set_flag_rep|]. split.
    + apply same_outside_put32; [apply same_outside_refl|lia..].
    + unfold flag_of. rewrite get32_put32 by reflexivity. discriminate.
  - rewrite cas_u32_miss by (auto; lia). cbn. eexists. rewrite bool_decide_eq_false_2 by exact E.
    split; [reflexivity|]. auto using same_outside_refl.
Qed.

Lemma mark_not_working_empty m h : queue_rep a base cap m h [] ->
  exists m', mark_not_working m q = Some (true, m') /\ queue_rep a base cap m' h [] /\
    same_outside base (24 + 12 * cap) m m' /\ flag_of m' = 0.
Proof.
  intros H. pose proof (rep_fits _ _ _ _ _ _ H) as (? & ? & ?). pose proof flag_place as (? & ? & _).
  unfold mark_not_working. rewrite store_u32_in by lia. cbn [mbind option_bind].
  pose proof (set_flag_rep m h [] 0 H) as H'. rewrite (queue_size_rep _ _ _ H').
  cbn [mbind option_bind length]. eexists. split; [reflexivity|]. split; [exact H'|]. split.
  - apply same_outside_put32; [apply same_outside_refl|lia..].
  - unfold flag_of. now rewrite get32_put32.
Qed.

(** A [put] stays inside the queue. *)
Lemma put_mem_outside m h l e : queue_rep a base cap m h l -> 0 < cap ->
  same_outside base (24 + 12 * cap) m (put_mem m (h + Z.of_nat (length l)) e).
Proof.
  intros H Hc. pose proof (rep_fits _ _ _ _ _ _ H) as (? & ? & ?).
  pose proof (slot_range a base cap (h + Z.of_nat (length l)) Hc) as Hr. fold q in Hr.
  assert (base + 4 <= tail_ q /\ tail_ q + 8 <= base + 24) by (unfold q; destruct a; cbn; lia).
  unfold put_mem. split; [now shm_simp|]. intros b Hb. now shm_simp.
Qed.
End ops.

(** Both sides' handles on a created queue. *)
Lemma mapping_from_bytes_rep a base cap m h l :
  queue_rep a base cap m h l -> mapping_from_bytes a m base = Some (queue_at a base cap).
Proof.
  intros [(? & ? & ?) Hc _ _ _ _ _ _]. unfold mapping_from_bytes.
  rewrite load_u32_in by lia. cbn. rewrite Hc.
  unfold kQueueHeaderLength, kQueueElementLen.
  destruct a; cbn; do 2 f_equal; lia.
Qed.

Lemma create_from_bytes_rep a base cap m :
  queue_fits (shm_len m) base cap ->
  exists m', create_from_bytes a m base cap = Some (queue_at a base cap, m') /\
    queue_rep a base cap m' 0 [] /\ same_outside base 24 m m' /\
    get32 m' (working_flag_ (queue_at a base cap)) = 0.
Proof.
  intros Hf. pose proof Hf as (? & ? & ?). unfold create_from_bytes, mapping_from_bytes.
  shm_run. rewrite get32_put32 by lia. rewrite u32_id by lia.
  unfold kQueueHeaderLength, kQueueElementLen.
  replace (24 + 12 * cap - 24) with (12 * cap) by lia.
  destruct a; cbn [head_ tail_ working_flag_ mbind option_bind]; shm_run; eexists;
    (split; [reflexivity|split; [|split]]); [|unfold put64| | |unfold put64|].
  all: try (now apply get32_put32).
  all: try (split; [now rewrite put32_len, !put_le_len|]; intros b Hb;
            rewrite get8_put32_ne, !get8_put_le, !decide_False, get8_put32_ne by lia;
            reflexivity).
  all: constructor; unfold queue_fits; cbn [queue_at head_ tail_ length]; shm_simp;
    try lia; intros i e Hi; discriminate.
Qed.

(** * Refinement of the bounded FIFO *)

Inductive qop := OpPut (e : QueueElement) | OpPop.
Inductive qres := RPut (r : result unit) | RPop (r : result QueueElement).

(** A sequence of operations of either process on one queue. *)
Fixpoint run_queue (m : shm) (q : Queue) (ops : list qop) : option (list qres * shm) :=
  match ops with
  | [] => Some ([], m)
  | OpPut e :: ops' =>
      '(r, m) ← put m q e;
      '(rs, m) ← run_queue m q ops';
      Some (RPut r :: rs, m)
  | OpPop :: ops' =>
      '(r, m) ← pop m q;
      '(rs, m) ← run_queue m q ops';
      Some (RPop r :: rs, m)
  end.

Fixpoint run_fifo (cap : Z) (l : list QueueElement) (ops : list qop) : list qres :=
  match ops with
  | [] => []
  | OpPut e :: ops' =>
      let '(r, l) := Fifo.put cap l e in RPut r :: run_fifo cap l ops'
  | OpPop :: ops' =>
      let '(r, l) := Fifo.pop l in RPop r :: run_fifo cap l ops'
  end.

Definition op_wf (o : qop) : Prop :=
  match o with OpPut e => elem_wf e | OpPop => True end.

Lemma run_queue_fifo a base cap ops m h l :
  queue_rep a base cap m h l -> Forall op_wf ops ->
  h + Z.of_nat (length l) + Z.of_nat (length ops) < 9223372036854775808 ->
  exists m', run_queue m (queue_at a base cap) ops = Some (run_fifo cap l ops, m').
Proof.
  revert m h l. induction ops as [|o ops IH]; intros m h l Hrep Hwf Hn; [eauto|].
  inversion_clear Hwf as [|?? Ho Hops]. cbn [length] in Hn.
  destruct o as [e|]; cbn [run_queue run_fifo].
  - unfold Fifo.put. destruct (Z.ltb_spec (Z.of_nat (length l)) cap).
    + rewrite (put_run a base cap m h l e) by (assumption || lia). cbn.
      destruct (IH _ h (l ++ [e]) (put_rep a base cap m h l e Hrep Ho ltac:(lia) ltac:(lia)))
        as [m' ->]; [assumption|rewrite length_app; cbn; lia|].
      eauto.
    + rewrite (put_full a base cap m h l e) by (assumption || lia). cbn.
      destruct (IH m h l) as [m' ->]; [assumption..|lia|eauto].
  - destruct l as [|e l]; cbn [Fifo.pop].
    + rewrite (pop_empty a base cap m h) by assumption. cbn.
      destruct (IH m h []) as [m' ->]; [assumption..|lia|eauto].
    + rewrite (pop_run a base cap m h e l) by assumption. cbn [mbind option_bind].
      destruct (IH _ (h + 1) l (pop_rep a base cap m h e l Hrep)) as [m' ->];
        [assumption|cbn [length] in Hn; lia|eauto].
Qed.

(** C29: the IO queue refines a bounded FIFO.  On a mapping with room for it a
    queue is created, the peer's mapping of the same bytes is the same queue,
    and any sequence of [put]s and [pop]s on it (fewer than 2^63) stays inside
    the mapping and answers each call as the FIFO of that capacity does:
    elements come out whole and in the order they went in, a full queue
    answers kQueueFull and an empty one kQueueEmpty. *)
Theorem queue_refines_fifo a m base cap ops :
  queue_fits (shm_len m) base cap ->
  Forall op_wf ops ->
  Z.of_nat (length ops) < 9223372036854775808 ->
  exists q m0 m1,
    create_from_bytes a m base cap = Some (q, m0) /\
    mapping_from_bytes a m0 base = Some q /\
    run_queue m0 q ops = Some (run_fifo cap [] ops, m1).
Proof.
  intros Hf Hwf Hn.
  destruct (create_from_bytes_rep a base cap m Hf) as (m0 & Hc & Hrep & _ & _).
  destruct (run_queue_fifo a base cap ops m0 0 [] Hrep Hwf) as [m1 Hrun]; [cbn; lia|].
  exists (queue_at a base cap), m0, m1. split; [exact Hc|]. split; [|exact Hrun].
  eapply mapping_from_bytes_rep, Hrep.
Qed.

Definition demo_elem (i : Z) : QueueElement := mkElem i (100 + i) 0.

Lemma queue_refines_fifo_witness :
  run_fifo 1 [] [OpPut (demo_elem 1); OpPut (demo_elem 2); OpPop; OpPop] =
    [RPut (Ok tt); RPut (fail_with kQueueFull); RPop (Ok (demo_elem 1));
     RPop (fail_with kQueueEmpty)] /\
  exists q m0 m1,
    create_from_bytes x86_64 (zero_shm 40) 4 1 = Some (q, m0) /\
    mapping_from_bytes x86_64 m0 4 = Some q /\
    run_queue m0 q [OpPut (demo_elem 1); OpPut (demo_elem 2); OpPop; OpPop] =
      Some (run_fifo 1 [] [OpPut (demo_elem 1); OpPut (demo_elem 2); OpPop; OpPop], m1).
Proof.
  split; [reflexivity|].
  apply (queue_refines_fifo x86_64 (zero_shm 40) 4 1).
  - cbv. repeat split; discriminate.
  - repeat constructor; cbv; discriminate.
  - cbv. reflexivity.
Defined.
