(* ===== verification/QueueConc.v ===== *)
(** The IO queue under concurrency: [Queue::put] by the sending process'
    threads, [Queue::pop] and [mark_not_working] by the receiving process'
    read loop ([Session::handle_polling]), and the polling events of
    [Session::wake_up_peer] between them ([src/queue.cpp], [src/session.cpp]).

    Every access to the mapping is one step and the steps of all threads
    interleave freely, the accesses being sequentially consistent.  A sender
    holds the queue's mutex from its first access to its last ([lock_guard] in
    [Queue::put]) and then runs [wake_up_peer]; the receiver runs
    [handle_polling] once per polling event it takes off the socket.  What
    [handle_polling] does with an element is left out: the element is appended
    to [recvd].  The model is that of a live session: an element for which
    [handle_polling] or its handler reports an error ends the read loop
    ([Session::read_loop] calls [exit_err]), after which nothing is
    received.  [sent] is the list of elements put, in the order of their writes
    of the tail counter. *)
From S2P Require Import Prelude Errors Consts Shm Queue.

(** Where a sending thread is: between two accesses of [Queue::put] and
    [wake_up_peer], with the values it has read. *)
Inductive ppc :=
| PIdle
| PLock (e : QueueElement)
| PLoadTail (e : QueueElement)
| PLoadHead (e : QueueElement) (t : Z)
| PLoadTail2 (e : QueueElement)
| PStoreSeq (e : QueueElement) (t : Z)
| PStoreOff (e : QueueElement) (t : Z)
| PStoreStatus (e : QueueElement) (t : Z)
| PLoadTail3 (e : QueueElement)
| PStoreTail (e : QueueElement) (t : Z)
| PMark
| PPoll.

(** Where the receiving thread is in [handle_polling]. *)
Inductive cpc :=
| CWait
| CLoadHead
| CLoadTail (h : Z)
| CLoadHead2
| CLoadSeq (h : Z)
| CLoadOff (h x : Z)
| CLoadStatus (h x y : Z)
| CLoadHead3 (e : QueueElement)
| CStoreHead (e : QueueElement) (h : Z)
| CClearFlag
| CSizeTail
| CSizeHead (t : Z)
| CSetFlag.

Record st := mkSt {
  mem : shm;
  lock_ : option nat;
  prods : list ppc;
  rcv : cpc;
  polling : nat;
  sent : list QueueElement;
  recvd : list QueueElement;
}.

(** One step: thread [i] calls [flush] with an element, makes its next access,
    or the receiver makes its next one. *)
Inductive action := Send (i : nat) (e : QueueElement) | Prod (i : nat) | Cons.

Section model.
Context (q : Queue).

Definition set_prod (s : st) (i : nat) (pc : ppc) : st :=
  mkSt (mem s) (lock_ s) (<[i := pc]> (prods s)) (rcv s) (polling s) (sent s) (recvd s).
Definition set_mem (s : st) (m : shm) : st :=
  mkSt m (lock_ s) (prods s) (rcv s) (polling s) (sent s) (recvd s).
Definition set_lock (s : st) (l : option nat) : st :=
  mkSt (mem s) l (prods s) (rcv s) (polling s) (sent s) (recvd s).
Definition set_rcv (s : st) (pc : cpc) : st :=
  mkSt (mem s) (lock_ s) (prods s) pc (polling s) (sent s) (recvd s).
Definition set_polling (s : st) (n : nat) : st :=
  mkSt (mem s) (lock_ s) (prods s) (rcv s) n (sent s) (recvd s).
Definition set_sent (s : st) (l : list QueueElement) : st :=
  mkSt (mem s) (lock_ s) (prods s) (rcv s) (polling s) l (recvd s).
Definition set_recvd (s : st) (l : list QueueElement) : st :=
  mkSt (mem s) (lock_ s) (prods s) (rcv s) (polling s) (sent s) l.

(** The slot of a counter value, as [put] and [pop] compute it. *)
Definition slot_addr (t : Z) : option Z :=
  r ← c_rem t (cap_ q);
  Some (queue_bytes_on_memory_ q + u64 (r * kQueueElementLen)).

(** [Queue::put] then [Session::wake_up_peer]. *)
Definition prod_step (s : st) (i : nat) (pc : ppc) : option st :=
  match pc with
  | PIdle => None
  | PLock e =>
      match lock_ s with
      | Some _ => None
      | None => Some (set_prod (set_lock s (Some i)) i (PLoadTail e))
      end
  | PLoadTail e =>
      t ← load_tail_unaligned (mem s) q; Some (set_prod s i (PLoadHead e t))
  | PLoadHead e t =>
      h ← load_head_unaligned (mem s) q;
      if cap_ q <=? i64 (t - h)
      then Some (set_prod (set_lock s None) i PIdle)
      else Some (set_prod s i (PLoadTail2 e))
  | PLoadTail2 e =>
      t ← load_tail_unaligned (mem s) q; Some (set_prod s i (PStoreSeq e t))
  | PStoreSeq e t =>
      p ← slot_addr t;
      m ← store_u32 (mem s) p (seq_id e);
      Some (set_prod (set_mem s m) i (PStoreOff e t))
  | PStoreOff e t =>
      p ← slot_addr t;
      m ← store_u32 (mem s) (p + 4) (offset_in_shm_buf e);
      Some (set_prod (set_mem s m) i (PStoreStatus e t))
  | PStoreStatus e t =>
      p ← slot_addr t;
      m ← store_u32 (mem s) (p + 8) (status e);
      Some (set_prod (set_mem s m) i (PLoadTail3 e))
  | PLoadTail3 e =>
      t ← load_tail_unaligned (mem s) q; Some (set_prod s i (PStoreTail e t))
  | PStoreTail e t =>
      m ← store_tail_unaligned (mem s) q (i64 (t + 1));
      Some (set_prod (set_lock (set_sent (set_mem s m) (sent s ++ [e])) None) i PMark)
  | PMark =>
      '(b, m) ← mark_working (mem s) q;
      Some (set_prod (set_mem s m) i (match b with true => PPoll | false => PIdle end))
  | PPoll => Some (set_prod (set_polling s (S (polling s))) i PIdle)
  end.

(** [Session::handle_polling]: [pop] until the queue is empty, then
    [mark_not_working]. *)
Definition cons_step (s : st) : option st :=
  match rcv s with
  | CWait =>
      match polling s with
      | O => None
      | S n => Some (set_rcv (set_polling s n) CLoadHead)
      end
  | CLoadHead => h ← load_head_unaligned (mem s) q; Some (set_rcv s (CLoadTail h))
  | CLoadTail h =>
      t ← load_tail_unaligned (mem s) q;
      if t <=? h then Some (set_rcv s CClearFlag) else Some (set_rcv s CLoadHead2)
  | CLoadHead2 => h ← load_head_unaligned (mem s) q; Some (set_rcv s (CLoadSeq h))
  | CLoadSeq h =>
      p ← slot_addr h; x ← load_u32 (mem s) p; Some (set_rcv s (CLoadOff h x))
  | CLoadOff h x =>
      p ← slot_addr h; y ← load_u32 (mem s) (p + 4); Some (set_rcv s (CLoadStatus h x y))
  | CLoadStatus h x y =>
      p ← slot_addr h; z ← load_u32 (mem s) (p + 8);
      Some (set_rcv s (CLoadHead3 (mkElem x y z)))
  | CLoadHead3 e => h ← load_head_unaligned (mem s) q; Some (set_rcv s (CStoreHead e h))
  | CStoreHead e h =>
      m ← store_head_unaligned (mem s) q (i64 (h + 1));
      Some (set_rcv (set_recvd (set_mem s m) (recvd s ++ [e])) CLoadHead)
  | CClearFlag =>
      m ← store_u32 (mem s) (working_flag_ q) 0;
      Some (set_rcv (set_mem s m) CSizeTail)
  | CSizeTail => t ← load_tail_unaligned (mem s) q; Some (set_rcv s (CSizeHead t))
  | CSizeHead t =>
      h ← load_head_unaligned (mem s) q;
      if i64 (t - h) =? 0 then Some (set_rcv s CWait) else Some (set_rcv s CSetFlag)
  | CSetFlag =>
      m ← store_u32 (mem s) (working_flag_ q) 1;
      Some (set_rcv (set_mem s m) CLoadHead)
  end.

Definition exec (s : st) (act : action) : option st :=
  match act with
  | Send i e =>
      pc ← prods s !! i;
      match pc with PIdle => Some (set_prod s i (PLock e)) | _ => None end
  | Prod i => pc ← prods s !! i; prod_step s i pc
  | Cons => cons_step s
  end.

Fixpoint run (s : st) (acts : list action) : option st :=
  match acts with
  | [] => Some s
  | act :: acts' => s ← exec s act; run s acts'
  end.

Definition act_wf (act : action) : Prop :=
  match act with Send _ e => elem_wf e | _ => True end.

(** A step of the system; a step that only finishes work already begun. *)
Definition step (s s' : st) : Prop := exists act, act_wf act /\ exec s act = Some s'.
Definition internal (s s' : st) : Prop :=
  exec s Cons = Some s' \/ exists i, exec s (Prod i) = Some s'.
End model.

(** [n] idle threads around a mapping. *)
Definition init_st (m : shm) (n : nat) : st :=
  mkSt m None (replicate n PIdle) CWait 0 [] [].

(** * Invariant *)

(** The thread holds the queue's mutex. *)
Definition in_cs (pc : ppc) : bool :=
  match pc with PIdle | PLock _ | PMark | PPoll => false | _ => true end.

(** The mutex is held by exactly the thread inside [put]. *)
Definition lock_ok (lk : option nat) (ps : list ppc) : Prop :=
  (forall i pc, ps !! i = Some pc -> in_cs pc = true -> lk = Some i) /\
  (forall i, lk = Some i -> exists pc, ps !! i = Some pc /\ in_cs pc = true).

Section invariant.
Context (a : arch) (base cap : Z).
Let q := queue_at a base cap.

(** What a sending thread has established, the tail counter being [t] and
    the queue holding [n] elements. *)
Definition prod_ok (m : shm) (t n : Z) (pc : ppc) : Prop :=
  match pc with
  | PIdle | PMark | PPoll => True
  | PLock e | PLoadTail e => elem_wf e
  | PLoadHead e t' => elem_wf e /\ t' = t
  | PLoadTail2 e => elem_wf e /\ n < cap
  | PStoreSeq e t' => elem_wf e /\ n < cap /\ t' = t
  | PStoreOff e t' => elem_wf e /\ n < cap /\ t' = t /\ get32 m (slot q t) = seq_id e
  | PStoreStatus e t' =>
      elem_wf e /\ n < cap /\ t' = t /\ get32 m (slot q t) = seq_id e /\
      get32 m (slot q t + 4) = offset_in_shm_buf e
  | PLoadTail3 e => elem_wf e /\ n < cap /\ elem_at m (slot q t) e
  | PStoreTail e t' => elem_wf e /\ n < cap /\ t' = t /\ elem_at m (slot q t) e
  end.

(** What the receiving thread has established, the counters being [h] and
    [t] and the queue holding [l]. *)
Definition cons_ok (h t : Z) (l : list QueueElement) (pc : cpc) : Prop :=
  match pc with
  | CWait | CLoadHead | CClearFlag | CSizeTail | CSetFlag => True
  | CLoadTail h' => h' = h
  | CLoadHead2 => exists e l', l = e :: l'
  | CLoadSeq h' => h' = h /\ exists e l', l = e :: l'
  | CLoadOff h' x => h' = h /\ exists e l', l = e :: l' /\ x = seq_id e
  | CLoadStatus h' x y =>
      h' = h /\ exists e l', l = e :: l' /\ x = seq_id e /\ y = offset_in_shm_buf e
  | CLoadHead3 e => exists l', l = e :: l'
  | CStoreHead e h' => h' = h /\ exists l', l = e :: l'
  | CSizeHead t' => h <= t' <= t
  end.

(** The receiver has given up or is about to, unless the flag stops it. *)
Definition resting (pc : cpc) : bool :=
  match pc with CWait | CSizeTail | CSizeHead _ => true | _ => false end.

(** A set flag comes with a polling event, on the socket or about to be
    sent; what the receiver will not see by itself has its flag set, or its
    sender about to set it. *)
Definition wake_ok (s : st) (l : list QueueElement) : Prop :=
  let flag := get32 (mem s) (working_flag_ q) in
  (flag = 0 \/ flag = 1) /\
  (resting (rcv s) = true -> flag = 1 -> (0 < polling s)%nat \/ PPoll ∈ prods s) /\
  match rcv s with
  | CWait => l <> [] -> flag = 1 \/ PMark ∈ prods s
  | CSizeHead t => t < Z.of_nat (length (sent s)) -> flag = 1 \/ PMark ∈ prods s
  | _ => True
  end.

Record inv (s : st) (l : list QueueElement) : Prop := {
  inv_rep : queue_rep a base cap (mem s) (Z.of_nat (length (recvd s))) l;
  inv_split : sent s = recvd s ++ l;
  inv_lock : lock_ok (lock_ s) (prods s);
  inv_prods : forall i pc, prods s !! i = Some pc ->
    prod_ok (mem s) (Z.of_nat (length (sent s))) (Z.of_nat (length l)) pc;
  inv_cons : cons_ok (Z.of_nat (length (recvd s))) (Z.of_nat (length (sent s))) l (rcv s);
  inv_wake : wake_ok s l;
}.

(** ** Threads *)

Lemma prods_update (ps : list ppc) i pc (Q : nat -> ppc -> Prop) :
  Q i pc -> (forall j p, j <> i -> ps !! j = Some p -> Q j p) ->
  forall j p, <[i := pc]> ps !! j = Some p -> Q j p.
Proof.
  intros Hi Hj j p H. apply list_lookup_insert_Some in H as [(-> & -> & _)|[? ?]]; auto.
Qed.

Lemma lock_acquire ps i pc : lock_ok None ps -> is_Some (ps !! i) -> in_cs pc = true ->
  lock_ok (Some i) (<[i := pc]> ps).
Proof.
  intros [H1 _] [p0 Hi] Hpc. split.
  - refine (prods_update _ _ _ (fun j p => in_cs p = true -> Some i = Some j) _ _);
      [reflexivity|]. intros j p Hj Hp Hcs.
    specialize (H1 _ _ Hp Hcs). discriminate.
  - intros j [= <-]. exists pc. split; [|exact Hpc].
    apply list_lookup_insert_eq. eapply lookup_lt_Some, Hi.
Qed.

Lemma lock_stay lk ps i pc pc' : lock_ok lk ps -> ps !! i = Some pc ->
  in_cs pc = true -> in_cs pc' = true -> lock_ok lk (<[i := pc']> ps).
Proof.
  intros [H1 H2] Hi Hpc Hpc'. pose proof (H1 _ _ Hi Hpc) as ->. split.
  - refine (prods_update _ _ _ (fun j p => in_cs p = true -> Some i = Some j) _ _);
      [reflexivity|]. intros j p _ Hp Hcs. eapply H1; eauto.
  - intros j [= <-]. exists pc'. split; [|exact Hpc'].
    apply list_lookup_insert_eq. eapply lookup_lt_Some, Hi.
Qed.

Lemma lock_release lk ps i pc pc' : lock_ok lk ps -> ps !! i = Some pc ->
  in_cs pc = true -> in_cs pc' = false -> lock_ok None (<[i := pc']> ps).
Proof.
  intros [H1 H2] Hi Hpc Hpc'. pose proof (H1 _ _ Hi Hpc) as ->. split; [|discriminate].
  refine (prods_update _ _ _ (fun j p => in_cs p = true -> None = Some j) _ _);
    [congruence|]. intros j p Hj Hp Hcs.
  specialize (H1 _ _ Hp Hcs). congruence.
Qed.

Lemma lock_outside lk ps i pc pc' : lock_ok lk ps -> ps !! i = Some pc ->
  in_cs pc = false -> in_cs pc' = false -> lock_ok lk (<[i := pc']> ps).
Proof.
  intros [H1 H2] Hi Hpc Hpc'. split.
  - refine (prods_update _ _ _ (fun j p => in_cs p = true -> lk = Some j) _ _);
      [congruence|]. intros j p _ Hp Hcs. eapply H1; eauto.
  - intros j Hj. destruct (H2 _ Hj) as (p & Hp & Hcs).
    assert (j <> i) by (intros ->; congruence).
    exists p. rewrite list_lookup_insert_ne by auto. auto.
Qed.

(** Outside [put] a thread relies on nothing in the mapping. *)
Lemma prod_ok_outside m t n m' t' n' pc :
  in_cs pc = false -> prod_ok m t n pc -> prod_ok m' t' n' pc.
Proof. destruct pc; cbn; (discriminate || auto). Qed.

(** Inside it, on the slot at the tail and on the room left. *)
Lemma prod_ok_mono m t n m' n' pc :
  (n < cap -> same_on (slot q t) 12 m m') -> n' <= n ->
  prod_ok m t n pc -> prod_ok m' t n' pc.
Proof.
  intros Hs Hn. destruct (decide (n < cap)) as [Hroom|Hroom];
    [specialize (Hs Hroom)|destruct pc; cbn; intuition lia].
  assert (forall k, 0 <= k <= 8 -> get32 m' (slot q t + k) = get32 m (slot q t + k)) as Hk.
  { intros k Hk. symmetry. apply (get_le_ext 4). intros b Hb. apply Hs. cbn in Hb. lia. }
  pose proof (Hk 0 ltac:(lia)) as H0. rewrite Z.add_0_r in H0.
  pose proof (fun e => elem_at_ext m m' (slot q t) e Hs) as He.
  destruct pc; cbn; try rewrite H0; try rewrite !Hk by lia; try tauto; intuition (auto; lia).
Qed.

(** Two threads are never both inside [put]. *)
Lemma others_outside s l i j pc pc' : inv s l ->
  prods s !! i = Some pc -> in_cs pc = true -> j <> i -> prods s !! j = Some pc' ->
  in_cs pc' = false.
Proof.
  intros [] Hi Hpc Hj Hpc'. destruct inv_lock0 as [H1 _].
  destruct (in_cs pc') eqn:E; [|reflexivity].
  rewrite (H1 _ _ Hi Hpc) in H1. specialize (H1 _ _ Hpc' E). congruence.
Qed.

Lemma elem_of_update (ps : list ppc) i pc pc' x :
  x ∈ ps -> ps !! i = Some pc -> pc <> x -> x ∈ <[i := pc']> ps.
Proof.
  intros [j Hj]%list_elem_of_lookup Hi Hne. apply list_elem_of_lookup. exists j.
  rewrite list_lookup_insert_ne by (intros ->; congruence). exact Hj.
Qed.

Lemma elem_of_updated (ps : list ppc) i pc pc' : ps !! i = Some pc -> pc' ∈ <[i := pc']> ps.
Proof.
  intros Hi. apply list_elem_of_lookup. exists i.
  apply list_lookup_insert_eq. eapply lookup_lt_Some, Hi.
Qed.

(** ** The mapping *)

Lemma header_range :
  base + 4 <= head_ q /\ head_ q + 8 <= tail_ q /\ tail_ q + 8 <= base + 24 /\
  base + 4 <= working_flag_ q /\ working_flag_ q + 4 <= base + 24 /\
  (working_flag_ q + 4 <= head_ q \/ tail_ q + 8 <= working_flag_ q).
Proof. unfold q. destruct a; cbn; lia. Qed.

Lemma cap_eq : cap_ q = cap.
Proof. unfold q. destruct a; reflexivity. Qed.

Lemma slot_addr_eq t : 0 < cap < 4294967296 -> 0 <= t -> slot_addr q t = Some (slot q t).
Proof.
  intros Hc Ht. destruct (slot_offset a base cap t Hc Ht) as [Hr Hs].
  unfold slot_addr. rewrite cap_eq.
  rewrite Hr. cbn. unfold q. now rewrite Hs.
Qed.

Lemma rep_flag m h l v : queue_rep a base cap m h l ->
  queue_rep a base cap (put32 m (working_flag_ q) v) h l.
Proof.
  intros [Hf Hc Hh Ht ? ? Hb He]. pose proof Hf as (? & ? & ?).
  pose proof header_range. fold q in Hh, Ht.
  constructor; fold q; shm_simp; try assumption.
  intros i e Hi. eapply elem_at_ext; [|now apply He].
  assert (0 < cap) by (apply lookup_lt_Some in Hi; lia).
  pose proof (slot_range a base cap (h + Z.of_nat i) ltac:(lia)) as Hr.
  intros b Hb'. fold q in Hr, Hb'. shm_simp. reflexivity.
Qed.

Lemma rep_slot m h l k v : queue_rep a base cap m h l ->
  Z.of_nat (length l) < cap -> 0 <= k <= 8 ->
  queue_rep a base cap (put32 m (slot q (h + Z.of_nat (length l)) + k) v) h l.
Proof.
  intros [Hf Hc Hh Ht ? ? Hb He] Hroom Hk. pose proof Hf as (? & ? & ?).
  pose proof header_range. fold q in Hh, Ht.
  pose proof (slot_range a base cap (h + Z.of_nat (length l)) ltac:(lia)) as Hr.
  fold q in Hr. constructor; fold q; shm_simp; try assumption.
  intros i e Hi. eapply elem_at_ext; [|now apply He].
  apply lookup_lt_Some in Hi.
  pose proof (slot_disjoint a base cap (h + Z.of_nat i) (h + Z.of_nat (length l))
                ltac:(lia) ltac:(lia)) as Hd.
  intros b Hb'. fold q in Hd, Hb'. shm_simp. reflexivity.
Qed.

(** ** Steps of a sending thread *)

(** A step that puts nothing: it may write the free slot. *)
Lemma inv_set_prod s l i pc pc' lk m :
  inv s l -> prods s !! i = Some pc -> pc <> PMark -> pc <> PPoll ->
  lock_ok lk (<[i := pc']> (prods s)) ->
  queue_rep a base cap m (Z.of_nat (length (recvd s))) l ->
  get32 m (working_flag_ q) = get32 (mem s) (working_flag_ q) ->
  prod_ok m (Z.of_nat (length (sent s))) (Z.of_nat (length l)) pc' ->
  (m = mem s \/ in_cs pc = true) ->
  inv (mkSt m lk (<[i := pc']> (prods s)) (rcv s) (polling s) (sent s) (recvd s)) l.
Proof.
  intros Hinv Hi Hm Hp Hlk Hrep Hflag Hok Hmem. pose proof Hinv as [].
  constructor; cbn; try assumption.
  - refine (prods_update _ _ _ (fun _ p => prod_ok m _ _ p) Hok _).
    intros j p Hj Hp'. destruct Hmem as [->|Hcs]; [eauto|].
    eapply prod_ok_outside; [|eauto].
    eapply (others_outside s l i j); eauto.
  - destruct inv_wake0 as (Hf & Hw1 & Hw2). unfold wake_ok; cbn.
    rewrite Hflag. split; [exact Hf|]. split.
    + intros Hr H1. destruct (Hw1 Hr H1) as [|Hin]; [now left|].
      right. eapply elem_of_update; eauto.
    + destruct (rcv s); try exact I; intros Hl;
        (destruct (Hw2 Hl) as [|Hin]; [now left|right; eapply elem_of_update; eauto]).
Qed.

Lemma cons_ok_app h t l e pc : cons_ok h t l pc -> cons_ok h (t + 1) (l ++ [e]) pc.
Proof.
  destruct pc; cbn; try tauto; try lia; intros; destruct_and?;
    repeat match goal with H : exists _, _ |- _ => destruct H end; destruct_and?; subst;
    cbn; eauto 10.
Qed.

(** The counters count what was put and what was taken. *)
Lemma inv_counters s l : inv s l ->
  load_head_unaligned (mem s) q = Some (Z.of_nat (length (recvd s))) /\
  load_tail_unaligned (mem s) q = Some (Z.of_nat (length (sent s))) /\
  Z.of_nat (length (sent s)) = Z.of_nat (length (recvd s)) + Z.of_nat (length l).
Proof.
  intros []. destruct (load_counters _ _ _ _ _ _ inv_rep0) as [Hh Ht].
  rewrite inv_split0, length_app, Nat2Z.inj_add. auto.
Qed.

Lemma inv_store_tail s l i e : inv s l ->
  prods s !! i = Some (PStoreTail e (Z.of_nat (length (sent s)))) ->
  Z.of_nat (length (sent s)) + 1 < 9223372036854775808 ->
  inv (mkSt (put64 (mem s) (tail_ q) (Z.of_nat (length (sent s)) + 1)) None
         (<[i := PMark]> (prods s)) (rcv s) (polling s) (sent s ++ [e]) (recvd s))
    (l ++ [e]).
Proof.
  intros Hinv Hi Hbig. destruct (inv_counters s l Hinv) as (_ & _ & Hlen).
  pose proof Hinv as [Hrep Hsplit Hlock Hprods Hcons Hwake].
  destruct (Hprods _ _ Hi) as (Hwf & Hroom & _ & Hel).
  pose proof Hrep as [Hf Hc Hh Ht ? ? Hb He]. pose proof Hf as (? & ? & ?).
  pose proof header_range as Hhr. fold q in Hh, Ht.
  constructor; cbn; rewrite ?length_app; cbn [length].
  - constructor; fold q; rewrite ?length_app; cbn [length]; shm_simp; try assumption; try lia.
    intros k x Hk.
    assert (elem_at (mem s) (slot q (Z.of_nat (length (recvd s)) + Z.of_nat k)) x) as Hx.
    { destruct (decide (k < length l)%nat) as [Hlt|Hge].
      - rewrite lookup_app_l in Hk by lia. now apply He.
      - apply lookup_app_Some in Hk as [Hk|[? Hk]]; [apply lookup_lt_Some in Hk; lia|].
        apply list_lookup_singleton_Some in Hk as [Hk <-].
        replace (Z.of_nat (length (recvd s)) + Z.of_nat k)
          with (Z.of_nat (length (sent s))) by lia. exact Hel. }
    eapply elem_at_ext; [|exact Hx]. intros b Hb'.
    pose proof (slot_range a base cap (Z.of_nat (length (recvd s)) + Z.of_nat k)
                  ltac:(lia)) as Hr. fold q in Hr. shm_simp. reflexivity.
  - rewrite Hsplit. now rewrite app_assoc.
  - eapply lock_release; [exact Hlock|exact Hi|reflexivity..].
  - refine (prods_update _ _ _ (fun _ p => prod_ok _ _ _ p) _ _); [exact I|].
    intros j p Hj Hp. eapply prod_ok_outside; [|eauto].
    eapply (others_outside s l i j); eauto.
  - rewrite Nat2Z.inj_add. now apply cons_ok_app.
  - destruct Hwake as (Hfl & Hw1 & Hw2). unfold wake_ok; cbn.
    autorewrite with shm. split; [exact Hfl|]. split.
    + intros Hr H1'. destruct (Hw1 Hr H1') as [|Hin]; [now left|].
      right. eapply elem_of_update; [exact Hin|exact Hi|discriminate].
    + pose proof (elem_of_updated _ _ _ PMark Hi). destruct (rcv s); auto.
Qed.

Lemma inv_mark s l i : inv s l -> prods s !! i = Some PMark ->
  exists b m, mark_working (mem s) q = Some (b, m) /\
    inv (mkSt m (lock_ s) (<[i := if b : bool then PPoll else PIdle]> (prods s)) (rcv s)
           (polling s) (sent s) (recvd s)) l.
Proof.
  intros Hinv Hi. pose proof Hinv as [Hrep Hsplit Hlock Hprods Hcons Hwake].
  pose proof Hrep as [Hf _ _ _ _ _ _ _]. destruct Hf as (? & ? & ?).
  pose proof header_range as Hhr. destruct Hwake as (Hfl & Hw1 & Hw2).
  unfold mark_working. destruct Hfl as [Hfl|Hfl].
  - rewrite cas_u32_hit by (assumption || lia). eexists _, _. split; [reflexivity|].
    cbn. constructor; cbn; try assumption.
    + now apply rep_flag.
    + eapply lock_outside; eauto.
    + refine (prods_update _ _ _ (fun _ p => prod_ok _ _ _ p) _ _); [exact I|].
      intros j p Hj Hp. eapply prod_ok_mono; [|reflexivity|eauto].
      intros Hroom b Hb.
      pose proof (slot_range a base cap (Z.of_nat (length (sent s))) ltac:(lia)) as Hr.
      fold q in Hr. shm_simp. reflexivity.
    + unfold wake_ok; cbn. shm_simp. split; [now right|]. split.
      * intros _ _. right. eapply elem_of_updated, Hi.
      * destruct (rcv s); auto.
  - rewrite cas_u32_miss by (lia || congruence). eexists _, _. split; [reflexivity|].
    cbn. constructor; cbn; try assumption.
    + eapply lock_outside; eauto.
    + refine (prods_update _ _ _ (fun _ p => prod_ok _ _ _ p) _ _); [exact I|eauto].
    + unfold wake_ok; cbn. split; [now right|]. split.
      * intros Hr H1'. destruct (Hw1 Hr H1') as [|Hin]; [now left|].
        right. eapply elem_of_update; [exact Hin|exact Hi|discriminate].
      * destruct (rcv s); auto.
Qed.

Lemma inv_poll s l i : inv s l -> prods s !! i = Some PPoll ->
  inv (mkSt (mem s) (lock_ s) (<[i := PIdle]> (prods s)) (rcv s) (S (polling s))
         (sent s) (recvd s)) l.
Proof.
  intros [Hrep Hsplit Hlock Hprods Hcons (Hfl & Hw1 & Hw2)] Hi.
  constructor; cbn; try assumption.
  - eapply lock_outside; eauto.
  - refine (prods_update _ _ _ (fun _ p => prod_ok _ _ _ p) _ _); [exact I|eauto].
  - unfold wake_ok; cbn. split; [exact Hfl|]. split; [lia|].
    destruct (rcv s); auto; intros Hl;
      (destruct (Hw2 Hl) as [|Hin]; [now left|];
       right; eapply elem_of_update; [exact Hin|exact Hi|discriminate]).
Qed.

(** A store of one field of the free slot. *)
Lemma inv_store_slot s l i pc pc' k v : inv s l -> prods s !! i = Some pc ->
  in_cs pc = true -> in_cs pc' = true -> 0 <= k <= 8 -> Z.of_nat (length l) < cap ->
  prod_ok (put32 (mem s) (slot q (Z.of_nat (length (sent s))) + k) v)
    (Z.of_nat (length (sent s))) (Z.of_nat (length l)) pc' ->
  inv (set_prod (set_mem s (put32 (mem s) (slot q (Z.of_nat (length (sent s))) + k) v))
         i pc') l.
Proof.
  intros Hinv Hi Hcs Hcs' Hk Hroom Hok. pose proof Hinv as [Hrep Hsplit Hlock _ _ _].
  destruct (inv_counters s l Hinv) as (_ & _ & Hlen). pose proof header_range as Hhr.
  pose proof (slot_range a base cap (Z.of_nat (length (sent s))) ltac:(lia)) as Hr.
  fold q in Hr.
  apply (inv_set_prod s l i pc pc' (lock_ s)
           (put32 (mem s) (slot q (Z.of_nat (length (sent s))) + k) v)); auto.
  - intros ->. discriminate.
  - intros ->. discriminate.
  - eapply lock_stay; eauto.
  - rewrite Hlen. now apply rep_slot.
  - shm_simp. reflexivity.
Qed.

(** Every step of a sending thread stays in bounds and keeps the invariant;
    only an idle thread and one waiting for the mutex have none. *)
Lemma prod_step_inv s l i pc : inv s l -> prods s !! i = Some pc ->
  Z.of_nat (length (sent s)) + 1 < 9223372036854775808 ->
  match prod_step q s i pc with
  | Some s' => exists l', inv s' l'
  | None => pc = PIdle \/ exists e, pc = PLock e /\ lock_ s <> None
  end.
Proof.
  intros Hinv Hi Hbig. pose proof Hinv as [Hrep Hsplit Hlock Hprods Hcons Hwake].
  destruct (inv_counters s l Hinv) as (Hh & Ht & Hlen). pose proof (Hprods _ _ Hi) as Hok.
  pose proof Hrep as [(? & ? & ?) _ _ _ _ _ Hb _]. pose proof header_range as Hhr.
  assert (forall pc', in_cs pc = true -> in_cs pc' = true ->
    prod_ok (mem s) (Z.of_nat (length (sent s))) (Z.of_nat (length l)) pc' ->
    inv (set_prod s i pc') l) as Hlocal.
  { intros pc' Hcs Hcs' Hpc'. apply (inv_set_prod s l i pc pc' (lock_ s) (mem s)); auto;
      [intros ->; discriminate|intros ->; discriminate|eapply lock_stay; eauto]. }
  assert (Z.of_nat (length l) < cap ->
    slot_addr q (Z.of_nat (length (sent s))) = Some (slot q (Z.of_nat (length (sent s))))
    /\ 0 <= slot q (Z.of_nat (length (sent s)))
    /\ slot q (Z.of_nat (length (sent s))) + 12 <= shm_len (mem s)) as Hslot.
  { intros Hroom.
    pose proof (slot_range a base cap (Z.of_nat (length (sent s))) ltac:(lia)) as Hr.
    fold q in Hr. split; [apply slot_addr_eq; lia|lia]. }
  destruct pc; cbn [prod_step].
  - now left.
  - destruct (lock_ s) eqn:El; [right; eauto|]. exists l.
    apply (inv_set_prod s l i (PLock e) _ (Some i) (mem s)); auto; try discriminate.
    apply lock_acquire; eauto.
  - rewrite Ht. exists l. apply Hlocal; cbn; auto.
  - rewrite Hh. cbn in Hok |- *. destruct Hok as [Hwf ->].
    rewrite cap_eq.
    rewrite i64_id by lia. case_if; exists l.
    + apply (inv_set_prod s l i (PLoadHead e (Z.of_nat (length (sent s)))) _ None (mem s));
        auto; try discriminate; try exact I. eapply lock_release; eauto.
    + apply Hlocal; cbn; auto. split; [assumption|lia].
  - rewrite Ht. exists l. cbn in Hok. apply Hlocal; cbn; tauto.
  - cbn in Hok. destruct Hok as (Hwf & Hroom & ->).
    destruct (Hslot Hroom) as (-> & ? & ?). cbn [mbind option_bind].
    rewrite store_u32_in by lia. exists l. pose proof Hwf as (? & ? & ?).
    rewrite <- (Z.add_0_r (slot q _)). eapply inv_store_slot; eauto; [lia|].
    cbn. rewrite Z.add_0_r. shm_simp. auto.
  - cbn in Hok. destruct Hok as (Hwf & Hroom & -> & Hx).
    destruct (Hslot Hroom) as (-> & ? & ?). cbn [mbind option_bind].
    rewrite store_u32_in by lia. exists l. pose proof Hwf as (? & ? & ?).
    eapply inv_store_slot; eauto; [lia|]. cbn. shm_simp. auto.
  - cbn in Hok. destruct Hok as (Hwf & Hroom & -> & Hx & Hy).
    destruct (Hslot Hroom) as (-> & ? & ?). cbn [mbind option_bind].
    rewrite store_u32_in by lia. exists l. pose proof Hwf as (? & ? & ?).
    eapply inv_store_slot; eauto; [lia|]. cbn. unfold elem_at. shm_simp. auto.
  - rewrite Ht. exists l. cbn in Hok. apply Hlocal; cbn; tauto.
  - cbn in Hok. destruct Hok as (Hwf & Hroom & -> & Hel).
    unfold store_tail_unaligned. rewrite i64_id, store_i64_in by lia.
    exists (l ++ [e]). exact (inv_store_tail s l i e Hinv Hi Hbig).
  - destruct (inv_mark s l i Hinv Hi) as (b & m & -> & Hm). exists l.
    destruct b; exact Hm.
  - exists l. exact (inv_poll s l i Hinv Hi).
Qed.

Lemma send_inv s l i e s' : inv s l -> elem_wf e -> exec q s (Send i e) = Some s' -> inv s' l.
Proof.
  intros Hinv Hwf H. pose proof Hinv as [Hrep _ Hlock _ _ _].
  cbn in H. destruct (prods s !! i) as [pc|] eqn:Hi; [|discriminate].
  destruct pc; try discriminate. injection H as <-.
  apply (inv_set_prod s l i PIdle _ (lock_ s) (mem s)); auto; try discriminate.
  eapply lock_outside; eauto.
Qed.

(** ** Steps of the receiving thread *)

(** A step that takes nothing off the queue and writes the flag at most. *)
Lemma inv_set_rcv s l pc m n :
  inv s l ->
  queue_rep a base cap m (Z.of_nat (length (recvd s))) l ->
  (m = mem s \/ exists v, m = put32 (mem s) (working_flag_ q) v) ->
  cons_ok (Z.of_nat (length (recvd s))) (Z.of_nat (length (sent s))) l pc ->
  wake_ok (mkSt m (lock_ s) (prods s) pc n (sent s) (recvd s)) l ->
  inv (mkSt m (lock_ s) (prods s) pc n (sent s) (recvd s)) l.
Proof.
  intros [Hrep Hsplit Hlock Hprods Hcons Hwake] Hrep' Hm Hok Hw.
  pose proof header_range as Hhr.
  constructor; cbn; try assumption. intros i p Hp.
  destruct Hm as [->|[v ->]]; [eauto|].
  eapply prod_ok_mono; [|reflexivity|eauto]. intros Hroom b Hb.
  pose proof (slot_range a base cap (Z.of_nat (length (sent s))) ltac:(lia)) as Hr.
  fold q in Hr. shm_simp. reflexivity.
Qed.

(** A load by the receiver that does not change whether it rests. *)
Lemma inv_rcv_load s l pc : inv s l -> resting pc = false ->
  cons_ok (Z.of_nat (length (recvd s))) (Z.of_nat (length (sent s))) l pc ->
  inv (set_rcv s pc) l.
Proof.
  intros Hinv Hpc Hok. pose proof Hinv as [Hrep _ _ _ _ (Hfl & _ & _)].
  apply (inv_set_rcv s l pc (mem s) (polling s)); auto.
  unfold wake_ok; cbn. split; [exact Hfl|]. split; [congruence|].
  destruct pc; (exact I || discriminate).
Qed.

Lemma inv_store_head s l e : inv s (e :: l) ->
  rcv s = CStoreHead e (Z.of_nat (length (recvd s))) ->
  inv (mkSt (put64 (mem s) (head_ q) (Z.of_nat (length (recvd s)) + 1)) (lock_ s)
         (prods s) CLoadHead (polling s) (sent s) (recvd s ++ [e])) l.
Proof.
  intros [Hrep Hsplit Hlock Hprods Hcons (Hfl & Hw1 & Hw2)] Hr.
  pose proof header_range as Hhr. pose proof (pop_rep _ _ _ _ _ _ _ Hrep) as Hrep'.
  constructor; cbn; rewrite ?length_app; cbn [length];
    try assumption; try exact I.
  - rewrite Nat2Z.inj_add. exact Hrep'.
  - rewrite Hsplit. now rewrite <- app_assoc.
  - intros i p Hp. eapply prod_ok_mono; [| |eauto]; [|cbn; lia].
    intros Hroom b Hb. cbn [length] in Hroom.
    pose proof (slot_range a base cap (Z.of_nat (length (sent s))) ltac:(lia)) as Hr'.
    fold q in Hr'. shm_simp. reflexivity.
  - unfold wake_ok; cbn. autorewrite with shm. split; [exact Hfl|]. split; [discriminate|exact I].
Qed.

(** Likewise for the receiver, which only waits for a polling event. *)
Lemma cons_step_inv s l : inv s l ->
  match cons_step q s with
  | Some s' => exists l', inv s' l'
  | None => rcv s = CWait /\ polling s = O
  end.
Proof.
  intros Hinv. pose proof Hinv as [Hrep Hsplit Hlock Hprods Hcons Hwake].
  destruct (inv_counters s l Hinv) as (Hh & Ht & Hlen).
  pose proof Hrep as [(? & ? & ?) _ _ _ _ Hnw Hb He]. pose proof header_range as Hhr.
  assert (forall e l', l = e :: l' ->
    slot_addr q (Z.of_nat (length (recvd s))) = Some (slot q (Z.of_nat (length (recvd s))))
    /\ 0 <= slot q (Z.of_nat (length (recvd s)))
    /\ slot q (Z.of_nat (length (recvd s))) + 12 <= shm_len (mem s)
    /\ elem_at (mem s) (slot q (Z.of_nat (length (recvd s)))) e) as Hslot.
  { intros e l' ->. cbn [length] in Hb.
    pose proof (slot_range a base cap (Z.of_nat (length (recvd s))) ltac:(lia)) as Hr.
    fold q in Hr. pose proof (He O e eq_refl) as Hx. rewrite Z.add_0_r in Hx.
    split; [apply slot_addr_eq; lia|]. repeat split; try lia; apply Hx. }
  unfold cons_step. destruct (rcv s) eqn:Hr; cbn in Hcons.
  - destruct (polling s) as [|n] eqn:Hp; [auto|]. exists l.
    apply (inv_set_rcv s l CLoadHead (mem s) n); auto; try exact I.
    destruct Hwake as (Hfl & _ & _).
    unfold wake_ok; cbn. split; [exact Hfl|]. split; [discriminate|exact I].
  - rewrite Hh. exists l. apply inv_rcv_load; cbn; auto.
  - rewrite Ht. cbn. subst h. case_if; exists l; apply inv_rcv_load; cbn; auto.
    destruct l; [cbn in Hlen; lia|eauto].
  - rewrite Hh. exists l. apply inv_rcv_load; cbn; auto.
  - destruct Hcons as (-> & e & l' & ->). destruct (Hslot _ _ eq_refl) as (-> & ? & ? & Hx).
    cbn [mbind option_bind]. rewrite load_u32_in by lia. exists (e :: l').
    apply inv_rcv_load; [exact Hinv|reflexivity|cbn]. split; [reflexivity|]. exists e, l'.
    split; [reflexivity|apply Hx].
  - destruct Hcons as (-> & e & l' & -> & ->).
    destruct (Hslot _ _ eq_refl) as (-> & ? & ? & Hx).
    cbn [mbind option_bind]. rewrite load_u32_in by lia. exists (e :: l').
    apply inv_rcv_load; [exact Hinv|reflexivity|cbn]. split; [reflexivity|]. exists e, l'.
    destruct Hx as (? & ? & ?). auto.
  - destruct Hcons as (-> & e & l' & -> & -> & ->).
    destruct (Hslot _ _ eq_refl) as (-> & ? & ? & Hx).
    cbn [mbind option_bind]. rewrite load_u32_in by lia. exists (e :: l').
    apply inv_rcv_load; [exact Hinv|reflexivity|cbn]. exists l'. destruct Hx as (_ & _ & ->). now destruct e.
  - rewrite Hh. exists l. apply inv_rcv_load; cbn; auto.
  - destruct Hcons as (-> & l' & ->). unfold store_head_unaligned.
    cbn [length] in Hlen, Hnw. rewrite i64_id, store_i64_in by lia. exists l'.
    exact (inv_store_head s l' e Hinv Hr).
  - rewrite store_u32_in by lia. exists l.
    apply (inv_set_rcv s l CSizeTail (put32 (mem s) (working_flag_ q) 0) (polling s)); eauto;
      [now apply rep_flag|].
    unfold wake_ok; cbn. shm_simp. split; [now left|]. split; [discriminate|exact I].
  - rewrite Ht. exists l. destruct Hwake as (Hfl & Hw1 & _). rewrite Hr in Hw1.
    apply (inv_set_rcv s l (CSizeHead (Z.of_nat (length (sent s)))) (mem s) (polling s)); auto;
      [cbn; lia|].
    unfold wake_ok; cbn. split; [exact Hfl|]. split; [exact Hw1|]. lia.
  - rewrite Hh. cbn [mbind option_bind]. rewrite i64_id by lia.
    destruct Hwake as (Hfl & Hw1 & Hw2). rewrite Hr in Hw1, Hw2. case_if; exists l.
    + apply (inv_set_rcv s l CWait (mem s) (polling s)); auto; try exact I.
      unfold wake_ok; cbn. split; [exact Hfl|]. split; [exact Hw1|].
      intros Hl. apply Hw2. destruct l; [contradiction|]. cbn [length] in Hlen. lia.
    + apply inv_rcv_load; cbn; auto.
  - rewrite store_u32_in by lia. exists l.
    apply (inv_set_rcv s l CLoadHead (put32 (mem s) (working_flag_ q) 1) (polling s)); eauto;
      [now apply rep_flag|].
    unfold wake_ok; cbn. shm_simp. split; [now right|]. split; [discriminate|exact I].
Qed.
End invariant.

(** * Executions *)

Section executions.
Context (a : arch) (base cap : Z).
Let q := queue_at a base cap.

Lemma init_inv m n :
  queue_rep a base cap m 0 [] -> get32 m (working_flag_ q) = 0 ->
  inv a base cap (init_st m n) [].
Proof.
  intros Hrep Hfl. constructor; cbn; auto.
  - split; [|discriminate]. intros i pc [-> _]%lookup_replicate. discriminate.
  - intros i pc [-> _]%lookup_replicate. exact I.
  - unfold wake_ok; cbn. fold q. rewrite Hfl. split; [now left|]. split; [discriminate|].
    contradiction.
Qed.

(** The elements put are never forgotten. *)
Lemma exec_sent_mono s act s' : exec q s act = Some s' ->
  (length (sent s) <= length (sent s'))%nat.
Proof.
  destruct act as [i e|i|]; cbn.
  - destruct (prods s !! i) as [[]|]; cbn; intros; simplify_eq; cbn; lia.
  - destruct (prods s !! i) as [pc|]; cbn; [|discriminate].
    destruct pc; cbn; intros H; simplify_option_eq; repeat case_match; simplify_eq;
      cbn; rewrite ?length_app; lia.
  - unfold cons_step. destruct (rcv s); intros H; simplify_option_eq; repeat case_match;
      simplify_eq; cbn; lia.
Qed.

Lemma step_inv s l s' : inv a base cap s l -> step q s s' ->
  Z.of_nat (length (sent s)) + 1 < 9223372036854775808 -> exists l', inv a base cap s' l'.
Proof.
  intros Hinv ([i e|i|] & Hwf & Hx) Hbig.
  - exists l. eapply send_inv; eauto.
  - cbn in Hx. destruct (prods s !! i) as [pc|] eqn:Hi; [|discriminate]. cbn in Hx.
    pose proof (prod_step_inv a base cap s l i pc Hinv Hi Hbig) as H.
    fold q in H. now rewrite Hx in H.
  - pose proof (cons_step_inv a base cap s l Hinv) as H. fold q in H.
    cbn in Hx. now rewrite Hx in H.
Qed.

Lemma reachable_inv m n s :
  queue_rep a base cap m 0 [] -> get32 m (working_flag_ q) = 0 ->
  rtc (step q) (init_st m n) s ->
  Z.of_nat (length (sent s)) + 1 < 9223372036854775808 ->
  exists l, inv a base cap s l.
Proof.
  intros Hrep Hfl Hr. revert s Hr. apply (rtc_ind_r (fun s => _ -> exists l, _ s l)).
  - exists []. now apply init_inv.
  - intros s s' Hr Hstep IH Hbig. destruct Hstep as (act & Hwf & Hx). pose proof (exec_sent_mono _ _ _ Hx).
    destruct IH as [l Hl]; [lia|].
    eapply step_inv; [exact Hl|exists act; eauto|lia].
Qed.

Lemma quiet_done s l : inv a base cap s l ->
  rcv s = CWait -> polling s = O -> (forall pc, pc ∈ prods s -> pc = PIdle) ->
  recvd s = sent s.
Proof.
  intros [_ Hsplit _ _ _ (_ & Hw1 & Hw2)] Hr Hp Hq. fold q in Hw1, Hw2.
  rewrite Hr in Hw1, Hw2. destruct l as [|e l]; [now rewrite Hsplit, app_nil_r|].
  destruct Hw2 as [Hf|Hin]; [discriminate| |].
  - destruct (Hw1 eq_refl Hf) as [|Hin]; [lia|]. specialize (Hq _ Hin). discriminate.
  - specialize (Hq _ Hin). discriminate.
Qed.

(** ** Termination *)

(** The work a sending thread, and the receiver, have left. *)
Definition prod_weight (pc : ppc) : nat :=
  match pc with
  | PIdle => 0
  | PPoll => 11
  | PMark => 12
  | PStoreTail _ _ => 40
  | PLoadTail3 _ => 41
  | PStoreStatus _ _ => 42
  | PStoreOff _ _ => 43
  | PStoreSeq _ _ => 44
  | PLoadTail2 _ => 45
  | PLoadHead _ _ => 46
  | PLoadTail _ => 47
  | PLock _ => 48
  end.

Definition cons_weight (n : nat) (pc : cpc) : nat :=
  match pc with
  | CWait => 0
  | CLoadHead => 9
  | CLoadTail _ => 8
  | CLoadHead2 => 7
  | CLoadSeq _ => 6
  | CLoadOff _ _ => 5
  | CLoadStatus _ _ _ => 4
  | CLoadHead3 _ => 3
  | CStoreHead _ _ => 2
  | CClearFlag => match n with O => 7 | _ => 13 end
  | CSizeTail => match n with O => 6 | _ => 12 end
  | CSizeHead _ => match n with O => 5 | _ => 11 end
  | CSetFlag => 10
  end.

Definition work (s : st) : nat :=
  let n := (length (sent s) - length (recvd s))%nat in
  (20 * n + 10 * polling s + cons_weight n (rcv s) + sum_list_with prod_weight (prods s))%nat.

(** Elements a thread may still put. *)
Definition pending (pc : ppc) : nat := match pc with PIdle | PMark | PPoll => 0 | _ => 1 end.
Definition promised (s : st) : nat :=
  (length (sent s) + sum_list_with pending (prods s))%nat.

Lemma sum_list_with_insert {A} (f : A -> nat) ps i x y : ps !! i = Some x ->
  (sum_list_with f (<[i := y]> ps) + f x = sum_list_with f ps + f y)%nat.
Proof.
  revert i. induction ps as [|z ps IH]; intros [|i] H; cbn in *; simplify_eq; try lia.
  rewrite <- !Nat.add_assoc. f_equal. exact (IH i H).
Qed.

Lemma prod_step_work s l i pc s' : inv a base cap s l -> prods s !! i = Some pc ->
  prod_step q s i pc = Some s' ->
  (work s' < work s /\ promised s' <= promised s)%nat.
Proof.
  intros Hinv Hi Hx. destruct (inv_counters _ _ _ _ _ Hinv) as (_ & _ & Hlen).
  unfold work, promised.
  destruct pc; cbn in Hx; simplify_option_eq; repeat case_match; simplify_eq; cbn;
    rewrite ?length_app; cbn [length];
    repeat match goal with |- context [sum_list_with ?f (<[i := ?y]> _)] =>
      let H := fresh in pose proof (sum_list_with_insert f _ _ _ y Hi) as H;
      cbn in H; revert H; generalize (sum_list_with f (<[i := y]> (prods s))); intros ? ?
    end; try lia.
  destruct (rcv s); cbn; repeat case_match; lia.
Qed.

Lemma cons_step_work s l s' : inv a base cap s l -> cons_step q s = Some s' ->
  (work s' < work s /\ promised s' <= promised s)%nat.
Proof.
  intros Hinv Hx. pose proof (inv_counters _ _ _ _ _ Hinv) as (Hh & Ht & Hlen).
  pose proof Hinv as [Hrep Hsplit _ _ Hcons _]. pose proof Hrep as [_ _ _ _ _ Hnw _ _].
  unfold cons_step in Hx. fold q in Hh, Ht. rewrite ?Hh, ?Ht in Hx. unfold work, promised.
  destruct (rcv s) eqn:Hr; cbn in Hx, Hcons; simplify_option_eq; repeat case_match;
    simplify_eq; cbn; rewrite ?length_app; cbn [length]; repeat case_match; try lia.
  all: try (destruct Hcons as (? & ? & ->); cbn in Hlen); try lia.
  all: rewrite i64_id in * by lia; lia.
Qed.

Lemma internal_work s l s' : inv a base cap s l -> internal q s s' ->
  (work s' < work s /\ promised s' <= promised s)%nat.
Proof.
  intros Hinv [Hx|[i Hx]]; cbn in Hx; [eapply cons_step_work; eauto|].
  destruct (prods s !! i) as [pc|] eqn:Hi; [|discriminate]. eapply prod_step_work; eauto.
Qed.

Lemma internal_run k s l s' : inv a base cap s l ->
  Z.of_nat (promised s) + 1 < 9223372036854775808 -> nsteps (internal q) k s s' ->
  (exists l', inv a base cap s' l') /\ (k + work s' <= work s)%nat /\
  (promised s' <= promised s)%nat.
Proof.
  intros Hinv Hbig Hr. revert l Hinv Hbig.
  induction Hr as [s|k s s1 s' Hx Hr IH]; intros l Hinv Hbig; [split; [eauto|lia]|].
  destruct (internal_work _ _ _ Hinv Hx) as [Hw Hp].
  destruct (step_inv s l s1 Hinv) as [l1 Hinv1].
  { destruct Hx as [Hx|[i Hx]]; eexists; (split; [|exact Hx]); exact I. }
  { unfold promised in Hbig. lia. }
  destruct (IH l1 Hinv1) as (? & ? & ?); [lia|]. split; [assumption|lia].
Qed.

(** A state in which no thread can move has every thread at rest: the mutex
    is free or its holder can move. *)
Lemma stuck_quiet s l : inv a base cap s l ->
  Z.of_nat (length (sent s)) + 1 < 9223372036854775808 ->
  (forall s', ~ internal q s s') ->
  rcv s = CWait /\ polling s = O /\ forall pc, pc ∈ prods s -> pc = PIdle.
Proof.
  intros Hinv Hbig Hst. pose proof (cons_step_inv a base cap s l Hinv) as Hc. fold q in Hc.
  destruct (cons_step q s) eqn:Ec; [destruct (Hst s0); now left|].
  destruct Hc as [Hr Hp]. split; [exact Hr|]. split; [exact Hp|].
  assert (forall i pc, prods s !! i = Some pc ->
    pc = PIdle \/ exists e, pc = PLock e /\ lock_ s <> None) as Hmove.
  { intros i pc Hi. pose proof (prod_step_inv a base cap s l i pc Hinv Hi Hbig) as Hx.
    fold q in Hx. destruct (prod_step q s i pc) as [s'|] eqn:Ex; [|exact Hx].
    destruct (Hst s'). right. exists i. cbn. now rewrite Hi. }
  intros pc [i Hi]%list_elem_of_lookup. destruct (Hmove i pc Hi) as [->|(e & -> & Hl)];
    [reflexivity|]. destruct (lock_ s) as [j|] eqn:El; [|contradiction].
  pose proof Hinv as [_ _ [_ Hlk] _ _ _]. destruct (Hlk j El) as (pc & Hj & Hcs).
  destruct (Hmove j pc Hj) as [->|(e' & -> & _)]; discriminate.
Qed.
End executions.

(** * The queue between two processes *)

(** A queue created in a mapping of the sender, any number of sending threads
    and one receiver, in any interleaving. *)
Definition reachable (a : arch) (m : shm) (base cap : Z) (n : nat) (s : st) : Prop :=
  exists m0, create_from_bytes a m base cap = Some (queue_at a base cap, m0) /\
    rtc (step (queue_at a base cap)) (init_st m0 n) s.

Lemma reachable_has_inv a m base cap n s :
  queue_fits (shm_len m) base cap -> reachable a m base cap n s ->
  Z.of_nat (length (sent s)) + 1 < 9223372036854775808 -> exists l, inv a base cap s l.
Proof.
  intros Hf (m0 & Hx & Hr) Hbig.
  destruct (create_from_bytes_rep a base cap m Hf) as (m1 & Hx' & Hrep & _ & Hfl).
  rewrite Hx in Hx'. simplify_eq. eapply reachable_inv; eauto.
Qed.

(** C3: Whatever the interleaving of the accesses of the senders and of the
    receiver, what the receiver has popped is, in order and with every field
    intact, an initial part of what the senders have put, and at most [cap]
    elements are under way. *)
Theorem delivery_in_order a m base cap n s :
  queue_fits (shm_len m) base cap -> reachable a m base cap n s ->
  Z.of_nat (length (sent s)) + 1 < 9223372036854775808 ->
  exists l, sent s = recvd s ++ l /\ Z.of_nat (length l) <= cap.
Proof.
  intros Hf Hr Hbig. destruct (reachable_has_inv _ _ _ _ _ _ Hf Hr Hbig) as [l Hl].
  exists l. split; [apply Hl|]. pose proof Hl as [Hrep _ _ _ _ _]. apply Hrep.
Qed.

(** C4: No wake-up is lost: once no sender is inside [put] or [wake_up_peer],
    no polling event is on the socket and the receiver waits for one, the
    receiver has popped everything that was put. *)
Theorem no_lost_wakeup a m base cap n s :
  queue_fits (shm_len m) base cap -> reachable a m base cap n s ->
  Z.of_nat (length (sent s)) + 1 < 9223372036854775808 ->
  rcv s = CWait -> polling s = O -> (forall pc, pc ∈ prods s -> pc = PIdle) ->
  recvd s = sent s.
Proof.
  intros Hf Hr Hbig. destruct (reachable_has_inv _ _ _ _ _ _ Hf Hr Hbig) as [l Hl].
  now apply (quiet_done a base cap s l).
Qed.

(** C5: From every reachable state the threads finish what they have begun: the
    length of every run without new calls is bounded, and where such a run
    cannot go on, no thread is blocked on the mutex or half way through an
    operation and everything put has been popped. *)
Theorem delivery_terminates a m base cap n s :
  queue_fits (shm_len m) base cap -> reachable a m base cap n s ->
  Z.of_nat (promised s) + 1 < 9223372036854775808 ->
  forall k s', nsteps (internal (queue_at a base cap)) k s s' ->
    (k <= work s)%nat /\
    ((forall s'', ~ internal (queue_at a base cap) s' s'') ->
     (forall pc, pc ∈ prods s' -> pc = PIdle) /\ rcv s' = CWait /\ recvd s' = sent s').
Proof.
  intros Hf Hr Hbig k s' Hk.
  destruct (reachable_has_inv _ _ _ _ _ _ Hf Hr) as [l Hl]; [unfold promised in Hbig; lia|].
  destruct (internal_run _ _ _ _ _ _ _ Hl Hbig Hk) as ([l' Hl'] & Hw & Hp).
  split; [lia|]. intros Hst.
  destruct (stuck_quiet a base cap s' l' Hl') as (Hw' & Hp' & Hq);
    [unfold promised in *; lia|exact Hst|].
  split; [exact Hq|]. split; [exact Hw'|]. eapply quiet_done; eauto.
Qed.

Lemma run_steps q acts s s' : Forall act_wf acts -> run q s acts = Some s' ->
  rtc (step q) s s'.
Proof.
  revert s. induction acts as [|act acts IH]; cbn; intros s Hwf H; simplify_eq; [reflexivity|].
  apply Forall_cons_1 in Hwf as [? ?]. destruct (exec q s act) as [s1|] eqn:E; [|discriminate].
  apply (rtc_l _ _ s1); [exists act; eauto|]. now apply IH.
Qed.

(** Two senders and the receiver on a queue of capacity 1: the second sender
    puts between the receiver's last [pop] and its [mark_not_working]. *)
Definition demo_acts : list action :=
  [Send 0 (demo_elem 1); Send 1 (demo_elem 2)] ++ replicate 11 (Prod 0) ++
  replicate 11 Cons ++ replicate 10 (Prod 1) ++ replicate 17 Cons.

Definition demo_state (k : nat) : option st :=
  '(q, m0) ← create_from_bytes x86_64 (zero_shm 40) 4 1;
  run q (init_st m0 2) (take k demo_acts).

Lemma demo_reachable k s : demo_state k = Some s -> reachable x86_64 (zero_shm 40) 4 1 2 s.
Proof.
  unfold demo_state. destruct (create_from_bytes_rep x86_64 4 1 (zero_shm 40)) as (m0 & Hx & _).
  { cbv. repeat split; discriminate. }
  rewrite Hx. cbn. intros H. exists m0. split; [exact Hx|].
  eapply run_steps; [|exact H]. apply Forall_take. repeat constructor; cbv; discriminate.
Qed.

Lemma delivery_in_order_witness :
  exists s, demo_state 36 = Some s /\ length (sent s) = 2%nat /\ length (recvd s) = 1%nat /\
  exists l, sent s = recvd s ++ l /\ Z.of_nat (length l) <= 1.
Proof.
  assert ((fun s => (length (sent s), length (recvd s))) <$> demo_state 36 =
    Some (2%nat, 1%nat)) as H by (vm_compute; reflexivity).
  destruct (demo_state 36) as [s|] eqn:E; [|discriminate]. cbn in H. injection H as Hs Hr.
  exists s. split; [reflexivity|]. split; [exact Hs|]. split; [exact Hr|].
  apply (delivery_in_order x86_64 (zero_shm 40) 4 1 2 s).
  - cbv. repeat split; discriminate.
  - exact (demo_reachable _ _ E).
  - rewrite Hs. reflexivity.
Defined.

Lemma no_lost_wakeup_witness :
  exists s, demo_state (length demo_acts) = Some s /\ length (sent s) = 2%nat /\
  recvd s = sent s.
Proof.
  assert ((fun s => (length (sent s), rcv s, polling s, prods s)) <$>
      demo_state (length demo_acts) = Some (2%nat, CWait, O, [PIdle; PIdle])) as H
    by (vm_compute; reflexivity).
  destruct (demo_state (length demo_acts)) as [s|] eqn:E; [|discriminate].
  cbn [fmap option_fmap option_map] in H. injection H as Hs Hr Hp Hq.
  exists s. split; [reflexivity|]. split; [exact Hs|].
  apply (no_lost_wakeup x86_64 (zero_shm 40) 4 1 2 s); try assumption.
  - cbv. repeat split; discriminate.
  - exact (demo_reachable _ _ E).
  - rewrite Hs. reflexivity.
  - rewrite Hq. intros pc Hpc. repeat (apply elem_of_cons in Hpc as [->|Hpc]; [reflexivity|]).
    now apply not_elem_of_nil in Hpc.
Defined.

Lemma delivery_terminates_witness :
  exists s, demo_state 20 = Some s /\ (0 < work s)%nat /\
  forall k s', nsteps (internal (queue_at x86_64 4 1)) k s s' ->
    (k <= work s)%nat /\
    ((forall s'', ~ internal (queue_at x86_64 4 1) s' s'') ->
     (forall pc, pc ∈ prods s' -> pc = PIdle) /\ rcv s' = CWait /\ recvd s' = sent s').
Proof.
  assert ((fun s => (promised s, work s)) <$> demo_state 20 = Some (2%nat, 71%nat)) as H
    by (vm_compute; reflexivity).
  destruct (demo_state 20) as [s|] eqn:E; [|discriminate].
  cbn [fmap option_fmap option_map] in H. injection H as Hs Hw.
  exists s. split; [reflexivity|]. split; [rewrite Hw; lia|].
  apply (delivery_terminates x86_64 (zero_shm 40) 4 1 2 s).
  - cbv. repeat split; discriminate.
  - exact (demo_reachable _ _ E).
  - rewrite Hs. reflexivity.
Defined.
