(* ===== verification/Slices.v ===== *)
(** Buffer slices ([include/shmipc/buffer/slice.hpp], [src/buffer/slice.cpp]):
    [BufferHeader], a view of the 20 bytes in front of every slice of the
    pool; [BufferSlice], one slice of the pool or a fallback slice on the
    heap; [SliceList], a chain of slices with a write cursor.

    A slice on the heap owns its storage ([heap_storage_]); the storages of a
    process are a finite map from allocations to bytes, so that a span of a
    storage that was freed is a span without bytes.  The chain a [SliceList]
    owns through [front_owner_] and the [next_slice_] pointers is a list of
    nodes, each with the identity of its allocation; [front_], [write_] and
    [back_] are such identities, as the raw pointers of the source. *)
From S2P Require Import Prelude Errors Consts Shm.

(** * Memory of a process *)

Record memory := Memory {
  shared : shm;
  heap : gmap nat (list Z);
  heap_next : nat;
}.

Definition set_shared (w : memory) (m : shm) : memory := Memory m (heap w) (heap_next w).

(** [data] of a slice: a place in the mapping or an allocation. *)
Inductive place := InShm (p : Z) | OnHeap (id : nat).

#[global] Instance place_eq_dec : EqDecision place.
Proof. solve_decision. Defined.

(** [std::span<std::uint8_t>]: [len] bytes at [data + off]. *)
Record span := mkSpan { sp_data : place; sp_off : Z; sp_len : Z }.

(** [std::make_shared<std::vector<std::uint8_t>>]. *)
Definition heap_alloc (w : memory) (bytes : list Z) : nat * memory :=
  (heap_next w, Memory (shared w) (<[heap_next w := bytes]> (heap w)) (S (heap_next w))).

(** The bytes of a span; [None] outside the mapping or the allocation, or when
    the allocation was freed. *)
Definition read_place (w : memory) (d : place) (off n : Z) : option (list Z) :=
  match d with
  | InShm p => load_bytes (shared w) (p + off) n
  | OnHeap id =>
      l ← heap w !! id;
      if (0 <=? off) && (off + n <=? Z.of_nat (length l))
      then Some (take (Z.to_nat n) (drop (Z.to_nat off) l)) else None
  end.

Definition span_bytes (w : memory) (s : span) : option (list Z) :=
  read_place w (sp_data s) (sp_off s) (sp_len s).

(** [std::memcpy(data + off, bytes.data(), bytes.size())]. *)
Definition write_place (w : memory) (d : place) (off : Z) (bytes : list Z) : option memory :=
  match d with
  | InShm p => m ← store_bytes (shared w) (p + off) bytes; Some (set_shared w m)
  | OnHeap id =>
      l ← heap w !! id;
      if (0 <=? off) && (off + Z.of_nat (length bytes) <=? Z.of_nat (length l))
      then Some (Memory (shared w)
        (<[id := take (Z.to_nat off) l ++ bytes ++
                 drop (Z.to_nat off + length bytes) l]> (heap w)) (heap_next w))
      else None
  end.

(** * [BufferHeader] *)

Module BufferHeader.
Definition next_buffer_offset (m : shm) (p : Z) : option Z :=
  load_u32 m (p + kNextBufferOffset).
Definition has_next (m : shm) (p : Z) : option bool :=
  f ← load_u8 m (p + kBufferFlagOffset); Some (0 <? Z.land f kHasNextBufferFlag).
Definition clear_flag (m : shm) (p : Z) : option shm := store_u8 m (p + kBufferFlagOffset) 0.
Definition set_in_used (m : shm) (p : Z) : option shm :=
  f ← load_u8 m (p + kBufferFlagOffset);
  store_u8 m (p + kBufferFlagOffset) (Z.lor f kSliceInUsedFlag).
Definition is_in_used (m : shm) (p : Z) : option bool :=
  f ← load_u8 m (p + kBufferFlagOffset); Some (0 <? Z.land f kSliceInUsedFlag).
Definition link_next (m : shm) (p next : Z) : option shm :=
  m ← store_u32 m (p + kNextBufferOffset) next;
  f ← load_u8 m (p + kBufferFlagOffset);
  store_u8 m (p + kBufferFlagOffset) (Z.lor f kHasNextBufferFlag).
Definition cap (m : shm) (p : Z) : option Z := load_u32 m (p + kBufferCapOffset).
Definition size (m : shm) (p : Z) : option Z := load_u32 m (p + kBufferSizeOffset).
Definition set_size (m : shm) (p size : Z) : option shm :=
  store_u32 m (p + kBufferSizeOffset) size.
Definition start (m : shm) (p : Z) : option Z := load_u32 m (p + kBufferDataStartOffset).
Definition set_start (m : shm) (p start : Z) : option shm :=
  store_u32 m (p + kBufferDataStartOffset) start.
End BufferHeader.

(** * [BufferSlice] *)

(** The fields of the source but [next_slice_]: a chain of slices is a list. *)
Record BufferSlice := mkSlice {
  buffer_header : option Z;
  data : place;
  cap : Z;
  start : Z;
  offset_in_shm : Z;
  read_index : Z;
  write_index : Z;
  is_from_shm : bool;
}.

#[global] Instance BufferSlice_eq_dec : EqDecision BufferSlice.
Proof. solve_decision. Defined.

Definition set_indices (s : BufferSlice) (r w : Z) : BufferSlice :=
  mkSlice (buffer_header s) (data s) (cap s) (start s) (offset_in_shm s) r w (is_from_shm s).

Module Slice.
(** The constructor over a span of [len] bytes; an empty span fails the
    assertion. *)
Definition make (m : shm) (header : option Z) (d : place) (len off : Z) (from_shm : bool)
    : option BufferSlice :=
  if len =? 0 then None else
  match from_shm, header with
  | true, Some h =>
      c ← BufferHeader.cap m h;
      st ← BufferHeader.start m h;
      sz ← BufferHeader.size m h;
      Some (mkSlice header d c st off st (u32 (st + sz)) true)
  | _, _ => Some (mkSlice None d (u32 len) 0 off 0 0 from_shm)
  end.

Definition from_heap (w : memory) (storage : list Z) : BufferSlice * memory :=
  let '(id, w') := heap_alloc w storage in
  (mkSlice None (OnHeap id) (u32 (Z.of_nat (length storage))) 0 0 0 0 false, w').

(** The destructor: the storage of a heap slice is freed. *)
Definition destroy (w : memory) (s : BufferSlice) : memory :=
  match is_from_shm s, data s with
  | false, OnHeap id => Memory (shared w) (delete id (heap w)) (heap_next w)
  | _, _ => w
  end.

Definition size (s : BufferSlice) : Z := u64 (write_index s - read_index s).
Definition remain (s : BufferSlice) : Z := u64 (cap s - write_index s).
Definition capacity (s : BufferSlice) : Z := cap s.

(** [next]: the slice [next_slice_] owns, if any. *)
Definition update (m : shm) (s : BufferSlice) (next : option BufferSlice) : option shm :=
  match buffer_header s with
  | None => Some m
  | Some h =>
      m ← BufferHeader.set_size m h (u32 (size s));
      m ← BufferHeader.set_start m h (start s);
      match next with
      | None => Some m
      | Some n => BufferHeader.link_next m h (offset_in_shm n)
      end
  end.

(** The chain the slice owned is dropped by the caller of [reset]. *)
Definition reset (m : shm) (s : BufferSlice) : option (BufferSlice * shm) :=
  m ← match buffer_header s with
      | None => Some m
      | Some h =>
          m ← BufferHeader.set_size m h 0;
          m ← BufferHeader.set_start m h 0;
          BufferHeader.clear_flag m h
      end;
  Some (mkSlice (buffer_header s) (data s) (cap s) 0 (offset_in_shm s) 0 0 (is_from_shm s), m).

Definition reserve (s : BufferSlice) (n : Z) : result span * BufferSlice :=
  let start_pos := write_index s in
  if n <=? remain s
  then (Ok (mkSpan (data s) start_pos n),
        set_indices s (read_index s) (u64 (write_index s + n)))
  else (fail_with kNoMoreBuffer, s).

Definition append (w : memory) (s : BufferSlice) (bytes : list Z)
    : option (Z * BufferSlice * memory) :=
  match bytes with
  | [] => Some (0, s, w)
  | _ =>
      let copy_size := Z.min (Z.of_nat (length bytes)) (remain s) in
      w ← write_place w (data s) (write_index s) (take (Z.to_nat copy_size) bytes);
      Some (copy_size, set_indices s (read_index s) (u64 (write_index s + copy_size)), w)
  end.

Definition read (s : BufferSlice) (n : Z) : span * BufferSlice :=
  let n := Z.min n (size s) in
  (mkSpan (data s) (read_index s) n,
   set_indices s (u64 (read_index s + n)) (write_index s)).

Definition peek (s : BufferSlice) (n : Z) : span :=
  mkSpan (data s) (read_index s) (Z.min n (size s)).

Definition skip (s : BufferSlice) (n : Z) : Z * BufferSlice :=
  let un_read := size s in
  if n <? un_read
  then (n, set_indices s (u64 (read_index s + n)) (write_index s))
  else (un_read, set_indices s (u64 (read_index s + un_read)) (write_index s)).

(** [operator==] on slices without a successor. *)
Definition eqb (a b : BufferSlice) : bool :=
  bool_decide (buffer_header a = buffer_header b) && bool_decide (data a = data b) &&
  (cap a =? cap b) && (start a =? start b) && (offset_in_shm a =? offset_in_shm b) &&
  (read_index a =? read_index b) && (write_index a =? write_index b) &&
  Bool.eqb (is_from_shm a) (is_from_shm b).
End Slice.

(** * [SliceList] *)

Record SliceList := mkSliceList {
  nodes : list (nat * BufferSlice);
  front_ : option nat;
  write_ : option nat;
  back_ : option nat;
  len_ : Z;
  node_next : nat;
}.

Module SList.
Definition empty : SliceList := mkSliceList [] None None None 0 0.

(** What a raw pointer refers to; [None] when the node is gone. *)
Definition deref (l : SliceList) (p : nat) : option BufferSlice :=
  snd <$> List.find (fun n => Nat.eqb n.1 p) (nodes l).
(** The pointer [p->next()]. *)
Fixpoint next_in (ns : list (nat * BufferSlice)) (p : nat) : option nat :=
  match ns with
  | [] => None
  | (i, _) :: ns' => if Nat.eqb i p then fst <$> head ns' else next_in ns' p
  end.
Definition next (l : SliceList) (p : nat) : option nat := next_in (nodes l) p.
(** Assign through a raw pointer. *)
Definition assign (l : SliceList) (p : nat) (s : BufferSlice) : SliceList :=
  mkSliceList (map (fun n => if Nat.eqb n.1 p then (n.1, s) else n) (nodes l))
    (front_ l) (write_ l) (back_ l) (len_ l) (node_next l).

Definition set_write (l : SliceList) (p : option nat) : SliceList :=
  mkSliceList (nodes l) (front_ l) p (back_ l) (len_ l) (node_next l).
Definition size (l : SliceList) : Z := len_ l.

(** The nodes up to [p], and the chain [p] owned. *)
Fixpoint split_at (ns : list (nat * BufferSlice)) (p : nat)
    : option (list (nat * BufferSlice) * list BufferSlice) :=
  match ns with
  | [] => None
  | (i, s) :: ns' =>
      if Nat.eqb i p then Some ([(i, s)], map snd ns')
      else '(a, b) ← split_at ns' p; Some ((i, s) :: a, b)
  end.

Definition push_back (l : SliceList) (s : BufferSlice) : option SliceList :=
  let raw := node_next l in
  match back_ l with
  | Some b =>
      if len_ l =? 0 then None else
      '(ns, _) ← split_at (nodes l) b;
      Some (mkSliceList (ns ++ [(raw, s)]) (front_ l) (write_ l) (Some raw)
              (u64 (len_ l + 1)) (S raw))
  | None =>
      if len_ l =? 0
      then Some (mkSliceList [(raw, s)] (Some raw) (write_ l) (Some raw)
                   (u64 (len_ l + 1)) (S raw))
      else None
  end.

Definition pop_front (l : SliceList) : option (option BufferSlice * SliceList) :=
  match front_ l with
  | None => if len_ l =? 0 then Some (None, l) else None
  | Some _ =>
      if len_ l =? 0 then None else
      match nodes l with
      | [] => None
      | (_, s) :: ns =>
          let len := u64 (len_ l - 1) in
          let front := fst <$> head ns in
          if len =? 0
          then match front with
               | None => Some (Some s, mkSliceList ns front (write_ l) None len (node_next l))
               | Some _ => None
               end
          else Some (Some s, mkSliceList ns front (write_ l) (back_ l) len (node_next l))
      end
  end.

(** The detached chain, empty for [nullopt]. *)
Definition split_from_write (l : SliceList) : option (list BufferSlice * SliceList) :=
  match write_ l with
  | None => Some ([], l)
  | Some p =>
      '(ns, chain) ← split_at (nodes l) p;
      Some (chain, mkSliceList ns (front_ l) (write_ l) (Some p)
                     (u64 (len_ l - Z.of_nat (length chain))) (node_next l))
  end.
End SList.

(** * Headers in bounds *)

Section header.
Context (m : shm) (p : Z) (Hp : 0 <= p) (Hl : p + 20 <= shm_len m).

Lemma has_next_in : BufferHeader.has_next m p = Some (0 <? Z.land (get8 m (p + 16)) 1).
Proof. unfold BufferHeader.has_next. consts. now rewrite load_u8_in by lia. Qed.
Lemma next_buffer_offset_in : BufferHeader.next_buffer_offset m p = Some (get32 m (p + 12)).
Proof. unfold BufferHeader.next_buffer_offset. consts. now rewrite load_u32_in by lia. Qed.
Lemma is_in_used_in : BufferHeader.is_in_used m p = Some (0 <? Z.land (get8 m (p + 16)) 2).
Proof. unfold BufferHeader.is_in_used. consts. now rewrite load_u8_in by lia. Qed.
Lemma clear_flag_in : BufferHeader.clear_flag m p = Some (put8 m (p + 16) 0).
Proof. unfold BufferHeader.clear_flag. consts. now rewrite store_u8_in by lia. Qed.
Lemma set_in_used_in :
  BufferHeader.set_in_used m p = Some (put8 m (p + 16) (Z.lor (get8 m (p + 16)) 2)).
Proof.
  unfold BufferHeader.set_in_used. consts. rewrite load_u8_in by lia. cbn.
  now rewrite store_u8_in by lia.
Qed.
Lemma link_next_in next : BufferHeader.link_next m p next =
  Some (put8 (put32 m (p + 12) next) (p + 16) (Z.lor (get8 m (p + 16)) 1)).
Proof. unfold BufferHeader.link_next. consts. shm_run. now shm_simp. Qed.
Lemma header_cap_in : BufferHeader.cap m p = Some (get32 m p).
Proof. unfold BufferHeader.cap. consts. rewrite Z.add_0_r. now rewrite load_u32_in by lia. Qed.
Lemma header_size_in : BufferHeader.size m p = Some (get32 m (p + 4)).
Proof. unfold BufferHeader.size. consts. now rewrite load_u32_in by lia. Qed.
Lemma set_size_in v : BufferHeader.set_size m p v = Some (put32 m (p + 4) v).
Proof. unfold BufferHeader.set_size. consts. now rewrite store_u32_in by lia. Qed.
Lemma header_start_in : BufferHeader.start m p = Some (get32 m (p + 8)).
Proof. unfold BufferHeader.start. consts. now rewrite load_u32_in by lia. Qed.
Lemma set_start_in v : BufferHeader.set_start m p v = Some (put32 m (p + 8) v).
Proof. unfold BufferHeader.set_start. consts. now rewrite store_u32_in by lia. Qed.
End header.

(** Run the accesses to a header whose 20 bytes lie in the mapping. *)
Ltac hdr_run :=
  repeat first
    [ rewrite has_next_in by (autorewrite with shm; lia)
    | rewrite next_buffer_offset_in by (autorewrite with shm; lia)
    | rewrite is_in_used_in by (autorewrite with shm; lia)
    | rewrite clear_flag_in by (autorewrite with shm; lia)
    | rewrite set_in_used_in by (autorewrite with shm; lia)
    | rewrite link_next_in by (autorewrite with shm; lia)
    | rewrite header_cap_in by (autorewrite with shm; lia)
    | rewrite header_size_in by (autorewrite with shm; lia)
    | rewrite set_size_in by (autorewrite with shm; lia)
    | rewrite header_start_in by (autorewrite with shm; lia)
    | rewrite set_start_in by (autorewrite with shm; lia)
    | progress cbn [mbind option_bind fst snd] ].

Lemma make_in m p d len off : len <> 0 -> 0 <= p -> p + 20 <= shm_len m ->
  Slice.make m (Some p) d len off true =
    Some (mkSlice (Some p) d (get32 m p) (get32 m (p + 8)) off (get32 m (p + 8))
            (u32 (get32 m (p + 8) + get32 m (p + 4))) true).
Proof.
  intros. unfold Slice.make. destruct (Z.eqb_spec len 0); [contradiction|]. now hdr_run.
Qed.

(** * Slice lists *)

(** The raw pointers of a list agree with the nodes it owns. *)
Record slist_ok (l : SliceList) : Prop := {
  sl_front : front_ l = fst <$> head (nodes l);
  sl_back : back_ l = fst <$> last (nodes l);
  sl_len : len_ l = Z.of_nat (length (nodes l));
  sl_bound : Z.of_nat (length (nodes l)) < 18446744073709551616;
  sl_nodup : NoDup (fst <$> nodes l);
  sl_fresh : Forall (fun i => (i < node_next l)%nat) (fst <$> nodes l);
}.

Definition slices (l : SliceList) : list BufferSlice := snd <$> nodes l.

Lemma slist_empty_ok : slist_ok SList.empty.
Proof. constructor; cbn; try reflexivity; constructor. Qed.

Lemma set_write_ok l p : slist_ok l -> slist_ok (SList.set_write l p).
Proof. intros []. now constructor. Qed.

(** A list of nodes splits at each of its identities in one way. *)
Lemma split_at_app a i s b : i ∉ fst <$> a ->
  SList.split_at (a ++ (i, s) :: b) i = Some (a ++ [(i, s)], map snd b).
Proof.
  induction a as [|[j t] a IH]; cbn; intros Hi.
  - now rewrite Nat.eqb_refl.
  - apply not_elem_of_cons in Hi as [Hne Hi]. destruct (Nat.eqb_spec j i); [congruence|].
    now rewrite IH.
Qed.

Lemma nodup_middle {B} (a b : list (nat * B)) i s :
  NoDup (fst <$> (a ++ (i, s) :: b)) -> (i ∉ fst <$> a) /\ (i ∉ fst <$> b).
Proof.
  rewrite fmap_app, fmap_cons. cbn. intros Hnd. apply NoDup_app in Hnd as (_ & Hd & Hb).
  apply NoDup_cons in Hb as [Hb _]. split; [|exact Hb]. intros Ha. apply (Hd i Ha). constructor.
Qed.

Lemma push_back_ok l s : slist_ok l ->
  Z.of_nat (length (nodes l)) + 1 < 18446744073709551616 ->
  exists l', SList.push_back l s = Some l' /\ slist_ok l' /\
    nodes l' = nodes l ++ [(node_next l, s)] /\ write_ l' = write_ l.
Proof.
  intros [Hf Hb Hl Hlt Hnd Hfr] Hbound. unfold SList.push_back.
  assert (node_next l ∉ fst <$> nodes l) as Hni.
  { intros Hin. rewrite Forall_forall in Hfr. specialize (Hfr _ Hin). lia. }
  assert (NoDup (fst <$> (nodes l ++ [(node_next l, s)]))) as Hnd'.
  { rewrite fmap_app. apply NoDup_app. split; [exact Hnd|]. split; [|apply NoDup_singleton].
    intros x Hx Hx'. apply list_elem_of_singleton in Hx'. subst. contradiction. }
  assert (Forall (fun i => (i < S (node_next l))%nat)
    (fst <$> (nodes l ++ [(node_next l, s)]))) as Hfr'.
  { rewrite fmap_app. apply Forall_app. split; [|repeat constructor; cbn; lia].
    eapply Forall_impl; [exact Hfr|]. cbn. lia. }
  rewrite Hl, Hb. destruct (decide (nodes l = [])) as [En|(l0 & [i t] & En)%list_snoc_inv];
    rewrite En in *.
  - cbn. eexists. split; [reflexivity|]. split; [|auto]. constructor; cbn; auto; lia.
  - rewrite last_snoc. cbn [fmap option_fmap option_map fst].
    destruct (nodup_middle l0 [] i t) as [Hni' _]; [exact Hnd|].
    rewrite split_at_app by assumption. cbn [mbind option_bind].
    rewrite length_app in *. cbn [length] in *.
    destruct (Z.eqb_spec (Z.of_nat (length l0 + 1)) 0); [lia|].
    eexists. split; [reflexivity|]. split; [|auto].
    constructor; cbn; rewrite ?last_snoc; auto.
    + rewrite Hf. destruct l0; reflexivity.
    + rewrite !length_app. cbn [length]. rewrite u64_id; lia.
    + rewrite !length_app. cbn [length]. lia.
Qed.

Lemma pop_front_empty l : slist_ok l -> nodes l = [] -> SList.pop_front l = Some (None, l).
Proof.
  intros [Hf _ Hl _ _ _] En. unfold SList.pop_front. now rewrite Hf, Hl, En.
Qed.

Lemma pop_front_ok l i s ns : slist_ok l -> nodes l = (i, s) :: ns ->
  exists l', SList.pop_front l = Some (Some s, l') /\ slist_ok l' /\ nodes l' = ns /\
    write_ l' = write_ l /\ node_next l' = node_next l.
Proof.
  intros [Hf Hb Hl Hlt Hnd Hfr] En. unfold SList.pop_front. rewrite En in Hf, Hb, Hl, Hlt, Hnd, Hfr.
  rewrite Hf, Hl, En. cbn [head fmap option_fmap option_map fst length] in *.
  destruct (Z.eqb_spec (Z.of_nat (S (length ns))) 0); [lia|].
  rewrite u64_id by lia. apply NoDup_cons in Hnd as [_ Hnd]. apply Forall_inv_tail in Hfr.
  destruct ns as [|[j t] ns]; cbn [length] in *.
  - eexists. split; [reflexivity|]. split; [|auto]. constructor; cbn; auto; lia.
  - destruct (Z.eqb_spec (Z.of_nat (S (S (length ns))) - 1) 0); [lia|].
    eexists. split; [reflexivity|]. split; [|auto].
    constructor; cbn [nodes front_ back_ len_ node_next]; auto; cbn [length]; lia.
Qed.

(** What a pointer to one of the nodes refers to. *)
Lemma deref_ok l a i s b : slist_ok l -> nodes l = a ++ (i, s) :: b ->
  SList.deref l i = Some s.
Proof.
  intros [_ _ _ _ Hnd _] En. unfold SList.deref. rewrite En in *.
  destruct (nodup_middle a b i s Hnd) as [Ha _]. clear -Ha.
  induction a as [|[j t] a IH]; cbn in *; [now rewrite Nat.eqb_refl|].
  apply not_elem_of_cons in Ha as [Hne Ha]. destruct (Nat.eqb_spec j i); [congruence|auto].
Qed.

Lemma next_ok l a i s b : slist_ok l -> nodes l = a ++ (i, s) :: b ->
  SList.next l i = fst <$> head b.
Proof.
  intros [_ _ _ _ Hnd _] En. unfold SList.next. rewrite En in *.
  destruct (nodup_middle a b i s Hnd) as [Ha _]. clear -Ha.
  induction a as [|[j t] a IH]; cbn in *; [now rewrite Nat.eqb_refl|].
  apply not_elem_of_cons in Ha as [Hne Ha]. destruct (Nat.eqb_spec j i); [congruence|auto].
Qed.

Lemma assign_ok l a i s s' b : slist_ok l -> nodes l = a ++ (i, s) :: b ->
  slist_ok (SList.assign l i s') /\ nodes (SList.assign l i s') = a ++ (i, s') :: b /\
  write_ (SList.assign l i s') = write_ l.
Proof.
  intros [Hf Hb Hl Hlt Hnd Hfr] En.
  assert (nodes (SList.assign l i s') = a ++ (i, s') :: b) as En'.
  { cbn. rewrite En in *. destruct (nodup_middle a b i s Hnd) as [Ha Hb'].
    rewrite map_app. cbn. rewrite Nat.eqb_refl.
    f_equal; [|f_equal]; (etransitivity; [|apply map_id]); apply map_ext_in;
      intros [j t] Hj; cbn; (destruct (Nat.eqb_spec j i); [subst|reflexivity]);
      [destruct Ha|destruct Hb']; apply list_elem_of_fmap; exists (i, t);
      (split; [reflexivity|now apply list_elem_of_In]). }
  assert (fst <$> nodes (SList.assign l i s') = fst <$> nodes l) as Efst.
  { rewrite En', En, !fmap_app. reflexivity. }
  assert (length (nodes (SList.assign l i s')) = length (nodes l)) as Elen.
  { rewrite En', En, !length_app. reflexivity. }
  split; [|auto]. constructor; rewrite ?Efst, ?Elen; cbn [front_ back_ len_ node_next SList.assign]; auto.
  - rewrite <- (head_fmap fst), Efst, head_fmap. exact Hf.
  - rewrite <- (fmap_last fst), Efst, fmap_last. exact Hb.
Qed.

Lemma split_from_write_ok l a i s b : slist_ok l -> nodes l = a ++ (i, s) :: b ->
  write_ l = Some i ->
  exists l', SList.split_from_write l = Some (snd <$> b, l') /\ slist_ok l' /\
    nodes l' = a ++ [(i, s)] /\ write_ l' = Some i.
Proof.
  intros [Hf Hb Hl Hlt Hnd Hfr] En Hw. unfold SList.split_from_write. rewrite Hw, En in *.
  destruct (nodup_middle a b i s Hnd) as [Ha _]. rewrite split_at_app by assumption.
  cbn [mbind option_bind]. eexists. split; [reflexivity|].
  assert (a ++ (i, s) :: b = (a ++ [(i, s)]) ++ b) as Eab by now rewrite <- app_assoc.
  rewrite Eab, fmap_app in Hnd, Hfr. apply NoDup_app in Hnd as (Hnd & _ & _).
  apply Forall_app in Hfr as [Hfr _]. rewrite Eab, length_app in Hl, Hlt.
  split; [|auto]. constructor; cbn; rewrite ?last_snoc; auto.
  - rewrite Hf. destruct a; reflexivity.
  - rewrite length_map, Hl, u64_id; lia.
  - lia.
Qed.
