(* ===== verification/Pool.v ===== *)
(** What the buffer pool promises to its users ([LinkedBuffer], [Stream],
    [Session]): the operations of [BufferManager] they call, and the laws the
    users' theorems rely on.  [Manager] proves the laws of the real pool.

    A slot is a slice of the pool: its header's address and its capacity.  A
    state of the pool is a mapping together with the slots that are out, held
    by either process. *)
From S2P Require Import Prelude Errors Consts Shm Slices.

Definition slot : Type := Z * Z.

(** The bytes of a slot, and those of them a holder may write: the capacity in
    the header belongs to the pool. *)
Definition in_slot (s : slot) (b : Z) : Prop := s.1 <= b < s.1 + 20 + s.2.
Definition in_user (s : slot) (b : Z) : Prop := s.1 + 4 <= b < s.1 + 20 + s.2.
Definition user_bytes (held : list slot) (b : Z) : Prop := exists s, s ∈ held /\ in_user s b.

(** No byte of the slots held has changed. *)
Definition keeps (held : list slot) (m m' : shm) : Prop :=
  shm_len m = shm_len m' /\ forall s b, s ∈ held -> in_slot s b -> get8 m b = get8 m' b.

(** The slice the pool makes of a slot it gives out. *)
Definition fresh_slice (s : slot) : BufferSlice :=
  mkSlice (Some s.1) (InShm (s.1 + 20)) s.2 0 s.1 0 0 true.

(** A slice of the slot [s], whatever has been written to it and read from it. *)
Record slice_of (s : slot) (b : BufferSlice) : Prop := {
  so_header : buffer_header b = Some s.1;
  so_data : data b = InShm (s.1 + 20);
  so_cap : cap b = s.2;
  so_offset : offset_in_shm b = s.1;
  so_shm : is_from_shm b = true;
}.

Definition slot_flag (m : shm) (s : slot) : Z := get8 m (s.1 + 16).

Definition total_cap (l : list slot) : Z := foldr (fun s acc => s.2 + acc) 0 l.

(** Without the last of the slots there is less room than asked for. *)
Definition needs (size : Z) (news : list slot) : Prop :=
  forall a z, news = a ++ [z] -> total_cap a < size.

(** The operations of [BufferManager] that hand slices out and take them back. *)
Record PoolOps := mkPoolOps {
  alloc_shm_buffer : shm -> Z -> option (result BufferSlice * shm);
  alloc_shm_buffers : shm -> SliceList -> Z -> option (SliceList * Z * shm);
  recycle_buffer : memory -> BufferSlice -> option memory;
  recycle_buffers : nat -> memory -> BufferSlice -> option memory;
  read_buffer_slice : shm -> Z -> option (result BufferSlice);
}.

(** The slice a reader makes of a slot, from its header. *)
Definition read_slice (m : shm) (t : slot) : BufferSlice :=
  mkSlice (Some t.1) (InShm (t.1 + 20)) t.2 (get32 m (t.1 + 8)) t.1 (get32 m (t.1 + 8))
    (u32 (get32 m (t.1 + 8) + get32 m (t.1 + 4))) true.

(** The slots of a message: each in use and linked to the next. *)
Fixpoint msg_chain (m : shm) (ts : list slot) : Prop :=
  match ts with
  | [] => True
  | t :: ts' =>
      Z.testbit (slot_flag m t) 1 = true /\
      match ts' with
      | [] => Z.testbit (slot_flag m t) 0 = false
      | u :: _ => Z.testbit (slot_flag m t) 0 = true /\ get32 m (t.1 + 12) = u.1
      end /\ msg_chain m ts'
  end.

Class Pool (ops : PoolOps) := {
  own : shm -> list slot -> Prop;
  own_perm m held held' : held ≡ₚ held' -> own m held -> own m held';
  own_slot m held s : own m held -> s ∈ held ->
    0 <= s.1 /\ 0 < s.2 /\ s.1 + 20 + s.2 <= shm_len m /\ s.1 + 20 + s.2 < 4294967296 /\
    get32 m s.1 = s.2;
  own_disjoint m s held t : own m (s :: held) -> t ∈ held ->
    s.1 + 20 + s.2 <= t.1 \/ t.1 + 20 + t.2 <= s.1;
  own_count m held : own m held -> Z.of_nat (length held) < 4294967296;
  own_total m held : own m held -> total_cap held < 4294967296;
  own_write m m' held : own m held -> same_but (user_bytes held) m m' -> own m' held;
  alloc_law m held size : own m held -> 0 <= size < 4294967296 ->
    (exists s m', alloc_shm_buffer ops m size = Some (Ok (fresh_slice s), m') /\
       own m' (s :: held) /\ keeps held m m' /\ size <= s.2 /\ slot_flag m' s = 2) \/
    (exists m', alloc_shm_buffer ops m size = Some (fail_with kNoMoreBuffer, m') /\
       own m' held /\ keeps held m m');
  allocs_law m held l size : own m held -> slist_ok l -> 0 <= size < 4294967296 ->
    Z.of_nat (length (nodes l)) < 9223372036854775808 ->
    exists news ns l' m',
      alloc_shm_buffers ops m l size = Some (l', total_cap news, m') /\
      own m' (news ++ held) /\ keeps held m m' /\ slist_ok l' /\ write_ l' = write_ l /\
      nodes l' = nodes l ++ ns /\ snd <$> ns = fresh_slice <$> news /\
      Forall (fun s => slot_flag m' s = 2) news /\ needs size news;
  recycle_law w held s b : own (shared w) (s :: held) -> slice_of s b ->
    Z.testbit (slot_flag (shared w) s) 1 = true ->
    exists m', recycle_buffer ops w b = Some (set_shared w m') /\ own m' held /\
      keeps held (shared w) m';
  recycle_heap_law w b : is_from_shm b = false ->
    recycle_buffer ops w b = Some (Slice.destroy w b);
  read_law m held s : own m held -> s ∈ held ->
    read_buffer_slice ops m s.1 = Some (Ok (read_slice m s));
  recycles_law w held s ss b fuel : own (shared w) (s :: ss ++ held) ->
    msg_chain (shared w) (s :: ss) -> slice_of s b -> (length ss < fuel)%nat ->
    exists m', recycle_buffers ops fuel w b = Some (set_shared w m') /\ own m' held /\
      keeps held (shared w) m';
}.

Lemma keeps_refl held m : keeps held m m.
Proof. split; reflexivity. Qed.
Lemma keeps_trans held m1 m2 m3 : keeps held m1 m2 -> keeps held m2 m3 -> keeps held m1 m3.
Proof.
  intros [H1 H1'] [H2 H2']. split; [congruence|]. intros s b Hs Hb.
  rewrite (H1' s b) by assumption. now apply (H2' s b).
Qed.
Lemma keeps_incl held held' m m' : keeps held m m' -> held' ⊆ held -> keeps held' m m'.
Proof. intros [H1 H2] Hi. split; [exact H1|]. intros s b Hs. apply H2. now apply Hi. Qed.
#[export] Hint Resolve keeps_refl : bounds.

Lemma fresh_slice_of s : slice_of s (fresh_slice s).
Proof. constructor; reflexivity. Qed.

Lemma total_cap_app a b : total_cap (a ++ b) = total_cap a + total_cap b.
Proof. unfold total_cap. induction a as [|s a IH]; cbn; lia. Qed.

#[global] Instance total_cap_perm : Proper ((≡ₚ) ==> (=)) total_cap.
Proof. unfold total_cap. induction 1; cbn; lia. Qed.

Lemma needs_nil size : needs size [].
Proof. intros a z E. now destruct a. Qed.
Lemma needs_one size t : 0 < size -> needs size [t].
Proof. intros H a z E. destruct a as [|? [|]]; [exact H|discriminate..]. Qed.
Lemma needs_app size n1 n2 : needs size n1 -> needs (size - total_cap n1) n2 ->
  needs size (n1 ++ n2).
Proof.
  intros H1 H2 a z E. destruct (decide (n2 = [])) as [->|(n & y & ->)%list_snoc_inv].
  - rewrite app_nil_r in E. eauto.
  - rewrite app_assoc in E. apply app_inj_tail in E as [<- <-].
    specialize (H2 n y eq_refl). rewrite total_cap_app. lia.
Qed.

(** * Messages in the pool *)

Lemma read_slice_of m t : slice_of t (read_slice m t).
Proof. constructor; reflexivity. Qed.

Lemma msg_chain_keeps m m' ts : keeps ts m m' -> (forall t, t ∈ ts -> 0 < t.2) ->
  msg_chain m ts -> msg_chain m' ts.
Proof.
  intros Hk Hpos. revert Hk Hpos. induction ts as [|t ts IH]; intros Hk Hpos; cbn; [auto|].
  assert (slot_flag m' t = slot_flag m t) as ->.
  { symmetry. apply (proj2 Hk t); [constructor|]. specialize (Hpos t ltac:(constructor)).
    unfold in_slot. lia. }
  assert (get32 m' (t.1 + 12) = get32 m (t.1 + 12)) as ->.
  { symmetry. apply (get_le_ext 4). intros b Hb. cbn in Hb. apply (proj2 Hk t); [constructor|].
    specialize (Hpos t ltac:(constructor)). unfold in_slot. lia. }
  intros (H1 & H2 & H3). split; [exact H1|]. split; [exact H2|]. apply IH; [|set_solver|exact H3].
  eapply keeps_incl; [exact Hk|]. set_solver.
Qed.

Lemma land_flag_bit f i : 0 <= f -> 0 <= i -> (0 <? Z.land f (2 ^ i)) = Z.testbit f i.
Proof.
  intros Hf Hi. assert (0 <= Z.land f (2 ^ i)) by (apply Z.land_nonneg; lia).
  destruct (Z.testbit f i) eqn:E.
  - apply Z.ltb_lt. assert (Z.land f (2 ^ i) <> 0); [|lia]. intros E'.
    assert (Z.testbit (Z.land f (2 ^ i)) i = false) as H' by (rewrite E'; apply Z.testbit_0_l).
    rewrite Z.land_spec, E, Z.pow2_bits_true in H' by lia. discriminate.
  - apply Z.ltb_ge. assert (Z.land f (2 ^ i) = 0); [|lia]. apply Z.bits_inj'. intros k Hk.
    rewrite Z.land_spec, Z.testbit_0_l, Z.pow2_bits_eqb by lia.
    destruct (Z.eqb_spec i k); [subst; now rewrite E|apply andb_false_r].
Qed.

Lemma has_next_bit m t : 0 <= t.1 -> t.1 + 20 <= shm_len m ->
  BufferHeader.has_next m t.1 = Some (Z.testbit (slot_flag m t) 0).
Proof.
  intros. rewrite has_next_in by lia. f_equal. apply (land_flag_bit _ 0); [|lia].
  apply get8_range.
Qed.
