(* ===== verification/BufList.v ===== *)
(** The lists of free slices of the buffer pool
    ([include/shmipc/buffer/list.hpp], [src/buffer/list.cpp]).

    A [BufferList] is a set of pointers into the mapping: the list's 36-byte
    header and the region of slices behind it.  The free slices are chained
    through their headers from [head_] to [tail_], as offsets into the region.
    [create], [mapping], [push] and [pop] are modelled as one process runs them
    undisturbed; their accesses are not interleaved with those of another. *)
From S2P Require Import Prelude Errors Consts Shm Slices.

Record BufferList := mkBL {
  size_ : Z;
  cap_ : Z;
  head_ : Z;
  tail_ : Z;
  cap_per_buffer_ : Z;
  counter_ : Z;
  buffer_region_ : Z;
  buffer_region_len_ : Z;
  buffer_region_offset_in_shm_ : Z;
  offset_in_shm_ : Z;
}.

Definition count_buffer_list_mem_size (buffer_num cap_per_buffer : Z) : Z :=
  u32 (kBufferListHeaderSize + u32 (buffer_num * u32 (cap_per_buffer + kBufferHeaderSize))).

Module BList.
(** The pointers of the list at [offset] with [region_len] bytes of slices. *)
Definition pointers (offset region_len : Z) : BufferList :=
  mkBL offset (offset + 4) (offset + 8) (offset + 12) (offset + 16)
    (offset + kCounterListOffset) (offset + kBufferListHeaderSize) region_len
    (u32 (offset + kBufferListHeaderSize)) offset.

(** The loop over the slices: [n] of them are left, the one at [current] is
    slice [i]. *)
Fixpoint init_slices (m : shm) (region buffer_num cap_per_buffer i current : Z) (n : nat)
    : option shm :=
  match n with
  | O => Some m
  | S n' =>
      let next := u32 (current + cap_per_buffer + kBufferHeaderSize) in
      m ← store_u32 m (region + current) cap_per_buffer;
      m ← store_u32 m (region + current + kBufferSizeOffset) 0;
      m ← store_u32 m (region + current + kBufferDataStartOffset) 0;
      m ← match i <? u32 (buffer_num - 1) with
          | true =>
              m ← store_u32 m (region + current + kNextBufferOffset) next;
              m ← store_u32 m (region + current + kBufferFlagOffset) 0;
              f ← load_u8 m (region + current + kBufferFlagOffset);
              store_u8 m (region + current + kBufferFlagOffset) (Z.lor f kHasNextBufferFlag)
          | false => Some m
          end;
      init_slices m region buffer_num cap_per_buffer (i + 1) next n'
  end.

Definition create (m : shm) (buffer_num cap_per_buffer mem_len offset_in_mem : Z)
    : option (result BufferList * shm) :=
  if (buffer_num =? 0) || (cap_per_buffer =? 0) then
    Some (Unexpected (error_other "buffer_num:%u and cap_per_buffer:%u could not be 0"), m)
  else
  let at_least_size_64 :=
    u64 (kBufferListHeaderSize + u64 (buffer_num * (cap_per_buffer + kBufferHeaderSize))) in
  if UINT32_MAX <? at_least_size_64 then
    Some (Unexpected
      (error_other "buffer list size overflow: buffer_num/cap_per_buffer too large"), m)
  else
  let at_least_size := u32 at_least_size_64 in
  let mem_len32 := u32 mem_len in
  if (mem_len <? offset_in_mem + at_least_size) || (mem_len32 <? offset_in_mem) ||
     (mem_len32 <? at_least_size) then
    Some (Unexpected (error_other
      "mem's size is at least:%u but:%zu offset_in_mem:%u at_least_size:%u"), m)
  else
  let buffer_region_start := u32 (offset_in_mem + kBufferListHeaderSize) in
  let buffer_region_end := u32 (offset_in_mem + at_least_size) in
  if buffer_region_end <=? buffer_region_start then
    Some (Unexpected (error_other
      "buffer_region_start:%u buffer_region_end:%u slice bounds out of range"), m)
  else
  let b := pointers offset_in_mem (u32 (at_least_size - kBufferListHeaderSize)) in
  m ← store_u32 m (size_ b) buffer_num;
  m ← store_u32 m (cap_ b) buffer_num;
  m ← store_u32 m (head_ b) 0;
  m ← store_u32 m (tail_ b) (u32 (u32 (buffer_num - 1) * u32 (cap_per_buffer + kBufferHeaderSize)));
  m ← store_u32 m (cap_per_buffer_ b) cap_per_buffer;
  m ← store_u32 m (counter_ b) 0;
  m ← init_slices m (buffer_region_ b) buffer_num cap_per_buffer 0 0 (Z.to_nat buffer_num);
  t ← load_u32 m (tail_ b);
  m ← store_u32 m (buffer_region_ b + t + kBufferFlagOffset) 0;
  Some (Ok b, m).

Definition mapping (m : shm) (mem_len offset_in_shm : Z) : option (result BufferList) :=
  if mem_len <? offset_in_shm + kBufferListHeaderSize then
    Some (Unexpected (error_other "mapping buffer list failed, mem's size is at least %u"))
  else
  let b := pointers offset_in_shm 0 in
  c ← load_u32 m (cap_ b);
  per ← load_u32 m (cap_per_buffer_ b);
  let need_size_64 := u64 (kBufferListHeaderSize + u64 (c * (per + kBufferHeaderSize))) in
  if UINT32_MAX <? need_size_64 then
    Some (Unexpected
      (error_other "mapping buffer list failed: corrupted header (size overflow)"))
  else
  let need_size := u32 need_size_64 in
  if (mem_len <? u32 (offset_in_shm + need_size)) ||
     (u32 (offset_in_shm + need_size) <? u32 (offset_in_shm + kBufferListHeaderSize)) then
    Some (Unexpected (error_other
      "mapping buffer list failed, size:%d cap:%u head:%u tail:%u cap_per_buffer:%u err: mem's size is at least %u but:%zu"))
  else
  Some (Ok (pointers offset_in_shm (u32 (need_size - kBufferListHeaderSize)))).

Definition remain (m : shm) (b : BufferList) : option Z :=
  s ← load_i32 m (size_ b); Some (s - 1).
Definition size_load (m : shm) (b : BufferList) : option Z := load_i32 m (size_ b).
Definition cap_load (m : shm) (b : BufferList) : option Z := load_u32 m (cap_ b).
Definition head_load (m : shm) (b : BufferList) : option Z := load_u32 m (head_ b).
Definition tail_load (m : shm) (b : BufferList) : option Z := load_u32 m (tail_ b).
Definition counter_load (m : shm) (b : BufferList) : option Z := load_i32 m (counter_ b).
Definition cap_per_buffer (m : shm) (b : BufferList) : option Z := load_u32 m (cap_per_buffer_ b).

(** The loop of [push]; undisturbed, the exchange of the tail succeeds at the
    first try. *)
Fixpoint push_loop (fuel : nat) (m : shm) (b : BufferList) (buffer : BufferSlice) : option shm :=
  match fuel with
  | O => None
  | S fuel' =>
      old_tail ← load_u32 m (tail_ b);
      let new_tail := u32 (offset_in_shm buffer - buffer_region_offset_in_shm_ b) in
      '(ok, old_tail, m) ← cas_u32 m (tail_ b) old_tail new_tail;
      match ok with
      | true =>
          m ← BufferHeader.link_next m (buffer_region_ b + old_tail) new_tail;
          '(_, m) ← fetch_add_i32 m (size_ b) 1;
          '(_, m) ← fetch_sub_i32 m (counter_ b) 1;
          Some m
      | false => push_loop fuel' m b buffer
      end
  end.

Definition push (m : shm) (b : BufferList) (buffer : BufferSlice) : option shm :=
  '(buffer, m) ← Slice.reset m buffer;
  push_loop 1 m b buffer.

(** The retries of [pop]. *)
Fixpoint pop_loop (retries : nat) (m : shm) (b : BufferList) (old_head : Z)
    : option (result BufferSlice * shm) :=
  match retries with
  | O =>
      '(_, m) ← fetch_add_i32 m (size_ b) 1;
      Some (fail_with kNoMoreBuffer, m)
  | S retries' =>
      let bh := buffer_region_ b + old_head in
      more ← BufferHeader.has_next m bh;
      match more with
      | true =>
          next ← BufferHeader.next_buffer_offset m bh;
          '(ok, old_head, m) ← cas_u32 m (head_ b) old_head next;
          match ok with
          | true =>
              let h := buffer_region_ b + old_head in
              m ← BufferHeader.clear_flag m h;
              m ← BufferHeader.set_in_used m h;
              '(_, m) ← fetch_add_i32 m (counter_ b) 1;
              c ← load_u32 m (cap_per_buffer_ b);
              s ← Slice.make m (Some h) (InShm (h + kBufferHeaderSize)) c
                    (u32 (old_head + buffer_region_offset_in_shm_ b)) true;
              Some (Ok s, m)
          | false =>
              old_head ← load_u32 m (head_ b); pop_loop retries' m b old_head
          end
      | false =>
          n ← load_i32 m (size_ b);
          match n <=? 1 with
          | true =>
              '(_, m) ← fetch_add_i32 m (size_ b) 1;
              Some (fail_with kNoMoreBuffer, m)
          | false => old_head ← load_u32 m (head_ b); pop_loop retries' m b old_head
          end
      end
  end.

Definition pop_retries : nat := 200.

Definition pop (m : shm) (b : BufferList) : option (result BufferSlice * shm) :=
  old_head ← load_u32 m (head_ b);
  '(remain, m) ← fetch_sub_i32 m (size_ b) 1;
  none ← match remain <=? 1 with
         | true => Some true
         | false =>
             per ← load_u32 m (cap_per_buffer_ b);
             Some (buffer_region_len_ b <? u32 (u32 (old_head + kBufferHeaderSize) + per))
         end;
  match none : bool with
  | true =>
      '(_, m) ← fetch_add_i32 m (size_ b) 1;
      Some (fail_with kNoMoreBuffer, m)
  | false => pop_loop pop_retries m b old_head
  end.
End BList.

(** * Representation *)

Section rep.
(** A list at [o] of [n] slices of capacity [c]. *)
Context (o n c : Z).

Definition stride : Z := c + kBufferHeaderSize.
Definition region : Z := o + kBufferListHeaderSize.
Definition blist : BufferList := BList.pointers o (n * stride).

(** [x] is the offset of one of the slices in the region. *)
Definition valid_slot (x : Z) : Prop := exists k, 0 <= k < n /\ x = k * stride.

Definition list_fits (len : Z) : Prop :=
  0 <= o /\ 0 < n /\ 0 < c /\ region + n * stride <= len /\ region + n * stride < 4294967296.

(** The fields of the header of the slice at [x]. *)
Definition h_cap (m : shm) (x : Z) : Z := get32 m (region + x).
Definition h_size (m : shm) (x : Z) : Z := get32 m (region + x + 4).
Definition h_start (m : shm) (x : Z) : Z := get32 m (region + x + 8).
Definition h_next (m : shm) (x : Z) : Z := get32 m (region + x + 12).
Definition h_flag (m : shm) (x : Z) : Z := get8 m (region + x + 16).

(** The free slices are chained in order and the last one has no successor. *)
Fixpoint chained (m : shm) (free : list Z) : Prop :=
  match free with
  | [] => True
  | [x] => h_flag m x = 0
  | x :: ((y :: _) as free') => h_flag m x = 1 /\ h_next m x = y /\ chained m free'
  end.

Record bl_rep (m : shm) (free : list Z) : Prop := {
  rep_fits : list_fits (shm_len m);
  rep_nodup : NoDup free;
  rep_valid : Forall valid_slot free;
  rep_size : get32 m o = Z.of_nat (length free);
  rep_cap : get32 m (o + 4) = n;
  rep_head : Some (get32 m (o + 8)) = head free;
  rep_tail : Some (get32 m (o + 12)) = last free;
  rep_per : get32 m (o + 16) = c;
  rep_counter : i32 (get32 m (o + 20)) = n - Z.of_nat (length free);
  rep_chain : chained m free;
  rep_zero : Forall (fun x => h_size m x = 0 /\ h_start m x = 0) free;
  rep_caps : forall x, valid_slot x -> h_cap m x = c;
}.

(** The slice [pop] makes of the slot [x]. *)
Definition slot_slice (x : Z) : BufferSlice :=
  mkSlice (Some (region + x)) (InShm (region + x + kBufferHeaderSize)) c 0 (region + x) 0 0 true.

(** The bytes of the list's header and of the headers of [xs]. *)
Definition list_foot (xs : list Z) (b : Z) : Prop :=
  o <= b < o + kBufferListHeaderSize \/
  exists x, x ∈ xs /\ region + x <= b < region + x + kBufferHeaderSize.

Lemma valid_slot_range x : 0 < c -> valid_slot x -> 0 <= x /\ x + stride <= n * stride.
Proof. intros Hc (k & Hk & ->). unfold stride. clia || (consts; nia). Qed.

Lemma valid_slot_disjoint x y : 0 < c -> valid_slot x -> valid_slot y -> x <> y ->
  x + stride <= y \/ y + stride <= x.
Proof.
  intros Hc (j & Hj & ->) (k & Hk & ->) Hne. unfold stride in *. consts.
  destruct (Z.lt_total j k) as [?|[->|?]]; [left; nia|contradiction|right; nia].
Qed.

(** There are no more free slices than slices. *)
Lemma free_length free : 0 < n -> NoDup free -> Forall valid_slot free ->
  Z.of_nat (length free) <= n.
Proof.
  intros Hn Hnd Hv.
  assert (free ⊆+ ((fun k => Z.of_nat k * stride) <$> seq 0 (Z.to_nat n))) as Hs.
  { apply NoDup_submseteq; [exact Hnd|]. intros x Hx. rewrite Forall_forall in Hv.
    destruct (Hv x Hx) as (k & Hk & ->). apply list_elem_of_fmap. exists (Z.to_nat k).
    rewrite elem_of_seq. split; [f_equal|]; lia. }
  apply submseteq_length in Hs. rewrite length_fmap, length_seq in Hs. lia.
Qed.

(** ** Chains *)

Lemma chained_frame m m' free :
  (forall x, x ∈ free -> h_flag m' x = h_flag m x /\ h_next m' x = h_next m x) ->
  chained m free -> chained m' free.
Proof.
  induction free as [|x [|y free] IH]; cbn; intros Hf Hc; [exact I| |].
  - destruct (Hf x) as [-> _]; [set_solver|exact Hc].
  - destruct (Hf x) as [-> ->]; [set_solver|]. destruct Hc as (? & ? & ?).
    split; [assumption|]. split; [assumption|]. apply IH; [|assumption]. set_solver.
Qed.

(** Linking a slice behind the last one. *)
Lemma chained_snoc m m' free t x :
  (forall y, y ∈ free -> h_flag m' y = h_flag m y /\ h_next m' y = h_next m y) ->
  h_flag m' t = 1 -> h_next m' t = x -> h_flag m' x = 0 ->
  chained m (free ++ [t]) -> chained m' ((free ++ [t]) ++ [x]).
Proof.
  intros Hf Ht1 Ht2 Hx. induction free as [|y free IH]; cbn; [auto|].
  intros Hc. destruct (Hf y) as [E1 E2]; [set_solver|].
  assert (forall z, z ∈ free -> h_flag m' z = h_flag m z /\ h_next m' z = h_next m z) as Hf'
    by set_solver.
  destruct free as [|z free]; cbn in *.
  - destruct Hc as (? & ? & ?). rewrite E1, E2. tauto.
  - destruct Hc as (? & ? & Hc). rewrite E1, E2. split; [assumption|]. split; [assumption|].
    apply IH; [exact Hf'|exact Hc].
Qed.

(** ** [pop] *)

(** The bounds the operations run in. *)
Lemma slot_bounds m x : list_fits (shm_len m) -> valid_slot x ->
  0 <= o /\ o + 36 = region /\ 0 < c /\ 0 <= x /\ stride = c + 20 /\
  x + stride <= n * stride /\ region + n * stride <= shm_len m /\
  region + n * stride < 4294967296 /\ 0 < n < 204522253.
Proof.
  intros (? & ? & ? & ? & ?) Hx. pose proof (valid_slot_range x ltac:(assumption) Hx).
  unfold region, stride in *. consts. repeat split; nia.
Qed.

Definition pop_mem (m : shm) (x y cnt : Z) : shm :=
  put32 (put8 (put8 (put32 m (o + 8) y) (region + x + 16) 0) (region + x + 16) 2)
    (o + 20) (cnt + 1).

Lemma pop_loop_hit r m x y : list_fits (shm_len m) -> valid_slot x ->
  get32 m (o + 8) = x -> get32 m (o + 16) = c -> h_flag m x = 1 -> h_next m x = y ->
  h_cap m x = c -> h_size m x = 0 -> h_start m x = 0 ->
  BList.pop_loop (S r) m blist x =
    Some (Ok (slot_slice x), pop_mem m x y (i32 (get32 m (o + 20)))).
Proof.
  unfold h_flag, h_next, h_size, h_start, h_cap.
  intros Hf Hx Hh Hp Hfl Hnx Hc Hz1 Hz2. pose proof (slot_bounds m x Hf Hx) as Hb.
  cbn [BList.pop_loop]. unfold blist, BList.pointers. cbn -[Z.add]. consts.
  destruct Hb as (? & Hr & Hb). rewrite Hr.
  hdr_run. rewrite Hfl. cbn -[Z.add]. hdr_run. rewrite cas_u32_hit by lia. cbn -[Z.add].
  hdr_run. shm_run. rewrite make_in by (shm_simp; lia). cbn -[Z.add]. shm_simp.
  rewrite Hc, Hz1, Hz2, Hnx. unfold slot_slice, pop_mem. consts.
  rewrite (u32_id region), (u32_id (x + region)), (Z.add_comm x region) by lia. reflexivity.
Qed.

Lemma bl_pop_run m x y free : bl_rep m (x :: y :: free) ->
  BList.pop m blist = Some (Ok (slot_slice x),
    pop_mem (put32 m o (Z.of_nat (length (x :: y :: free)) - 1)) x y
      (n - Z.of_nat (length (x :: y :: free)))).
Proof.
  intros [Hf Hnd Hv Hs Hcap Hh Ht Hp Hcnt Hch Hz Hcaps].
  pose proof (Forall_inv Hv) as Hx. pose proof (slot_bounds m x Hf Hx) as Hb.
  cbn in Hh. injection Hh as Hh. cbn [chained] in Hch. destruct Hch as (Hfl & Hnx & _).
  pose proof (Forall_inv Hz) as (Hz1 & Hz2). pose proof (Hcaps x Hx) as Hc.
  unfold h_flag, h_next, h_size, h_start, h_cap in *.
  pose proof (free_length _ ltac:(apply Hf) Hnd Hv) as Hlen.
  remember (Z.of_nat (length (x :: y :: free))) as k eqn:Hk.
  assert (2 <= k) by (subst k; cbn [length]; lia).
  unfold BList.pop. change (head_ blist) with (o + 8). change (size_ blist) with o.
  change (cap_per_buffer_ blist) with (o + 16).
  change (buffer_region_len_ blist) with (n * stride). consts.
  shm_run. rewrite Hh, Hs, i32_id by lia.
  assert ((k <=? 1) = false) as -> by lia. cbn [mbind option_bind].
  shm_run. shm_simp. rewrite Hp.
  assert ((n * stride <? u32 (u32 (x + 20) + c)) = false) as -> by (rewrite (u32_id (x + 20)), u32_id by lia; lia).
  unfold BList.pop_retries.
  rewrite (pop_loop_hit _ _ x y); rewrite ?put32_len; unfold h_flag, h_next, h_size, h_start,
    h_cap; shm_simp; auto. now rewrite Hcnt.
Qed.

(** The header of another slice is out of the way of the writes of [pop]. *)
Lemma pop_mem_other m x y k cnt z b : list_fits (shm_len m) -> valid_slot x -> valid_slot z ->
  z <> x -> region + z <= b < region + z + 20 ->
  get8 (pop_mem (put32 m o k) x y cnt) b = get8 m b.
Proof.
  intros Hf Hx Hz Hne Hb. pose proof (slot_bounds m x Hf Hx). pose proof (slot_bounds m z Hf Hz).
  pose proof (valid_slot_disjoint x z ltac:(lia) Hx Hz ltac:(congruence)).
  unfold pop_mem. shm_simp. reflexivity.
Qed.

(** The fields of a header that two memories agree on. *)
Lemma header_ext m m' z : same_on (region + z) 20 m m' ->
  h_cap m' z = h_cap m z /\ h_size m' z = h_size m z /\ h_start m' z = h_start m z /\
  h_next m' z = h_next m z /\ h_flag m' z = h_flag m z.
Proof.
  intros H. unfold h_cap, h_size, h_start, h_next, h_flag, get32.
  repeat split; try (symmetry; apply get_le_ext; intros b Hb; apply H; cbn in Hb; lia).
  symmetry. apply H. lia.
Qed.

Lemma bl_pop_rep m x y free :
  bl_rep m (x :: y :: free) ->
  bl_rep (pop_mem (put32 m o (Z.of_nat (length (x :: y :: free)) - 1)) x y
    (n - Z.of_nat (length (x :: y :: free)))) (y :: free).
Proof.
  intros [Hf Hnd Hv Hs Hcap Hh Ht Hp Hcnt Hch Hz Hcaps].
  pose proof (free_length _ ltac:(apply Hf) Hnd Hv) as Hlen.
  pose proof (Forall_inv Hv) as Hx. pose proof (slot_bounds m x Hf Hx) as Hb.
  remember (Z.of_nat (length (x :: y :: free))) as k eqn:Hk. cbn [length] in Hk.
  set (m' := pop_mem _ _ _ _).
  assert (forall z, valid_slot z -> z <> x -> same_on (region + z) 20 m m') as Hoth.
  { intros z Hzv Hzx b Hzb. symmetry. unfold m'. now rewrite (pop_mem_other m x y _ _ z). }
  assert (forall z, z ∈ y :: free -> same_on (region + z) 20 m m') as Hin.
  { intros z Hzi. apply Hoth.
    - apply Forall_inv_tail in Hv. rewrite Forall_forall in Hv. auto.
    - intros ->. apply NoDup_cons in Hnd as [Hni _]. contradiction. }
  constructor.
  - unfold m', pop_mem. now rewrite !put32_len.
  - now apply NoDup_cons in Hnd as [_ ?].
  - now apply Forall_inv_tail in Hv.
  - unfold m', pop_mem. shm_simp. cbn [length]. lia.
  - unfold m', pop_mem. shm_simp. exact Hcap.
  - unfold m', pop_mem. shm_simp. cbn. f_equal. apply u32_id.
    apply Forall_inv_tail, Forall_inv in Hv. pose proof (slot_bounds m y Hf Hv). lia.
  - unfold m', pop_mem. shm_simp. exact Ht.
  - unfold m', pop_mem. shm_simp. exact Hp.
  - unfold m', pop_mem. shm_simp. cbn [length]; lia.
  - eapply chained_frame; [|destruct Hch as (_ & _ & Hch); exact Hch].
    intros z Hzi. pose proof (header_ext _ _ _ (Hin z Hzi)). tauto.
  - apply Forall_inv_tail in Hz. rewrite Forall_forall in *. intros z Hzi.
    destruct (header_ext _ _ _ (Hin z Hzi)) as (_ & -> & -> & _). auto.
  - intros z Hzv. destruct (decide (z = x)) as [->|Hne].
    + unfold h_cap, m', pop_mem. shm_simp. now apply Hcaps.
    + destruct (header_ext _ _ _ (Hoth z Hzv Hne)) as (-> & _). auto.
Qed.

(** Taking the first of at least two free slices. *)
Lemma pop_ok m x y free : bl_rep m (x :: y :: free) ->
  exists m', BList.pop m blist = Some (Ok (slot_slice x), m') /\ bl_rep m' (y :: free) /\
    h_flag m' x = 2 /\ same_but (list_foot [x]) m m'.
Proof.
  intros Hrep. eexists. split; [exact (bl_pop_run m x y free Hrep)|].
  split; [exact (bl_pop_rep m x y free Hrep)|].
  pose proof Hrep as [Hf _ Hv _ _ _ _ _ _ _ _ _]. apply Forall_inv in Hv.
  pose proof (slot_bounds m x Hf Hv). split.
  - unfold h_flag, pop_mem. shm_simp. reflexivity.
  - unfold pop_mem. unfold list_foot. consts.
    repeat first [apply same_but_put32|apply same_but_put8|apply same_but_refl]; intros;
      (left; lia) || (right; exists x; split; [constructor|lia]).
Qed.

(** The last free slice is never given out. *)
Lemma pop_last m x : bl_rep m [x] ->
  exists m', BList.pop m blist = Some (fail_with kNoMoreBuffer, m') /\ m' ≡ m.
Proof.
  intros [Hf Hnd Hv Hs Hcap Hh Ht Hp Hcnt Hch Hz Hcaps].
  pose proof (Forall_inv Hv) as Hx. pose proof (slot_bounds m x Hf Hx) as Hb.
  unfold BList.pop. change (head_ blist) with (o + 8). change (size_ blist) with o.
  shm_run. rewrite Hs. cbn -[Z.add BList.pop_loop]. shm_run. eexists. split; [reflexivity|].
  rewrite put32_put32. apply put32_same. shm_simp. rewrite Hs. reflexivity.
Qed.

(** ** [push] *)

Definition push_mem (m : shm) (x t k cnt : Z) : shm :=
  put32 (put32 (put8 (put32 (put32 (put8 (put32 (put32 m (region + x + 4) 0)
    (region + x + 8) 0) (region + x + 16) 0) (o + 12) x) (region + t + 12) x)
    (region + t + 16) 1) o (k + 1)) (o + 20) (cnt - 1).

Lemma push_run m free t x s : bl_rep m (free ++ [t]) -> valid_slot x -> x ∉ free ++ [t] ->
  buffer_header s = Some (region + x) -> offset_in_shm s = region + x ->
  BList.push m blist s = Some (push_mem m x t (Z.of_nat (length (free ++ [t])))
    (n - Z.of_nat (length (free ++ [t])))).
Proof.
  intros [Hf Hnd Hv Hs Hcap Hh Ht Hp Hcnt Hch Hz Hcaps] Hx Hni Hhd Hoff.
  pose proof (slot_bounds m x Hf Hx) as Hb.
  pose proof (free_length _ ltac:(apply Hf) Hnd Hv) as Hlen.
  apply Forall_app in Hv as [Hv1 Hv2]. apply Forall_inv in Hv2.
  pose proof (slot_bounds m t Hf Hv2) as Hbt.
  rewrite last_snoc in Ht. injection Ht as Ht.
  pose proof (valid_slot_disjoint x t ltac:(lia) Hx Hv2 ltac:(set_solver)) as Hd.
  assert (h_flag m t = 0) as Hft.
  { clear -Hch. induction free as [|y [|z free] IH]; cbn in *; [exact Hch|tauto|].
    apply IH. tauto. }
  unfold h_flag in Hft. remember (Z.of_nat (length (free ++ [t]))) as k eqn:Hk.
  assert (0 <= region + x /\ region + x + 20 <= shm_len m /\ 0 <= region + t /\
    region + t + 20 <= shm_len m /\ 0 <= o /\ o + 36 <= region + x /\ o + 36 <= region + t /\
    (region + x + 20 <= region + t \/ region + t + 20 <= region + x) /\
    o + 36 <= shm_len m /\ 0 <= k < 204522253 /\ 0 <= n - k < 204522253 /\
    0 <= x < 4294967296 /\ region + x < 4294967296 /\ 0 <= region < 4294967296)
    as Hbd by lia.
  clear -Hs Hft Hcnt Ht Hhd Hoff Hbd.
  unfold BList.push, Slice.reset. rewrite Hhd. hdr_run.
  cbn [BList.push_loop offset_in_shm]. change (tail_ blist) with (o + 12).
  change (size_ blist) with o. change (counter_ blist) with (o + 20).
  change (buffer_region_ blist) with region.
  change (buffer_region_offset_in_shm_ blist) with (u32 region). rewrite Hoff.
  shm_run. shm_simp. rewrite cas_u32_hit by (shm_simp; lia). cbn [mbind option_bind].
  rewrite Ht. hdr_run. shm_run. shm_simp. rewrite Hs, Hft, Hcnt.
  rewrite (u32_id region), (u32_id (region + x - region)) by lia.
  replace (region + x - region) with x by lia. unfold push_mem.
  reflexivity.
Qed.

Lemma push_mem_other m x t k cnt z b : list_fits (shm_len m) ->
  valid_slot x -> valid_slot t -> valid_slot z -> z <> x -> z <> t ->
  region + z <= b < region + z + 20 -> get8 (push_mem m x t k cnt) b = get8 m b.
Proof.
  intros Hf Hx Ht Hz Hzx Hzt Hb. pose proof (slot_bounds m x Hf Hx).
  pose proof (slot_bounds m t Hf Ht). pose proof (slot_bounds m z Hf Hz).
  pose proof (valid_slot_disjoint z x ltac:(lia) Hz Hx Hzx).
  pose proof (valid_slot_disjoint z t ltac:(lia) Hz Ht Hzt).
  unfold push_mem. shm_simp. reflexivity.
Qed.

(** The header of the last free slice after [push]: linked, otherwise as it was. *)
Lemma push_mem_tail m x t k cnt : list_fits (shm_len m) ->
  valid_slot x -> valid_slot t -> x <> t ->
  let m' := push_mem m x t k cnt in
  h_cap m' t = h_cap m t /\ h_size m' t = h_size m t /\ h_start m' t = h_start m t /\
  h_next m' t = x /\ h_flag m' t = 1.
Proof.
  intros Hf Hx Ht Hne. pose proof (slot_bounds m x Hf Hx). pose proof (slot_bounds m t Hf Ht).
  pose proof (valid_slot_disjoint x t ltac:(lia) Hx Ht Hne).
  unfold h_cap, h_size, h_start, h_next, h_flag, push_mem. cbv zeta.
  repeat split; shm_simp; reflexivity.
Qed.

Lemma push_mem_new m x t k cnt : list_fits (shm_len m) ->
  valid_slot x -> valid_slot t -> x <> t ->
  let m' := push_mem m x t k cnt in
  h_cap m' x = h_cap m x /\ h_size m' x = 0 /\ h_start m' x = 0 /\ h_flag m' x = 0.
Proof.
  intros Hf Hx Ht Hne. pose proof (slot_bounds m x Hf Hx). pose proof (slot_bounds m t Hf Ht).
  pose proof (valid_slot_disjoint x t ltac:(lia) Hx Ht Hne).
  unfold h_cap, h_size, h_start, h_flag, push_mem. cbv zeta.
  repeat split; shm_simp; reflexivity.
Qed.

Lemma push_mem_header m x t k cnt : list_fits (shm_len m) ->
  valid_slot x -> valid_slot t -> 0 <= k < n -> cnt = n - k ->
  let m' := push_mem m x t k cnt in
  shm_len m' = shm_len m /\ get32 m' o = k + 1 /\ get32 m' (o + 4) = get32 m (o + 4) /\
  get32 m' (o + 8) = get32 m (o + 8) /\ get32 m' (o + 12) = x /\
  get32 m' (o + 16) = get32 m (o + 16) /\ i32 (get32 m' (o + 20)) = cnt - 1.
Proof.
  intros Hf Hx Ht Hk ->. pose proof (slot_bounds m x Hf Hx). pose proof (slot_bounds m t Hf Ht).
  unfold push_mem. cbv zeta. repeat split; shm_simp; reflexivity.
Qed.

Lemma push_rep m free t x : bl_rep m (free ++ [t]) -> valid_slot x -> x ∉ free ++ [t] ->
  bl_rep (push_mem m x t (Z.of_nat (length (free ++ [t])))
    (n - Z.of_nat (length (free ++ [t])))) ((free ++ [t]) ++ [x]).
Proof.
  intros [Hf Hnd Hv Hs Hcap Hh Ht Hp Hcnt Hch Hz Hcaps] Hx Hni.
  assert (NoDup ((free ++ [t]) ++ [x])) as Hnd'.
  { apply NoDup_app. split; [exact Hnd|]. split; [set_solver|apply NoDup_singleton]. }
  assert (Forall valid_slot ((free ++ [t]) ++ [x])) as Hv'.
  { apply Forall_app. auto. }
  pose proof (free_length _ ltac:(apply Hf) Hnd' Hv') as Hlen. rewrite length_app in Hlen.
  cbn [length] in Hlen.
  assert (valid_slot t) as Htv by (apply Forall_app in Hv as [_ Hv]; now apply Forall_inv in Hv).
  assert (x <> t) as Hxt by set_solver.
  set (k := Z.of_nat (length (free ++ [t]))) in *.
  pose proof (push_mem_header m x t k (n - k) Hf Hx Htv ltac:(lia) eq_refl) as Hm.
  pose proof (push_mem_tail m x t k (n - k) Hf Hx Htv Hxt) as Hmt.
  pose proof (push_mem_new m x t k (n - k) Hf Hx Htv Hxt) as Hmx.
  assert (forall z, valid_slot z -> z <> x -> z <> t ->
    same_on (region + z) 20 m (push_mem m x t k (n - k))) as Hoth.
  { intros z Hzv Hzx Hzt b Hzb. symmetry. now apply (push_mem_other m x t _ _ z). }
  assert (forall z, z ∈ free -> same_on (region + z) 20 m (push_mem m x t k (n - k))) as Hin.
  { intros z Hzi. apply Hoth; [|set_solver|].
    - apply Forall_app in Hv as [Hv _]. rewrite Forall_forall in Hv. auto.
    - intros ->. apply NoDup_app in Hnd as (_ & Hnd & _). apply (Hnd t Hzi). set_solver. }
  set (m' := push_mem m x t k (n - k)) in *. cbv zeta in Hm, Hmt, Hmx.
  destruct Hm as (E1 & E2 & E3 & E4 & E5 & E6 & E7).
  constructor; rewrite ?E1, ?E2, ?E3, ?E4, ?E5, ?E6, ?E7, ?last_snoc; auto.
  - rewrite length_app. cbn [length]. lia.
  - rewrite Hh. destruct free; reflexivity.
  - rewrite length_app. cbn [length]. lia.
  - eapply chained_snoc; [|tauto|tauto|tauto|exact Hch].
    intros z Hzi. pose proof (header_ext _ _ _ (Hin z Hzi)). tauto.
  - apply Forall_app. split; [|repeat constructor; tauto].
    apply Forall_app in Hz as [Hz1 Hz2]. apply Forall_app. split.
    + rewrite Forall_forall in *. intros z Hzi.
      destruct (header_ext _ _ _ (Hin z Hzi)) as (_ & -> & -> & _). auto.
    + apply Forall_inv in Hz2. constructor; [|constructor]. destruct Hmt as (_ & -> & -> & _). exact Hz2.
  - intros z Hzv. destruct (decide (z = x)) as [->|Hzx]; [destruct Hmx as (-> & _); auto|].
    destruct (decide (z = t)) as [->|Hzt]; [destruct Hmt as (-> & _); auto|].
    destruct (header_ext _ _ _ (Hoth z Hzv Hzx Hzt)) as (-> & _). auto.
Qed.

(** Giving a slice back. *)
Lemma push_ok m free x s : bl_rep m free -> free <> [] -> valid_slot x -> x ∉ free ->
  buffer_header s = Some (region + x) -> offset_in_shm s = region + x ->
  exists m', BList.push m blist s = Some m' /\ bl_rep m' (free ++ [x]) /\
    same_but (list_foot (x :: free)) m m'.
Proof.
  intros Hrep Hne Hx Hni Hhd Hoff. destruct (list_snoc_inv free Hne) as (l & t & ->).
  eexists. split; [exact (push_run m l t x s Hrep Hx Hni Hhd Hoff)|].
  split; [exact (push_rep m l t x Hrep Hx Hni)|].
  pose proof Hrep as [Hf _ Hv _ _ _ _ _ _ _ _ _].
  apply Forall_app in Hv as [_ Hv]. apply Forall_inv in Hv.
  pose proof (slot_bounds m x Hf Hx). pose proof (slot_bounds m t Hf Hv).
  unfold push_mem, list_foot. consts.
  repeat first [apply same_but_put32|apply same_but_put8|apply same_but_refl]; intros;
    first [left; lia|right; exists x; split; [constructor|lia]
          |right; exists t; split; [set_solver|lia]].
Qed.

(** ** [create] and [mapping] *)

(** The header [create] gives the slice [j]; the flag of the last one is
    cleared after the loop. *)
Definition fresh_slot (m : shm) (j : Z) : Prop :=
  h_cap m (j * stride) = c /\ h_size m (j * stride) = 0 /\ h_start m (j * stride) = 0 /\
  (j < n - 1 -> h_next m (j * stride) = (j + 1) * stride /\ h_flag m (j * stride) = 1).

Lemma fresh_slot_ext m m' j : same_on (region + j * stride) 20 m m' ->
  fresh_slot m j -> fresh_slot m' j.
Proof.
  intros H. destruct (header_ext _ _ _ H) as (E1 & E2 & E3 & E4 & E5).
  unfold fresh_slot. now rewrite E1, E2, E3, E4, E5.
Qed.

Lemma slot_index_range j : 0 < c -> 0 <= j < n ->
  0 <= j * stride /\ (j + 1) * stride = j * stride + stride /\ (j + 1) * stride <= n * stride.
Proof. intros. unfold stride. consts. nia. Qed.

Lemma init_slices_ok r : forall k m, Z.of_nat r = n - k -> 0 <= k -> list_fits (shm_len m) ->
  exists m', BList.init_slices m region n c k (k * stride) r = Some m' /\
    same_outside (region + k * stride) (n * stride - k * stride) m m' /\
    forall j, k <= j < n -> fresh_slot m' j.
Proof.
  induction r as [|r IH]; intros k m Hr Hk Hf.
  { exists m. cbn. split; [reflexivity|]. split; [apply same_outside_refl|]. lia. }
  pose proof Hf as (? & ? & ? & ? & ?). pose proof (slot_index_range k ltac:(lia) ltac:(lia)).
  assert (stride = c + 20) as Hst by reflexivity.
  assert (0 <= region) by (unfold region; clia).
  cbn [BList.init_slices]. consts. rewrite (u32_id (n - 1)) by (nia).
  shm_run. rewrite (u32_id (k * stride + c + 20)) by lia.
  replace (k * stride + c + 20) with ((k + 1) * stride) by lia.
  destruct (Z.ltb_spec k (n - 1)); shm_run; shm_simp.
  all: match goal with |- exists m', BList.init_slices ?m1 _ _ _ _ _ _ = _ /\ _ => set (m1' := m1) end.
  all: destruct (IH (k + 1) m1') as (m' & Hm' & Hout & Hfr);
    [lia|lia|unfold m1'; now autorewrite with shm|].
  all: exists m'; split; [exact Hm'|]; split;
    [apply (same_outside_trans _ _ _ m1');
     [unfold m1'; frame|eapply same_outside_weaken; [exact Hout|lia|lia]]|].
  all: intros j Hj; destruct (decide (j = k)) as [->|]; [|apply Hfr; lia].
  all: apply (fresh_slot_ext m1'); [intros b Hb; apply Hout; lia|].
  all: unfold fresh_slot, h_cap, h_size, h_start, h_next, h_flag, m1'; repeat split; try lia.
  all: shm_simp; reflexivity.
Qed.

(** All the slices, in the order [create] chains them. *)
Definition all_slots : list Z := (fun j => Z.of_nat j * stride) <$> seq 0 (Z.to_nat n).

Lemma all_slots_spec x : 0 < n -> x ∈ all_slots <-> valid_slot x.
Proof.
  intros Hn. unfold all_slots, valid_slot. rewrite list_elem_of_fmap. split.
  - intros (j & -> & Hj%elem_of_seq). exists (Z.of_nat j). split; [lia|reflexivity].
  - intros (k & Hk & ->). exists (Z.to_nat k). rewrite elem_of_seq. split; [f_equal|]; lia.
Qed.

Lemma all_slots_nodup : 0 < c -> NoDup all_slots.
Proof.
  intros Hc. apply NoDup_fmap_2_strong; [|apply NoDup_seq].
  intros i j _ _ H. unfold stride in H. consts. nia.
Qed.

Lemma chained_slots m i r : Z.of_nat (i + r) = n -> (0 < r)%nat ->
  (forall j, Z.of_nat i <= j < n - 1 ->
     h_next m (j * stride) = (j + 1) * stride /\ h_flag m (j * stride) = 1) ->
  h_flag m ((n - 1) * stride) = 0 ->
  chained m ((fun j => Z.of_nat j * stride) <$> seq i r).
Proof.
  revert i. induction r as [|r IH]; intros i Hir Hr Hl Hlast; [lia|].
  destruct r as [|r]; cbn -[Z.of_nat].
  - replace (Z.of_nat i) with (n - 1) by lia. exact Hlast.
  - destruct (Hl (Z.of_nat i)) as [E1 E2]; [lia|].
    split; [exact E2|]. split; [rewrite E1; f_equal; lia|].
    apply (IH (S i)); [lia|lia| |exact Hlast]. intros j Hj. apply Hl. lia.
Qed.

(** What [create] leaves is a list with every slice free. *)
Lemma fresh_rep m : list_fits (shm_len m) ->
  get32 m o = n -> get32 m (o + 4) = n -> get32 m (o + 8) = 0 ->
  get32 m (o + 12) = (n - 1) * stride -> get32 m (o + 16) = c -> get32 m (o + 20) = 0 ->
  (forall j, 0 <= j < n -> fresh_slot m j) -> h_flag m ((n - 1) * stride) = 0 ->
  bl_rep m all_slots.
Proof.
  intros Hf E1 E2 E3 E4 E5 E6 Hfr Hl. pose proof Hf as (? & ? & ? & ? & ?).
  constructor; try assumption.
  - now apply all_slots_nodup.
  - rewrite Forall_forall. intros x Hx. now apply all_slots_spec.
  - unfold all_slots. rewrite length_fmap, length_seq. lia.
  - rewrite E3. unfold all_slots. destruct (Z.to_nat n) eqn:En; [lia|]. reflexivity.
  - rewrite E4. unfold all_slots. replace (Z.to_nat n) with (Z.to_nat (n - 1) + 1)%nat by lia.
    rewrite seq_app, fmap_app. cbn [seq fmap list_fmap]. rewrite last_snoc. do 2 f_equal. lia.
  - unfold all_slots. rewrite E6, length_fmap, length_seq. change (i32 0) with 0. lia.
  - apply chained_slots; [lia|lia| |exact Hl]. intros j Hj. apply Hfr; lia.
  - rewrite Forall_forall. intros x Hx. apply all_slots_spec in Hx as (k & Hk & ->); [|lia].
    destruct (Hfr k Hk) as (_ & -> & -> & _). auto.
  - intros x (k & Hk & ->). apply (Hfr k Hk).
Qed.

(** Clearing the flag word of the last slice. *)
Lemma fresh_slot_clear m j : 0 < c -> 0 < n -> 0 <= j < n -> fresh_slot m j ->
  fresh_slot (put32 m (region + (n - 1) * stride + 16) 0) j.
Proof.
  intros Hc Hn Hj Hfr. destruct (decide (j = n - 1)) as [->|Hne].
  - destruct Hfr as (E1 & E2 & E3 & _). unfold fresh_slot, h_cap, h_size, h_start in *.
    shm_simp. repeat split; auto; lia.
  - eapply fresh_slot_ext; [|exact Hfr]. intros b Hb.
    assert (j * stride + stride <= (n - 1) * stride) by (unfold stride; consts; nia).
    assert (stride = c + 20) by reflexivity. now rewrite get8_put32_ne by lia.
Qed.

Lemma create_ok m : list_fits (shm_len m) -> shm_len m < 4294967296 ->
  exists m', BList.create m n c (shm_len m) o = Some (Ok blist, m') /\ bl_rep m' all_slots /\
    same_outside o (36 + n * stride) m m'.
Proof.
  intros Hf Hlen. pose proof Hf as (? & ? & ? & ? & ?).
  assert (stride = c + 20) as Hst by reflexivity. assert (region = o + 36) as Hreg by reflexivity.
  assert ((n - 1) * stride = n * stride - stride /\ n <= n * stride /\ stride <= n * stride)
    by nia.
  unfold BList.create. consts. rewrite <- Hst.
  rewrite (u64_id (n * stride)), (u64_id (36 + _)), (u32_id (36 + _)), (u32_id (shm_len m)),
    (u32_id (o + 36)), (u32_id (o + _)), (u32_id (n - 1)), (u32_id stride),
    (u32_id ((n - 1) * stride)), (u32_id (36 + n * stride - 36)) by lia.
  replace (36 + n * stride - 36) with (n * stride) by lia.
  repeat match goal with |- context [if ?b then _ else _] =>
    assert (b = false) as -> by (unfold UINT32_MAX; lia) end.
  fold blist. change (size_ blist) with o. change (cap_ blist) with (o + 4).
  change (head_ blist) with (o + 8). change (tail_ blist) with (o + 12).
  change (cap_per_buffer_ blist) with (o + 16). change (counter_ blist) with (o + 20).
  change (buffer_region_ blist) with region. cbv zeta. shm_run.
  match goal with |- context [BList.init_slices ?m1 _ _ _ _ _ _] => set (m1' := m1) end.
  destruct (init_slices_ok (Z.to_nat n) 0 m1') as (m2 & Hm2 & Hout & Hfr);
    [lia|lia|unfold m1'; now autorewrite with shm|].
  rewrite Z.mul_0_l in Hm2, Hout. rewrite Hm2. cbn [mbind option_bind].
  pose proof (proj1 Hout) as Hl2. assert (shm_len m1' = shm_len m) as Hl1
    by (unfold m1'; now autorewrite with shm).
  assert (get32 m2 (o + 12) = (n - 1) * stride) as Et.
  { rewrite (same_outside_get32 _ _ _ _ _ Hout) by lia. unfold m1'. now shm_simp. }
  rewrite load_u32_in by lia. cbn [mbind option_bind]. rewrite Et. shm_run.
  eexists. split; [reflexivity|]. split.
  - apply fresh_rep; rewrite ?put32_len, <- ?Hl2, ?Hl1; auto.
    1-6: rewrite get32_put32_ne by lia; rewrite (same_outside_get32 _ _ _ _ _ Hout) by lia;
      unfold m1'; now shm_simp.
    + intros j Hj. apply fresh_slot_clear; auto.
    + unfold h_flag. now shm_simp.
  - apply same_outside_put32; [|lia|lia]. apply (same_outside_trans _ _ _ m1').
    + unfold m1'. frame.
    + eapply same_outside_weaken; [exact Hout|lia|lia].
Qed.

Lemma mapping_ok m free : bl_rep m free -> shm_len m < 4294967296 ->
  BList.mapping m (shm_len m) o = Some (Ok blist).
Proof.
  intros [Hf _ _ _ Hcap _ _ Hp _ _ _ _] Hlen. pose proof Hf as (? & ? & ? & ? & ?).
  assert (stride = c + 20) as Hst by reflexivity. assert (region = o + 36) as Hreg by reflexivity.
  assert (n <= n * stride) by nia.
  unfold BList.mapping. consts. change (cap_ (BList.pointers o 0)) with (o + 4).
  change (cap_per_buffer_ (BList.pointers o 0)) with (o + 16).
  assert ((shm_len m <? o + 36) = false) as -> by lia.
  shm_run. rewrite Hcap, Hp, <- Hst.
  rewrite (u64_id (n * stride)), (u64_id (36 + _)), (u32_id (36 + _)),
    (u32_id (o + 36)), (u32_id (o + _)), (u32_id (36 + n * stride - 36)) by lia.
  replace (36 + n * stride - 36) with (n * stride) by lia.
  repeat match goal with |- context [if ?b then _ else _] =>
    assert (b = false) as -> by (unfold UINT32_MAX; lia) end. reflexivity.
Qed.

(** ** The list and its users *)

(** The bytes a holder of the slice [x] may write: all but its capacity. *)
Definition slot_bytes (xs : list Z) (b : Z) : Prop :=
  exists x, x ∈ xs /\ region + x + 4 <= b < region + x + stride.

(** Only the bytes of the list matter, and not those of slices that are out. *)
Lemma bl_rep_ext m m' free xs : shm_len m = shm_len m' ->
  Forall valid_slot xs -> (forall x, x ∈ xs -> x ∉ free) ->
  (forall b, o <= b < o + 36 + n * stride -> ~ slot_bytes xs b -> get8 m b = get8 m' b) ->
  bl_rep m free -> bl_rep m' free.
Proof.
  intros Hl Hxs Hdis Hm [Hf Hnd Hv Hs Hcap Hh Ht Hp Hcnt Hch Hz Hcaps].
  pose proof Hf as (? & ? & Hc & ? & ?). assert (stride = c + 20) as Hst by reflexivity.
  assert (region = o + 36) as Hreg by reflexivity. assert (stride <= n * stride) by nia.
  rewrite Forall_forall in Hxs.
  assert (forall a, o <= a -> a + 4 <= o + 36 -> get32 m' a = get32 m a) as Hhdr.
  { intros a ??. symmetry. apply (get_le_ext 4). intros b Hb. cbn in Hb. apply Hm; [lia|].
    intros (x & Hx & Hxb). destruct (valid_slot_range x Hc (Hxs x Hx)). lia. }
  assert (forall z, valid_slot z -> h_cap m' z = h_cap m z) as Hcap'.
  { intros z Hzv. destruct (valid_slot_range z Hc Hzv). symmetry. apply (get_le_ext 4).
    intros b Hb. cbn in Hb. apply Hm; [lia|]. intros (x & Hx & Hxb).
    destruct (decide (z = x)) as [->|Hne]; [lia|].
    destruct (valid_slot_disjoint z x Hc Hzv (Hxs x Hx) Hne); lia. }
  assert (forall z, z ∈ free -> same_on (region + z) 20 m m') as Hin.
  { intros z Hzi b Hb. rewrite Forall_forall in Hv.
    destruct (valid_slot_range z Hc (Hv z Hzi)). apply Hm; [lia|]. intros (x & Hx & Hxb).
    assert (z <> x) as Hne by (intros ->; exact (Hdis x Hx Hzi)).
    destruct (valid_slot_disjoint z x Hc (Hv z Hzi) (Hxs x Hx) Hne); lia. }
  constructor; rewrite ?Hhdr by lia; rewrite <- ?Hl; auto.
  - eapply chained_frame; [|exact Hch]. intros z Hzi.
    pose proof (header_ext _ _ _ (Hin z Hzi)). tauto.
  - rewrite Forall_forall in *. intros z Hzi.
    destruct (header_ext _ _ _ (Hin z Hzi)) as (_ & -> & -> & _). auto.
  - intros z Hzv. rewrite Hcap' by assumption. auto.
Qed.

Lemma bl_rep_frame m m' free xs :
  bl_rep m free -> Forall valid_slot xs -> (forall x, x ∈ xs -> x ∉ free) ->
  same_but (slot_bytes xs) m m' -> bl_rep m' free.
Proof. intros Hrep Hxs Hdis [Hl Hm]. eapply bl_rep_ext; eauto. Qed.

(** A slice moves its indices while it is held, never its place. *)
Definition same_place (s s' : BufferSlice) : Prop :=
  buffer_header s' = buffer_header s /\ offset_in_shm s' = offset_in_shm s.

(** The steps of the processes that share the list: [pop], [push] of a slice
    held, and writes to slices held. *)
Inductive pool_step : shm * list BufferSlice -> shm * list BufferSlice -> Prop :=
| step_pop m held s m' :
    BList.pop m blist = Some (Ok s, m') -> pool_step (m, held) (m', s :: held)
| step_pop_none m held e m' :
    BList.pop m blist = Some (Unexpected e, m') -> pool_step (m, held) (m', held)
| step_push m held1 s s' held2 m' :
    same_place s s' -> BList.push m blist s' = Some m' ->
    pool_step (m, held1 ++ s :: held2) (m', held1 ++ held2)
| step_write m held m' :
    same_but (fun b => exists s p, s ∈ held /\ buffer_header s = Some p /\
                                   p + 4 <= b < p + stride) m m' ->
    pool_step (m, held) (m', held).

(** Every slice is free or held, and held once. *)
Definition pool_inv (st : shm * list BufferSlice) : Prop :=
  exists free xs, bl_rep (fst st) free /\ free <> [] /\ snd st = slot_slice <$> xs /\
    free ++ xs ≡ₚ all_slots /\ shm_len (fst st) < 4294967296.

Lemma pool_split free xs : list_fits 4294967296 -> free ++ xs ≡ₚ all_slots ->
  NoDup (free ++ xs) /\ Forall valid_slot (free ++ xs).
Proof.
  intros (_ & Hn & Hc & _) Hp. split.
  - rewrite Hp. now apply all_slots_nodup.
  - rewrite Hp. rewrite Forall_forall. intros x Hx. now apply all_slots_spec.
Qed.

Lemma pop_cases m free : bl_rep m free -> free <> [] ->
  (exists x, free = [x] /\ exists m', BList.pop m blist = Some (fail_with kNoMoreBuffer, m') /\
     bl_rep m' [x] /\ m' ≡ m) \/
  (exists x free', free = x :: free' /\ free' <> [] /\ exists m',
     BList.pop m blist = Some (Ok (slot_slice x), m') /\ bl_rep m' free' /\
     shm_len m' = shm_len m).
Proof.
  intros Hrep Hne. destruct free as [|x [|y free]]; [contradiction| |].
  - left. exists x. split; [reflexivity|]. destruct (pop_last m x Hrep) as (m' & Hpop & Heq).
    exists m'. split; [exact Hpop|]. split; [|exact Heq].
    apply (bl_rep_frame m m' [x] []); auto; [set_solver|].
    destruct Heq as [El Eb]. split; [now symmetry|]. intros b _. symmetry. apply Eb.
  - right. exists x, (y :: free). split; [reflexivity|]. split; [discriminate|].
    destruct (pop_ok m x y free Hrep) as (m' & Hpop & Hrep' & _ & Hl & _).
    eauto 6.
Qed.

Lemma pool_step_inv st st' : pool_inv st -> pool_step st st' -> pool_inv st'.
Proof.
  intros (free & xs & Hrep & Hne & Hheld & Hperm & Hlen) Hstep.
  assert (list_fits 4294967296) as Hfit.
  { destruct Hrep as [(? & ? & ? & ? & ?) _ _ _ _ _ _ _ _ _ _ _]. repeat split; auto; lia. }
  destruct (pool_split free xs Hfit Hperm) as [Hnd Hv].
  destruct Hstep as [m held s m' Hpop|m held e m' Hpop|m h1 s s' h2 m' Hsame Hpush|m held m' Hw];
    cbn [fst snd] in *.
  - destruct (pop_cases m free Hrep Hne) as [(x & -> & m1 & E & _)|(x & free' & -> & Hne' & m1 & E & Hrep' & Hl)];
      rewrite Hpop in E; [discriminate|]. simplify_eq.
    exists free', (x :: xs). cbn. split; [exact Hrep'|]. split; [exact Hne'|].
    split; [reflexivity|]. split; [|now rewrite Hl].
    rewrite <- Hperm. cbn. symmetry. apply Permutation_middle.
  - destruct (pop_cases m free Hrep Hne) as [(x & -> & m1 & E & Hrep' & Heq)|(x & free' & -> & _ & m1 & E & _)];
      rewrite Hpop in E; [|discriminate]. simplify_eq. exists [x], xs.
    split; [exact Hrep'|]. split; [exact Hne|]. split; [reflexivity|]. split; [exact Hperm|].
    cbn. now rewrite (proj1 Heq).
  - symmetry in Hheld. apply fmap_app_inv in Hheld as (x1 & x2' & Hx1 & Hx2 & ->).
    symmetry in Hx2. apply fmap_cons_inv in Hx2 as (x & x2 & -> & -> & ->). subst h1.
    assert (valid_slot x /\ x ∉ free) as [Hxv Hxf].
    { rewrite Forall_forall in Hv. split; [apply Hv; set_solver|].
      intros Hx. apply NoDup_app in Hnd as (_ & Hd & _). apply (Hd x Hx). set_solver. }
    destruct Hsame as [E1 E2].
    destruct (push_ok m free x s' Hrep Hne Hxv Hxf E1 E2) as (m1 & Hm1 & Hrep' & Hl & _).
    simplify_eq. exists (free ++ [x]), (x1 ++ x2). cbn. split; [exact Hrep'|].
    split; [now destruct free|]. split; [now rewrite fmap_app|]. split; [|now rewrite <- Hl].
    rewrite <- Hperm. rewrite <- !app_assoc. apply Permutation_app_head. cbn.
    apply Permutation_middle.
  - exists free, xs. cbn. rewrite <- (proj1 Hw). split; [|auto].
    apply (bl_rep_frame m m' free xs); [exact Hrep|now apply Forall_app in Hv as [_ ?]| |].
    + intros x Hx Hxf. apply NoDup_app in Hnd as (_ & Hd & _). exact (Hd x Hxf Hx).
    + eapply same_but_weaken; [exact Hw|]. intros b (s & p & Hs & Hp & Hb). subst held.
      apply list_elem_of_fmap in Hs as (x & -> & Hx). cbn in Hp. simplify_eq.
      exists x. split; [exact Hx|lia].
Qed.

Lemma pool_start m : bl_rep m all_slots -> shm_len m < 4294967296 -> pool_inv (m, []).
Proof.
  intros Hrep Hl. exists all_slots, []. cbn [fst snd]. rewrite app_nil_r.
  split; [exact Hrep|]. split; [|auto].
  pose proof Hrep as [(_ & Hn & _) _ _ Hs _ _ _ _ _ _ _ _]. intros E.
  assert (0 ∈ all_slots) as H0 by (apply all_slots_spec; [lia|]; exists 0; lia).
  rewrite E in H0. now apply not_elem_of_nil in H0.
Qed.

Lemma pool_counts m free xs : bl_rep m free -> free ++ xs ≡ₚ all_slots ->
  NoDup (free ++ xs) /\ Forall valid_slot (free ++ xs) /\
  Z.of_nat (length free) + Z.of_nat (length xs) = n /\
  BList.size_load m blist = Some (Z.of_nat (length free)) /\
  BList.counter_load m blist = Some (Z.of_nat (length xs)).
Proof.
  intros [Hf _ _ Hs _ _ _ _ Hcnt _ _ _] Hp. pose proof Hf as (? & ? & ? & ? & ?).
  destruct (pool_split free xs) as [Hnd Hv]; [repeat split; auto; lia|exact Hp|].
  pose proof (Permutation_length Hp) as Hlen. unfold all_slots in Hlen.
  rewrite length_app, length_fmap, length_seq in Hlen.
  assert (n <= n * stride) by (unfold stride; consts; nia).
  assert (region = o + 36) by reflexivity.
  unfold BList.size_load, BList.counter_load. change (size_ blist) with o.
  change (counter_ blist) with (o + 20). rewrite !load_i32_in by lia. rewrite Hs, Hcnt.
  repeat split; auto; try lia; [rewrite i32_id|]; try (f_equal; lia).
  assert (n * 21 <= n * stride) by (unfold stride; consts; nia). lia.
Qed.
End rep.

(** From a list made by [create], whatever the sequence of [pop]s, of
    returns of slices held and of writes to slices held, by the process that
    created the list or by one that maps it: the slices held are different
    slices of the list, the list counts them, [pop] gives another slice as long
    as two are free and otherwise fails and leaves the memory as it was, and
    every slice held can be given back. *)
Theorem buffer_list_pool o n c m0 :
  list_fits o n c (shm_len m0) -> shm_len m0 < 4294967296 ->
  exists m, BList.create m0 n c (shm_len m0) o = Some (Ok (blist o n c), m) /\
  forall m' held, rtc (pool_step o n c) (m, []) (m', held) ->
    BList.mapping m' (shm_len m') o = Some (Ok (blist o n c)) /\
    exists xs, held = slot_slice o c <$> xs /\ NoDup xs /\ Forall (valid_slot n c) xs /\
    BList.size_load m' (blist o n c) = Some (n - Z.of_nat (length xs)) /\
    BList.counter_load m' (blist o n c) = Some (Z.of_nat (length xs)) /\
    (if Z.of_nat (length xs) <? n - 1
     then exists x m'', BList.pop m' (blist o n c) = Some (Ok (slot_slice o c x), m'') /\ x ∉ xs
     else exists m'', BList.pop m' (blist o n c) = Some (fail_with kNoMoreBuffer, m'') /\
                      m'' ≡ m') /\
    (forall s s', s ∈ held -> same_place s s' -> is_Some (BList.push m' (blist o n c) s')).
Proof.
  intros Hfit Hlen. destruct (create_ok o n c m0 Hfit Hlen) as (m & Hc & Hrep & Hout).
  exists m. split; [exact Hc|]. intros m' held Hr.
  assert (pool_inv o n c (m', held)) as (free & xs & Hrep' & Hne & Hheld & Hp & Hl).
  { eapply rtc_invariant; [apply pool_step_inv| |exact Hr].
    apply pool_start; [exact Hrep|]. now rewrite <- (proj1 Hout). }
  cbn [fst snd] in *. split; [eapply mapping_ok; eauto|]. exists xs.
  pose proof (pool_counts o n c m' free xs Hrep' Hp) as (Hnd & Hv & Hn & Hs & Hcnt).
  apply NoDup_app in Hnd as (_ & Hdis & Hnd). pose proof Hv as [_ Hvx]%Forall_app.
  split; [exact Hheld|]. split; [exact Hnd|]. split; [exact Hvx|].
  split; [rewrite Hs; f_equal; lia|]. split; [exact Hcnt|]. split.
  - destruct (pop_cases o n c m' free Hrep' Hne)
      as [(x & -> & m1 & E & _ & Heq)|(x & free' & -> & Hne' & m1 & E & _)]; rewrite E.
    + cbn [length] in Hn. assert ((Z.of_nat (length xs) <? n - 1) = false) as -> by lia. eauto.
    + destruct free' as [|y free']; [contradiction|]. cbn [length] in Hn.
      assert ((Z.of_nat (length xs) <? n - 1) = true) as -> by lia.
      exists x, m1. split; [reflexivity|]. apply Hdis. set_solver.
  - intros s s' Hin [E1 E2]. rewrite Hheld in Hin. apply list_elem_of_fmap in Hin as (x & -> & Hx).
    destruct (push_ok o n c m' free x s' Hrep' Hne) as (m1 & -> & _); eauto.
    + rewrite Forall_forall in Hvx. auto.
    + intros Hxf. exact (Hdis x Hxf Hx).
Qed.

Lemma buffer_list_pool_witness :
  list_fits 8 3 4 (shm_len (zero_shm 200)) /\
  exists m, BList.create (zero_shm 200) 3 4 200 8 = Some (Ok (blist 8 3 4), m) /\
    BList.mapping m (shm_len m) 8 = Some (Ok (blist 8 3 4)).
Proof.
  assert (list_fits 8 3 4 (shm_len (zero_shm 200))) as Hf by (cbv; repeat split; discriminate).
  split; [exact Hf|].
  destruct (buffer_list_pool 8 3 4 (zero_shm 200) Hf eq_refl) as (m & Hc & H).
  exists m. split; [exact Hc|]. apply (H m [] (rtc_refl _ _)).
Defined.

(** On a mapping of less than 4 GiB, [create] with 32-bit arguments (whose
    slices, headers included, have a 32-bit size) returns a list exactly when
    there is at least one slice, slices are not empty and the list fits behind
    [offset_in_mem]; otherwise it returns an error and writes nothing. *)
Theorem create_iff m o n c :
  0 <= o < 4294967296 -> 0 <= n < 4294967296 -> 0 <= c < 4294967296 - kBufferHeaderSize ->
  0 <= shm_len m < 4294967296 ->
  match BList.create m n c (shm_len m) o with
  | Some (Ok b, m') =>
      list_fits o n c (shm_len m) /\ b = blist o n c /\ bl_rep o n c m' (all_slots n c)
  | Some (Unexpected e, m') => ~ list_fits o n c (shm_len m) /\ kind_ e = kOther /\ m' = m
  | None => False
  end.
Proof.
  intros Ho Hn Hc Hl. destruct (decide (list_fits o n c (shm_len m))) as [Hf|Hf].
  { destruct (create_ok o n c m Hf ltac:(lia)) as (m' & -> & Hrep & _). auto. }
  unfold BList.create. consts. assert (stride c = c + 20) as Hst by reflexivity.
  assert (region o = o + 36) as Hreg by reflexivity.
  assert (0 <= n * stride c <= 4294967295 * 4294967295) by nia. rewrite <- Hst.
  rewrite (u64_id (n * stride c)), (u64_id (36 + _)), (u32_id (shm_len m)) by lia.
  repeat match goal with |- context [if ?b then _ else _] =>
    destruct b eqn:?; [now auto|] end.
  destruct Hf. unfold UINT32_MAX in *. rewrite u32_id in * by lia.
  unfold list_fits. rewrite Hst in *. repeat split; lia.
Qed.

Lemma create_iff_witness :
  match BList.create (zero_shm 200) 3 4 (shm_len (zero_shm 200)) 8 with
  | Some (Ok b, m') =>
      list_fits 8 3 4 (shm_len (zero_shm 200)) /\ b = blist 8 3 4 /\
      bl_rep 8 3 4 m' (all_slots 3 4)
  | Some (Unexpected e, m') =>
      ~ list_fits 8 3 4 (shm_len (zero_shm 200)) /\ kind_ e = kOther /\ m' = zero_shm 200
  | None => False
  end.
Proof. apply (create_iff (zero_shm 200) 8 3 4); cbn; consts; lia. Defined.
