(* ===== verification/BufListConc.v ===== *)
(** The free list of slices under concurrency: [BufferList::push] and [pop]
    ([src/buffer/list.cpp]) by any number of threads of both processes.

    Every access to the mapping is one step and the steps of all threads
    interleave freely, the accesses being sequentially consistent.  The two
    fields of a list that do not change after its creation are read with the
    access before them, and the header of a slice that is given back is reset in
    one step.  [out] is the slots of the slices that are out,
    between the [pop] that returned one and the [push] it is handed to.

    A thread in [pop] also carries, for the proofs, whether the head it has read
    has stayed the head since ([current]). *)
From S2P Require Import Prelude Errors Consts Shm Slices Pool BufList.

(** Where a thread is, between two accesses, with the values it has read. *)
Inductive lpc :=
| LIdle
| PopSub (h : Z) (current : bool)
| PopUndo
| PopHas (r : nat) (h : Z) (current : bool)
| PopNext (r : nat) (h : Z) (current : bool)
| PopCas (r : nat) (h next : Z) (current : bool)
| PopSize (r : nat)
| PopReload (r : nat)
| PopClear (h : Z)
| PopUse (h : Z)
| PopUsed (h f : Z)
| PopCount (h : Z)
| PushReset (x : Z)
| PushTail (x : Z)
| PushCas (x t : Z)
| PushLink (x t : Z)
| PushFlag (x t : Z)
| PushFlagged (x t f : Z)
| PushSize
| PushCount.

Record lst := mkLst { lmem : shm; threads : list lpc; out : list Z }.

(** Thread [i] calls [pop] and loads the head, calls [push] of the [k]-th slice
    that is out, or makes its next access. *)
Inductive laction := Pop (i : nat) | Push (i k : nat) | Access (i : nat).

(** Another thread has taken the slice [h] off the head. *)
Definition passed (h : Z) (pc : lpc) : lpc :=
  match pc with
  | PopSub h' k => PopSub h' (k && negb (h' =? h))
  | PopHas r h' k => PopHas r h' (k && negb (h' =? h))
  | PopNext r h' k => PopNext r h' (k && negb (h' =? h))
  | PopCas r h' next k => PopCas r h' next (k && negb (h' =? h))
  | pc => pc
  end.

Section model.
Context (b : BufferList).

Definition set_thread (s : lst) (i : nat) (pc : lpc) : lst := mkLst (lmem s) (<[i := pc]> (threads s)) (out s).
Definition set_lmem (s : lst) (m : shm) : lst := mkLst m (threads s) (out s).
Definition set_out (s : lst) (l : list Z) : lst := mkLst (lmem s) (threads s) l.

(** [PopReload] is the end of a round of the loop; the next one starts while
    there are rounds left. *)
Definition next_round (r : nat) (h : Z) : lpc :=
  match r with O => PopUndo | S r' => PopHas r' h true end.

Definition list_access (s : lst) (i : nat) (pc : lpc) : option lst :=
  let m := lmem s in
  match pc with
  | LIdle => None
  | PopSub h k =>
      '(remain, m) ← fetch_sub_i32 m (size_ b) 1;
      none ← (if remain <=? 1 then Some true
              else per ← load_u32 m (cap_per_buffer_ b);
                   Some (buffer_region_len_ b <? u32 (u32 (h + kBufferHeaderSize) + per)));
      Some (set_thread (set_lmem s m) i
        (if (none : bool) then PopUndo else PopHas (pred BList.pop_retries) h k))
  | PopUndo => '(_, m) ← fetch_add_i32 m (size_ b) 1; Some (set_thread (set_lmem s m) i LIdle)
  | PopHas r h k =>
      more ← BufferHeader.has_next m (buffer_region_ b + h);
      Some (set_thread s i (if (more : bool) then PopNext r h k else PopSize r))
  | PopNext r h k =>
      next ← BufferHeader.next_buffer_offset m (buffer_region_ b + h);
      Some (set_thread s i (PopCas r h next k))
  | PopCas r h next k =>
      '(ok, _, m) ← cas_u32 m (head_ b) h next;
      if (ok : bool)
      then Some (set_thread (mkLst m (passed h <$> threads s) (out s)) i (PopClear h))
      else Some (set_thread s i (PopReload r))
  | PopSize r =>
      k ← load_i32 m (size_ b);
      Some (set_thread s i (if k <=? 1 then PopUndo else PopReload r))
  | PopReload r =>
      h ← load_u32 m (head_ b); Some (set_thread s i (next_round r h))
  | PopClear h =>
      m ← BufferHeader.clear_flag m (buffer_region_ b + h); Some (set_thread (set_lmem s m) i (PopUse h))
  | PopUse h =>
      f ← load_u8 m (buffer_region_ b + h + kBufferFlagOffset); Some (set_thread s i (PopUsed h f))
  | PopUsed h f =>
      m ← store_u8 m (buffer_region_ b + h + kBufferFlagOffset) (Z.lor f kSliceInUsedFlag);
      Some (set_thread (set_lmem s m) i (PopCount h))
  | PopCount h =>
      '(_, m) ← fetch_add_i32 m (counter_ b) 1;
      Some (set_out (set_thread (set_lmem s m) i LIdle) (h :: out s))
  | PushReset x =>
      m ← BufferHeader.set_size m (buffer_region_ b + x) 0;
      m ← BufferHeader.set_start m (buffer_region_ b + x) 0;
      m ← BufferHeader.clear_flag m (buffer_region_ b + x);
      Some (set_thread (set_lmem s m) i (PushTail x))
  | PushTail x => t ← load_u32 m (tail_ b); Some (set_thread s i (PushCas x t))
  | PushCas x t =>
      '(ok, _, m) ← cas_u32 m (tail_ b) t x;
      Some (set_thread (set_lmem s m) i (if (ok : bool) then PushLink x t else PushTail x))
  | PushLink x t =>
      m ← store_u32 m (buffer_region_ b + t + kNextBufferOffset) x;
      Some (set_thread (set_lmem s m) i (PushFlag x t))
  | PushFlag x t =>
      f ← load_u8 m (buffer_region_ b + t + kBufferFlagOffset); Some (set_thread s i (PushFlagged x t f))
  | PushFlagged x t f =>
      m ← store_u8 m (buffer_region_ b + t + kBufferFlagOffset) (Z.lor f kHasNextBufferFlag);
      Some (set_thread (set_lmem s m) i PushSize)
  | PushSize => '(_, m) ← fetch_add_i32 m (size_ b) 1; Some (set_thread (set_lmem s m) i PushCount)
  | PushCount => '(_, m) ← fetch_sub_i32 m (counter_ b) 1; Some (set_thread (set_lmem s m) i LIdle)
  end.

Definition list_exec (s : lst) (a : laction) : option lst :=
  match a with
  | Pop i =>
      pc ← threads s !! i;
      match pc with
      | LIdle => h ← load_u32 (lmem s) (head_ b); Some (set_thread s i (PopSub h true))
      | _ => None
      end
  | Push i k =>
      pc ← threads s !! i;
      match pc with
      | LIdle => x ← out s !! k; Some (set_out (set_thread s i (PushReset x)) (delete k (out s)))
      | _ => None
      end
  | Access i => pc ← threads s !! i; list_access s i pc
  end.

(** Somebody writes to slices that are out; their capacities are not written. *)
Definition list_write (stride : Z) (s s' : lst) : Prop :=
  threads s' = threads s /\ out s' = out s /\
  same_but (fun a => exists x, x ∈ out s /\ buffer_region_ b + x + 4 <= a < buffer_region_ b + x + stride)
    (lmem s) (lmem s').

Definition list_step (stride : Z) (s s' : lst) : Prop :=
  (exists a, list_exec s a = Some s') \/ list_write stride s s'.

(** The exchange of the head by thread [i] succeeds although another thread took
    the slice off the head since [i] read it: it was given back meanwhile and
    has come to the head again. *)
Definition head_reused (s : lst) (i : nat) : Prop :=
  exists r h next, threads s !! i = Some (PopCas r h next false) /\ load_u32 (lmem s) (head_ b) = Some h.

(** A step that is not one of those. *)
Definition clean_step (stride : Z) (s s' : lst) : Prop :=
  (exists a, list_exec s a = Some s' /\ forall i, a = Access i -> ~ head_reused s i) \/ list_write stride s s'.
End model.

Definition list_run (b : BufferList) (s : lst) (l : list laction) : option lst :=
  foldl (fun s a => s ← s; list_exec b s a) (Some s) l.

(** * What the threads hold *)

(** The slice a thread has taken off the list, or has not put on it yet. *)
Definition own_of (pc : lpc) : option Z :=
  match pc with
  | PopClear h | PopUse h | PopUsed h _ | PopCount h => Some h
  | PushReset x | PushTail x | PushCas x _ => Some x
  | _ => None
  end.

Definition in_hand (s : lst) : list Z := omap own_of (threads s).

(** A [push] that has made the slice the tail links it behind the old one. *)
Definition link_of (pc : lpc) : option (Z * Z) :=
  match pc with
  | PushLink x t | PushFlag x t | PushFlagged x t _ => Some (t, x)
  | _ => None
  end.

(** What a thread will still add to the word [size_], and to [counter_]. *)
Definition size_debt (pc : lpc) : Z :=
  match pc with
  | PopUndo | PopHas _ _ _ | PopNext _ _ _ | PopCas _ _ _ _ | PopSize _ | PopReload _ => 1
  | PushLink _ _ | PushFlag _ _ | PushFlagged _ _ _ | PushSize => 1
  | _ => 0
  end.

Definition count_debt (pc : lpc) : Z :=
  match pc with
  | PopClear _ | PopUse _ | PopUsed _ _ | PopCount _ => 1
  | PushLink _ _ | PushFlag _ _ | PushFlagged _ _ _ | PushSize | PushCount => -1
  | _ => 0
  end.

Definition zsum {A} (f : A -> Z) (l : list A) : Z := foldr (fun x a => f x + a) 0 l.

(** [y] comes right behind [x]. *)
Definition adjacent (l : list Z) (x y : Z) : Prop := exists l1 l2, l = l1 ++ x :: y :: l2.

(** * Lists *)

Lemma zsum_app {A} (f : A -> Z) l k : zsum f (l ++ k) = zsum f l + zsum f k.
Proof. induction l as [|x l IH]; [reflexivity|]. unfold zsum in *. cbn. lia. Qed.
Lemma zsum_cons {A} (f : A -> Z) x l : zsum f (x :: l) = f x + zsum f l.
Proof. reflexivity. Qed.
Lemma zsum_fmap {A} (f : A -> Z) (g : A -> A) (l : list A) : (forall x, f (g x) = f x) -> zsum f (g <$> l) = zsum f l.
Proof. intros H. induction l as [|x l IH]; [reflexivity|]. cbn. rewrite H. unfold zsum in IH. now rewrite IH. Qed.
Lemma omap_fmap_same {A B} (f : A -> option B) (g : A -> A) (l : list A) :
  (forall x, f (g x) = f x) -> omap f (g <$> l) = omap f l.
Proof. intros H. induction l as [|x l IH]; [reflexivity|]. cbn. rewrite H. destruct (f x); [f_equal|]; exact IH. Qed.

Lemma insert_middle {A} (l1 l2 : list A) x y : <[length l1 := y]> (l1 ++ x :: l2) = l1 ++ y :: l2.
Proof. rewrite insert_app_r_alt by lia. now rewrite Nat.sub_diag. Qed.

Lemma adjacent_in l x y : adjacent l x y -> x ∈ l /\ y ∈ l.
Proof. intros (l1 & l2 & ->). set_solver. Qed.

Lemma adjacent_cons a l x y : adjacent l x y -> adjacent (a :: l) x y.
Proof. intros (l1 & l2 & ->). now exists (a :: l1), l2. Qed.

Lemma adjacent_cons_inv a l x y : adjacent (a :: l) x y -> (a = x /\ head l = Some y) \/ adjacent l x y.
Proof.
  intros ([|z l1] & l2 & E); cbn in E; injection E as -> ->; [left; split; reflexivity|].
  right. now exists l1, l2.
Qed.

Lemma adjacent_snoc l a x y : adjacent l x y -> adjacent (l ++ [a]) x y.
Proof. intros (l1 & l2 & ->). exists l1, (l2 ++ [a]). now rewrite <- app_assoc. Qed.

Lemma adjacent_snoc_inv l a x y : adjacent (l ++ [a]) x y ->
  (last l = Some x /\ y = a) \/ adjacent l x y.
Proof.
  intros (l1 & l2 & E). destruct l2 as [|z l2 _] using rev_ind.
  - left. rewrite (cons_middle x l1 [y]), app_assoc in E. apply app_inj_tail in E as [-> ->].
    split; [apply last_snoc|reflexivity].
  - right. rewrite !app_comm_cons, app_assoc in E. apply app_inj_tail in E as [-> _]. now exists l1, l2.
Qed.

Lemma adjacent_last l t x : last l = Some t -> adjacent (l ++ [x]) t x.
Proof. intros (l1 & ->)%last_Some. exists l1, []. now rewrite <- app_assoc. Qed.

(** In a list without duplicates a place has one successor. *)
Lemma adjacent_fun l x y z : NoDup l -> adjacent l x y -> adjacent l x z -> y = z.
Proof.
  induction l as [|a l IH]; intros Hnd Hy Hz; [destruct Hy as ([|] & ? & ?); discriminate|].
  apply NoDup_cons in Hnd as [Hni Hnd].
  apply adjacent_cons_inv in Hy as [[-> Ey]|Hy]; apply adjacent_cons_inv in Hz as [[Ex Ez]|Hz].
  - congruence.
  - destruct Hni. apply (adjacent_in _ _ _ Hz).
  - subst. destruct Hni. apply (adjacent_in _ _ _ Hy).
  - auto.
Qed.

(** The last place has none. *)
Lemma adjacent_not_last l x y : NoDup l -> adjacent l x y -> last l <> Some x.
Proof.
  intros Hnd (l1 & l2 & ->) (l' & E)%last_Some. apply NoDup_app in Hnd as (_ & _ & Hnd).
  apply NoDup_cons in Hnd as [Hni _]. apply Hni.
  destruct l2 as [|z l2 _] using rev_ind.
  - rewrite (cons_middle x l1 [y]), app_assoc in E. apply app_inj_tail in E as [_ ->]. constructor.
  - rewrite !app_comm_cons, app_assoc in E. apply app_inj_tail in E as [_ ->]. set_solver.
Qed.

(** A word that counts modulo 2^32. *)
Lemma count_step a z d : a = u32 z -> u32 (a + d) = u32 (z + d).
Proof. intros ->. mlia. Qed.
Lemma u32_i32_add a d : u32 (i32 a + d) = u32 (a + d).
Proof. mlia. Qed.

(** * The invariant *)

Section inv.
Context (o n c : Z).

Definition linked (m : shm) (x y : Z) : Prop := h_flag o m x = 1 /\ h_next o m x = y.
Definition cleared (m : shm) (x : Z) : Prop := h_size o m x = 0 /\ h_start o m x = 0.

(** What a thread knows of the free list [l]. *)
Definition pc_ok (m : shm) (l : list Z) (pc : lpc) : Prop :=
  match pc with
  | PopSub h k | PopHas _ h k => valid_slot n c h /\ (k = true -> head l = Some h)
  | PopNext _ h k =>
      valid_slot n c h /\ (k = true -> head l = Some h /\ exists y, adjacent l h y /\ linked m h y)
  | PopCas _ h next k => valid_slot n c h /\ (k = true -> head l = Some h /\ adjacent l h next /\ linked m h next)
  | PushTail x => h_flag o m x = 0 /\ cleared m x
  | PushCas x t => h_flag o m x = 0 /\ cleared m x
  | PushLink x t => adjacent l t x /\ h_flag o m t = 0
  | PushFlag x t => adjacent l t x /\ h_flag o m t = 0 /\ h_next o m t = x
  | PushFlagged x t f => adjacent l t x /\ h_flag o m t = 0 /\ h_next o m t = x /\ f = 0
  | _ => True
  end.

(** [l] is the free list: two slices in a row are linked, or a thread is about
    to link them. *)
Record conc_inv (m : shm) (ps : list lpc) (held : list Z) (l : list Z) : Prop := {
  ci_fits : list_fits o n c (shm_len m);
  ci_perm : l ++ held ++ omap own_of ps ≡ₚ all_slots n c;
  ci_cap : get32 m (o + 4) = n;
  ci_head : head l = Some (get32 m (o + 8));
  ci_tail : last l = Some (get32 m (o + 12));
  ci_per : get32 m (o + 16) = c;
  ci_caps : forall x, valid_slot n c x -> h_cap o m x = c;
  ci_cleared : Forall (cleared m) l;
  ci_end : h_flag o m (get32 m (o + 12)) = 0;
  ci_links : forall x y, adjacent l x y -> linked m x y \/ (x, y) ∈ omap link_of ps;
  ci_linkers : NoDup (omap link_of ps);
  ci_threads : Forall (pc_ok m l) ps;
  ci_size : get32 m o = u32 (Z.of_nat (length l) - zsum size_debt ps);
  ci_count : get32 m (o + 20) = u32 (n - Z.of_nat (length l) - zsum count_debt ps);
}.

(** ** Frames *)

(** The fields of the header of a slice that change. *)
Definition same_fields (m m' : shm) (x : Z) : Prop :=
  h_size o m' x = h_size o m x /\ h_start o m' x = h_start o m x /\
  h_next o m' x = h_next o m x /\ h_flag o m' x = h_flag o m x.

(** Only the slices of [xs] and the words of the list's header may differ. *)
Definition outside (xs : list Z) (m m' : shm) : Prop :=
  shm_len m' = shm_len m /\ (forall x, valid_slot n c x -> h_cap o m' x = h_cap o m x) /\
  forall x, valid_slot n c x -> x ∉ xs -> same_fields m m' x.

Lemma slots_outside m m' xs : list_fits o n c (shm_len m) -> Forall (valid_slot n c) xs ->
  same_but (slot_bytes o c xs) m m' ->
  outside xs m m' /\ forall a, o <= a -> a + 4 <= o + 36 -> get32 m' a = get32 m a.
Proof.
  intros Hf Hxs Hm. pose proof Hf as (_ & _ & Hc & _). rewrite Forall_forall in Hxs.
  assert (stride c = c + 20) as Hst by reflexivity. assert (region o = o + 36) as Hreg by reflexivity.
  split; [split; [symmetry; apply Hm|]; split|].
  - intros z Hz. eapply same_but_get32; [exact Hm|]. intros b Hb (x & Hx & Hxb).
    destruct (decide (z = x)) as [->|Hne]; [lia|].
    destruct (valid_slot_disjoint n c z x Hc Hz (Hxs x Hx) Hne); lia.
  - intros z Hz Hni. destruct (header_ext o m m' z) as (_ & ? & ? & ? & ?); [|now repeat split].
    intros b Hb. apply Hm. intros (x & Hx & Hxb). assert (z <> x) as Hne by (intros ->; contradiction).
    destruct (valid_slot_disjoint n c z x Hc Hz (Hxs x Hx) Hne); lia.
  - intros a ??. eapply same_but_get32; [exact Hm|]. intros b Hb (x & Hx & Hxb).
    destruct (valid_slot_range n c x Hc (Hxs x Hx)). lia.
Qed.

Lemma header_outside m a v : list_fits o n c (shm_len m) -> o <= a -> a + 4 <= o + 36 ->
  outside [] m (put32 m a v).
Proof.
  intros Hf ??. assert (region o = o + 36) as Hreg by reflexivity. pose proof Hf as (_ & _ & Hc & _).
  assert (forall z, valid_slot n c z -> same_on (region o + z) 20 m (put32 m a v)) as Hs.
  { intros z Hz b Hb. destruct (valid_slot_range n c z Hc Hz). symmetry. apply get8_put32_ne. lia. }
  split; [apply put32_len|]. split.
  - intros z Hz. apply (header_ext o m _ z (Hs z Hz)).
  - intros z Hz _. destruct (header_ext o m _ z (Hs z Hz)) as (_ & ? & ? & ? & ?). now repeat split.
Qed.

Lemma outside_refl m : outside [] m m.
Proof. repeat split. Qed.

(** A thread keeps what it knows of the slices that did not change. *)
Lemma pc_ok_frame m m' l pc :
  (forall x, x ∈ l -> same_fields m m' x) -> (forall x, own_of pc = Some x -> same_fields m m' x) ->
  pc_ok m l pc -> pc_ok m' l pc.
Proof.
  intros Hl Ho. unfold pc_ok, linked, cleared. destruct pc; cbn in Ho; try tauto.
  - intros [Hv H]. split; [exact Hv|]. intros Hk. destruct (H Hk) as (Hh & y & Ha & ?). split; [exact Hh|].
    exists y. split; [exact Ha|]. destruct (Hl h) as (_ & _ & -> & ->); [apply (adjacent_in _ _ _ Ha)|tauto].
  - intros [Hv H]. split; [exact Hv|]. intros Hk. destruct (H Hk) as (Hh & Ha & ?). split; [exact Hh|].
    split; [exact Ha|]. destruct (Hl h) as (_ & _ & -> & ->); [apply (adjacent_in _ _ _ Ha)|tauto].
  - destruct (Ho x eq_refl) as (-> & -> & _ & ->). tauto.
  - destruct (Ho x eq_refl) as (-> & -> & _ & ->). tauto.
  - intros [Ha ?]. destruct (Hl t) as (_ & _ & _ & ->); [apply (adjacent_in _ _ _ Ha)|tauto].
  - intros [Ha ?]. destruct (Hl t) as (_ & _ & -> & ->); [apply (adjacent_in _ _ _ Ha)|tauto].
  - intros [Ha ?]. destruct (Hl t) as (_ & _ & -> & ->); [apply (adjacent_in _ _ _ Ha)|tauto].
Qed.

(** ** Consequences *)

Lemma inv_slots m ps held l : conc_inv m ps held l ->
  NoDup l /\ NoDup (held ++ omap own_of ps) /\ (forall x, x ∈ l -> x ∉ held ++ omap own_of ps) /\
  Forall (valid_slot n c) l /\ Forall (valid_slot n c) (held ++ omap own_of ps).
Proof.
  intros H. destruct (ci_fits _ _ _ _ H) as (_ & Hn & Hc & _). pose proof (ci_perm _ _ _ _ H) as Hp.
  assert (NoDup (l ++ held ++ omap own_of ps)) as (Hl & Hd & Hh)%NoDup_app
    by (rewrite Hp; now apply all_slots_nodup).
  assert (Forall (valid_slot n c) (l ++ held ++ omap own_of ps)) as [Hvl Hvh]%Forall_app.
  { apply Forall_forall. intros x Hx. rewrite Hp in Hx. now apply all_slots_spec. }
  auto.
Qed.

Lemma cleared_frame m m' l : (forall x, x ∈ l -> same_fields m m' x) -> Forall (cleared m) l -> Forall (cleared m') l.
Proof.
  rewrite !Forall_forall. intros Hl Hz x Hx. unfold cleared. destruct (Hl x Hx) as (-> & -> & _). now apply Hz.
Qed.

(** What the threads other than one know and own. *)
Lemma other_ok m l1 pc l2 held l q : conc_inv m (l1 ++ pc :: l2) held l -> q ∈ l1 ++ l2 ->
  pc_ok m l q /\ forall z, own_of q = Some z -> valid_slot n c z /\ z ∉ l.
Proof.
  intros H Hq. destruct (inv_slots _ _ _ _ H) as (_ & _ & Hdis & _ & Hv). rewrite Forall_forall in Hv.
  assert (q ∈ l1 ++ pc :: l2) as Hin by set_solver. split.
  - pose proof (ci_threads _ _ _ _ H) as Ht. rewrite Forall_forall in Ht. auto.
  - intros z Ez. assert (z ∈ held ++ omap own_of (l1 ++ pc :: l2)) as Hz
      by (apply elem_of_app; right; apply list_elem_of_omap; eauto).
    split; [auto|]. intros Hl. exact (Hdis z Hl Hz).
Qed.

Lemma Forall_others (P : lpc -> Prop) l1 pc l2 : (forall q, q ∈ l1 ++ l2 -> P q) -> P pc -> Forall P (l1 ++ pc :: l2).
Proof.
  intros H Hpc. rewrite Forall_app, Forall_cons, !Forall_forall. split; [|split; [exact Hpc|]];
    intros q Hq; apply H; set_solver.
Qed.

(** ** Steps that leave the free list as it is *)

Lemma inv_keep m m' ps ps' held held' l xs :
  conc_inv m ps held l -> outside xs m m' -> (forall x, x ∈ xs -> x ∉ l) ->
  (forall a, o + 4 <= a <= o + 16 -> get32 m' a = get32 m a) ->
  held' ++ omap own_of ps' ≡ₚ held ++ omap own_of ps ->
  omap link_of ps' = omap link_of ps -> Forall (pc_ok m' l) ps' ->
  get32 m' o = u32 (Z.of_nat (length l) - zsum size_debt ps') ->
  get32 m' (o + 20) = u32 (n - Z.of_nat (length l) - zsum count_debt ps') ->
  conc_inv m' ps' held' l.
Proof.
  intros H (Hlen & Hcap & Hsame) Hxs Hw Hown Hlink Hpc Hs Hcnt.
  destruct (inv_slots _ _ _ _ H) as (_ & _ & _ & Hv & _). rewrite Forall_forall in Hv.
  assert (forall x, x ∈ l -> same_fields m m' x) as Hl
    by (intros x Hx; apply Hsame; [auto|intros Hx'; exact (Hxs x Hx' Hx)]).
  destruct H as [Hf Hp H4 H8 H12 H16 Hc Hz He Hli Hnd _ _ _].
  constructor; rewrite ?Hlen, ?Hlink, ?(Hw (o + 4)), ?(Hw (o + 8)), ?(Hw (o + 12)), ?(Hw (o + 16)) by lia; auto.
  - now rewrite Hown.
  - intros x Hx. rewrite Hcap by exact Hx. auto.
  - exact (cleared_frame _ _ _ Hl Hz).
  - destruct (Hl (get32 m (o + 12))) as (_ & _ & _ & ->); [|exact He].
    apply last_Some in H12 as (l' & ->). set_solver.
  - intros x y Hxy. unfold linked. destruct (Hl x) as (_ & _ & -> & ->); [apply (adjacent_in _ _ _ Hxy)|].
    now apply Hli.
Qed.

(** One thread moves on, having written at most to the slice it owns. *)
Lemma inv_move m m' l1 pc pc' l2 held held' l xs :
  conc_inv m (l1 ++ pc :: l2) held l -> outside xs m m' -> (forall x, x ∈ xs -> own_of pc = Some x) ->
  (forall a, o + 4 <= a <= o + 16 -> get32 m' a = get32 m a) ->
  held' ++ omap own_of [pc'] ≡ₚ held ++ omap own_of [pc] ->
  link_of pc' = link_of pc -> pc_ok m' l pc' ->
  get32 m' o = u32 (get32 m o + (size_debt pc - size_debt pc')) ->
  get32 m' (o + 20) = u32 (get32 m (o + 20) + (count_debt pc - count_debt pc')) ->
  conc_inv m' (l1 ++ pc' :: l2) held' l.
Proof.
  intros H Hout Hxs Hw Hown Hlink Hpc Hs Hcnt.
  destruct (inv_slots _ _ _ _ H) as (_ & Hnd & Hdis & Hv & Hv'). rewrite omap_app in *.
  rewrite Forall_forall in Hv, Hv'.
  assert (forall x, x ∈ xs -> x ∉ l) as Hxl.
  { intros x Hx Hl. apply (Hdis x Hl). rewrite !elem_of_app. right. right.
    apply list_elem_of_omap. exists pc. split; [constructor|auto]. }
  eapply inv_keep; [exact H|exact Hout|exact Hxl|exact Hw| | | | |].
  - rewrite !omap_app. change (omap own_of (pc' :: l2)) with (omap own_of ([pc'] ++ l2)).
    change (omap own_of (pc :: l2)) with (omap own_of ([pc] ++ l2)). rewrite !omap_app.
    rewrite (Permutation_app_comm (omap own_of l1)), (Permutation_app_comm (omap own_of l1)), <- !app_assoc.
    now rewrite !(app_assoc _ (omap own_of [_])), Hown.
  - rewrite !omap_app. cbn. now rewrite Hlink.
  - pose proof (ci_threads _ _ _ _ H) as Ht. destruct Hout as (_ & _ & Hsame).
    assert (forall q, q ∈ l1 \/ q ∈ l2 -> pc_ok m l q -> pc_ok m' l q) as Hq.
    { intros q Hq. apply pc_ok_frame.
      - intros x Hx. apply Hsame; [auto|]. intros Hx'. exact (Hxl x Hx' Hx).
      - intros x Hx. assert (x ∈ omap own_of l1 \/ x ∈ omap own_of l2) as Hin
          by (destruct Hq; [left|right]; apply list_elem_of_omap; eauto).
        apply Hsame.
        + apply Hv'. cbn. rewrite !elem_of_app. destruct Hin; [tauto|]. right. right.
          destruct (own_of pc); set_solver.
        + intros Hx'%Hxs. apply NoDup_app in Hnd as (_ & _ & Hnd). cbn in Hnd. rewrite Hx' in Hnd.
          apply NoDup_app in Hnd as (_ & Hd & Hn2). destruct Hin as [Hin|Hin].
          * apply (Hd x Hin). constructor.
          * apply NoDup_cons in Hn2 as [Hn2 _]. contradiction. }
    rewrite Forall_app, Forall_cons, !Forall_forall in *. destruct Ht as (? & _ & ?).
    split; [|split; [exact Hpc|]]; intros q ?; apply Hq; auto.
  - rewrite Hs, (count_step _ _ _ (ci_size _ _ _ _ H)), !zsum_app, !zsum_cons. f_equal. lia.
  - rewrite Hcnt, (count_step _ _ _ (ci_count _ _ _ _ H)), !zsum_app, !zsum_cons. f_equal. lia.
Qed.

(** ** Linking a slice behind the old tail *)

Lemma linker_ok m l pc t x : pc_ok m l pc -> link_of pc = Some (t, x) -> adjacent l t x /\ h_flag o m t = 0.
Proof. destruct pc; cbn; intros H E; try discriminate E; injection E as <- <-; tauto. Qed.

(** Nobody else relies on the link that is being made. *)
Lemma pc_ok_link m m' l t x q : NoDup l -> h_flag o m t = 0 -> adjacent l t x -> link_of q <> Some (t, x) ->
  (forall z, z ∈ l -> z <> t -> same_fields m m' z) -> (forall z, own_of q = Some z -> same_fields m m' z) ->
  pc_ok m l q -> pc_ok m' l q.
Proof.
  intros Hnd Ht Ha Hq Hl Ho.
  assert (forall z y, adjacent l z y -> linked m z y -> linked m' z y) as Hlk.
  { intros z y Hzy [Hf Hn]. assert (z <> t) as Hne by (intros ->; rewrite Ht in Hf; discriminate Hf).
    destruct (Hl z (proj1 (adjacent_in _ _ _ Hzy)) Hne) as (_ & _ & E1 & E2). split; congruence. }
  assert (forall t' x', adjacent l t' x' -> link_of q = Some (t', x') -> same_fields m m' t') as Hlq.
  { intros t' x' Ha' E. apply Hl; [apply (adjacent_in _ _ _ Ha')|]. intros ->. apply Hq.
    now rewrite (adjacent_fun l t x x' Hnd Ha Ha'). }
  destruct q; cbn in *; try tauto.
  - intros [Hv H]. split; [exact Hv|]. intros Hk. destruct (H Hk) as (Hh & y & ? & ?). eauto.
  - intros [Hv H]. split; [exact Hv|]. intros Hk. destruct (H Hk) as (Hh & ? & ?). eauto.
  - unfold cleared. destruct (Ho x0 eq_refl) as (-> & -> & _ & ->). tauto.
  - unfold cleared. destruct (Ho x0 eq_refl) as (-> & -> & _ & ->). tauto.
  - intros [Ha' ?]. destruct (Hlq _ _ Ha' eq_refl) as (_ & _ & _ & ->). tauto.
  - intros [Ha' ?]. destruct (Hlq _ _ Ha' eq_refl) as (_ & _ & -> & ->). tauto.
  - intros [Ha' ?]. destruct (Hlq _ _ Ha' eq_refl) as (_ & _ & -> & ->). tauto.
Qed.

Lemma inv_link m m' l1 pc pc' l2 held l t x :
  conc_inv m (l1 ++ pc :: l2) held l -> outside [t] m m' ->
  (forall a, o <= a <= o + 20 -> get32 m' a = get32 m a) ->
  h_size o m' t = h_size o m t -> h_start o m' t = h_start o m t ->
  link_of pc' = Some (t, x) \/ link_of pc' = None /\ linked m' t x ->
  link_of pc = Some (t, x) -> own_of pc' = None ->
  size_debt pc' = size_debt pc -> count_debt pc' = count_debt pc -> pc_ok m' l pc' ->
  conc_inv m' (l1 ++ pc' :: l2) held l.
Proof.
  intros H (Hlen & Hcap & Hsame) Hw Hsz Hst Hlk Hpc Hown' Hsd Hcd Hok'.
  destruct (inv_slots _ _ _ _ H) as (Hnd & _ & _ & Hv & _). rewrite Forall_forall in Hv.
  pose proof (fun q => other_ok _ _ _ _ _ _ q H) as Hoth.
  destruct H as [Hf Hp H4 H8 H12 H16 Hc Hz He Hli Hnl Hth Hs Hcnt].
  rewrite Forall_app, Forall_cons in Hth. destruct Hth as (_ & Hokp & _).
  destruct (linker_ok m l pc t x Hokp Hpc) as [Ha Hft].
  assert (own_of pc = None) as Hown by (destruct pc; cbn in Hpc |- *; try discriminate Hpc; reflexivity).
  rewrite !omap_app in *. cbn in Hnl, Hli, Hp. rewrite Hpc in Hnl, Hli. rewrite Hown in Hp.
  assert (forall z, z ∈ l -> z <> t -> same_fields m m' z) as Hl
    by (intros z Hz' Hne; apply Hsame; [auto|set_solver]).
  assert (forall q, q ∈ l1 ++ l2 -> pc_ok m' l q) as Hq.
  { intros q Hq. destruct (Hoth q Hq) as [Hokq Hoq]. apply (pc_ok_link m m' l t x); auto.
    - intros Eq. rewrite <- Permutation_middle, <- omap_app in Hnl. apply NoDup_cons in Hnl as [Hnl _].
      apply Hnl, list_elem_of_omap. eauto.
    - intros z Ez. destruct (Hoq z Ez) as [? Hzl]. apply Hsame; [assumption|].
      intros ->%list_elem_of_singleton. apply Hzl, (adjacent_in _ _ _ Ha). }
  constructor; rewrite ?Hlen, ?(Hw (o + 4)), ?(Hw (o + 8)), ?(Hw (o + 12)), ?(Hw (o + 16)), ?(Hw o),
    ?(Hw (o + 20)), ?omap_app, ?zsum_app, ?zsum_cons, ?Hsd, ?Hcd by lia; auto.
  - cbn. now rewrite Hown'.
  - intros z Hz'. rewrite Hcap by exact Hz'. auto.
  - rewrite Forall_forall in *. intros z Hz'. unfold cleared. destruct (decide (z = t)) as [->|Hne].
    + rewrite Hsz, Hst. now apply Hz.
    + destruct (Hl z Hz' Hne) as (-> & -> & _). now apply Hz.
  - destruct (Hl (get32 m (o + 12))) as (_ & _ & _ & ->); [| |exact He].
    + apply last_Some in H12 as (l' & ->). set_solver.
    + intros E. apply (adjacent_not_last l t x Hnd Ha). now rewrite <- E.
  - intros z y Hzy. cbn. destruct (decide (z = t)) as [->|Hne].
    + rewrite (adjacent_fun l t y x Hnd Hzy Ha). destruct Hlk as [->|[_ ?]]; [right; set_solver|now left].
    + unfold linked. destruct (Hl z) as (_ & _ & -> & ->); [apply (adjacent_in _ _ _ Hzy)|exact Hne|].
      destruct (Hli z y Hzy) as [?|Hin]; [now left|]. right. destruct Hlk as [->|[-> _]]; set_solver.
  - cbn. destruct Hlk as [->|[-> _]]; [exact Hnl|]. apply NoDup_app in Hnl as (? & Hd & [_ ?]%NoDup_cons).
    apply NoDup_app. split; [assumption|]. split; [|assumption]. set_solver.
  - now apply Forall_others.
  - rewrite Hs, zsum_app, zsum_cons. reflexivity.
  - rewrite Hcnt, zsum_app, zsum_cons. reflexivity.
Qed.

(** ** The head is taken *)

Lemma passed_own h pc : own_of (passed h pc) = own_of pc.
Proof. now destruct pc. Qed.
Lemma passed_link h pc : link_of (passed h pc) = link_of pc.
Proof. now destruct pc. Qed.
Lemma passed_size h pc : size_debt (passed h pc) = size_debt pc.
Proof. now destruct pc. Qed.
Lemma passed_count h pc : count_debt (passed h pc) = count_debt pc.
Proof. now destruct pc. Qed.

Lemma adjacent_tail h y l t x : adjacent (h :: y :: l) t x -> t <> h -> adjacent (y :: l) t x.
Proof. intros [[E _]|Ha]%adjacent_cons_inv Hne; [congruence|exact Ha]. Qed.

(** The other threads, when [h], which is linked, is taken. *)
Lemma pc_ok_pop m h y l pc : linked m h y -> pc_ok m (h :: y :: l) pc -> pc_ok m (y :: l) (passed h pc).
Proof.
  intros [Hf _]. assert (forall h' k, (k = true -> Some h = Some h') -> k && negb (h' =? h) = false) as Hk.
  { intros h' [|] E; [|reflexivity]. injection (E eq_refl) as <-. now rewrite Z.eqb_refl. }
  assert (forall t x, adjacent (h :: y :: l) t x -> h_flag o m t = 0 -> adjacent (y :: l) t x) as Ha.
  { intros t x Ha Ht. apply (adjacent_tail h); [exact Ha|]. intros ->. rewrite Hf in Ht. discriminate Ht. }
  destruct pc; cbn [pc_ok passed head]; try tauto; intros [Hv H].
  - split; [exact Hv|]. rewrite Hk by exact H. discriminate.
  - split; [exact Hv|]. rewrite Hk by exact H. discriminate.
  - split; [exact Hv|]. rewrite Hk by (intros E; apply (H E)). discriminate.
  - split; [exact Hv|]. rewrite Hk by (intros E; apply (H E)). discriminate.
  - split; [apply Ha|]; tauto.
  - split; [apply Ha|]; tauto.
  - split; [apply Ha|]; tauto.
Qed.

(** The words of the list's header after a write to one of them. *)
Lemma put32_word m a v b : (a + 4 <= b \/ b + 4 <= a) -> get32 (put32 m a v) b = get32 m b.
Proof. intros. apply get32_put32_ne. lia. Qed.

Lemma inv_pop m r l1 l2 held l h y :
  conc_inv m (l1 ++ PopCas r h y true :: l2) held l ->
  exists l', conc_inv (put32 m (o + 8) y) ((passed h <$> l1) ++ PopClear h :: (passed h <$> l2)) held l'.
Proof.
  intros H. destruct (inv_slots _ _ _ _ H) as (Hnd & _ & _ & Hv & _).
  pose proof (ci_threads _ _ _ _ H) as Ht. rewrite Forall_app, Forall_cons in Ht.
  destruct Ht as (_ & Ht0 & _). cbn in Ht0. destruct Ht0 as (Hvh & Hcur).
  destruct (Hcur eq_refl) as (Hhd & Ha & Hlk). destruct l as [|h' l]; [discriminate Hhd|].
  cbn in Hhd. injection Hhd as ->. apply NoDup_cons in Hnd as [Hni Hnd].
  apply adjacent_cons_inv in Ha as [[_ Ehd]|Ha]; [|destruct Hni; apply (adjacent_in _ _ _ Ha)].
  destruct l as [|y' l]; [discriminate Ehd|]. cbn in Ehd. injection Ehd as ->.
  exists (y :: l). apply Forall_cons in Hv as [_ Hv]. rewrite Forall_forall in Hv.
  pose proof (slot_bounds o n c m y (ci_fits _ _ _ _ H) (Hv y ltac:(constructor))) as Hb.
  pose proof (header_outside m (o + 8) y (ci_fits _ _ _ _ H) ltac:(lia) ltac:(lia)) as (Hlen & Hcap & Hsame).
  assert (forall x, x ∈ y :: l -> same_fields m (put32 m (o + 8) y) x) as Hl
    by (intros x Hx; apply Hsame; [auto|set_solver]).
  pose proof (fun q => other_ok _ _ _ _ _ _ q H) as Hoth.
  destruct H as [Hf Hp H4 H8 H12 H16 Hc Hz He Hli Hnl _ Hs Hcnt].
  constructor; rewrite ?Hlen, ?omap_app, ?zsum_app, ?zsum_cons, ?put32_word by lia; auto.
  - cbn. rewrite !omap_fmap_same by (intros; apply passed_own). rewrite <- Hp, omap_app. cbn.
    rewrite <- (Permutation_middle (omap own_of l1)), <- (Permutation_middle held), <- (Permutation_middle l).
    apply perm_swap.
  - rewrite get32_put32, u32_id by lia. reflexivity.
  - intros x Hx. rewrite Hcap by exact Hx. auto.
  - apply Forall_cons in Hz as [_ Hz]. exact (cleared_frame _ _ _ Hl Hz).
  - destruct (Hl (get32 m (o + 12))) as (_ & _ & _ & ->); [|exact He].
    rewrite last_cons_cons in H12. apply last_Some in H12 as (l' & ->). set_solver.
  - intros x z Hxz. cbn. rewrite !omap_fmap_same by (intros; apply passed_link). unfold linked.
    destruct (Hl x) as (_ & _ & -> & ->); [apply (adjacent_in _ _ _ Hxz)|].
    destruct (Hli x z (adjacent_cons _ _ _ _ Hxz)) as [?|Hin]; [now left|right].
    rewrite omap_app in Hin. exact Hin.
  - cbn. rewrite !omap_fmap_same by (intros; apply passed_link). rewrite omap_app in Hnl. exact Hnl.
  - apply Forall_others; [|exact I]. rewrite <- fmap_app. intros q (q0 & -> & Hq)%list_elem_of_fmap.
    destruct (Hoth q0 Hq) as [Hok Hoq]. apply (pc_ok_frame m); [exact Hl| |now apply pc_ok_pop].
    intros x Ex. rewrite passed_own in Ex. apply Hsame; [now apply Hoq|set_solver].
  - rewrite Hs, zsum_app, zsum_cons, !zsum_fmap by (intros; apply passed_size). cbn [length size_debt]. f_equal. lia.
  - rewrite Hcnt, zsum_app, zsum_cons, !zsum_fmap by (intros; apply passed_count). cbn [length count_debt]. f_equal. lia.
Qed.

(** ** The tail is replaced *)

(** The other threads, when a slice goes to the end. *)
Lemma pc_ok_push m l a pc : l <> [] -> pc_ok m l pc -> pc_ok m (l ++ [a]) pc.
Proof.
  intros Hne. assert (head (l ++ [a]) = head l) as Hh by now destruct l.
  pose proof (adjacent_snoc l a). destruct pc; cbn; rewrite ?Hh; try tauto; intros [Hv H']; split; auto.
  - intros Hk. destruct (H' Hk) as (? & y & ? & ?). eauto.
  - intros Hk. destruct (H' Hk) as (? & ? & ?). eauto.
Qed.

Lemma inv_push m l1 l2 held l x :
  conc_inv m (l1 ++ PushCas x (get32 m (o + 12)) :: l2) held l ->
  conc_inv (put32 m (o + 12) x) (l1 ++ PushLink x (get32 m (o + 12)) :: l2) held (l ++ [x]).
Proof.
  intros H. destruct (inv_slots _ _ _ _ H) as (Hnd & Hndo & Hdis & Hv & Hv').
  pose proof (ci_threads _ _ _ _ H) as Ht. rewrite Forall_app, Forall_cons in Ht.
  destruct Ht as (_ & (Hfx & Hzx) & _). rewrite Forall_forall in Hv, Hv'.
  pose proof (fun q => other_ok _ _ _ _ _ _ q H) as Hoth.
  assert (x ∈ held ++ omap own_of (l1 ++ PushCas x (get32 m (o + 12)) :: l2)) as Hxin.
  { rewrite omap_app. cbn. set_solver. }
  pose proof (slot_bounds o n c m x (ci_fits _ _ _ _ H) (Hv' x Hxin)) as Hb.
  pose proof (header_outside m (o + 12) x (ci_fits _ _ _ _ H) ltac:(lia) ltac:(lia)) as (Hlen & Hcap & Hsame).
  assert (forall z, valid_slot n c z -> same_fields m (put32 m (o + 12) x) z) as Hs'
    by (intros z Hz; apply Hsame; [auto|set_solver]).
  destruct H as [Hf Hp H4 H8 H12 H16 Hc Hz He Hli Hnl _ Hs Hcnt].
  assert (l <> []) as Hne by (intros ->; discriminate H12).
  destruct (Hs' x (Hv' x Hxin)) as (Ex1 & Ex2 & _ & Ex4).
  constructor; rewrite ?Hlen, ?omap_app, ?zsum_app, ?zsum_cons, ?put32_word, ?length_app by lia; auto.
  - rewrite <- Hp, omap_app. cbn. rewrite <- app_assoc. cbn.
    now rewrite <- (Permutation_middle (omap own_of l1)), <- (Permutation_middle held).
  - now destruct l.
  - rewrite last_snoc, get32_put32, u32_id by lia. reflexivity.
  - intros z Hz'. rewrite Hcap by exact Hz'. auto.
  - rewrite Forall_app, Forall_singleton. unfold cleared in *. rewrite Ex1, Ex2. split; [|exact Hzx].
    apply (cleared_frame m); auto.
  - rewrite get32_put32, u32_id, Ex4 by lia. exact Hfx.
  - intros z y Hzy. cbn. apply adjacent_snoc_inv in Hzy as [[Hl ->]|Hzy].
    + right. rewrite H12 in Hl. injection Hl as <-. set_solver.
    + unfold linked. destruct (Hs' z) as (_ & _ & -> & ->); [apply Hv, (adjacent_in _ _ _ Hzy)|].
      destruct (Hli z y Hzy) as [?|Hin]; [now left|right]. rewrite omap_app in Hin. set_solver.
  - cbn. rewrite omap_app in Hnl. cbn in Hnl. rewrite <- Permutation_middle, NoDup_cons. split; [|exact Hnl].
    intros Hin. rewrite <- omap_app in Hin. apply list_elem_of_omap in Hin as (q & Hq & Eq).
    destruct (linker_ok _ _ _ _ _ (proj1 (Hoth q Hq)) Eq) as [Ha _].
    exact (Hdis x (proj2 (adjacent_in _ _ _ Ha)) Hxin).
  - apply Forall_others.
    + intros q Hq. destruct (Hoth q Hq) as [Hok Hoq]. apply (pc_ok_frame m); [| |now apply pc_ok_push].
      * intros z [Hzl|Hzl]%elem_of_app; apply Hs'; [auto|]. apply list_elem_of_singleton in Hzl as ->. auto.
      * intros z Ez. now apply Hs', Hoq.
    + split; [now apply adjacent_last|].
      destruct (Hs' (get32 m (o + 12))) as (_ & _ & _ & ->); [|exact He].
      apply Hv. apply last_Some in H12 as (l' & ->). set_solver.
  - rewrite Hs, zsum_app, zsum_cons. cbn [length size_debt]. f_equal. lia.
  - rewrite Hcnt, zsum_app, zsum_cons. cbn [length count_debt]. f_equal. lia.
Qed.

(** ** The steps *)

Definition list_inv (s : lst) : Prop := exists l, conc_inv (lmem s) (threads s) (out s) l.

(** A thread that has only read, or changed [size_] or [counter_]. *)
Lemma move_read m l1 pc pc' l2 held l :
  conc_inv m (l1 ++ pc :: l2) held l -> own_of pc' = own_of pc -> link_of pc' = link_of pc ->
  size_debt pc' = size_debt pc -> count_debt pc' = count_debt pc -> pc_ok m l pc' ->
  conc_inv m (l1 ++ pc' :: l2) held l.
Proof.
  intros H Ho Hl Hs Hc Hok. pose proof (get32_range m o). pose proof (get32_range m (o + 20)).
  apply (inv_move m m l1 pc pc' l2 held held l []); auto using outside_refl.
  - intros x Hx. now apply not_elem_of_nil in Hx.
  - cbn. now rewrite Ho.
  - rewrite Hs, Z.sub_diag, Z.add_0_r, u32_id; auto.
  - rewrite Hc, Z.sub_diag, Z.add_0_r, u32_id; auto.
Qed.

Lemma move_size m l1 pc pc' l2 held l d :
  conc_inv m (l1 ++ pc :: l2) held l -> own_of pc' = own_of pc -> link_of pc' = link_of pc ->
  size_debt pc = size_debt pc' + d -> count_debt pc' = count_debt pc ->
  (forall m', (forall x, valid_slot n c x -> same_fields m m' x) -> pc_ok m' l pc') ->
  conc_inv (put32 m o (i32 (get32 m o) + d)) (l1 ++ pc' :: l2) held l.
Proof.
  intros H Ho Hl Hs Hc Hok. pose proof (get32_range m (o + 20)).
  pose proof (header_outside m o (i32 (get32 m o) + d) (ci_fits _ _ _ _ H) ltac:(lia) ltac:(lia)) as Hout.
  eapply inv_move; [exact H|exact Hout| | | |exact Hl| | |].
  - intros x Hx. now apply not_elem_of_nil in Hx.
  - intros a Ha. apply put32_word. lia.
  - cbn. now rewrite Ho.
  - apply Hok. intros x Hx. apply Hout; [exact Hx|set_solver].
  - rewrite get32_put32, u32_i32_add, Hs by reflexivity. f_equal; lia.
  - rewrite put32_word, Hc, Z.sub_diag, Z.add_0_r, u32_id by lia. reflexivity.
Qed.

Lemma move_count m l1 pc pc' l2 held held' l d :
  conc_inv m (l1 ++ pc :: l2) held l -> held' ++ omap own_of [pc'] ≡ₚ held ++ omap own_of [pc] ->
  link_of pc' = link_of pc -> size_debt pc' = size_debt pc -> count_debt pc = count_debt pc' + d ->
  (forall m', pc_ok m' l pc') ->
  conc_inv (put32 m (o + 20) (i32 (get32 m (o + 20)) + d)) (l1 ++ pc' :: l2) held' l.
Proof.
  intros H Ho Hl Hs Hc Hok. pose proof (get32_range m o).
  pose proof (header_outside m (o + 20) (i32 (get32 m (o + 20)) + d) (ci_fits _ _ _ _ H)
    ltac:(lia) ltac:(lia)) as Hout.
  eapply inv_move; [exact H|exact Hout| | |exact Ho|exact Hl|apply Hok| |].
  - intros x Hx. now apply not_elem_of_nil in Hx.
  - intros a Ha. apply put32_word. lia.
  - rewrite put32_word, Hs, Z.sub_diag, Z.add_0_r, u32_id by lia. reflexivity.
  - rewrite get32_put32, u32_i32_add, Hc by reflexivity. f_equal; lia.
Qed.

(** A thread that writes to the header of the slice it owns. *)
Lemma move_own m m' l1 pc pc' l2 held l x :
  conc_inv m (l1 ++ pc :: l2) held l -> same_but (slot_bytes o c [x]) m m' ->
  own_of pc = Some x -> own_of pc' = Some x ->
  link_of pc' = link_of pc -> size_debt pc' = size_debt pc -> count_debt pc' = count_debt pc -> pc_ok m' l pc' ->
  conc_inv m' (l1 ++ pc' :: l2) held l.
Proof.
  intros H Hm Hx Hx' Hl Hs Hc Hok. pose proof (get32_range m o). pose proof (get32_range m (o + 20)).
  destruct (inv_slots _ _ _ _ H) as (_ & _ & _ & _ & Hv). rewrite Forall_forall in Hv.
  assert (valid_slot n c x) as Hvx.
  { apply Hv. rewrite omap_app. cbn. rewrite Hx. set_solver. }
  destruct (slots_outside m m' [x] (ci_fits _ _ _ _ H) ltac:(now constructor) Hm) as [Hout Hw].
  eapply inv_move; [exact H|exact Hout| | | |exact Hl|exact Hok| |].
  - intros z Hz. apply list_elem_of_singleton in Hz as ->. exact Hx.
  - intros a Ha. apply Hw; lia.
  - cbn. now rewrite Hx, Hx'.
  - rewrite Hw, Hs, Z.sub_diag, Z.add_0_r, u32_id by lia. reflexivity.
  - rewrite Hw, Hc, Z.sub_diag, Z.add_0_r, u32_id by lia. reflexivity.
Qed.

(** The slices a thread works on are slices of the list. *)
Lemma head_valid m ps held l : conc_inv m ps held l -> valid_slot n c (get32 m (o + 8)).
Proof.
  intros H. destruct (inv_slots _ _ _ _ H) as (_ & _ & _ & Hv & _).
  pose proof (ci_head _ _ _ _ H) as Hh. destruct l as [|x l]; [discriminate Hh|]. cbn in Hh.
  injection Hh as <-. now apply Forall_cons in Hv as [? _].
Qed.

Lemma own_valid m l1 pc l2 held l x : conc_inv m (l1 ++ pc :: l2) held l -> own_of pc = Some x -> valid_slot n c x.
Proof.
  intros H Hx. destruct (inv_slots _ _ _ _ H) as (_ & _ & _ & _ & Hv). rewrite Forall_forall in Hv.
  apply Hv. rewrite omap_app. cbn. rewrite Hx. set_solver.
Qed.

Lemma link_valid m l1 pc l2 held l t x : conc_inv m (l1 ++ pc :: l2) held l -> link_of pc = Some (t, x) ->
  valid_slot n c t /\ valid_slot n c x /\ adjacent l t x /\ h_flag o m t = 0.
Proof.
  intros H Hx. destruct (inv_slots _ _ _ _ H) as (_ & _ & _ & Hv & _). rewrite Forall_forall in Hv.
  pose proof (ci_threads _ _ _ _ H) as Ht. rewrite Forall_app, Forall_cons in Ht.
  destruct (linker_ok m l pc t x (proj1 (proj2 Ht)) Hx) as [Ha Hf].
  split; [apply Hv, (adjacent_in _ _ _ Ha)|]. split; [apply Hv, (adjacent_in _ _ _ Ha)|auto].
Qed.

(** A head that says it has a successor has been linked. *)
Lemma head_linked m ps held l h : conc_inv m ps held l -> head l = Some h -> 0 < Z.land (h_flag o m h) 1 ->
  exists y, adjacent l h y /\ linked m h y.
Proof.
  intros H Hh Hf. assert (h_flag o m h <> 0) as Hne by (intros E; rewrite E, Z.land_0_l in Hf; lia).
  destruct l as [|x [|y l]]; [discriminate Hh| |]; cbn in Hh; injection Hh as ->.
  - destruct Hne. rewrite <- (ci_end _ _ _ _ H). f_equal. pose proof (ci_tail _ _ _ _ H) as Ht.
    cbn in Ht. congruence.
  - assert (adjacent (h :: y :: l) h y) as Ha by now exists [], l.
    exists y. split; [exact Ha|]. destruct (ci_links _ _ _ _ H h y Ha) as [?|Hin]; [assumption|].
    apply list_elem_of_omap in Hin as (q & Hq & Eq).
    pose proof (ci_threads _ _ _ _ H) as Ht. rewrite Forall_forall in Ht.
    destruct Hne. apply (linker_ok _ _ _ _ _ (Ht q Hq) Eq).
Qed.

(** The next access of a thread is in bounds and keeps the invariant. *)
Definition access_ok (s : lst) (i : nat) (pc : lpc) : Prop :=
  exists s', list_access (blist o n c) s i pc = Some s' /\ list_inv s'.

Ltac thread_done l :=
  eexists; split; [reflexivity|]; unfold set_thread, set_lmem, set_out; cbn [lmem threads out];
  exists l; cbn [lmem threads out]; rewrite ?insert_middle.

Lemma pop_size_ok m l1 pc l2 held l : conc_inv m (l1 ++ pc :: l2) held l ->
  match pc with PopSub _ _ | PopUndo | PopSize _ | PopReload _ => True | _ => False end ->
  access_ok (mkLst m (l1 ++ pc :: l2) held) (length l1) pc.
Proof.
  intros H Hpc. pose proof (ci_fits _ _ _ _ H) as Hf.
  pose proof (head_valid _ _ _ _ H) as Hh. pose proof (slot_bounds o n c m _ Hf Hh) as Hb.
  pose proof (ci_threads _ _ _ _ H) as Ht. rewrite Forall_app, Forall_cons in Ht. destruct Ht as (_ & Ht & _).
  unfold access_ok. destruct pc; cbn in Hpc; try contradiction; cbn [list_access lmem];
    change (size_ (blist o n c)) with o; change (head_ (blist o n c)) with (o + 8);
    change (cap_per_buffer_ (blist o n c)) with (o + 16); shm_run.
  - assert (forall q, q = PopUndo \/ q = PopHas (pred BList.pop_retries) h current ->
      conc_inv (put32 m o (i32 (get32 m o) - 1)) (l1 ++ q :: l2) held l) as Hq.
    { intros q [->| ->]; apply (move_size m l1 (PopSub h current) _ l2 held l (-1) H); auto. }
    case_if; cbn [mbind option_bind]; shm_run; thread_done l; apply Hq; [|case_if]; auto.
  - thread_done l. apply (move_size m l1 PopUndo LIdle l2 held l 1 H); auto.
  - thread_done l. case_if; (eapply move_read; [exact H|reflexivity..|exact I]).
  - thread_done l. destruct r; (eapply move_read; [exact H|reflexivity..|]); [exact I|].
    cbn. split; [exact Hh|]. intros _. exact (ci_head _ _ _ _ H).
Qed.

Lemma pop_next_ok m l1 pc l2 held l : conc_inv m (l1 ++ pc :: l2) held l ->
  match pc with PopHas _ _ _ | PopNext _ _ _ => True | _ => False end ->
  access_ok (mkLst m (l1 ++ pc :: l2) held) (length l1) pc.
Proof.
  intros H Hpc. pose proof (ci_fits _ _ _ _ H) as Hf.
  pose proof (ci_threads _ _ _ _ H) as Ht. rewrite Forall_app, Forall_cons in Ht. destruct Ht as (_ & Ht & _).
  unfold access_ok. destruct pc; cbn in Hpc; try contradiction; cbn [list_access lmem];
    change (buffer_region_ (blist o n c)) with (region o); cbn in Ht; destruct Ht as [Hv Hk];
    pose proof (slot_bounds o n c m _ Hf Hv) as Hb; hdr_run.
  - thread_done l. case_if; (eapply move_read; [exact H|reflexivity..|]); [|exact I].
    cbn. split; [exact Hv|]. intros Hc. split; [auto|].
    eapply head_linked; [exact H|auto|]. unfold h_flag. lia.
  - thread_done l. eapply move_read; [exact H|reflexivity..|].
    cbn. split; [exact Hv|]. intros Hc. destruct (Hk Hc) as (Hh & y & Ha & Hl).
    assert (get32 m (region o + h + 12) = y) as -> by apply Hl. auto.
Qed.

Lemma pop_cas_ok m r h y k l1 l2 held l : conc_inv m (l1 ++ PopCas r h y k :: l2) held l ->
  k = true \/ get32 m (o + 8) <> h ->
  access_ok (mkLst m (l1 ++ PopCas r h y k :: l2) held) (length l1) (PopCas r h y k).
Proof.
  intros H Hk. pose proof (ci_fits _ _ _ _ H) as Hf. pose proof (head_valid _ _ _ _ H) as Hh.
  pose proof (slot_bounds o n c m _ Hf Hh) as Hb. unfold access_ok. cbn [list_access lmem].
  change (head_ (blist o n c)) with (o + 8). destruct (decide (get32 m (o + 8) = h)) as [Eh|Eh].
  - destruct Hk as [->|]; [|contradiction]. rewrite cas_u32_hit by (lia || exact Eh). cbn [mbind option_bind].
    destruct (inv_pop _ _ _ _ _ _ _ _ H) as (l' & Hl'). thread_done l'.
    rewrite fmap_app, fmap_cons. replace (length l1) with (length (passed h <$> l1)) by apply length_fmap.
    now rewrite insert_middle.
  - rewrite cas_u32_miss by (lia || exact Eh). cbn [mbind option_bind]. thread_done l.
    eapply move_read; [exact H|reflexivity..|exact I].
Qed.

Lemma own_ok m l1 pc l2 held l : conc_inv m (l1 ++ pc :: l2) held l -> is_Some (own_of pc) ->
  access_ok (mkLst m (l1 ++ pc :: l2) held) (length l1) pc.
Proof.
  intros H [x Hx]. pose proof (ci_fits _ _ _ _ H) as Hf.
  pose proof (own_valid _ _ _ _ _ _ _ H Hx) as Hv. pose proof (slot_bounds o n c m x Hf Hv) as Hb.
  pose proof (ci_threads _ _ _ _ H) as Ht. rewrite Forall_app, Forall_cons in Ht. destruct Ht as (_ & Ht & _).
  assert (forall b, region o + x + 4 <= b < region o + x + 20 -> slot_bytes o c [x] b) as Hsb.
  { intros b Hbx. exists x. split; [constructor|lia]. }
  unfold access_ok. destruct pc; cbn in Hx; try discriminate Hx; injection Hx as ->; cbn [list_access lmem];
    change (buffer_region_ (blist o n c)) with (region o); change (tail_ (blist o n c)) with (o + 12);
    change (counter_ (blist o n c)) with (o + 20); consts; hdr_run; shm_run.
  - thread_done l. eapply (move_own m _ _ _ _ _ _ _ x); [exact H| |reflexivity..|exact I].
    apply same_but_put8; [apply same_but_refl|]. apply Hsb. lia.
  - thread_done l. eapply move_read; [exact H|reflexivity..|exact I].
  - thread_done l. eapply (move_own m _ _ _ _ _ _ _ x); [exact H| |reflexivity..|exact I].
    apply same_but_put8; [apply same_but_refl|]. apply Hsb. lia.
  - thread_done l. eapply (move_count m l1 (PopCount x) LIdle l2 held _ l 1); [exact H| |reflexivity..|intros; exact I].
    cbn. now rewrite app_nil_r, Permutation_app_comm.
  - thread_done l. eapply (move_own m _ _ _ _ _ _ _ x); [exact H| |reflexivity..|].
    + repeat first [apply same_but_put32|apply same_but_put8|apply same_but_refl]; intros; apply Hsb; lia.
    + cbn. unfold cleared, h_flag, h_size, h_start. shm_simp. auto.
  - thread_done l. eapply move_read; [exact H|reflexivity..|exact Ht].
  - destruct (decide (get32 m (o + 12) = t)) as [<-|Et].
    + rewrite cas_u32_hit by (lia || reflexivity). cbn [mbind option_bind]. thread_done (l ++ [x]). now apply inv_push.
    + rewrite cas_u32_miss by (lia || exact Et). cbn [mbind option_bind]. thread_done l.
      eapply move_read; [exact H|reflexivity..|exact Ht].
Qed.

Lemma link_ok m l1 pc l2 held l : conc_inv m (l1 ++ pc :: l2) held l -> is_Some (link_of pc) ->
  access_ok (mkLst m (l1 ++ pc :: l2) held) (length l1) pc.
Proof.
  intros H [[t x] Hl]. pose proof (ci_fits _ _ _ _ H) as Hf.
  destruct (link_valid _ _ _ _ _ _ _ _ H Hl) as (Hv & Hvx & Ha & Hft).
  pose proof (slot_bounds o n c m t Hf Hv) as Hb. pose proof (slot_bounds o n c m x Hf Hvx) as Hbx.
  pose proof (ci_threads _ _ _ _ H) as Ht. rewrite Forall_app, Forall_cons in Ht. destruct Ht as (_ & Ht & _).
  assert (forall m', same_but (slot_bytes o c [t]) m m' ->
    outside [t] m m' /\ forall a, o <= a -> a + 4 <= o + 36 -> get32 m' a = get32 m a) as Hout
    by (intros m'; apply slots_outside; [exact Hf|now constructor]).
  unfold access_ok. destruct pc; cbn in Hl; try discriminate Hl; injection Hl as -> ->; cbn [list_access lmem];
    change (buffer_region_ (blist o n c)) with (region o); consts; shm_run.
  - destruct (Hout (put32 m (region o + t + 12) x)) as [Ho Hw].
    { apply same_but_put32; [apply same_but_refl|]. intros b ?. exists t. split; [constructor|lia]. }
    thread_done l. eapply (inv_link m _ l1 (PushLink x t)); [exact H|exact Ho| | | |now left|reflexivity..|].
    1: intros a ?; apply Hw; lia.
    all: cbn; unfold h_size, h_start, h_next, h_flag in *; shm_simp; auto.
  - thread_done l. eapply move_read; [exact H|reflexivity..|]. cbn in Ht |- *. tauto.
  - cbn in Ht. destruct Ht as (_ & _ & Hnx & ->).
    destruct (Hout (put8 m (region o + t + 16) (Z.lor 0 1))) as [Ho Hw].
    { apply same_but_put8; [apply same_but_refl|]. exists t. split; [constructor|lia]. }
    thread_done l. eapply (inv_link m _ l1 (PushFlagged x t 0)); [exact H|exact Ho| | | | |reflexivity..|exact I].
    1: intros a ?; apply Hw; lia.
    3: right; split; [reflexivity|]; split.
    all: unfold h_size, h_start, h_next, h_flag in *; shm_simp; auto.
Qed.

Lemma push_count_ok m l1 pc l2 held l : conc_inv m (l1 ++ pc :: l2) held l ->
  match pc with PushSize | PushCount => True | _ => False end ->
  access_ok (mkLst m (l1 ++ pc :: l2) held) (length l1) pc.
Proof.
  intros H Hpc. pose proof (ci_fits _ _ _ _ H) as Hf.
  pose proof (slot_bounds o n c m _ Hf (head_valid _ _ _ _ H)) as Hb.
  unfold access_ok. destruct pc; cbn in Hpc; try contradiction; cbn [list_access lmem];
    change (size_ (blist o n c)) with o; change (counter_ (blist o n c)) with (o + 20); shm_run.
  - thread_done l. apply (move_size m l1 PushSize PushCount l2 held l 1 H); auto.
  - thread_done l. apply (move_count m l1 PushCount LIdle l2 held held l (-1) H); auto.
Qed.

Lemma access_ok_any m l1 pc l2 held l : conc_inv m (l1 ++ pc :: l2) held l -> pc <> LIdle ->
  ~ head_reused (blist o n c) (mkLst m (l1 ++ pc :: l2) held) (length l1) ->
  access_ok (mkLst m (l1 ++ pc :: l2) held) (length l1) pc.
Proof.
  intros H Hi Hr. pose proof (pop_size_ok _ _ _ _ _ _ H) as H1. pose proof (pop_next_ok _ _ _ _ _ _ H) as H2.
  pose proof (own_ok _ _ _ _ _ _ H) as H3. pose proof (link_ok _ _ _ _ _ _ H) as H4.
  pose proof (push_count_ok _ _ _ _ _ _ H) as H5. destruct pc; try contradiction; eauto.
  eapply pop_cas_ok; [exact H|]. destruct current; [now left|right]. intros Eh. apply Hr. exists r, h, next.
  pose proof (slot_bounds o n c m _ (ci_fits _ _ _ _ H) (head_valid _ _ _ _ H)).
  cbn [threads lmem]. rewrite list_lookup_middle by reflexivity. split; [reflexivity|].
  change (head_ (blist o n c)) with (o + 8). rewrite load_u32_in by lia. now rewrite Eh.
Qed.

Lemma list_inv_at s i pc : list_inv s -> threads s !! i = Some pc ->
  exists l1 l2 l, s = mkLst (lmem s) (l1 ++ pc :: l2) (out s) /\ i = length l1 /\
    conc_inv (lmem s) (l1 ++ pc :: l2) (out s) l.
Proof.
  intros [l H] Hi. destruct s as [m ps held]. cbn in *.
  apply list_elem_of_split_length in Hi as (l1 & l2 & -> & ->). eauto 8.
Qed.

Lemma exec_inv s a s' : list_inv s -> list_exec (blist o n c) s a = Some s' ->
  (forall i, a = Access i -> ~ head_reused (blist o n c) s i) -> list_inv s'.
Proof.
  intros Hs E Hr. destruct a as [i|i k|i]; cbn in E; apply bind_Some in E as (pc & Hi & E);
    destruct (list_inv_at s i pc Hs Hi) as (l1 & l2 & l & Es & -> & H).
  - destruct pc; try discriminate E. apply bind_Some in E as (h & Eh & E). injection E as <-.
    pose proof (head_valid _ _ _ _ H) as Hv. pose proof (slot_bounds o n c _ _ (ci_fits _ _ _ _ H) Hv).
    change (head_ (blist o n c)) with (o + 8) in Eh. rewrite load_u32_in in Eh by lia. injection Eh as <-.
    rewrite Es. exists l. cbn [set_thread lmem threads out]. rewrite insert_middle.
    eapply move_read; [exact H|reflexivity..|]. split; [exact Hv|]. intros _. apply H.
  - destruct pc; try discriminate E. apply bind_Some in E as (x & Ex & E). injection E as <-.
    rewrite Es. exists l. cbn [set_thread set_out lmem threads out]. rewrite insert_middle.
    pose proof (get32_range (lmem s) o). pose proof (get32_range (lmem s) (o + 20)).
    eapply inv_move; [exact H|apply outside_refl| |reflexivity| |reflexivity|exact I| |].
    + intros z Hz. now apply not_elem_of_nil in Hz.
    + cbn. rewrite app_nil_r, Permutation_app_comm. symmetry. now apply delete_Permutation.
    + cbn. rewrite Z.add_0_r, u32_id; auto.
    + cbn. rewrite Z.add_0_r, u32_id; auto.
  - assert (pc <> LIdle) as Hne by (intros ->; discriminate E).
    destruct (access_ok_any _ _ _ _ _ _ H Hne) as (s1 & E1 & H1); [rewrite <- Es; now apply Hr|].
    rewrite <- Es in E1. congruence.
Qed.

Lemma write_inv s s' : list_inv s -> list_write (blist o n c) (stride c) s s' -> list_inv s'.
Proof.
  intros [l H] (Ht & Ho & Hw). exists l. rewrite Ht, Ho.
  destruct (inv_slots _ _ _ _ H) as (_ & Hnd & Hdis & Hv & [Hvo Hvh]%Forall_app).
  destruct (slots_outside (lmem s) (lmem s') (out s) (ci_fits _ _ _ _ H) Hvo Hw) as [Hout Hwd].
  apply NoDup_app in Hnd as (_ & Hd & _). rewrite Forall_forall in Hv, Hvh.
  assert (forall x, x ∈ out s -> x ∉ l) as Hxl by (intros x Hx Hl; apply (Hdis x Hl); set_solver).
  eapply inv_keep; [exact H|exact Hout|exact Hxl| |reflexivity|reflexivity| | |].
  - intros a ?. apply Hwd; lia.
  - pose proof (ci_threads _ _ _ _ H) as Hth. rewrite Forall_forall in *. intros q Hq.
    apply (pc_ok_frame (lmem s)); [| |auto].
    + intros x Hx. apply Hout; [auto|]. intros Hx'. exact (Hxl x Hx' Hx).
    + intros x Hx. assert (x ∈ omap own_of (threads s)) as Hin by (apply list_elem_of_omap; eauto).
      apply Hout; [auto|]. intros Hx'. exact (Hd x Hx' Hin).
  - rewrite Hwd by lia. apply H.
  - rewrite Hwd by lia. apply H.
Qed.

Lemma clean_inv s s' : list_inv s -> clean_step (blist o n c) (stride c) s s' -> list_inv s'.
Proof. intros H [(a & E & Hr)|Hw]; [now apply (exec_inv s a)|now apply (write_inv s)]. Qed.

(** ** Start and rest *)

Lemma chained_links m l : (forall x y, adjacent l x y -> linked m x y) ->
  (forall t, last l = Some t -> h_flag o m t = 0) -> chained o m l.
Proof.
  induction l as [|x [|y l] IH]; intros Hl He; cbn; [exact I|now apply He|].
  destruct (Hl x y) as [? ?]; [now exists [], l|]. split; [assumption|]. split; [assumption|].
  apply IH; [|exact He]. intros. now apply Hl, adjacent_cons.
Qed.

Lemma links_chained m l : chained o m l ->
  (forall x y, adjacent l x y -> linked m x y) /\ (forall t, last l = Some t -> h_flag o m t = 0).
Proof.
  induction l as [|x [|y l] IH]; cbn [chained]; intros Hc.
  - split; [intros ? ? ([|] & ? & ?); discriminate|discriminate].
  - split; [intros ? ? ([|? [|]] & ? & ?); discriminate|]. cbn. congruence.
  - destruct Hc as (? & ? & Hc). destruct (IH Hc) as [Hl He]. split; [|exact He].
    intros z w [[-> Ew]|Ha]%adjacent_cons_inv; [|auto]. cbn in Ew. injection Ew as <-. now split.
Qed.

Lemma zsum_idle f k : f LIdle = 0 -> zsum f (replicate k LIdle) = 0.
Proof. intros Hf. induction k; [reflexivity|]. cbn. unfold zsum in IHk. lia. Qed.

Lemma omap_idle {B} (f : lpc -> option B) k : f LIdle = None -> omap f (replicate k LIdle) = [].
Proof. intros Hf. induction k; [reflexivity|]. cbn. now rewrite Hf. Qed.

(** The state in which nobody is at work is the one of the sequential theorems. *)
Lemma rest_iff m k held l : bl_rep o n c m l /\ l <> [] /\ l ++ held ≡ₚ all_slots n c <->
  conc_inv m (replicate k LIdle) held l.
Proof.
  split.
  - intros (Hrep & Hne & Hp). pose proof Hrep as [Hf Hnd Hv Hs Hcap Hh Ht Hper Hcnt Hch Hz Hcaps].
    destruct (links_chained m l Hch) as [Hl He]. pose proof (free_length n c l ltac:(apply Hf) Hnd Hv).
    pose proof (get32_range m (o + 20)).
    constructor; rewrite ?zsum_idle, ?omap_idle, ?app_nil_r by reflexivity; auto.
    + constructor.
    + apply Forall_replicate. exact I.
    + rewrite Z.sub_0_r, <- Hs, u32_id; [reflexivity|]. apply get32_range.
    + rewrite Z.sub_0_r, <- Hcnt. mlia.
  - intros H. destruct (inv_slots _ _ _ _ H) as (Hnd & _ & _ & Hv & _).
    pose proof (head_valid _ _ _ _ H) as Hhv. pose proof (slot_bounds o n c m _ (ci_fits _ _ _ _ H) Hhv).
    pose proof (free_length n c l ltac:(lia) Hnd Hv).
    destruct H as [Hf Hp H4 H8 H12 H16 Hc Hz He Hli _ _ Hs Hcnt].
    rewrite ?zsum_idle, ?omap_idle, ?app_nil_r, ?Z.sub_0_r in * by reflexivity.
    split; [|split; [intros ->; discriminate H8|exact Hp]]. constructor; auto.
    + rewrite Hs, u32_id by lia. reflexivity.
    + rewrite Hcnt, i32_u32, i32_id by lia. reflexivity.
    + apply chained_links.
      * intros x y Ha. destruct (Hli x y Ha) as [?|Hin]; [assumption|]. now apply not_elem_of_nil in Hin.
      * intros t Et. congruence.
Qed.
End inv.

Lemma access_defined o n c s i pc : list_inv o n c s -> threads s !! i = Some pc -> pc <> LIdle ->
  is_Some (list_access (blist o n c) s i pc).
Proof.
  intros Hs Hi Hne. destruct (list_inv_at o n c s i pc Hs Hi) as (l1 & l2 & l & Es & -> & H).
  assert ((exists r h y, pc = PopCas r h y false) \/ ~ exists r h y, pc = PopCas r h y false)
    as [(r & h & y & ->)|Hn] by (destruct pc as [| | | | |r h y []| | | | | | | | | | | | | |]; naive_solver).
  - pose proof (slot_bounds o n c _ _ (ci_fits _ _ _ _ _ _ _ H) (head_valid _ _ _ _ _ _ _ H)).
    cbn [list_access]. unfold cas_u32. change (head_ (blist o n c)) with (o + 8).
    rewrite in_bounds_true by lia. cbv zeta. case_if; cbn; eauto.
  - destruct (access_ok_any o n c _ _ _ _ _ _ H Hne) as (s1 & E1 & _).
    + intros (r & h & y & E & _). cbn in E. rewrite list_lookup_middle in E by reflexivity.
      injection E as ->. eauto.
    + rewrite <- Es in E1. eauto.
Qed.

(** * Runs *)

Lemma list_run_steps b stride l : forall s s', list_run b s l = Some s' -> rtc (list_step b stride) s s'.
Proof.
  unfold list_run. induction l as [|a l IH]; intros s s' E; cbn [foldl] in E; [injection E as <-; apply rtc_refl|].
  cbn [mbind option_bind] in E. destruct (list_exec b s a) as [s1|] eqn:E1.
  - eapply rtc_l; [left; eauto|]. now apply IH.
  - exfalso. clear IH E1. induction l as [|a' l IH]; [discriminate E|]. now apply IH.
Qed.

(** * Theorems *)

(** C8: Any number of threads of the processes that share a list made by
    [create] [pop] from it and [push] to it at the same time, one access to the
    mapping at a time, and write to the slices they were given.  As long as no
    exchange of the head succeeds on a head that was taken and came back since
    it was read: every access lies in the list, the slices that are out or in
    the hands of a thread inside [pop] or [push] are different slices of the
    list, one slice at least stays on it, and whenever no thread is inside the
    list is a chain of exactly the slices that are not out, its two counts
    right. *)
Theorem list_exclusive o n c m0 :
  list_fits o n c (shm_len m0) -> shm_len m0 < 4294967296 ->
  exists m, BList.create m0 n c (shm_len m0) o = Some (Ok (blist o n c), m) /\
  forall k s, rtc (clean_step (blist o n c) (stride c)) (mkLst m (replicate k LIdle) []) s ->
    (forall i pc, threads s !! i = Some pc -> pc <> LIdle -> is_Some (list_access (blist o n c) s i pc)) /\
    NoDup (out s ++ in_hand s) /\ Forall (valid_slot n c) (out s ++ in_hand s) /\
    Z.of_nat (length (out s ++ in_hand s)) < n /\
    (Forall (eq LIdle) (threads s) ->
     (exists free, bl_rep o n c (lmem s) free /\ free ++ out s ≡ₚ all_slots n c) /\
     BList.size_load (lmem s) (blist o n c) = Some (n - Z.of_nat (length (out s))) /\
     BList.counter_load (lmem s) (blist o n c) = Some (Z.of_nat (length (out s)))).
Proof.
  intros Hfit Hlen. destruct (create_ok o n c m0 Hfit Hlen) as (m & Hc & Hrep & Hout).
  pose proof Hfit as (_ & Hn & Hc0 & _). exists m. split; [exact Hc|]. intros k s Hr.
  assert (list_inv o n c s) as Hs.
  { eapply rtc_invariant; [apply clean_inv| |exact Hr]. exists (all_slots n c). apply rest_iff. cbn.
    rewrite app_nil_r. split; [exact Hrep|]. split; [|reflexivity]. intros E.
    pose proof (rep_head _ _ _ _ _ Hrep) as Hh. rewrite E in Hh. discriminate Hh. }
  split; [intros; now apply access_defined|]. destruct Hs as [l H].
  destruct (inv_slots _ _ _ _ _ _ _ H) as (_ & Hnd & _ & _ & Hv). split; [exact Hnd|]. split; [exact Hv|].
  split.
  - pose proof (Permutation_length (ci_perm _ _ _ _ _ _ _ H)) as Hp. unfold all_slots in Hp.
    rewrite length_app, length_fmap, length_seq in Hp. unfold in_hand.
    pose proof (ci_head _ _ _ _ _ _ _ H) as Hh. destruct l; [discriminate Hh|]. cbn in Hp. lia.
  - intros Hi. assert (threads s = replicate (length (threads s)) LIdle) as Et.
    { symmetry. apply replicate_as_elem_of. split; [reflexivity|]. rewrite Forall_forall in Hi. intros q Hq. symmetry. auto. }
    rewrite Et in H. apply rest_iff in H as (Hrep' & _ & Hp). split; [eauto|].
    destruct (pool_counts o n c _ _ _ Hrep' Hp) as (_ & _ & Hl & -> & ->). split; f_equal; lia.
Qed.

Lemma list_exclusive_witness :
  list_fits 8 3 4 (shm_len (zero_shm 200)) /\
  exists m, BList.create (zero_shm 200) 3 4 200 8 = Some (Ok (blist 8 3 4), m) /\
    BList.size_load m (blist 8 3 4) = Some 3.
Proof.
  assert (list_fits 8 3 4 (shm_len (zero_shm 200))) as Hf by (cbv; repeat split; discriminate).
  split; [exact Hf|].
  destruct (list_exclusive 8 3 4 (zero_shm 200) Hf eq_refl) as (m & Hc & H).
  exists m. split; [exact Hc|].
  destruct (H 2%nat _ (rtc_refl _ _)) as (_ & _ & _ & _ & Hi).
  destruct Hi as (_ & Hs & _); [repeat constructor|]. exact Hs.
Defined.

(** ** One call at a time *)

(** Thread 0 runs on, nobody else being there. *)
Definition alone (b : BufferList) : lst -> lst -> Prop := rtc (fun s s' => list_exec b s (Access 0) = Some s').

(** The slices that are out after a [pop]. *)
Definition popped (b : BufferList) (r : result BufferSlice) (held : list Z) : list Z :=
  match r with
  | Ok s => match buffer_header s with Some p => p - buffer_region_ b :: held | None => held end
  | _ => held
  end.

Ltac invert_binds :=
  repeat match goal with
  | H : mbind _ _ = Some _ |- _ => apply bind_Some in H as (? & ? & H)
  | p : (_ * _)%type |- _ => destruct p
  end.

Lemma alone_access b m pc held s' s'' : list_access b (mkLst m [pc] held) 0 pc = Some s' ->
  alone b s' s'' -> alone b (mkLst m [pc] held) s''.
Proof. intros E H. eapply rtc_l; [exact E|exact H]. Qed.

Lemma cas_u32_inv m a e d ok v m' : cas_u32 m a e d = Some (ok, v, m') ->
  if ok then v = e else m' = m.
Proof.
  unfold cas_u32. destruct (in_bounds m a 4); [|discriminate]. cbv zeta.
  destruct (Z.eqb_spec (get32 m a) e); intros [= <- <- <-]; auto.
Qed.

(** The end of [pop], and of [push], once the exchange has succeeded. *)
Lemma alone_undo b m held v m' : fetch_add_i32 m (size_ b) 1 = Some (v, m') ->
  alone b (mkLst m [PopUndo] held) (mkLst m' [LIdle] held).
Proof. intros E. eapply alone_access; [cbn; rewrite E; reflexivity|apply rtc_refl]. Qed.

Lemma alone_taken b m held h m1 m2 v m3 : BufferHeader.clear_flag m (buffer_region_ b + h) = Some m1 ->
  BufferHeader.set_in_used m1 (buffer_region_ b + h) = Some m2 -> fetch_add_i32 m2 (counter_ b) 1 = Some (v, m3) ->
  alone b (mkLst m [PopClear h] held) (mkLst m3 [LIdle] (h :: held)).
Proof.
  intros E1 E2 E3. apply bind_Some in E2 as (f & Ef & E2).
  eapply alone_access; [cbn; rewrite E1; reflexivity|]. eapply alone_access; [cbn; rewrite Ef; reflexivity|].
  eapply alone_access; [cbn; rewrite E2; reflexivity|]. eapply alone_access; [cbn; rewrite E3; reflexivity|].
  apply rtc_refl.
Qed.

Lemma make_header m p d len off s : Slice.make m (Some p) d len off true = Some s -> buffer_header s = Some p.
Proof.
  unfold Slice.make. destruct (len =? 0); [discriminate|]. intros E. invert_binds. now injection E as <-.
Qed.

Lemma alone_pop_loop b held r : forall m h k res m', BList.pop_loop r m b h = Some (res, m') ->
  alone b (mkLst m [match r with O => PopUndo | S r' => PopHas r' h k end] held)
    (mkLst m' [LIdle] (popped b res held)).
Proof.
  induction r as [|r IH]; intros m h k res m' E; cbn [BList.pop_loop] in E.
  - apply bind_Some in E as ([v m1] & E1 & E). injection E as <- <-. now apply (alone_undo b m held v).
  - apply bind_Some in E as ([] & E1 & E).
    + apply bind_Some in E as (y & E2 & E). apply bind_Some in E as ([[ok v] m1] & E3 & E).
      pose proof (cas_u32_inv _ _ _ _ _ _ _ E3) as Hv.
      eapply alone_access; [cbn; rewrite E1; reflexivity|]. eapply alone_access; [cbn; rewrite E2; reflexivity|].
      destruct ok; subst; (eapply alone_access; [cbn; rewrite E3; reflexivity|]).
      * apply bind_Some in E as (m2 & E4 & E). apply bind_Some in E as (m3 & E5 & E).
        apply bind_Some in E as ([w m4] & E6 & E). apply bind_Some in E as (per & E7 & E).
        apply bind_Some in E as (s & E8 & E). injection E as <- <-.
        unfold popped. rewrite (make_header _ _ _ _ _ _ E8). replace (_ + h - _) with h by lia.
        exact (alone_taken b m1 held h m2 m3 w m4 E4 E5 E6).
      * apply bind_Some in E as (h' & E4 & E). eapply alone_access; [cbn; rewrite E4; reflexivity|].
        apply (IH m h' true res m' E).
    + apply bind_Some in E as (z & E2 & E).
      eapply alone_access; [cbn; rewrite E1; reflexivity|]. eapply alone_access; [cbn; rewrite E2; reflexivity|].
      destruct (z <=? 1).
      * apply bind_Some in E as ([v m1] & E3 & E). injection E as <- <-. now apply (alone_undo b m held v).
      * apply bind_Some in E as (h' & E3 & E). eapply alone_access; [cbn; rewrite E3; reflexivity|].
        apply (IH m h' true res m' E).
Qed.

Lemma alone_pop b m held res m' : BList.pop m b = Some (res, m') ->
  exists s, list_exec b (mkLst m [LIdle] held) (Pop 0) = Some s /\
    alone b s (mkLst m' [LIdle] (popped b res held)).
Proof.
  intros E. apply bind_Some in E as (h & E1 & E). apply bind_Some in E as ([v m1] & E2 & E).
  apply bind_Some in E as (none & E3 & E). eexists. split; [cbn; rewrite E1; reflexivity|].
  assert (list_access b (mkLst m [PopSub h true] held) 0 (PopSub h true) =
    Some (mkLst m1 [if none then PopUndo else PopHas (pred BList.pop_retries) h true] held)) as Ea.
  { cbn [list_access lmem]. rewrite E2. cbn [mbind option_bind]. destruct (v <=? 1).
    - injection E3 as <-. reflexivity.
    - apply bind_Some in E3 as (per & E3 & E4). injection E4 as <-. rewrite E3. reflexivity. }
  eapply alone_access; [exact Ea|]. destruct none.
  - apply bind_Some in E as ([w m2] & E4 & E). injection E as <- <-. now apply (alone_undo b m1 held w).
  - apply (alone_pop_loop b held BList.pop_retries m1 h true res m' E).
Qed.

Lemma alone_push b m held k s x m' : BList.push m b s = Some m' -> held !! k = Some x ->
  buffer_header s = Some (buffer_region_ b + x) ->
  u32 (offset_in_shm s - buffer_region_offset_in_shm_ b) = x ->
  exists s1, list_exec b (mkLst m [LIdle] held) (Push 0 k) = Some s1 /\
    alone b s1 (mkLst m' [LIdle] (delete k held)).
Proof.
  intros E Hk Hh Hx. apply bind_Some in E as ([s2 m2] & E1 & E). unfold Slice.reset in E1. rewrite Hh in E1.
  apply bind_Some in E1 as (m1 & E1 & E2). injection E2 as <- ->.
  apply bind_Some in E1 as (ma & Ea & E1). apply bind_Some in E1 as (mb & Eb & E1).
  cbn [BList.push_loop offset_in_shm] in E. rewrite Hx in E.
  apply bind_Some in E as (t & E2 & E). apply bind_Some in E as ([[ok v] m3] & E3 & E).
  pose proof (cas_u32_inv _ _ _ _ _ _ _ E3) as Hv. destruct ok; [subst v|discriminate E].
  apply bind_Some in E as (m4 & E4 & E). apply bind_Some in E as ([? m5] & E5 & E).
  apply bind_Some in E as ([? m6] & E6 & E). injection E as ->.
  apply bind_Some in E4 as (mc & Ec & E4). apply bind_Some in E4 as (f & Ef & E4).
  eexists. split; [cbn; rewrite Hk; reflexivity|]. unfold set_out, set_thread. cbn [lmem threads out].
  eapply alone_access; [cbn; rewrite Ea; cbn; rewrite Eb; cbn; rewrite E1; reflexivity|].
  eapply alone_access; [cbn; rewrite E2; reflexivity|]. eapply alone_access; [cbn; rewrite E3; reflexivity|].
  eapply alone_access; [cbn; rewrite Ec; reflexivity|]. eapply alone_access; [cbn; rewrite Ef; reflexivity|].
  eapply alone_access; [cbn; rewrite E4; reflexivity|]. eapply alone_access; [cbn; rewrite E5; reflexivity|].
  eapply alone_access; [cbn; rewrite E6; reflexivity|]. apply rtc_refl.
Qed.

(** A list of four slices and three threads.  Thread 0 stops before its exchange
    of the head; thread 1 takes slices off the list and gives them back until
    the head thread 0 has read is the head again, with another successor. *)
Definition aba_list : BufferList := blist 0 4 8.
Definition aba_start : lst :=
  match BList.create (zero_shm 300) 4 8 300 0 with
  | Some (_, m) => mkLst m (replicate 3 LIdle) []
  | None => mkLst (zero_shm 300) [] []
  end.
Definition call_pop (i : nat) : list laction := Pop i :: replicate 8 (Access i).
Definition call_push (i k : nat) : list laction := Push i k :: replicate 8 (Access i).
Definition aba_first : list laction :=
  Pop 0 :: replicate 3 (Access 0) ++ call_pop 1 ++ call_pop 1 ++ call_push 1 1 ++ call_pop 1 ++
  call_push 1 0 ++ call_pop 1 ++ replicate 5 (Access 0).
Definition aba_middle : lst := default aba_start (list_run aba_list aba_start aba_first).
(** The holder of slice 28 links it in a message, in front of slice 84. *)
Definition aba_linked : lst :=
  set_lmem aba_middle (default (lmem aba_middle)
    (BufferHeader.link_next (lmem aba_middle) (buffer_region_ aba_list + 28) (buffer_region_ aba_list + 84))).
Definition aba_end : lst := default aba_linked (list_run aba_list aba_linked (call_push 1 1 ++ call_pop 2)).

Lemma list_run_default b stride s l : match list_run b s l with Some _ => true | None => false end = true ->
  rtc (list_step b stride) s (default s (list_run b s l)).
Proof. intros H. destruct (list_run b s l) as [s'|] eqn:E; [now apply (list_run_steps b stride l)|discriminate H]. Qed.

Lemma aba_write : list_step aba_list 28 aba_middle aba_linked.
Proof.
  assert (shm_len (lmem aba_middle) = 300) as Hl by (vm_compute; reflexivity).
  assert (existsb (Z.eqb 28) (out aba_middle) = true) as Hin by (vm_compute; reflexivity).
  unfold aba_linked. change (buffer_region_ aba_list) with 36. generalize dependent aba_middle. intros s Hl Hin.
  apply existsb_exists in Hin as (x & Hx & <-%Z.eqb_eq). rewrite <- list_elem_of_In in Hx.
  rewrite link_next_in by lia. right. split; [reflexivity|]. split; [reflexivity|]. cbn [lmem set_lmem default].
  apply same_but_put8; [apply same_but_put32; [apply same_but_refl|]|]; intros; exists 28;
    (split; [exact Hx|change (buffer_region_ aba_list) with 36; lia]).
Qed.

Lemma aba_start_eq : mkLst (lmem aba_start) (replicate 3 LIdle) [] = aba_start.
Proof. vm_compute. reflexivity. Qed.

Lemma aba_run : rtc (list_step aba_list 28) aba_start aba_end.
Proof.
  assert (rtc (list_step aba_list 28) aba_start aba_middle) as H1
    by (exact (list_run_default aba_list 28 aba_start aba_first ltac:(vm_compute; reflexivity))).
  assert (rtc (list_step aba_list 28) aba_linked aba_end) as H2
    by (exact (list_run_default aba_list 28 aba_linked (call_push 1 1 ++ call_pop 2) ltac:(vm_compute; reflexivity))).
  etransitivity; [exact H1|]. exact (rtc_l _ _ _ _ aba_write H2).
Qed.

(** C38: The restriction of the theorem above is needed: the exchange of the head
    has no version, so a thread that stopped in [pop] can succeed on a head that
    was taken and given back meanwhile, with the successor it read before.  From
    a list of four slices made by [create], three threads that [pop], [push] and
    write only to slices they hold come to a state where nobody is inside the
    list and one slice was given out twice. *)
Theorem list_aba :
  exists b m s, BList.create (zero_shm 300) 4 8 300 0 = Some (Ok b, m) /\
    rtc (list_step b 28) (mkLst m (replicate 3 LIdle) []) s /\
    threads s = replicate 3 LIdle /\ out s = [28; 0; 28].
Proof.
  exists aba_list, (lmem aba_start), aba_end. rewrite aba_start_eq.
  split; [vm_compute; reflexivity|]. split; [exact aba_run|]. split; vm_compute; reflexivity.
Qed.

(** Without interleaving the steps are the calls: whatever the mapping
    holds, the accesses of one thread that calls [pop] end in the memory
    [BList.pop] returns, with the slice it returns out, and those of one that
    calls [push] with a slice it holds end in the memory [BList.push] returns,
    with the slice no longer out. *)
Theorem list_alone b m held :
  (forall res m', BList.pop m b = Some (res, m') ->
     exists s, list_exec b (mkLst m [LIdle] held) (Pop 0) = Some s /\
       alone b s (mkLst m' [LIdle] (popped b res held))) /\
  (forall k x sl m', held !! k = Some x -> buffer_header sl = Some (buffer_region_ b + x) ->
     u32 (offset_in_shm sl - buffer_region_offset_in_shm_ b) = x -> BList.push m b sl = Some m' ->
     exists s, list_exec b (mkLst m [LIdle] held) (Push 0 k) = Some s /\
       alone b s (mkLst m' [LIdle] (delete k held))).
Proof.
  split; [intros res m'; apply alone_pop|]. intros k x sl m' Hk Hh Hx E.
  now apply (alone_push b m held k sl x m').
Qed.

Lemma list_alone_witness :
  match BList.pop (lmem aba_start) aba_list with
  | Some (res, m') =>
      popped aba_list res [] = [0] /\
      exists s, list_exec aba_list (mkLst (lmem aba_start) [LIdle] []) (Pop 0) = Some s /\
        alone aba_list s (mkLst m' [LIdle] (popped aba_list res []))
  | None => False
  end.
Proof.
  assert (match BList.pop (lmem aba_start) aba_list with
          | Some (res, _) => popped aba_list res [] = [0] | None => False end) as H by (vm_compute; reflexivity).
  destruct (BList.pop (lmem aba_start) aba_list) as [[res m']|] eqn:E; [|exact H].
  split; [exact H|]. exact (proj1 (list_alone aba_list (lmem aba_start) []) res m' E).
Defined.
