(* ===== verification/Manager.v ===== *)
(** The buffer pool ([include/shmipc/buffer/manager.hpp],
    [src/buffer/manager.cpp]): [BufferManager] over a mapping that holds an
    8-byte header and one [BufferList] per slice size.

    The mapping ([mem_]) is the [shm] the operations take; [mem_.size()] is its
    length.  The factory functions that open files and the table of managers of
    the process are in [Mapping]. *)
From S2P Require Import Prelude Errors Consts Config Shm Slices Pool BufList.

Record BufferManager := mkManager {
  lists_ : list BufferList;
  min_slice_size_ : Z;
  max_slice_size_ : Z;
  ref_count_ : Z;
  mem_map_type_ : MemMapType;
  path_ : string;
  memfd_ : Z;
}.

Module Manager.
(** The loop of [create] over the pairs left, the lists made so far in
    reverse. *)
Fixpoint create_lists (m : shm) (buffer_region_cap had_used_offset sum_percent : Z)
    (pairs : list SizePercentPair) (acc : list BufferList)
    : option (result (list BufferList * Z) * shm) :=
  match pairs with
  | [] => Some (Ok (reverse acc, had_used_offset), m)
  | pr :: pairs' =>
      let sum_percent := u32 (sum_percent + percent pr) in
      if 100 <? sum_percent then
        Some (Unexpected (error_other
          "the sum of all size_percent_pairs's percent must be equals 100"), m)
      else
      let buffer_num :=
        u32 (u64 (buffer_region_cap * percent pr) / 100 / (size pr + kBufferHeaderSize)) in
      let need_size := count_buffer_list_mem_size buffer_num (size pr) in
      '(r, m) ← BList.create m buffer_num (size pr) (shm_len m) had_used_offset;
      match r with
      | Unexpected e => Some (Unexpected e, m)
      | Ok b =>
          create_lists m buffer_region_cap (u32 (had_used_offset + need_size)) sum_percent
            pairs' (b :: acc)
      end
  end.

(** [list_size_percent.front()] of an empty span is undefined. *)
Definition create (m : shm) (list_size_percent : list SizePercentPair) (path : string)
    (offset : Z) : option (result BufferManager * shm) :=
  if shm_len m <=? offset then
    Some (Unexpected (error_other "mem's size is at least: %u, but: %zu"), m)
  else
  let buffer_region_cap :=
    u64 (shm_len m - offset -
         kBufferListHeaderSize * Z.of_nat (length list_size_percent) -
         kBufferManagerHeaderSize) in
  m ← store_u16 m offset (u16 (Z.of_nat (length list_size_percent)));
  let had_used_offset := u32 (kBufferManagerHeaderSize + offset) in
  '(r, m) ← create_lists m buffer_region_cap had_used_offset 0 list_size_percent [];
  match r with
  | Unexpected e => Some (Unexpected e, m)
  | Ok (free_buffer_lists, had_used_offset) =>
      m ← store_u32 m (offset + kBmCapOffset) (u32 (had_used_offset - kBufferManagerHeaderSize));
      first ← head list_size_percent;
      final ← last list_size_percent;
      Some (Ok (mkManager free_buffer_lists (size first) (size final) 1 kMemFd path 0), m)
  end.

(** The loop of [mapping]: [n] lists are left. *)
Fixpoint mapping_lists (m : shm) (start_offset had_used_offset : Z) (n : nat)
    (acc : list BufferList) : option (result (list BufferList)) :=
  match n with
  | O => Some (Ok (reverse acc))
  | S n' =>
      r ← BList.mapping m (shm_len m) (u32 (start_offset + had_used_offset));
      match r with
      | Unexpected e => Some (Unexpected e)
      | Ok l =>
          c ← BList.cap_load m l;
          per ← BList.cap_per_buffer m l;
          mapping_lists m start_offset
            (u32 (had_used_offset + count_buffer_list_mem_size c per)) n' (l :: acc)
      end
  end.

Definition mapping (m : shm) (path : string) (buffer_region_start_offset : Z)
    : option (result BufferManager) :=
  if (shm_len m <=? buffer_region_start_offset + kBmCapOffset) ||
     (shm_len m <=? buffer_region_start_offset) then
    Some (Unexpected (error_other
      "mem's size is at least:%u but:%zu buffer_region_start_offset:%u"))
  else
  list_num ← load_u16 m buffer_region_start_offset;
  length ← load_u32 m (buffer_region_start_offset + kBmCapOffset);
  if (shm_len m <? u32 (kBufferManagerHeaderSize + length)) || (list_num =? 0) then
    Some (Unexpected (error_other
      "could not mapping buffer manager ,list_num:%u len(mem) at least:%u but:%zu"))
  else
  r ← mapping_lists m buffer_region_start_offset kBufferManagerHeaderSize
        (Z.to_nat list_num) [];
  match r with
  | Unexpected e => Some (Unexpected e)
  | Ok free_lists =>
      first ← head free_lists;
      final ← last free_lists;
      lo ← BList.cap_per_buffer m first;
      hi ← BList.cap_per_buffer m final;
      Some (Ok (mkManager free_lists lo hi 1 kMemFd path 0))
  end.

Fixpoint remain_size_from (m : shm) (ls : list BufferList) (result : Z) : option Z :=
  match ls with
  | [] => Some result
  | l :: ls' =>
      s ← BList.size_load m l;
      per ← BList.cap_per_buffer m l;
      let remain := s * per in
      remain_size_from m ls' (if 0 <? remain then u32 (result + u32 remain) else result)
  end.
Definition remain_size (m : shm) (bm : BufferManager) : option Z :=
  remain_size_from m (lists_ bm) 0.

Fixpoint alloc_from (m : shm) (ls : list BufferList) (size : Z)
    : option (result BufferSlice * shm) :=
  match ls with
  | [] => Some (fail_with kNoMoreBuffer, m)
  | l :: ls' =>
      per ← BList.cap_per_buffer m l;
      if size <=? per then BList.pop m l else alloc_from m ls' size
  end.
Definition alloc_shm_buffer (m : shm) (bm : BufferManager) (size : Z)
    : option (result BufferSlice * shm) :=
  if size <=? max_slice_size_ bm then alloc_from m (lists_ bm) size
  else Some (fail_with kNoMoreBuffer, m).

(** The inner loop of [alloc_shm_buffers]: [pop] until enough or none; a list
    of [n] slices gives at most [n - 1]. *)
Fixpoint alloc_list (fuel : nat) (m : shm) (l : BufferList) (slices : SliceList)
    (remain alloc_size : Z) : option (SliceList * Z * Z * shm) :=
  if remain <=? 0 then Some (slices, remain, alloc_size, m) else
  match fuel with
  | O => None
  | S fuel' =>
      '(r, m) ← BList.pop m l;
      match r with
      | Unexpected _ => Some (slices, remain, alloc_size, m)
      | Ok buf =>
          slices ← SList.push_back slices buf;
          alloc_list fuel' m l slices (i64 (remain - cap buf)) (i64 (alloc_size + cap buf))
      end
  end.

(** The outer loop, over the lists from the largest slices down. *)
Fixpoint alloc_lists (m : shm) (ls : list BufferList) (slices : SliceList)
    (remain alloc_size : Z) : option (SliceList * Z * shm) :=
  match ls with
  | [] => Some (slices, alloc_size, m)
  | l :: ls' =>
      if remain <=? 0 then Some (slices, alloc_size, m) else
      n ← BList.cap_load m l;
      '(slices, remain, alloc_size, m) ← alloc_list (Z.to_nat n) m l slices remain alloc_size;
      alloc_lists m ls' slices remain alloc_size
  end.
Definition alloc_shm_buffers (m : shm) (bm : BufferManager) (slices : SliceList) (size : Z)
    : option (SliceList * Z * shm) :=
  alloc_lists m (reverse (lists_ bm)) slices size 0.

Fixpoint push_to (m : shm) (ls : list BufferList) (s : BufferSlice) : option shm :=
  match ls with
  | [] => Some m
  | l :: ls' =>
      per ← BList.cap_per_buffer m l;
      if cap s =? per then BList.push m l s else push_to m ls' s
  end.

Definition recycle_buffer (w : memory) (bm : BufferManager) (s : BufferSlice) : option memory :=
  if is_from_shm s then
    match buffer_header s with
    | None => Some w
    | Some h =>
        used ← BufferHeader.is_in_used (shared w) h;
        match used with
        | false => Some w
        | true => m ← push_to (shared w) (lists_ bm) s; Some (set_shared w m)
        end
    end
  else Some (Slice.destroy w s).

Definition read_buffer_slice (m : shm) (offset : Z) : option (result BufferSlice) :=
  if shm_len m <=? offset + kBufferHeaderSize then
    Some (Unexpected (error_other
      "broken share memory. readBufferSlice unexpect offset:%u buffers cap:%zu"))
  else
  buf_cap ← load_u32 m (offset + kBufferCapOffset);
  let buf_end_offset := u32 (u32 (offset + kBufferHeaderSize) + buf_cap) in
  if shm_len m <? buf_end_offset then
    Some (Unexpected (error_other
      "broken share memory. readBufferSlice unexpect buffer_end_offset:%u buffer_start_offset:%u buffers cap:%zu"))
  else
  s ← Slice.make m (Some offset) (InShm (offset + kBufferHeaderSize))
        (u32 (buf_end_offset - u32 (offset + kBufferHeaderSize))) offset true;
  Some (Ok s).

(** The slices of a chain, one per turn. *)
Fixpoint recycle_chain (fuel : nat) (w : memory) (bm : BufferManager) (s : BufferSlice)
    : option memory :=
  match fuel with
  | O => None
  | S fuel' =>
      h ← buffer_header s;
      more ← BufferHeader.has_next (shared w) h;
      match more with
      | false => recycle_buffer w bm s
      | true =>
          next_slice_offset ← BufferHeader.next_buffer_offset (shared w) h;
          w ← recycle_buffer w bm s;
          r ← read_buffer_slice (shared w) next_slice_offset;
          match r with
          | Unexpected _ => Some w
          | Ok next => recycle_chain fuel' w bm next
          end
      end
  end.
Definition recycle_buffers (fuel : nat) (w : memory) (bm : BufferManager) (s : BufferSlice)
    : option memory :=
  if is_from_shm s then recycle_chain fuel w bm s else Some (Slice.destroy w s).

Fixpoint slice_size_from (m : shm) (ls : list BufferList) (size : Z) : option Z :=
  match ls with
  | [] => Some size
  | l :: ls' => s ← BList.size_load m l; slice_size_from m ls' (i64 (size + s))
  end.
Definition slice_size (m : shm) (bm : BufferManager) : option Z :=
  slice_size_from m (lists_ bm) 0.

Fixpoint all_returned (m : shm) (ls : list BufferList) : option bool :=
  match ls with
  | [] => Some true
  | l :: ls' =>
      s ← BList.size_load m l;
      c ← BList.cap_load m l;
      if negb (s =? i32 c) then Some false else
      cnt ← BList.counter_load m l;
      if negb (cnt =? 0) then Some false else all_returned m ls'
  end.
Definition check_buffer_returned (m : shm) (bm : BufferManager) : option bool :=
  all_returned m (lists_ bm).
End Manager.

(** * The pool and its lists *)

(** A list of the pool: its place, its number of slices and their capacity. *)
Record lspec := mkSpec { lo : Z; ln : Z; lc : Z }.
Definition bl (s : lspec) : BufferList := blist (lo s) (ln s) (lc s).
Definition lend (s : lspec) : Z := lo s + 36 + ln s * stride (lc s).

(** The lists lie one behind the other from [start] on. *)
Fixpoint layout (start : Z) (specs : list lspec) : Prop :=
  match specs with
  | [] => True
  | s :: specs' => lo s = start /\ 0 <= lo s /\ 0 < ln s /\ 0 < lc s /\ layout (lend s) specs'
  end.

(** The slots [xs] of a list are out, the others free. *)
Definition list_own (m : shm) (s : lspec) (xs : list Z) : Prop :=
  exists free, bl_rep (lo s) (ln s) (lc s) m free /\ free <> [] /\
    free ++ xs ≡ₚ all_slots (ln s) (lc s).

Definition slots_of (s : lspec) (xs : list Z) : list slot :=
  (fun x => (region (lo s) + x, lc s)) <$> xs.
Fixpoint held_of (specs : list lspec) (xss : list (list Z)) : list slot :=
  match specs, xss with
  | s :: specs', xs :: xss' => slots_of s xs ++ held_of specs' xss'
  | _, _ => []
  end.

Record mgr_rep (bm : BufferManager) (m : shm) (specs : list lspec) (xss : list (list Z)) : Prop := {
  mr_lists : lists_ bm = bl <$> specs;
  mr_layout : exists start, layout start specs;
  mr_own : Forall2 (list_own m) specs xss;
  mr_caps : NoDup (lc <$> specs);
  mr_len : shm_len m < 4294967296;
}.

Definition mgr_own (bm : BufferManager) (m : shm) (held : list slot) : Prop :=
  exists specs xss, mgr_rep bm m specs xss /\ held ≡ₚ held_of specs xss.

(** ** Lists and their extents *)

Lemma list_own_fits m s xs : list_own m s xs ->
  list_fits (lo s) (ln s) (lc s) (shm_len m) /\ lend s <= shm_len m /\ lend s < 4294967296 /\
  NoDup xs /\ Forall (valid_slot (ln s) (lc s)) xs.
Proof.
  intros (free & Hrep & _ & Hp). pose proof Hrep as [Hf _ _ _ _ _ _ _ _ _ _ _].
  destruct (pool_counts _ _ _ m free xs Hrep Hp) as (Hnd & Hv & _).
  apply NoDup_app in Hnd as (_ & _ & Hnd). apply Forall_app in Hv as [_ Hv].
  destruct Hf as (? & ? & ? & ? & ?). unfold lend, list_fits, region in *. consts. auto 10.
Qed.

Lemma list_own_ext m m' s xs : shm_len m = shm_len m' ->
  (forall b, lo s <= b < lend s -> get8 m b = get8 m' b) ->
  list_own m s xs -> list_own m' s xs.
Proof.
  intros Hl Hb Hown. destruct (list_own_fits m s xs Hown) as ((? & ? & ? & ? & ?) & _).
  destruct Hown as (free & Hrep & Hne & Hp). exists free. split; [|auto].
  unfold lend in Hb. eapply (bl_rep_ext _ _ _ m m' free []); eauto. intros x Hx.
  now apply not_elem_of_nil in Hx.
Qed.

Lemma layout_ge specs : forall start t, layout start specs -> t ∈ specs ->
  start <= lo t /\ lo t + 36 <= lend t.
Proof.
  induction specs as [|s specs IH]; intros start t Hl Ht; [set_solver|].
  destruct Hl as (Hs & ? & ? & ? & Hl).
  assert (lo s + 36 <= lend s) by (unfold lend, stride; consts; nia).
  apply elem_of_cons in Ht as [->|Ht]; [lia|]. destruct (IH _ _ Hl Ht). lia.
Qed.

(** Two lists of the pool do not overlap. *)
Lemma layout_disjoint start a s b t : layout start (a ++ s :: b) -> t ∈ a ++ b ->
  lend t <= lo s \/ lend s <= lo t.
Proof.
  revert start. induction a as [|u a IH]; intros start Hl Ht; cbn in *.
  - destruct Hl as (_ & _ & _ & _ & Hl). right. now apply (layout_ge b).
  - destruct Hl as (_ & _ & _ & _ & Hl). apply elem_of_cons in Ht as [->|Ht]; [|eauto].
    left. apply (layout_ge _ _ s Hl). set_solver.
Qed.

Lemma own_focus m m' start a s b xa xs xs' xb :
  layout start (a ++ s :: b) -> length a = length xa ->
  Forall2 (list_own m) (a ++ s :: b) (xa ++ xs :: xb) ->
  same_outside (lo s) (lend s - lo s) m m' -> list_own m' s xs' ->
  Forall2 (list_own m') (a ++ s :: b) (xa ++ xs' :: xb).
Proof.
  intros Hl Hlen H Hout Hs'. apply Forall2_app_inv in H as [Ha Hb]; [|exact Hlen].
  apply Forall2_cons_1 in Hb as [_ Hb].
  assert (forall t ys, t ∈ a ++ b -> list_own m t ys -> list_own m' t ys) as Hoth.
  { intros t ys Ht. apply list_own_ext; [apply Hout|]. intros c Hc. apply Hout.
    pose proof (layout_disjoint start a s b t Hl Ht). lia. }
  apply Forall2_app; [|constructor; [exact Hs'|]].
  - eapply Forall2_impl_in; [|exact Ha]. intros t ys Ht. apply Hoth. set_solver.
  - eapply Forall2_impl_in; [|exact Hb]. intros t ys Ht. apply Hoth. set_solver.
Qed.

(** ** One list *)

(** The slots out are not in the way of the headers of the list and of slices
    that are not out. *)
Lemma foot_keeps m m' s xs ys :
  same_but (list_foot (lo s) ys) m m' -> 0 < lc s -> 0 < ln s ->
  Forall (valid_slot (ln s) (lc s)) xs -> Forall (valid_slot (ln s) (lc s)) ys ->
  (forall x, x ∈ ys -> x ∉ xs) ->
  keeps (slots_of s xs) m m' /\ same_outside (lo s) (lend s - lo s) m m'.
Proof.
  intros [Hl Hm] Hc Hn Hxs Hys Hdis. rewrite Forall_forall in Hxs, Hys.
  assert (stride (lc s) = lc s + 20) as Hst by reflexivity.
  assert (region (lo s) = lo s + 36) as Hreg by reflexivity.
  split; (split; [exact Hl|]).
  - intros t b Ht Hb. apply list_elem_of_fmap in Ht as (x & -> & Hx).
    unfold in_slot in Hb. cbn in Hb. apply Hm.
    destruct (valid_slot_range _ _ x Hc (Hxs x Hx)) as [? _].
    intros [Hb'|(y & Hy & Hb')]; consts; [lia|].
    assert (x <> y) as Hne by (intros ->; exact (Hdis y Hy Hx)).
    destruct (valid_slot_disjoint _ _ x y Hc (Hxs x Hx) (Hys y Hy) Hne); lia.
  - intros b Hb. apply Hm. intros [Hb'|(y & Hy & Hb')]; unfold lend in Hb; consts.
    + assert (0 <= ln s * stride (lc s)) by nia. lia.
    + destruct (valid_slot_range _ _ y Hc (Hys y Hy)). lia.
Qed.

Lemma list_pop m s xs : list_own m s xs ->
  (exists x m', BList.pop m (bl s) = Some (Ok (fresh_slice (region (lo s) + x, lc s)), m') /\
     list_own m' s (x :: xs) /\ keeps (slots_of s xs) m m' /\
     same_outside (lo s) (lend s - lo s) m m' /\ slot_flag m' (region (lo s) + x, lc s) = 2) \/
  (exists m', BList.pop m (bl s) = Some (fail_with kNoMoreBuffer, m') /\ m' ≡ m).
Proof.
  intros Hown. destruct (list_own_fits m s xs Hown) as ((_ & Hn & Hc & _) & _ & _ & Hnd & Hv).
  destruct Hown as (free & Hrep & Hne & Hp).
  destruct free as [|x [|y free]]; [contradiction| |].
  - right. destruct (pop_last _ _ _ m x Hrep) as (m' & Hpop & Heq). eauto.
  - left. destruct (pop_ok _ _ _ m x y free Hrep) as (m' & Hpop & Hrep' & Hfl & Hm).
    exists x, m'. destruct (pool_counts _ _ _ m _ xs Hrep Hp) as (Hnd' & Hv' & _).
    apply NoDup_app in Hnd' as (_ & Hdis & _). apply Forall_app in Hv' as [Hv' _].
    destruct (foot_keeps m m' s xs [x] Hm Hc Hn Hv) as [Hk Ho].
    { constructor; [now apply Forall_inv in Hv'|constructor]. }
    { intros z ->%list_elem_of_singleton. apply Hdis. constructor. }
    split; [exact Hpop|]. split; [|auto]. exists (y :: free). split; [exact Hrep'|].
    split; [discriminate|]. rewrite <- Hp. cbn. symmetry. apply (Permutation_middle (y :: free)).
Qed.

Lemma list_push m s xs x b : list_own m s (x :: xs) ->
  slice_of (region (lo s) + x, lc s) b ->
  exists m', BList.push m (bl s) b = Some m' /\ list_own m' s xs /\
    keeps (slots_of s xs) m m' /\ same_outside (lo s) (lend s - lo s) m m'.
Proof.
  intros Hown [Hhd _ _ Hoff _].
  destruct (list_own_fits m s _ Hown) as ((_ & Hn & Hc & _) & _ & _ & Hnd & Hv).
  apply NoDup_cons in Hnd as [Hx Hnd]. apply Forall_cons_1 in Hv as [Hxv Hv].
  destruct Hown as (free & Hrep & Hne & Hp).
  destruct (pool_counts _ _ _ m _ _ Hrep Hp) as (Hnd' & Hv' & _).
  apply NoDup_app in Hnd' as (_ & Hdis & _). apply Forall_app in Hv' as [Hv' _].
  destruct (push_ok _ _ _ m free x b Hrep Hne Hxv) as (m' & Hpush & Hrep' & Hm); auto.
  { intros Hxf. apply (Hdis x Hxf). constructor. }
  destruct (foot_keeps m m' s xs (x :: free) Hm Hc Hn Hv) as [Hk Ho].
  { now constructor. }
  { intros z [->|Hz]%elem_of_cons; [exact Hx|]. intros Hzx. apply (Hdis z Hz). now constructor. }
  exists m'. split; [exact Hpush|]. split; [|auto]. exists (free ++ [x]). split; [exact Hrep'|].
  split; [now destruct free|]. rewrite <- Hp, <- app_assoc. reflexivity.
Qed.

(** ** All the lists *)

Lemma held_app a b xa xb : length a = length xa ->
  held_of (a ++ b) (xa ++ xb) = held_of a xa ++ held_of b xb.
Proof.
  revert xa. induction a as [|s a IH]; intros [|x xa] H; try discriminate; cbn; [reflexivity|].
  injection H as H. now rewrite IH, app_assoc.
Qed.

Lemma held_in specs xss t : t ∈ held_of specs xss ->
  exists a s b xa xs xb x, specs = a ++ s :: b /\ xss = xa ++ xs :: xb /\
    length a = length xa /\ x ∈ xs /\ t = (region (lo s) + x, lc s).
Proof.
  revert xss. induction specs as [|s specs IH]; intros [|xs xss] Ht; cbn in Ht;
    try (now apply not_elem_of_nil in Ht).
  apply elem_of_app in Ht as [Ht|Ht].
  - apply list_elem_of_fmap in Ht as (x & -> & Hx). now exists [], s, specs, [], xs, xss, x.
  - destruct (IH xss Ht) as (a & s' & b & xa & xs' & xb & x & -> & -> & Hl & Hx & ->).
    exists (s :: a), s', b, (xs :: xa), xs', xb, x. cbn. auto 10.
Qed.

(** The slots of other lists are out of the extent of a list. *)
Lemma keeps_focus m m' start a s b xa xs xb :
  layout start (a ++ s :: b) -> length a = length xa ->
  Forall2 (list_own m) a xa -> Forall2 (list_own m) b xb ->
  same_outside (lo s) (lend s - lo s) m m' -> keeps (slots_of s xs) m m' ->
  keeps (held_of (a ++ s :: b) (xa ++ xs :: xb)) m m'.
Proof.
  intros Hl Hlen Ha Hb [Hlm Hout] [_ Hk]. split; [exact Hlm|]. intros t c Ht Hc.
  rewrite held_app in Ht by exact Hlen. cbn in Ht.
  assert (forall u ys, u ∈ a ++ b -> list_own m u ys -> t ∈ slots_of u ys ->
    get8 m c = get8 m' c) as Hoth.
  { intros u ys Hu Huo Hin. apply list_elem_of_fmap in Hin as (x & -> & Hx).
    destruct (list_own_fits m u ys Huo) as ((? & ? & Hcu & _) & _ & _ & _ & Hv).
    rewrite Forall_forall in Hv. destruct (valid_slot_range _ _ x Hcu (Hv x Hx)).
    pose proof (layout_disjoint start a s b u Hl Hu). unfold in_slot in Hc. cbn in Hc.
    apply Hout. unfold lend, stride, region in *. consts. lia. }
  apply elem_of_app in Ht as [Ht|Ht]; [|apply elem_of_app in Ht as [Ht|Ht]].
  - destruct (held_in _ _ _ Ht) as (a1 & u & b1 & xa1 & ys & xb1 & x & -> & -> & Hl1 & Hx & ->).
    apply Forall2_app_inv in Ha as [_ Ha]; [|exact Hl1]. apply Forall2_cons_1 in Ha as [Hu _].
    eapply Hoth; [|exact Hu|]; [set_solver|]. apply list_elem_of_fmap. eauto.
  - now apply (Hk t).
  - destruct (held_in _ _ _ Ht) as (a1 & u & b1 & xa1 & ys & xb1 & x & -> & -> & Hl1 & Hx & ->).
    apply Forall2_app_inv in Hb as [_ Hb]; [|exact Hl1]. apply Forall2_cons_1 in Hb as [Hu _].
    eapply Hoth; [|exact Hu|]; [set_solver|]. apply list_elem_of_fmap. eauto.
Qed.

Lemma list_own_loads m s xs : list_own m s xs ->
  BList.cap_per_buffer m (bl s) = Some (lc s) /\ BList.cap_load m (bl s) = Some (ln s).
Proof.
  intros Hown. destruct (list_own_fits m s xs Hown) as ((? & ? & ? & Hl & _) & _).
  destruct Hown as (free & [_ _ _ _ Hcap _ _ Hp _ _ _ _] & _).
  assert (0 <= ln s * stride (lc s)) by (unfold stride; consts; nia).
  unfold region in Hl. consts. unfold BList.cap_per_buffer, BList.cap_load.
  change (cap_per_buffer_ (bl s)) with (lo s + 16). change (cap_ (bl s)) with (lo s + 4).
  rewrite !load_u32_in by lia. now rewrite Hcap, Hp.
Qed.

Lemma alloc_from_focus m specs xss size : Forall2 (list_own m) specs xss ->
  Manager.alloc_from m (bl <$> specs) size = Some (fail_with kNoMoreBuffer, m) \/
  exists a s b, specs = a ++ s :: b /\ size <= lc s /\
    Manager.alloc_from m (bl <$> specs) size = BList.pop m (bl s).
Proof.
  induction 1 as [|s xs specs xss Hs _ IH]; cbn; [now left|].
  destruct (list_own_loads m s xs Hs) as [-> _]. cbn.
  destruct (Z.leb_spec size (lc s)).
  - right. exists [], s, specs. auto.
  - destruct IH as [IH|(a & t & b & -> & Ht & IH)]; [now left|right].
    exists (s :: a), t, b. auto.
Qed.

Lemma push_to_focus m a s b xss sl : Forall2 (list_own m) (a ++ s :: b) xss ->
  NoDup (lc <$> (a ++ s :: b)) -> cap sl = lc s ->
  Manager.push_to m (bl <$> (a ++ s :: b)) sl = BList.push m (bl s) sl.
Proof.
  revert xss. induction a as [|t a IH]; intros xss Hown Hnd Hc; cbn in *.
  - apply Forall2_cons_inv_l in Hown as (xs & xss' & Hs & _ & _).
    destruct (list_own_loads m s xs Hs) as [-> _]. cbn. now rewrite Hc, Z.eqb_refl.
  - apply Forall2_cons_inv_l in Hown as (xs & xss' & Ht & Hown & _).
    destruct (list_own_loads m t xs Ht) as [-> _]. cbn. apply NoDup_cons in Hnd as [Hni Hnd].
    destruct (Z.eqb_spec (cap sl) (lc t)) as [E|_]; [|now apply (IH xss')].
    destruct Hni. apply list_elem_of_fmap. exists s. split; [congruence|]. set_solver.
Qed.

(** A state of the pool after an operation on one of its lists. *)
Lemma mgr_rep_focus bm m m' a s b xa xs xs' xk xb :
  mgr_rep bm m (a ++ s :: b) (xa ++ xs :: xb) -> length a = length xa ->
  list_own m' s xs' -> same_outside (lo s) (lend s - lo s) m m' ->
  keeps (slots_of s xk) m m' ->
  mgr_rep bm m' (a ++ s :: b) (xa ++ xs' :: xb) /\
  keeps (held_of (a ++ s :: b) (xa ++ xk :: xb)) m m'.
Proof.
  intros [Hls [start Hlay] Hown Hcaps Hlen] Hl Hs' Hout Hk. split.
  - constructor; eauto using own_focus. now rewrite <- (proj1 Hout).
  - apply Forall2_app_inv in Hown as [Ha Hb]; [|exact Hl].
    apply Forall2_cons_1 in Hb as [_ Hb]. eapply keeps_focus; eauto.
Qed.

(** The lists split with the slots that are out. *)
Lemma own_split m a s b xss : Forall2 (list_own m) (a ++ s :: b) xss ->
  exists xa xs xb, xss = xa ++ xs :: xb /\ length a = length xa /\ list_own m s xs.
Proof.
  intros H. apply Forall2_app_inv_l in H as (xa & xb' & Ha & Hb & ->).
  apply Forall2_cons_inv_l in Hb as (xs & xb & Hs & _ & ->).
  exists xa, xs, xb. eauto using Forall2_length.
Qed.

(** ** Laws of the pool *)

Lemma held_cons a s b xa x xs xb : length a = length xa ->
  held_of (a ++ s :: b) (xa ++ (x :: xs) :: xb) ≡ₚ
  (region (lo s) + x, lc s) :: held_of (a ++ s :: b) (xa ++ xs :: xb).
Proof.
  intros Hl. rewrite !held_app by exact Hl. cbn. symmetry. apply Permutation_middle.
Qed.

Lemma held_perm a s b xa xs xs' xb : length a = length xa -> xs ≡ₚ xs' ->
  held_of (a ++ s :: b) (xa ++ xs :: xb) ≡ₚ held_of (a ++ s :: b) (xa ++ xs' :: xb).
Proof.
  intros Hl Hp. rewrite !held_app by exact Hl. cbn. unfold slots_of. now rewrite Hp.
Qed.

Lemma list_own_perm m s xs xs' : xs ≡ₚ xs' -> list_own m s xs -> list_own m s xs'.
Proof. intros Hp (free & ? & ? & H). exists free. now rewrite <- Hp. Qed.

(** Where a slot that is out lies. *)
Lemma held_slot bm m specs xss t : mgr_rep bm m specs xss -> t ∈ held_of specs xss ->
  exists a s b xa xs xb x, specs = a ++ s :: b /\ xss = xa ++ xs :: xb /\
    length a = length xa /\ x ∈ xs /\ list_own m s xs /\ valid_slot (ln s) (lc s) x /\
    t = (region (lo s) + x, lc s) /\ lo s + 36 <= t.1 /\ t.1 + 20 + t.2 <= lend s.
Proof.
  intros [_ _ Hown _ _] Ht.
  destruct (held_in _ _ _ Ht) as (a & s & b & xa & xs & xb & x & -> & -> & Hl & Hx & ->).
  apply Forall2_app_inv in Hown as [_ Hown]; [|exact Hl]. apply Forall2_cons_1 in Hown as [Hs _].
  destruct (list_own_fits m s xs Hs) as ((? & ? & Hc & _) & _ & _ & _ & Hv).
  rewrite Forall_forall in Hv. destruct (valid_slot_range _ _ x Hc (Hv x Hx)).
  exists a, s, b, xa, xs, xb, x. unfold lend, region, stride in *. cbn. consts.
  repeat split; auto; lia.
Qed.

Lemma mgr_own_slot bm m held t : mgr_own bm m held -> t ∈ held ->
  0 <= t.1 /\ 0 < t.2 /\ t.1 + 20 + t.2 <= shm_len m /\ t.1 + 20 + t.2 < 4294967296 /\
  get32 m t.1 = t.2.
Proof.
  intros (specs & xss & Hrep & Hp) Ht. rewrite Hp in Ht.
  destruct (held_slot _ _ _ _ _ Hrep Ht)
    as (a & s & b & xa & xs & xb & x & _ & _ & _ & _ & Hs & Hv & -> & H1 & H2).
  destruct (list_own_fits m s xs Hs) as ((? & ? & ? & _) & ? & ? & _).
  destruct Hs as (free & Hrs & _). pose proof (rep_caps _ _ _ _ _ Hrs x Hv) as Hcap.
  cbn in *. unfold h_cap in Hcap. repeat split; lia || exact Hcap.
Qed.

Lemma held_nodup bm m specs xss : mgr_rep bm m specs xss -> NoDup (held_of specs xss).
Proof.
  intros [_ [start Hlay] Hown _ _]. revert start Hlay.
  induction Hown as [|s xs specs xss Hs Hown IH]; cbn; intros start Hlay; [constructor|].
  destruct Hlay as (_ & _ & _ & _ & Hlay).
  destruct (list_own_fits m s xs Hs) as ((? & ? & Hc & _) & _ & _ & Hnd & Hv).
  apply NoDup_app. split; [|split; [|eauto]].
  - apply NoDup_fmap_2; [|exact Hnd]. intros x y [=]. lia.
  - intros t Ht Ht'. apply list_elem_of_fmap in Ht as (x & -> & Hx).
    rewrite Forall_forall in Hv. destruct (valid_slot_range _ _ x Hc (Hv x Hx)).
    destruct (held_in _ _ _ Ht') as (a & u & b & xa & ys & xb & y & -> & -> & Hl & Hy & E).
    apply Forall2_app_inv in Hown as [_ Hown]; [|exact Hl].
    apply Forall2_cons_1 in Hown as [Hu _].
    destruct (list_own_fits m u ys Hu) as ((? & ? & Hcu & _) & _ & _ & _ & Hvu).
    rewrite Forall_forall in Hvu. destruct (valid_slot_range _ _ y Hcu (Hvu y Hy)).
    destruct (layout_ge _ _ u Hlay) as [? _]; [set_solver|].
    injection E as E _. unfold lend, region, stride in *. consts. lia.
Qed.

Lemma mgr_own_disjoint bm m s held t : mgr_own bm m (s :: held) -> t ∈ held ->
  s.1 + 20 + s.2 <= t.1 \/ t.1 + 20 + t.2 <= s.1.
Proof.
  intros (specs & xss & Hrep & Hp) Ht.
  pose proof (held_nodup _ _ _ _ Hrep) as Hnd. rewrite <- Hp in Hnd.
  apply NoDup_cons in Hnd as [Hni _].
  assert (s ∈ held_of specs xss) as Hs by (rewrite <- Hp; constructor).
  assert (t ∈ held_of specs xss) as Ht' by (rewrite <- Hp; now constructor).
  destruct (held_slot _ _ _ _ _ Hrep Hs)
    as (a & u & b & xa & xs & xb & x & -> & -> & Hl & Hx & Hu & Hv & -> & H1 & H2).
  destruct Hrep as [_ [start Hlay] Hown _ _].
  rewrite held_app in Ht' by exact Hl. cbn in Ht'.
  apply Forall2_app_inv in Hown as [Ha Hb]; [|exact Hl]. apply Forall2_cons_1 in Hb as [_ Hb].
  assert (forall a1 u' b1 xa1 ys xb1 y, length a1 = length xa1 -> y ∈ ys ->
    Forall2 (list_own m) (a1 ++ u' :: b1) (xa1 ++ ys :: xb1) -> u' ∈ a ++ b ->
    t = (region (lo u') + y, lc u') -> t.1 + 20 + t.2 <= lo u \/ lend u <= t.1) as Hoth.
  { intros a1 u' b1 xa1 ys xb1 y Hl1 Hy Hf Hin ->.
    apply Forall2_app_inv in Hf as [_ Hf]; [|exact Hl1]. apply Forall2_cons_1 in Hf as [Hu' _].
    destruct (list_own_fits m u' ys Hu') as ((? & ? & Hcu & _) & _ & _ & _ & Hvu).
    rewrite Forall_forall in Hvu. destruct (valid_slot_range _ _ y Hcu (Hvu y Hy)).
    pose proof (layout_disjoint start a u b u' Hlay Hin). cbn.
    unfold lend, region, stride in *. consts. lia. }
  apply elem_of_app in Ht' as [Ht'|Ht']; [|apply elem_of_app in Ht' as [Ht'|Ht']].
  - destruct (held_in _ _ _ Ht') as (a1 & u' & b1 & xa1 & ys & xb1 & y & -> & -> & Hl1 & Hy & E).
    destruct (Hoth a1 u' b1 xa1 ys xb1 y Hl1 Hy Ha ltac:(set_solver) E); lia.
  - apply list_elem_of_fmap in Ht' as (y & -> & Hy).
    destruct (list_own_fits m u xs Hu) as ((? & ? & Hc & _) & _ & _ & _ & Hvu).
    rewrite Forall_forall in Hvu.
    assert (x <> y) as Hne by (intros ->; exact (Hni Ht)).
    cbn. destruct (valid_slot_disjoint _ _ x y Hc Hv (Hvu y Hy) Hne); unfold stride in *; consts; lia.
  - destruct (held_in _ _ _ Ht') as (a1 & u' & b1 & xa1 & ys & xb1 & y & -> & -> & Hl1 & Hy & E).
    destruct (Hoth a1 u' b1 xa1 ys xb1 y Hl1 Hy Hb ltac:(set_solver) E); lia.
Qed.

Lemma held_length bm m specs xss : mgr_rep bm m specs xss ->
  Z.of_nat (length (held_of specs xss)) <= foldr (fun s acc => ln s + acc) 0 specs < 4294967296.
Proof.
  intros [_ [start Hlay] Hown _ _].
  enough (Z.of_nat (length (held_of specs xss)) <= foldr (fun s acc => ln s + acc) 0 specs /\
    (specs = [] \/ start + foldr (fun s acc => ln s + acc) 0 specs < 4294967296 /\ 0 <= start))
    as [? [->|?]]; [cbn in *; lia|lia|].
  revert start Hlay.
  induction Hown as [|s xs specs xss Hs Hown IH]; cbn; intros start Hlay; [auto with lia|].
  destruct Hlay as (Ho & _ & Hn & Hc & Hlay). destruct (IH _ Hlay) as [IH1 IH2].
  destruct (list_own_fits m s xs Hs) as ((? & _) & _ & ? & _ & _).
  destruct Hs as (free & Hrs & _ & Hp).
  destruct (pool_counts _ _ _ m free xs Hrs Hp) as (_ & _ & Hcnt & _).
  unfold slots_of. rewrite length_app, length_fmap. split; [lia|]. right.
  assert (lo s + 36 + ln s <= lend s) by (unfold lend, stride; consts; nia).
  destruct IH2 as [->|[? ?]]; cbn; lia.
Qed.

Lemma list_own_room m s xs : list_own m s xs -> 0 <= Z.of_nat (length xs) < ln s.
Proof.
  intros (free & Hrep & Hne & Hp).
  destruct (pool_counts _ _ _ m free xs Hrep Hp) as (_ & _ & Hn & _).
  destruct free; [contradiction|]. cbn in Hn. lia.
Qed.

Lemma held_total bm m specs xss : mgr_rep bm m specs xss ->
  total_cap (held_of specs xss) < 4294967296.
Proof.
  intros [_ [start Hlay] Hown _ _].
  enough (specs = [] \/ start + total_cap (held_of specs xss) < 4294967296 /\ 0 <= start)
    as [->|?]; [now cbn|lia|].
  revert start Hlay.
  induction Hown as [|s xs specs xss Hs Hown IH]; cbn [held_of]; intros start Hlay; [auto|].
  destruct Hlay as (Ho & _ & Hn & Hc & Hlay). specialize (IH _ Hlay).
  destruct (list_own_fits m s xs Hs) as ((? & _) & _ & ? & _ & _).
  pose proof (list_own_room m s xs Hs) as Hroom. right.
  assert (total_cap (slots_of s xs) = Z.of_nat (length xs) * lc s) as Et.
  { unfold slots_of, total_cap. clear. induction xs as [|x xs IH]; cbn in *; lia. }
  assert (lo s + Z.of_nat (length xs) * lc s <= lend s) by (unfold lend, stride; consts; nia).
  rewrite total_cap_app, Et. destruct IH as [->|[? ?]]; cbn; lia.
Qed.

Lemma mgr_own_write bm m m' held : mgr_own bm m held ->
  same_but (user_bytes held) m m' -> mgr_own bm m' held.
Proof.
  intros (specs & xss & Hrep & Hp) [Hl Hm]. exists specs, xss. split; [|exact Hp].
  pose proof Hrep as [Hls [start Hlay] Hown Hcaps Hlen]. constructor; eauto; [|lia].
  assert (forall a s b xa xs xb, specs = a ++ s :: b -> xss = xa ++ xs :: xb ->
    length a = length xa -> list_own m s xs -> list_own m' s xs) as Hone.
  { intros a s b xa xs xb -> -> Hla Hs.
    destruct (list_own_fits m s xs Hs) as (_ & _ & _ & _ & Hv).
    destruct Hs as (free & Hrs & Hne & Hpf).
    destruct (pool_counts _ _ _ m free xs Hrs Hpf) as (Hnd & _).
    apply NoDup_app in Hnd as (_ & Hdis & _).
    exists free. split; [|auto]. apply (bl_rep_ext _ _ _ m m' free xs); auto.
    { intros x Hx Hxf. exact (Hdis x Hxf Hx). }
    intros c Hc Hns. apply Hm. intros (t & Ht & Htc). rewrite Hp in Ht.
    pose proof (held_slot _ _ _ _ _ Hrep Ht)
      as (a1 & u & b1 & xa1 & ys & xb1 & y & Ea & Exs & Hl1 & Hy & Hu & Hyv & -> & H1 & H2).
    unfold in_user in Htc. cbn in Htc, H1, H2.
    destruct (decide (length a1 = length a)) as [El|El].
    - apply app_inj_1 in Ea as [-> [= -> ->]]; [|congruence].
      apply app_inj_1 in Exs as [-> [= -> ->]]; [|congruence].
      apply Hns. exists y. split; [exact Hy|]. unfold stride. consts. lia.
    - assert (u ∈ a ++ b) as Hin.
      { apply (elem_of_other a b s (length a1)); [|exact El]. rewrite Ea.
        now apply list_lookup_middle. }
      pose proof (layout_disjoint start a s b u Hlay Hin). unfold lend in *. lia. }
  apply Forall2_same_length_lookup in Hown as [Hlxs Hown].
  apply Forall2_same_length_lookup. split; [exact Hlxs|]. intros i s xs Hs Hxs.
  eapply (Hone (take i specs) s _ (take i xss) xs); eauto using take_drop_middle.
  - symmetry. now apply take_drop_middle.
  - symmetry. now apply take_drop_middle.
  - rewrite !length_take. lia.
Qed.

Lemma keeps_perm held held' m m' : held ≡ₚ held' -> keeps held m m' -> keeps held' m m'.
Proof. intros Hp Hk. eapply keeps_incl; [exact Hk|]. intros x. now rewrite Hp. Qed.

(** A pool whose mapping holds the same bytes. *)
Lemma mgr_own_equiv bm m m' held : m' ≡ m -> mgr_own bm m held ->
  mgr_own bm m' held /\ keeps held m m'.
Proof.
  intros [Hl Hb] Hown. split; [|now split].
  apply (mgr_own_write bm m); [exact Hown|]. now split.
Qed.

(** [pop] of one of the lists. *)
Lemma mgr_pop bm m held a s b xss :
  mgr_rep bm m (a ++ s :: b) xss -> held ≡ₚ held_of (a ++ s :: b) xss ->
  (exists t m', BList.pop m (bl s) = Some (Ok (fresh_slice t), m') /\ t.2 = lc s /\
     mgr_own bm m' (t :: held) /\ keeps held m m' /\ slot_flag m' t = 2) \/
  (exists m', BList.pop m (bl s) = Some (fail_with kNoMoreBuffer, m') /\
     mgr_own bm m' held /\ keeps held m m').
Proof.
  intros Hrep Hp. pose proof Hrep as [_ _ Hown _ _].
  destruct (own_split _ _ _ _ _ Hown) as (xa & xs & xb & -> & Hl & Hs).
  destruct (list_pop m s xs Hs) as [(x & m' & Hpop & Hs' & Hk & Hout & Hfl)|(m' & Hpop & Heq)].
  - left. exists (region (lo s) + x, lc s), m'. split; [exact Hpop|]. split; [reflexivity|].
    destruct (mgr_rep_focus bm m m' a s b xa xs (x :: xs) xs xb Hrep Hl Hs' Hout Hk) as [Hrep' Hk'].
    split; [|split; [now apply (keeps_perm _ _ _ _ (symmetry Hp))|exact Hfl]].
    exists (a ++ s :: b), (xa ++ (x :: xs) :: xb). split; [exact Hrep'|].
    now rewrite held_cons, Hp.
  - right. exists m'. split; [exact Hpop|]. apply mgr_own_equiv; [exact Heq|].
    now exists (a ++ s :: b), (xa ++ xs :: xb).
Qed.

Lemma mgr_alloc bm m held size : mgr_own bm m held ->
  (exists s m', Manager.alloc_shm_buffer m bm size = Some (Ok (fresh_slice s), m') /\
     mgr_own bm m' (s :: held) /\ keeps held m m' /\ size <= s.2 /\ slot_flag m' s = 2) \/
  (exists m', Manager.alloc_shm_buffer m bm size = Some (fail_with kNoMoreBuffer, m') /\
     mgr_own bm m' held /\ keeps held m m').
Proof.
  intros Hown. pose proof Hown as (specs & xss & Hrep & Hp).
  unfold Manager.alloc_shm_buffer. case_if; [|right; eauto using keeps_refl].
  rewrite (mr_lists _ _ _ _ Hrep).
  destruct (alloc_from_focus m specs xss size (mr_own _ _ _ _ Hrep))
    as [->|(a & s & b & -> & Hsz & ->)]; [right; eauto using keeps_refl|].
  destruct (mgr_pop bm m held a s b xss Hrep Hp)
    as [(t & m' & -> & Et & ? & ? & ?)|(m' & -> & ? & ?)]; [left|right; eauto].
  exists t, m'. rewrite Et. auto.
Qed.

Lemma mgr_recycle bm w held t b : mgr_own bm (shared w) (t :: held) -> slice_of t b ->
  Z.testbit (slot_flag (shared w) t) 1 = true ->
  exists m', Manager.recycle_buffer w bm b = Some (set_shared w m') /\ mgr_own bm m' held /\
    keeps held (shared w) m'.
Proof.
  intros Hown Hsl Hfl. pose proof Hsl as [Hhd _ Hcap _ Hshm].
  destruct (mgr_own_slot bm _ _ t Hown ltac:(constructor)) as (? & ? & ? & ? & ?).
  unfold Manager.recycle_buffer. rewrite Hshm, Hhd, is_in_used_in by lia. cbn [mbind option_bind].
  assert ((0 <? Z.land (get8 (shared w) (t.1 + 16)) 2) = true) as ->.
  { unfold slot_flag in Hfl. apply Z.ltb_lt. pose proof (get8_range (shared w) (t.1 + 16)).
    assert (0 <= Z.land (get8 (shared w) (t.1 + 16)) 2) by (apply Z.land_nonneg; lia).
    assert (Z.land (get8 (shared w) (t.1 + 16)) 2 <> 0); [|lia]. intros E.
    assert (Z.testbit (Z.land (get8 (shared w) (t.1 + 16)) 2) 1 = false) as E'
      by (rewrite E; apply Z.testbit_0_l).
    rewrite Z.land_spec, Hfl in E'. discriminate. }
  destruct Hown as (specs & xss & Hrep & Hp).
  assert (t ∈ held_of specs xss) as Ht by (rewrite <- Hp; constructor).
  destruct (held_slot _ _ _ _ _ Hrep Ht)
    as (a & s & c & xa & xs & xc & x & -> & -> & Hl & Hx & Hs & Hv & -> & _ & _).
  apply elem_of_Permutation in Hx as (xs' & Hxp).
  rewrite (mr_lists _ _ _ _ Hrep).
  rewrite (push_to_focus _ a s c _ b (mr_own _ _ _ _ Hrep) (mr_caps _ _ _ _ Hrep) Hcap).
  destruct (list_push _ s xs' x b (list_own_perm _ _ _ _ Hxp Hs) Hsl)
    as (m' & -> & Hs' & Hk & Hout).
  exists m'. split; [reflexivity|].
  destruct (mgr_rep_focus bm _ m' a s c xa xs xs' xs' xc Hrep Hl Hs' Hout Hk) as [Hrep' Hk'].
  assert (held ≡ₚ held_of (a ++ s :: c) (xa ++ xs' :: xc)) as Hp'.
  { rewrite (held_perm a s c xa xs (x :: xs') xc Hl Hxp), held_cons in Hp by exact Hl.
    now apply Permutation_cons_inv in Hp. }
  split; [now exists (a ++ s :: c), (xa ++ xs' :: xc)|].
  now apply (keeps_perm _ _ _ _ (symmetry Hp')).
Qed.

(** ** Several slices at once *)

(** [pop] of one of the lists, with the slots that are out by list. *)
Lemma mgr_rep_pop bm m a s b xa xs xb :
  mgr_rep bm m (a ++ s :: b) (xa ++ xs :: xb) -> length a = length xa ->
  (exists x m', BList.pop m (bl s) = Some (Ok (fresh_slice (region (lo s) + x, lc s)), m') /\
     mgr_rep bm m' (a ++ s :: b) (xa ++ (x :: xs) :: xb) /\
     keeps (held_of (a ++ s :: b) (xa ++ xs :: xb)) m m' /\
     slot_flag m' (region (lo s) + x, lc s) = 2) \/
  (exists m', BList.pop m (bl s) = Some (fail_with kNoMoreBuffer, m') /\
     mgr_rep bm m' (a ++ s :: b) (xa ++ xs :: xb) /\
     keeps (held_of (a ++ s :: b) (xa ++ xs :: xb)) m m').
Proof.
  intros Hrep Hl. pose proof Hrep as [_ _ Hown _ _].
  apply Forall2_app_inv in Hown as [_ Hown]; [|exact Hl]. apply Forall2_cons_1 in Hown as [Hs _].
  destruct (list_pop m s xs Hs) as [(x & m' & Hpop & Hs' & Hk & Hout & Hfl)|(m' & Hpop & Heq)].
  - left. exists x, m'. split; [exact Hpop|].
    destruct (mgr_rep_focus bm m m' a s b xa xs (x :: xs) xs xb Hrep Hl Hs' Hout Hk). auto.
  - right. exists m'. split; [exact Hpop|]. destruct Heq as [El Eb].
    apply (mgr_rep_focus bm m m' a s b xa xs xs xs xb Hrep Hl).
    + eapply list_own_ext; [symmetry; exact El|intros; symmetry; apply Eb|exact Hs].
    + split; [now symmetry|]. intros; symmetry; apply Eb.
    + split; [now symmetry|]. intros; symmetry; apply Eb.
Qed.

(** What a run of allocations leaves: new slots, their slices at the end of
    the list, and the slots that were out before untouched. *)
Record allocated (held news : list slot) (l l' : SliceList) (m m' : shm) : Prop := {
  al_keeps : keeps held m m';
  al_slist : slist_ok l';
  al_write : write_ l' = write_ l;
  al_nodes : exists ns, nodes l' = nodes l ++ ns /\ snd <$> ns = fresh_slice <$> news;
  al_flags : Forall (fun s => slot_flag m' s = 2) news;
}.

Lemma allocated_nil held l m m' : slist_ok l -> keeps held m m' -> allocated held [] l l m m'.
Proof.
  intros Hl Hk. constructor; auto. exists []. now rewrite app_nil_r.
Qed.

Lemma allocated_trans held news1 news2 l1 l2 l3 m1 m2 m3 :
  allocated held news1 l1 l2 m1 m2 -> allocated (news1 ++ held) news2 l2 l3 m2 m3 ->
  (forall s, s ∈ news1 -> 0 < s.2) ->
  allocated held (news1 ++ news2) l1 l3 m1 m3.
Proof.
  intros [Hk1 Hs1 Hw1 (ns1 & Hn1 & Hf1) Hfl1] [Hk2 Hs2 Hw2 (ns2 & Hn2 & Hf2) Hfl2] Hpos.
  constructor; auto.
  - eapply keeps_trans; [exact Hk1|]. eapply keeps_incl; [exact Hk2|]. set_solver.
  - now rewrite Hw2.
  - exists (ns1 ++ ns2). rewrite Hn2, Hn1, app_assoc. split; [reflexivity|].
    now rewrite !fmap_app, Hf1, Hf2.
  - apply Forall_app. split; [|exact Hfl2]. rewrite Forall_forall in *. intros s Hs.
    rewrite <- (Hfl1 s Hs). unfold slot_flag. symmetry. apply (proj2 Hk2 s); [set_solver|].
    unfold in_slot. specialize (Hpos s Hs). lia.
Qed.

Lemma allocated_length held news l l' m m' : allocated held news l l' m m' ->
  length (nodes l') = (length (nodes l) + length news)%nat.
Proof.
  intros [_ _ _ (ns & -> & Hf) _]. rewrite length_app. f_equal.
  apply (f_equal length) in Hf. now rewrite !length_fmap in Hf.
Qed.

Lemma alloc_list_ok bm a s b xa xb fuel : forall m xs l remain size,
  mgr_rep bm m (a ++ s :: b) (xa ++ xs :: xb) -> length a = length xa ->
  ln s - Z.of_nat (length xs) <= Z.of_nat fuel -> slist_ok l ->
  Z.of_nat (length (nodes l)) + (ln s - Z.of_nat (length xs)) < 18446744073709551616 ->
  -4294967296 <= remain <= size -> size < 4294967296 ->
  exists news xs' l' m',
    Manager.alloc_list fuel m (bl s) l remain (size - remain) =
      Some (l', remain - total_cap news, size - (remain - total_cap news), m') /\
    mgr_rep bm m' (a ++ s :: b) (xa ++ xs' :: xb) /\
    held_of (a ++ s :: b) (xa ++ xs' :: xb) ≡ₚ
      news ++ held_of (a ++ s :: b) (xa ++ xs :: xb) /\
    allocated (held_of (a ++ s :: b) (xa ++ xs :: xb)) news l l' m m' /\
    (forall t, t ∈ news -> 0 < t.2) /\ -4294967296 <= remain - total_cap news /\
    needs remain news.
Proof.
  induction fuel as [|fuel IH]; intros m xs l remain size Hrep Hl Hfuel Hok Hlen Hr Hsz.
  all: assert (list_own m s xs) as Hs
    by (pose proof (mr_own _ _ _ _ Hrep) as H; apply Forall2_app_inv in H as [_ H];
        [now apply Forall2_cons_1 in H as [H _]|exact Hl]).
  all: pose proof (list_own_room m s xs Hs) as Hroom.
  { cbn in Hfuel. lia. }
  cbn [Manager.alloc_list]. destruct (Z.leb_spec remain 0) as [Hle|Hgt].
  { exists [], xs, l, m. cbn. rewrite Z.sub_0_r. split; [reflexivity|]. split; [exact Hrep|].
    split; [reflexivity|]. split; [apply allocated_nil; auto using keeps_refl|].
    split; [set_solver|]. split; [lia|apply needs_nil]. }
  destruct (mgr_rep_pop bm m a s b xa xs xb Hrep Hl)
    as [(x & m1 & -> & Hrep1 & Hk1 & Hfl1)|(m1 & -> & Hrep1 & Hk1)]; cbn [mbind option_bind].
  2: { exists [], xs, l, m1. cbn. rewrite Z.sub_0_r. split; [reflexivity|]. split; [exact Hrep1|].
       split; [reflexivity|]. split; [now apply allocated_nil|]. split; [set_solver|].
       split; [lia|apply needs_nil]. }
  destruct (list_own_fits m s xs Hs) as ((_ & _ & Hc & _) & _ & Hend & _).
  destruct (push_back_ok l (fresh_slice (region (lo s) + x, lc s)) Hok ltac:(lia))
    as (l1 & -> & Hok1 & Hn1 & Hw1). cbn [mbind option_bind].
  change (cap (fresh_slice (region (lo s) + x, lc s))) with (lc s).
  assert (lc s < 4294967296).
  { destruct (list_own_fits m s xs Hs) as ((? & ? & _) & _). unfold lend, stride in Hend.
    consts. nia. }
  rewrite !i64_id by lia. replace (size - remain + lc s) with (size - (remain - lc s)) by lia.
  destruct (IH m1 (x :: xs) l1 (remain - lc s) size Hrep1 Hl) as
    (news & xs' & l' & m' & Hrun & Hrep' & Hp & Hal & Hpos & Hlow & Hneed); auto; try (cbn [length]; lia).
  { rewrite Hn1, length_app. cbn [length]. lia. }
  exists ((region (lo s) + x, lc s) :: news), xs', l', m'. cbn [total_cap foldr snd].
  fold (total_cap news).
  replace (remain - (lc s + total_cap news)) with (remain - lc s - total_cap news) by lia.
  split; [exact Hrun|]. split; [exact Hrep'|].
  split; [rewrite Hp, held_cons by exact Hl; cbn; symmetry; apply Permutation_middle|].
  split; [|split; [|split; [exact Hlow|]]].
  - apply (allocated_trans _ [(region (lo s) + x, lc s)] news l l1 l' m m1 m').
    + constructor; auto. now exists [(node_next l, fresh_slice (region (lo s) + x, lc s))].
    + destruct Hal as [Hk ? ? ? ?]. constructor; auto.
      eapply keeps_perm; [|exact Hk]. now rewrite held_cons.
    + intros t ->%list_elem_of_singleton. exact Hc.
  - intros t [->|Ht]%elem_of_cons; [exact Hc|auto].
  - apply (needs_app remain [_] news); [now apply needs_one|].
    unfold total_cap. cbn. now rewrite Z.add_0_r.
Qed.

Lemma alloc_lists_ok bm N rs : N + 8589934592 < 18446744073709551616 ->
  forall done m xss l remain size,
  mgr_rep bm m (reverse rs ++ done) xss -> slist_ok l ->
  Z.of_nat (length (nodes l)) <= N + Z.of_nat (length (held_of (reverse rs ++ done) xss)) ->
  -4294967296 <= remain <= size -> size < 4294967296 ->
  exists news xss' l' m',
    Manager.alloc_lists m (bl <$> rs) l remain (size - remain) =
      Some (l', size - (remain - total_cap news), m') /\
    mgr_rep bm m' (reverse rs ++ done) xss' /\
    held_of (reverse rs ++ done) xss' ≡ₚ news ++ held_of (reverse rs ++ done) xss /\
    allocated (held_of (reverse rs ++ done) xss) news l l' m m' /\ needs remain news.
Proof.
  intros HN. induction rs as [|s rs IH]; intros done m xss l remain size Hrep Hok Hlen Hr Hsz;
    cbn [fmap list_fmap Manager.alloc_lists].
  { exists [], xss, l, m. cbn. rewrite Z.sub_0_r. auto 8 using allocated_nil, keeps_refl, needs_nil. }
  destruct (Z.leb_spec remain 0).
  { exists [], xss, l, m. cbn. rewrite Z.sub_0_r. auto 8 using allocated_nil, keeps_refl, needs_nil. }
  rewrite reverse_cons, <- app_assoc in *. cbn [app] in *.
  pose proof (held_length _ _ _ _ Hrep) as Hhl.
  destruct (own_split _ _ _ _ _ (mr_own _ _ _ _ Hrep)) as (xa & xs & xb & -> & Hl & Hs).
  pose proof (list_own_room m s xs Hs) as Hroom.
  destruct (list_own_fits m s xs Hs) as ((? & ? & ? & _) & _ & Hend & _).
  assert (ln s < 4294967296) by (unfold lend, stride in Hend; consts; nia).
  destruct (list_own_loads m s xs Hs) as [_ ->]. cbn [mbind option_bind].
  destruct (alloc_list_ok bm (reverse rs) s done xa xb (Z.to_nat (ln s)) m xs l remain size)
    as (news & xs' & l1 & m1 & -> & Hrep1 & Hp1 & Hal1 & Hpos1 & Hlow1 & Hneed1); auto; try lia.
  cbn [mbind option_bind].
  destruct (IH (s :: done) m1 (xa ++ xs' :: xb) l1 (remain - total_cap news) size)
    as (news2 & xss2 & l2 & m2 & -> & Hrep2 & Hp2 & Hal2 & Hneed2); auto.
  { apply Hal1. }
  { rewrite (allocated_length _ _ _ _ _ _ Hal1), Hp1, length_app. lia. }
  { split; [exact Hlow1|]. enough (0 <= total_cap news) by lia. clear -Hpos1.
    unfold total_cap. induction news as [|t news IH]; cbn; [lia|].
    specialize (Hpos1 t) as Ht. specialize (IH ltac:(set_solver)).
    assert (0 < t.2) by (apply Ht; constructor). lia. }
  exists (news ++ news2), xss2, l2, m2. rewrite total_cap_app.
  split; [do 3 f_equal; lia|]. split; [exact Hrep2|].
  split; [rewrite Hp2, Hp1, !app_assoc; now rewrite (Permutation_app_comm news news2)|].
  split; [|now apply needs_app]. eapply allocated_trans; [exact Hal1| |exact Hpos1].
  destruct Hal2 as [Hk ? ? ? ?]. constructor; auto. now apply (keeps_perm _ _ _ _ Hp1).
Qed.

Lemma mgr_allocs bm m held l size : mgr_own bm m held -> slist_ok l ->
  0 <= size < 4294967296 -> Z.of_nat (length (nodes l)) < 9223372036854775808 ->
  exists news ns l' m',
    Manager.alloc_shm_buffers m bm l size = Some (l', total_cap news, m') /\
    mgr_own bm m' (news ++ held) /\ keeps held m m' /\ slist_ok l' /\ write_ l' = write_ l /\
    nodes l' = nodes l ++ ns /\ snd <$> ns = fresh_slice <$> news /\
    Forall (fun s => slot_flag m' s = 2) news /\ needs size news.
Proof.
  intros (specs & xss & Hrep & Hp) Hok Hsz Hlen. unfold Manager.alloc_shm_buffers.
  rewrite (mr_lists _ _ _ _ Hrep), <- fmap_reverse.
  destruct (alloc_lists_ok bm 9223372036854775808 (reverse specs) ltac:(lia) [] m xss l size size)
    as (news & xss' & l' & m' & Hrun & Hrep' & Hp' & Hal & Hneed);
    rewrite ?reverse_involutive, ?app_nil_r in *; auto; try lia.
  rewrite Z.sub_diag in Hrun.
  replace (size - (size - total_cap news)) with (total_cap news) in Hrun by lia.
  destruct Hal as [Hk Hok' Hw (ns & Hn & Hf) Hfl].
  exists news, ns, l', m'. split; [exact Hrun|]. split.
  { exists specs, xss'. split; [exact Hrep'|]. now rewrite Hp', Hp. }
  split; [|repeat (split; [assumption|]); assumption]. now apply (keeps_perm _ _ _ _ (symmetry Hp)).
Qed.

Lemma read_buffer_slice_ok bm m held t : mgr_own bm m held -> t ∈ held ->
  Manager.read_buffer_slice m t.1 = Some (Ok (read_slice m t)).
Proof.
  intros Hown Ht. destruct (mgr_own_slot bm m held t Hown Ht) as (? & ? & ? & ? & Hc).
  unfold Manager.read_buffer_slice. consts.
  assert ((shm_len m <=? t.1 + 20) = false) as -> by lia.
  rewrite Z.add_0_r, load_u32_in by lia. cbn [mbind option_bind]. rewrite Hc.
  rewrite (u32_id (t.1 + 20)), (u32_id (t.1 + 20 + t.2)) by lia.
  assert ((shm_len m <? t.1 + 20 + t.2) = false) as -> by lia.
  rewrite (u32_id (t.1 + 20 + t.2 - _)), make_in by lia. cbn [mbind option_bind].
  unfold read_slice. now rewrite Hc.
Qed.

Lemma mgr_recycles bm w held t ts b fuel :
  mgr_own bm (shared w) (t :: ts ++ held) -> msg_chain (shared w) (t :: ts) ->
  slice_of t b -> (length ts < fuel)%nat ->
  exists m', Manager.recycle_buffers fuel w bm b = Some (set_shared w m') /\
    mgr_own bm m' held /\ keeps held (shared w) m'.
Proof.
  intros Hown Hch Hsl Hfuel. unfold Manager.recycle_buffers. rewrite (so_shm _ _ Hsl).
  revert w t b ts Hown Hch Hsl Hfuel.
  induction fuel as [|fuel IH]; intros w t b ts Hown Hch Hsl Hfuel; [lia|].
  destruct (mgr_own_slot bm _ _ t Hown ltac:(constructor)) as (? & ? & ? & ? & _).
  cbn [Manager.recycle_chain]. rewrite (so_header _ _ Hsl). cbn [mbind option_bind].
  rewrite has_next_bit by lia. cbn [mbind option_bind]. destruct Hch as (Huse & Hnext & Hch).
  destruct (mgr_recycle bm w (ts ++ held) t b Hown Hsl Huse) as (m1 & E1 & Hown1 & Hk1).
  destruct ts as [|u ts].
  - rewrite Hnext. exists m1. auto.
  - destruct Hnext as [-> Hn]. rewrite next_buffer_offset_in by lia. cbn [mbind option_bind].
    rewrite Hn, E1. cbn [mbind option_bind shared set_shared].
    rewrite (read_buffer_slice_ok bm m1 _ u Hown1 ltac:(set_solver)). cbn [mbind option_bind].
    destruct (IH (set_shared w m1) u (read_slice m1 u) ts) as (m2 & E2 & Hown2 & Hk2); auto.
    + change (msg_chain m1 (u :: ts)). eapply msg_chain_keeps; [eapply keeps_incl; [exact Hk1|set_solver]| |exact Hch].
      intros v Hv. apply (mgr_own_slot bm _ _ v Hown1). set_solver.
    + apply read_slice_of.
    + cbn in Hfuel. lia.
    + exists m2. split; [exact E2|]. split; [exact Hown2|].
      eapply keeps_trans; [|exact Hk2]. eapply keeps_incl; [exact Hk1|]. set_solver.
Qed.

(** [BufferManager] as the pool of its users. *)
Definition manager_ops (bm : BufferManager) : PoolOps := {|
  Pool.alloc_shm_buffer m := Manager.alloc_shm_buffer m bm;
  Pool.alloc_shm_buffers m := Manager.alloc_shm_buffers m bm;
  Pool.recycle_buffer w := Manager.recycle_buffer w bm;
  Pool.recycle_buffers fuel w := Manager.recycle_buffers fuel w bm;
  Pool.read_buffer_slice := Manager.read_buffer_slice;
|}.

#[global] Instance manager_pool bm : Pool (manager_ops bm).
Proof.
  refine {| own := mgr_own bm |}.
  - intros m held held' Hp (specs & xss & Hrep & H). exists specs, xss. now rewrite <- Hp.
  - apply mgr_own_slot.
  - apply mgr_own_disjoint.
  - intros m held (specs & xss & Hrep & ->). pose proof (held_length _ _ _ _ Hrep). lia.
  - intros m held (specs & xss & Hrep & ->). now apply held_total in Hrep.
  - apply mgr_own_write.
  - intros m held size Hown _. now apply mgr_alloc.
  - apply mgr_allocs.
  - intros w held s b. apply mgr_recycle.
  - intros w b Hb. cbn. unfold Manager.recycle_buffer. now rewrite Hb.
  - apply read_buffer_slice_ok.
  - apply mgr_recycles.
Defined.

(** * [create] and [mapping] *)

(** The number of slices [create] gives a pair, of [cap] bytes for slices. *)
Definition slice_num (region_cap : Z) (p : SizePercentPair) : Z :=
  region_cap * percent p / 100 / (size p + kBufferHeaderSize).

(** The lists [create] makes from [o] on. *)
Fixpoint specs_of (region_cap o : Z) (pairs : list SizePercentPair) : list lspec :=
  match pairs with
  | [] => []
  | p :: pairs' =>
      let s := mkSpec o (slice_num region_cap p) (size p) in
      s :: specs_of region_cap (lend s) pairs'
  end.
Definition specs_end (o : Z) (specs : list lspec) : Z :=
  from_option lend o (last specs).

(** A pair that gets at least one slice. *)
Definition pair_ok (region_cap : Z) (p : SizePercentPair) : Prop :=
  0 < size p < 4294967296 - kBufferHeaderSize /\ 0 <= percent p /\ 0 < slice_num region_cap p.

Lemma slice_num_le R p : 0 <= R -> 0 < size p -> 0 <= percent p ->
  0 <= slice_num R p /\ 100 * (slice_num R p * (size p + 20)) <= R * percent p.
Proof.
  intros HR Hs Hp. unfold slice_num. consts.
  pose proof (Z.div_pos (R * percent p) 100 ltac:(nia) ltac:(lia)).
  pose proof (Z.div_pos (R * percent p / 100) (size p + 20) ltac:(lia) ltac:(lia)).
  pose proof (Z.mul_div_le (R * percent p) 100 ltac:(lia)).
  pose proof (Z.mul_div_le (R * percent p / 100) (size p + 20) ltac:(lia)). lia.
Qed.

Lemma specs_end_cons o s specs : specs_end o (s :: specs) = specs_end (lend s) specs.
Proof.
  unfold specs_end. destruct specs as [|t specs]; [reflexivity|].
  change (last (s :: t :: specs)) with (last (t :: specs)).
  destruct (last (t :: specs)) eqn:E; [reflexivity|]. now apply last_None in E.
Qed.

Lemma percent_sum_nonneg R pairs : Forall (pair_ok R) pairs -> 0 <= percent_sum pairs.
Proof. unfold percent_sum. induction 1 as [|q l (_ & Hq & _) _ IH]; cbn; lia. Qed.

(** The list of one pair. *)
Lemma create_one R m o p : 0 <= R < 4294967296 -> pair_ok R p -> percent p <= 100 -> 0 <= o ->
  100 * (o + 36) + R * percent p <= 100 * shm_len m -> shm_len m < 4294967296 ->
  let s := mkSpec o (slice_num R p) (size p) in
  exists m', BList.create m (slice_num R p) (size p) (shm_len m) o = Some (Ok (bl s), m') /\
    list_own m' s [] /\ same_outside o (lend s - o) m m' /\
    lend s = o + count_buffer_list_mem_size (slice_num R p) (size p) /\
    o + 36 <= lend s /\ 100 * lend s <= 100 * (o + 36) + R * percent p.
Proof.
  intros HR (Hsz & Hpc & Hnum) Hp100 Ho Hfit Hlen s.
  destruct (slice_num_le R p ltac:(lia) ltac:(lia) Hpc) as [_ Hle].
  assert (stride (size p) = size p + 20) as Hst by reflexivity. rewrite <- Hst in Hle. consts.
  assert (slice_num R p <= slice_num R p * stride (size p)) by nia.
  assert (lend s = o + 36 + slice_num R p * stride (size p)) as Hend by reflexivity.
  assert (list_fits o (slice_num R p) (size p) (shm_len m)) as Hf.
  { unfold list_fits, region. consts. lia. }
  destruct (create_ok o (slice_num R p) (size p) m Hf Hlen) as (m' & Hc & Hrep & Hout).
  exists m'. split; [exact Hc|]. split.
  { exists (all_slots (slice_num R p) (size p)). split; [exact Hrep|]. rewrite app_nil_r.
    split; [|reflexivity]. intros E. assert (0 ∈ all_slots (slice_num R p) (size p)) as H0
      by (apply all_slots_spec; [lia|]; exists 0; lia).
    rewrite E in H0. now apply not_elem_of_nil in H0. }
  split; [eapply same_outside_weaken; [exact Hout|lia|lia]|].
  unfold count_buffer_list_mem_size. consts.
  rewrite <- Hst, (u32_id (stride _)), (u32_id (_ * _)), u32_id by lia. lia.
Qed.

(** One turn of the loop of [create], for a pair that gets a slice. *)
Lemma create_lists_step R p pairs m o sum acc : 0 <= R < 4294967296 -> pair_ok R p -> 0 <= sum ->
  sum + percent p <= 100 -> 0 <= o -> 100 * (o + 36) + R * percent p <= 100 * shm_len m ->
  shm_len m < 4294967296 ->
  let s := mkSpec o (slice_num R p) (size p) in
  exists m1, Manager.create_lists m R o sum (p :: pairs) acc =
      Manager.create_lists m1 R (lend s) (sum + percent p) pairs (bl s :: acc) /\
    list_own m1 s [] /\ same_outside o (lend s - o) m m1 /\
    o + 36 <= lend s /\ 100 * lend s <= 100 * (o + 36) + R * percent p.
Proof.
  intros HR Hp Hsum Htot Ho Hfit Hlen s.
  assert (0 <= percent p) as Hpp by apply Hp.
  assert (0 <= R * percent p) by nia.
  destruct (create_one R m o p HR Hp) as (m1 & Hc & Hown & Hout & Hend & Hge & Hle); try lia.
  exists m1. split; [|auto]. cbn [Manager.create_lists].
  rewrite (u32_id (sum + percent p)) by lia.
  assert ((100 <? sum + percent p) = false) as -> by lia.
  rewrite (u64_id (R * percent p)) by nia. fold (slice_num R p).
  assert (u32 (slice_num R p) = slice_num R p) as ->.
  { apply u32_id. destruct Hp as (? & ? & ?).
    destruct (slice_num_le R p ltac:(lia) ltac:(lia) ltac:(lia)). nia. }
  rewrite Hc. cbn [mbind option_bind]. fold s in Hend, Hle, Hge |- *.
  rewrite <- Hend, u32_id by lia. reflexivity.
Qed.

Lemma create_lists_ok R : 0 <= R < 4294967296 -> forall pairs m o sum acc,
  Forall (pair_ok R) pairs -> 0 <= sum -> sum + percent_sum pairs <= 100 -> 0 <= o ->
  100 * (o + 36 * Z.of_nat (length pairs)) + R * percent_sum pairs <= 100 * shm_len m ->
  shm_len m < 4294967296 ->
  exists m', Manager.create_lists m R o sum pairs acc =
      Some (Ok (reverse acc ++ (bl <$> specs_of R o pairs),
                specs_end o (specs_of R o pairs)), m') /\
    same_outside o (shm_len m - o) m m' /\ layout o (specs_of R o pairs) /\
    Forall2 (list_own m') (specs_of R o pairs) (replicate (length pairs) []) /\
    o <= specs_end o (specs_of R o pairs) <= shm_len m.
Proof.
  intros HR. induction pairs as [|p pairs IH]; intros m o sum acc Hps Hsum Htot Ho Hfit Hlen.
  { exists m. cbn. rewrite app_nil_r. split; [reflexivity|]. split; [apply same_outside_refl|].
    cbn in Hfit. repeat split; auto; lia. }
  apply Forall_cons_1 in Hps as [Hp Hps]. pose proof (percent_sum_nonneg R pairs Hps) as Hrest.
  assert (percent_sum (p :: pairs) = percent p + percent_sum pairs) as Eps by reflexivity.
  rewrite Eps in *. rewrite Z.mul_add_distr_l in Hfit. cbn [length] in Hfit.
  assert (0 <= percent p) as Hpp by apply Hp.
  assert (0 <= R * percent_sum pairs /\ 0 <= R * percent p) as [? ?] by nia.
  destruct (create_lists_step R p pairs m o sum acc HR Hp) as (m1 & -> & Hown & Hout & Hge & Hle); try lia.
  cbn [specs_of]. set (s := mkSpec o (slice_num R p) (size p)) in *.
  pose proof (proj1 Hout) as Hl1.
  destruct (IH m1 (lend s) (sum + percent p) (bl s :: acc))
    as (m2 & Hrun & Hout2 & Hlay & Hown2 & He); auto; try lia.
  exists m2. rewrite Hrun, specs_end_cons. cbn [fmap list_fmap]. rewrite reverse_cons, <- app_assoc.
  split; [reflexivity|]. split.
  { apply (same_outside_trans _ _ _ m1).
    - eapply same_outside_weaken; [exact Hout|lia|lia].
    - eapply same_outside_weaken; [exact Hout2|lia|lia]. }
  split; [repeat split; auto; apply Hp|]. split; [|lia].
  constructor; [|exact Hown2]. eapply list_own_ext; [apply Hout2| |exact Hown].
  intros b Hb. apply Hout2. lia.
Qed.

Lemma mapping_lists_ok m start specs xss : forall h acc,
  Forall2 (list_own m) specs xss -> layout (start + h) specs -> 0 <= start -> 0 <= h ->
  start + h < 4294967296 -> shm_len m < 4294967296 ->
  Manager.mapping_lists m start h (length specs) acc = Some (Ok (reverse acc ++ (bl <$> specs))).
Proof.
  intros h acc Hown. revert h acc.
  induction Hown as [|s xs specs xss Hs Hown IH]; intros h acc Hlay Hst Hh Hb Hlen.
  { cbn. now rewrite app_nil_r. }
  destruct Hlay as (Ho & _ & Hn & Hc & Hlay). cbn [Manager.mapping_lists length].
  rewrite u32_id, <- Ho by lia.
  destruct (list_own_loads m s xs Hs) as [Hl1 Hl2].
  destruct (list_own_fits m s xs Hs) as (_ & _ & Hend & _).
  destruct Hs as (free & Hrep & _). rewrite (mapping_ok _ _ _ m free Hrep Hlen).
  cbn [mbind option_bind]. fold (bl s). rewrite Hl2. cbn [mbind option_bind]. rewrite Hl1.
  cbn [mbind option_bind].
  assert (stride (lc s) = lc s + 20) as Hstr by reflexivity.
  assert (lend s = lo s + 36 + ln s * stride (lc s)) as Hl by reflexivity.
  assert (ln s <= ln s * stride (lc s) /\ stride (lc s) <= ln s * stride (lc s)) by nia.
  assert (count_buffer_list_mem_size (ln s) (lc s) = lend s - lo s) as Hcnt.
  { unfold count_buffer_list_mem_size. consts. rewrite <- Hstr, (u32_id (stride _)),
      (u32_id (_ * _)), u32_id by lia. lia. }
  rewrite Hcnt, u32_id by lia. rewrite IH; try lia.
  - cbn [fmap list_fmap]. now rewrite reverse_cons, <- app_assoc.
  - replace (start + (h + (lend s - lo s))) with (lend s) by lia. exact Hlay.
Qed.

(** What [create] needs for a pool: at least one pair, each with room for a
    slice, shares of at most 100 percent together, and no slice size twice. *)
Record pairs_ok (len offset : Z) (pairs : list SizePercentPair) : Prop := {
  po_offset : 0 <= offset;
  po_room : offset + 8 + 36 * Z.of_nat (length pairs) <= len;
  po_len : len < 4294967296;
  po_some : pairs <> [];
  po_count : Z.of_nat (length pairs) < 65536;
  po_pairs : Forall (pair_ok (len - offset - 36 * Z.of_nat (length pairs) - 8)) pairs;
  po_sum : percent_sum pairs <= 100;
  po_sizes : NoDup (size <$> pairs);
}.

Lemma specs_sizes R o pairs : lc <$> specs_of R o pairs = size <$> pairs.
Proof. revert o. induction pairs as [|p pairs IH]; intros o; cbn; [reflexivity|]. now rewrite IH. Qed.

Lemma specs_length R o pairs : length (specs_of R o pairs) = length pairs.
Proof. revert o. induction pairs as [|p pairs IH]; intros o; cbn; auto. Qed.

Lemma held_none specs n : held_of specs (replicate n []) = [].
Proof. revert n. induction specs as [|s specs IH]; intros [|n]; cbn; auto. Qed.

(** The lists survive the header's last write. *)
Lemma manager_create_rep m pairs path offset : pairs_ok (shm_len m) offset pairs ->
  exists first final m',
    let R := shm_len m - offset - 36 * Z.of_nat (length pairs) - 8 in
    let specs := specs_of R (offset + 8) pairs in
    let bm := mkManager (bl <$> specs) (size first) (size final) 1 kMemFd path 0 in
    Manager.create m pairs path offset = Some (Ok bm, m') /\
    head pairs = Some first /\ last pairs = Some final /\
    mgr_rep bm m' specs (replicate (length pairs) []) /\ layout (offset + 8) specs /\
    get16 m' offset = Z.of_nat (length pairs) /\
    get32 m' (offset + 4) = specs_end (offset + 8) specs - 8 /\
    offset + 8 <= specs_end (offset + 8) specs <= shm_len m'.
Proof.
  intros [Ho Hroom Hlen Hne Hk Hps Hsum Hsz].
  set (R := shm_len m - offset - 36 * Z.of_nat (length pairs) - 8) in *.
  destruct (head pairs) as [first|] eqn:Eh; [|now destruct pairs].
  destruct (last pairs) as [final|] eqn:El; [|now apply last_None in El].
  pose proof (percent_sum_nonneg R pairs Hps) as Hps0.
  assert (R * percent_sum pairs <= R * 100) by (apply Z.mul_le_mono_nonneg_l; lia).
  set (m1 := put16 m offset (u16 (Z.of_nat (length pairs)))).
  assert (shm_len m1 = shm_len m) as El1 by (unfold m1; now autorewrite with shm).
  destruct (create_lists_ok R ltac:(lia) pairs m1 (offset + 8) 0 [])
    as (m2 & Hrun & Hout & Hlay & Hown & He); rewrite ?El1; auto; try lia.
  set (specs := specs_of R (offset + 8) pairs) in *.
  set (e := specs_end (offset + 8) specs) in *.
  pose proof (proj1 Hout) as El2. rewrite El1 in *.
  exists first, final, (put32 m2 (offset + 4) (e - 8)). cbv zeta. split.
  { unfold Manager.create. consts. assert ((shm_len m <=? offset) = false) as -> by lia.
    rewrite store_u16_in by lia. cbn [mbind option_bind]. fold m1.
    fold R. rewrite (u64_id R) by lia. rewrite (u32_id (8 + offset)), (Z.add_comm 8) by lia.
    rewrite Hrun. cbn [mbind option_bind reverse rev_append app].
    rewrite (u32_id (e - 8)) by lia. rewrite store_u32_in by lia. cbn [mbind option_bind].
    rewrite Eh, El. reflexivity. }
  split; [reflexivity|]. split; [reflexivity|]. split.
  { constructor; cbn [lists_]; eauto.
    - eapply Forall2_impl_in; [|exact Hown]. intros s xs Hs. apply list_own_ext.
      + now rewrite put32_len.
      + intros b Hb. destruct (layout_ge _ _ s Hlay Hs). now rewrite get8_put32_ne by lia.
    - unfold specs. now rewrite specs_sizes.
    - rewrite put32_len. lia. }
  split; [exact Hlay|]. split.
  { rewrite get16_put32_ne by lia. unfold get16. rewrite (get_le_ext 2 m2 m1).
    - unfold m1. change (get_le 2) with get16. rewrite get16_put16, (u16_id (Z.of_nat _)), u16_id
        by lia. reflexivity.
    - intros b Hb. cbn in Hb. symmetry. apply Hout. lia. }
  fold R. fold specs. fold e. rewrite get32_put32, put32_len, u32_id by lia. lia.
Qed.

Lemma returned_all m specs n : Forall2 (list_own m) specs (replicate n []) ->
  Manager.all_returned m (bl <$> specs) = Some true.
Proof.
  revert n. induction specs as [|s specs IH]; intros [|n] H; cbn in *;
    try (now inversion H).
  apply Forall2_cons_1 in H as [Hs H].
  destruct (list_own_loads m s [] Hs) as [_ Hcap].
  destruct (list_own_fits m s [] Hs) as ((? & ? & ? & _) & _ & Hend & _).
  destruct Hs as (free & Hrep & _ & Hp).
  destruct (pool_counts _ _ _ m free [] Hrep Hp) as (_ & _ & Hn & Hsz & Hcnt).
  cbn in Hn, Hcnt. fold (bl s) in Hsz, Hcnt. rewrite Hsz. cbn [mbind option_bind].
  rewrite Hcap. cbn [mbind option_bind].
  assert (ln s * 21 <= ln s * stride (lc s)) by (unfold stride; consts; nia).
  unfold lend in Hend. rewrite i32_id by lia.
  assert ((Z.of_nat (length free) =? ln s) = true) as -> by lia. cbn [negb].
  rewrite Hcnt. cbn. eauto.
Qed.

Lemma owned_cap m specs xss s : Forall2 (list_own m) specs xss -> s ∈ specs ->
  BList.cap_per_buffer m (bl s) = Some (lc s).
Proof.
  intros H Hs. apply list_elem_of_lookup in Hs as [i Hi].
  destruct (Forall2_lookup_l _ _ _ _ _ H Hi) as (xs & _ & Hown).
  now apply (list_own_loads m s xs).
Qed.

(** C30: A pool made by [create] from pairs that fit has every slice free, and
    [mapping] of the same mapping by the other process gives a pool with the
    same lists, slice sizes and state. *)
Theorem create_then_mapping m pairs path path' offset : pairs_ok (shm_len m) offset pairs ->
  exists bm m' bm', Manager.create m pairs path offset = Some (Ok bm, m') /\
    Manager.mapping m' path' offset = Some (Ok bm') /\
    lists_ bm' = lists_ bm /\ min_slice_size_ bm' = min_slice_size_ bm /\
    max_slice_size_ bm' = max_slice_size_ bm /\
    own (Pool := manager_pool bm) m' [] /\ own (Pool := manager_pool bm') m' [] /\
    Manager.check_buffer_returned m' bm = Some true.
Proof.
  intros Hok. destruct (manager_create_rep m pairs path offset Hok)
    as (first & final & m' & Hc & Eh & El & Hrep & Hlay & Hnum & Hlen & He).
  pose proof Hok as [Ho Hroom Hl Hne Hk Hps Hsum Hsz].
  assert (0 < Z.of_nat (length pairs)) as Hk0 by (destruct pairs; [contradiction|cbn; lia]).
  set (R := shm_len m - offset - 36 * Z.of_nat (length pairs) - 8) in *.
  set (specs := specs_of R (offset + 8) pairs) in *.
  assert (length specs = length pairs) as Elen by apply specs_length.
  exists (mkManager (bl <$> specs) (size first) (size final) 1 kMemFd path 0), m',
    (mkManager (bl <$> specs) (size first) (size final) 1 kMemFd path' 0).
  split; [exact Hc|]. split.
  { unfold Manager.mapping. consts. pose proof (mr_len _ _ _ _ Hrep).
    assert (((shm_len m' <=? offset + 4) || (shm_len m' <=? offset)) = false) as -> by lia.
    rewrite load_u16_in, load_u32_in by lia. cbn [mbind option_bind]. rewrite Hnum, Hlen.
    rewrite (u32_id (8 + _)) by lia.
    assert (((shm_len m' <? 8 + (specs_end (offset + 8) specs - 8)) ||
             (Z.of_nat (length pairs) =? 0)) = false) as -> by lia.
    rewrite Nat2Z.id, <- Elen, (mapping_lists_ok m' offset specs _ 8 [] (mr_own _ _ _ _ Hrep))
      by (auto; lia).
    cbn [mbind option_bind reverse rev_append app].
    pose proof (specs_sizes R (offset + 8) pairs) as Esz. fold specs in Esz.
    pose proof (f_equal head Esz) as Esh. pose proof (f_equal last Esz) as Esl.
    rewrite !head_fmap, Eh in Esh. rewrite !fmap_last, El in Esl.
    destruct (head specs) as [s0|] eqn:E0; [|discriminate].
    destruct (last specs) as [s1|] eqn:E1; [|discriminate]. cbn in Esh, Esl.
    injection Esh as Esh. injection Esl as Esl.
    rewrite head_fmap, fmap_last, E0, E1. cbn [mbind option_bind fmap option_fmap option_map].
    rewrite (owned_cap _ _ _ s0 (mr_own _ _ _ _ Hrep)), (owned_cap _ _ _ s1 (mr_own _ _ _ _ Hrep)).
    - cbn. now rewrite Esh, Esl.
    - now apply last_Some_elem_of.
    - now apply head_Some_elem_of. }
  repeat (split; [reflexivity|]). split; [|split].
  - exists specs, (replicate (length pairs) []). now rewrite held_none.
  - exists specs, (replicate (length pairs) []). rewrite held_none. split; [|reflexivity].
    destruct Hrep. now constructor.
  - eapply returned_all, (mr_own _ _ _ _ Hrep).
Qed.

Lemma demo_pairs : pairs_ok (shm_len (zero_shm 300)) 0 [mkPair 8 50; mkPair 16 50].
Proof.
  constructor; cbn; try lia; try discriminate.
  - repeat constructor; cbn; try lia; consts; lia.
  - apply NoDup_cons. split; [|apply NoDup_singleton].
    intros H%list_elem_of_singleton. discriminate.
Qed.

Lemma create_then_mapping_witness :
  pairs_ok (shm_len (zero_shm 300)) 0 [mkPair 8 50; mkPair 16 50] /\
  exists bm m' bm', Manager.create (zero_shm 300) [mkPair 8 50; mkPair 16 50] "a" 0 =
      Some (Ok bm, m') /\
    Manager.mapping m' "b" 0 = Some (Ok bm') /\ lists_ bm' = lists_ bm.
Proof.
  split; [exact demo_pairs|].
  destruct (create_then_mapping (zero_shm 300) [mkPair 8 50; mkPair 16 50] "a" "b" 0 demo_pairs)
    as (bm & m' & bm' & H1 & H2 & H3 & _). exists bm, m', bm'. auto.
Defined.

(** * The pool and its users *)








(** * Chains of slices in the mapping *)

(** [recycle_buffers] of the first slice of a message gives every slice of
    the message back, whatever other slices are held. *)
Theorem recycle_buffers_all bm w held t ts b fuel :
  own (Pool := manager_pool bm) (shared w) (t :: ts ++ held) -> msg_chain (shared w) (t :: ts) ->
  slice_of t b -> (length ts < fuel)%nat ->
  exists m', Manager.recycle_buffers fuel w bm b = Some (set_shared w m') /\
    own (Pool := manager_pool bm) m' held /\ keeps held (shared w) m'.
Proof. exact (mgr_recycles bm w held t ts b fuel). Qed.

(** A pool of two lists with one slice out. *)
Lemma demo_pool : exists bm m t, own (Pool := manager_pool bm) m [t] /\ slot_flag m t = 2.
Proof.
  destruct (manager_create_rep (zero_shm 300) [mkPair 8 50; mkPair 16 50] "a" 0)
    as (first & final & m0 & Hc & _ & _ & Hrep & _); [exact demo_pairs|].
  match type of Hrep with mgr_rep ?b _ _ _ => set (bm := b) in * end.
  assert (is_Some ('(r, m0) ← Manager.create (zero_shm 300) [mkPair 8 50; mkPair 16 50] "a" 0;
    match r with
    | Ok bm => match Manager.alloc_shm_buffer m0 bm 5 with
               | Some (Ok s, m') => Some (s, m') | _ => None end
    | Unexpected _ => None end)) as Ha by (vm_compute; eauto).
  rewrite Hc in Ha. cbn [mbind option_bind] in Ha. fold bm in Ha.
  destruct (mgr_alloc bm m0 [] 5) as [(t & m & E & H1 & _ & _ & Hf)|(m & E & _)].
  - eexists _, _. split; [exact Hrep|]. now rewrite held_none.
  - exists bm, m, t. auto.
  - rewrite E in Ha. destruct Ha as [? Ha]. discriminate Ha.
Qed.

Lemma recycle_buffers_all_witness :
  exists bm m t m', own (Pool := manager_pool bm) m [t] /\ msg_chain m [t] /\
    Manager.recycle_buffers 1 (Memory m ∅ 0) bm (fresh_slice t) =
      Some (set_shared (Memory m ∅ 0) m') /\
    own (Pool := manager_pool bm) m' [].
Proof.
  destruct demo_pool as (bm & m & t & H1 & Hf). exists bm, m, t.
  assert (msg_chain m [t]) as Hch by (cbn -[Z.testbit]; now rewrite Hf).
  destruct (recycle_buffers_all bm (Memory m ∅ 0) [] t [] (fresh_slice t) 1) as (m' & R & Ho & _).
  - exact H1.
  - exact Hch.
  - apply fresh_slice_of.
  - cbn. lia.
  - exists m'. auto.
Defined.
