(* ===== verification/Mapping.v ===== *)
(** Creating, mapping and releasing shared memory: [MemoryMap] and
    [QueueManager] of [src/queue.cpp], the factory functions, the process-wide
    table of managers, [add_global_buffer_manager_ref_count] and [unmap] of
    [src/buffer/manager.cpp], and [src/util/dev_shm.cpp].

    The operating system is a record of calls on a state of its own; what the
    theorems rely on is the class [OsLaws]. *)
From stdpp Require Import pretty sorting.
From S2P Require Import Prelude Errors Consts Config Shm Queue Slices Pool BufList Manager.

(** * The operating system *)

(** What a system call answers: a value, or an error number. *)
Inductive sysres (A : Type) := Done (a : A) | Errno (e : Z).
Arguments Done {A} a.
Arguments Errno {A} e.

(** The calls.  [mmap] is that of a shared mapping and answers the memory
    object behind the descriptor; [mem_of] and [set_mem] are the bytes of an
    object, as many as the file has.  [prepare] is [create_directories] of the
    parent and [permissions], [remove_path] is [remove_all]; their errors are
    ignored. *)
Record Os (W : Type) := mkOs {
  memfd_create : string -> W -> sysres Z * W;
  open_file : string -> bool -> W -> sysres Z * W;
  fchmod : Z -> W -> sysres unit * W;
  ftruncate : Z -> Z -> W -> sysres unit * W;
  fstat_size : Z -> W -> sysres Z * W;
  mmap : Z -> Z -> W -> sysres Z * W;
  munmap : Z -> Z -> W -> W;
  close_fd : Z -> W -> sysres unit * W;
  unlink : string -> W -> sysres unit * W;
  path_exists : string -> W -> bool;
  prepare : string -> W -> W;
  remove_path : string -> W -> W;
  statvfs_dev_shm : W -> sysres (Z * Z);
  mem_of : W -> Z -> shm;
  set_mem : W -> Z -> shm -> W;
}.
Arguments memfd_create {W}. Arguments open_file {W}. Arguments fchmod {W}. Arguments ftruncate {W}.
Arguments fstat_size {W}. Arguments mmap {W}. Arguments munmap {W}. Arguments close_fd {W}.
Arguments unlink {W}. Arguments path_exists {W}. Arguments prepare {W}. Arguments remove_path {W}. Arguments statvfs_dev_shm {W}.
Arguments mem_of {W}. Arguments set_mem {W}.

(** * A process *)

(** [MemoryMap]; [None] is the null pointer. *)
Record MemoryMap := mkMap { ptr_ : option Z; map_len_ : Z }.

Record QueueManager := mkQM {
  qm_send_queue : Queue;
  qm_recv_queue : Queue;
  qm_path_ : string;
  qm_memfd_ : Z;
  qm_mem_ : MemoryMap;
  qm_map_type_ : MemMapType;
}.

(** The managers of the process live behind shared pointers, here their numbers;
    [registry] is the table of those by path. *)
Record process (W : Type) := mkProc {
  world : W;
  registry : gmap string nat;
  managers : gmap nat (BufferManager * MemoryMap);
  next_manager : nat;
}.
Arguments mkProc {W}. Arguments world {W}. Arguments registry {W}. Arguments managers {W}.
Arguments next_manager {W}.

Definition set_ref_count (bm : BufferManager) (c : Z) : BufferManager :=
  mkManager (lists_ bm) (min_slice_size_ bm) (max_slice_size_ bm) c (mem_map_type_ bm) (path_ bm) (memfd_ bm).
Definition set_backing (bm : BufferManager) (t : MemMapType) (fd : Z) : BufferManager :=
  mkManager (lists_ bm) (min_slice_size_ bm) (max_slice_size_ bm) (ref_count_ bm) t (path_ bm) fd.

Section operations.
Context {W : Type} (os : Os W) (strerror_r : Z -> option string) (a : arch).

(** Code that runs in the process: [None] is undefined behaviour. *)
Definition io (A : Type) : Type := process W -> option (A * process W).
#[local] Instance io_ret : MRet io := fun A x p => Some (x, p).
#[local] Instance io_bind : MBind io := fun A B f m p => '(x, p) ← m p; f x p.

Definition set_world (p : process W) (w : W) : process W :=
  mkProc w (registry p) (managers p) (next_manager p).
Definition set_registry (p : process W) (r : gmap string nat) : process W :=
  mkProc (world p) r (managers p) (next_manager p).
Definition put_manager (p : process W) (id : nat) (x : BufferManager * MemoryMap) : process W :=
  mkProc (world p) (registry p) (<[id := x]> (managers p)) (next_manager p).

Definition sys {A} (f : W -> A * W) : io A :=
  fun p => let '(r, w) := f (world p) in Some (r, set_world p w).
Definition ask {A} (f : W -> A) : io A := fun p => Some (f (world p), p).
Definition undefined {A} : io A := fun _ => None.
(** Code that works on the bytes of the object [o]. *)
Definition on_memory {A} (o : Z) (f : shm -> option (A * shm)) : io A :=
  fun p => '(x, m) ← f (mem_of os (world p) o); Some (x, set_world p (set_mem os (world p) o m)).

Definition strerror (e : Z) : string := default "" (strerror_r e).
Definition close_ (fd : Z) : io unit := _ ← sys (close_fd os fd); mret tt.

(** [mmap_fd] of queue.cpp and [mmap_fd_len] of manager.cpp. *)
Definition mmap_fd (fd len : Z) : io (result Z) :=
  r ← sys (mmap os fd len);
  match r with
  | Errno e => mret (Unexpected (from_errno strerror_r e))
  | Done o => mret (Ok o)
  end.

Definition map_unmap (m : MemoryMap) : io MemoryMap :=
  match ptr_ m with
  | None => mret m
  | Some o => _ ← sys (fun w => (tt, munmap os o (map_len_ m) w)); mret (mkMap None 0)
  end.

(** Whether [path] has [sub] in it ([std::string::find]). *)
Fixpoint has_substring (sub path : string) : bool :=
  String.prefix sub path ||
  match path with EmptyString => false | String _ path' => has_substring sub path' end.

Definition can_create_on_dev_shm (size : Z) (path : string) : io bool :=
  if has_substring "/dev/shm" path then
    r ← ask (statvfs_dev_shm os);
    match r with
    | Errno _ => mret false
    | Done (f_bavail, f_frsize) => mret (size <=? u64 (f_bavail * f_frsize))
    end
  else mret true.

(** * [QueueManager] *)

(** The two halves of a fresh mapping of [mem_size] bytes. *)
Definition make_queues (mem_size queue_cap : Z) (m : shm) : option (Queue * Queue * shm) :=
  m ← memset0 m 0 mem_size;
  '(send, m) ← create_from_bytes a m 0 queue_cap;
  '(recv, m) ← create_from_bytes a m (mem_size / 2) queue_cap;
  Some (send, recv, m).

Definition create_with_memfd (queue_path : string) (queue_cap : Z) : io (result QueueManager) :=
  r ← sys (memfd_create os ("shmipc" +:+ queue_path));
  match r with
  | Errno e => mret (Unexpected (from_errno strerror_r e))
  | Done memfd =>
      let mem_size := u64 (count_queue_mem_size queue_cap * kQueueCount) in
      r ← sys (ftruncate os memfd (i64 mem_size));
      match r with
      | Errno e =>
          _ ← close_ memfd;
          mret (Unexpected (error_other
            ("create_queue_manager_with_memfd truncate share memory failed: " +:+ strerror e)))
      | Done _ =>
          mem ← mmap_fd memfd mem_size;
          match mem with
          | Unexpected e => _ ← close_ memfd; mret (Unexpected e)
          | Ok o =>
              '(send, recv) ← on_memory o (make_queues mem_size queue_cap);
              mret (Ok (mkQM send recv queue_path memfd (mkMap (Some o) mem_size) kMemFd))
          end
      end
  end.

Definition create_with_file (shm_path : string) (queue_cap : Z) : io (result QueueManager) :=
  _ ← sys (fun w => (tt, prepare os shm_path w));
  existed ← ask (path_exists os shm_path);
  if (existed : bool) then mret (Unexpected (error_other ("queue was existed, path:" +:+ shm_path))) else
  let mem_size := u64 (count_queue_mem_size queue_cap * kQueueCount) in
  room ← can_create_on_dev_shm mem_size shm_path;
  if negb room then
    mret (Unexpected (error_other (snprintf 320
      ("err: share memory had not left space, path:" +:+ shm_path +:+ ", size:" +:+ pretty mem_size))))
  else
  r ← sys (open_file os shm_path true);
  match r with
  | Errno e => mret (Unexpected (from_errno strerror_r e))
  | Done fd =>
      r ← sys (fchmod os fd);
      match r with
      | Errno e => _ ← close_ fd; mret (Unexpected (from_errno strerror_r e))
      | Done _ =>
          r ← sys (ftruncate os fd (i64 mem_size));
          match r with
          | Errno e => _ ← close_ fd; mret (Unexpected (from_errno strerror_r e))
          | Done _ =>
              mem ← mmap_fd fd mem_size;
              _ ← close_ fd;
              match mem with
              | Unexpected e => mret (Unexpected e)
              | Ok o =>
                  '(send, recv) ← on_memory o (make_queues mem_size queue_cap);
                  mret (Ok (mkQM send recv shm_path 0 (mkMap (Some o) mem_size) kDevShmFile))
              end
          end
      end
  end.

(** On aarch64 the size of the mapping has to be a multiple of 16. *)
Definition misaligned (mapping_size : Z) : bool :=
  match a with aarch64 => negb (mapping_size mod 16 =? 0) | x86_64 => false end.
Definition misaligned_error : Error :=
  error_other "the memory size of queue should be a multiple of 16".

(** The peer's two halves, the other way round. *)
Definition cross_queues (mapping_size : Z) (m : shm) : option (Queue * Queue * shm) :=
  send ← mapping_from_bytes a m (mapping_size / 2);
  recv ← mapping_from_bytes a m 0;
  Some (send, recv, m).

Definition mapping_with_memfd (queue_path : string) (memfd : Z) : io (result QueueManager) :=
  r ← sys (fstat_size os memfd);
  match r with
  | Errno e => mret (Unexpected (from_errno strerror_r e))
  | Done st_size =>
      let mapping_size := u64 st_size in
      if misaligned mapping_size then mret (Unexpected misaligned_error) else
      mem ← mmap_fd memfd mapping_size;
      match mem with
      | Unexpected e => mret (Unexpected e)
      | Ok o =>
          '(send, recv) ← on_memory o (cross_queues mapping_size);
          mret (Ok (mkQM send recv queue_path memfd (mkMap (Some o) mapping_size) kMemFd))
      end
  end.

Definition mapping_with_file (shm_path : string) : io (result QueueManager) :=
  r ← sys (open_file os shm_path false);
  match r with
  | Errno e => mret (Unexpected (from_errno strerror_r e))
  | Done fd =>
      r ← sys (fchmod os fd);
      match r with
      | Errno e => _ ← close_ fd; mret (Unexpected (from_errno strerror_r e))
      | Done _ =>
          r ← sys (fstat_size os fd);
          match r with
          | Errno e => _ ← close_ fd; mret (Unexpected (from_errno strerror_r e))
          | Done st_size =>
              let mapping_size := u64 st_size in
              if misaligned mapping_size then _ ← close_ fd; mret (Unexpected misaligned_error) else
              mem ← mmap_fd fd mapping_size;
              _ ← close_ fd;
              match mem with
              | Unexpected e => mret (Unexpected e)
              | Ok o =>
                  '(send, recv) ← on_memory o (cross_queues mapping_size);
                  mret (Ok (mkQM send recv shm_path 0 (mkMap (Some o) mapping_size) kDevShmFile))
              end
          end
      end
  end.

(** [QueueManager::unmap]; an error is logged. *)
Definition queue_manager_unmap (qm : QueueManager) : io unit :=
  match qm_map_type_ qm with
  | kDevShmFile => _ ← sys (unlink os (qm_path_ qm)); mret tt
  | kMemFd => close_ (qm_memfd_ qm)
  end.

(** * The table of managers *)

(** [BufferManager::add_ref]. *)
Definition add_ref (bm : BufferManager) (delta : Z) : BufferManager :=
  set_ref_count bm (i32 (ref_count_ bm + delta)).

(** The first critical section of the factories. *)
Definition lookup_manager (path : string) : io (option nat) := fun p =>
  match registry p !! path with
  | None => Some (None, p)
  | Some id =>
      '(bm, mem) ← managers p !! id;
      Some (Some id, put_manager p id (add_ref bm 1, mem))
  end.

(** The last one: [emplace] keeps what the table has. *)
Definition emplace (path : string) (id : nat) : io unit := fun p =>
  match registry p !! path with
  | Some _ => Some (tt, p)
  | None => Some (tt, set_registry p (<[path := id]> (registry p)))
  end.

(** [std::shared_ptr<BufferManager>(new BufferManager(...))]. *)
Definition new_manager (bm : BufferManager) (mem : MemoryMap) : io nat := fun p =>
  Some (next_manager p,
    mkProc (world p) (registry p) (<[next_manager p := (bm, mem)]> (managers p)) (S (next_manager p))).

(** [std::sort] by size. *)
Definition no_larger (x y : SizePercentPair) : Prop := size x <= size y.
#[local] Instance no_larger_dec x y : Decision (no_larger x y).
Proof. apply Z_le_dec. Defined.
Definition sort_pairs (pairs : list SizePercentPair) : list SizePercentPair :=
  merge_sort no_larger pairs.

(** [BufferManager::create] or [mapping] on a new mapping of [o], registered
    with the backing [t] and [fd].  A failure releases the mapping. *)
Definition build (path : string) (o len : Z) (create : bool) (pairs : list SizePercentPair)
    (t : MemMapType) (fd : Z) : io (result nat) :=
  let mem := mkMap (Some o) len in
  bm ← (if create then on_memory o (fun m => Manager.create m (sort_pairs pairs) path 0)
        else on_memory o (fun m => r ← Manager.mapping m path 0; Some (r, m)));
  match bm with
  | Unexpected e => _ ← map_unmap mem; mret (Unexpected e)
  | Ok bm =>
      id ← new_manager (set_backing bm t fd) mem;
      _ ← emplace path id;
      mret (Ok id)
  end.

Definition invalid_size (st_size : Z) : bool := (st_size <? 0) || (UINT32_MAX <? st_size).

Definition get_with_memfd (path : string) (memfd capacity : Z) (create : bool)
    (pairs : list SizePercentPair) : io (result nat) :=
  found ← lookup_manager path;
  match found with
  | Some id =>
      _ ← (if (0 <? memfd) && negb create then close_ memfd else mret tt);
      mret (Ok id)
  | None =>
      (* the descriptor and the size to map *)
      back ← (if create then
                r ← sys (memfd_create os ("shmipc" +:+ path));
                match r with
                | Errno e => mret (Unexpected (error_other
                    ("BufferManager get_with_memfd memfd_create failed: " +:+ strerror e)))
                | Done fd =>
                    r ← sys (ftruncate os fd capacity);
                    match r with
                    | Errno e => _ ← close_ fd; mret (Unexpected (error_other
                        ("BufferManager get_with_memfd truncate share memory failed: " +:+ strerror e)))
                    | Done _ => mret (Ok (fd, capacity))
                    end
                end
              else
                r ← sys (fstat_size os memfd);
                match r with
                | Errno e => mret (Unexpected (error_other
                    ("BufferManager get_with_memfd mapping failed: " +:+ strerror e)))
                | Done st_size =>
                    if invalid_size st_size then mret (Unexpected (error_other (snprintf 128
                      ("BufferManager get_with_memfd invalid share memory size: " +:+ pretty st_size))))
                    else mret (Ok (memfd, u32 st_size))
                end);
      match back with
      | Unexpected e => mret (Unexpected e)
      | Ok (memfd, capacity) =>
          mem ← mmap_fd memfd capacity;
          match mem with
          | Unexpected e =>
              _ ← (if create then close_ memfd else mret tt);
              mret (Unexpected (error_other ("BufferManager get_with_memfd mmap failed: " +:+ message e)))
          | Ok o => build path o capacity create pairs kMemFd memfd
          end
      end
  end.

Definition get_with_file (shm_path : string) (capacity : Z) (create : bool)
    (pairs : list SizePercentPair) : io (result nat) :=
  found ← lookup_manager shm_path;
  match found with
  | Some id => mret (Ok id)
  | None =>
      _ ← sys (fun w => (tt, prepare os shm_path w));
      back ← (if create then
                room ← can_create_on_dev_shm capacity shm_path;
                if negb room then mret (Unexpected (error_other
                  "get_global_buffer_manager can not create on dev shm"))
                else
                r ← sys (open_file os shm_path true);
                match r with
                | Errno e => mret (Unexpected (from_errno strerror_r e))
                | Done fd =>
                    r ← sys (fchmod os fd);
                    r ← match r with
                        | Errno e => mret (Errno e)
                        | Done _ => sys (ftruncate os fd capacity)
                        end;
                    match r with
                    | Errno e => _ ← close_ fd; mret (Unexpected (from_errno strerror_r e))
                    | Done _ => mret (Ok (fd, capacity))
                    end
                end
              else
                r ← sys (open_file os shm_path false);
                match r with
                | Errno e => mret (Unexpected (from_errno strerror_r e))
                | Done fd =>
                    r ← sys (fstat_size os fd);
                    match r with
                    | Errno e => _ ← close_ fd; mret (Unexpected (error_other
                        ("get_global_buffer_manager mapping failed, " +:+ strerror e)))
                    | Done st_size =>
                        if invalid_size st_size then
                          _ ← close_ fd;
                          mret (Unexpected (error_other (snprintf 128
                            ("get_global_buffer_manager invalid share memory size: " +:+ pretty st_size))))
                        else mret (Ok (fd, u32 st_size))
                    end
                end);
      match back with
      | Unexpected e => mret (Unexpected e)
      | Ok (fd, capacity) =>
          mem ← mmap_fd fd capacity;
          _ ← close_ fd;
          match mem with
          | Unexpected e => mret (Unexpected e)
          | Ok o => build shm_path o capacity create pairs kDevShmFile 0
          end
      end
  end.

(** The wait of [BufferManager::unmap]: [rounds] checks at most.  [during] is
    what others do to the memory while the thread sleeps. *)
Fixpoint wait_returned (rounds : nat) (during : nat -> W -> W) (bm : BufferManager) (o : Z) : io unit :=
  match rounds with
  | O => mret tt
  | S rounds' =>
      m ← ask (fun w => mem_of os w o);
      match Manager.check_buffer_returned m bm with
      | None => undefined
      | Some true => mret tt
      | Some false =>
          _ ← sys (fun w => (tt, during rounds' w));
          wait_returned rounds' during bm o
      end
  end.

(** [BufferManager::unmap] of the manager [id].  Checking the buffers of an
    unmapped manager is undefined. *)
Definition unmap_manager (during : nat -> W -> W) (id : nat) : io unit := fun p =>
  '(bm, mem) ← managers p !! id;
  o ← ptr_ mem;
  '(_, p) ← wait_returned 50 during bm o p;
  '(mem, p) ← map_unmap mem p;
  let p := put_manager p id (bm, mem) in
  match mem_map_type_ bm with
  | kDevShmFile => '(_, p) ← sys (unlink os (path_ bm)) p; Some (tt, p)
  | kMemFd => close_ (memfd_ bm) p
  end.

(** [add_global_buffer_manager_ref_count]: the entry is taken out under the
    lock, counted down outside it, and put back under the lock. *)
Definition take_out (path : string) : io (option nat) := fun p =>
  Some (registry p !! path, set_registry p (delete path (registry p))).
Definition count_down (during : nat -> W -> W) (id : nat) (c : Z) : io bool := fun p =>
  '(bm, mem) ← managers p !! id;
  let old := ref_count_ bm in
  let p := put_manager p id (add_ref bm c, mem) in
  if i32 (old + c) <=? 0 then '(_, p) ← unmap_manager during id p; Some (true, p)
  else Some (false, p).
Definition add_global_buffer_manager_ref_count (during : nat -> W -> W) (path : string) (c : Z) : io unit :=
  found ← take_out path;
  match found with
  | None => mret tt
  | Some id =>
      gone ← count_down during id c;
      if (gone : bool) then mret tt else emplace path id
  end.

(** [init_manager] of [src/protocol/protocol.cpp]: a client's managers. *)
Definition make_managers (config : Config) : io (result (nat * QueueManager)) :=
  let buffer_path := share_memory_path_prefix config +:+ kBufferPathSuffix in
  let no_buffers e := error_other ("create share memory buffer manager failed, error=" +:+ message e) in
  let no_queues e := error_other ("create share memory queue manager failed, error=" +:+ message e) in
  bm ← match mem_map_type config with
       | kDevShmFile =>
           bm ← get_with_file buffer_path (share_memory_buffer_cap config) true (buffer_slice_sizes config);
           match bm with
           | Unexpected e => _ ← sys (fun w => (tt, remove_path os buffer_path w)); mret (Unexpected e)
           | Ok id => mret (Ok id)
           end
       | kMemFd => get_with_memfd buffer_path 0 (share_memory_buffer_cap config) true (buffer_slice_sizes config)
       end;
  match bm with
  | Unexpected e => mret (Unexpected (no_buffers e))
  | Ok id =>
      qm ← match mem_map_type config with
           | kDevShmFile =>
               qm ← create_with_file (queue_path config) (queue_cap config);
               match qm with
               | Unexpected e => _ ← sys (fun w => (tt, remove_path os (queue_path config) w)); mret (Unexpected e)
               | Ok qm => mret (Ok qm)
               end
           | kMemFd => create_with_memfd (queue_path config) (queue_cap config)
           end;
      match qm with
      | Unexpected e => mret (Unexpected (no_queues e))
      | Ok qm => mret (Ok (id, qm))
      end
  end.
End operations.

(** * What the theorems rely on *)

(** [fds] is the set of open descriptors.  A new descriptor is not in use;
    [close] releases its argument; the other calls leave the set alone.  A
    mapping shows as many bytes as the file was set to or is reported to have,
    and keeps them when the descriptor is closed; memory holds what was stored,
    and only [ftruncate] and opening a file anew change it otherwise. *)
Class OsLaws {W : Type} (os : Os W) := {
  fds : W -> gset Z;
  fds_memfd_create name w r w' : memfd_create os name w = (r, w') ->
    match r with Done fd => (fd ∉ fds w) /\ fds w' = {[fd]} ∪ fds w | Errno _ => fds w' = fds w end;
  fds_open path b w r w' : open_file os path b w = (r, w') ->
    match r with Done fd => (fd ∉ fds w) /\ fds w' = {[fd]} ∪ fds w | Errno _ => fds w' = fds w end;
  fds_close fd w r w' : close_fd os fd w = (r, w') -> fds w' = fds w ∖ {[fd]};
  fds_fchmod fd w r w' : fchmod os fd w = (r, w') -> fds w' = fds w;
  fds_ftruncate fd n w r w' : ftruncate os fd n w = (r, w') -> fds w' = fds w;
  fds_fstat fd w r w' : fstat_size os fd w = (r, w') -> fds w' = fds w;
  fds_mmap fd n w r w' : mmap os fd n w = (r, w') -> fds w' = fds w;
  fds_munmap o n w : fds (munmap os o n w) = fds w;
  fds_prepare path w : fds (prepare os path w) = fds w;
  fds_set_mem w o m : fds (set_mem os w o m) = fds w;
  mem_set_mem w o m : mem_of os (set_mem os w o m) o = m;
  mem_close fd w r w' o : close_fd os fd w = (r, w') -> mem_of os w' o = mem_of os w o;
  mem_open path w r w' o : open_file os path false w = (r, w') -> mem_of os w' o = mem_of os w o;
  mem_fchmod fd w r w' o : fchmod os fd w = (r, w') -> mem_of os w' o = mem_of os w o;
  mem_fstat fd w r w' o : fstat_size os fd w = (r, w') -> mem_of os w' o = mem_of os w o;
  mem_mmap fd n w r w' o : mmap os fd n w = (r, w') -> mem_of os w' o = mem_of os w o;
  mem_truncated fd n w r w1 o w2 : ftruncate os fd n w = (Done r, w1) -> mmap os fd n w1 = (Done o, w2) ->
    shm_len (mem_of os w2 o) = n;
  mem_stat fd n w w1 o w2 : fstat_size os fd w = (Done n, w1) -> mmap os fd (u64 n) w1 = (Done o, w2) ->
    shm_len (mem_of os w2 o) = n /\ 0 <= n < 9223372036854775808;
}.

Section laws.
Context {W : Type} (os : Os W) `{!OsLaws os} (strerror_r : Z -> option string) (a : arch).

Lemma io_bind_inv {A B} (m : io (W := W) A) (f : A -> io B) p y p' :
  io_bind A B f m p = Some (y, p') -> exists x p1, m p = Some (x, p1) /\ f x p1 = Some (y, p').
Proof.
  unfold io_bind. destruct (m p) as [[x p1]|]; cbn; [|discriminate]. eauto.
Qed.

Lemma sys_inv {A} (f : W -> A * W) p x p' : sys f p = Some (x, p') ->
  exists w, f (world p) = (x, w) /\ p' = set_world p w.
Proof. unfold sys. destruct (f (world p)) as [y w]. intros E. simplify_eq/=. eauto. Qed.

Lemma on_memory_inv {A} o (f : shm -> option (A * shm)) p x p' : on_memory os o f p = Some (x, p') ->
  exists m, f (mem_of os (world p) o) = Some (x, m) /\ p' = set_world p (set_mem os (world p) o m).
Proof.
  unfold on_memory. destruct (f _) as [[y m]|]; cbn; intros E; simplify_eq. eauto.
Qed.

Lemma close_inv fd p x p' : close_ os fd p = Some (x, p') ->
  exists w, p' = set_world p w /\ fds w = fds (world p) ∖ {[fd]} /\
    (forall o, mem_of os w o = mem_of os (world p) o).
Proof.
  intros H. apply io_bind_inv in H as (r & p1 & H & E). unfold mret, io_ret in E. simplify_eq.
  apply sys_inv in H as (w & H & ->). exists w. split; [reflexivity|].
  split; [eapply fds_close, H|]. intros o. eapply mem_close, H.
Qed.

Lemma mmap_fd_inv fd len p r p' : mmap_fd os strerror_r fd len p = Some (r, p') ->
  exists w, p' = set_world p w /\ fds w = fds (world p) /\
    (forall o, r = Ok o -> mmap os fd len (world p) = (Done o, w)).
Proof.
  intros H. apply io_bind_inv in H as (x & p1 & H & E). apply sys_inv in H as (w & H & ->).
  pose proof (fds_mmap _ _ _ _ _ H) as Hf. exists w. destruct x as [o|e]; unfold mret, io_ret in E; injection E as <- <-;
    (split; [reflexivity|]; split; [exact Hf|]); intros o' Eo; [injection Eo as <-; exact H|discriminate].
Qed.

Lemma can_create_inv size path p r p' : can_create_on_dev_shm os size path p = Some (r, p') -> p' = p.
Proof.
  unfold can_create_on_dev_shm. destruct (has_substring _ _); [|intros [= _ <-]; reflexivity].
  intros H. apply io_bind_inv in H as (x & p1 & H & E). injection H as _ <-.
  destruct x as [[]|]; injection E as _ <-; reflexivity.
Qed.
End laws.

(** Run the code in a hypothesis up to its next branch. *)
Ltac io_step :=
  match goal with
  | H : mbind _ _ _ = Some _ |- _ => apply io_bind_inv in H as (? & ? & ? & ?)
  | H : mret _ _ = Some _ |- _ => unfold mret, io_ret in H; simplify_eq
  | H : sys _ _ = Some _ |- _ => apply sys_inv in H as (? & ? & ?)
  | H : close_ ?os _ _ = Some _ |- _ => apply (close_inv os) in H as (? & ? & ? & ?)
  | H : mmap_fd ?os _ _ _ _ = Some _ |- _ => apply (mmap_fd_inv os) in H as (? & ? & ? & ?)
  | H : on_memory _ _ _ _ = Some _ |- _ => apply on_memory_inv in H as (? & ? & ?)
  | H : can_create_on_dev_shm _ _ _ _ = Some _ |- _ => apply can_create_inv in H
  | H : ask _ _ = Some _ |- _ => unfold ask in H; simplify_eq
  | H : (match ?x with _ => _ end) _ = Some _ |- _ => destruct x eqn:?
  | H : (if ?x then _ else _) _ = Some _ |- _ => destruct x eqn:?
  | H : (let '(_, _) := ?x in _) _ = Some _ |- _ => destruct x eqn:?
  end.


Section descriptors.
Context {W : Type} (os : Os W) `{!OsLaws os} (strerror_r : Z -> option string) (a : arch).








Lemma emplace_inv path id (p : process W) r p' : emplace path id p = Some (r, p') -> world p' = world p.
Proof. unfold emplace. destruct (registry p !! path); intros [= _ <-]; reflexivity. Qed.

Lemma map_unmap_inv mem p mem' p' : map_unmap os mem p = Some (mem', p') ->
  fds (world p') = fds (world p) /\ registry p' = registry p /\ managers p' = managers p /\
  next_manager p' = next_manager p /\ (mem' = mem \/ ptr_ mem' = None).
Proof.
  unfold map_unmap. destruct (ptr_ mem) as [o|]; intros H; [|injection H as <- <-; auto 10].
  apply io_bind_inv in H as (x & p1 & H1 & H). injection H1 as _ <-. injection H as <- <-.
  cbn. rewrite fds_munmap. auto 10.
Qed.

Lemma build_fds path o len create pairs t fd p r p' : build os path o len create pairs t fd p = Some (r, p') ->
  fds (world p') = fds (world p).
Proof.
  unfold build. intros H. apply io_bind_inv in H as (bm & p1 & H1 & H).
  assert (fds (world p1) = fds (world p)) as E1.
  { destruct create; apply on_memory_inv in H1 as (m & _ & ->); cbn; apply fds_set_mem. }
  destruct bm as [bm|e]; apply io_bind_inv in H as (id & p2 & H2 & H).
  - injection H2 as <- <-. apply io_bind_inv in H as (x & p3 & H3 & H). injection H as _ <-.
    apply emplace_inv in H3 as ->. exact E1.
  - injection H as _ <-. apply map_unmap_inv in H2 as (-> & _). exact E1.
Qed.




(** The exception of the theorem above: when the slices a client configured are
    refused, the descriptor of the memfd it made for them stays open. *)
Lemma refused_buffers_leak path cap pairs p e p' fd w w1 o w2 :
  registry p !! path = None -> memfd_create os ("shmipc" +:+ path) (world p) = (Done fd, w) ->
  ftruncate os fd cap w = (Done tt, w1) -> mmap os fd cap w1 = (Done o, w2) ->
  get_with_memfd os strerror_r path 0 cap true pairs p = Some (Unexpected e, p') ->
  (fd ∉ fds (world p)) /\ fds (world p') = {[fd]} ∪ fds (world p).
Proof.
  intros Hn H1 H2 H3 H. unfold get_with_memfd in H. apply io_bind_inv in H as (found & p1 & Hl & H).
  unfold lookup_manager in Hl. rewrite Hn in Hl. injection Hl as <- <-.
  apply io_bind_inv in H as (back & p1 & Hb & H). unfold mbind, io_bind, sys in Hb.
  rewrite H1 in Hb. cbn in Hb. rewrite H2 in Hb. injection Hb as <- <-.
  apply io_bind_inv in H as (mem & p2 & Hm & H). unfold mmap_fd, mbind, io_bind, sys in Hm. cbn in Hm.
  rewrite H3 in Hm. injection Hm as <- <-. apply build_fds in H. rewrite H. cbn.
  apply fds_memfd_create in H1 as [? ?]. apply fds_ftruncate in H2. apply fds_mmap in H3.
  split; congruence.
Qed.
End descriptors.

(** * The two sides of a queue *)

Section queues.
Context {W : Type} (os : Os W) `{!OsLaws os} (strerror_r : Z -> option string) (a : arch).

(** The size of both halves. *)
Definition both_halves (cap : Z) : Z := 2 * (24 + 12 * cap).

Lemma mem_size_both cap : 0 <= cap < 4294967296 ->
  u64 (count_queue_mem_size cap * kQueueCount) = both_halves cap /\ i64 (both_halves cap) = both_halves cap /\
  both_halves cap / 2 = 24 + 12 * cap.
Proof.
  intros H. unfold count_queue_mem_size, both_halves. change kQueueHeaderLength with 24.
  change kQueueElementLen with 12. change kQueueCount with 2. rewrite (u64_id (24 + 12 * cap)) by lia.
  rewrite u64_id, i64_id by lia. split; [lia|]. split; [lia|]. rewrite Z.mul_comm. apply Z.div_mul. lia.
Qed.

(** Both queues are there, empty, with nobody working. *)
Record halves_ready (cap : Z) (m : shm) : Prop := {
  hr_first : queue_rep a 0 cap m 0 [];
  hr_second : queue_rep a (24 + 12 * cap) cap m 0 [];
  hr_flag1 : flag_of a 0 cap m = 0;
  hr_flag2 : flag_of a (24 + 12 * cap) cap m = 0;
}.

Lemma make_queues_ok cap m : 0 <= cap < 4294967296 -> shm_len m = both_halves cap ->
  exists m', make_queues a (both_halves cap) cap m =
    Some (queue_at a 0 cap, queue_at a (24 + 12 * cap) cap, m') /\ halves_ready cap m' /\
    shm_len m' = shm_len m.
Proof.
  intros Hcap Hl. unfold make_queues. destruct (mem_size_both cap Hcap) as (_ & _ & ->).
  unfold memset0, store_bytes, both_halves in *. rewrite length_replicate, Z2Nat.id by lia.
  assert (in_bounds m 0 (2 * (24 + 12 * cap)) = true) as -> by (unfold in_bounds; rewrite Hl; lia).
  rewrite orb_true_r. cbn [mbind option_bind].
  set (m0 := put_bytes _ _ _). assert (shm_len m0 = shm_len m) as Hl0 by apply put_bytes_len.
  destruct (create_from_bytes_rep a 0 cap m0) as (m1 & -> & R1 & S1 & F1).
  { unfold queue_fits. lia. }
  cbn [mbind option_bind]. destruct S1 as [L1 S1].
  destruct (create_from_bytes_rep a (24 + 12 * cap) cap m1) as (m2 & -> & R2 & [L2 S2] & F2).
  { unfold queue_fits. lia. }
  cbn [mbind option_bind]. exists m2. split; [reflexivity|]. split; [|lia].
  assert (same_on 0 (24 + 12 * cap) m1 m2) as Hs by (intros b Hb; apply S2; lia).
  constructor; auto.
  - eapply queue_rep_frame; [exact R1|lia|exact Hs].
  - unfold flag_of. etransitivity; [|exact F1]. symmetry. apply (get_le_ext 4). intros b Hb. apply Hs.
    pose proof (flag_place a 0 cap). lia.
Qed.

(** Mapping the same memory gives the two queues with their roles exchanged. *)
Lemma cross_queues_ok cap m : 0 <= cap < 4294967296 -> halves_ready cap m ->
  cross_queues a (both_halves cap) m = Some (queue_at a (24 + 12 * cap) cap, queue_at a 0 cap, m).
Proof.
  intros Hcap [H1 H2 _ _]. unfold cross_queues. destruct (mem_size_both cap Hcap) as (_ & _ & ->).
  rewrite (mapping_from_bytes_rep a (24 + 12 * cap) cap m 0 [] H2). cbn [mbind option_bind].
  rewrite (mapping_from_bytes_rep a 0 cap m 0 [] H1). reflexivity.
Qed.

(** A client's manager over the object [o]. *)
Record made (cap : Z) (qm : QueueManager) (p : process W) (o : Z) : Prop := {
  md_map : qm_mem_ qm = mkMap (Some o) (both_halves cap);
  md_send : qm_send_queue qm = queue_at a 0 cap;
  md_recv : qm_recv_queue qm = queue_at a (24 + 12 * cap) cap;
  md_len : shm_len (mem_of os (world p) o) = both_halves cap;
  md_ready : halves_ready cap (mem_of os (world p) o);
}.

Lemma create_with_memfd_made path cap p qm p' : 0 <= cap < 4294967296 ->
  create_with_memfd os strerror_r a path cap p = Some (Ok qm, p') -> exists o, made cap qm p' o.
Proof.
  intros Hcap H. unfold create_with_memfd in H. destruct (mem_size_both cap Hcap) as (E1 & E2 & E3).
  rewrite E1, E2 in H. repeat io_step; subst; cbn [world set_world] in *.
  match goal with H : forall o, Ok ?x = Ok o -> _ |- _ => specialize (H x eq_refl); exists x; rename x into o end.
  match goal with Ht : ftruncate _ _ _ _ = _, Hm : mmap _ _ _ _ = _ |- _ =>
    pose proof (mem_truncated _ _ _ _ _ _ _ Ht Hm) as Hl end.
  destruct (make_queues_ok cap _ Hcap Hl) as (m' & Em & Hr & Hl').
  match goal with H : make_queues _ _ _ _ = _ |- _ => rewrite Em in H; injection H as <- <- <- end.
  constructor; cbn; auto; rewrite mem_set_mem; [congruence|exact Hr].
Qed.

Lemma create_with_file_made path cap p qm p' : 0 <= cap < 4294967296 ->
  create_with_file os strerror_r a path cap p = Some (Ok qm, p') -> exists o, made cap qm p' o.
Proof.
  intros Hcap H. unfold create_with_file in H. destruct (mem_size_both cap Hcap) as (E1 & E2 & E3).
  rewrite E1, E2 in H. repeat io_step; subst; cbn [world set_world] in *.
  match goal with H : forall o, Ok ?x = Ok o -> _ |- _ => specialize (H x eq_refl); exists x; rename x into o end.
  match goal with Ht : ftruncate _ _ _ _ = _, Hm : mmap _ _ _ _ = _, Hc : forall o, mem_of _ _ o = _ |- _ =>
    pose proof (mem_truncated _ _ _ _ _ _ _ Ht Hm) as Hl; rewrite <- Hc in Hl end.
  destruct (make_queues_ok cap _ Hcap Hl) as (m' & Em & Hr & Hl').
  match goal with H : make_queues _ _ _ _ = _ |- _ => rewrite Em in H; injection H as <- <- <- end.
  constructor; cbn; auto; rewrite mem_set_mem; [congruence|exact Hr].
Qed.

(** A server's manager over the object [o], with its bytes as they were. *)
Record crossed (cap : Z) (qm : QueueManager) (q q' : process W) (o : Z) : Prop := {
  cr_send : qm_send_queue qm = queue_at a (24 + 12 * cap) cap;
  cr_recv : qm_recv_queue qm = queue_at a 0 cap;
  cr_mem : mem_of os (world q') o = mem_of os (world q) o;
}.

(** The last step of both mappings. *)
Lemma cross_mapped cap o n w w1 w2 m' send recv : 0 <= cap < 4294967296 ->
  shm_len (mem_of os w o) = both_halves cap -> halves_ready cap (mem_of os w o) ->
  (forall o, mem_of os w2 o = mem_of os w o) -> shm_len (mem_of os w1 o) = n ->
  (forall o, mem_of os w1 o = mem_of os w o) -> 0 <= n < 9223372036854775808 ->
  cross_queues a (u64 n) (mem_of os w2 o) = Some (send, recv, m') ->
  send = queue_at a (24 + 12 * cap) cap /\ recv = queue_at a 0 cap /\ m' = mem_of os w o.
Proof.
  intros Hcap Hl Hr E2 En E1 Hn H. rewrite E1, Hl in En. subst n.
  rewrite u64_id, E2, (cross_queues_ok cap _ Hcap Hr) in H by lia. by simplify_eq.
Qed.

Lemma mapping_with_memfd_crossed path fd cap q qm q' o : 0 <= cap < 4294967296 ->
  shm_len (mem_of os (world q) o) = both_halves cap -> halves_ready cap (mem_of os (world q) o) ->
  mapping_with_memfd os strerror_r a path fd q = Some (Ok qm, q') -> ptr_ (qm_mem_ qm) = Some o ->
  crossed cap qm q q' o.
Proof.
  intros Hcap Hl Hr H Hp. unfold mapping_with_memfd in H. repeat io_step; subst; cbn in *.
  injection Hp as ->.
  match goal with H : forall o, Ok ?x = Ok o -> _ |- _ => specialize (H x eq_refl) end.
  match goal with Hs : fstat_size _ _ _ = (Done ?n, ?w1), Hm : mmap _ _ _ ?w1 = (Done ?o, ?w2),
    Hc : cross_queues _ _ _ = Some (?x, ?y, ?m) |- _ =>
    destruct (mem_stat _ _ _ _ _ _ Hs Hm) as [En Hn];
    assert (forall o, mem_of os w2 o = mem_of os (world q) o) as Ew
      by (intros o'; rewrite (mem_mmap _ _ _ _ _ o' Hm); eapply mem_fstat, Hs);
    destruct (cross_mapped cap o n (world q) w2 w2 m x y) as (-> & -> & ->); auto end.
  constructor; cbn; auto. apply mem_set_mem.
Qed.

Lemma mapping_with_file_crossed path cap q qm q' o : 0 <= cap < 4294967296 ->
  shm_len (mem_of os (world q) o) = both_halves cap -> halves_ready cap (mem_of os (world q) o) ->
  mapping_with_file os strerror_r a path q = Some (Ok qm, q') -> ptr_ (qm_mem_ qm) = Some o ->
  crossed cap qm q q' o.
Proof.
  intros Hcap Hl Hr H Hp. unfold mapping_with_file in H. repeat io_step; subst; cbn in *.
  injection Hp as ->.
  match goal with H : forall o, Ok ?x = Ok o -> _ |- _ => specialize (H x eq_refl) end.
  match goal with Ho : open_file _ _ _ _ = _, Hf : fchmod _ _ _ = _, Hs : fstat_size _ _ _ = (Done ?n, ?w1),
    Hm : mmap _ _ _ ?w1 = (Done ?o, ?w2), Hcl : forall o, mem_of _ ?w3 o = mem_of _ ?w2 o,
    Hc : cross_queues _ _ _ = Some (?x, ?y, ?m) |- _ =>
    destruct (mem_stat _ _ _ _ _ _ Hs Hm) as [En Hn];
    assert (forall o, mem_of os w2 o = mem_of os (world q) o) as Ew
      by (intros o'; rewrite (mem_mmap _ _ _ _ _ o' Hm), (mem_fstat _ _ _ _ o' Hs), (mem_fchmod _ _ _ _ o' Hf);
          eapply mem_open, Ho);
    destruct (cross_mapped cap o n (world q) w2 w3 m x y) as (-> & -> & ->); auto;
      [intros o'; now rewrite Hcl|] end.
  constructor; cbn; auto. apply mem_set_mem.
Qed.

(** C23: the two sides of a connection share two queues with their roles
    exchanged.  Queues a client has made, in a memfd or in a file, and a server
    has mapped from the same memory are one queue from the client to the server
    and one from the server to the client; both are empty, nobody works on them,
    and they lie side by side in the memory without overlapping. *)
Theorem queues_crossed (cap : Z) (path path' : string) (fd : Z) (p p' q q' : process W)
    (qm qm' : QueueManager) : 0 <= cap < 4294967296 ->
  create_with_memfd os strerror_r a path cap p = Some (Ok qm, p') \/
  create_with_file os strerror_r a path cap p = Some (Ok qm, p') ->
  mapping_with_memfd os strerror_r a path' fd q = Some (Ok qm', q') \/
  mapping_with_file os strerror_r a path' q = Some (Ok qm', q') ->
  ptr_ (qm_mem_ qm') = ptr_ (qm_mem_ qm) ->
  (forall o, ptr_ (qm_mem_ qm) = Some o -> mem_of os (world q) o = mem_of os (world p') o) ->
  qm_send_queue qm' = qm_recv_queue qm /\ qm_recv_queue qm' = qm_send_queue qm /\
  qm_send_queue qm = queue_at a 0 cap /\ qm_recv_queue qm = queue_at a (24 + 12 * cap) cap /\
  exists o, ptr_ (qm_mem_ qm) = Some o /\ halves_ready cap (mem_of os (world q') o).
Proof.
  intros Hcap Hc Hm Hp Hsame.
  assert (exists o, made cap qm p' o) as [o [M1 M2 M3 M4 M5]]
    by (destruct Hc as [Hc|Hc]; [eapply create_with_memfd_made|eapply create_with_file_made]; eauto).
  rewrite M1 in Hp, Hsame. cbn in Hp, Hsame. specialize (Hsame o eq_refl). rewrite <- Hsame in M4, M5.
  assert (crossed cap qm' q q' o) as [C1 C2 C3]
    by (destruct Hm as [Hm|Hm]; [eapply mapping_with_memfd_crossed|eapply mapping_with_file_crossed]; eauto).
  rewrite C1, C2, M2, M3. repeat split. exists o. rewrite M1, C3. auto.
Qed.
End queues.

(** * A small operating system *)

(** Descriptors and files by the number of their memory object.  Every call
    succeeds that can. *)
Record toy := mkToy { t_open : gmap Z Z; t_files : gmap string Z; t_mem : gmap Z shm }.

Definition fresh_key {A} (m : gmap Z A) : Z := 1 + map_fold (fun k _ n => Z.max k n) 0 m.

Lemma fresh_key_None {A} (m : gmap Z A) : m !! fresh_key m = None.
Proof.
  assert (forall k, is_Some (m !! k) -> k <= map_fold (fun k _ n => Z.max k n) 0 m) as H.
  { apply (map_fold_weak_ind (fun n m => forall k, is_Some (m !! k) -> k <= n)).
    - intros k [x Hx]. now rewrite lookup_empty in Hx.
    - intros i x m' n Hi IH k [y Hy]. destruct (decide (i = k)) as [<-|Hne]; [lia|].
      rewrite lookup_insert_ne in Hy by exact Hne. specialize (IH k (mk_is_Some _ _ Hy)). lia. }
  destruct (m !! fresh_key m) as [x|] eqn:E; [|reflexivity].
  specialize (H _ (mk_is_Some _ _ E)). unfold fresh_key in H. lia.
Qed.

Definition toy_mem (w : toy) (o : Z) : shm := default (zero_shm 0) (t_mem w !! o).
Definition toy_set (w : toy) (o : Z) (m : shm) : toy := mkToy (t_open w) (t_files w) (<[o := m]> (t_mem w)).
Definition toy_fd (w : toy) (o : Z) : sysres Z * toy :=
  let fd := fresh_key (t_open w) in (Done fd, mkToy (<[fd := o]> (t_open w)) (t_files w) (t_mem w)).

Definition toy_os : Os toy := {|
  memfd_create name w := let o := fresh_key (t_mem w) in toy_fd (toy_set w o (zero_shm 0)) o;
  open_file path create w :=
    match t_files w !! path with
    | Some o => toy_fd (if create then toy_set w o (zero_shm 0) else w) o
    | None =>
        if create then
          let o := fresh_key (t_mem w) in
          toy_fd (mkToy (t_open w) (<[path := o]> (t_files w)) (<[o := zero_shm 0]> (t_mem w))) o
        else (Errno 2, w)
    end;
  fchmod fd w := (Done tt, w);
  ftruncate fd n w :=
    match t_open w !! fd with
    | Some o => (Done tt, toy_set w o (Shm n (shm_data (toy_mem w o))))
    | None => (Errno 9, w)
    end;
  fstat_size fd w :=
    match t_open w !! fd with
    | Some o =>
        let n := shm_len (toy_mem w o) in
        if (0 <=? n) && (n <? 9223372036854775808) then (Done n, w) else (Errno 75, w)
    | None => (Errno 9, w)
    end;
  mmap fd n w := match t_open w !! fd with Some o => (Done o, w) | None => (Errno 9, w) end;
  munmap o n w := w;
  close_fd fd w :=
    (if bool_decide (is_Some (t_open w !! fd)) then Done tt else Errno 9,
     mkToy (delete fd (t_open w)) (t_files w) (t_mem w));
  unlink path w := (Done tt, mkToy (t_open w) (delete path (t_files w)) (t_mem w));
  path_exists path w := bool_decide (is_Some (t_files w !! path));
  prepare path w := w;
  remove_path path w := mkToy (t_open w) (delete path (t_files w)) (t_mem w);
  statvfs_dev_shm w := Done (1048576, 4096);
  mem_of := toy_mem;
  set_mem := toy_set;
|}.

Lemma toy_fd_fds w o r w' : toy_fd w o = (r, w') ->
  match r with
  | Done fd => (fd ∉ dom (t_open w)) /\ dom (t_open w') = {[fd]} ∪ dom (t_open w)
  | Errno _ => dom (t_open w') = dom (t_open w)
  end.
Proof.
  unfold toy_fd. intros [= <- <-]. cbn. split; [|apply dom_insert_L].
  apply not_elem_of_dom, fresh_key_None.
Qed.

#[global] Instance toy_laws : OsLaws toy_os.
Proof.
  apply (Build_OsLaws toy toy_os (fun w => dom (t_open w))).
  - intros name w r w' H. exact (toy_fd_fds _ _ _ _ H).
  - intros path b w r w' H. cbn in H. destruct (t_files w !! path) as [o|].
    + destruct b; exact (toy_fd_fds _ _ _ _ H).
    + destruct b; [exact (toy_fd_fds _ _ _ _ H)|]. by simplify_eq.
  - intros fd w r w' H. cbn in H. simplify_eq. cbn. apply dom_delete_L.
  - intros fd w r w' H. cbn in H. by simplify_eq.
  - intros fd n w r w' H. cbn in H. case_match; by simplify_eq.
  - intros fd w r w' H. cbn in H. repeat case_match; by simplify_eq.
  - intros fd n w r w' H. cbn in H. case_match; by simplify_eq.
  - reflexivity.
  - reflexivity.
  - reflexivity.
  - intros w o m. cbn. unfold toy_mem, toy_set. cbn. now rewrite lookup_insert_eq.
  - intros fd w r w' o H. cbn in H. by simplify_eq.
  - intros path w r w' o H. cbn in H. destruct (t_files w !! path); [|by simplify_eq].
    unfold toy_fd in H. by simplify_eq.
  - intros fd w r w' o H. cbn in H. by simplify_eq.
  - intros fd w r w' o H. cbn in H. repeat case_match; by simplify_eq.
  - intros fd n w r w' o H. cbn in H. case_match; by simplify_eq.
  - intros fd n w r w1 o w2 H1 H2. cbn in H1, H2. destruct (t_open w !! fd) as [o'|] eqn:E; [|discriminate].
    simplify_eq. cbn in H2. rewrite E in H2. simplify_eq. cbn. unfold toy_mem. cbn. now rewrite lookup_insert_eq.
  - intros fd n w w1 o w2 H1 H2. cbn in H1, H2. destruct (t_open w !! fd) as [o'|] eqn:E; [|discriminate].
    destruct (_ && _) eqn:Eb; [|discriminate]. simplify_eq. rewrite E in H2. simplify_eq.
    split; [reflexivity|]. lia.
Defined.

(** * Witnesses *)

Definition toy_proc : process toy := mkProc (mkToy ∅ ∅ ∅) ∅ ∅ 0.

(** One side makes queues, the other maps them. *)
Definition toy_create := create_with_memfd toy_os (fun _ => None) x86_64 "/q" 2 toy_proc.
Definition toy_map (p : process toy) := mapping_with_memfd toy_os (fun _ => None) x86_64 "/q" 1 p.
Definition toy_check : bool :=
  match toy_create with
  | Some (Ok qm, p) =>
      match toy_map p with
      | Some (Ok qm', _) => bool_decide (ptr_ (qm_mem_ qm') = ptr_ (qm_mem_ qm))
      | _ => false
      end
  | _ => false
  end.

Lemma toy_check_ok : toy_check = true.
Proof. vm_compute. reflexivity. Qed.


Lemma queues_crossed_witness : exists qm qm' p' q',
  toy_create = Some (Ok qm, p') /\ toy_map p' = Some (Ok qm', q') /\
  qm_send_queue qm' = qm_recv_queue qm /\ qm_recv_queue qm' = qm_send_queue qm.
Proof.
  pose proof toy_check_ok as Hc. unfold toy_check in Hc.
  destruct toy_create as [[[qm|e] p']|] eqn:E; try discriminate.
  destruct (toy_map p') as [[[qm' |e] q']|] eqn:E'; try discriminate. apply bool_decide_eq_true in Hc.
  exists qm, qm', p', q'. split; [reflexivity|]. split; [exact E'|].
  destruct (queues_crossed toy_os (fun _ => None) x86_64 2 "/q" "/q" 1 toy_proc p' p' q' qm qm')
    as (H1 & H2 & _); [lia|left; exact E|left; exact E'|exact Hc|reflexivity|auto].
Defined.
