(* ===== verification/Sizing.v ===== *)
(** From a configuration to a pool: what [Config::verify] accepts
    ([src/config.cpp]) against what [BufferManager::create] needs
    ([src/buffer/manager.cpp], [src/buffer/list.cpp]). *)
From stdpp Require Import sorting.
From S2P Require Import Prelude Errors Consts Config Shm BufList Pool Manager Mapping.





(** * The loop of [create] *)



(** * From the configuration *)













(** * Theorem *)



