(* ===== verification/Registry.v ===== *)
(** The table of buffer managers of a process and their reference counts
    ([BufferManager::get_with_file], [get_with_memfd] and
    [add_global_buffer_manager_ref_count] of [src/buffer/manager.cpp]): a
    manager stays mapped while somebody holds it and is released with its last
    holder. *)
From S2P Require Import Prelude Errors Consts Config Shm Queue Slices Pool BufList Manager Mapping.

(** A manager that was made or mapped has one reference. *)
Lemma manager_create_fields m pairs path off bm m' : Manager.create m pairs path off = Some (Ok bm, m') ->
  path_ bm = path /\ ref_count_ bm = 1.
Proof.
  unfold Manager.create. intros H. case_match; [discriminate|].
  apply bind_Some in H as (m1 & _ & H). apply bind_Some in H as ([[[ls u]|e] m2] & _ & H); [|discriminate].
  repeat (apply bind_Some in H as (? & _ & H)). by simplify_eq.
Qed.

Lemma manager_mapping_fields m path off bm : Manager.mapping m path off = Some (Ok bm) ->
  path_ bm = path /\ ref_count_ bm = 1.
Proof.
  unfold Manager.mapping. intros H. case_match; [discriminate|].
  apply bind_Some in H as (n & _ & H). apply bind_Some in H as (l & _ & H). case_match; [discriminate|].
  apply bind_Some in H as ([ls|e] & _ & H); [|discriminate].
  repeat (apply bind_Some in H as (? & _ & H)). by simplify_eq.
Qed.

Section registry.
Context {W : Type} (os : Os W) `{!OsLaws os} (strerror_r : Z -> option string).

(** A table of which only the managers with a user are mapped. *)
Definition users (p : process W) (path : string) : Z :=
  match registry p !! path with
  | Some id => match managers p !! id with Some (bm, _) => ref_count_ bm | None => 0 end
  | None => 0
  end.

Record registry_ok (p : process W) : Prop := {
  ro_entry : forall path id, registry p !! path = Some id -> exists bm o len,
    managers p !! id = Some (bm, mkMap (Some o) len) /\ path_ bm = path /\ 0 < ref_count_ bm;
  ro_fresh : forall id, is_Some (managers p !! id) -> (id < next_manager p)%nat;
}.

(** Same table, same managers. *)
Definition same_table (p p' : process W) : Prop :=
  registry p' = registry p /\ managers p' = managers p /\ next_manager p' = next_manager p.

Lemma same_table_users p p' path : same_table p p' -> users p' path = users p path.
Proof. intros (E1 & E2 & E3). unfold users. now rewrite E1, E2. Qed.
Lemma same_table_ok p p' : same_table p p' -> registry_ok p -> registry_ok p'.
Proof. intros (E1 & E2 & E3) [H1 H2]. constructor; rewrite ?E1, ?E2, ?E3; auto. Qed.

(** What asking for the manager of [path] does. *)
Definition got (p p' : process W) (path : string) (r : result nat) : Prop :=
  match r with
  | Unexpected _ => registry p !! path = None /\ same_table p p'
  | Ok id =>
      match registry p !! path with
      | Some id0 => id = id0 /\ exists bm mem, managers p !! id = Some (bm, mem) /\
          registry p' = registry p /\ next_manager p' = next_manager p /\
          managers p' = <[id := (add_ref bm 1, mem)]> (managers p)
      | None => id = next_manager p /\ exists bm o len, path_ bm = path /\ ref_count_ bm = 1 /\
          registry p' = <[path := id]> (registry p) /\ next_manager p' = S (next_manager p) /\
          managers p' = <[id := (bm, mkMap (Some o) len)]> (managers p)
      end
  end.

Lemma build_got path o len create pairs t fd p0 p r p' : same_table p0 p -> registry p !! path = None ->
  build os path o len create pairs t fd p = Some (r, p') -> got p0 p' path r.
Proof.
  intros (S1 & S2 & S3) Hn H. unfold build in H. apply io_bind_inv in H as (bm & p1 & H1 & H).
  assert (same_table p p1 /\ forall b, bm = Ok b -> path_ b = path /\ ref_count_ b = 1) as [(T1 & T2 & T3) Hb].
  { destruct create; apply on_memory_inv in H1 as (m & E & ->); (split; [repeat split|]);
      intros b ->; [eapply manager_create_fields, E|].
    destruct (Manager.mapping _ _ _) as [r1|] eqn:Em; cbn in E; [|discriminate].
    simplify_eq. eapply manager_mapping_fields, Em. }
  unfold got. rewrite <- S1. destruct bm as [bm|e]; apply io_bind_inv in H as (id & p2 & H2 & H).
  - injection H2 as <- <-. apply io_bind_inv in H as (x & p3 & H3 & H). injection H as <- <-.
    unfold emplace in H3. cbn [registry] in H3. rewrite T1, Hn in H3. injection H3 as _ <-.
    destruct (Hb bm eq_refl) as [Hp Hr]. rewrite Hn. split; [congruence|].
    exists (set_backing bm t fd), o, len. cbn. rewrite ?T1, ?T2, ?T3, ?S1, ?S2, ?S3. auto 10.
  - injection H as <- <-. apply (map_unmap_inv os) in H2 as (_ & M1 & M2 & M3 & _).
    split; [exact Hn|]. repeat split; congruence.
Qed.

Lemma lookup_got path p found p' : lookup_manager path p = Some (found, p') ->
  match found with
  | Some id => got p p' path (Ok id)
  | None => registry p !! path = None /\ p' = p
  end.
Proof.
  unfold lookup_manager, got. destruct (registry p !! path) as [id|] eqn:E; [|intros [= <- <-]; auto].
  destruct (managers p !! id) as [[bm mem]|] eqn:Em; cbn; [|discriminate]. intros [= <- <-].
  cbn. eauto 10.
Qed.

(** Code that only calls the operating system leaves the table alone. *)
Lemma got_same p p' p1 path r : got p p1 path r -> same_table p1 p' -> got p p' path r.
Proof.
  unfold got. intros H (E1 & E2 & E3). destruct r as [id|e].
  - destruct (registry p !! path); [|].
    + destruct H as (-> & bm & mem & H1 & H2 & H3 & H4). rewrite E1, E2, E3. eauto 10.
    + destruct H as (-> & bm & o & len & H1 & H2 & H3 & H4 & H5). rewrite E1, E2, E3. eauto 12.
  - destruct H as (H & T1 & T2 & T3). split; [exact H|]. repeat split; congruence.
Qed.

Lemma get_with_file_got path cap create pairs p r p' :
  get_with_file os strerror_r path cap create pairs p = Some (r, p') -> got p p' path r.
Proof.
  unfold get_with_file. intros H. apply io_bind_inv in H as (found & p1 & H1 & H).
  apply lookup_got in H1. destruct found as [id|]; [injection H as <- <-; exact H1|].
  destruct H1 as [Hn ->].
  repeat io_step; subst;
    first [split; [exact Hn|repeat split]|eapply build_got; [| |eassumption]; [repeat split|exact Hn]].
Qed.

Lemma get_with_memfd_got path fd cap create pairs p r p' :
  get_with_memfd os strerror_r path fd cap create pairs p = Some (r, p') -> got p p' path r.
Proof.
  unfold get_with_memfd. intros H. apply io_bind_inv in H as (found & p1 & H1 & H).
  apply lookup_got in H1. destruct found as [id|].
  - repeat io_step; subst; [|exact H1]. eapply got_same; [exact H1|repeat split].
  - destruct H1 as [Hn ->]. repeat io_step; subst;
      first [split; [exact Hn|repeat split]|eapply build_got; [| |eassumption]; [repeat split|exact Hn]].
Qed.

(** * Counting the holders *)

(** [held] with one holder of [path] more or less. *)
Definition hold (held : string -> Z) (path : string) (d : Z) : string -> Z :=
  fun path' => if String.eqb path path' then held path' + d else held path'.

Lemma hold_eq held path d : hold held path d path = held path + d.
Proof. unfold hold. now rewrite String.eqb_refl. Qed.
Lemma hold_ne held path path' d : path <> path' -> hold held path d path' = held path'.
Proof. intros H. unfold hold. apply String.eqb_neq in H. now rewrite H. Qed.

(** Two paths have two managers. *)
Lemma registry_inj p path path' id : registry_ok p ->
  registry p !! path = Some id -> registry p !! path' = Some id -> path = path'.
Proof.
  intros [H _] E E'. destruct (H _ _ E) as (bm & o & len & Em & Hp & _).
  destruct (H _ _ E') as (bm' & o' & len' & Em' & Hp' & _). congruence.
Qed.

(** The count of a manager of the table changes. *)
Lemma recount_ok p p' path id bm bm' o len : registry_ok p -> registry p !! path = Some id ->
  managers p !! id = Some (bm, mkMap (Some o) len) -> path_ bm' = path -> 0 < ref_count_ bm' ->
  registry p' = registry p -> next_manager p' = next_manager p ->
  managers p' = <[id := (bm', mkMap (Some o) len)]> (managers p) ->
  registry_ok p' /\ forall path', users p' path' = hold (users p) path (ref_count_ bm' - ref_count_ bm) path'.
Proof.
  intros Hok E Em Hp Hr H1 H2 H3. pose proof Hok as [He Hf].
  assert (forall path' id', path <> path' -> registry p !! path' = Some id' -> id <> id') as Hne
    by (intros path' id' Hn E' ->; apply Hn; eapply registry_inj; eauto).
  split; [constructor; rewrite ?H1, ?H2, ?H3|].
  - intros path1 id1 E1. destruct (decide (path = path1)) as [<-|Hn].
    + rewrite E in E1. injection E1 as <-. rewrite lookup_insert_eq. eauto 10.
    + rewrite lookup_insert_ne by (eapply Hne; eauto). auto.
  - intros id1 Hs. apply Hf. destruct (decide (id = id1)) as [<-|Hn]; [eauto|].
    now rewrite lookup_insert_ne in Hs by congruence.
  - intros path'. unfold users at 1. rewrite H1, H3. destruct (decide (path = path')) as [<-|Hn].
    + rewrite hold_eq. unfold users. rewrite E, Em, lookup_insert_eq. lia.
    + rewrite hold_ne by exact Hn. unfold users. destruct (registry p !! path') as [id'|] eqn:E'; [|reflexivity].
      now rewrite lookup_insert_ne by (eapply Hne; eauto).
Qed.

(** A new manager joins the table. *)
Lemma enter_ok p p' path bm o len : registry_ok p -> registry p !! path = None ->
  path_ bm = path -> ref_count_ bm = 1 -> registry p' = <[path := next_manager p]> (registry p) ->
  next_manager p' = S (next_manager p) ->
  managers p' = <[next_manager p := (bm, mkMap (Some o) len)]> (managers p) ->
  registry_ok p' /\ forall path', users p' path' = hold (users p) path 1 path'.
Proof.
  intros [He Hf] E Hp Hr H1 H2 H3.
  assert (forall path1 id1, registry p !! path1 = Some id1 -> id1 <> next_manager p) as Hnew.
  { intros path1 id1 E1 ->. destruct (He _ _ E1) as (? & ? & ? & Em & _).
    specialize (Hf _ (mk_is_Some _ _ Em)). lia. }
  split; [constructor; rewrite ?H1, ?H2, ?H3|].
  - intros path1 id1 E1. destruct (decide (path = path1)) as [<-|Hne].
    + rewrite lookup_insert_eq in E1. injection E1 as <-. rewrite lookup_insert_eq.
      exists bm, o, len. auto with lia.
    + rewrite lookup_insert_ne in E1 by exact Hne. pose proof (Hnew _ _ E1).
      rewrite lookup_insert_ne by congruence. auto.
  - intros id1. destruct (decide (next_manager p = id1)) as [<-|Hne]; [lia|].
    rewrite lookup_insert_ne by congruence. intros Hs. specialize (Hf _ Hs). lia.
  - intros path'. unfold users at 1. rewrite H1, H3. destruct (decide (path = path')) as [<-|Hne].
    + rewrite hold_eq. unfold users. rewrite !lookup_insert_eq, E. lia.
    + rewrite hold_ne, lookup_insert_ne by exact Hne. unfold users.
      destruct (registry p !! path') as [id1|] eqn:E1; [|reflexivity].
      pose proof (Hnew _ _ E1). now rewrite lookup_insert_ne by congruence.
Qed.

(** A manager without users leaves it. *)
Lemma leave_ok p p' path id bm bm' mem mem' : registry_ok p -> registry p !! path = Some id ->
  managers p !! id = Some (bm, mem) -> registry p' = delete path (registry p) ->
  next_manager p' = next_manager p -> managers p' = <[id := (bm', mem')]> (managers p) ->
  registry_ok p' /\ forall path', users p' path' = hold (users p) path (- ref_count_ bm) path'.
Proof.
  intros Hok E Em H1 H2 H3. pose proof Hok as [He Hf].
  assert (forall path' id', path <> path' -> registry p !! path' = Some id' -> id <> id') as Hne
    by (intros path' id' Hn E' ->; apply Hn; eapply registry_inj; eauto).
  split; [constructor; rewrite ?H1, ?H2, ?H3|].
  - intros path1 id1 E1. apply lookup_delete_Some in E1 as [Hn E1].
    rewrite lookup_insert_ne by (eapply Hne; eauto). auto.
  - intros id1 Hs. apply Hf. destruct (decide (id = id1)) as [<-|Hn]; [eauto|].
    now rewrite lookup_insert_ne in Hs by congruence.
  - intros path'. unfold users at 1. rewrite H1, H3. destruct (decide (path = path')) as [<-|Hn].
    + rewrite hold_eq, lookup_delete_eq. unfold users. rewrite E, Em. lia.
    + rewrite hold_ne, lookup_delete_ne by exact Hn. unfold users.
      destruct (registry p !! path') as [id'|] eqn:E'; [|reflexivity].
      now rewrite lookup_insert_ne by (eapply Hne; eauto).
Qed.

Lemma got_ok p p' path id : registry_ok p -> users p path < 2147483647 -> got p p' path (Ok id) ->
  registry_ok p' /\ registry p' !! path = Some id /\
  forall path', users p' path' = hold (users p) path 1 path'.
Proof.
  intros Hok Hlt H. unfold got in H. destruct (registry p !! path) as [id0|] eqn:E.
  - destruct H as (-> & bm & mem & Em & H1 & H2 & H3).
    destruct (ro_entry _ Hok _ _ E) as (bm' & o & len & Em' & Hp & Hr). rewrite Em in Em'. injection Em' as -> ->.
    assert (users p path = ref_count_ bm') as Eu by (unfold users; now rewrite E, Em).
    assert (ref_count_ (add_ref bm' 1) = ref_count_ bm' + 1) as Ec by (cbn; rewrite i32_id; lia).
    destruct (recount_ok p p' path id0 bm' (add_ref bm' 1) o len) as [Hok' Hu]; auto; [lia|].
    split; [exact Hok'|]. split; [now rewrite H1|]. intros path'. rewrite Hu. f_equal. lia.
  - destruct H as (-> & bm & o & len & Hp & Hr & H1 & H2 & H3).
    destruct (enter_ok p p' path bm o len) as [Hok' Hu]; auto.
    split; [exact Hok'|]. split; [now rewrite H1, lookup_insert_eq|]. exact Hu.
Qed.

(** ** Releasing *)

Lemma wait_returned_same rounds during bm o : forall p x p',
  wait_returned os rounds during bm o p = Some (x, p') -> same_table p p'.
Proof.
  induction rounds as [|rounds IH]; intros p x p' H; cbn [wait_returned] in H.
  - injection H as _ <-. repeat split.
  - apply io_bind_inv in H as (m & p1 & H1 & H). injection H1 as _ <-.
    destruct (Manager.check_buffer_returned m bm) as [[|]|]; [injection H as _ <-; repeat split| |discriminate].
    apply io_bind_inv in H as (y & p2 & H2 & H). injection H2 as _ <-.
    apply IH in H as (T1 & T2 & T3). repeat split; assumption.
Qed.

(** [BufferManager::unmap] releases the mapping of its own manager. *)
Lemma unmap_manager_effect during id p bm o len x p' : managers p !! id = Some (bm, mkMap (Some o) len) ->
  unmap_manager os during id p = Some (x, p') ->
  registry p' = registry p /\ next_manager p' = next_manager p /\
  managers p' = <[id := (bm, mkMap None 0)]> (managers p).
Proof.
  intros Em H. unfold unmap_manager in H. rewrite Em in H. cbn [mbind option_bind ptr_] in H.
  apply bind_Some in H as ([y p1] & Hw & H). apply wait_returned_same in Hw as (T1 & T2 & T3).
  apply bind_Some in H as ([mem p2] & Hm & H). unfold map_unmap in Hm. cbn [ptr_] in Hm.
  apply io_bind_inv in Hm as (z & p3 & H3 & Hm). injection H3 as _ <-. injection Hm as <- <-.
  destruct (mem_map_type_ bm).
  - apply bind_Some in H as ([z' p4] & H4 & H). apply sys_inv in H4 as (w & _ & ->). injection H as _ <-.
    cbn. rewrite T1, T2, T3. auto.
  - apply (close_inv os) in H as (w & -> & _). cbn. rewrite T1, T2, T3. auto.
Qed.

(** What [add_global_buffer_manager_ref_count(path, -1)] does when [path] has
    a user: the last one's manager is unmapped and leaves the table. *)
Lemma release_ok during p path x p' : registry_ok p -> 0 < users p path -> users p path < 2147483648 ->
  add_global_buffer_manager_ref_count os during path (-1) p = Some (x, p') ->
  registry_ok p' /\ (forall path', users p' path' = hold (users p) path (-1) path') /\
  exists id bm, registry p !! path = Some id /\
    if users p path =? 1 then registry p' !! path = None /\ managers p' !! id = Some (bm, mkMap None 0)
    else registry p' !! path = Some id.
Proof.
  intros Hok Hu Hmax H.
  destruct (registry p !! path) as [id|] eqn:E; [|unfold users in Hu; rewrite E in Hu; lia].
  destruct (ro_entry _ Hok _ _ E) as (bm & o & len & Em & Hp & Hr).
  assert (users p path = ref_count_ bm) as Eu by (unfold users; now rewrite E, Em).
  unfold add_global_buffer_manager_ref_count in H. apply io_bind_inv in H as (found & p1 & H1 & H).
  injection H1 as <- <-. rewrite E in H. apply io_bind_inv in H as (gone & p2 & H2 & H).
  unfold count_down in H2. cbn [managers set_registry] in H2. rewrite Em in H2. cbn [mbind option_bind] in H2.
  assert (i32 (ref_count_ bm + -1) = ref_count_ bm - 1) as Ei by (rewrite i32_id; lia).
  rewrite Ei, Eu in *. destruct (Z.leb_spec (ref_count_ bm - 1) 0) as [Hle|Hgt].
  - apply bind_Some in H2 as ([y p3] & Hun & H2). injection H2 as <- <-. injection H as _ <-.
    apply (unmap_manager_effect during id _ (add_ref bm (-1)) o len) in Hun as (T1 & T2 & T3);
      [|cbn; apply lookup_insert_eq]. cbn in T1, T2, T3. rewrite insert_insert_eq in T3.
    destruct (leave_ok p p3 path id bm (add_ref bm (-1)) (mkMap (Some o) len) (mkMap None 0)) as [Hok' Hu']; auto.
    split; [exact Hok'|]. split; [intros path'; rewrite Hu'; f_equal; lia|].
    exists id, (add_ref bm (-1)). split; [reflexivity|].
    rewrite (proj2 (Z.eqb_eq _ _)) by lia. now rewrite T1, lookup_delete_eq, T3, lookup_insert_eq.
  - injection H2 as <- <-. unfold emplace in H. cbn [registry put_manager set_registry] in H.
    rewrite lookup_delete_eq in H. injection H as _ <-. set (p2 := set_registry _ _).
    assert (registry p2 = registry p) as T1 by (cbn; now apply insert_delete_id).
    destruct (recount_ok p p2 path id bm (add_ref bm (-1)) o len) as [Hok' Hu']; auto; [cbn; lia|].
    split; [exact Hok'|]. split; [intros path'; rewrite Hu'; f_equal; cbn; lia|].
    exists id, bm. split; [reflexivity|]. rewrite (proj2 (Z.eqb_neq _ _)) by lia. now rewrite T1.
Qed.

(** * Every sequence of requests and releases *)

(** [held]: how many holders there are of the manager of each path. *)
Inductive use : process W * (string -> Z) -> process W * (string -> Z) -> Prop :=
  | use_file path cap create pairs p p' held r :
      held path < 2147483647 -> get_with_file os strerror_r path cap create pairs p = Some (r, p') ->
      use (p, held) (p', if is_ok r then hold held path 1 else held)
  | use_memfd path fd cap create pairs p p' held r :
      held path < 2147483647 -> get_with_memfd os strerror_r path fd cap create pairs p = Some (r, p') ->
      use (p, held) (p', if is_ok r then hold held path 1 else held)
  | use_release path during p p' held x :
      0 < held path -> add_global_buffer_manager_ref_count os during path (-1) p = Some (x, p') ->
      use (p, held) (p', hold held path (-1)).

Definition counted (st : process W * (string -> Z)) : Prop :=
  registry_ok (fst st) /\ (forall path, users (fst st) path = snd st path) /\
  forall path, 0 <= snd st path < 2147483648.

Lemma counted_got p p' held path r : counted (p, held) -> held path < 2147483647 -> got p p' path r ->
  counted (p', if is_ok r then hold held path 1 else held).
Proof.
  intros (Hok & Hu & Hr) Hlt Hg. cbn in *. destruct r as [id|e]; cbn [is_ok].
  - destruct (got_ok p p' path id Hok) as (Hok' & _ & Hu'); [now rewrite Hu|exact Hg|].
    split; [exact Hok'|]. split; intros path'; cbn; [rewrite Hu'|]; unfold hold;
      destruct (String.eqb_spec path path') as [<-|]; rewrite ?Hu; auto; specialize (Hr path); lia.
  - destruct Hg as [_ Hs]. split; [eapply same_table_ok; eauto|]. split; [|exact Hr].
    intros path'. cbn. rewrite <- Hu. now apply same_table_users.
Qed.

Lemma use_counted st st' : counted st -> use st st' -> counted st'.
Proof.
  intros Hc Hs. destruct Hs as [path cap create pairs p p' held r Hlt H|path fd cap create pairs p p' held r Hlt H
    |path during p p' held x Hlt H].
  - apply get_with_file_got in H. now apply (counted_got p).
  - apply get_with_memfd_got in H. now apply (counted_got p).
  - destruct Hc as (Hok & Hu & Hr). cbn in *.
    destruct (release_ok during p path x p' Hok) as (Hok' & Hu' & _); [rewrite Hu; auto..|exact H|].
    { apply Hr. }
    split; [exact Hok'|]. split; intros path'; cbn; [rewrite Hu'|]; unfold hold;
      destruct (String.eqb_spec path path') as [<-|]; rewrite ?Hu; auto; specialize (Hr path); lia.
Qed.

(** C22: a manager lives as long as it is held.  In a process that starts with an
    empty table, after any sequence of requests, failed or not, and releases,
    the table has an entry for exactly the paths somebody holds; its reference
    count is the number of holders, the same manager is handed to all of them
    and it is mapped. *)
Theorem registry_counts (w : W) (p : process W) (held : string -> Z) (path : string) :
  rtc use (mkProc w ∅ ∅ 0, fun _ => 0) (p, held) ->
  match registry p !! path with
  | Some id => exists bm o len, managers p !! id = Some (bm, mkMap (Some o) len) /\
      path_ bm = path /\ ref_count_ bm = held path /\ 0 < held path
  | None => held path = 0
  end.
Proof.
  intros Hr. assert (counted (p, held)) as (Hok & Hu & _).
  { eapply rtc_invariant; [exact use_counted| |exact Hr]. split; [|split; [reflexivity|cbn; lia]].
    constructor; cbn; intros; [now rewrite lookup_empty in *|]. destruct H as [x Hx].
    now rewrite lookup_empty in Hx. }
  cbn in *. specialize (Hu path). unfold users in Hu.
  destruct (registry p !! path) as [id|] eqn:E; [|auto].
  destruct (ro_entry _ Hok _ _ E) as (bm & o & len & Em & Hp & Hpos). rewrite Em in Hu.
  exists bm, o, len. repeat split; auto; lia.
Qed.

(** C37: a request between the two halves of a release is not counted right.
    [add_global_buffer_manager_ref_count] takes the manager out of the table
    before it counts it down, and puts it back under the lock again.  A request
    for the path in between makes a second manager; the first one is not put
    back, although it still has a holder, and when that holder releases it the
    second manager is unmapped under the one who holds it. *)
Theorem release_race (path : string) (cap : Z) (create : bool) (pairs : list SizePercentPair)
    (during : nat -> W -> W) (p p1 p2 p3 p4 p5 : process W) (id1 id2 : nat) (found : option nat)
    (gone : bool) (x y : unit) :
  registry_ok p -> registry p !! path = Some id1 -> users p path = 2 ->
  take_out path p = Some (found, p1) ->
  get_with_file os strerror_r path cap create pairs p1 = Some (Ok id2, p2) ->
  count_down os during id1 (-1) p2 = Some (gone, p3) ->
  emplace path id1 p3 = Some (x, p4) ->
  add_global_buffer_manager_ref_count os during path (-1) p4 = Some (y, p5) ->
  found = Some id1 /\ gone = false /\ id2 <> id1 /\
  (exists bm o len, managers p5 !! id1 = Some (bm, mkMap (Some o) len) /\ ref_count_ bm = 1) /\
  (exists bm, managers p5 !! id2 = Some (bm, mkMap None 0)) /\ registry p5 !! path = None.
Proof.
  intros Hok E Hu H1 H2 H3 H4 H5. injection H1 as <- <-. split; [exact E|].
  destruct (ro_entry _ Hok _ _ E) as (bm & o & len & Em & Hp & Hr).
  assert (ref_count_ bm = 2) as Hc by (unfold users in Hu; now rewrite E, Em in Hu).
  assert (id1 <> next_manager p) as Hne by (pose proof (ro_fresh _ Hok _ (mk_is_Some _ _ Em)); lia).
  apply get_with_file_got in H2. unfold got in H2. cbn [registry managers next_manager set_registry] in H2.
  rewrite lookup_delete_eq in H2. destruct H2 as (-> & bm2 & o2 & len2 & Hp2 & Hr2 & G1 & G2 & G3).
  unfold count_down in H3. rewrite G3, lookup_insert_ne, Em in H3 by congruence.
  cbn [mbind option_bind] in H3. rewrite Hc in H3. change (i32 (2 + -1) <=? 0) with false in H3.
  injection H3 as <- <-. split; [reflexivity|]. split; [congruence|].
  unfold emplace in H4. cbn [registry put_manager] in H4. rewrite G1, lookup_insert_eq in H4. injection H4 as _ <-.
  set (bm1 := add_ref bm (-1)) in *. set (p4 := put_manager p2 id1 (bm1, mkMap (Some o) len)) in *.
  unfold add_global_buffer_manager_ref_count in H5. apply io_bind_inv in H5 as (f & q1 & T1 & H5).
  injection T1 as <- <-. cbn [registry p4 put_manager] in H5. rewrite G1, lookup_insert_eq in H5.
  apply io_bind_inv in H5 as (g & q2 & T2 & H5). unfold count_down in T2.
  cbn [managers set_registry p4 put_manager] in T2. rewrite G3 in T2.
  rewrite lookup_insert_ne, lookup_insert_eq in T2 by congruence. cbn [mbind option_bind] in T2.
  rewrite Hr2 in T2. change (i32 (1 + -1) <=? 0) with true in T2. cbn iota in T2.
  apply bind_Some in T2 as ([z q3] & T3 & T2). injection T2 as <- <-. injection H5 as _ <-.
  apply (unmap_manager_effect during _ _ (add_ref bm2 (-1)) o2 len2) in T3 as (U1 & U2 & U3);
    [|cbn; apply lookup_insert_eq].
  split; [|split].
  - exists bm1, o, len. rewrite U3. cbn. rewrite !lookup_insert_ne, lookup_insert_eq by congruence.
    split; [reflexivity|]. cbn. rewrite Hc. reflexivity.
  - exists (add_ref bm2 (-1)). rewrite U3. apply lookup_insert_eq.
  - rewrite U1. apply lookup_delete_eq.
Qed.
End registry.

(** * Witnesses *)

Definition toy_pairs : list SizePercentPair := [mkPair 8 50; mkPair 16 50].
Definition toy_get (p : process toy) := get_with_file toy_os (fun _ => None) "/b" 300 true toy_pairs p.
Definition toy_release (p : process toy) :=
  add_global_buffer_manager_ref_count toy_os (fun _ w => w) "/b" (-1) p.

(** Two requests and a release. *)
Definition toy_use : option (process toy) :=
  match toy_get toy_proc with
  | Some (Ok _, p) =>
      match toy_get p with
      | Some (Ok _, p) => match toy_release p with Some (_, p) => Some p | None => None end
      | _ => None
      end
  | _ => None
  end.

Lemma toy_use_ok : exists p, toy_use = Some p.
Proof.
  assert (bool_decide (is_Some toy_use) = true) as H%bool_decide_eq_true by (vm_compute; reflexivity).
  exact H.
Qed.

Lemma registry_counts_witness : exists p, toy_use = Some p /\
  match registry p !! "/b" with
  | Some id => exists bm o len, managers p !! id = Some (bm, mkMap (Some o) len) /\
      path_ bm = "/b" /\ ref_count_ bm = 1 /\ 0 < 1
  | None => 1 = 0
  end.
Proof.
  destruct toy_use_ok as [p Hp]. exists p. split; [exact Hp|]. unfold toy_use in Hp.
  destruct (toy_get toy_proc) as [[[id|e] p1]|] eqn:E1; [|discriminate..].
  destruct (toy_get p1) as [[[id2|e] p2]|] eqn:E2; [|discriminate..].
  destruct (toy_release p2) as [[x p3]|] eqn:E3; [|discriminate]. injection Hp as <-.
  apply (registry_counts toy_os (fun _ => None) (world toy_proc) p3
    (hold (hold (hold (fun _ => 0) "/b" 1) "/b" 1) "/b" (-1)) "/b").
  eapply rtc_l. { eapply (use_file _ _ "/b" 300 true toy_pairs _ p1 _ (Ok id)); [cbn; lia|exact E1]. }
  eapply rtc_l. { eapply (use_file _ _ "/b" 300 true toy_pairs _ p2 _ (Ok id2)); [cbn; lia|exact E2]. }
  eapply rtc_l; [|apply rtc_refl]. eapply (use_release _ _ "/b"); [cbn; lia|exact E3].
Defined.

(** The interleaving of the race: two holders, a release cut in two by a
    request, and another release. *)
Definition toy_race (p : process toy) : bool :=
  match take_out "/b" p with
  | Some (_, p1) =>
      match toy_get p1 with
      | Some (Ok _, p2) =>
          match count_down toy_os (fun _ w => w) 0 (-1) p2 with
          | Some (_, p3) =>
              match emplace "/b" 0 p3 with
              | Some (_, p4) => bool_decide (is_Some (toy_release p4))
              | None => false
              end
          | None => false
          end
      | _ => false
      end
  | None => false
  end.

Definition toy_two_holders : option (process toy) :=
  match toy_get toy_proc with
  | Some (Ok _, p) => match toy_get p with Some (Ok _, p) => Some p | _ => None end
  | _ => None
  end.

Lemma toy_race_runs : (if toy_two_holders is Some p then
    toy_race p && bool_decide (registry p !! "/b" = Some 0%nat) else false) = true.
Proof. vm_compute. reflexivity. Qed.

Lemma toy_two_holders_ok p : toy_two_holders = Some p -> registry_ok p /\ users p "/b" = 2.
Proof.
  intros H. unfold toy_two_holders in H.
  destruct (toy_get toy_proc) as [[[id|e] p1]|] eqn:E1; [|discriminate..].
  destruct (toy_get p1) as [[[id2|e] p2]|] eqn:E2; [|discriminate..]. injection H as <-.
  assert (counted (p2, hold (hold (fun _ => 0) "/b" 1) "/b" 1)) as (Hok & Hu & _); [|split; [exact Hok|apply Hu]].
  apply (use_counted toy_os (fun _ => None) (p1, hold (fun _ => 0) "/b" 1)).
  - apply (use_counted toy_os (fun _ => None) (toy_proc, fun _ => 0)).
    + split; [|split; [reflexivity|cbn; lia]]. constructor; cbn; intros; [now rewrite lookup_empty in *|].
      destruct H as [x Hx]. now rewrite lookup_empty in Hx.
    + apply (use_file _ _ "/b" 300 true toy_pairs _ p1 _ (Ok id)); [cbn; lia|exact E1].
  - apply (use_file _ _ "/b" 300 true toy_pairs _ p2 _ (Ok id2)); [cbn; lia|exact E2].
Qed.

Lemma release_race_witness : exists id2 (p5 : process toy) bm,
  id2 <> 0%nat /\ managers p5 !! id2 = Some (bm, mkMap None 0).
Proof.
  pose proof toy_race_runs as Hr. destruct toy_two_holders as [p|] eqn:Ep; [|discriminate].
  apply andb_true_iff in Hr as [Hr He]. apply bool_decide_eq_true in He.
  destruct (toy_two_holders_ok p Ep) as [Hok Hu]. unfold toy_race in Hr.
  destruct (take_out "/b" p) as [[f p1]|] eqn:E1; [|discriminate].
  destruct (toy_get p1) as [[[id2|e] p2]|] eqn:E2; [|discriminate..].
  destruct (count_down toy_os (fun _ w => w) 0 (-1) p2) as [[g p3]|] eqn:E3; [|discriminate].
  destruct (emplace "/b" 0 p3) as [[x p4]|] eqn:E4; [|discriminate].
  apply bool_decide_eq_true in Hr as [[y p5] E5]. exists id2, p5.
  destruct (release_race toy_os (fun _ => None) "/b" 300 true toy_pairs (fun _ w => w) p p1 p2 p3 p4 p5 0 id2 f g x y
    Hok He Hu E1 E2 E3 E4 E5) as (_ & _ & Hn & _ & [bm H] & _). exists bm. auto.
Defined.
