(* ===== verification/Lifecycle.v ===== *)
(** A client's session from its configuration to its end, as far as the process
    is concerned: the checks and the managers of [Session::create]
    ([src/session.cpp]) and what [Session::close] lets go. *)
From S2P Require Import Prelude Errors Consts Config Shm Queue Slices Pool BufList Manager Mapping Registry.

Section lifecycle.
Context {W : Type} (os : Os W) `{!OsLaws os} (strerror_r : Z -> option string) (a : arch).
#[local] Existing Instances io_ret io_bind.

(** The client's branch of [Session::create] up to the state of the session.
    [split] is what [into_split] gives of the connection and [version] what
    [init_client_protocol] makes of it and the managers. *)
Definition create_client (config : Config) (split : result unit)
    (version : nat -> QueueManager -> result Z) : io (W := W) (result (nat * QueueManager * Z)) :=
  let '(checked, config) := verify config in
  match checked with
  | Unexpected e => mret (Unexpected (error_other ("verify config failed: " +:+ message e)))
  | Ok _ =>
      match split with
      | Unexpected e => mret (Unexpected e)
      | Ok _ =>
          managers ← make_managers os strerror_r a config;
          match managers with
          | Unexpected e => mret (Unexpected (error_other
              ("create share memory buffer manager failed, error=" +:+ message e)))
          | Ok (bm, qm) =>
              match version bm qm with
              | Unexpected e => mret (Unexpected e)
              | Ok v => mret (Ok (bm, qm, v))
              end
          end
      end
  end.

(** The end of [Session::close]: the reference to the buffers and the queues. *)
Definition close_mappings (during : nat -> W -> W) (bm : nat) (qm : QueueManager) : io (W := W) unit := fun p =>
  '(b, _) ← managers p !! bm;
  '(_, p) ← add_global_buffer_manager_ref_count os during (path_ b) (-1) p;
  queue_manager_unmap os qm p.

(** * What remains in the table *)

Lemma create_with_file_same path cap p r p' : create_with_file os strerror_r a path cap p = Some (r, p') ->
  same_table p p'.
Proof. unfold create_with_file. intros H. repeat io_step; subst; repeat split. Qed.

Lemma create_with_memfd_same path cap p r p' : create_with_memfd os strerror_r a path cap p = Some (r, p') ->
  same_table p p'.
Proof. unfold create_with_memfd. intros H. repeat io_step; subst; repeat split. Qed.

Lemma queue_manager_unmap_same qm p x p' : queue_manager_unmap os qm p = Some (x, p') -> same_table p p'.
Proof. unfold queue_manager_unmap. intros H. repeat io_step; subst; repeat split. Qed.

Lemma same_table_trans p1 p2 p3 : same_table (W := W) p1 p2 -> same_table p2 p3 -> same_table p1 p3.
Proof. intros (A1 & A2 & A3) (B1 & B2 & B3). repeat split; congruence. Qed.

Definition buffer_path (config : Config) : string := share_memory_path_prefix config +:+ kBufferPathSuffix.

Lemma make_managers_got config p r p' : make_managers os strerror_r a config p = Some (r, p') ->
  match r with
  | Ok (id, qm) => got p p' (buffer_path config) (Ok id)
  | Unexpected e => same_table p p' \/ exists id, got p p' (buffer_path config) (Ok id)
  end.
Proof.
  unfold make_managers. intros H. apply io_bind_inv in H as (bm & p1 & H1 & H).
  assert (exists r1, got p p1 (buffer_path config) r1 /\ is_ok r1 = is_ok bm /\
    forall id, bm = Ok id -> r1 = Ok id) as (r1 & Hg & Hk & Hid).
  { clear H. destruct (mem_map_type config).
    - apply io_bind_inv in H1 as (b & p2 & H2 & H1). apply (get_with_file_got os) in H2.
      exists b. destruct b as [id|e]; repeat io_step; subst; [auto|].
      split; [|split; [reflexivity|discriminate]]. now apply (got_same p _ p2).
    - apply (get_with_memfd_got os) in H1. exists bm. auto. }
  destruct bm as [id|e].
  2: { injection H as <- <-. left. destruct r1; [discriminate|]. apply Hg. }
  rewrite (Hid id eq_refl) in Hg. apply io_bind_inv in H as (qm & p2 & H2 & H).
  assert (same_table p1 p2) as Hs.
  { clear H. destruct (mem_map_type config); [|eapply create_with_memfd_same, H2].
    apply io_bind_inv in H2 as (q & p3 & H3 & H2). apply create_with_file_same in H3.
    eapply same_table_trans; [exact H3|]. destruct q; repeat io_step; subst; repeat split. }
  assert (got p p2 (buffer_path config) (Ok id)) as Hg2 by (eapply got_same; eauto).
  destruct qm; injection H as <- <-; eauto.
Qed.

Lemma verify_prefix c : share_memory_path_prefix (verify c).2 = share_memory_path_prefix c.
Proof. unfold verify. repeat (case_match; cbn [snd] in *; simplify_eq; try reflexivity). Qed.

(** Closing the session that [got] the buffers. *)
Lemma close_mappings_ok during p p1 path bm qm x p2 : registry_ok p -> users p path < 2147483647 ->
  0 <= users p path -> got p p1 path (Ok bm) -> close_mappings during bm qm p1 = Some (x, p2) ->
  registry_ok p2 /\ forall path', users p2 path' = users p path'.
Proof.
  intros Hok Hlt Hge Hg H. destruct (got_ok p p1 path bm Hok Hlt Hg) as (Hok1 & Hr1 & Hu1).
  destruct (ro_entry _ Hok1 _ _ Hr1) as (b & o & len & Em & Hp & _). unfold close_mappings in H.
  rewrite Em in H. cbn [mbind option_bind] in H. rewrite Hp in H. apply bind_Some in H as ([y p3] & H3 & H).
  assert (users p1 path = users p path + 1) as Eu by now rewrite Hu1, hold_eq.
  destruct (release_ok os during p1 path y p3 Hok1 ltac:(lia) ltac:(lia) H3) as (Hok3 & Hu3 & _).
  apply queue_manager_unmap_same in H. split; [eapply same_table_ok; eauto|].
  intros path'. rewrite (same_table_users _ _ _ H), Hu3. unfold hold. rewrite Hu1. unfold hold.
  destruct (String.eqb path path'); lia.
Qed.

(** C24: a session gives its buffers back.  Creating a client's session adds one
    reference to the buffers of its path and to nothing else, and closing it
    takes that reference away: all counts are as before.  A client whose
    handshake fails leaves its reference behind, however: no session exists
    that could be closed, and the buffers stay mapped. *)
Theorem session_mappings (config : Config) (split : result unit) (version : nat -> QueueManager -> result Z)
    (during : nat -> W -> W) (p p1 : process W) (r : result (nat * QueueManager * Z)) :
  registry_ok p -> 0 <= users p (buffer_path config) < 2147483647 ->
  create_client config split version p = Some (r, p1) ->
  match r with
  | Ok (bm, qm, v) =>
      version bm qm = Ok v /\
      (forall path, users p1 path = hold (users p) (buffer_path config) 1 path) /\
      forall x p2, close_mappings during bm qm p1 = Some (x, p2) ->
        registry_ok p2 /\ forall path, users p2 path = users p path
  | Unexpected e =>
      forall bm qm, verify config = (Ok tt, (verify config).2) -> is_ok split = true ->
        make_managers os strerror_r a (verify config).2 p = Some (Ok (bm, qm), p1) ->
        version bm qm = Unexpected e /\
        forall path, users p1 path = hold (users p) (buffer_path config) 1 path
  end.
Proof.
  intros Hok Hu H. unfold create_client in H. pose proof (verify_prefix config) as Hpre.
  destruct (verify config) as [checked config'] eqn:Ev. cbn [snd] in *.
  assert (buffer_path config' = buffer_path config) as Hpath by (unfold buffer_path; now rewrite Hpre).
  destruct checked as [u|e]; [|injection H as <- <-; intros bm qm [=]].
  destruct split as [u'|e]; [|injection H as <- <-; intros bm qm _ [=]].
  apply io_bind_inv in H as (m & q & Hm & H). pose proof (make_managers_got _ _ _ _ Hm) as Hg. rewrite Hpath in Hg.
  destruct m as [[bm qm]|e].
  - destruct (got_ok p q _ bm Hok (proj2 Hu) Hg) as (Hok1 & _ & Hu1).
    destruct (version bm qm) as [v|e] eqn:Ever; injection H as <- <-.
    + split; [exact Ever|]. split; [exact Hu1|]. intros x p2. apply (close_mappings_ok during p q (buffer_path config)); auto; lia.
    + intros bm' qm' _ _ Hm'. rewrite Hm in Hm'. injection Hm' as <- <-. auto.
  - injection H as <- <-. intros bm qm _ _ Hm'. rewrite Hm in Hm'. discriminate.
Qed.
End lifecycle.

(** * The theorem at work *)

Definition toy_config : Config := {|
  connection_write_timeout := 0; connection_read_timeout := 0; connection_timeout := 0; initialize_timeout := 0;
  queue_cap := 8; queue_path := "/q"; share_memory_buffer_cap := 1048576; share_memory_path_prefix := "/s";
  buffer_slice_sizes := [mkPair 524288 100]; mem_map_type := kMemFd; rebuild_interval := 0; max_stream_num := 4;
|}.
Definition toy_session (version : result Z) :=
  create_client toy_os (fun _ => None) x86_64 toy_config (Ok tt) (fun _ _ => version) toy_proc.
Definition toy_session_check : bool :=
  match toy_session (Ok 3) with
  | Some (Ok (bm, qm, _), p) =>
      match close_mappings toy_os (fun _ w => w) bm qm p with Some _ => true | None => false end
  | _ => false
  end.
Lemma toy_session_ok : toy_session_check = true.
Proof. vm_compute. reflexivity. Qed.

Lemma toy_proc_ok : registry_ok toy_proc.
Proof.
  constructor; cbn; [intros path id H; now rewrite lookup_empty in H|].
  intros id [x H]. now rewrite lookup_empty in H.
Qed.

Lemma session_mappings_witness : exists bm qm p1 p2,
  toy_session (Ok 3) = Some (Ok (bm, qm, 3), p1) /\ users p1 "/s_buffer" = 1 /\
  close_mappings toy_os (fun _ w => w) bm qm p1 = Some (tt, p2) /\ users p2 "/s_buffer" = 0.
Proof.
  pose proof toy_session_ok as Hc. unfold toy_session_check in Hc.
  destruct (toy_session (Ok 3)) as [[[[[bm qm] v]|e] p1]|] eqn:E; [|discriminate Hc..].
  destruct (close_mappings _ _ bm qm p1) as [[[] p2]|] eqn:E2; [|discriminate Hc].
  destruct (session_mappings toy_os (fun _ => None) x86_64 toy_config (Ok tt) (fun _ _ => Ok 3) (fun _ w => w)
    toy_proc p1 (Ok (bm, qm, v)) toy_proc_ok) as (Hv & Hu & Hcl); [change (0 <= 0 < 2147483647); lia|exact E|].
  injection Hv as <-. exists bm, qm, p1, p2. split; [reflexivity|]. split; [rewrite Hu; reflexivity|].
  split; [exact E2|]. destruct (Hcl tt p2 E2) as [_ Hp2]. rewrite Hp2. reflexivity.
Defined.
