(* ===== verification/Linked.v ===== *)
(** The buffer a stream reads and writes
    ([include/shmipc/buffer/linked.hpp], [src/buffer/linked.cpp], with
    [include/shmipc/buffer/buf.hpp] and [include/shmipc/bytes.hpp]):
    [LinkedBuffer], a chain of slices taken from the pool, or from the heap
    when the pool is exhausted, with the [BufferReader] and [BufferWriter]
    operations on it.

    The operations take the memory of the process and the buffer and return
    both; the pool is the [PoolOps] they call. *)
From S2P Require Import Prelude Errors Consts Shm Slices Pool.

(** * [Bytes] and [Buf] *)

(** [Bytes] is an immutable vector; [Buf] a view of a slice or owned bytes
    with a cursor. *)
Inductive Buf := BufShm (view : span) | BufExm (bytes : list Z) (offset_ : Z).

Module BufOps.
Definition shm (view : span) : Buf := BufShm view.
Definition exm (bytes : list Z) : Buf := BufExm bytes 0.
Definition is_shm (b : Buf) : bool := match b with BufShm _ => true | BufExm _ _ => false end.
Definition is_exm (b : Buf) : bool := negb (is_shm b).
Definition size (b : Buf) : Z :=
  match b with
  | BufShm v => sp_len v
  | BufExm l off => u64 (Z.of_nat (length l) - off)
  end.
Definition empty (b : Buf) : bool := size b =? 0.
(** The bytes [span()] covers; a cursor past the end is undefined. *)
Definition bytes (w : memory) (b : Buf) : option (list Z) :=
  match b with
  | BufShm v => span_bytes w v
  | BufExm l off =>
      if off <=? Z.of_nat (length l) then Some (drop (Z.to_nat off) l) else None
  end.
Definition advance (b : Buf) (cnt : Z) : option Buf :=
  match b with
  | BufShm v =>
      if cnt <=? sp_len v
      then Some (BufShm (mkSpan (sp_data v) (sp_off v + cnt) (sp_len v - cnt))) else None
  | BufExm l off => Some (BufExm l (u64 (off + cnt)))
  end.
Definition eqb (w : memory) (a b : Buf) : option bool :=
  x ← bytes w a; y ← bytes w b; Some (bool_decide (x = y)).
End BufOps.

(** * [LinkedBuffer] *)

Record LinkedBuffer := mkLinked {
  slice_list_ : SliceList;
  pinned_list_ : SliceList;
  current_pinned_ : bool;
  end_stream_ : bool;
  is_from_shm_ : bool;
  len_ : Z;
}.

Module LB.
Definition make : LinkedBuffer := mkLinked SList.empty SList.empty false false true 0.

Definition set_list (b : LinkedBuffer) (l : SliceList) : LinkedBuffer :=
  mkLinked l (pinned_list_ b) (current_pinned_ b) (end_stream_ b) (is_from_shm_ b) (len_ b).
Definition set_pinned (b : LinkedBuffer) (l : SliceList) : LinkedBuffer :=
  mkLinked (slice_list_ b) l (current_pinned_ b) (end_stream_ b) (is_from_shm_ b) (len_ b).
Definition set_current_pinned (b : LinkedBuffer) (p : bool) : LinkedBuffer :=
  mkLinked (slice_list_ b) (pinned_list_ b) p (end_stream_ b) (is_from_shm_ b) (len_ b).
Definition set_from_shm (b : LinkedBuffer) (s : bool) : LinkedBuffer :=
  mkLinked (slice_list_ b) (pinned_list_ b) (current_pinned_ b) (end_stream_ b) s (len_ b).
Definition set_len (b : LinkedBuffer) (n : Z) : LinkedBuffer :=
  mkLinked (slice_list_ b) (pinned_list_ b) (current_pinned_ b) (end_stream_ b)
    (is_from_shm_ b) n.

Definition len (b : LinkedBuffer) : Z := len_ b.
Definition is_empty (b : LinkedBuffer) : bool := len_ b =? 0.
Definition is_from_share_memory (b : LinkedBuffer) : bool := is_from_shm_ b.

(** The front slice, if any. *)
Definition front (b : LinkedBuffer) : option (option BufferSlice) :=
  match front_ (slice_list_ b) with
  | None => Some None
  | Some p => s ← SList.deref (slice_list_ b) p; Some (Some s)
  end.
(** Assign to the front slice. *)
Definition set_front (b : LinkedBuffer) (s : BufferSlice) : LinkedBuffer :=
  match front_ (slice_list_ b) with
  | None => b
  | Some p => set_list b (SList.assign (slice_list_ b) p s)
  end.

Section ops.
Context (ops : PoolOps).

Definition push (b : LinkedBuffer) (s : BufferSlice) : option LinkedBuffer :=
  l ← SList.push_back (slice_list_ b) s; Some (set_list b l).

(** A zeroed heap slice of [n] bytes at the end of the list. *)
Definition push_heap (w : memory) (b : LinkedBuffer) (n : Z) : option (memory * LinkedBuffer) :=
  let '(s, w) := Slice.from_heap w (replicate (Z.to_nat n) 0) in
  b ← push b s;
  Some (w, set_from_shm b false).

Definition alloc (w : memory) (b : LinkedBuffer) (size : Z) : option (memory * LinkedBuffer) :=
  '(r, m) ← alloc_shm_buffer ops (shared w) size;
  match r with
  | Ok buf => b ← push b buf; Some (set_shared w m, b)
  | Unexpected _ =>
      '(l, alloc_size, m) ← alloc_shm_buffers ops m (slice_list_ b) size;
      let w := set_shared w m in
      let b := set_list b l in
      let remain := i64 (size - alloc_size) in
      if 0 <? remain then
        push_heap w b (if remain <? kDefaultSingleBufferSize
                       then kDefaultSingleBufferSize else remain)
      else Some (w, b)
  end.

(** The loop of [done] over the slices up to the write cursor. *)
Fixpoint update_nodes (m : shm) (write : option nat) (ns : list (nat * BufferSlice))
    : option shm :=
  match ns with
  | [] => Some m
  | (i, s) :: ns' =>
      m ← Slice.update m s (snd <$> head ns');
      if bool_decide (write = Some i) then Some m else update_nodes m write ns'
  end.

Fixpoint recycle_slices (w : memory) (l : list BufferSlice) : option memory :=
  match l with
  | [] => Some w
  | s :: l' => w ← recycle_buffer ops w s; recycle_slices w l'
  end.

Definition done (w : memory) (b : LinkedBuffer) : option (memory * LinkedBuffer) :=
  if negb (is_from_shm_ b) then Some (w, b) else
  m ← update_nodes (shared w) (write_ (slice_list_ b)) (nodes (slice_list_ b));
  let w := set_shared w m in
  match write_ (slice_list_ b) with
  | None => Some (w, b)
  | Some p =>
      _ ← SList.deref (slice_list_ b) p;
      match SList.next (slice_list_ b) p with
      | None => Some (w, b)
      | Some _ =>
          '(chain, l) ← SList.split_from_write (slice_list_ b);
          w ← recycle_slices w chain;
          Some (w, set_list b l)
      end
  end.

Definition append_buffer_slice (b : LinkedBuffer) (s : BufferSlice) : option LinkedBuffer :=
  let b := if is_from_shm s then b else set_from_shm b false in
  let b := set_len b (u64 (len_ b + Slice.size s)) in
  b ← push b s;
  Some (set_list b (SList.set_write (slice_list_ b) (back_ (slice_list_ b)))).

(** The loop of [clean_pinned_list]. *)
Fixpoint recycle_list (fuel : nat) (w : memory) (l : SliceList)
    : option (memory * SliceList) :=
  match fuel with
  | O => None
  | S fuel' =>
      if 0 <? Slices.len_ l then
        '(r, l) ← SList.pop_front l;
        match r with
        | None => recycle_list fuel' w l
        | Some s =>
            w ← match is_from_shm s with
                | true => recycle_buffer ops w s
                | false => Some (Slice.destroy w s)
                end;
            recycle_list fuel' w l
        end
      else Some (w, l)
  end.

Definition clean_pinned_list (w : memory) (b : LinkedBuffer) : option (memory * LinkedBuffer) :=
  if SList.size (pinned_list_ b) =? 0 then Some (w, b) else
  let b := set_current_pinned b false in
  '(w, l) ← recycle_list (S (length (nodes (pinned_list_ b)))) w (pinned_list_ b);
  Some (w, set_pinned b l).

Definition release_previous_read_and_reserve (w : memory) (b : LinkedBuffer)
    : option (memory * LinkedBuffer) :=
  '(w, b) ← clean_pinned_list w b;
  if (len_ b =? 0) && (SList.size (slice_list_ b) =? 1) then
    f ← front b;
    s ← f;
    '(w, b) ← (if is_from_shm s then
                 '(s, m) ← Slice.reset (shared w) s;
                 Some (set_shared w m, set_front b s)
               else
                 '(r, l) ← SList.pop_front (slice_list_ b);
                 Some (from_option (Slice.destroy w) w r, set_list b l));
    if SList.size (slice_list_ b) =? 0
    then Some (w, set_list b (SList.set_write (slice_list_ b) None))
    else Some (w, b)
  else Some (w, b).

(** The loop of [recycle], to the empty list. *)
Fixpoint pop_all (fuel : nat) (w : memory) (l : SliceList)
    (drop_shm : memory -> BufferSlice -> option memory) : option (memory * SliceList) :=
  match fuel with
  | O => None
  | S fuel' =>
      '(r, l) ← SList.pop_front l;
      match r with
      | None => Some (w, l)
      | Some s =>
          w ← match is_from_shm s with
              | true => drop_shm w s
              | false => Some (Slice.destroy w s)
              end;
          pop_all fuel' w l drop_shm
      end
  end.

Definition cleared (b : LinkedBuffer) (l : SliceList) : LinkedBuffer :=
  mkLinked (SList.set_write l None) (pinned_list_ b) false false true 0.

Definition recycle (w : memory) (b : LinkedBuffer) : option (memory * LinkedBuffer) :=
  '(w, l) ← pop_all (S (length (nodes (slice_list_ b)))) w (slice_list_ b)
              (recycle_buffer ops);
  Some (w, cleared b l).

(** [clean] leaves the slices of the pool to the peer. *)
Definition clean (w : memory) (b : LinkedBuffer) : option (memory * LinkedBuffer) :=
  '(w, l) ← pop_all (S (length (nodes (slice_list_ b)))) w (slice_list_ b)
              (fun w _ => Some w);
  Some (w, cleared b l).

Definition root_buf_offset (b : LinkedBuffer) : option Z :=
  f ← front b; Some (from_option offset_in_shm 0 f).

Definition lb_cap (b : LinkedBuffer) : Z :=
  fold_left (fun sum n => u64 (sum + Slice.capacity n.2)) (nodes (slice_list_ b)) 0.

Definition read_next_slice (w : memory) (b : LinkedBuffer) : option (memory * LinkedBuffer) :=
  '(r, l) ← SList.pop_front (slice_list_ b);
  let b := set_list b l in
  '(w, b) ← match r with
            | None => Some (w, b)
            | Some s =>
                if is_from_shm s then
                  if current_pinned_ b then
                    p ← SList.push_back (pinned_list_ b) s; Some (w, set_pinned b p)
                  else w ← recycle_buffer ops w s; Some (w, b)
                else Some (Slice.destroy w s, b)
            end;
  Some (w, set_current_pinned b false).

(** The slow path of [read_bytes]: [read_next_slice] follows every slice that
    is used up. *)
Fixpoint read_slow (fuel : nat) (w : memory) (b : LinkedBuffer) (size : Z) (acc : list Z)
    : option (list Z * memory * LinkedBuffer) :=
  match fuel with
  | O => None
  | S fuel' =>
      if size =? 0 then Some (acc, w, b) else
      f ← front b;
      match f with
      | None => Some (acc, w, b)
      | Some slice =>
          let '(view, slice) := Slice.read slice size in
          read_data ← span_bytes w view;
          let b := set_front b slice in
          let read_size := sp_len view in
          '(w, b) ← (if read_size =? size then Some (w, b) else read_next_slice w b);
          read_slow fuel' w b (u64 (size - read_size)) (acc ++ read_data)
      end
  end.

Definition read_bytes (w : memory) (b : LinkedBuffer) (size : Z)
    : option (result Buf * memory * LinkedBuffer) :=
  if size =? 0 then Some (Ok (BufOps.exm []), w, b) else
  if len_ b <? size then Some (fail_with kNotEnoughData, w, b) else
  f ← front b;
  '(w, b) ← match f with
            | Some s => if Slice.size s =? 0 then read_next_slice w b else Some (w, b)
            | None => Some (w, b)
            end;
  f ← front b;
  let slow :=
    let b := set_len b (u64 (len_ b - size)) in
    '(bytes, w, b) ← read_slow (S (S (length (nodes (slice_list_ b))))) w b size [];
    Some (Ok (BufOps.exm bytes), w, b) in
  match f with
  | Some s =>
      if size <=? Slice.size s then
        let b := set_len (set_current_pinned b true) (u64 (len_ b - size)) in
        let '(view, s) := Slice.read s size in
        Some (Ok (BufOps.shm view), w, set_front b s)
      else slow
  | None => slow
  end.

(** The slow path of [peek]. *)
Fixpoint peek_slow (w : memory) (ns : list (nat * BufferSlice)) (size : Z) (acc : list Z)
    : option (list Z) :=
  match ns with
  | [] => Some acc
  | (_, s) :: ns' =>
      if 0 <? size then
        let view := Slice.peek s size in
        bytes ← span_bytes w view;
        peek_slow w ns' (u64 (size - sp_len view)) (acc ++ bytes)
      else Some acc
  end.

Definition peek (w : memory) (b : LinkedBuffer) (size : Z)
    : option (result Buf * LinkedBuffer) :=
  if size =? 0 then Some (Ok (BufOps.exm []), b) else
  if len_ b <? size then Some (fail_with kNotEnoughData, b) else
  f ← front b;
  let slow :=
    bytes ← peek_slow w (nodes (slice_list_ b)) size [];
    Some (Ok (BufOps.exm bytes), b) in
  match f with
  | Some s =>
      let view := Slice.peek s size in
      if sp_len view =? size
      then Some (Ok (BufOps.shm view), set_current_pinned b true)
      else slow
  | None => slow
  end.

Fixpoint discard_loop (fuel : nat) (w : memory) (b : LinkedBuffer) (size n : Z)
    : option (Z * memory * LinkedBuffer) :=
  match fuel with
  | O => None
  | S fuel' =>
      f ← front b;
      match f with
      | None => Some (n, w, b)
      | Some slice =>
          let '(skip, slice) := Slice.skip slice size in
          let b := set_front b slice in
          let n := u64 (n + skip) in
          let size := u64 (size - skip) in
          if size =? 0 then Some (n, w, b) else
          '(w, b) ← read_next_slice w b;
          discard_loop fuel' w b size n
      end
  end.

Definition discard (w : memory) (b : LinkedBuffer) (size : Z)
    : option (result Z * memory * LinkedBuffer) :=
  if len_ b <? size then Some (fail_with kNotEnoughData, w, b) else
  '(n, w, b) ← discard_loop (S (length (nodes (slice_list_ b)))) w b size 0;
  Some (Ok n, w, set_len b (u64 (len_ b - n))).

Definition release_previous_read (w : memory) (b : LinkedBuffer)
    : option (memory * LinkedBuffer) :=
  '(w, b) ← clean_pinned_list w b;
  if SList.size (slice_list_ b) =? 0 then Some (w, b) else
  f ← front b;
  s ← f;
  if (Slice.size s =? 0) && bool_decide (front_ (slice_list_ b) = write_ (slice_list_ b)) then
    '(r, l) ← SList.pop_front (slice_list_ b);
    s ← r;
    w ← recycle_buffer ops w s;
    Some (w, set_list b (SList.set_write l None))
  else Some (w, b).

(** [alloc] and the write cursor to the front, when there is no cursor. *)
Definition ensure_write (w : memory) (b : LinkedBuffer) (size : Z)
    : option (memory * LinkedBuffer) :=
  match write_ (slice_list_ b) with
  | Some _ => Some (w, b)
  | None =>
      '(w, b) ← alloc w b (u32 size);
      Some (w, set_list b (SList.set_write (slice_list_ b) (front_ (slice_list_ b))))
  end.

(** [p->reserve(size)] on a slice of the list. *)
Definition reserve_at (b : LinkedBuffer) (p : nat) (size : Z)
    : option (result span * LinkedBuffer) :=
  s ← SList.deref (slice_list_ b) p;
  let '(r, s) := Slice.reserve s size in
  Some (r, set_list b (SList.assign (slice_list_ b) p s)).

(** The second choice of [reserve]: the slice behind the cursor. *)
Definition reserve_next (b : LinkedBuffer) (p : nat) (size : Z)
    : option (option span * LinkedBuffer) :=
  match SList.next (slice_list_ b) p with
  | None => Some (None, b)
  | Some e =>
      '(r, b') ← reserve_at b e size;
      match r with
      | Ok sp => Some (Some sp, set_list b' (SList.set_write (slice_list_ b') (Some e)))
      | Unexpected _ => Some (None, b)
      end
  end.

(** The third: a new slice of the pool, or of the heap. *)
Definition reserve_alloc (w : memory) (b : LinkedBuffer) (size : Z)
    : option (memory * LinkedBuffer) :=
  '(r, m) ← alloc_shm_buffer ops (shared w) (u32 size);
  match r with
  | Ok buf => b ← push b buf; Some (set_shared w m, b)
  | Unexpected _ =>
      push_heap (set_shared w m) b
        (if size <? kDefaultSingleBufferSize then kDefaultSingleBufferSize else size)
  end.

Definition reserve (w : memory) (b : LinkedBuffer) (size : Z)
    : option (result span * memory * LinkedBuffer) :=
  '(w, b) ← ensure_write w b size;
  p ← write_ (slice_list_ b);
  '(r, b1) ← reserve_at b p size;
  match r with
  | Ok sp => Some (Ok sp, w, set_len b1 (u64 (len_ b1 + size)))
  | Unexpected _ =>
      '(r, b) ← reserve_next b p size;
      match r with
      | Some sp => Some (Ok sp, w, set_len b (u64 (len_ b + size)))
      | None =>
          '(w, b) ← reserve_alloc w b size;
          let b := set_list b (SList.set_write (slice_list_ b) (back_ (slice_list_ b))) in
          let b := set_len b (u64 (len_ b + size)) in
          p ← write_ (slice_list_ b);
          '(r, b) ← reserve_at b p size;
          Some (r, w, b)
      end
  end.

(** The loop of [write_bytes]: every turn but the first finds a slice with
    room, so one turn per byte and two more are enough. *)
Fixpoint write_loop (fuel : nat) (w : memory) (b : LinkedBuffer) (bytes : list Z) (n : Z)
    : option (Z * memory * LinkedBuffer) :=
  match fuel with
  | O => None
  | S fuel' =>
      p ← write_ (slice_list_ b);
      s ← SList.deref (slice_list_ b) p;
      '(k, s, w) ← Slice.append w s (drop (Z.to_nat n) bytes);
      let b := set_list b (SList.assign (slice_list_ b) p s) in
      let n := u64 (n + k) in
      if n <? Z.of_nat (length bytes) then
        '(w, b) ← match SList.next (slice_list_ b) p with
                  | Some _ => Some (w, b)
                  | None => alloc w b (u32 (u64 (Z.of_nat (length bytes) - n)))
                  end;
        let b := set_list b (SList.set_write (slice_list_ b) (SList.next (slice_list_ b) p)) in
        write_loop fuel' w b bytes n
      else Some (n, w, b)
  end.

Definition write_bytes (w : memory) (b : LinkedBuffer) (bytes : list Z)
    : option (result Z * memory * LinkedBuffer) :=
  match bytes with
  | [] => Some (Ok 0, w, b)
  | _ =>
      '(w, b) ← ensure_write w b (Z.of_nat (length bytes));
      '(n, w, b) ← write_loop (length bytes + 2) w b bytes 0;
      Some (Ok n, w, set_len b (u64 (len_ b + n)))
  end.
End ops.
End LB.

(** * Slices in memory *)

(** The unread bytes of a slice. *)
Definition slice_bytes (w : memory) (s : BufferSlice) : list Z :=
  default [] (read_place w (data s) (read_index s) (Slice.size s)).
Definition list_bytes (w : memory) (ss : list BufferSlice) : list Z :=
  concat (slice_bytes w <$> ss).

(** The slot of a slice of the pool, the storage of a heap slice. *)
Definition slot_of (s : BufferSlice) : option slot :=
  if is_from_shm s then (fun p => (p, cap s)) <$> buffer_header s else None.
Definition storage_of (s : BufferSlice) : option nat :=
  if is_from_shm s then None else
  match data s with OnHeap id => Some id | InShm _ => None end.
Definition slots_in (ss : list BufferSlice) : list slot := omap slot_of ss.
Definition storages_in (ss : list BufferSlice) : list nat := omap storage_of ss.

(** A slice whose bytes are there, with its indices in order. *)
Inductive slice_wf (w : memory) (s : BufferSlice) : Prop :=
| wf_shm t : slice_of t s -> 0 <= t.1 -> t.1 + 20 + t.2 <= shm_len (shared w) ->
    0 <= read_index s <= write_index s -> write_index s <= cap s -> cap s < 4294967296 ->
    slice_wf w s
| wf_heap id l : is_from_shm s = false -> buffer_header s = None -> data s = OnHeap id ->
    heap w !! id = Some l -> Z.of_nat (length l) = cap s ->
    0 <= read_index s <= write_index s -> write_index s <= cap s ->
    cap s < 4294967296 -> slice_wf w s.

Lemma slot_of_slice t s : slice_of t s -> slot_of s = Some t /\ storage_of s = None.
Proof.
  intros [E1 _ E2 _ E3]. unfold slot_of, storage_of. rewrite E3, E1, E2. now destruct t.
Qed.

Lemma storage_of_heap s id : is_from_shm s = false -> data s = OnHeap id ->
  slot_of s = None /\ storage_of s = Some id.
Proof. intros E1 E2. unfold slot_of, storage_of. now rewrite E1, E2. Qed.

Lemma slice_wf_index w s : slice_wf w s ->
  0 <= read_index s <= write_index s /\ write_index s <= cap s /\
  cap s < 4294967296 /\ Slice.size s = write_index s - read_index s /\
  Slice.remain s = cap s - write_index s.
Proof.
  intros Hw. assert (0 <= read_index s <= write_index s /\ write_index s <= cap s /\
    cap s < 4294967296) as (? & ? & ?) by (destruct Hw; lia).
  unfold Slice.size, Slice.remain. rewrite !u64_id by lia. auto.
Qed.

(** The bytes at a place, whether or not all of them are there. *)
Definition stored (w : memory) (d : place) (off n : Z) : list Z :=
  match d with
  | InShm p => get_bytes (shared w) (p + off) (Z.to_nat n)
  | OnHeap id => take (Z.to_nat n) (drop (Z.to_nat off) (default [] (heap w !! id)))
  end.

(** Reading and writing any part of the storage of a well-formed slice. *)
Lemma read_wf w s off n : slice_wf w s -> 0 <= off -> 0 <= n -> off + n <= cap s ->
  read_place w (data s) off n = Some (stored w (data s) off n) /\
  length (stored w (data s) off n) = Z.to_nat n.
Proof.
  intros [t [_ Hd Hc _ _] ?????|id l Hf Hh Hd Hl Hlen ???] Ho Hn Hle; rewrite Hd; cbn.
  - rewrite load_bytes_in by lia. split; [reflexivity|apply get_bytes_length].
  - rewrite Hl. cbn.
    assert (((0 <=? off) && (off + n <=? Z.of_nat (length l))) = true) as -> by lia.
    split; [reflexivity|]. rewrite length_take, length_drop. lia.
Qed.

Lemma slice_bytes_wf w s : slice_wf w s ->
  slice_bytes w s = stored w (data s) (read_index s) (Slice.size s) /\
  Z.of_nat (length (slice_bytes w s)) = Slice.size s.
Proof.
  intros Hw. destruct (slice_wf_index w s Hw) as (? & ? & ? & Hsz & _).
  destruct (read_wf w s (read_index s) (Slice.size s) Hw) as [Hr Hl]; try lia.
  unfold slice_bytes. rewrite Hr. cbn. split; [reflexivity|]. rewrite Hl. lia.
Qed.

Lemma stored_app w d off n k : 0 <= off -> 0 <= n -> 0 <= k ->
  stored w d off (n + k) = stored w d off n ++ stored w d (off + n) k.
Proof.
  intros. destruct d as [p|id]; cbn.
  - rewrite Z2Nat.inj_add by lia. rewrite get_bytes_app. do 2 f_equal. lia.
  - rewrite Z2Nat.inj_add, (Z2Nat.inj_add off n) by lia.
    rewrite <- (take_drop (Z.to_nat n) (take _ _)) at 1.
    rewrite take_take, <- take_drop_commute, drop_drop. do 2 f_equal; lia.
Qed.

(** Two memories that agree on the slots and storages of slices. *)
Definition agree (w w' : memory) (ss : list BufferSlice) : Prop :=
  keeps (slots_in ss) (shared w) (shared w') /\
  forall id, id ∈ storages_in ss -> heap w' !! id = heap w !! id.

Lemma agree_slice w w' s : agree w w' [s] -> slice_wf w s ->
  slice_wf w' s /\
  forall off n, 0 <= off -> 0 <= n -> off + n <= cap s ->
    stored w' (data s) off n = stored w (data s) off n.
Proof.
  intros [[Hl Hk] Hh] [t Ht Ht0 Hte H1 H2 H3|id l Hf Hhd Hd Hl' Hlen H1 H2 H3].
  - split; [eapply wf_shm; eauto; lia|]. intros off n Ho Hn Hle.
    pose proof Ht as [_ Hd Hc _ _]. rewrite Hd. cbn. symmetry. apply get_bytes_ext.
    intros b Hb. apply (Hk t).
    + unfold slots_in. cbn. destruct (slot_of_slice t s Ht) as [-> _]. constructor.
    + unfold in_slot. lia.
  - assert (heap w' !! id = heap w !! id) as Hid.
    { apply Hh. unfold storages_in. cbn.
      destruct (storage_of_heap s id Hf Hd) as [_ ->]. constructor. }
    split; [eapply wf_heap; eauto; congruence|]. intros off n _ _ _. rewrite Hd. cbn.
    now rewrite Hid.
Qed.

Lemma agree_in w w' ss s : agree w w' ss -> s ∈ ss -> agree w w' [s].
Proof.
  intros [Hk Hh] Hs. apply list_elem_of_split in Hs as (a & b & ->). split.
  - eapply keeps_incl; [exact Hk|]. unfold slots_in. cbn. rewrite omap_app. cbn.
    destruct (slot_of s); set_solver.
  - intros id Hid. apply Hh. unfold storages_in in *. rewrite omap_app. cbn in *.
    destruct (storage_of s); set_solver.
Qed.

Lemma agree_list w w' ss : agree w w' ss -> Forall (slice_wf w) ss ->
  Forall (slice_wf w') ss /\ list_bytes w' ss = list_bytes w ss.
Proof.
  intros Hag Hwf. rewrite Forall_forall in Hwf. split.
  - apply Forall_forall. intros s Hs. apply (agree_slice w w' s (agree_in _ _ _ _ Hag Hs)). auto.
  - unfold list_bytes. f_equal. apply list_fmap_ext. intros i s Hi.
    apply list_elem_of_lookup_2 in Hi. specialize (Hwf s Hi).
    destruct (agree_slice w w' s (agree_in _ _ _ _ Hag Hi) Hwf) as [Hw' Hst].
    destruct (slice_bytes_wf w s Hwf) as [-> _]. destruct (slice_bytes_wf w' s Hw') as [-> _].
    destruct (slice_wf_index w s Hwf) as (? & ? & ? & Hsz & _). apply Hst; lia.
Qed.

(** ** Writing to a slice *)

(** Bytes as the source's [std::uint8_t]. *)
Definition byte_list (l : list Z) : Prop := Forall (fun b => 0 <= b < 256) l.

(** From [w] to [w'] only the data of the slice [s] has changed. *)
Definition wrote (w w' : memory) (s : BufferSlice) : Prop :=
  heap_next w' = heap_next w /\
  match slot_of s with
  | Some t => same_but (fun b => t.1 + 20 <= b < t.1 + 20 + t.2) (shared w) (shared w') /\
              heap w' = heap w
  | None => shared w' = shared w /\
            forall id, storage_of s <> Some id -> heap w' !! id = heap w !! id
  end.

Lemma write_place_ok w s off bytes : slice_wf w s -> byte_list bytes -> 0 <= off ->
  off + Z.of_nat (length bytes) <= cap s ->
  exists w', write_place w (data s) off bytes = Some w' /\ slice_wf w' s /\ wrote w w' s /\
    stored w' (data s) off (Z.of_nat (length bytes)) = bytes /\
    forall o n, 0 <= o -> 0 <= n -> o + n <= off ->
      stored w' (data s) o n = stored w (data s) o n.
Proof.
  intros [t Ht Ht0 Hte H1 H2 H3|id l Hf Hhd Hd Hl Hlen H1 H2 H3] Hb Ho Hle.
  - pose proof Ht as [_ Hd Hc _ _]. rewrite Hd. cbn. rewrite store_bytes_in by lia.
    eexists. split; [reflexivity|]. cbn.
    split; [apply (wf_shm _ _ t); auto; cbn; rewrite ?put_bytes_len; lia|].
    split; [|split].
    + split; [reflexivity|]. destruct (slot_of_slice t s Ht) as [-> _]. cbn. split; [|reflexivity].
      apply same_but_put_bytes; [apply same_but_refl|]. intros b Hbb. lia.
    + rewrite Nat2Z.id. now apply get_bytes_put_bytes.
    + intros o n ???. apply get_bytes_put_bytes_ne. lia.
  - rewrite Hd. cbn. rewrite Hl. cbn.
    assert (((0 <=? off) && (off + Z.of_nat (length bytes) <=? Z.of_nat (length l))) = true)
      as -> by lia.
    eexists. split; [reflexivity|].
    set (l' := take (Z.to_nat off) l ++ bytes ++ drop (Z.to_nat off + length bytes) l).
    assert (length l' = length l) as Hl'.
    { unfold l'. rewrite !length_app, length_take, length_drop. lia. }
    split; [eapply (wf_heap _ _ id l'); eauto; cbn; [now rewrite lookup_insert_eq|lia]|].
    split; [|split]; cbn; rewrite ?lookup_insert_eq; cbn.
    + split; [reflexivity|]. destruct (storage_of_heap s id Hf Hd) as [-> ->].
      split; [reflexivity|]. intros id' Hne. cbn. rewrite lookup_insert_ne; congruence.
    + unfold l'. rewrite drop_app_ge by (rewrite length_take; lia). rewrite length_take.
      replace (Z.to_nat off - (Z.to_nat off `min` length l))%nat with O by lia.
      rewrite Nat2Z.id, drop_0. apply take_app_length.
    + intros o n ???. unfold l'. rewrite drop_app_le by (rewrite length_take; lia).
      rewrite take_app_le by (rewrite length_drop, length_take; lia).
      rewrite <- (take_drop (Z.to_nat off) l) at 2.
      rewrite drop_app_le by (rewrite length_take; lia).
      rewrite take_app_le by (rewrite length_drop, length_take; lia). reflexivity.
Qed.

Lemma set_indices_wf w s r k : slice_wf w s -> 0 <= r <= k -> k <= cap s ->
  slice_wf w (set_indices s r k).
Proof.
  intros [t [] ?????|id l ????????] ??; [eapply (wf_shm _ _ t)|eapply (wf_heap _ _ id l)];
    try constructor; cbn; auto; lia.
Qed.

Lemma append_ok w s bytes : slice_wf w s -> byte_list bytes ->
  let k := Z.min (Z.of_nat (length bytes)) (cap s - write_index s) in
  exists w', Slice.append w s bytes =
      Some (k, set_indices s (read_index s) (write_index s + k), w') /\
    slice_wf w' (set_indices s (read_index s) (write_index s + k)) /\ wrote w w' s /\
    slice_bytes w' (set_indices s (read_index s) (write_index s + k)) =
      slice_bytes w s ++ take (Z.to_nat k) bytes.
Proof.
  intros Hw Hb k. destruct (slice_wf_index w s Hw) as (H1 & H2 & H3 & Hsz & Hrem).
  set (s' := set_indices s (read_index s) (write_index s + k)).
  assert (slice_bytes w s = stored w (data s) (read_index s) (write_index s - read_index s))
    as Eb by (rewrite <- Hsz; now apply slice_bytes_wf).
  unfold Slice.append. destruct bytes as [|b0 bs].
  { assert (s' = s) as Es by (unfold s', k, set_indices; destruct s; cbn in *; f_equal; lia).
    exists w. rewrite Es, take_nil, app_nil_r. unfold k. cbn -[Z.min].
    rewrite Z.min_l by lia. split; [reflexivity|]. split; [exact Hw|]. split; [|reflexivity].
    split; [reflexivity|]. destruct (slot_of s); auto using same_but_refl. }
  rewrite Hrem. fold k. set (bytes := b0 :: bs) in *.
  assert (0 <= k <= Z.of_nat (length bytes) /\ write_index s + k <= cap s) as [Hk1 Hk2] by lia.
  assert (length (take (Z.to_nat k) bytes) = Z.to_nat k) as Hlt by (rewrite length_take; lia).
  destruct (write_place_ok w s (write_index s) (take (Z.to_nat k) bytes))
    as (w' & -> & Hw' & Hwr & Hnew & Hold); auto; try lia.
  { now apply Forall_take. }
  cbn [mbind option_bind]. exists w'. rewrite u64_id by lia. fold s'.
  split; [reflexivity|]. assert (slice_wf w' s') as Hws by (apply set_indices_wf; auto; lia).
  split; [exact Hws|]. split; [exact Hwr|].
  destruct (slice_bytes_wf w' s' Hws) as [-> _].
  destruct (slice_wf_index w' s' Hws) as (_ & _ & _ & -> & _). cbn [s' set_indices data read_index write_index].
  replace (write_index s + k - read_index s) with ((write_index s - read_index s) + k) by lia.
  rewrite stored_app, Eb, Hold by lia. f_equal.
  replace (read_index s + (write_index s - read_index s)) with (write_index s) by lia.
  rewrite Hlt, Z2Nat.id in Hnew by lia. exact Hnew.
Qed.

(** * Buffers in memory *)

Lemma slots_in_app a b : slots_in (a ++ b) = slots_in a ++ slots_in b.
Proof. apply omap_app. Qed.
Lemma storages_in_app a b : storages_in (a ++ b) = storages_in a ++ storages_in b.
Proof. apply omap_app. Qed.
Lemma list_bytes_app w a b : list_bytes w (a ++ b) = list_bytes w a ++ list_bytes w b.
Proof. unfold list_bytes. now rewrite fmap_app, concat_app. Qed.
Lemma list_bytes_cons w s ss : list_bytes w (s :: ss) = slice_bytes w s ++ list_bytes w ss.
Proof. reflexivity. Qed.

Section buffers.
Context {ops : PoolOps} `{!Pool ops}.

(** Storages of the heap are given out in order. *)
Definition heap_ok (w : memory) : Prop :=
  forall id, is_Some (heap w !! id) -> (id < heap_next w)%nat.

Definition in_use (m : shm) (ts : list slot) : Prop :=
  Forall (fun t => Z.testbit (slot_flag m t) 1 = true) ts.

(** The slices of a chain and the slots [rest] held by others: the pool has
    given out exactly those, they are marked in use and the bytes of the
    slices are there. *)
Record chain_inv (w : memory) (ss : list BufferSlice) (rest : list slot) : Prop := {
  ci_own : own (shared w) (slots_in ss ++ rest);
  ci_wf : Forall (slice_wf w) ss;
  ci_ids : NoDup (storages_in ss);
  ci_heap : heap_ok w;
  ci_use : in_use (shared w) (slots_in ss);
}.

Lemma in_use_keeps m m' ts : keeps ts m m' -> (forall t, t ∈ ts -> 0 < t.2) ->
  in_use m ts -> in_use m' ts.
Proof.
  intros [_ Hk] Hpos Hu. unfold in_use in *. rewrite Forall_forall in *. intros t Ht.
  rewrite <- (Hu t Ht). f_equal. unfold slot_flag. symmetry. apply (Hk t); [exact Ht|].
  specialize (Hpos t Ht). unfold in_slot. lia.
Qed.

(** A change that leaves the slots and storages of a chain alone, and after
    which the pool still has its slots out. *)
Lemma chain_inv_agree w w' ss rest rest' : chain_inv w ss rest -> agree w w' ss ->
  own (shared w') (slots_in ss ++ rest') -> heap_ok w' -> chain_inv w' ss rest'.
Proof.
  intros [Hown Hwf Hids Hheap Huse] Hag Hown' Hheap'.
  constructor; auto.
  - now apply (agree_list w w').
  - apply (in_use_keeps (shared w)); [apply Hag| |exact Huse].
    intros t Ht. apply (own_slot _ _ t Hown). set_solver.
Qed.

(** The slots and storages of a chain, one slice apart. *)
Lemma slots_middle pre s post rest : slots_in (pre ++ s :: post) ++ rest ≡ₚ
  option_list (slot_of s) ++ slots_in (pre ++ post) ++ rest.
Proof.
  rewrite !slots_in_app. unfold slots_in at 2. cbn. destruct (slot_of s); cbn; [|reflexivity].
  rewrite <- !app_assoc. cbn. symmetry. apply Permutation_middle.
Qed.

Lemma storages_middle pre s post : storages_in (pre ++ s :: post) ≡ₚ
  option_list (storage_of s) ++ storages_in (pre ++ post).
Proof.
  rewrite !storages_in_app. unfold storages_in at 2. cbn. destruct (storage_of s); cbn; [|reflexivity].
  symmetry. apply Permutation_middle.
Qed.

Lemma wrote_shm w w' pre s post rest t : slot_of s = Some t ->
  own (shared w) (slots_in (pre ++ s :: post) ++ rest) -> wrote w w' s ->
  agree w w' (pre ++ post) /\ keeps rest (shared w) (shared w') /\
  own (shared w') (slots_in (pre ++ s :: post) ++ rest) /\
  slot_flag (shared w') t = slot_flag (shared w) t.
Proof.
  intros Et Hown [_ Hwr]. rewrite Et in Hwr. destruct Hwr as [Hm Hh].
  pose proof (slots_middle pre s post rest) as Hp. rewrite Et in Hp. cbn in Hp.
  pose proof (own_perm _ _ _ Hp Hown) as Hown1.
  assert (keeps (slots_in (pre ++ post) ++ rest) (shared w) (shared w')) as Hk.
  { split; [apply Hm|]. intros u b Hu Hb. apply Hm. intros Hb'.
    destruct (own_disjoint _ _ _ u Hown1 Hu); unfold in_slot in Hb; lia. }
  split; [split; [|now intros; rewrite Hh]; eapply keeps_incl; [exact Hk|set_solver]|].
  split; [eapply keeps_incl; [exact Hk|set_solver]|]. split.
  - eapply own_write; [exact Hown|]. eapply same_but_weaken; [exact Hm|].
    intros b Hb. cbn in Hb. exists t. unfold in_user. split; [rewrite Hp; constructor|lia].
  - symmetry. apply Hm. lia.
Qed.

Lemma wrote_heap w w' pre s post rest : slot_of s = None ->
  NoDup (storages_in (pre ++ s :: post)) -> wrote w w' s ->
  agree w w' (pre ++ post) /\ keeps rest (shared w) (shared w') /\ shared w' = shared w.
Proof.
  intros Et Hids [_ Hwr]. rewrite Et in Hwr. destruct Hwr as [Hm Hh].
  rewrite Hm. split; [|auto using keeps_refl]. split; [rewrite Hm; apply keeps_refl|].
  intros id Hid. apply Hh. intros E. rewrite storages_middle, E in Hids. cbn in Hids.
  apply NoDup_cons in Hids as [Hni _]. contradiction.
Qed.

(** Writing the data of one slice of a chain, and moving its indices. *)
Lemma wrote_chain w w' pre s s' post rest :
  chain_inv w (pre ++ s :: post) rest -> wrote w w' s -> slice_wf w' s' ->
  slot_of s' = slot_of s -> storage_of s' = storage_of s ->
  agree w w' (pre ++ post) /\ keeps rest (shared w) (shared w') /\
  chain_inv w' (pre ++ s' :: post) rest.
Proof.
  intros [Hown Hwf Hids Hheap Huse] Hwr Hs' Esl Est.
  assert (heap_ok w') as Hheap'.
  { destruct Hwr as [Hhn Hwr]. intros id Hid. rewrite Hhn.
    destruct (slot_of s) as [t|] eqn:Et; destruct Hwr as [_ Hh]; [rewrite Hh in Hid; auto|].
    destruct (decide (storage_of s = Some id)) as [E|E]; [|rewrite (Hh id E) in Hid; auto].
    apply Hheap. apply Forall_app in Hwf as [_ Hwf]. apply Forall_inv in Hwf.
    destruct Hwf as [u Hu|id' l Hf _ Hd Hl]; [now destruct (slot_of_slice u s Hu) as [? ?]; congruence|].
    destruct (storage_of_heap s id' Hf Hd) as [_ E']. rewrite E in E'. simplify_eq. eauto. }
  assert (slots_in (pre ++ s' :: post) = slots_in (pre ++ s :: post)) as Es
    by (rewrite !slots_in_app; unfold slots_in; cbn; now rewrite Esl).
  assert (storages_in (pre ++ s' :: post) = storages_in (pre ++ s :: post)) as Ei
    by (rewrite !storages_in_app; unfold storages_in; cbn; now rewrite Est).
  assert (agree w w' (pre ++ post) /\ keeps rest (shared w) (shared w') /\
    own (shared w') (slots_in (pre ++ s :: post) ++ rest) /\
    in_use (shared w') (slots_in (pre ++ s :: post))) as (Hag & Hk & Hown' & Huse').
  { pose proof (slots_middle pre s post []) as Hp. rewrite !app_nil_r in Hp.
    unfold in_use in *. destruct (slot_of s) as [t|] eqn:Et.
    - destruct (wrote_shm w w' pre s post rest t Et Hown Hwr) as (Hag & Hk & Hown' & Hfl).
      repeat (split; [assumption|]). rewrite Hp in Huse |- *. cbn [option_list app] in *.
      apply Forall_cons_1 in Huse as [Hut Huse]. constructor; [now rewrite Hfl|].
      apply (in_use_keeps (shared w)); [apply Hag| |exact Huse]. intros u Hu.
      apply (own_slot _ _ u Hown). apply elem_of_app. left. rewrite Hp. now constructor.
    - destruct (wrote_heap w w' pre s post rest Et Hids Hwr) as (Hag & Hk & Hsh).
      rewrite Hsh. split; [exact Hag|]. split; [apply keeps_refl|]. auto. }
  split; [exact Hag|]. split; [exact Hk|]. constructor; rewrite ?Es, ?Ei; auto.
  apply Forall_app in Hwf as [Hw1 Hw2]. apply Forall_cons_1 in Hw2 as [_ Hw2].
  assert (Forall (slice_wf w') (pre ++ post)) as Hw' by (apply (agree_list w w'); [exact Hag|now apply Forall_app]).
  apply Forall_app in Hw' as [? ?]. apply Forall_app. auto.
Qed.

(** ** Allocation *)

Definition is_fresh (s : BufferSlice) : Prop :=
  read_index s = 0 /\ write_index s = 0 /\ start s = 0 /\ 0 < cap s.
Definition caps (ss : list BufferSlice) : Z := foldr (fun s acc => cap s + acc) 0 ss.

Lemma slots_in_fresh news : slots_in (fresh_slice <$> news) = news.
Proof.
  unfold slots_in. induction news as [|t news IH]; cbn; [reflexivity|].
  rewrite IH. now destruct t.
Qed.
Lemma storages_in_fresh news : storages_in (fresh_slice <$> news) = [].
Proof. unfold storages_in. now induction news as [|t news IH]. Qed.
Lemma caps_fresh news : caps (fresh_slice <$> news) = total_cap news.
Proof. unfold caps, total_cap. induction news as [|t news IH]; cbn; [reflexivity|]. now rewrite IH. Qed.
Lemma caps_cons s ss : caps (s :: ss) = cap s + caps ss.
Proof. reflexivity. Qed.
Lemma caps_app a b : caps (a ++ b) = caps a + caps b.
Proof. unfold caps. induction a as [|s a IH]; cbn; lia. Qed.

Lemma fresh_bytes w ss : Forall (slice_wf w) ss -> Forall is_fresh ss -> list_bytes w ss = [].
Proof.
  intros Hw Hf. induction Hf as [|s ss (Hr & Hwi & _) Hf IH]; [reflexivity|].
  apply Forall_cons_1 in Hw as [Hws Hw]. rewrite list_bytes_cons, (IH Hw), app_nil_r.
  destruct (slice_bytes_wf w s Hws) as [_ Hl].
  destruct (slice_wf_index w s Hws) as (_ & _ & _ & Hsz & _).
  apply nil_length_inv. lia.
Qed.

(** Slices the pool has just given out, at the end of a chain. *)
Lemma chain_fresh w m' ss rest news : chain_inv w ss rest ->
  own m' (news ++ slots_in ss ++ rest) -> keeps (slots_in ss ++ rest) (shared w) m' ->
  Forall (fun t => slot_flag m' t = 2) news ->
  chain_inv (set_shared w m') (ss ++ (fresh_slice <$> news)) rest /\
  agree w (set_shared w m') ss /\ Forall is_fresh (fresh_slice <$> news).
Proof.
  intros Hci Hown Hk Hfl.
  assert (agree w (set_shared w m') ss) as Hag.
  { split; [|reflexivity]. eapply keeps_incl; [exact Hk|]. set_solver. }
  assert (forall t, t ∈ news -> 0 <= t.1 /\ 0 < t.2 /\ t.1 + 20 + t.2 <= shm_len m' /\
    t.1 + 20 + t.2 < 4294967296) as Hslot.
  { intros t Ht. destruct (own_slot _ _ t Hown) as (? & ? & ? & ? & _); [set_solver|auto]. }
  pose proof Hci as [Hown0 Hwf Hids Hheap Huse].
  split; [|split; [exact Hag|]].
  - constructor; auto.
    + cbn. rewrite slots_in_app, slots_in_fresh. eapply own_perm; [|exact Hown].
      rewrite app_assoc. apply Permutation_app_tail, Permutation_app_comm.
    + apply Forall_app. split; [now apply (agree_list w _ ss Hag)|].
      apply Forall_fmap, Forall_forall. intros t Ht. destruct (Hslot t Ht) as (? & ? & ? & ?).
      apply (wf_shm _ _ t); auto using fresh_slice_of; cbn; lia.
    + now rewrite storages_in_app, storages_in_fresh, app_nil_r.
    + cbn. unfold in_use. rewrite slots_in_app, slots_in_fresh. apply Forall_app. split.
      * apply (in_use_keeps (shared w)); [apply Hag| |exact Huse].
        intros t Ht. apply (own_slot _ _ t Hown0). set_solver.
      * eapply Forall_impl; [exact Hfl|]. intros t Ht. cbn in Ht. now rewrite Ht.
  - apply Forall_fmap, Forall_forall. intros t Ht. destruct (Hslot t Ht) as (? & ? & ? & ?).
    repeat split; cbn; lia.
Qed.

(** A zeroed storage of the heap, at the end of a chain. *)
Lemma chain_heap w ss rest n : chain_inv w ss rest -> 0 < n < 4294967296 ->
  let '(s, w') := Slice.from_heap w (replicate (Z.to_nat n) 0) in
  chain_inv w' (ss ++ [s]) rest /\ agree w w' ss /\ is_fresh s /\ cap s = n /\
  is_from_shm s = false /\ shared w' = shared w /\ heap_next w' = S (heap_next w) /\
  data s = OnHeap (heap_next w) /\
  forall id, (id < heap_next w)%nat -> heap w' !! id = heap w !! id.
Proof.
  intros Hci Hn. unfold Slice.from_heap, heap_alloc. rewrite length_replicate, Z2Nat.id by lia.
  rewrite u32_id by lia. set (s := mkSlice _ _ _ _ _ _ _ _). set (w' := Memory _ _ _).
  pose proof Hci as [Hown Hwf Hids Hheap Huse].
  assert (forall id, (id < heap_next w)%nat -> heap w' !! id = heap w !! id) as Hold.
  { intros id Hid. cbn. rewrite lookup_insert_ne by lia. reflexivity. }
  assert (forall id, id ∈ storages_in ss -> (id < heap_next w)%nat) as Hlt.
  { intros id Hid. apply list_elem_of_omap in Hid as (x & Hx & E). rewrite Forall_forall in Hwf.
    destruct (Hwf x Hx) as [t Ht|id' l Hf _ Hd Hl].
    - destruct (slot_of_slice t x Ht) as [_ E']. congruence.
    - destruct (storage_of_heap x id' Hf Hd) as [_ E']. rewrite E in E'. simplify_eq. eauto. }
  assert (agree w w' ss) as Hag.
  { split; [apply keeps_refl|]. intros id Hid. auto. }
  split; [|split; [exact Hag|]].
  - constructor.
    + rewrite slots_in_app. cbn. rewrite app_nil_r. exact Hown.
    + apply Forall_app. split; [now apply (agree_list w w')|]. constructor; [|constructor].
      apply (wf_heap _ _ (heap_next w) (replicate (Z.to_nat n) 0)); cbn; auto; try lia.
      * now rewrite lookup_insert_eq.
      * rewrite length_replicate. lia.
    + rewrite storages_in_app. cbn. apply NoDup_app. split; [exact Hids|].
      split; [|apply NoDup_singleton]. intros id Hid E%list_elem_of_singleton.
      specialize (Hlt id Hid). lia.
    + intros id Hid. cbn in Hid |- *. destruct (decide (heap_next w = id)) as [<-|Hne]; [lia|].
      rewrite lookup_insert_ne in Hid by congruence. specialize (Hheap id Hid). lia.
    + unfold in_use. rewrite slots_in_app. cbn. now rewrite app_nil_r.
  - repeat split; cbn; auto; lia.
Qed.

(** From [b] to [b'] the nodes [ns] of fresh slices were added at the end. *)
Record grown (w w' : memory) (b b' : LinkedBuffer) (rest : list slot)
    (ns : list (nat * BufferSlice)) : Prop := {
  gr_inv : chain_inv w' (slices (slice_list_ b')) rest;
  gr_list : slist_ok (slice_list_ b');
  gr_nodes : nodes (slice_list_ b') = nodes (slice_list_ b) ++ ns;
  gr_write : write_ (slice_list_ b') = write_ (slice_list_ b);
  gr_fresh : Forall is_fresh (snd <$> ns);
  gr_flags : Forall (fun t => slot_flag (shared w') t = 2) (slots_in (snd <$> ns));
  gr_agree : agree w w' (slices (slice_list_ b));
  gr_keeps : keeps rest (shared w) (shared w');
  gr_heap : forall id, (id < heap_next w)%nat -> heap w' !! id = heap w !! id;
  gr_other : pinned_list_ b' = pinned_list_ b /\ current_pinned_ b' = current_pinned_ b /\
    end_stream_ b' = end_stream_ b /\ len_ b' = len_ b;
  gr_shm : is_from_shm_ b' = is_from_shm_ b && forallb is_from_shm (snd <$> ns);
  gr_count : Z.of_nat (length ns) <= 4294967296;
  gr_next : (heap_next w <= heap_next w')%nat;
  gr_new : Forall (fun id => (heap_next w <= id)%nat) (storages_in (snd <$> ns));
}.

Lemma forallb_fresh news : forallb is_from_shm (fresh_slice <$> news) = true.
Proof. now induction news. Qed.

(** Slices of the pool pushed by a callee that is given the list. *)
Lemma grown_fresh w m' b l rest news ns :
  chain_inv w (slices (slice_list_ b)) rest ->
  own m' (news ++ slots_in (slices (slice_list_ b)) ++ rest) ->
  keeps (slots_in (slices (slice_list_ b)) ++ rest) (shared w) m' ->
  Forall (fun t => slot_flag m' t = 2) news ->
  slist_ok l -> write_ l = write_ (slice_list_ b) -> nodes l = nodes (slice_list_ b) ++ ns ->
  snd <$> ns = fresh_slice <$> news ->
  grown w (set_shared w m') b (LB.set_list b l) rest ns.
Proof.
  intros Hci Hown Hk Hfl Hl Hw Hn Hf.
  destruct (chain_fresh w m' _ rest news Hci Hown Hk Hfl) as (Hci' & Hag & Hfr).
  assert (slices l = slices (slice_list_ b) ++ (fresh_slice <$> news)) as Es
    by (unfold slices; now rewrite Hn, fmap_app, Hf).
  constructor; cbn; auto; rewrite ?Hf, ?Es; auto.
  - now rewrite slots_in_fresh.
  - eapply keeps_incl; [exact Hk|]. set_solver.
  - now rewrite forallb_fresh, andb_true_r.
  - apply (f_equal length) in Hf. rewrite !length_fmap in Hf. rewrite Hf.
    pose proof (own_count _ _ Hown) as Hc. rewrite length_app in Hc. lia.
  - rewrite storages_in_fresh. constructor.
Qed.

Lemma push_heap_ok w b rest n : chain_inv w (slices (slice_list_ b)) rest ->
  slist_ok (slice_list_ b) ->
  Z.of_nat (length (nodes (slice_list_ b))) + 1 < 18446744073709551616 ->
  0 < n < 4294967296 ->
  exists w' b' ns, LB.push_heap w b n = Some (w', b') /\ grown w w' b b' rest ns /\
    caps (snd <$> ns) = n /\ shared w' = shared w /\ length ns = 1%nat.
Proof.
  intros Hci Hl Hlen Hn. unfold LB.push_heap, LB.push.
  pose proof (chain_heap w _ rest n Hci Hn) as Hh.
  destruct (Slice.from_heap w (replicate (Z.to_nat n) 0)) as [s w'].
  destruct Hh as (Hci' & Hag & Hfr & Hc & Hs & Hsh & Hnx & Hd & Hold).
  destruct (push_back_ok (slice_list_ b) s Hl Hlen) as (l & -> & Hl' & Hnl & Hwl). cbn.
  exists w', (LB.set_from_shm (LB.set_list b l) false), [(node_next (slice_list_ b), s)].
  split; [reflexivity|]. split; [|cbn; split; [lia|now split]].
  assert (slices l = slices (slice_list_ b) ++ [s]) as Es
    by (unfold slices; now rewrite Hnl, fmap_app).
  constructor; cbn; rewrite ?Es, ?Hs; auto.
  - assert (slot_of s = None) as E by (unfold slot_of; now rewrite Hs).
    unfold slots_in. cbn. rewrite E. constructor.
  - rewrite Hsh. apply keeps_refl.
  - now rewrite andb_false_r.
  - lia.
  - lia.
  - destruct (storage_of_heap s _ Hs Hd) as [_ E]. unfold storages_in. cbn. rewrite E.
    repeat constructor.
Qed.

(** Growing twice. *)
Lemma grown_trans w1 w2 w3 b1 b2 b3 rest ns1 ns2 :
  grown w1 w2 b1 b2 rest ns1 -> grown w2 w3 b2 b3 rest ns2 ->
  keeps (slots_in (snd <$> ns1)) (shared w2) (shared w3) ->
  Z.of_nat (length (ns1 ++ ns2)) <= 4294967296 ->
  grown w1 w3 b1 b3 rest (ns1 ++ ns2).
Proof.
  intros G1 G2 Hk Hcnt. pose proof G1 as [I1 L1 N1 W1 F1 Fl1 A1 K1 H1 O1 S1 C1 Hhn W1'].
  pose proof G2 as [I2 L2 N2 W2 F2 Fl2 A2 K2 H2 O2 S2 C2 Hhn2 W2'].
  assert (slices (slice_list_ b2) = slices (slice_list_ b1) ++ (snd <$> ns1)) as Es
    by (unfold slices; now rewrite N1, fmap_app).
  constructor; auto.
  - now rewrite N2, N1, app_assoc.
  - congruence.
  - rewrite fmap_app. now apply Forall_app.
  - rewrite fmap_app, slots_in_app. apply Forall_app. split; [|exact Fl2].
    rewrite Forall_forall in *. intros t Ht. rewrite <- (Fl1 t Ht). symmetry.
    apply (proj2 Hk t); [exact Ht|]. pose proof (own_slot _ _ t (ci_own _ _ _ I1)) as Hsl.
    rewrite Es, slots_in_app in Hsl. destruct Hsl as (_ & ? & _); [set_solver|].
    unfold in_slot. lia.
  - rewrite Es in A2. destruct A1 as [A1 A1'], A2 as [A2 A2']. split.
    + eapply keeps_trans; [exact A1|]. eapply keeps_incl; [exact A2|].
      rewrite slots_in_app. set_solver.
    + intros id Hid. rewrite A2'; [auto|]. rewrite storages_in_app. set_solver.
  - eapply keeps_trans; eauto.
  - intros id Hid. rewrite H2 by lia. auto.
  - intuition congruence.
  - now rewrite S2, S1, fmap_app, forallb_app, andb_assoc.
  - lia.
  - rewrite fmap_app, storages_in_app. apply Forall_app. split; [exact W1'|].
    eapply Forall_impl; [exact W2'|]. cbn. lia.
Qed.

Lemma total_cap_nonneg m held : own m held -> forall l, l ⊆ held -> 0 <= total_cap l.
Proof.
  intros Hown l. induction l as [|t l IH]; intros Hi; unfold total_cap in *; cbn; [lia|].
  destruct (own_slot _ _ t Hown) as (_ & ? & _); [set_solver|].
  specialize (IH ltac:(set_solver)). lia.
Qed.

(** [alloc] adds fresh slices with room for [size] bytes. *)
Lemma alloc_ok w b rest size : chain_inv w (slices (slice_list_ b)) rest ->
  slist_ok (slice_list_ b) ->
  Z.of_nat (length (nodes (slice_list_ b))) < 9223372036854775808 ->
  0 < size < 4294967296 ->
  exists w' b' ns, LB.alloc ops w b size = Some (w', b') /\ grown w w' b b' rest ns /\
    size <= caps (snd <$> ns) /\
    (forall a z, ns = a ++ [z] -> caps (snd <$> a) < size).
Proof.
  intros Hci Hl Hlen Hsz. unfold LB.alloc.
  destruct (alloc_law _ _ size (ci_own _ _ _ Hci) ltac:(lia))
    as [(t & m1 & -> & Hown1 & Hk1 & Hcap & Hfl)|(m1 & -> & Hown1 & Hk1)]; cbn [mbind option_bind].
  { unfold LB.push. destruct (push_back_ok _ (fresh_slice t) Hl ltac:(lia))
      as (l & -> & Hl' & Hnl & Hwl). cbn [mbind option_bind].
    exists (set_shared w m1), (LB.set_list b l), [(node_next (slice_list_ b), fresh_slice t)].
    split; [reflexivity|]. split; [|split; [cbn; lia|]].
    - apply (grown_fresh w m1 b l rest [t]); auto.
    - intros a z E. destruct a as [|? [|]]; [cbn; lia|discriminate..]. }
  destruct (allocs_law m1 _ (slice_list_ b) size Hown1 Hl ltac:(lia) Hlen)
    as (news & ns & l & m2 & -> & Hown2 & Hk2 & Hl' & Hwl & Hnl & Hf & Hfl & Hneed).
  cbn [mbind option_bind].
  pose proof (grown_fresh w m2 b l rest news ns Hci Hown2 (keeps_trans _ _ _ _ Hk1 Hk2) Hfl
    Hl' Hwl Hnl Hf) as G1.
  pose proof (total_cap_nonneg _ _ Hown2 news ltac:(set_solver)) as Ht0.
  assert (total_cap news < 4294967296) as Ht1.
  { pose proof (own_total _ _ Hown2) as Ht. rewrite total_cap_app in Ht.
    pose proof (total_cap_nonneg _ _ Hown2 (slots_in (slices (slice_list_ b)) ++ rest)
      ltac:(set_solver)). lia. }
  rewrite i64_id by lia. assert (caps (snd <$> ns) = total_cap news) as Ec
    by (now rewrite Hf, caps_fresh).
  destruct (Z.ltb_spec 0 (size - total_cap news)) as [Hrem|Hrem].
  2: { exists (set_shared w m2), (LB.set_list b l), ns. split; [reflexivity|].
       split; [exact G1|]. split; [cbn; lia|]. intros a z E.
       assert (news <> []) as Hne by (intros ->; rewrite E, fmap_app in Hf; now destruct a).
       apply list_snoc_inv in Hne as (n' & t & ->). rewrite E, !fmap_app in Hf.
       cbn in Hf. apply app_inj_tail in Hf as [Hf _]. rewrite Hf, caps_fresh. eauto. }
  set (n := if size - total_cap news <? kDefaultSingleBufferSize
            then kDefaultSingleBufferSize else size - total_cap news).
  assert (size - total_cap news <= n /\ 0 < n < 4294967296) as [Hn1 Hn2].
  { unfold n. consts. case_if; lia. }
  assert (Z.of_nat (length (nodes l)) + 1 < 18446744073709551616 /\
    Z.of_nat (length ns) + 1 <= 4294967296) as [Hlen' Hlen2].
  { rewrite Hnl, length_app. apply (f_equal length) in Hf. rewrite !length_fmap in Hf.
    pose proof (own_count _ _ Hown2) as Hc. rewrite length_app in Hc. lia. }
  destruct (push_heap_ok (set_shared w m2) (LB.set_list b l) rest n)
    as (w3 & b3 & ns3 & -> & G2 & Hc3 & Hsh3 & Hl3); auto; [apply G1|].
  exists w3, b3, (ns ++ ns3). split; [reflexivity|]. split.
  - eapply grown_trans; eauto; [rewrite Hsh3; apply keeps_refl|].
    rewrite length_app. lia.
  - split; [rewrite fmap_app, caps_app; lia|]. intros a z E.
    destruct ns3 as [|n3 [|]]; [discriminate..| |discriminate]. apply app_inj_tail in E as [<- _]. lia.
Qed.

(** * What operations leave alone *)

Lemma wrote_refl w s : wrote w w s.
Proof. split; [reflexivity|]. destruct (slot_of s); auto using same_but_refl. Qed.

Lemma keeps_flag ts m m' t : keeps ts m m' -> t ∈ ts -> 0 < t.2 ->
  slot_flag m' t = slot_flag m t.
Proof. intros [_ Hk] Ht Hp. symmetry. apply (Hk t); [exact Ht|]. unfold in_slot. lia. Qed.

(** What an operation on the chain [ss] leaves alone: the slots [rest] held by
    others and the storages of other buffers. *)
Record leaves (w w' : memory) (ss : list BufferSlice) (rest : list slot) : Prop := {
  lv_keeps : keeps rest (shared w) (shared w');
  lv_next : (heap_next w <= heap_next w')%nat;
  lv_heap : forall id, (id < heap_next w)%nat -> id ∉ storages_in ss ->
    heap w' !! id = heap w !! id;
}.

Lemma leaves_refl w ss rest : leaves w w ss rest.
Proof. constructor; auto using keeps_refl. Qed.

Lemma leaves_trans w1 w2 w3 ss ss' rest : leaves w1 w2 ss rest -> leaves w2 w3 ss' rest ->
  (forall id, id ∈ storages_in ss' -> id ∈ storages_in ss \/ (heap_next w1 <= id)%nat) ->
  leaves w1 w3 ss rest.
Proof.
  intros [K1 N1 H1] [K2 N2 H2] Hi. constructor; [eapply keeps_trans; eauto|lia|].
  intros id Hid Hni. rewrite H2; [auto|lia|]. intros Hin. destruct (Hi id Hin); [auto|lia].
Qed.

Lemma leaves_wrote w w' pre s post rest : wrote w w' s ->
  keeps rest (shared w) (shared w') -> leaves w w' (pre ++ s :: post) rest.
Proof.
  intros [Hn Hwr] Hk. constructor; [exact Hk|lia|]. intros id _ Hni.
  destruct (slot_of s) as [t|] eqn:Et; destruct Hwr as [_ Hh]; [now rewrite Hh|].
  apply Hh. intros E. apply Hni. rewrite storages_middle, E. set_solver.
Qed.

(** Moving the indices of one slice of a chain. *)
Lemma chain_set_indices w pre s post rest r k : chain_inv w (pre ++ s :: post) rest ->
  0 <= r <= k -> k <= cap s -> chain_inv w (pre ++ set_indices s r k :: post) rest.
Proof.
  intros Hci Hr Hk. apply (wrote_chain w w pre s _ post rest); auto using wrote_refl.
  apply set_indices_wf; auto. pose proof (ci_wf _ _ _ Hci) as Hwf.
  now apply Forall_app in Hwf as [_ [Hwf _]%Forall_cons_1].
Qed.
End buffers.
