(* ===== verification/LinkedWrite.v ===== *)
(** Writing to a [LinkedBuffer] ([src/buffer/linked.cpp]: [alloc], [reserve],
    [write_bytes], [done]): what the buffer holds afterwards, where its cursor
    is and what the slices' headers say to the peer.  The theorems are about
    any pool with the laws of [Pool]. *)
From S2P Require Import Prelude Errors Consts Shm Slices Pool Linked.

Section buffers.
Context {ops : PoolOps} `{!Pool ops}.

(** * The writer *)

(** Nothing has been read of the slice. *)
Definition unread (s : BufferSlice) : Prop := read_index s = 0 /\ start s = 0.

(** A buffer being written: the pool state, the list and its cursor; behind the
    cursor only fresh slices; [xs] is what the buffer holds. *)
Record writing (w : memory) (b : LinkedBuffer) (rest : list slot) (xs : list Z) : Prop := {
  wr_inv : chain_inv w (slices (slice_list_ b)) rest;
  wr_list : slist_ok (slice_list_ b);
  wr_unread : Forall unread (slices (slice_list_ b));
  wr_bytes : list_bytes w (slices (slice_list_ b)) = xs;
  wr_shm : is_from_shm_ b = forallb is_from_shm (slices (slice_list_ b));
  wr_clear : Forall (fun t => Z.testbit (slot_flag (shared w) t) 0 = false)
    (slots_in (slices (slice_list_ b)));
}.

Definition at_cursor (l : SliceList) (pre : list (nat * BufferSlice)) (i : nat)
    (s : BufferSlice) (post : list (nat * BufferSlice)) : Prop :=
  nodes l = pre ++ (i, s) :: post /\ write_ l = Some i /\ Forall is_fresh (snd <$> post).

Lemma fresh_unread ss : Forall is_fresh ss -> Forall unread ss.
Proof.
  intros H. eapply Forall_impl; [exact H|]. intros s (Hr & _ & Hs & _). now split.
Qed.

Lemma wrote_flags w w' pre s post rest t : chain_inv w (pre ++ s :: post) rest ->
  wrote w w' s -> t ∈ slots_in (pre ++ s :: post) -> slot_flag (shared w') t = slot_flag (shared w) t.
Proof.
  intros [Hown _ Hids _ _] Hwr Ht.
  assert (0 < t.2) as Hp by (apply (own_slot _ _ t Hown); set_solver).
  destruct (slot_of s) as [u|] eqn:Eu.
  - destruct (wrote_shm w w' pre s post rest u Eu Hown Hwr) as (Hag & _ & _ & Hfl).
    pose proof (slots_middle pre s post []) as Hm. rewrite !app_nil_r, Eu in Hm.
    rewrite Hm in Ht. cbn in Ht. apply elem_of_cons in Ht as [->|Ht]; [exact Hfl|].
    apply (keeps_flag _ _ _ _ (proj1 Hag) Ht Hp).
  - destruct (wrote_heap w w' pre s post rest Eu Hids Hwr) as (_ & _ & ->). reflexivity.
Qed.

Lemma grown_writing w w' b b' rest ns xs : writing w b rest xs -> grown w w' b b' rest ns ->
  writing w' b' rest xs /\ leaves w w' (slices (slice_list_ b)) rest /\
  (forall id, id ∈ storages_in (slices (slice_list_ b')) ->
     id ∈ storages_in (slices (slice_list_ b)) \/ (heap_next w <= id)%nat).
Proof.
  intros [Hci Hl Hu Hb Hs Hcl] [I L N W F Fl A K H O S C X G].
  assert (slices (slice_list_ b') = slices (slice_list_ b) ++ (snd <$> ns)) as Es
    by (unfold slices; now rewrite N, fmap_app).
  assert (Forall (slice_wf w') (snd <$> ns)) as Hwn.
  { pose proof (ci_wf _ _ _ I) as Hw. rewrite Es in Hw. now apply Forall_app in Hw. }
  split; [|split].
  - constructor; auto; rewrite Es.
    + apply Forall_app. auto using fresh_unread.
    + destruct (agree_list w w' _ A (ci_wf _ _ _ Hci)) as [_ Eb].
      rewrite list_bytes_app, Eb, Hb, (fresh_bytes w'), app_nil_r; auto.
    + rewrite S, Hs, forallb_app. reflexivity.
    + rewrite slots_in_app. apply Forall_app. split.
      * rewrite Forall_forall in *. intros t Ht. rewrite <- (Hcl t Ht). f_equal.
        apply (keeps_flag _ _ _ _ (proj1 A) Ht). apply (own_slot _ _ t (ci_own _ _ _ Hci)). set_solver.
      * eapply Forall_impl; [exact Fl|]. intros t Ht. cbn in Ht. now rewrite Ht.
  - constructor; auto.
  - intros id. rewrite Es, storages_in_app, elem_of_app. rewrite Forall_forall in G.
    intros [?|Hid]; auto.
Qed.

Lemma writing_split l pre i s post : nodes l = pre ++ (i, s) :: post ->
  slices l = (snd <$> pre) ++ s :: (snd <$> post).
Proof. intros E. unfold slices. now rewrite E, fmap_app. Qed.

(** Bytes added to one slice behind which all slices are fresh. *)
Lemma write_slice w w' b rest xs ys pre i s post k : writing w b rest xs ->
  nodes (slice_list_ b) = pre ++ (i, s) :: post -> Forall is_fresh (snd <$> post) ->
  let s' := set_indices s (read_index s) k in
  let b' := LB.set_list b (SList.assign (slice_list_ b) i s') in
  wrote w w' s -> slice_wf w' s' -> slice_bytes w' s' = slice_bytes w s ++ ys ->
  writing w' b' rest (xs ++ ys) /\ nodes (slice_list_ b') = pre ++ (i, s') :: post /\
  leaves w w' (slices (slice_list_ b)) rest /\
  storages_in (slices (slice_list_ b')) = storages_in (slices (slice_list_ b)).
Proof.
  intros [Hci Hl Hu Hb Hs Hcl] En Hf s' b' Hwr Hws' Hsb.
  pose proof (writing_split _ _ _ _ _ En) as Es. rewrite Es in Hci, Hu, Hb, Hs, Hcl.
  pose proof (ci_wf _ _ _ Hci) as Hwf. apply Forall_app in Hwf as [Hwa [Hws Hwp]%Forall_cons_1].
  destruct (wrote_chain w w' (snd <$> pre) s s' (snd <$> post) rest) as (Hag & Hk & Hci'); auto;
    [reflexivity..|].
  destruct (assign_ok _ _ _ _ s' _ Hl En) as (Hl' & En' & Hw').
  pose proof (writing_split _ _ _ _ _ En') as Es'. split; [|split; [exact En'|split]].
  - constructor; cbn [slice_list_ LB.set_list b' is_from_shm_]; rewrite ?Es'; auto.
    + apply Forall_app in Hu as [? [? ?]%Forall_cons_1]. apply Forall_app. split; [auto|].
      constructor; auto.
    + assert (list_bytes w' ((snd <$> pre) ++ (snd <$> post)) =
              list_bytes w ((snd <$> pre) ++ (snd <$> post))) as Eb
        by (apply agree_list; [exact Hag|now apply Forall_app]).
      pose proof (ci_wf _ _ _ Hci') as Hwf'. apply Forall_app in Hwf' as [_ [_ Hwp']%Forall_cons_1].
      rewrite !list_bytes_app, list_bytes_cons in *.
      rewrite (fresh_bytes w' _ Hwp' Hf) in *. rewrite (fresh_bytes w _ Hwp Hf) in *.
      rewrite !app_nil_r in *. rewrite Eb, <- Hb, <- app_assoc. now f_equal.
    + rewrite Hs, !forallb_app. reflexivity.
    + replace (slots_in ((snd <$> pre) ++ s' :: (snd <$> post))) with
        (slots_in ((snd <$> pre) ++ s :: (snd <$> post))) by (rewrite !slots_in_app; reflexivity).
      rewrite Forall_forall in *. intros t Ht. now rewrite (wrote_flags _ _ _ _ _ _ _ Hci Hwr Ht), Hcl.
  - rewrite Es. now apply leaves_wrote.
  - cbn [slice_list_ LB.set_list b']. rewrite Es, Es', !storages_in_app. reflexivity.
Qed.

Lemma writing_wf w b rest xs pre i s post : writing w b rest xs ->
  nodes (slice_list_ b) = pre ++ (i, s) :: post -> slice_wf w s.
Proof.
  intros Hwr En. pose proof (ci_wf _ _ _ (wr_inv _ _ _ _ Hwr)) as Hwf.
  rewrite (writing_split _ _ _ _ _ En) in Hwf. now apply Forall_app in Hwf as [_ [Hwf _]%Forall_cons_1].
Qed.

(** One [append] at the write cursor. *)
Lemma write_turn w b rest xs pre i s post bytes : writing w b rest xs ->
  at_cursor (slice_list_ b) pre i s post -> byte_list bytes ->
  let k := Z.min (Z.of_nat (length bytes)) (cap s - write_index s) in
  let s' := set_indices s (read_index s) (write_index s + k) in
  let b' := LB.set_list b (SList.assign (slice_list_ b) i s') in
  exists w', Slice.append w s bytes = Some (k, s', w') /\
    writing w' b' rest (xs ++ take (Z.to_nat k) bytes) /\
    at_cursor (slice_list_ b') pre i s' post /\ leaves w w' (slices (slice_list_ b)) rest /\
    storages_in (slices (slice_list_ b')) = storages_in (slices (slice_list_ b)).
Proof.
  intros Hwr (En & Hw & Hf) Hby k s' b'. pose proof (writing_wf _ _ _ _ _ _ _ _ Hwr En) as Hws.
  destruct (append_ok w s bytes Hws Hby) as (w' & Happ & Hws' & Hwro & Hsb).
  destruct (write_slice w w' b rest xs _ pre i s post _ Hwr En Hf Hwro Hws' Hsb)
    as (Hwr' & En' & Hlv & Hst).
  exists w'. split; [exact Happ|]. split; [exact Hwr'|]. split; [|auto].
  split; [exact En'|]. auto.
Qed.

(** Moving the cursor of a list one slice on. *)
Lemma move_cursor w b rest xs pre i s j t post : writing w b rest xs ->
  nodes (slice_list_ b) = pre ++ (i, s) :: (j, t) :: post -> Forall is_fresh (snd <$> post) ->
  let b' := LB.set_list b (SList.set_write (slice_list_ b) (SList.next (slice_list_ b) i)) in
  writing w b' rest xs /\ at_cursor (slice_list_ b') (pre ++ [(i, s)]) j t post.
Proof.
  intros [Hci Hl Hu Hb Hs Hcl] En Hf b'. split.
  - constructor; auto. now apply set_write_ok.
  - split; [cbn; rewrite En; now rewrite <- app_assoc|]. split; [|exact Hf].
    cbn. now rewrite (next_ok _ _ _ _ _ Hl En).
Qed.

(** The cursor to the next slice, allocated when there is none. *)
Lemma write_next w b rest xs pre i s post size : writing w b rest xs ->
  at_cursor (slice_list_ b) pre i s post -> 0 < size < 4294967296 ->
  (post = [] -> Z.of_nat (length (nodes (slice_list_ b))) < 4611686018427387904) ->
  exists w' b' pre' j t post',
    (match SList.next (slice_list_ b) i with
     | Some _ => Some (w, b)
     | None => LB.alloc ops w b size
     end) = Some (w', b') /\
    let b'' := LB.set_list b' (SList.set_write (slice_list_ b') (SList.next (slice_list_ b') i)) in
    writing w' b'' rest xs /\ at_cursor (slice_list_ b'') pre' j t post' /\ is_fresh t /\
    leaves w w' (slices (slice_list_ b)) rest /\
    (forall id, id ∈ storages_in (slices (slice_list_ b'')) ->
       id ∈ storages_in (slices (slice_list_ b)) \/ (heap_next w <= id)%nat) /\
    (len_ b'' = len_ b /\ pinned_list_ b'' = pinned_list_ b) /\
    (if decide (post = [])
     then size <= caps (snd <$> (j, t) :: post') /\
       (forall a z, (j, t) :: post' = a ++ [z] -> caps (snd <$> a) < size) /\
       Z.of_nat (length (nodes (slice_list_ b''))) <=
       Z.of_nat (length (nodes (slice_list_ b))) + 4294967296
     else post = (j, t) :: post' /\
      length (nodes (slice_list_ b'')) = length (nodes (slice_list_ b))).
Proof.
  intros Hwr (En & Hw & Hf) Hsz Hlen. pose proof (wr_list _ _ _ _ Hwr) as Hl.
  rewrite (next_ok _ _ _ _ _ Hl En). destruct post as [|[j t] post]; cbn [head fmap option_fmap option_map fst].
  - destruct (alloc_ok w b rest size) as (w' & b' & ns & -> & G & Hc & Hneed); auto; [apply Hwr|specialize (Hlen eq_refl); lia|].
    destruct (grown_writing _ _ _ _ _ _ _ Hwr G) as (Hwr' & Hlv & Hst).
    destruct ns as [|[j t] post]; [cbn in Hc; lia|].
    pose proof (gr_nodes _ _ _ _ _ _ G) as En'. rewrite En, <- app_assoc in En'. cbn [app] in En'.
    pose proof (gr_fresh _ _ _ _ _ _ G) as Hfr. apply Forall_cons_1 in Hfr as [Hft Hfp].
    destruct (move_cursor _ _ _ _ _ _ _ _ _ _ Hwr' En' Hfp) as [H1 H2].
    exists w', b', (pre ++ [(i, s)]), j, t, post. split; [reflexivity|].
    split; [exact H1|]. split; [exact H2|]. split; [exact Hft|]. split; [exact Hlv|].
    split; [exact Hst|]. split; [split; apply G|]. rewrite decide_True by reflexivity.
    split; [exact Hc|]. split; [exact Hneed|].
    cbn [nodes slice_list_ LB.set_list SList.set_write].
    rewrite (gr_nodes _ _ _ _ _ _ G), length_app. pose proof (gr_count _ _ _ _ _ _ G). lia.
  - apply Forall_cons_1 in Hf as [Hft Hfp].
    destruct (move_cursor _ _ _ _ _ _ _ _ _ _ Hwr En Hfp) as [H1 H2].
    exists w, b, (pre ++ [(i, s)]), j, t, post. split; [reflexivity|].
    split; [exact H1|]. split; [exact H2|]. split; [exact Hft|].
    split; [apply leaves_refl|]. split; [now left|]. split; [now split|].
    rewrite decide_False by discriminate. auto.
Qed.

(** The cursor is at the last slice, or there is no slice. *)
Definition cursor_ok (l : SliceList) : Prop :=
  match write_ l with
  | None => nodes l = []
  | Some i => exists pre s, nodes l = pre ++ [(i, s)]
  end.

(** The last of the slices from the cursor on is needed for [rem] bytes. *)
Definition all_needed (s : BufferSlice) (post : list (nat * BufferSlice)) (rem : Z) : Prop :=
  forall a z, post = a ++ [z] -> cap s - write_index s + caps (snd <$> a) < rem.

Lemma caps_fresh_nonneg (ns : list (nat * BufferSlice)) : Forall is_fresh (snd <$> ns) ->
  0 <= caps (snd <$> ns).
Proof.
  induction ns as [|n ns IH]; intros Hf; [cbn; lia|]. rewrite fmap_cons in *.
  apply Forall_cons_1 in Hf as [(_ & _ & _ & Hc) Hf]. rewrite caps_cons. specialize (IH Hf). lia.
Qed.

(** What a turn of a writing loop leaves alone: what others hold, the storages
    the buffer does not take, the slices pinned, and the count of the bytes, which
    comes last. *)
Definition carried (w : memory) (b : LinkedBuffer) (w' : memory) (b' : LinkedBuffer) (rest : list slot) : Prop :=
  leaves w w' (slices (slice_list_ b)) rest /\
  (forall id, id ∈ storages_in (slices (slice_list_ b')) ->
     id ∈ storages_in (slices (slice_list_ b)) \/ (heap_next w <= id)%nat) /\
  len_ b' = len_ b /\ pinned_list_ b' = pinned_list_ b.

Lemma carried_trans w1 b1 w2 b2 w3 b3 rest : carried w1 b1 w2 b2 rest -> carried w2 b2 w3 b3 rest ->
  carried w1 b1 w3 b3 rest.
Proof.
  intros (Hl1 & Hs1 & E1 & P1) (Hl2 & Hs2 & E2 & P2). split; [eapply leaves_trans; eauto|].
  split; [|split; congruence].
  intros id Hid. destruct (Hs2 id Hid) as [Hi|Hi]; [auto|right].
  pose proof (lv_next _ _ _ _ Hl1). lia.
Qed.

(** Room for the [rem] bytes to come, or for the slices they may need. *)
Definition room_for (b : LinkedBuffer) (s : BufferSlice) (post : list (nat * BufferSlice)) (rem : Z) : Prop :=
  Z.of_nat (length (nodes (slice_list_ b))) < 4611686018427387904 \/
  rem <= cap s - write_index s + caps (snd <$> post).

(** Behind a full slice: the next one, and what a loop needs to go on there. *)
Lemma next_turn w b rest xs pre i s post rem : writing w b rest xs ->
  at_cursor (slice_list_ b) pre i s post -> write_index s = cap s -> 0 < rem < 4294967296 ->
  all_needed s post rem -> room_for b s post rem ->
  exists w' b' pre' j t post',
    (match SList.next (slice_list_ b) i with
     | Some _ => Some (w, b)
     | None => LB.alloc ops w b rem
     end) = Some (w', b') /\
    let b'' := LB.set_list b' (SList.set_write (slice_list_ b') (SList.next (slice_list_ b') i)) in
    writing w' b'' rest xs /\ at_cursor (slice_list_ b'') pre' j t post' /\ all_needed t post' rem /\
    room_for b'' t post' rem /\ 0 < cap t - write_index t /\ carried w b w' b'' rest.
Proof.
  intros Hwr Hat Hfull Hrem Hneed Hroom. unfold room_for, all_needed in *. rewrite Hfull, Z.sub_diag in *.
  destruct (write_next w b rest xs pre i s post rem Hwr Hat Hrem)
    as (w' & b' & pre' & j & t & post' & E & H).
  { intros ->. destruct Hroom as [?|Hroom]; [assumption|]. cbn in Hroom. lia. }
  cbv zeta in H. destruct H as (H1 & H2 & (_ & Hi & _ & Hc) & H3 & H4 & H5 & Hcase).
  exists w', b', pre', j, t, post'. split; [exact E|]. cbv zeta. set (b'' := LB.set_list b' _) in *.
  rewrite Hi, Z.sub_0_r. split; [exact H1|]. split; [exact H2|]. split; [|split; [|split; [lia|split; auto]]].
  - intros a z Ea. destruct (decide (post = [])) as [->|Hne].
    + destruct Hcase as (_ & Hcase & _). specialize (Hcase ((j, t) :: a) z). rewrite Ea in Hcase.
      specialize (Hcase eq_refl). now rewrite fmap_cons, caps_cons in Hcase.
    + destruct Hcase as [-> _]. specialize (Hneed ((j, t) :: a) z). rewrite Ea in Hneed.
      specialize (Hneed eq_refl). rewrite fmap_cons, caps_cons in Hneed. cbn [snd] in Hneed. lia.
  - destruct (decide (post = [])) as [->|Hne].
    + right. destruct Hcase as (Hcase & _ & _). now rewrite fmap_cons, caps_cons in Hcase.
    + destruct Hcase as [-> Hcase]. rewrite fmap_cons, caps_cons in Hroom. cbn [snd] in Hroom.
      rewrite Hcase. destruct Hroom; [left|right]; lia.
Qed.

(** A slice that was filled up leaves the room behind it. *)
Lemma filled_room b b' pre i s s' post rem rem' : at_cursor (slice_list_ b) pre i s post ->
  at_cursor (slice_list_ b') pre i s' post -> room_for b s post rem ->
  rem - (cap s - write_index s) = rem' - (cap s' - write_index s') -> room_for b' s' post rem'.
Proof.
  intros (E1 & _) (E2 & _) [Hr|Hr] Heq; [left|right; lia].
  rewrite E2, length_app in *. rewrite E1, length_app in Hr. exact Hr.
Qed.

(** At the last byte the cursor is in the last slice. *)
Lemma cursor_last l pre i s s' post rem : at_cursor l pre i s' post -> all_needed s post rem ->
  rem <= cap s - write_index s -> cursor_ok l.
Proof.
  intros (E1 & E2 & Hf) Hneed Hrem. unfold cursor_ok. rewrite E2. exists pre, s'. rewrite E1. do 2 f_equal.
  destruct (decide (post = [])) as [?|(a & z & E)%list_snoc_inv]; [assumption|].
  specialize (Hneed a z E). pose proof (caps_fresh_nonneg a) as Hc0.
  rewrite E, fmap_app in Hf. apply Forall_app in Hf as [Hf _]. specialize (Hc0 Hf). lia.
Qed.

(** The loop of [write_bytes], with [n] bytes written. *)
Lemma write_loop_ok bytes rest : byte_list bytes -> Z.of_nat (length bytes) < 4294967296 ->
  forall fuel w b n xs pre i s post, writing w b rest xs ->
  at_cursor (slice_list_ b) pre i s post -> 0 <= n < Z.of_nat (length bytes) ->
  all_needed s post (Z.of_nat (length bytes) - n) -> room_for b s post (Z.of_nat (length bytes) - n) ->
  Z.of_nat (length bytes) - n + (if 0 <? cap s - write_index s then 1 else 2) <= Z.of_nat fuel ->
  exists w' b', LB.write_loop ops fuel w b bytes n = Some (Z.of_nat (length bytes), w', b') /\
    writing w' b' rest (xs ++ drop (Z.to_nat n) bytes) /\ cursor_ok (slice_list_ b') /\
    carried w b w' b' rest.
Proof.
  intros Hby Hlt fuel. induction fuel as [|fuel IH];
    intros w b n xs pre i s post Hwr Hat Hn Hneed Hroom Hfuel; [case_match; lia|].
  pose proof Hat as (En & Hw & Hf). pose proof (wr_list _ _ _ _ Hwr) as Hl.
  cbn [LB.write_loop]. rewrite Hw. cbn [mbind option_bind]. rewrite (deref_ok _ _ _ _ _ Hl En).
  cbn [mbind option_bind].
  assert (length (drop (Z.to_nat n) bytes) = (length bytes - Z.to_nat n)%nat) as Hld
    by apply length_drop.
  destruct (write_turn w b rest xs pre i s post (drop (Z.to_nat n) bytes) Hwr Hat)
    as (w1 & -> & Hwr1 & Hat1 & Hlv1 & Hst1); [now apply Forall_drop|].
  set (k := Z.min _ _) in *. set (s1 := set_indices _ _ _) in *.
  cbn [mbind option_bind]. set (b1 := LB.set_list b _) in *.
  assert (carried w b w1 b1 rest) as Hc1.
  { split; [exact Hlv1|]. split; [rewrite Hst1; now left|now split]. }
  assert (0 <= write_index s <= cap s) as Hws.
  { destruct (slice_wf_index w s (writing_wf _ _ _ _ _ _ _ _ Hwr En)) as (? & ? & _). lia. }
  rewrite u64_id by lia. destruct (Z.ltb_spec (n + k) (Z.of_nat (length bytes))) as [Hmore|Hdone].
  2: { exists w1, b1. replace (n + k) with (Z.of_nat (length bytes)) by lia.
       split; [reflexivity|]. rewrite take_ge in Hwr1 by lia. split; [exact Hwr1|].
       split; [eapply cursor_last; [exact Hat1|exact Hneed|lia]|exact Hc1]. }
  rewrite u64_id, u32_id by lia.
  assert (k = cap s - write_index s) as Ek by lia.
  destruct (next_turn w1 b1 rest _ pre i s1 post (Z.of_nat (length bytes) - (n + k)) Hwr1 Hat1)
    as (w2 & b2 & pre2 & j & t & post2 & -> & H); [cbn; lia|lia| | |].
  { intros a z Ea. specialize (Hneed a z Ea). cbn [cap write_index s1 set_indices]. lia. }
  { eapply filled_room; [exact Hat|exact Hat1|exact Hroom|cbn [cap write_index s1 set_indices]; lia]. }
  cbn [mbind option_bind]. cbv zeta in H. set (b3 := LB.set_list b2 _) in *.
  destruct H as (Hwr3 & Hat3 & Hneed3 & Hroom3 & Ht & Hc3).
  destruct (IH w2 b3 (n + k) _ pre2 j t post2 Hwr3 Hat3) as (w' & b' & -> & Hwr' & Hcur & Hc); auto; [lia| |].
  { assert ((0 <? cap t - write_index t) = true) as -> by lia.
    destruct (Z.ltb_spec 0 (cap s - write_index s)); lia. }
  exists w', b'. split; [reflexivity|]. split; [|split; [exact Hcur|]].
  - rewrite <- app_assoc in Hwr'. replace (drop (Z.to_nat n) bytes) with
      (take (Z.to_nat k) (drop (Z.to_nat n) bytes) ++ drop (Z.to_nat (n + k)) bytes); [exact Hwr'|].
    rewrite Z2Nat.inj_add by lia. rewrite <- drop_drop. apply take_drop.
  - eapply carried_trans; [exact Hc1|]. eapply carried_trans; eauto.
Qed.
(** A buffer between two writes. *)
Record writable (w : memory) (b : LinkedBuffer) (rest : list slot) (xs : list Z) : Prop := {
  wb_writing : writing w b rest xs;
  wb_cursor : cursor_ok (slice_list_ b);
  wb_len : len_ b = Z.of_nat (length xs);
}.

(** The first allocation, when there is no cursor. *)
Lemma ensure_write_ok w b rest xs size : writing w b rest xs -> cursor_ok (slice_list_ b) ->
  0 < size < 4294967296 ->
  Z.of_nat (length (nodes (slice_list_ b))) < 4611686018427387904 ->
  exists w' b' pre i s post, LB.ensure_write ops w b size = Some (w', b') /\
    writing w' b' rest xs /\ at_cursor (slice_list_ b') pre i s post /\
    all_needed s post size /\ room_for b' s post size /\ carried w b w' b' rest /\
    Z.of_nat (length (nodes (slice_list_ b'))) < 9223372036854775808.
Proof.
  intros Hwr Hcur Hsz Hlen. unfold LB.ensure_write. unfold cursor_ok in Hcur.
  destruct (write_ (slice_list_ b)) as [i|] eqn:Ew.
  - destruct Hcur as (pre & s & En). exists w, b, pre, i, s, [].
    split; [reflexivity|]. split; [exact Hwr|]. split; [now split|].
    split; [intros a z E; now destruct a|]. split; [now left|].
    split; [split; [apply leaves_refl|auto]|lia].
  - destruct (alloc_ok w b rest size) as (w' & b' & ns & E & G & Hc & Hneed);
      [apply Hwr|apply Hwr|lia|lia|].
    rewrite u32_id, E by lia. cbn [mbind option_bind].
    destruct (grown_writing _ _ _ _ _ _ _ Hwr G) as (Hwr' & Hlv & Hst).
    destruct ns as [|[i s] post]; [cbn in Hc; lia|].
    pose proof (gr_nodes _ _ _ _ _ _ G) as En'. rewrite Hcur in En'. cbn [app] in En'.
    pose proof (gr_fresh _ _ _ _ _ _ G) as Hfr. apply Forall_cons_1 in Hfr as [(Hri & Hwi & _) Hfp].
    rewrite fmap_cons, caps_cons in Hc. cbn [snd] in *.
    eexists w', _, [], i, s, post. split; [reflexivity|].
    split; [destruct Hwr'; constructor; auto; now apply set_write_ok|].
    split. { split; [exact En'|]. split; [|exact Hfp]. cbn.
             rewrite (sl_front _ (wr_list _ _ _ _ Hwr')), En'. reflexivity. }
    split. { intros a z Ea. specialize (Hneed ((i, s) :: a) z). rewrite Ea in Hneed.
             specialize (Hneed eq_refl). rewrite fmap_cons, caps_cons in Hneed. cbn [snd] in Hneed. lia. }
    split; [right; lia|]. split; [split; [exact Hlv|split; [exact Hst|split; apply G]]|].
    pose proof (gr_count _ _ _ _ _ _ G) as Hcnt. cbn [nodes slice_list_ LB.set_list SList.set_write].
    rewrite En'. lia.
Qed.

Lemma write_bytes_ok w b rest xs bytes : writable w b rest xs -> byte_list bytes ->
  Z.of_nat (length xs) + Z.of_nat (length bytes) < 18446744073709551616 ->
  Z.of_nat (length bytes) < 4294967296 ->
  Z.of_nat (length (nodes (slice_list_ b))) < 4611686018427387904 ->
  exists w' b', LB.write_bytes ops w b bytes = Some (Ok (Z.of_nat (length bytes)), w', b') /\
    writable w' b' rest (xs ++ bytes) /\ leaves w w' (slices (slice_list_ b)) rest /\
    (bytes <> [] -> is_Some (write_ (slice_list_ b'))) /\ pinned_list_ b' = pinned_list_ b.
Proof.
  intros [Hwr Hcur Hl] Hby Hx Hb Hlen. unfold LB.write_bytes. destruct bytes as [|b0 bs] eqn:Eb.
  { exists w, b. rewrite app_nil_r. split; [reflexivity|]. split; [now constructor|].
    split; [apply leaves_refl|]. now split; [intros []|]. }
  rewrite <- Eb in *. assert (0 < Z.of_nat (length bytes)) as Hpos by (rewrite Eb; cbn; lia).
  destruct (ensure_write_ok w b rest xs (Z.of_nat (length bytes)) Hwr Hcur)
    as (w1 & b1 & pre & i & s & post & -> & Hwr1 & Hat & Hneed & Hroom & Hc1 & Hn1); [lia..|].
  cbn [mbind option_bind].
  destruct (write_loop_ok bytes rest Hby Hb (length bytes + 2) w1 b1 0 xs pre i s post Hwr1 Hat)
    as (w2 & b2 & -> & Hwr2 & Hcur2 & Hc2); rewrite ?Z.sub_0_r; auto; [lia|case_match; lia|].
  destruct (carried_trans _ _ _ _ _ _ _ Hc1 Hc2) as (Hlv & _ & Hl2 & Hp2).
  rewrite drop_0 in Hwr2. cbn [mbind option_bind].
  eexists w2, _. split; [reflexivity|]. split; [|split; [|split; [|exact Hp2]]].
  - constructor; cbn.
    + destruct Hwr2. now constructor.
    + exact Hcur2.
    + rewrite Hl2, Hl, u64_id, length_app by lia. lia.
  - exact Hlv.
  - intros _. cbn. unfold cursor_ok in Hcur2. destruct (write_ (slice_list_ b2)); [eauto|].
    pose proof (wr_bytes _ _ _ _ Hwr2) as H. unfold slices in H. rewrite Hcur2 in H. cbn in H.
    symmetry in H. apply app_nil in H as [_ H]. rewrite H in Hpos. cbn in Hpos. lia.
Qed.

(** ** [reserve] *)

(** The bytes of a slice up to and behind its write index. *)
Lemma slice_bytes_more w w' s n : slice_wf w s -> slice_wf w' s -> 0 <= n ->
  write_index s + n <= cap s ->
  stored w' (data s) (read_index s) (write_index s - read_index s) =
    stored w (data s) (read_index s) (write_index s - read_index s) ->
  slice_wf w' (set_indices s (read_index s) (write_index s + n)) /\
  slice_bytes w' (set_indices s (read_index s) (write_index s + n)) =
    slice_bytes w s ++ stored w' (data s) (write_index s) n.
Proof.
  intros Hw Hw' Hn Hc Hold. destruct (slice_wf_index w s Hw) as (H1 & H2 & H3 & Hsz & _).
  assert (slice_wf w' (set_indices s (read_index s) (write_index s + n))) as Hws
    by (apply set_indices_wf; auto; lia).
  split; [exact Hws|]. destruct (slice_bytes_wf _ _ Hws) as [-> _].
  destruct (slice_bytes_wf w s Hw) as [-> _].
  destruct (slice_wf_index _ _ Hws) as (_ & _ & _ & -> & _). rewrite Hsz.
  cbn [set_indices data read_index write_index].
  replace (write_index s + n - read_index s) with ((write_index s - read_index s) + n) by lia.
  rewrite stored_app, Hold by lia. do 2 f_equal. lia.
Qed.

(** What a writer may do with the span [sp] of a buffer that held [xs]: it is
    there, and bytes stored through it end up behind [xs]. *)
Definition window (w : memory) (b : LinkedBuffer) (rest : list slot) (xs : list Z) (sp : span)
    : Prop :=
  (exists ys, span_bytes w sp = Some ys /\ Z.of_nat (length ys) = sp_len sp /\
     writable w b rest (xs ++ ys)) /\
  forall zs, byte_list zs -> Z.of_nat (length zs) = sp_len sp ->
    exists w', write_place w (sp_data sp) (sp_off sp) zs = Some w' /\
      writable w' b rest (xs ++ zs) /\ leaves w w' (slices (slice_list_ b)) rest.

(** [reserve] on a slice with room, with the cursor to be set on it. *)
Lemma reserve_here w b rest xs pre i s size : writing w b rest xs ->
  nodes (slice_list_ b) = pre ++ [(i, s)] ->
  0 <= size <= cap s - write_index s -> len_ b = Z.of_nat (length xs) ->
  Z.of_nat (length xs) + size < 18446744073709551616 ->
  exists sp b1, LB.reserve_at b i size = Some (Ok sp, b1) /\ sp_len sp = size /\
    len_ b1 = len_ b /\ write_ (slice_list_ b1) = write_ (slice_list_ b) /\
    window w (LB.set_len (LB.set_list b1 (SList.set_write (slice_list_ b1) (Some i)))
                (u64 (len_ b1 + size))) rest xs sp.
Proof.
  intros Hwr En Hsz Hlen Hx. pose proof (writing_wf _ _ _ _ _ _ _ _ Hwr En) as Hws.
  destruct (slice_wf_index w s Hws) as (H1 & H2 & H3 & Hsize & Hrem).
  unfold LB.reserve_at. rewrite (deref_ok _ _ _ _ _ (wr_list _ _ _ _ Hwr) En).
  cbn [mbind option_bind]. unfold Slice.reserve. rewrite Hrem.
  assert ((size <=? cap s - write_index s) = true) as -> by lia. rewrite u64_id by lia.
  set (s' := set_indices _ _ _). eexists _, _. split; [reflexivity|]. split; [reflexivity|].
  split; [reflexivity|]. split; [reflexivity|].
  assert (forall w' ys, wrote w w' s -> slice_wf w' s -> 
    stored w' (data s) (read_index s) (write_index s - read_index s) =
      stored w (data s) (read_index s) (write_index s - read_index s) ->
    stored w' (data s) (write_index s) size = ys -> Z.of_nat (length ys) = size ->
    writable w' (LB.set_len (LB.set_list b
      (SList.set_write (SList.assign (slice_list_ b) i s') (Some i))) (u64 (len_ b + size)))
      rest (xs ++ ys) /\ leaves w w' (slices (slice_list_ b)) rest /\
    storages_in (slices (SList.assign (slice_list_ b) i s')) = storages_in (slices (slice_list_ b)))
    as Hw.
  { intros w' ys Hwro Hws' Hold Hys Hly.
    destruct (slice_bytes_more w w' s size Hws Hws' ltac:(lia) ltac:(lia) Hold) as [Hwf' Hsb].
    fold s' in Hwf', Hsb. rewrite Hys in Hsb.
    destruct (write_slice w w' b rest xs ys pre i s [] _ Hwr En ltac:(constructor) Hwro Hwf' Hsb)
      as ([Hci Hl Hu Hbb Hsh Hcl] & En' & Hlv & Hst).
    split; [|auto]. constructor.
    - constructor; auto. now apply set_write_ok.
    - unfold cursor_ok. cbn. eauto.
    - cbn. rewrite Hlen, u64_id, length_app by lia. lia. }
  destruct (read_wf w s (write_index s) size Hws) as [Hrd Hrl]; [lia..|]. split.
  - eexists. split; [exact Hrd|]. rewrite Hrl, Z2Nat.id by lia. split; [reflexivity|].
    apply (Hw w); auto using wrote_refl. rewrite Hrl. lia.
  - intros zs Hzs Hlz. cbn [sp_len sp_data sp_off] in *.
    destruct (write_place_ok w s (write_index s) zs Hws Hzs) as (w' & E & Hws' & Hwro & Hnew & Hold);
      [lia..|].
    exists w'. split; [exact E|]. rewrite Hlz in Hnew.
    destruct (Hw w' zs Hwro Hws') as (Hw1 & Hlv & Hst); auto; [apply Hold; lia|].
    split; [exact Hw1|]. destruct Hlv as [K N H]. constructor; auto. intros id Hid Hni.
    apply H; [exact Hid|]. now rewrite <- Hst.
Qed.

Lemma reserve_at_set_len b n p size : LB.reserve_at (LB.set_len b n) p size =
  '(r, b') ← LB.reserve_at b p size; Some (r, LB.set_len b' n).
Proof.
  unfold LB.reserve_at. cbn [LB.set_len slice_list_].
  destruct (SList.deref (slice_list_ b) p) as [s|]; cbn; [|reflexivity].
  now destruct (Slice.reserve s size).
Qed.

Lemma set_write_same l i : write_ l = Some i -> SList.set_write l (Some i) = l.
Proof. destruct l. unfold SList.set_write. cbn. now intros ->. Qed.

Lemma set_list_same b : LB.set_list b (slice_list_ b) = b.
Proof. now destruct b. Qed.

(** A slice that is too small. *)
Lemma reserve_small w b rest xs pre i s post size : writing w b rest xs ->
  nodes (slice_list_ b) = pre ++ (i, s) :: post -> cap s - write_index s < size ->
  exists b', LB.reserve_at b i size = Some (fail_with kNoMoreBuffer, b').
Proof.
  intros Hwr En Hsz. pose proof (writing_wf _ _ _ _ _ _ _ _ Hwr En) as Hws.
  destruct (slice_wf_index w s Hws) as (_ & _ & _ & _ & Hrem).
  unfold LB.reserve_at. rewrite (deref_ok _ _ _ _ _ (wr_list _ _ _ _ Hwr) En).
  cbn [mbind option_bind]. unfold Slice.reserve. rewrite Hrem.
  assert ((size <=? cap s - write_index s) = false) as -> by lia. eauto.
Qed.

(** A single slice for [size] bytes, from the pool or from the heap. *)
Lemma alloc_one w b rest size : chain_inv w (slices (slice_list_ b)) rest ->
  slist_ok (slice_list_ b) -> 0 < size < 4294967296 ->
  Z.of_nat (length (nodes (slice_list_ b))) + 1 < 18446744073709551616 ->
  exists w' b' j t,
    LB.reserve_alloc ops w b size = Some (w', b') /\ grown w w' b b' rest [(j, t)] /\ size <= cap t.
Proof.
  intros Hci Hl Hsz Hlen. unfold LB.reserve_alloc. rewrite u32_id by lia.
  destruct (alloc_law _ _ size (ci_own _ _ _ Hci) ltac:(lia))
    as [(t & m1 & -> & Hown1 & Hk1 & Hcap & Hfl)|(m1 & -> & Hown1 & Hk1)]; cbn [mbind option_bind].
  - unfold LB.push. destruct (push_back_ok _ (fresh_slice t) Hl ltac:(lia))
      as (l & -> & Hl' & Hnl & Hwl). cbn [mbind option_bind].
    eexists _, _, (node_next (slice_list_ b)), (fresh_slice t). split; [reflexivity|].
    split; [|exact Hcap].
    apply (grown_fresh w m1 b l rest [t]); auto.
  - set (n := if size <? _ then _ else _).
    assert (size <= n < 4294967296) as Hn by (unfold n; consts; case_if; lia).
    assert (grown w (set_shared w m1) b b rest []) as G0.
    { pose proof (grown_fresh w m1 b (slice_list_ b) rest [] [] Hci Hown1 Hk1 (Forall_nil_2 _) Hl
        eq_refl (symmetry (app_nil_r _)) eq_refl) as G.
      now rewrite set_list_same in G. }
    destruct (push_heap_ok (set_shared w m1) b rest n) as (w' & b' & ns & E & G & Hc & Hs & Hln);
      auto; [apply G0|lia|].
    destruct ns as [|[j t] [|]]; [discriminate Hln| |discriminate Hln].
    exists w', b', j, t. split; [exact E|]. split; [|cbn in Hc; lia].
    apply (grown_trans _ _ _ _ _ _ _ [] [(j, t)] G0 G); [split; [now rewrite Hs|set_solver]|cbn; lia].
Qed.

(** Reserving on the last slice, when it has the cursor. *)
Lemma reserve_last w b rest xs pre i s size : writing w b rest xs ->
  nodes (slice_list_ b) = pre ++ [(i, s)] -> write_ (slice_list_ b) = Some i ->
  0 <= size <= cap s - write_index s -> len_ b = Z.of_nat (length xs) ->
  Z.of_nat (length xs) + size < 18446744073709551616 ->
  exists sp b1, LB.reserve_at b i size = Some (Ok sp, b1) /\ sp_len sp = size /\
    len_ b1 = len_ b /\ window w (LB.set_len b1 (u64 (len_ b1 + size))) rest xs sp.
Proof.
  intros Hwr En Hw Hsz Hlen Hx.
  destruct (reserve_here w b rest xs pre i s size Hwr En Hsz Hlen Hx)
    as (sp & b1 & E & Hl & Hlen1 & Hw1 & Hwin).
  exists sp, b1. rewrite set_write_same, set_list_same in Hwin by congruence. auto.
Qed.

Lemma reserve_next_ok w b rest xs pre i s post size : writing w b rest xs ->
  at_cursor (slice_list_ b) pre i s post -> all_needed s post size ->
  write_index s <= cap s -> 0 <= size -> len_ b = Z.of_nat (length xs) ->
  Z.of_nat (length xs) + size < 18446744073709551616 ->
  LB.reserve_next b i size = Some (None, b) \/
  exists sp b', LB.reserve_next b i size = Some (Some sp, b') /\ sp_len sp = size /\
    window w (LB.set_len b' (u64 (len_ b' + size))) rest xs sp.
Proof.
  intros Hwr (En & Hw & Hf) Hneed Hwi Hsz Hlen Hx. unfold LB.reserve_next.
  rewrite (next_ok _ _ _ _ _ (wr_list _ _ _ _ Hwr) En).
  destruct post as [|[e t] post]; cbn [head fmap option_fmap option_map fst]; [now left|].
  replace (pre ++ (i, s) :: (e, t) :: post) with ((pre ++ [(i, s)]) ++ (e, t) :: post) in En
    by now rewrite <- app_assoc.
  rewrite fmap_cons in Hf. apply Forall_cons_1 in Hf as [(_ & Hti & _ & Htc) Hf]. cbn [snd] in *.
  destruct (Z.le_gt_cases size (cap t)) as [Hfit|Hsmall]; [right|left].
  - assert (post = []) as ->.
    { destruct (decide (post = [])) as [?|(a & z & E)%list_snoc_inv]; [assumption|].
      specialize (Hneed ((e, t) :: a) z). rewrite E in Hneed. specialize (Hneed eq_refl).
      rewrite fmap_cons, caps_cons in Hneed. cbn [snd] in Hneed.
      rewrite E, fmap_app in Hf. apply Forall_app in Hf as [Hf _].
      pose proof (caps_fresh_nonneg a Hf). lia. }
    destruct (reserve_here w b rest xs _ e t size Hwr En) as (sp & b1 & -> & Hl & Hlen1 & _ & Hwin);
      auto; [lia|].
    cbn [mbind option_bind]. eexists _, _. split; [reflexivity|]. auto.
  - destruct (reserve_small w b rest xs _ e t post size Hwr En ltac:(lia)) as (bx & ->). reflexivity.
Qed.

Lemma reserve_ok w b rest xs size : writable w b rest xs -> 0 < size < 4294967296 ->
  Z.of_nat (length xs) + size < 18446744073709551616 ->
  Z.of_nat (length (nodes (slice_list_ b))) < 4611686018427387904 ->
  exists sp w' b', LB.reserve ops w b size = Some (Ok sp, w', b') /\ sp_len sp = size /\
    window w' b' rest xs sp /\ leaves w w' (slices (slice_list_ b)) rest.
Proof.
  intros [Hwr Hcur Hl] Hsz Hx Hlen. unfold LB.reserve.
  destruct (ensure_write_ok w b rest xs size Hwr Hcur Hsz Hlen)
    as (w1 & b1 & pre & i & s & post & -> & Hwr1 & Hat & Hneed & Hroom & (Hlv1 & Hst1 & Hl1 & _) & Hn1).
  pose proof Hat as (En & Hw & Hf). cbn [mbind option_bind]. rewrite Hw. cbn [mbind option_bind].
  destruct (slice_wf_index _ _ (writing_wf _ _ _ _ _ _ _ _ Hwr1 En)) as (_ & Hwi & _).
  destruct (Z.le_gt_cases size (cap s - write_index s)) as [Hfit|Hsmall].
  { assert (post = []) as ->.
    { destruct (decide (post = [])) as [?|(a & z & E)%list_snoc_inv]; [assumption|].
      specialize (Hneed a z E). rewrite E, fmap_app in Hf. apply Forall_app in Hf as [Hf _].
      pose proof (caps_fresh_nonneg a Hf). lia. }
    destruct (reserve_last w1 b1 rest xs pre i s size) as (sp & b2 & -> & Hsp & Hl2 & Hwin);
      auto; try lia.
    cbn [mbind option_bind]. eexists _, _, _. split; [reflexivity|]. auto. }
  destruct (reserve_small w1 b1 rest xs pre i s post size Hwr1 En Hsmall) as (bx & ->).
  cbn [mbind option_bind].
  destruct (reserve_next_ok w1 b1 rest xs pre i s post size)
    as [->|(sp & b2 & -> & Hsp & Hwin)]; auto; try lia; cbn [mbind option_bind].
  2: { eexists _, _, _. split; [reflexivity|]. auto. }
  destruct (alloc_one w1 b1 rest size) as (w2 & b2 & j & t & -> & G & Hct);
    [apply Hwr1|apply Hwr1|lia|lia|].
  cbn [mbind option_bind].
  destruct (grown_writing _ _ _ _ _ _ _ Hwr1 G) as (Hwr2 & Hlv2 & Hst2).
  pose proof (gr_nodes _ _ _ _ _ _ G) as En2. pose proof (wr_list _ _ _ _ Hwr2) as Hl2.
  pose proof (gr_fresh _ _ _ _ _ _ G) as Hft. apply Forall_inv in Hft as (_ & Hti & _).
  unfold fail_with at 1. cbn iota. set (b3 := LB.set_list b2 _). set (n := u64 (len_ b3 + size)).
  assert (write_ (slice_list_ b3) = Some j) as Hw3.
  { cbn. rewrite (sl_back _ Hl2), En2, last_snoc. reflexivity. }
  change (write_ (slice_list_ (LB.set_len b3 n))) with (write_ (slice_list_ b3)). rewrite Hw3.
  cbn [mbind option_bind]. rewrite reserve_at_set_len.
  assert (len_ b3 = Z.of_nat (length xs)) as Hl3.
  { cbn. destruct (gr_other _ _ _ _ _ _ G) as (_ & _ & _ & ->). congruence. }
  destruct (reserve_last w2 b3 rest xs (nodes (slice_list_ b1)) j t size)
    as (sp & b4 & -> & Hsp & Hl4 & Hwin); auto; try (cbn [snd] in *; lia).
  { destruct Hwr2. constructor; auto. now apply set_write_ok. }
  cbn [mbind option_bind]. eexists _, _, _. split; [reflexivity|]. split; [exact Hsp|].
  split; [|eapply leaves_trans; eauto]. unfold n. rewrite <- Hl4. exact Hwin.
Qed.
(** ** [done] *)

(** Only header fields of the slots [ts], behind the capacities, have changed. *)
Definition headers_only (ts : list slot) (m m' : shm) : Prop :=
  same_but (fun b => exists t, t ∈ ts /\ t.1 + 4 <= b < t.1 + 20) m m'.

Definition link_of (n : option BufferSlice) : Z := from_option offset_in_shm 0 n.

Lemma lor_flag_range f : 0 <= f < 256 -> 0 <= Z.lor f 1 < 256.
Proof.
  intros Hf. split; [apply Z.lor_nonneg; lia|]. change 256 with (2 ^ 8).
  assert (0 < Z.lor f 1) as Hp.
  { assert (0 <= Z.lor f 1) by (apply Z.lor_nonneg; lia).
    assert (Z.lor f 1 <> 0); [|lia]. intros E. apply Z.lor_eq_0_iff in E. lia. }
  apply Z.log2_lt_pow2; [exact Hp|]. rewrite Z.log2_lor by lia. apply Z.max_lub_lt; [|reflexivity].
  destruct (Z.eq_dec f 0) as [->|]; [reflexivity|]. apply Z.log2_lt_pow2; lia.
Qed.

(** One [update]: the header then describes the slice. *)
Lemma update_ok m s t next : slice_of t s -> 0 <= t.1 -> 0 < t.2 -> t.1 + 20 + t.2 <= shm_len m ->
  0 <= read_index s <= write_index s -> write_index s <= cap s -> cap s < 4294967296 ->
  unread s -> 0 <= link_of next < 4294967296 ->
  exists m', Slice.update m s next = Some m' /\ headers_only [t] m m' /\
    read_slice m' t = s /\
    Z.testbit (slot_flag m' t) 1 = Z.testbit (slot_flag m t) 1 /\
    match next with
    | None => Z.testbit (slot_flag m' t) 0 = Z.testbit (slot_flag m t) 0
    | Some n => Z.testbit (slot_flag m' t) 0 = true /\ get32 m' (t.1 + 12) = offset_in_shm n
    end.
Proof.
  intros Hs H0 Hc Hend Hr Hw Hcap Hu Hn. assert (read_index s = start s) as Hu' by (destruct Hu; congruence).
  clear Hu. rename Hu' into Hu. pose proof Hs as [E1 E2 E3 E4 E5].
  unfold Slice.update. rewrite E1.
  assert (Slice.size s = write_index s - read_index s) as Hsz
    by (unfold Slice.size; apply u64_id; lia).
  rewrite Hsz, u32_id by lia. hdr_run.
  set (m1 := put32 (put32 m _ _) _ _).
  assert (headers_only [t] m m1) as Hm1.
  { unfold m1. do 2 (apply same_but_put32; [|intros b Hb; exists t; split; [constructor|lia]]).
    apply same_but_refl. }
  assert (shm_len m1 = shm_len m) as Hlen by (unfold m1; now autorewrite with shm).
  assert (slot_flag m1 t = slot_flag m t) as Hf1 by (unfold slot_flag, m1; now shm_simp).
  assert (forall m', get32 m' (t.1 + 8) = get32 m1 (t.1 + 8) ->
    get32 m' (t.1 + 4) = get32 m1 (t.1 + 4) -> read_slice m' t = s) as Hread.
  { intros m' H8 H4. unfold read_slice. rewrite H8, H4. unfold m1. shm_simp.
    rewrite (u32_id (write_index s - _)), u32_id by lia.
    destruct s. cbn in *. subst. f_equal. lia. }
  destruct next as [n|].
  2: { exists m1. split; [reflexivity|]. split; [exact Hm1|]. split; [now apply Hread|].
       now rewrite Hf1. }
  rewrite link_next_in by lia. eexists. split; [reflexivity|].
  assert (0 <= slot_flag m1 t < 256) as Hfr by apply get8_range.
  cbn in Hn.
  assert (slot_flag (put8 (put32 m1 (t.1 + 12) (offset_in_shm n)) (t.1 + 16)
    (Z.lor (get8 m1 (t.1 + 16)) 1)) t = Z.lor (slot_flag m1 t) 1) as ->.
  { unfold slot_flag in *. rewrite get8_put8_eq by reflexivity. apply u8_id.
    now apply lor_flag_range. }
  split; [|split; [|split; [|split]]].
  - apply same_but_put8; [apply same_but_put32; [exact Hm1|intros b Hb]|];
      exists t; (split; [constructor|lia]).
  - apply Hread; now shm_simp.
  - rewrite Z.lor_spec, Hf1. cbn. apply orb_false_r.
  - rewrite Z.lor_spec. apply orb_true_r.
  - shm_simp. reflexivity.
Qed.

Lemma headers_only_trans ts ts' m1 m2 m3 : headers_only ts m1 m2 -> headers_only ts' m2 m3 ->
  headers_only (ts ++ ts') m1 m3.
Proof.
  intros H1 H2. eapply same_but_trans; [eapply same_but_weaken; [exact H1|]|
    eapply same_but_weaken; [exact H2|]]; intros b (t & Ht & Hb); exists t; set_solver.
Qed.

(** The slots of a message are untouched by changes to other slots' headers. *)
Lemma headers_keeps m m' ts ts' : own m (ts ++ ts') -> headers_only ts m m' -> keeps ts' m m'.
Proof.
  intros Hown [Hl Hh]. split; [exact Hl|]. intros s b Hs Hb. apply Hh. intros (t & Ht & Hb').
  apply list_elem_of_split in Ht as (a & c & ->).
  assert (own m (t :: a ++ c ++ ts')) as Hown'.
  { eapply own_perm; [|exact Hown]. rewrite <- app_assoc. cbn. symmetry. apply Permutation_middle. }
  destruct (own_slot _ _ t Hown') as (_ & ? & _); [constructor|]. unfold in_slot in Hb.
  destruct (own_disjoint _ _ _ s Hown') as [?|?]; [set_solver|lia..].
Qed.

Lemma headers_own m m' ts rest : own m (ts ++ rest) -> headers_only ts m m' -> own m' (ts ++ rest).
Proof.
  intros Hown Hh. eapply own_write; [exact Hown|]. eapply same_but_weaken; [exact Hh|].
  intros b (t & Ht & Hb). exists t. split; [set_solver|]. unfold in_user.
  destruct (own_slot _ _ t Hown) as (_ & ? & _); [set_solver|]. lia.
Qed.

(** A slice of the pool, with its slot. *)
Definition pool_slice (s : BufferSlice) (t : slot) : Prop :=
  slice_of t s /\ 0 <= read_index s <= write_index s /\ write_index s <= cap s /\
  cap s < 4294967296 /\ unread s.

Lemma pool_slices w ss : Forall (slice_wf w) ss -> Forall unread ss ->
  forallb is_from_shm ss = true -> Forall2 pool_slice ss (slots_in ss).
Proof.
  induction ss as [|s ss IH]; intros Hw Hu Hs; [constructor|].
  apply Forall_cons_1 in Hw as [Hws Hw]. apply Forall_cons_1 in Hu as [Hus Hu].
  cbn in Hs. apply andb_true_iff in Hs as [Hss Hs].
  destruct Hws as [t Ht ? ? ? ? ?|id l Hf]; [|congruence].
  unfold slots_in. cbn. destruct (slot_of_slice t s Ht) as [-> _].
  constructor; [|now apply IH]. unfold pool_slice. auto.
Qed.

Lemma message_read m m' t : keeps [t] m m' -> 0 < t.2 -> read_slice m' t = read_slice m t.
Proof.
  intros [_ Hk] Hp. assert (forall k, k = 4 \/ k = 8 -> get32 m' (t.1 + k) = get32 m (t.1 + k)) as E.
  { intros k Hk'. symmetry. apply (get_le_ext 4). intros b Hb. cbn in Hb.
    apply (Hk t); [constructor|]. unfold in_slot. lia. }
  unfold read_slice. now rewrite !E by auto.
Qed.

Lemma msg_chain_cons m m' t u ts : keeps [t] m m' -> 0 < t.2 ->
  Z.testbit (slot_flag m t) 1 = true -> Z.testbit (slot_flag m t) 0 = true ->
  get32 m (t.1 + 12) = u.1 -> msg_chain m' (u :: ts) -> msg_chain m' (t :: u :: ts).
Proof.
  intros Hk Hp F1 F0 Hn Hch. cbn [msg_chain] in *. rewrite (keeps_flag [t] m m' t Hk) by set_solver.
  split; [exact F1|]. split; [split; [exact F0|]|exact Hch]. rewrite <- Hn. symmetry.
  apply (get_le_ext 4). intros b Hb. cbn in Hb. apply (proj2 Hk t); [constructor|]. unfold in_slot. lia.
Qed.

(** [update] of every slice up to the cursor, the last one: the headers are
    then a message whose slices are those of the buffer. *)
Lemma update_nodes_ok ns p s0 : NoDup (fst <$> (ns ++ [(p, s0)])) -> forall m ts rest,
  Forall2 pool_slice (snd <$> (ns ++ [(p, s0)])) ts -> own m (ts ++ rest) ->
  in_use m ts -> Forall (fun t => Z.testbit (slot_flag m t) 0 = false) ts ->
  exists m', LB.update_nodes m (Some p) (ns ++ [(p, s0)]) = Some m' /\ headers_only ts m m' /\
    msg_chain m' ts /\ read_slice m' <$> ts = snd <$> (ns ++ [(p, s0)]).
Proof.
  induction ns as [|[i s] ns IH]; intros Hnd m ts rest Hps Hown Huse Hclr.
  - cbn in Hps. apply Forall2_cons_inv_l in Hps as (t & ts' & Hs & Hnil & ->).
    apply Forall2_nil_inv_l in Hnil as ->. destruct Hs as (Hsl & Hr & Hw & Hc & Hu).
    destruct (own_slot _ _ t Hown) as (? & ? & ? & ? & _); [set_solver|].
    destruct (update_ok m s0 t None Hsl) as (m' & E & Hh & Hrd & F1 & F0); auto; [cbn; lia|].
    cbn [app LB.update_nodes head fmap option_fmap option_map]. rewrite E. cbn [mbind option_bind].
    rewrite bool_decide_eq_true_2 by reflexivity. exists m'. split; [reflexivity|].
    split; [exact Hh|]. apply Forall_cons_1 in Huse as [Hut _]. apply Forall_cons_1 in Hclr as [Hcl _].
    split; [cbn [msg_chain]; rewrite F1, F0; auto|]. cbn. now rewrite Hrd.
  - cbn [app] in *. rewrite fmap_cons in Hps. cbn [snd] in Hps.
    change (NoDup (i :: (fst <$> (ns ++ [(p, s0)])))) in Hnd.
    apply Forall2_cons_inv_l in Hps as (t & ts' & (Hsl & Hr & Hw & Hc & Hu) & Hps & ->).
    destruct (own_slot _ _ t Hown) as (? & Htp & ? & ? & _); [set_solver|].
    apply NoDup_cons in Hnd as [Hni Hnd].
    destruct (ns ++ [(p, s0)]) as [|n l] eqn:El; [now destruct ns|]. rewrite <- El in *.
    assert (exists t' ts'', ts' = t' :: ts'' /\ slice_of t' n.2) as (t' & ts'' & -> & Hsn).
    { rewrite El in Hps. apply Forall2_cons_inv_l in Hps as (t' & ts'' & [? _] & _ & ->). eauto. }
    destruct (own_slot _ _ t' Hown) as (? & ? & ? & ? & _); [set_solver|].
    destruct (update_ok m s t (Some n.2) Hsl) as (m1 & E & Hh & Hrd & F1 & F0 & Hnx); auto.
    { cbn. rewrite (so_offset _ _ Hsn). lia. }
    pose proof (headers_own m m1 [t] _ Hown Hh) as Hown1.
    assert (own m1 ((t' :: ts'') ++ t :: rest)) as Hown2
      by (eapply own_perm; [|exact Hown1]; apply (Permutation_middle (t' :: ts''))).
    assert (keeps (t' :: ts'') m m1) as Hk1.
    { eapply keeps_incl; [apply (headers_keeps m m1 [t] ((t' :: ts'') ++ rest) Hown Hh)|set_solver]. }
    assert (forall u, u ∈ t' :: ts'' -> 0 < u.2) as Hpos
      by (intros u Hu'; apply (own_slot _ _ u Hown); set_solver).
    apply Forall_cons_1 in Huse as [Hut Huse]. apply Forall_cons_1 in Hclr as [_ Hclr].
    destruct (IH Hnd m1 (t' :: ts'') (t :: rest) Hps Hown2) as (m' & E' & Hh' & Hch & Hrd').
    { now apply (in_use_keeps m). }
    { rewrite Forall_forall in *. intros u Hu'. rewrite (keeps_flag _ m m1 u Hk1) by auto. auto. }
    assert (keeps [t] m1 m') as Hk2.
    { eapply keeps_incl; [apply (headers_keeps m1 m' (t' :: ts'') (t :: rest) Hown2 Hh')|set_solver]. }
    cbn [LB.update_nodes]. rewrite El. cbn [head fmap option_fmap option_map].
    rewrite E. cbn [mbind option_bind]. rewrite bool_decide_eq_false_2.
    2: { intros [= <-]. apply Hni. rewrite fmap_app. set_solver. }
    rewrite <- El, E'. exists m'. split; [reflexivity|].
    split; [apply (headers_only_trans [t] (t' :: ts'') m m1 m' Hh Hh')|].
    split; [apply (msg_chain_cons m1 m' t t' ts'' Hk2 Htp); auto; [congruence|now rewrite <- (so_offset _ _ Hsn)]|].
    rewrite !fmap_cons. cbn [snd]. f_equal; [|exact Hrd']. now rewrite (message_read m1 m' t Hk2 Htp).
Qed.
(** Header fields are not data. *)
Lemma headers_data w m' ss ts rest : Forall2 pool_slice ss ts -> own (shared w) (ts ++ rest) ->
  headers_only ts (shared w) m' -> Forall (slice_wf w) ss ->
  list_bytes (set_shared w m') ss = list_bytes w ss.
Proof.
  intros Hps Hown Hh Hwf. unfold list_bytes. f_equal. apply list_fmap_ext. intros i s Hi.
  destruct (Forall2_lookup_l _ _ _ _ _ Hps Hi) as (t & Ht & Hsl & Hr & Hw & Hc & _).
  rewrite Forall_lookup in Hwf. specialize (Hwf i s Hi).
  assert (slice_wf (set_shared w m') s) as Hwf'.
  { destruct Hwf as [u Hu ? Hl ? ? ?|id l Hf]; [|pose proof (so_shm _ _ Hsl); congruence].
    apply (wf_shm _ _ u); auto. cbn. rewrite <- (proj1 Hh). exact Hl. }
  destruct (slice_bytes_wf _ _ Hwf) as [-> _]. destruct (slice_bytes_wf _ _ Hwf') as [-> _].
  destruct (slice_wf_index _ _ Hwf) as (_ & _ & _ & -> & _).
  pose proof (so_data _ _ Hsl) as Hd. pose proof (so_cap _ _ Hsl) as Hcap. rewrite Hd. cbn.
  symmetry. apply get_bytes_ext. intros b Hb. apply (proj2 Hh). intros (u & Hu & Hbu).
  destruct (own_slot _ _ u Hown) as (_ & ? & _); [set_solver|].
  apply list_elem_of_lookup_2 in Ht. apply list_elem_of_split in Ht as (a & c & ->).
  assert (own (shared w) (t :: a ++ c ++ rest)) as Hown'.
  { eapply own_perm; [|exact Hown]. rewrite <- app_assoc. cbn. symmetry. apply Permutation_middle. }
  assert (u = t \/ u ∈ a ++ c ++ rest) as [->|Hin] by set_solver; [lia|].
  destruct (own_disjoint _ _ _ u Hown' Hin); lia.
Qed.

Lemma done_ok w b rest xs : writable w b rest xs -> is_from_shm_ b = true -> xs <> [] ->
  let ts := slots_in (slices (slice_list_ b)) in
  exists t ts' m', ts = t :: ts' /\ LB.done ops w b = Some (set_shared w m', b) /\
    own m' (ts ++ rest) /\ keeps rest (shared w) m' /\ msg_chain m' ts /\
    read_slice m' <$> ts = slices (slice_list_ b) /\
    list_bytes (set_shared w m') (slices (slice_list_ b)) = xs /\
    LB.root_buf_offset b = Some t.1.
Proof.
  intros [Hwr Hcur _] Hshm Hne ts. pose proof Hwr as [Hci Hl Hu Hb Hs Hclr].
  unfold cursor_ok in Hcur. unfold LB.done. rewrite Hshm. cbn [negb].
  destruct (write_ (slice_list_ b)) as [p|] eqn:Ew.
  2: { unfold slices in Hb. rewrite Hcur in Hb. now subst xs. }
  destruct Hcur as (pre & s & En).
  assert (Forall2 pool_slice (snd <$> (pre ++ [(p, s)])) ts) as Hps.
  { rewrite <- En. apply (pool_slices w); [apply Hci|exact Hu|rewrite <- Hshm, Hs; reflexivity]. }
  destruct (update_nodes_ok pre p s) with (m := shared w) (ts := ts) (rest := rest)
    as (m' & E & Hh & Hch & Hrd); auto.
  { rewrite <- En. apply Hl. }
  { apply Hci. }
  { apply Hci. }
  assert (exists t ts', ts = t :: ts') as (t & ts' & Et).
  { destruct ts; [|eauto]. apply Forall2_length in Hps. rewrite fmap_app, length_app in Hps.
    cbn in Hps. lia. }
  exists t, ts', m'. split; [exact Et|]. rewrite En, E. cbn [mbind option_bind].
  rewrite (deref_ok _ _ _ _ _ Hl En), (next_ok _ _ _ _ _ Hl En).
  cbn [mbind option_bind head fmap option_fmap option_map].
  split; [reflexivity|]. split; [apply (headers_own (shared w)); [apply Hci|exact Hh]|].
  split; [apply (headers_keeps (shared w) m' ts); [apply Hci|exact Hh]|]. split; [exact Hch|].
  assert (slices (slice_list_ b) = snd <$> (pre ++ [(p, s)])) as Es by (unfold slices; now rewrite En).
  split; [now rewrite Es|]. split.
  - rewrite <- Hb. apply (headers_data w m' _ ts rest); [now rewrite Es|apply Hci|exact Hh|apply Hci].
  - unfold LB.root_buf_offset, LB.front. rewrite (sl_front _ Hl). rewrite Et in Hps. rewrite En.
    destruct pre as [|[j u] pre]; cbn [app head fmap option_fmap option_map fst] in *.
    + rewrite (deref_ok _ [] _ _ _ Hl En). apply Forall2_cons_1 in Hps as [[Hsl _] _].
      cbn in *. now rewrite (so_offset _ _ Hsl).
    + rewrite (deref_ok _ [] _ _ _ Hl En). apply Forall2_cons_1 in Hps as [[Hsl _] _].
      cbn in *. now rewrite (so_offset _ _ Hsl).
Qed.

End buffers.
