(* ===== verification/LinkedRead.v ===== *)
(** Reading from a [LinkedBuffer] ([src/buffer/linked.cpp]: [read_bytes],
    [peek], [discard], [release_previous_read], [append_buffer_slice],
    [recycle], [clean]): what is returned, what is left to read, how long the
    views that were returned stay valid, and that every slice goes back to the
    pool.  The theorems are about any pool with the laws of [Pool]. *)
From S2P Require Import Prelude Errors Consts Shm Slices Pool Linked.

Section buffers.
Context {ops : PoolOps} `{!Pool ops}.

(** * Slices given back *)

Lemma heap_ids w ss : Forall (slice_wf w) ss -> forall id, id ∈ storages_in ss ->
  is_Some (heap w !! id).
Proof.
  intros Hwf id Hid. apply list_elem_of_omap in Hid as (x & Hx & E). rewrite Forall_forall in Hwf.
  destruct (Hwf x Hx) as [t Ht|id' l Hf _ Hd Hl].
  - destruct (slot_of_slice t x Ht) as [_ E']. congruence.
  - destruct (storage_of_heap x id' Hf Hd) as [_ E']. rewrite E in E'. simplify_eq. eauto.
Qed.

(** One slice of a chain given back: a slice of the pool is recycled, a slice
    of the heap freed. *)
Lemma give_back w pre s post rest : chain_inv w (pre ++ s :: post) rest ->
  exists w', recycle_buffer ops w s = Some w' /\
    (is_from_shm s = false -> w' = Slice.destroy w s) /\
    chain_inv w' (pre ++ post) rest /\ agree w w' (pre ++ post) /\
    leaves w w' (pre ++ s :: post) rest.
Proof.
  intros Hci. pose proof Hci as [Hown Hwf Hids Hheap Huse].
  pose proof Hwf as Hwf2. apply Forall_app in Hwf2 as [Hwa [Hws Hwp]%Forall_cons_1].
  assert (Forall (slice_wf w) (pre ++ post)) as Hwf' by now apply Forall_app.
  pose proof (slots_middle pre s post rest) as Hm. pose proof (storages_middle pre s post) as Hsm.
  destruct Hws as [t Ht ? ? ? ? ?|id l Hf Hhd Hd Hlk ? ? ? ?].
  - destruct (slot_of_slice t s Ht) as [Et Es]. rewrite Et in Hm. rewrite Es in Hsm. cbn in Hm, Hsm.
    assert (Z.testbit (slot_flag (shared w) t) 1 = true) as Hbit.
    { unfold in_use in Huse. rewrite Forall_forall in Huse. apply Huse. rewrite slots_in_app.
      unfold slots_in at 2. cbn. rewrite Et. set_solver. }
    destruct (recycle_law w (slots_in (pre ++ post) ++ rest) t s) as (m' & E & Hown' & Hk); auto.
    { eapply own_perm; [exact Hm|exact Hown]. }
    exists (set_shared w m'). split; [exact E|].
    assert (agree w (set_shared w m') (pre ++ post)) as Hag.
    { split; [|reflexivity]. eapply keeps_incl; [exact Hk|set_solver]. }
    split; [pose proof (so_shm _ _ Ht); congruence|]. split; [|split; [exact Hag|]].
    + constructor; auto; [now apply (agree_list w)|now rewrite <- Hsm|].
      apply (in_use_keeps (shared w)); [apply Hag| |].
      * intros u Hu. apply (own_slot _ _ u Hown). rewrite Hm. set_solver.
      * unfold in_use in *. rewrite Forall_forall in *. intros u Hu. apply Huse.
        rewrite slots_in_app in *. unfold slots_in at 2. cbn. rewrite Et. set_solver.
    + constructor; cbn; auto. eapply keeps_incl; [exact Hk|set_solver].
  - destruct (storage_of_heap s id Hf Hd) as [Et Es]. rewrite Et in Hm. rewrite Es in Hsm.
    cbn in Hm, Hsm. rewrite Hsm in Hids. apply NoDup_cons in Hids as [Hni Hids].
    exists (Slice.destroy w s). rewrite recycle_heap_law by assumption. split; [reflexivity|].
    split; [reflexivity|]. unfold Slice.destroy. rewrite Hf, Hd. set (w' := Memory _ _ _).
    assert (agree w w' (pre ++ post)) as Hag.
    { split; [apply keeps_refl|]. intros i Hi. cbn. rewrite lookup_delete_ne; [reflexivity|].
      intros ->. contradiction. }
    split; [|split; [exact Hag|]].
    + constructor; auto; [|now apply (agree_list w)| |].
      * eapply own_perm; [exact Hm|exact Hown].
      * intros i [l' Hi]. cbn in Hi. apply lookup_delete_Some in Hi as [_ Hi]. apply Hheap. eauto.
      * unfold in_use in *. rewrite Forall_forall in *. intros u Hu. apply Huse.
        rewrite slots_in_app in *. unfold slots_in at 2. cbn. rewrite Et. set_solver.
    + constructor; cbn; auto using keeps_refl. intros i _ Hi. rewrite lookup_delete_ne; [reflexivity|].
      intros ->. apply Hi. rewrite Hsm. constructor.
Qed.
(** * The reader *)

(** The slices a buffer holds: those to read and those whose views are out. *)
Definition held (b : LinkedBuffer) : list BufferSlice :=
  slices (slice_list_ b) ++ slices (pinned_list_ b).

(** A buffer with [xs] to read, apart from its count of them. *)
Record reading (w : memory) (b : LinkedBuffer) (rest : list slot) (xs : list Z) : Prop := {
  rd_inv : chain_inv w (held b) rest;
  rd_list : slist_ok (slice_list_ b);
  rd_pinned : slist_ok (pinned_list_ b);
  rd_pshm : Forall (fun s => is_from_shm s = true) (slices (pinned_list_ b));
  rd_bytes : list_bytes w (slices (slice_list_ b)) = xs;
}.

(** A view of a slice of the pool that was returned and not yet released: its
    slice is pinned, or is the front slice and marked to be. *)
Definition viewed (b : LinkedBuffer) (sp : span) : Prop :=
  exists s, is_from_shm s = true /\
    (s ∈ slices (pinned_list_ b) \/
     current_pinned_ b = true /\ head (slices (slice_list_ b)) = Some s) /\
    sp_data sp = data s /\ 0 <= sp_off sp /\ 0 <= sp_len sp /\ sp_off sp + sp_len sp <= cap s.

(** What a reading operation does besides reading: no view is lost, nothing of
    others is touched, no storage is acquired. *)
Record reads (w w' : memory) (b b' : LinkedBuffer) (rest : list slot) : Prop := {
  rs_views : forall sp, viewed b sp -> viewed b' sp /\ span_bytes w' sp = span_bytes w sp;
  rs_leaves : leaves w w' (held b) rest;
  rs_ids : storages_in (held b') ⊆ storages_in (held b);
  rs_count : (length (slices (slice_list_ b')) <= length (slices (slice_list_ b)))%nat;
}.

(** What giving slices back does: nothing of others is touched, no storage is
    acquired, no slice is added. *)
Record shrinks (w w' : memory) (b b' : LinkedBuffer) (rest : list slot) : Prop := {
  sk_leaves : leaves w w' (held b) rest;
  sk_ids : storages_in (held b') ⊆ storages_in (held b);
  sk_count : (length (slices (slice_list_ b')) <= length (slices (slice_list_ b)))%nat;
}.
Lemma reads_shrinks w w' b b' rest : reads w w' b b' rest -> shrinks w w' b b' rest.
Proof. intros [_ H1 H2 H3]. now constructor. Qed.

Lemma reads_refl w b rest : reads w w b b rest.
Proof. constructor; auto using leaves_refl. Qed.

Lemma reads_trans w1 w2 w3 b1 b2 b3 rest : reads w1 w2 b1 b2 rest -> reads w2 w3 b2 b3 rest ->
  reads w1 w3 b1 b3 rest.
Proof.
  intros [V1 L1 I1 C1] [V2 L2 I2 C2]. constructor; [| | |lia].
  - intros sp Hv. destruct (V1 sp Hv) as [Hv1 E1]. destruct (V2 sp Hv1) as [Hv2 E2].
    split; [exact Hv2|congruence].
  - eapply leaves_trans; [exact L1|exact L2|]. intros id Hid. left. now apply I1.
  - set_solver.
Qed.

Lemma chain_inv_perm w ss ss' rest : ss ≡ₚ ss' -> chain_inv w ss rest -> chain_inv w ss' rest.
Proof.
  intros Hp [Hown Hwf Hids Hheap Huse]. assert (slots_in ss ≡ₚ slots_in ss') as Hs.
  { unfold slots_in. now rewrite Hp. }
  assert (storages_in ss ≡ₚ storages_in ss') as Ht by (unfold storages_in; now rewrite Hp).
  constructor; auto.
  - eapply own_perm; [|exact Hown]. now rewrite Hs.
  - now rewrite <- Hp.
  - now rewrite <- Ht.
  - unfold in_use in *. now rewrite <- Hs.
Qed.

Lemma front_ok b : slist_ok (slice_list_ b) ->
  LB.front b = Some (head (slices (slice_list_ b))).
Proof.
  intros Hl. unfold LB.front, slices. rewrite (sl_front _ Hl).
  destruct (nodes (slice_list_ b)) as [|[i s] ns] eqn:En; cbn; [reflexivity|].
  now rewrite (deref_ok _ [] _ _ _ Hl En).
Qed.

Lemma view_wf w b rest xs sp : reading w b rest xs -> viewed b sp ->
  exists s, s ∈ held b /\ slice_wf w s /\ sp_data sp = data s /\ 0 <= sp_off sp /\
    0 <= sp_len sp /\ sp_off sp + sp_len sp <= cap s.
Proof.
  intros Hr (s & _ & Hs & Hd & H1 & H2 & H3). exists s.
  assert (s ∈ held b) as Hin.
  { unfold held. destruct Hs as [Hs|[_ Hs]]; [set_solver|].
    destruct (slices (slice_list_ b)); [discriminate|]. injection Hs as ->. set_solver. }
  pose proof (ci_wf _ _ _ (rd_inv _ _ _ _ Hr)) as Hwf. rewrite Forall_forall in Hwf. auto 10.
Qed.

(** A view's bytes are the same where its slices are. *)
Lemma view_agree w w' sp ss s : agree w w' ss ->
  s ∈ ss -> slice_wf w s -> sp_data sp = data s -> 0 <= sp_off sp -> 0 <= sp_len sp ->
  sp_off sp + sp_len sp <= cap s -> span_bytes w' sp = span_bytes w sp.
Proof.
  intros Hag Hs Hwf Hd H1 H2 H3.
  destruct (agree_slice w w' s (agree_in _ _ _ _ Hag Hs) Hwf) as [Hwf' E].
  unfold span_bytes. rewrite Hd.
  destruct (read_wf w s (sp_off sp) (sp_len sp) Hwf) as [-> _]; auto.
  destruct (read_wf w' s (sp_off sp) (sp_len sp) Hwf') as [-> _]; auto. now rewrite E.
Qed.

Lemma pinned_bound w b rest xs : reading w b rest xs ->
  Z.of_nat (length (nodes (pinned_list_ b))) < 4294967296.
Proof.
  intros [Hci _ _ Hps _]. pose proof (own_count _ _ (ci_own _ _ _ Hci)) as Hc.
  unfold held in *. rewrite slots_in_app, !length_app in Hc.
  enough (length (slots_in (slices (pinned_list_ b))) = length (nodes (pinned_list_ b))) by lia.
  pose proof (ci_wf _ _ _ Hci) as Hwf. apply Forall_app in Hwf as [_ Hwf].
  unfold slices in *. clear -Hwf Hps. induction (nodes (pinned_list_ b)) as [|[i s] ns IH]; [reflexivity|].
  rewrite fmap_cons in *. apply Forall_cons_1 in Hwf as [Hs Hwf].
  apply Forall_cons_1 in Hps as [Hp Hps]. cbn [snd] in *. unfold slots_in in *. cbn.
  destruct Hs as [t Ht|id l Hf]; [|congruence]. destruct (slot_of_slice t s Ht) as [-> _].
  cbn. f_equal. now apply IH.
Qed.

Lemma drop_front w w' b rest xs s l' : reading w b rest xs ->
  slices (slice_list_ b) = s :: slices l' -> slist_ok l' -> slice_bytes w s = [] ->
  chain_inv w' (slices l' ++ slices (pinned_list_ b)) rest ->
  agree w w' (slices l' ++ slices (pinned_list_ b)) -> leaves w w' (held b) rest ->
  (current_pinned_ b = true -> is_from_shm s = false) ->
  let b' := LB.set_current_pinned (LB.set_list b l') false in
  reading w' b' rest xs /\ reads w w' b b' rest.
Proof.
  intros [Hci Hl Hp Hps Hb] Es Hl' Hsb Hci' Hag Hlv Hcp b'.
  pose proof (ci_wf _ _ _ Hci) as Hwf. unfold held in Hwf. rewrite Es in Hwf. cbn in Hwf.
  apply Forall_cons_1 in Hwf as [_ Hwf]. rewrite Es, list_bytes_cons, Hsb in Hb. cbn [app] in Hb.
  split; constructor; auto.
  - rewrite <- Hb. apply Forall_app in Hwf as [Hwf1 _]. apply agree_list; [|exact Hwf1].
    destruct Hag as [Hk Hh]. split; [|intros id Hid; apply Hh; rewrite storages_in_app; set_solver].
    eapply keeps_incl; [exact Hk|]. rewrite slots_in_app. set_solver.
  - intros sp (u & Hu & Hin & Hd & H1 & H2 & H3).
    assert (u ∈ slices (pinned_list_ b)) as Hpin.
    { destruct Hin as [Hin|[Hc Hin]]; [exact Hin|]. rewrite Es in Hin. injection Hin as ->.
      specialize (Hcp Hc). congruence. }
    split; [exists u; auto 10|]. apply (view_agree w w' sp _ u Hag); auto; [set_solver|].
    rewrite Forall_forall in Hwf. apply Hwf. set_solver.
  - unfold held. rewrite Es. cbn. unfold storages_in. cbn. destruct (storage_of s); set_solver.
  - rewrite Es. cbn [length]. change (slices (slice_list_ b')) with (slices l'). lia.
Qed.

(** The front slice, used up, leaves the list. *)
Lemma read_next_slice_ok w b rest xs i s ns : reading w b rest xs ->
  nodes (slice_list_ b) = (i, s) :: ns -> slice_bytes w s = [] ->
  exists w' b', LB.read_next_slice ops w b = Some (w', b') /\ reading w' b' rest xs /\
    nodes (slice_list_ b') = ns /\ reads w w' b b' rest /\
    write_ (slice_list_ b') = write_ (slice_list_ b) /\
    is_from_shm_ b' = is_from_shm_ b /\ len_ b' = len_ b.
Proof.
  intros Hr En Hsb. pose proof Hr as [Hci Hl Hp Hps Hb]. unfold LB.read_next_slice.
  destruct (pop_front_ok _ i s ns Hl En) as (l' & -> & Hl' & Hn' & Hw' & _).
  cbn [mbind option_bind].
  assert (slices (slice_list_ b) = s :: slices l') as Es by (unfold slices; now rewrite En, Hn').
  assert (held b = s :: slices l' ++ slices (pinned_list_ b)) as Eh by (unfold held; now rewrite Es).
  rewrite Es, list_bytes_cons, Hsb in Hb. rewrite Eh in Hci. cbn [app] in Hb.
  destruct (give_back w [] s (slices l' ++ slices (pinned_list_ b)) rest Hci)
    as (w' & Ew' & Hd & Hci' & Hag & Hlv). cbn [app] in *. rewrite <- Eh in Hlv.
  destruct (is_from_shm s) eqn:Hshm; [destruct (current_pinned_ b) eqn:Hcp|].
  - (* pinned *)
    cbn [current_pinned_ LB.set_list]. rewrite Hcp. cbn [pinned_list_ LB.set_list].
    destruct (push_back_ok (pinned_list_ b) s Hp) as (p & -> & Hp' & Hnp & _).
    { pose proof (pinned_bound _ _ _ _ Hr). lia. }
    cbn [mbind option_bind]. eexists w, _. split; [reflexivity|].
    assert (slices p = slices (pinned_list_ b) ++ [s]) as Ep
      by (unfold slices; now rewrite Hnp, fmap_app).
    set (b' := LB.set_current_pinned _ _).
    assert (held b' ≡ₚ held b) as Hh.
    { unfold held at 1. cbn. rewrite Ep, Eh, app_assoc. symmetry. apply Permutation_cons_append. }
    split; [|split; [exact Hn'|split; [|auto]]].
    + constructor; auto.
      * eapply chain_inv_perm; [symmetry; exact Hh|now rewrite Eh].
      * cbn. rewrite Ep. apply Forall_app. auto.
    + constructor; auto using leaves_refl.
      * intros sp (u & Hu & Hin & Hrest). split; [|reflexivity]. exists u. split; [exact Hu|].
        split; [|exact Hrest]. left. cbn. rewrite Ep. destruct Hin as [Hin|[_ Hin]]; [set_solver|].
        rewrite Es in Hin. injection Hin as ->. set_solver.
      * unfold storages_in. rewrite Hh. reflexivity.
      * rewrite Es. cbn [length]. change (slices (slice_list_ b')) with (slices l'). lia.
  - (* recycled *)
    cbn [current_pinned_ LB.set_list]. rewrite Hcp, Ew'. cbn [mbind option_bind].
    destruct (drop_front w w' b rest xs s l' Hr) as [H1 H2]; auto; [congruence|].
    eexists w', _. split; [reflexivity|]. auto 8.
  - (* freed *)
    rewrite <- (Hd eq_refl). cbn [mbind option_bind].
    destruct (drop_front w w' b rest xs s l' Hr) as [H1 H2]; auto.
    eexists w', _. split; [reflexivity|]. auto 8.
Qed.
(** The front slice, with its indices moved. *)
Lemma set_front_ok w b rest xs i s ns r : reading w b rest xs ->
  nodes (slice_list_ b) = (i, s) :: ns -> read_index s <= r <= write_index s ->
  let s' := set_indices s r (write_index s) in
  reading w (LB.set_front b s') rest (slice_bytes w s' ++ list_bytes w (snd <$> ns)) /\
  nodes (slice_list_ (LB.set_front b s')) = (i, s') :: ns /\
  reads w w b (LB.set_front b s') rest /\
  write_ (slice_list_ (LB.set_front b s')) = write_ (slice_list_ b).
Proof.
  intros [Hci Hl Hp Hps Hb] En Hrw s'. unfold LB.set_front. rewrite (sl_front _ Hl), En. cbn.
  destruct (assign_ok (slice_list_ b) [] i s s' ns Hl En) as (Hl' & En' & Hw'). cbn [app] in En'.
  assert (slices (slice_list_ b) = s :: (snd <$> ns)) as Es by (unfold slices; now rewrite En).
  assert (slices (SList.assign (slice_list_ b) i s') = s' :: (snd <$> ns)) as Es'
    by (unfold slices; now rewrite En').
  unfold held in Hci. rewrite Es in Hci. cbn [app] in Hci.
  pose proof (ci_wf _ _ _ Hci) as Hwf. apply Forall_cons_1 in Hwf as [Hws _].
  destruct (slice_wf_index w s Hws) as (H1 & H2 & _).
  split; [|split; [exact En'|split; [|exact Hw']]].
  - constructor; cbn [pinned_list_ slice_list_ LB.set_list]; auto.
    + unfold held. cbn [pinned_list_ slice_list_ LB.set_list]. rewrite Es'. cbn [app].
      apply (chain_set_indices w [] s _ rest r (write_index s)); [exact Hci|lia|lia].
    + now rewrite Es'.
  - constructor; auto using leaves_refl.
    + intros sp (u & Hu & Hin & Hrest). split; [|reflexivity].
      destruct Hin as [Hin|[Hc Hin]]; [exists u; auto|]. rewrite Es in Hin. injection Hin as <-.
      exists s'. split; [exact Hu|]. split; [|exact Hrest]. right. cbn [current_pinned_ slice_list_ LB.set_list]. rewrite Es'. auto.
    + unfold held. cbn [pinned_list_ slice_list_ LB.set_list]. rewrite Es, Es'. reflexivity.
    + cbn [slice_list_ LB.set_list]. rewrite Es, Es'. reflexivity.
Qed.

(** Reading [n] bytes of the front slice. *)
Lemma take_front w b rest xs i s ns n : reading w b rest xs ->
  nodes (slice_list_ b) = (i, s) :: ns -> 0 <= n <= Slice.size s ->
  let s' := set_indices s (read_index s + n) (write_index s) in
  u64 (read_index s + n) = read_index s + n /\
  span_bytes w (mkSpan (data s) (read_index s) n) = Some (take (Z.to_nat n) xs) /\
  (Z.to_nat n <= length xs)%nat /\
  reading w (LB.set_front b s') rest (drop (Z.to_nat n) xs) /\
  nodes (slice_list_ (LB.set_front b s')) = (i, s') :: ns /\
  Slice.size s' = Slice.size s - n /\ slice_wf w s' /\
  reads w w b (LB.set_front b s') rest /\
  write_ (slice_list_ (LB.set_front b s')) = write_ (slice_list_ b).
Proof.
  intros Hr En Hn s'. pose proof Hr as [Hci Hl Hp Hps Hb].
  assert (slices (slice_list_ b) = s :: (snd <$> ns)) as Es by (unfold slices; now rewrite En).
  pose proof (ci_wf _ _ _ Hci) as Hwf. unfold held in Hwf. rewrite Es in Hwf.
  cbn [app] in Hwf. apply Forall_cons_1 in Hwf as [Hws _].
  destruct (slice_wf_index w s Hws) as (H1 & H2 & H3 & Hsz & _).
  assert (slice_wf w s') as Hws' by (apply set_indices_wf; auto; lia).
  destruct (slice_wf_index w s' Hws') as (_ & _ & _ & Hsz' & _). cbn in Hsz'.
  destruct (slice_bytes_wf w s Hws) as [Eb Hlb]. destruct (slice_bytes_wf w s' Hws') as [Eb' _].
  assert (slice_bytes w s = stored w (data s) (read_index s) n ++ slice_bytes w s') as Esplit.
  { rewrite Eb, Eb', Hsz', Hsz. cbn [s' set_indices data read_index write_index].
    rewrite <- stored_app by lia. f_equal. lia. }
  destruct (read_wf w s (read_index s) n Hws) as [Hrd Hrl]; [lia..|].
  rewrite Es, list_bytes_cons, Esplit, <- app_assoc in Hb.
  destruct (set_front_ok w b rest xs i s ns (read_index s + n) Hr En ltac:(lia))
    as (Hr' & En' & Hrs & Hw'). fold s' in Hr', En', Hrs, Hw'.
  split; [apply u64_id; lia|]. split; [|split; [|split; [|auto]]].
  - unfold span_bytes. cbn. rewrite Hrd, <- Hb, <- Hrl, take_app_length. reflexivity.
  - rewrite <- Hb, length_app. lia.
  - rewrite <- Hb, <- Hrl, drop_app_length. exact Hr'.
  - split; [exact En'|]. split; [lia|]. auto.
Qed.

(** What a reading operation does not change of the buffer. *)
Definition same_rest (b b' : LinkedBuffer) : Prop :=
  write_ (slice_list_ b') = write_ (slice_list_ b) /\ is_from_shm_ b' = is_from_shm_ b /\
  end_stream_ b' = end_stream_ b /\ len_ b' = len_ b.

Lemma set_front_same b s : same_rest b (LB.set_front b s).
Proof. unfold LB.set_front. now destruct (front_ (slice_list_ b)). Qed.

Lemma read_next_slice_same w b w' b' : LB.read_next_slice ops w b = Some (w', b') ->
  end_stream_ b' = end_stream_ b.
Proof.
  unfold LB.read_next_slice. destruct (SList.pop_front _) as [[[s|] l]|]; cbn; [|now intros [= <- <-]|discriminate].
  destruct (is_from_shm s); [destruct (current_pinned_ b)|]; cbn.
  - destruct (SList.push_back _ _); cbn; [|discriminate]. now intros [= <- <-].
  - destruct (recycle_buffer ops w s); cbn; [|discriminate]. now intros [= <- <-].
  - now intros [= <- <-].
Qed.

Lemma read_min w s n : slice_wf w s -> 0 <= n -> Slice.read s n =
  (mkSpan (data s) (read_index s) (Z.min n (Slice.size s)),
   set_indices s (read_index s + Z.min n (Slice.size s)) (write_index s)).
Proof.
  intros Hw Hn. unfold Slice.read. destruct (slice_wf_index w s Hw) as (? & ? & ? & -> & _).
  now rewrite u64_id by lia.
Qed.

Lemma reading_head w b rest xs i s ns : reading w b rest xs ->
  nodes (slice_list_ b) = (i, s) :: ns ->
  slice_wf w s /\ xs = slice_bytes w s ++ list_bytes w (snd <$> ns) /\ 0 <= Slice.size s /\
  (Slice.size s = 0 -> slice_bytes w s = []).
Proof.
  intros [Hci _ _ _ Hb] En. unfold held, slices in *. rewrite En in *.
  pose proof (ci_wf _ _ _ Hci) as Hwf. rewrite fmap_cons in Hwf. cbn [app snd] in Hwf.
  apply Forall_cons_1 in Hwf as [Hws _]. destruct (slice_bytes_wf w s Hws) as [_ Hl].
  split; [exact Hws|]. split; [now rewrite <- Hb|]. split; [lia|].
  intros E. apply nil_length_inv. lia.
Qed.

Lemma read_slow_ok fuel : forall w b rest xs size acc, reading w b rest xs ->
  0 <= size <= Z.of_nat (length xs) -> size < 18446744073709551616 ->
  (0 < fuel)%nat -> (size <> 0 -> (length (nodes (slice_list_ b)) < fuel)%nat) ->
  exists w' b', LB.read_slow ops fuel w b size acc =
      Some (acc ++ take (Z.to_nat size) xs, w', b') /\
    reading w' b' rest (drop (Z.to_nat size) xs) /\ reads w w' b b' rest /\ same_rest b b'.
Proof.
  induction fuel as [|fuel IH]; intros w b rest xs size acc Hr Hsz Hlt Hf0 Hfuel; [lia|].
  cbn [LB.read_slow]. destruct (Z.eqb_spec size 0) as [->|Hnz].
  { exists w, b. rewrite take_0, app_nil_r, drop_0. split; [reflexivity|].
    split; [exact Hr|]. split; [apply reads_refl|]. now repeat split. }
  rewrite (front_ok b (rd_list _ _ _ _ Hr)). cbn [mbind option_bind].
  destruct (nodes (slice_list_ b)) as [|[i s] ns] eqn:En.
  { pose proof (rd_bytes _ _ _ _ Hr) as Hb. unfold slices in Hb. rewrite En in Hb. cbn in Hb.
    subst xs. cbn in Hsz. lia. }
  unfold slices at 1. rewrite En. cbn [fmap list_fmap head snd].
  destruct (reading_head _ _ _ _ _ _ _ Hr En) as (Hws & _ & Hs0 & _).
  rewrite (read_min w s size Hws) by lia. set (k := Z.min size (Slice.size s)).
  destruct (take_front w b rest xs i s ns k Hr En ltac:(lia))
    as (_ & Hsp & Hkl & Hr1 & En1 & Hsz1 & Hws1 & Hrs1 & Hw1).
  rewrite Hsp. cbn [mbind option_bind sp_len]. set (s1 := set_indices _ _ _) in *.
  rewrite u64_id by lia. pose proof (set_front_same b s1) as Hsame1.
  assert (forall A (l : list A), take (Z.to_nat size) l =
    take (Z.to_nat k) l ++ take (Z.to_nat (size - k)) (drop (Z.to_nat k) l)) as Etake.
  { intros A l. replace (Z.to_nat size) with (Z.to_nat k + Z.to_nat (size - k))%nat by lia.
    rewrite <- (take_drop (Z.to_nat k) (take _ l)) at 1.
    rewrite take_take, take_drop_commute. f_equal; f_equal; lia. }
  assert (drop (Z.to_nat (size - k)) (drop (Z.to_nat k) xs) = drop (Z.to_nat size) xs) as Edrop
    by (rewrite drop_drop; f_equal; lia).
  assert (exists w2 b2, (if k =? size then Some (w, LB.set_front b s1)
      else LB.read_next_slice ops w (LB.set_front b s1)) = Some (w2, b2) /\
    reading w2 b2 rest (drop (Z.to_nat k) xs) /\ reads w w2 b b2 rest /\ same_rest b b2 /\
    (size - k <> 0 -> nodes (slice_list_ b2) = ns)) as (w2 & b2 & -> & Hr2 & Hrs2 & Hsame2 & Hn2).
  { destruct (Z.eqb_spec k size) as [Ek|Hk].
    - exists w, (LB.set_front b s1). split; [reflexivity|]. repeat (split; [assumption|]). lia.
    - destruct (reading_head _ _ _ _ _ _ _ Hr1 En1) as (_ & _ & _ & Hempty).
      destruct (read_next_slice_ok w _ rest _ i s1 ns Hr1 En1) as (w2 & b2 & E & ? & ? & Hrs2 & ? & ? & ?).
      { apply Hempty. lia. }
      exists w2, b2. split; [exact E|]. split; [assumption|].
      split; [eapply reads_trans; eassumption|]. split; [|auto].
      apply read_next_slice_same in E. destruct Hsame1 as (? & ? & ? & ?). repeat split; congruence. }
  cbn [mbind option_bind].
  destruct (IH w2 b2 rest _ (size - k) (acc ++ take (Z.to_nat k) xs) Hr2)
    as (w' & b' & -> & Hr' & Hrs' & Hsame'); try (rewrite ?length_drop; lia).
  { cbn in Hfuel. lia. }
  { intros Hne. rewrite (Hn2 Hne). cbn in Hfuel. lia. }
  exists w', b'. rewrite Edrop in Hr'. rewrite <- app_assoc, <- Etake. split; [reflexivity|].
  split; [exact Hr'|]. split; [eapply reads_trans; eassumption|].
  destruct Hsame2 as (? & ? & ? & ?), Hsame' as (? & ? & ? & ?). repeat split; congruence.
Qed.
(** * Reading operations *)

(** A buffer with [xs] to read. *)
Definition readable (w : memory) (b : LinkedBuffer) (rest : list slot) (xs : list Z) : Prop :=
  reading w b rest xs /\ len_ b = Z.of_nat (length xs).

Lemma reading_same w b b' rest xs : slice_list_ b' = slice_list_ b ->
  pinned_list_ b' = pinned_list_ b -> reading w b rest xs -> reading w b' rest xs.
Proof.
  intros E1 E2 [Hci Hl Hp Hps Hb]. constructor; rewrite ?E1, ?E2; auto.
  unfold held. now rewrite E1, E2.
Qed.

Lemma reads_same w b b' rest : slice_list_ b' = slice_list_ b ->
  pinned_list_ b' = pinned_list_ b -> (current_pinned_ b = true -> current_pinned_ b' = true) ->
  reads w w b b' rest.
Proof.
  intros E1 E2 Hc. constructor; auto using leaves_refl.
  - intros sp (s & Hs & Hin & Hrest). split; [|reflexivity]. exists s. split; [exact Hs|].
    split; [|exact Hrest]. rewrite E1, E2. destruct Hin as [?|[? ?]]; auto.
  - unfold held. now rewrite E1, E2.
  - now rewrite E1.
Qed.

(** The front slice is skipped when it is used up. *)
Lemma skip_empty_front w b rest xs : reading w b rest xs ->
  exists w' b', (match head (slices (slice_list_ b)) with
     | Some s => if Slice.size s =? 0 then LB.read_next_slice ops w b else Some (w, b)
     | None => Some (w, b)
     end) = Some (w', b') /\ reading w' b' rest xs /\ reads w w' b b' rest /\ same_rest b b'.
Proof.
  intros Hr. assert (same_rest b b) as Hrefl by now repeat split.
  unfold slices. destruct (nodes (slice_list_ b)) as [|[i s] ns] eqn:En; cbn [fmap list_fmap head snd].
  { exists w, b. auto using reads_refl. }
  destruct (Z.eqb_spec (Slice.size s) 0) as [E|_]; [|exists w, b; auto using reads_refl].
  destruct (reading_head _ _ _ _ _ _ _ Hr En) as (_ & _ & _ & Hempty).
  destruct (read_next_slice_ok w b rest xs i s ns Hr En (Hempty E))
    as (w' & b' & Er & Hr' & _ & Hrs & ? & ? & ?).
  exists w', b'. split; [exact Er|]. split; [exact Hr'|]. split; [exact Hrs|].
  apply read_next_slice_same in Er. repeat split; assumption.
Qed.

(** What is returned: the bytes, in a view of the pool that is accounted for,
    in a view of a heap slice, or copied. *)
Definition returned (w : memory) (b : LinkedBuffer) (buf : Buf) (bytes : list Z) : Prop :=
  BufOps.bytes w buf = Some bytes /\ BufOps.size buf = Z.of_nat (length bytes) /\
  forall sp, buf = BufShm sp -> viewed b sp \/ exists id, sp_data sp = OnHeap id.

Lemma returned_exm w b bytes : Z.of_nat (length bytes) < 18446744073709551616 ->
  returned w b (BufOps.exm bytes) bytes.
Proof.
  intros Hl. split; [|split; [|discriminate]].
  - cbn. destruct (0 <=? Z.of_nat (length bytes)) eqn:E; [now rewrite drop_0|lia].
  - cbn. rewrite Z.sub_0_r. apply u64_id. lia.
Qed.

Lemma returned_view w b i s ns n bytes : nodes (slice_list_ b) = (i, s) :: ns ->
  current_pinned_ b = true -> slice_wf w s -> forall off, 0 <= off -> 0 <= n -> off + n <= cap s ->
  span_bytes w (mkSpan (data s) off n) = Some bytes -> Z.of_nat (length bytes) = n ->
  returned w b (BufOps.shm (mkSpan (data s) off n)) bytes.
Proof.
  intros En Hc Hws off Ho Hn Hle Hb Hl. split; [exact Hb|]. split; [now cbn|].
  intros sp [= <-]. destruct Hws as [t Ht ? ? ? ? ?|id l Hf Hhd Hd ? ? ? ? ?]; [left|right; cbn; eauto].
  exists s. split; [apply (so_shm _ _ Ht)|]. split; [right; split; [exact Hc|]|cbn; auto].
  unfold slices. now rewrite En.
Qed.

Lemma read_bytes_ok w b rest xs n : readable w b rest xs -> 0 <= n <= Z.of_nat (length xs) ->
  Z.of_nat (length xs) < 18446744073709551616 ->
  exists buf w' b', LB.read_bytes ops w b n = Some (Ok buf, w', b') /\
    returned w' b' buf (take (Z.to_nat n) xs) /\ readable w' b' rest (drop (Z.to_nat n) xs) /\
    reads w w' b b' rest /\ write_ (slice_list_ b') = write_ (slice_list_ b).
Proof.
  intros [Hr Hlen] Hn Hlt. unfold LB.read_bytes.
  assert (Z.of_nat (length (take (Z.to_nat n) xs)) = n) as Hlt' by (rewrite length_take; lia).
  destruct (Z.eqb_spec n 0) as [->|Hnz].
  { eexists _, w, b. split; [reflexivity|]. rewrite take_0, drop_0.
    split; [apply returned_exm; cbn; lia|]. split; [now split|]. split; [apply reads_refl|reflexivity]. }
  assert ((len_ b <? n) = false) as -> by lia.
  rewrite (front_ok b (rd_list _ _ _ _ Hr)). cbn [mbind option_bind].
  destruct (skip_empty_front w b rest xs Hr) as (w1 & b1 & -> & Hr1 & Hrs1 & Hw1 & _ & _ & Hl1).
  cbn [mbind option_bind]. rewrite (front_ok b1 (rd_list _ _ _ _ Hr1)). cbn [mbind option_bind].
  assert (u64 (len_ b1 - n) = Z.of_nat (length (drop (Z.to_nat n) xs))) as Hl2.
  { rewrite length_drop, Hl1, Hlen, u64_id; lia. }
  assert (exists w' b',
    ('(bytes, w, b) ← LB.read_slow ops (S (S (length (nodes (slice_list_
         (LB.set_len b1 (u64 (len_ b1 - n)))))))) w1 (LB.set_len b1 (u64 (len_ b1 - n))) n [];
     Some (Ok (BufOps.exm bytes), w, b)) =
      Some (Ok (BufOps.exm (take (Z.to_nat n) xs)), w', b') /\
    readable w' b' rest (drop (Z.to_nat n) xs) /\ reads w w' b b' rest /\
    write_ (slice_list_ b') = write_ (slice_list_ b)) as (w' & b' & Eslow & Hr' & Hrs' & Hw').
  { destruct (read_slow_ok (S (S (length (nodes (slice_list_ b1))))) w1
      (LB.set_len b1 (u64 (len_ b1 - n))) rest xs n []) as (w' & b' & E & Hr' & Hrs' & Hw' & _ & _ & Hl');
      try lia; [now apply (reading_same _ b1)|cbn; lia|].
    cbn [slice_list_ LB.set_len]. rewrite E. exists w', b'. split; [reflexivity|].
    split; [split; [exact Hr'|cbn in Hl'; congruence]|]. split; [|cbn in Hw'; congruence].
    eapply reads_trans; [exact Hrs1|].
    eapply (reads_trans _ w1 _ _ (LB.set_len b1 _)); [now apply reads_same|exact Hrs']. }
  rewrite Eslow. unfold slices. destruct (nodes (slice_list_ b1)) as [|[i s] ns] eqn:En;
    cbn [fmap list_fmap head snd].
  { eexists _, _, _. split; [reflexivity|]. split; [apply returned_exm; lia|auto]. }
  destruct (Z.leb_spec n (Slice.size s)) as [Hfit|_].
  2: { eexists _, _, _. split; [reflexivity|]. split; [apply returned_exm; lia|auto]. }
  destruct (reading_head _ _ _ _ _ _ _ Hr1 En) as (Hws & _ & _ & _).
  rewrite (read_min w1 s n Hws), Z.min_l by lia.
  set (b2 := LB.set_len _ _).
  destruct (take_front w1 b2 rest xs i s ns n) as (_ & Hsp & _ & Hr2 & En2 & _ & Hws2 & Hrs2 & Hw2);
    [now apply (reading_same _ b1)|exact En|lia|].
  eexists _, w1, _. split; [reflexivity|]. set (s2 := set_indices _ _ _) in *.
  destruct (set_front_same b2 s2) as (_ & _ & _ & Hl3).
  destruct (slice_wf_index w1 s Hws) as (? & ? & ? & Hsz & _). split; [|split; [|split]].
  - apply (returned_view w1 _ i s2 ns n); auto; try (cbn; lia).
    unfold LB.set_front. now destruct (front_ (slice_list_ b2)).
  - split; [exact Hr2|]. rewrite Hl3. exact Hl2.
  - eapply reads_trans; [exact Hrs1|].
    eapply (reads_trans _ w1 _ _ b2); [now apply reads_same|exact Hrs2].
  - rewrite Hw2. exact Hw1.
Qed.

(** ** [peek] *)

Lemma peek_slow_ok w ns : Forall (slice_wf w) (snd <$> ns) -> forall size acc,
  0 <= size < 18446744073709551616 ->
  LB.peek_slow w ns size acc =
    Some (acc ++ take (Z.to_nat size) (list_bytes w (snd <$> ns))).
Proof.
  induction ns as [|[i s] ns IH]; intros Hwf size acc Hsz; cbn [LB.peek_slow].
  { change (list_bytes w (snd <$> [])) with (@nil Z). now rewrite take_nil, app_nil_r. }
  rewrite fmap_cons in *. apply Forall_cons_1 in Hwf as [Hws Hwf]. cbn [snd] in *.
  destruct (Z.ltb_spec 0 size) as [Hpos|?].
  2: { replace size with 0 by lia. now rewrite take_0, app_nil_r. }
  destruct (slice_wf_index w s Hws) as (? & ? & ? & Hs & _).
  destruct (slice_bytes_wf w s Hws) as [Eb Hlb].
  unfold Slice.peek, span_bytes. cbn [sp_data sp_off sp_len]. set (k := Z.min size (Slice.size s)).
  destruct (read_wf w s (read_index s) k Hws) as [-> Hl]; [lia..|]. cbn [mbind option_bind].
  rewrite u64_id, IH by (auto; lia). f_equal. rewrite <- app_assoc. f_equal.
  rewrite list_bytes_cons, take_app.
  assert (stored w (data s) (read_index s) k = take (Z.to_nat size) (slice_bytes w s)) as ->.
  { rewrite Eb. destruct (Z.le_ge_cases size (Slice.size s)) as [Hle|Hge].
    - replace (Slice.size s) with (size + (Slice.size s - size)) by lia.
      rewrite stored_app by lia. replace k with size in * by lia. rewrite <- Hl.
      now rewrite take_app_length.
    - rewrite take_ge by (rewrite <- Eb; lia). f_equal. lia. }
  do 2 f_equal. lia.
Qed.

Lemma peek_ok w b rest xs n : readable w b rest xs -> 0 <= n <= Z.of_nat (length xs) ->
  Z.of_nat (length xs) < 18446744073709551616 ->
  exists buf b', LB.peek w b n = Some (Ok buf, b') /\
    returned w b' buf (take (Z.to_nat n) xs) /\ readable w b' rest xs /\
    reads w w b b' rest /\ slice_list_ b' = slice_list_ b.
Proof.
  intros [Hr Hlen] Hn Hlt. unfold LB.peek.
  assert (Z.of_nat (length (take (Z.to_nat n) xs)) = n) as Hlt' by (rewrite length_take; lia).
  destruct (Z.eqb_spec n 0) as [->|Hnz].
  { eexists _, b. split; [reflexivity|]. rewrite take_0.
    split; [apply returned_exm; cbn; lia|]. split; [now split|]. split; [apply reads_refl|reflexivity]. }
  assert ((len_ b <? n) = false) as -> by lia.
  rewrite (front_ok b (rd_list _ _ _ _ Hr)). cbn [mbind option_bind].
  pose proof (rd_bytes _ _ _ _ Hr) as Hb. pose proof (ci_wf _ _ _ (rd_inv _ _ _ _ Hr)) as Hwf.
  apply Forall_app in Hwf as [Hwf _]. unfold slices in *.
  rewrite peek_slow_ok by (auto; lia). cbn [mbind option_bind]. rewrite Hb.
  destruct (nodes (slice_list_ b)) as [|[i s] ns] eqn:En; cbn [fmap list_fmap head snd].
  { eexists _, b. split; [reflexivity|]. split; [apply returned_exm; cbn; lia|].
    split; [now split|]. split; [apply reads_refl|reflexivity]. }
  unfold Slice.peek. cbn [sp_len]. destruct (Z.eqb_spec (Z.min n (Slice.size s)) n) as [Hfit|_].
  2: { eexists _, b. split; [reflexivity|]. split; [apply returned_exm; cbn; lia|].
       split; [now split|]. split; [apply reads_refl|reflexivity]. }
  destruct (reading_head _ _ _ _ _ _ _ Hr En) as (Hws & _).
  destruct (take_front w b rest xs i s ns n Hr En ltac:(lia)) as (_ & Hsp & _).
  destruct (slice_wf_index w s Hws) as (? & ? & ? & Hsz & _).
  eexists _, _. split; [reflexivity|]. rewrite Hfit. split; [|split; [|split; [|reflexivity]]].
  - apply (returned_view w _ i s ns n); auto; lia.
  - split; [now apply (reading_same _ b)|exact Hlen].
  - now apply reads_same.
Qed.

(** ** [discard] *)

Lemma discard_loop_ok fuel : forall w b rest xs size n, reading w b rest xs ->
  0 <= size <= Z.of_nat (length xs) -> 0 <= n -> n + size < 18446744073709551616 ->
  (length (nodes (slice_list_ b)) < fuel)%nat ->
  exists w' b', LB.discard_loop ops fuel w b size n = Some (n + size, w', b') /\
    reading w' b' rest (drop (Z.to_nat size) xs) /\ reads w w' b b' rest /\ same_rest b b'.
Proof.
  induction fuel as [|fuel IH]; intros w b rest xs size n Hr Hsz Hn Hlt Hfuel; [lia|].
  cbn [LB.discard_loop]. rewrite (front_ok b (rd_list _ _ _ _ Hr)). cbn [mbind option_bind].
  destruct (nodes (slice_list_ b)) as [|[i s] ns] eqn:En.
  { pose proof (rd_bytes _ _ _ _ Hr) as Hb. unfold slices in *. rewrite En in *. cbn in Hb.
    subst xs. cbn in Hsz. assert (size = 0) as -> by lia. cbn [fmap list_fmap head].
    exists w, b. rewrite Z.add_0_r. split; [reflexivity|]. split; [exact Hr|].
    split; [apply reads_refl|now repeat split]. }
  unfold slices at 1. rewrite En. cbn [fmap list_fmap head snd].
  destruct (reading_head _ _ _ _ _ _ _ Hr En) as (Hws & _ & Hs0 & _).
  set (k := Z.min size (Slice.size s)).
  destruct (take_front w b rest xs i s ns k Hr En ltac:(lia))
    as (Hu & _ & Hkl & Hr1 & En1 & Hsz1 & Hws1 & Hrs1 & Hw1).
  set (s1 := set_indices _ _ _) in *. pose proof (set_front_same b s1) as Hsame1.
  assert (Slice.skip s size = (k, s1)) as ->.
  { unfold Slice.skip, s1, k in *. destruct (Z.ltb_spec size (Slice.size s)).
    - rewrite Z.min_l in * by lia. now rewrite Hu.
    - rewrite Z.min_r in * by lia. now rewrite Hu. }
  rewrite !u64_id by lia. destruct (Z.eqb_spec (size - k) 0) as [Ek|Hk].
  { exists w, (LB.set_front b s1). replace (n + k) with (n + size) by lia.
    replace k with size in Hr1 by lia. auto. }
  destruct (reading_head _ _ _ _ _ _ _ Hr1 En1) as (_ & _ & _ & Hempty).
  destruct (read_next_slice_ok w _ rest _ i s1 ns Hr1 En1) as (w2 & b2 & E & Hr2 & En2 & Hrs2 & ? & ? & ?).
  { apply Hempty. lia. }
  rewrite E. cbn [mbind option_bind].
  destruct (IH w2 b2 rest _ (size - k) (n + k) Hr2) as (w' & b' & -> & Hr' & Hrs' & Hsame');
    try (rewrite ?length_drop; lia); [rewrite En2; cbn in Hfuel; lia|].
  exists w', b'. replace (n + k + (size - k)) with (n + size) by lia. split; [reflexivity|].
  rewrite drop_drop in Hr'. replace (Z.to_nat k + Z.to_nat (size - k))%nat with (Z.to_nat size) in Hr' by lia.
  split; [exact Hr'|]. split; [eauto using reads_trans|].
  apply read_next_slice_same in E.
  destruct Hsame1 as (? & ? & ? & ?), Hsame' as (? & ? & ? & ?). repeat split; congruence.
Qed.

Lemma discard_ok w b rest xs n : readable w b rest xs -> 0 <= n <= Z.of_nat (length xs) ->
  Z.of_nat (length xs) < 18446744073709551616 ->
  exists w' b', LB.discard ops w b n = Some (Ok n, w', b') /\
    readable w' b' rest (drop (Z.to_nat n) xs) /\ reads w w' b b' rest /\
    write_ (slice_list_ b') = write_ (slice_list_ b).
Proof.
  intros [Hr Hlen] Hn Hlt. unfold LB.discard. assert ((len_ b <? n) = false) as -> by lia.
  destruct (discard_loop_ok (S (length (nodes (slice_list_ b)))) w b rest xs n 0 Hr)
    as (w' & b' & -> & Hr' & Hrs & Hw & _ & _ & Hl); try lia.
  cbn [mbind option_bind]. eexists w', _. split; [reflexivity|]. split; [|split; [|exact Hw]].
  - split; [now apply (reading_same _ b')|]. cbn. rewrite Hl, Hlen, length_drop, Z.add_0_l, u64_id; lia.
  - eapply reads_trans; [exact Hrs|]. now apply reads_same.
Qed.

(** * Giving slices back *)

Lemma agree_trans w1 w2 w3 ss : agree w1 w2 ss -> agree w2 w3 ss -> agree w1 w3 ss.
Proof.
  intros [K1 H1] [K2 H2]. split; [eapply keeps_trans; eauto|]. intros id Hid.
  rewrite H2 by assumption. auto.
Qed.

Lemma agree_incl w w' ss ss' : agree w w' ss -> (forall s, s ∈ ss' -> s ∈ ss) -> agree w w' ss'.
Proof.
  intros [K H] Hi. split.
  - eapply keeps_incl; [exact K|]. intros t Ht. unfold slots_in in *.
    apply list_elem_of_omap in Ht as (s & Hs & E). apply list_elem_of_omap. eauto.
  - intros id Hid. apply H. unfold storages_in in *.
    apply list_elem_of_omap in Hid as (s & Hs & E). apply list_elem_of_omap. eauto.
Qed.

Lemma storages_remove pre s post : storages_in (pre ++ post) ⊆ storages_in (pre ++ s :: post).
Proof. intros id Hid. rewrite storages_middle. set_solver. Qed.

(** One turn of the loops that give a list back: its first slice goes. *)
Lemma give_back_front w ss l rest i s ns : chain_inv w (ss ++ slices l) rest -> slist_ok l ->
  nodes l = (i, s) :: ns ->
  exists w' l', SList.pop_front l = Some (Some s, l') /\ slist_ok l' /\ nodes l' = ns /\
    (match is_from_shm s with
     | true => recycle_buffer ops w s
     | false => Some (Slice.destroy w s)
     end) = Some w' /\ chain_inv w' (ss ++ slices l') rest /\ agree w w' (ss ++ slices l') /\
    leaves w w' (ss ++ slices l) rest /\
    storages_in (ss ++ slices l') ⊆ storages_in (ss ++ slices l).
Proof.
  intros Hci Hl En. destruct (pop_front_ok l i s ns Hl En) as (l' & Epop & Hl' & Hn' & _).
  assert (slices l = s :: slices l') as Es by (unfold slices; now rewrite En, Hn').
  rewrite Es in Hci |- *. destruct (give_back w ss s (slices l') rest Hci)
    as (w' & E & Hd & Hci' & Hag & Hlv).
  exists w', l'. split; [exact Epop|]. split; [exact Hl'|]. split; [exact Hn'|].
  split; [|auto using storages_remove].
  destruct (is_from_shm s); [exact E|]. now rewrite <- Hd.
Qed.

Definition gave_back (w w' : memory) (ss : list BufferSlice) (l l' : SliceList)
    (rest : list slot) : Prop :=
  slist_ok l' /\ nodes l' = [] /\ chain_inv w' ss rest /\ agree w w' ss /\
  leaves w w' (ss ++ slices l) rest.

Lemma gave_back_step w1 w2 w3 ss l1 l2 l3 rest : agree w1 w2 (ss ++ slices l2) ->
  leaves w1 w2 (ss ++ slices l1) rest ->
  storages_in (ss ++ slices l2) ⊆ storages_in (ss ++ slices l1) ->
  gave_back w2 w3 ss l2 l3 rest -> gave_back w1 w3 ss l1 l3 rest.
Proof.
  intros Hag Hlv Hst (H1 & H2 & H3 & H4 & H5). split; [exact H1|]. split; [exact H2|].
  split; [exact H3|]. split; [|eapply leaves_trans; [exact Hlv|exact H5|]; intros id Hid; left; auto].
  eapply agree_trans; [|exact H4]. eapply agree_incl; [exact Hag|]. set_solver.
Qed.

Lemma recycle_list_ok fuel : forall w l ss rest, chain_inv w (ss ++ slices l) rest -> slist_ok l ->
  (length (nodes l) < fuel)%nat ->
  exists w' l', LB.recycle_list ops fuel w l = Some (w', l') /\ gave_back w w' ss l l' rest.
Proof.
  induction fuel as [|fuel IH]; intros w l ss rest Hci Hl Hf; [lia|]. cbn [LB.recycle_list].
  rewrite (sl_len _ Hl). destruct (nodes l) as [|[i s] ns] eqn:En; cbn [length].
  - exists w, l. split; [reflexivity|]. assert (slices l = []) as Es by (unfold slices; now rewrite En).
    rewrite Es, app_nil_r in Hci. split; [exact Hl|]. split; [exact En|]. split; [exact Hci|].
    split; [|apply leaves_refl]. split; [apply keeps_refl|reflexivity].
  - destruct (Z.ltb_spec 0 (Z.of_nat (S (length ns)))) as [_|?]; [|lia].
    destruct (give_back_front w ss l rest i s ns Hci Hl En)
      as (w1 & l1 & -> & Hl1 & Hn1 & E & Hci1 & Hag1 & Hlv1 & Hst1).
    cbn [mbind option_bind]. rewrite E. cbn [mbind option_bind].
    destruct (IH w1 l1 ss rest Hci1 Hl1) as (w' & l' & -> & H); [rewrite Hn1; cbn in Hf; lia|].
    exists w', l'. split; [reflexivity|]. eapply gave_back_step; eauto.
Qed.

Lemma pop_all_ok fuel : forall w l ss rest, chain_inv w (ss ++ slices l) rest -> slist_ok l ->
  (length (nodes l) < fuel)%nat ->
  exists w' l', LB.pop_all fuel w l (recycle_buffer ops) = Some (w', l') /\
    gave_back w w' ss l l' rest.
Proof.
  induction fuel as [|fuel IH]; intros w l ss rest Hci Hl Hf; [lia|]. cbn [LB.pop_all].
  destruct (nodes l) as [|[i s] ns] eqn:En.
  - rewrite (pop_front_empty l Hl En). cbn [mbind option_bind].
    exists w, l. split; [reflexivity|]. assert (slices l = []) as Es by (unfold slices; now rewrite En).
    rewrite Es, app_nil_r in Hci. split; [exact Hl|]. split; [exact En|]. split; [exact Hci|].
    split; [|apply leaves_refl]. split; [apply keeps_refl|reflexivity].
  - destruct (give_back_front w ss l rest i s ns Hci Hl En)
      as (w1 & l1 & -> & Hl1 & Hn1 & E & Hci1 & Hag1 & Hlv1 & Hst1).
    cbn [mbind option_bind]. rewrite E. cbn [mbind option_bind].
    destruct (IH w1 l1 ss rest Hci1 Hl1) as (w' & l' & -> & H); [rewrite Hn1; cbn in Hf; lia|].
    exists w', l'. split; [reflexivity|]. eapply gave_back_step; eauto.
Qed.

(** All of a buffer given back, its views first: only [rest] is still out. *)
Lemma clean_pinned_ok w b rest xs : readable w b rest xs ->
  exists w' b', LB.clean_pinned_list ops w b = Some (w', b') /\ readable w' b' rest xs /\
    slice_list_ b' = slice_list_ b /\ nodes (pinned_list_ b') = [] /\
    leaves w w' (held b) rest /\ is_from_shm_ b' = is_from_shm_ b.
Proof.
  intros [[Hci Hl Hp Hps Hb] Hlen]. unfold LB.clean_pinned_list, SList.size. rewrite (sl_len _ Hp).
  destruct (nodes (pinned_list_ b)) as [|n ns] eqn:En.
  { exists w, b. split; [reflexivity|]. split; [now split|]. auto 6 using leaves_refl. }
  cbn [length]. destruct (Z.eqb_spec (Z.of_nat (S (length ns))) 0); [lia|].
  cbn [LB.set_current_pinned pinned_list_].
  destruct (recycle_list_ok (S (length (nodes (pinned_list_ b)))) w (pinned_list_ b)
    (slices (slice_list_ b)) rest Hci Hp ltac:(lia)) as (w' & l' & -> & Hl' & Hn' & Hci' & Hag & Hlv).
  cbn [mbind option_bind]. eexists w', _. split; [reflexivity|].
  assert (slices l' = []) as Es' by (unfold slices; now rewrite Hn').
  split; [|auto]. split; [|exact Hlen]. constructor; cbn; auto.
  - unfold held. cbn. rewrite Es', app_nil_r. exact Hci'.
  - rewrite Es'. constructor.
  - rewrite <- Hb. apply (agree_list w w' _ Hag). pose proof (ci_wf _ _ _ Hci) as Hwf.
    now apply Forall_app in Hwf.
Qed.

(** [release_previous_read]: the views are given up and their slices go back,
    what is left to read stays. *)
Lemma release_previous_read_ok w b rest xs : readable w b rest xs ->
  exists w' b', LB.release_previous_read ops w b = Some (w', b') /\ readable w' b' rest xs /\
    nodes (pinned_list_ b') = [] /\ shrinks w w' b b' rest /\
    (slice_list_ b' = slice_list_ b \/ write_ (slice_list_ b') = None).
Proof.
  intros Hrb. unfold LB.release_previous_read.
  destruct (clean_pinned_ok w b rest xs Hrb) as (w1 & b1 & -> & Hrb1 & Esl & Hpn & Hlv1 & _).
  cbn [mbind option_bind]. pose proof Hrb1 as [[Hci Hl Hp Hps Hb] Hlen].
  assert (slices (pinned_list_ b1) = []) as Ep by (unfold slices; now rewrite Hpn).
  assert (shrinks w w1 b b1 rest) as Hsk1.
  { constructor; [exact Hlv1| |now rewrite Esl]. unfold held. rewrite Ep, Esl, app_nil_r, storages_in_app. set_solver. }
  unfold SList.size. rewrite (sl_len _ Hl). destruct (nodes (slice_list_ b1)) as [|[i s] ns] eqn:En.
  { exists w1, b1. auto 6. }
  cbn [length]. destruct (Z.eqb_spec (Z.of_nat (S (length ns))) 0); [lia|].
  rewrite (front_ok b1 Hl). unfold slices at 1. rewrite En. cbn [mbind option_bind fmap list_fmap head snd].
  destruct ((Slice.size s =? 0) && _) eqn:Ec; [|exists w1, b1; auto 6].
  apply andb_true_iff in Ec as [Hs0%Z.eqb_eq Hfw%bool_decide_eq_true].
  destruct (pop_front_ok _ i s ns Hl En) as (l' & -> & Hl' & Hn' & _). cbn [mbind option_bind].
  assert (slices (slice_list_ b1) = s :: slices l') as Es by (unfold slices; now rewrite En, Hn').
  unfold held in Hci. rewrite Es, Ep in Hci. cbn [app] in Hci. rewrite app_nil_r in Hci.
  pose proof (ci_wf _ _ _ Hci) as Hwf. apply Forall_cons_1 in Hwf as [Hws Hwf].
  destruct (give_back w1 [] s (slices l') rest Hci) as (w2 & -> & _ & Hci2 & Hag2 & Hlv2).
  cbn [mbind option_bind]. eexists w2, _. split; [reflexivity|].
  destruct (slice_bytes_wf w1 s Hws) as [_ Hlb].
  assert (slice_bytes w1 s = []) as Hsb by (apply nil_length_inv; lia).
  split; [split; [|exact Hlen]|split; [exact Hpn|split; [|auto]]].
  - constructor; cbn; auto using set_write_ok.
    + unfold held. cbn. rewrite Ep, app_nil_r. exact Hci2.
    + rewrite <- Hb, Es, list_bytes_cons, Hsb. cbn. now apply agree_list.
  - pose proof (sk_ids _ _ _ _ _ Hsk1) as Hids. unfold held in Hids at 1. rewrite Es, Ep, app_nil_r in Hids.
    constructor; [eapply leaves_trans; [exact Hlv1|exact Hlv2|]; intros id Hid; left; now apply Hids|..].
    + unfold held at 1. cbn. rewrite Ep, app_nil_r. etransitivity; [|exact Hids].
      change (slices (SList.set_write l' None)) with (slices l').
      change (s :: slices l') with ([s] ++ slices l'). rewrite storages_in_app. set_solver.
    + change (length (slices l') <= length (slices (slice_list_ b)))%nat. rewrite <- Esl, Es. cbn [length]. lia.
Qed.

(** [recycle]: the slices of the list go back, those whose views are out stay. *)
Lemma recycle_ok w b rest xs : readable w b rest xs ->
  exists w' b', LB.recycle ops w b = Some (w', b') /\ readable w' b' rest [] /\
    pinned_list_ b' = pinned_list_ b /\ nodes (slice_list_ b') = [] /\
    write_ (slice_list_ b') = None /\ leaves w w' (held b) rest.
Proof.
  intros [[Hci Hl Hp Hps Hb] Hlen]. unfold LB.recycle.
  destruct (pop_all_ok (S (length (nodes (slice_list_ b)))) w (slice_list_ b)
    (slices (pinned_list_ b)) rest) as (w' & l' & -> & Hl' & Hn' & Hci' & Hag & Hlv); auto; try lia.
  { eapply chain_inv_perm; [|exact Hci]. apply Permutation_app_comm. }
  cbn [mbind option_bind]. eexists w', _. split; [reflexivity|].
  assert (slices l' = []) as Es' by (unfold slices; now rewrite Hn').
  split; [split; [|reflexivity]|split; [reflexivity|split; [exact Hn'|split; [reflexivity|]]]].
  - constructor; cbn [LB.cleared slice_list_ pinned_list_]; auto using set_write_ok.
    + unfold held. cbn [LB.cleared slice_list_ pinned_list_].
      change (slices (SList.set_write l' None)) with (slices l'). now rewrite Es'.
    + change (slices (SList.set_write l' None)) with (slices l'). now rewrite Es'.
  - destruct Hlv as [K N H]. constructor; auto. intros id Hid Hni. apply H; [exact Hid|].
    unfold held in Hni. rewrite storages_in_app in *. set_solver.
Qed.

(** * Receiving *)

(** A slot held by others, with its slice, joins a chain. *)
Lemma chain_inv_slot w ss rest t s : chain_inv w ss (t :: rest) -> slice_of t s ->
  slice_wf w s -> Z.testbit (slot_flag (shared w) t) 1 = true -> chain_inv w (s :: ss) rest.
Proof.
  intros [Hown Hwf Hids Hheap Huse] Ht Hws Hbit. destruct (slot_of_slice t s Ht) as [Et Est].
  constructor; auto.
  - unfold slots_in. cbn. rewrite Et. eapply own_perm; [|exact Hown].
    cbn. symmetry. apply Permutation_middle.
  - unfold storages_in. cbn. now rewrite Est.
  - unfold in_use, slots_in in *. cbn. rewrite Et. now constructor.
Qed.

(** So does a slice of the heap. *)
Lemma chain_inv_heap w ss rest s : chain_inv w ss rest -> slice_wf w s ->
  is_from_shm s = false -> (forall id, storage_of s = Some id -> id ∉ storages_in ss) ->
  chain_inv w (s :: ss) rest.
Proof.
  intros [Hown Hwf Hids Hheap Huse] Hws Hf Hni.
  destruct Hws as [t Ht|id l ? Hhd Hd]; [pose proof (so_shm _ _ Ht); congruence|].
  destruct (storage_of_heap s id Hf Hd) as [Et Est]. constructor; auto.
  - unfold slots_in. cbn. now rewrite Et.
  - constructor; [|exact Hwf]. eapply wf_heap; eauto.
  - unfold storages_in. cbn. rewrite Est. constructor; [now apply Hni|exact Hids].
  - unfold in_use, slots_in in *. cbn. now rewrite Et.
Qed.

(** A slice joins the buffer at its end. *)
Lemma append_buffer_slice_ok w b rest rest' xs s : readable w b rest xs ->
  chain_inv w (s :: held b) rest' ->
  Z.of_nat (length xs) + cap s < 18446744073709551616 ->
  Z.of_nat (length (nodes (slice_list_ b))) + 1 < 18446744073709551616 ->
  exists b', LB.append_buffer_slice b s = Some b' /\
    readable w b' rest' (xs ++ slice_bytes w s) /\
    slices (slice_list_ b') = slices (slice_list_ b) ++ [s] /\
    pinned_list_ b' = pinned_list_ b /\ current_pinned_ b' = current_pinned_ b /\
    is_from_shm_ b' = is_from_shm_ b && is_from_shm s /\
    write_ (slice_list_ b') = back_ (slice_list_ b').
Proof.
  intros [[_ Hl Hp Hps Hb] Hlen] Hci Hx Hn. unfold LB.append_buffer_slice.
  destruct (push_back_ok (slice_list_ b) s Hl Hn) as (l' & E & Hl' & Hn' & Hw').
  pose proof (Forall_inv (ci_wf _ _ _ Hci)) as Hws.
  unfold LB.push. replace (slice_list_ (LB.set_len _ _)) with (slice_list_ b) by now destruct (is_from_shm s).
  rewrite E. cbn [mbind option_bind]. eexists. split; [reflexivity|].
  assert (slices l' = slices (slice_list_ b) ++ [s]) as Es by (unfold slices; now rewrite Hn', fmap_app).
  destruct (slice_bytes_wf w s Hws) as [_ Hlb]. destruct (slice_wf_index w s Hws) as (? & ? & ? & Hsz & _).
  set (b1 := LB.set_list _ _).
  assert (slice_list_ b1 = SList.set_write l' (back_ l') /\ pinned_list_ b1 = pinned_list_ b /\
    current_pinned_ b1 = current_pinned_ b /\ is_from_shm_ b1 = is_from_shm_ b && is_from_shm s /\
    len_ b1 = u64 (len_ b + Slice.size s)) as (E1 & E2 & E3 & E4 & E5).
  { unfold b1. destruct (is_from_shm s); cbn; rewrite ?andb_true_r, ?andb_false_r; auto. }
  rewrite E1. change (slices (SList.set_write l' (back_ l'))) with (slices l').
  split; [split|split; [exact Es|auto]].
  - constructor; unfold held; rewrite ?E1, ?E2; auto using set_write_ok;
      change (slices (SList.set_write l' (back_ l'))) with (slices l'); rewrite Es.
    + eapply chain_inv_perm; [|exact Hci]. unfold held. rewrite <- app_assoc. cbn [app].
      apply Permutation_middle.
    + rewrite list_bytes_app, Hb. unfold list_bytes at 1. cbn. now rewrite app_nil_r.
  - rewrite E5, Hlen, length_app, u64_id; lia.
Qed.

End buffers.
