(* ===== verification/Wire.v ===== *)
(** The wire format: event headers, fallback events and the shared-memory
    metadata ([include/shmipc/protocol/event.hpp], [protocol/header.hpp],
    [src/protocol/event.cpp], and the two codecs of the metadata in
    [src/protocol/initializer.cpp]).

    A byte buffer is the list of its bytes; a pointer into it is the buffer
    with an index.  Reading or writing past its end is [None]. *)
From stdpp Require Import pretty.
From S2P Require Import Prelude Errors Consts.

(** * Bytes *)

(** [p\[i\] = v] and [p\[i\]]. *)
Definition store8 (p : list Z) (i : nat) (v : Z) : option (list Z) :=
  if decide (i < length p)%nat then Some (<[i := u8 v]> p) else None.
Definition load8 (p : list Z) (i : nat) : option Z := p !! i.

Definition store_be_u16 (p : list Z) (i : nat) (v : Z) : option (list Z) :=
  p ← store8 p i (Z.shiftr v 8);
  store8 p (i + 1) v.
Definition store_be_u32 (p : list Z) (i : nat) (v : Z) : option (list Z) :=
  p ← store8 p i (Z.shiftr v 24);
  p ← store8 p (i + 1) (Z.shiftr v 16);
  p ← store8 p (i + 2) (Z.shiftr v 8);
  store8 p (i + 3) v.
Definition load_be_u16 (p : list Z) (i : nat) : option Z :=
  a ← load8 p i; b ← load8 p (i + 1);
  Some (u16 (Z.lor (Z.shiftl a 8) b)).
Definition load_be_u32 (p : list Z) (i : nat) : option Z :=
  a ← load8 p i; b ← load8 p (i + 1); c ← load8 p (i + 2); d ← load8 p (i + 3);
  Some (Z.lor (Z.lor (Z.lor (u32 (Z.shiftl a 24)) (u32 (Z.shiftl b 16))) (u32 (Z.shiftl c 8))) d).

(** [std::memcpy(p + i, bs, n)] and the range [\[p + i, p + i + n)]. *)
Fixpoint store_range (p : list Z) (i : nat) (bs : list Z) : option (list Z) :=
  match bs with
  | [] => Some p
  | b :: bs => p ← store8 p i b; store_range p (S i) bs
  end.
Definition load_range (p : list Z) (i n : nat) : option (list Z) :=
  if decide (i + n <= length p)%nat then Some (take n (drop i p)) else None.

(** The bytes of a [std::string]. *)
Definition string_bytes (s : string) : list Z :=
  (fun c => Z.of_N (Ascii.N_of_ascii c)) <$> String.list_ascii_of_string s.
Definition bytes_string (l : list Z) : string :=
  String.string_of_list_ascii ((fun b => Ascii.ascii_of_N (Z.to_N b)) <$> l).

(** * Events *)

(** [enum class EventType : std::uint8_t]; other values are kept. *)
Definition EventType : Type := Z.
Definition kShareMemoryByFilePath : EventType := 0.
Definition kPolling : EventType := 1.
Definition kStreamClose : EventType := 2.
Definition kFallbackData : EventType := 3.
Definition kExchangeProtoVersion : EventType := 4.
Definition kShareMemoryByMemfd : EventType := 5.
Definition kAckShareMemory : EventType := 6.
Definition kAckReadyRecvFd : EventType := 7.
Definition kHotRestart : EventType := 8.
Definition kHotRestartAck : EventType := 9.
Definition kMinEventType : EventType := kShareMemoryByFilePath.
Definition kMaxEventType : EventType := kHotRestartAck.

Definition event_type_name (t : EventType) : string :=
  match t with
  | 0 => "ShareMemoryByFilePath"
  | 1 => "Polling"
  | 2 => "StreamClose"
  | 3 => "FallbackData"
  | 4 => "ExchangeProtoVersion"
  | 5 => "ShareMemoryByMemfd"
  | 6 => "AckShareMemory"
  | 7 => "AckReadyRecvFD"
  | 8 => "HotRestart"
  | 9 => "HotRestartAck"
  | _ => "UNSET" +:+ pretty t
  end.

(** [class Header], a view of a buffer at an index. *)
Module Header.
Definition length (p : list Z) (i : nat) : option Z := load_be_u32 p i.
Definition magic (p : list Z) (i : nat) : option Z := load_be_u16 p (i + 4).
Definition version (p : list Z) (i : nat) : option Z := load8 p (i + 6).
Definition msg_type (p : list Z) (i : nat) : option EventType := load8 p (i + 7).
Definition encode (p : list Z) (i : nat) (length version : Z) (msg_type : EventType)
    : option (list Z) :=
  p ← store_be_u32 p i length;
  p ← store_be_u16 p (i + 4) kMagicNumber;
  p ← store8 p (i + 6) version;
  store8 p (i + 7) msg_type.
Definition as_slice (p : list Z) (i : nat) : option (list Z) :=
  load_range p i (Z.to_nat kHeaderSize).
End Header.

(** The polling event of each version, encoded once. *)
Definition polling_event (i : Z) : option (list Z) :=
  Header.encode (replicate (Z.to_nat kHeaderSize) 0) 0 kHeaderSize i kPolling.
Definition polling_event_with_version : option (list (list Z)) :=
  mapM polling_event (Z.of_nat <$> seq 0 (S (Z.to_nat kMaxSupportProtoVersion))).

Module FallbackDataEvent.
Definition encode (p : list Z) (length version seq_id status : Z) : option (list Z) :=
  p ← store_be_u32 p 0 length;
  p ← store_be_u16 p 4 kMagicNumber;
  p ← store8 p 6 version;
  p ← store8 p 7 kFallbackData;
  p ← store_be_u32 p 8 seq_id;
  store_be_u32 p 12 status.
Definition as_slice (p : list Z) : option (list Z) :=
  load_range p 0 (Z.to_nat kHeaderSize + 8).
End FallbackDataEvent.

Definition check_event_valid (p : list Z) (i : nat) : option (result unit) :=
  magic ← Header.magic p i;
  version ← Header.version p i;
  if negb (magic =? kMagicNumber) || (version =? 0) then Some (fail_with kInvalidVersion) else
  mt ← Header.msg_type p i;
  if (mt <? kMinEventType) || (kMaxEventType <? mt) then Some (fail_with kInvalidMsgType)
  else Some (Ok tt).

(** The bytes of a [StreamClose] event ([Stream::close]). *)
Definition stream_close_event (version id : Z) : option (list Z) :=
  event ← Header.encode (replicate 12 0) 0 12 version kStreamClose;
  event ← store8 event 8 (Z.shiftr id 24);
  event ← store8 event 9 (Z.shiftr id 16);
  event ← store8 event 10 (Z.shiftr id 8);
  store8 event 11 id.

(** * The shared-memory metadata *)

Definition generate_shm_metadata (event_type : EventType) (buffer_path queue_path : string)
    (version : Z) : option (list Z) :=
  let b := string_bytes buffer_path in
  let q := string_bytes queue_path in
  let data := replicate (Z.to_nat kHeaderSize + 2 + length b + 2 + length q) 0 in
  data ← Header.encode data 0 (u32 (Z.of_nat (length data))) version event_type;
  let offset := Z.to_nat kHeaderSize in
  data ← store_be_u16 data offset (u16 (Z.of_nat (length q)));
  let offset := (offset + 2)%nat in
  data ← store_range data offset q;
  let offset := (offset + length q)%nat in
  data ← store_be_u16 data offset (u16 (Z.of_nat (length b)));
  let offset := (offset + 2)%nat in
  store_range data offset b.

Definition extract_shm_metadata (body : list Z) : option (string * string) :=
  queue_path_len ← load_be_u16 body 0;
  let offset := 2%nat in
  queue_path ← load_range body offset (Z.to_nat queue_path_len);
  let offset := (offset + Z.to_nat queue_path_len)%nat in
  buffer_path_len ← load_be_u16 body offset;
  let offset := (offset + 2)%nat in
  buffer_path ← load_range body offset (Z.to_nat buffer_path_len);
  Some (bytes_string buffer_path, bytes_string queue_path).

(** * Facts about the bytes *)

(** Big-endian numbers as bytes. *)
Definition be16 (v : Z) : list Z := [u8 (Z.shiftr v 8); u8 v].
Definition be32 (v : Z) : list Z :=
  [u8 (Z.shiftr v 24); u8 (Z.shiftr v 16); u8 (Z.shiftr v 8); u8 v].

Lemma testbit_u8 x n : 0 <= n -> Z.testbit (u8 x) n = (n <? 8) && Z.testbit x n.
Proof. intros. apply (Z.testbit_mod_pow2 x 8 n); lia. Qed.
Lemma testbit_u16 x n : 0 <= n -> Z.testbit (u16 x) n = (n <? 16) && Z.testbit x n.
Proof. intros. apply (Z.testbit_mod_pow2 x 16 n); lia. Qed.
Lemma testbit_u32 x n : 0 <= n -> Z.testbit (u32 x) n = (n <? 32) && Z.testbit x n.
Proof. intros. apply (Z.testbit_mod_pow2 x 32 n); lia. Qed.

(** Bitwise reasoning on joined bytes: each bit of the result is looked up in
    the byte that holds it. *)
Ltac bits :=
  repeat first
    [ rewrite Z.lor_spec | rewrite testbit_u32 by lia | rewrite testbit_u16 by lia
    | rewrite Z.shiftl_spec by lia | rewrite Z.shiftr_spec by lia ].

Lemma byte_bit b n k : 0 <= n -> 0 <= k ->
  Z.testbit (u8 (Z.shiftr b k)) (n - k) = (k <=? n) && (n <? k + 8) && Z.testbit b n.
Proof.
  intros. destruct (Z.leb_spec k n).
  - rewrite testbit_u8, Z.shiftr_spec by lia. replace (n - k + k) with n by lia.
    destruct (Z.ltb_spec (n - k) 8), (Z.ltb_spec n (k + 8)); auto; lia.
  - now rewrite Z.testbit_neg_r by lia.
Qed.

Lemma be32_join v :
  Z.lor (Z.lor (Z.lor (u32 (Z.shiftl (u8 (Z.shiftr v 24)) 24))
    (u32 (Z.shiftl (u8 (Z.shiftr v 16)) 16))) (u32 (Z.shiftl (u8 (Z.shiftr v 8)) 8))) (u8 v)
  = u32 v.
Proof.
  apply Z.bits_inj'. intros n Hn. bits. rewrite !byte_bit, testbit_u8 by lia.
  destruct (Z.testbit v n); rewrite ?andb_false_r, ?andb_true_r; [|reflexivity].
  repeat match goal with |- context [?a <=? ?b] => destruct (Z.leb_spec a b) end;
  repeat match goal with |- context [?a <? ?b] => destruct (Z.ltb_spec a b) end;
    cbn; auto; lia.
Qed.

Lemma be16_join v : u16 (Z.lor (Z.shiftl (u8 (Z.shiftr v 8)) 8) (u8 v)) = u16 v.
Proof.
  apply Z.bits_inj'. intros n Hn. bits. rewrite !byte_bit, testbit_u8 by lia.
  destruct (Z.testbit v n); rewrite ?andb_false_r, ?andb_true_r; [|reflexivity].
  repeat match goal with |- context [?a <=? ?b] => destruct (Z.leb_spec a b) end;
  repeat match goal with |- context [?a <? ?b] => destruct (Z.ltb_spec a b) end;
    cbn; auto; lia.
Qed.

Lemma load8_app a l i k : i = (length a + k)%nat -> load8 (a ++ l) i = l !! k.
Proof. intros ->. unfold load8. rewrite lookup_app_r by lia. f_equal. lia. Qed.
Lemma store8_app a x b v i : i = length a -> store8 (a ++ x :: b) i v = Some (a ++ u8 v :: b).
Proof.
  intros ->. unfold store8. rewrite decide_True by (rewrite length_app; cbn; lia).
  f_equal. now rewrite insert_app_r_alt, Nat.sub_diag by lia.
Qed.

Lemma load_be_u32_app a v b i : i = length a -> load_be_u32 (a ++ be32 v ++ b) i = Some (u32 v).
Proof.
  intros ->. unfold load_be_u32.
  rewrite (load8_app _ _ (length a) 0), (load8_app _ _ _ 1 eq_refl),
    (load8_app _ _ _ 2 eq_refl), (load8_app _ _ _ 3 eq_refl) by lia.
  cbn. now rewrite be32_join.
Qed.

Lemma load_be_u16_app a v b i : i = length a -> load_be_u16 (a ++ be16 v ++ b) i = Some (u16 v).
Proof.
  intros ->. unfold load_be_u16. 
  rewrite (load8_app _ _ (length a) 0), (load8_app _ _ _ 1 eq_refl) by lia.
  cbn. now rewrite be16_join.
Qed.

Lemma store_range_app a x b bs i : i = length a -> length x = length bs ->
  store_range (a ++ x ++ b) i bs = Some (a ++ (u8 <$> bs) ++ b).
Proof.
  revert a x i. induction bs as [|v bs IH]; intros a [|y x] i -> Hl; try discriminate; [reflexivity|].
  cbn. rewrite store8_app by reflexivity. cbn [mbind option_bind].
  rewrite (cons_middle _ a), app_assoc, IH by (rewrite ?length_app; cbn in *; lia).
  now rewrite <- app_assoc.
Qed.

Lemma store_be_u16_app a x b v i : i = length a -> length x = 2%nat ->
  store_be_u16 (a ++ x ++ b) i v = Some (a ++ be16 v ++ b).
Proof.
  intros -> Hx. destruct x as [|x0 [|x1 [|]]]; try discriminate. unfold store_be_u16, be16. cbn [app].
  rewrite store8_app by reflexivity. cbn [mbind option_bind].
  rewrite (cons_middle _ a), app_assoc, store8_app by (rewrite ?length_app; cbn in *; lia).
  now rewrite <- app_assoc.
Qed.

Lemma load_range_app a x b i n : i = length a -> n = length x ->
  load_range (a ++ x ++ b) i n = Some x.
Proof.
  intros -> ->. unfold load_range. rewrite decide_True by (rewrite !length_app; lia).
  now rewrite drop_app_length, take_app_length.
Qed.

Lemma load_range_end a x i n : i = length a -> n = length x -> load_range (a ++ x) i n = Some x.
Proof. rewrite <- (app_nil_r x) at 2. apply load_range_app. Qed.

(** The header as bytes. *)
Definition header_bytes (length version : Z) (msg_type : EventType) : list Z :=
  be32 length ++ be16 kMagicNumber ++ [u8 version; u8 msg_type].

Lemma encode_bytes x b l v t : length x = 8%nat ->
  Header.encode (x ++ b) 0 l v t = Some (header_bytes l v t ++ b).
Proof. intros Hx. do 8 (destruct x as [|? x]; [discriminate|]). now destruct x. Qed.

Lemma header_fields l v t b :
  Header.length (header_bytes l v t ++ b) 0 = Some (u32 l) /\
  Header.magic (header_bytes l v t ++ b) 0 = Some kMagicNumber /\
  Header.version (header_bytes l v t ++ b) 0 = Some (u8 v) /\
  Header.msg_type (header_bytes l v t ++ b) 0 = Some (u8 t).
Proof.
  unfold header_bytes. rewrite <- !app_assoc. split; [|split; [|split]]; [|reflexivity..].
  apply (load_be_u32_app [] l). reflexivity.
Qed.

(** A header of a known type and a version other than zero is valid. *)
Lemma header_valid l v t b : 1 <= v < 256 -> 0 <= t <= kMaxEventType ->
  check_event_valid (header_bytes l v t ++ b) 0 = Some (Ok tt).
Proof.
  intros Hv Ht. unfold kMaxEventType, kHotRestartAck in Ht. unfold check_event_valid.
  destruct (header_fields l v t b) as (_ & -> & -> & ->).
  cbn [mbind option_bind]. rewrite !u8_id by lia.
  unfold kMinEventType, kMaxEventType, kShareMemoryByFilePath, kHotRestartAck.
  rewrite Z.eqb_refl, (proj2 (Z.eqb_neq v 0)), (proj2 (Z.ltb_ge t 0)), (proj2 (Z.ltb_ge 9 t)) by lia.
  reflexivity.
Qed.

Lemma string_bytes_byte s : Forall (fun b => 0 <= b < 256) (string_bytes s).
Proof.
  unfold string_bytes. apply Forall_fmap, Forall_true. intros c. cbn.
  pose proof (Ascii.N_ascii_bounded c). lia.
Qed.

Lemma bytes_string_bytes s : bytes_string (string_bytes s) = s.
Proof.
  unfold bytes_string, string_bytes. rewrite <- list_fmap_compose.
  rewrite <- (String.string_of_list_ascii_of_string s) at 2. f_equal.
  induction (String.list_ascii_of_string s) as [|c l IH]; cbn; [reflexivity|].
  rewrite IH. f_equal. rewrite N2Z.id. apply Ascii.ascii_N_embedding.
Qed.

Lemma u8_bytes l : Forall (fun b => 0 <= b < 256) l -> u8 <$> l = l.
Proof. induction 1; cbn; [reflexivity|]. now rewrite u8_id, IHForall. Qed.

(** The metadata as bytes. *)
Lemma metadata_bytes t b q v :
  generate_shm_metadata t b q v =
  Some (header_bytes (u32 (12 + Z.of_nat (length (string_bytes b) + length (string_bytes q)))) v t ++
        be16 (u16 (Z.of_nat (length (string_bytes q)))) ++ string_bytes q ++
        be16 (u16 (Z.of_nat (length (string_bytes b)))) ++ string_bytes b).
Proof.
  unfold generate_shm_metadata. set (lb := string_bytes b). set (lq := string_bytes q).
  change (Z.to_nat kHeaderSize) with 8%nat. rewrite length_replicate.
  replace (8 + 2 + length lb + 2 + length lq)%nat
    with (8 + (2 + (length lq + (2 + length lb))))%nat by lia.
  rewrite !(replicate_add _ _ 0), encode_bytes by apply length_replicate. cbn [mbind option_bind].
  rewrite store_be_u16_app by (cbn; auto using length_replicate). cbn [mbind option_bind].
  rewrite (app_assoc (header_bytes _ _ _)), store_range_app by (cbn; auto using length_replicate).
  cbn [mbind option_bind].
  rewrite (app_assoc (_ ++ be16 _)), store_be_u16_app
    by (rewrite ?length_app, ?length_fmap; cbn; auto using length_replicate).
  cbn [mbind option_bind].
  rewrite (app_assoc (_ ++ (u8 <$> lq))).
  rewrite <- (app_nil_r (replicate (length lb) 0)), store_range_app
    by (rewrite ?length_app, ?length_fmap; cbn; auto using length_replicate; lia).
  rewrite !u8_bytes by apply string_bytes_byte. rewrite app_nil_r, <- !app_assoc.
  do 3 f_equal. f_equal. lia.
Qed.

(** The reader of the body gets back the two paths. *)
Definition metadata_body (b q : string) : list Z :=
  be16 (u16 (Z.of_nat (length (string_bytes q)))) ++ string_bytes q ++
  be16 (u16 (Z.of_nat (length (string_bytes b)))) ++ string_bytes b.

Lemma metadata_extract b q :
  Z.of_nat (length (string_bytes b)) < 65536 -> Z.of_nat (length (string_bytes q)) < 65536 ->
  extract_shm_metadata (metadata_body b q) = Some (b, q).
Proof.
  intros Hb Hq. unfold extract_shm_metadata, metadata_body.
  set (lb := string_bytes b) in *. set (lq := string_bytes q) in *.
  rewrite (load_be_u16_app [] _ _ 0 eq_refl : load_be_u16 (be16 _ ++ _) 0 = _).
  cbn [mbind option_bind].
  rewrite !u16_id by (rewrite ?u16_id; lia). rewrite !Nat2Z.id.
  rewrite (load_range_app (be16 _)) by reflexivity. cbn [mbind option_bind].
  rewrite (app_assoc (be16 _)), (load_be_u16_app (be16 _ ++ lq)) by (rewrite length_app; cbn; lia).
  cbn [mbind option_bind]. rewrite !u16_id by (rewrite ?u16_id; lia). rewrite Nat2Z.id.
  rewrite (app_assoc (be16 _ ++ lq)).
  rewrite load_range_end by (rewrite ?length_app; cbn; lia). cbn [mbind option_bind].
  unfold lb, lq. now rewrite !bytes_string_bytes.
Qed.

Lemma metadata_event t b q v :
  Z.of_nat (length (string_bytes b)) < 65536 -> Z.of_nat (length (string_bytes q)) < 65536 ->
  generate_shm_metadata t b q v =
  Some (header_bytes (8 + Z.of_nat (length (metadata_body b q))) v t ++ metadata_body b q).
Proof.
  intros Hb Hq. rewrite metadata_bytes. do 3 f_equal. unfold metadata_body.
  rewrite u32_id by lia. rewrite !length_app. cbn [length be16]. lia.
Qed.

(** The shared-memory metadata survives the wire.  For paths shorter than
    65536 bytes the event has the header of its type and version, its length
    field is the number of bytes written, and the reader of the body gets back
    the buffer path and the queue path. *)
Theorem metadata_roundtrip (t : EventType) (b q : string) (v : Z) :
  Z.of_nat (length (string_bytes b)) < 65536 -> Z.of_nat (length (string_bytes q)) < 65536 ->
  exists data, generate_shm_metadata t b q v = Some data /\
    Header.length data 0 = Some (Z.of_nat (length data)) /\
    Header.magic data 0 = Some kMagicNumber /\
    Header.version data 0 = Some (u8 v) /\ Header.msg_type data 0 = Some (u8 t) /\
    extract_shm_metadata (drop (Z.to_nat kHeaderSize) data) = Some (b, q).
Proof.
  intros Hb Hq. rewrite metadata_event by assumption. eexists. split; [reflexivity|].
  set (n := 8 + Z.of_nat (length (metadata_body b q))).
  destruct (header_fields n v t (metadata_body b q)) as (-> & -> & -> & ->).
  split; [|split; [reflexivity|split; [reflexivity|split; [reflexivity|]]]].
  - f_equal. rewrite length_app. change (length (header_bytes n v t)) with 8%nat.
    unfold n. rewrite u32_id; [lia|]. unfold metadata_body. rewrite !length_app. cbn [length be16]. lia.
  - change (Z.to_nat kHeaderSize) with (length (header_bytes n v t)).
    rewrite drop_app_length. now apply metadata_extract.
Qed.

Lemma metadata_roundtrip_witness : exists data,
  generate_shm_metadata kShareMemoryByMemfd "/shm_1_buffer" "/shm_1_queue_0" 3 = Some data /\
  extract_shm_metadata (drop (Z.to_nat kHeaderSize) data) = Some ("/shm_1_buffer", "/shm_1_queue_0").
Proof.
  destruct (metadata_roundtrip kShareMemoryByMemfd "/shm_1_buffer" "/shm_1_queue_0" 3)
    as (data & E & _ & _ & _ & _ & E'); [vm_compute; reflexivity..|].
  exists data. split; [exact E|exact E'].
Defined.

(** Every event the peers exchange is accepted by [check_event_valid], and
    nothing else is: an encoded header passes exactly when its version is not
    zero and its type is one of the ten, a zero version is an invalid version,
    an unknown type an invalid type. *)
Theorem check_event_valid_encoded (x b : list Z) (l v : Z) (t : EventType) :
  length x = 8%nat -> 0 <= v < 256 -> 0 <= t < 256 ->
  exists p, Header.encode (x ++ b) 0 l v t = Some p /\
    check_event_valid p 0 =
      Some (if v =? 0 then fail_with kInvalidVersion
            else if t <=? kMaxEventType then Ok tt else fail_with kInvalidMsgType).
Proof.
  intros Hx Hv Ht. rewrite encode_bytes by exact Hx. eexists. split; [reflexivity|].
  unfold check_event_valid. destruct (header_fields l v t b) as (_ & -> & -> & ->).
  cbn [mbind option_bind]. rewrite !u8_id by lia. rewrite Z.eqb_refl. cbn [negb orb].
  destruct (v =? 0); [reflexivity|]. unfold kMinEventType, kShareMemoryByFilePath.
  rewrite (Z.leb_antisym kMaxEventType t). destruct (Z.ltb_spec t 0); [lia|]. cbn [orb].
  now destruct (kMaxEventType <? t).
Qed.

Lemma check_event_valid_encoded_witness :
  check_event_valid (header_bytes 8 3 kPolling) 0 = Some (Ok tt).
Proof.
  destruct (check_event_valid_encoded (replicate 8 0) [] 8 3 kPolling) as (p & E & H);
    [reflexivity|split; [discriminate|reflexivity]|split; [discriminate|reflexivity]|].
  vm_compute in E. injection E as <-. exact H.
Defined.
