(* ===== verification/Stream.v ===== *)
(** Streams: [src/stream.cpp], [include/shmipc/stream.hpp], with the parts of
    [Session] a stream calls ([src/session.cpp]: [wait_for_send],
    [wake_up_peer], [open_circuit_breaker], [on_stream_close]) and
    [include/shmipc/stats.hpp].

    [SessionShared] is the state of one process's end of a session: its view of
    the shared memory of the buffers and of the queues, and the store of the
    [StreamInner] objects the stream handles share.  An operation takes the
    state and returns its result with the state after it; [None] is undefined
    behaviour or a call that never returns.  Other threads and the peer act
    where the source blocks: what they do there is an argument of the
    operation. *)
From S2P Require Import Prelude Errors Consts Config Shm Queue Slices Pool Linked Wire.

Definition kStreamOpened : Z := 0.
Definition kStreamClosed : Z := 1.
Definition kStreamHalfClosed : Z := 2.

Record BufferSliceWrapper := mkWrapper {
  fallback_slice : option BufferSlice;
  offset : Z;
}.

Record StreamInner := mkInner {
  recv_buf : LinkedBuffer;
  send_buf : LinkedBuffer;
  pending_data : list BufferSliceWrapper;
  state : Z;
  in_fallback_state : bool;
}.

Definition new_inner : StreamInner := mkInner LB.make LB.make [] kStreamOpened false.

(** A stream handle; [inner_] is the shared [StreamInner] it points to. *)
Record Stream := mkStream { inner_ : nat; id_ : Z; session_id_ : Z }.

Definition set_recv (i : StreamInner) (b : LinkedBuffer) : StreamInner :=
  mkInner b (send_buf i) (pending_data i) (state i) (in_fallback_state i).
Definition set_send (i : StreamInner) (b : LinkedBuffer) : StreamInner :=
  mkInner (recv_buf i) b (pending_data i) (state i) (in_fallback_state i).
Definition set_pending (i : StreamInner) (l : list BufferSliceWrapper) : StreamInner :=
  mkInner (recv_buf i) (send_buf i) l (state i) (in_fallback_state i).
Definition set_state (i : StreamInner) (s : Z) : StreamInner :=
  mkInner (recv_buf i) (send_buf i) (pending_data i) s (in_fallback_state i).
Definition set_fallback (i : StreamInner) (f : bool) : StreamInner :=
  mkInner (recv_buf i) (send_buf i) (pending_data i) (state i) f.

(** [Stats]; [alloc_shm_error_count], which no code touches, is left out. *)
Record Stats := mkStats {
  fallback_write_count : Z;
  fallback_read_count : Z;
  event_conn_error_count : Z;
  queue_full_error_count : Z;
  recv_polling_event_count : Z;
  send_polling_event_count : Z;
  out_flow_bytes : Z;
  in_flow_bytes : Z;
}.

(** What becomes of a message handed to the write loop: written to the socket;
    not accepted, as the channel was full until the timeout or is stopped; or
    accepted and dropped by the loop as it ends.  A message the loop leaves in
    the channel when it ends gets no answer: the call does not return. *)
Inductive send_answer := Sent | NotAccepted | Dropped.

(** [SessionShared], with the memory its pointers reach.  [outbox] holds the
    messages the send channel has accepted, in order; [answers] what happens to
    the ones [wait_for_send] is going to hand over. *)
Record SessionShared := mkShared {
  next_stream_id : Z;
  mem : memory;
  queues : shm;
  send_queue : Queue;
  recv_queue : Queue;
  communication_version : Z;
  pool_streams : list Stream;
  pool_capacity : Z;
  streams : gmap Z Stream;
  is_client : bool;
  shutdown : Z;
  unhealthy : Z;
  shutdown_err : option Error;
  outbox : list (list Z);
  send_stopped : bool;
  answers : list send_answer;
  accepted : option (list Stream);
  stats : Stats;
  inners : gmap nat StreamInner;
  next_inner : nat;
  debug_mode : bool;
}.

Definition set_next_id (s : SessionShared) (n : Z) : SessionShared :=
  mkShared n (mem s) (queues s) (send_queue s) (recv_queue s) (communication_version s)
    (pool_streams s) (pool_capacity s) (streams s) (is_client s) (shutdown s) (unhealthy s)
    (shutdown_err s) (outbox s) (send_stopped s) (answers s) (accepted s) (stats s) (inners s)
    (next_inner s) (debug_mode s).
Definition set_mem (s : SessionShared) (w : memory) : SessionShared :=
  mkShared (next_stream_id s) w (queues s) (send_queue s) (recv_queue s) (communication_version s)
    (pool_streams s) (pool_capacity s) (streams s) (is_client s) (shutdown s) (unhealthy s)
    (shutdown_err s) (outbox s) (send_stopped s) (answers s) (accepted s) (stats s) (inners s)
    (next_inner s) (debug_mode s).
Definition set_queues (s : SessionShared) (m : shm) : SessionShared :=
  mkShared (next_stream_id s) (mem s) m (send_queue s) (recv_queue s) (communication_version s)
    (pool_streams s) (pool_capacity s) (streams s) (is_client s) (shutdown s) (unhealthy s)
    (shutdown_err s) (outbox s) (send_stopped s) (answers s) (accepted s) (stats s) (inners s)
    (next_inner s) (debug_mode s).
Definition set_pool (s : SessionShared) (l : list Stream) : SessionShared :=
  mkShared (next_stream_id s) (mem s) (queues s) (send_queue s) (recv_queue s)
    (communication_version s) l (pool_capacity s) (streams s) (is_client s) (shutdown s)
    (unhealthy s) (shutdown_err s) (outbox s) (send_stopped s) (answers s) (accepted s) (stats s)
    (inners s) (next_inner s) (debug_mode s).
Definition set_streams (s : SessionShared) (t : gmap Z Stream) : SessionShared :=
  mkShared (next_stream_id s) (mem s) (queues s) (send_queue s) (recv_queue s)
    (communication_version s) (pool_streams s) (pool_capacity s) t (is_client s) (shutdown s)
    (unhealthy s) (shutdown_err s) (outbox s) (send_stopped s) (answers s) (accepted s) (stats s)
    (inners s) (next_inner s) (debug_mode s).
Definition set_shutdown (s : SessionShared) (v : Z) : SessionShared :=
  mkShared (next_stream_id s) (mem s) (queues s) (send_queue s) (recv_queue s)
    (communication_version s) (pool_streams s) (pool_capacity s) (streams s) (is_client s) v
    (unhealthy s) (shutdown_err s) (outbox s) (send_stopped s) (answers s) (accepted s) (stats s)
    (inners s) (next_inner s) (debug_mode s).
Definition set_unhealthy (s : SessionShared) (v : Z) : SessionShared :=
  mkShared (next_stream_id s) (mem s) (queues s) (send_queue s) (recv_queue s)
    (communication_version s) (pool_streams s) (pool_capacity s) (streams s) (is_client s)
    (shutdown s) v (shutdown_err s) (outbox s) (send_stopped s) (answers s) (accepted s) (stats s)
    (inners s) (next_inner s) (debug_mode s).
Definition set_shutdown_err (s : SessionShared) (e : option Error) : SessionShared :=
  mkShared (next_stream_id s) (mem s) (queues s) (send_queue s) (recv_queue s)
    (communication_version s) (pool_streams s) (pool_capacity s) (streams s) (is_client s)
    (shutdown s) (unhealthy s) e (outbox s) (send_stopped s) (answers s) (accepted s) (stats s)
    (inners s) (next_inner s) (debug_mode s).
Definition set_outbox (s : SessionShared) (l : list (list Z)) (a : list send_answer)
    : SessionShared :=
  mkShared (next_stream_id s) (mem s) (queues s) (send_queue s) (recv_queue s)
    (communication_version s) (pool_streams s) (pool_capacity s) (streams s) (is_client s)
    (shutdown s) (unhealthy s) (shutdown_err s) l (send_stopped s) a (accepted s) (stats s)
    (inners s) (next_inner s) (debug_mode s).
Definition set_stopped (s : SessionShared) : SessionShared :=
  mkShared (next_stream_id s) (mem s) (queues s) (send_queue s) (recv_queue s)
    (communication_version s) (pool_streams s) (pool_capacity s) (streams s) (is_client s)
    (shutdown s) (unhealthy s) (shutdown_err s) (outbox s) true (answers s) (accepted s) (stats s)
    (inners s) (next_inner s) (debug_mode s).
Definition set_accepted (s : SessionShared) (l : option (list Stream)) : SessionShared :=
  mkShared (next_stream_id s) (mem s) (queues s) (send_queue s) (recv_queue s)
    (communication_version s) (pool_streams s) (pool_capacity s) (streams s) (is_client s)
    (shutdown s) (unhealthy s) (shutdown_err s) (outbox s) (send_stopped s) (answers s) l (stats s)
    (inners s) (next_inner s) (debug_mode s).
Definition set_stats (s : SessionShared) (t : Stats) : SessionShared :=
  mkShared (next_stream_id s) (mem s) (queues s) (send_queue s) (recv_queue s)
    (communication_version s) (pool_streams s) (pool_capacity s) (streams s) (is_client s)
    (shutdown s) (unhealthy s) (shutdown_err s) (outbox s) (send_stopped s) (answers s)
    (accepted s) t (inners s) (next_inner s) (debug_mode s).
Definition set_inners (s : SessionShared) (t : gmap nat StreamInner) (n : nat) : SessionShared :=
  mkShared (next_stream_id s) (mem s) (queues s) (send_queue s) (recv_queue s)
    (communication_version s) (pool_streams s) (pool_capacity s) (streams s) (is_client s)
    (shutdown s) (unhealthy s) (shutdown_err s) (outbox s) (send_stopped s) (answers s)
    (accepted s) (stats s) t n (debug_mode s).

(** [x.fetch_add(n)] on the counters. *)
Definition add_fallback_write (t : Stats) : Stats :=
  mkStats (u64 (fallback_write_count t + 1)) (fallback_read_count t) (event_conn_error_count t)
    (queue_full_error_count t) (recv_polling_event_count t) (send_polling_event_count t)
    (out_flow_bytes t) (in_flow_bytes t).
Definition add_fallback_read (t : Stats) : Stats :=
  mkStats (fallback_write_count t) (u64 (fallback_read_count t + 1)) (event_conn_error_count t)
    (queue_full_error_count t) (recv_polling_event_count t) (send_polling_event_count t)
    (out_flow_bytes t) (in_flow_bytes t).
Definition add_conn_error (t : Stats) : Stats :=
  mkStats (fallback_write_count t) (fallback_read_count t) (u64 (event_conn_error_count t + 1))
    (queue_full_error_count t) (recv_polling_event_count t) (send_polling_event_count t)
    (out_flow_bytes t) (in_flow_bytes t).
Definition add_queue_full (t : Stats) : Stats :=
  mkStats (fallback_write_count t) (fallback_read_count t) (event_conn_error_count t)
    (u64 (queue_full_error_count t + 1)) (recv_polling_event_count t) (send_polling_event_count t)
    (out_flow_bytes t) (in_flow_bytes t).
Definition add_recv_polling (t : Stats) : Stats :=
  mkStats (fallback_write_count t) (fallback_read_count t) (event_conn_error_count t)
    (queue_full_error_count t) (u64 (recv_polling_event_count t + 1)) (send_polling_event_count t)
    (out_flow_bytes t) (in_flow_bytes t).
Definition add_send_polling (t : Stats) : Stats :=
  mkStats (fallback_write_count t) (fallback_read_count t) (event_conn_error_count t)
    (queue_full_error_count t) (recv_polling_event_count t) (u64 (send_polling_event_count t + 1))
    (out_flow_bytes t) (in_flow_bytes t).
Definition add_out_flow (t : Stats) (n : Z) : Stats :=
  mkStats (fallback_write_count t) (fallback_read_count t) (event_conn_error_count t)
    (queue_full_error_count t) (recv_polling_event_count t) (send_polling_event_count t)
    (u64 (out_flow_bytes t + n)) (in_flow_bytes t).
Definition add_in_flow (t : Stats) (n : Z) : Stats :=
  mkStats (fallback_write_count t) (fallback_read_count t) (event_conn_error_count t)
    (queue_full_error_count t) (recv_polling_event_count t) (send_polling_event_count t)
    (out_flow_bytes t) (u64 (in_flow_bytes t + n)).

Definition inner_of (s : SessionShared) (st : Stream) : option StreamInner :=
  inners s !! inner_ st.
Definition put_inner (s : SessionShared) (st : Stream) (i : StreamInner) : SessionShared :=
  set_inners s (<[inner_ st := i]> (inners s)) (next_inner s).

(** * What a stream asks of its session *)

(** [Session::wait_for_send].  A stopped channel refuses the message at once. *)
Definition wait_for_send (s : SessionShared) (hdr : option (list Z)) (body : list Z)
    : result unit * SessionShared :=
  let ready := default [] hdr ++ body in
  if send_stopped s then (fail_with kConnectionWriteTimeout, s) else
  match head (answers s) with
  | Some NotAccepted =>
      (fail_with kConnectionWriteTimeout, set_outbox s (outbox s) (tail (answers s)))
  | Some Dropped =>
      (Unexpected (error_other "wait for send failed, error=channel closed"),
       set_outbox s (outbox s ++ [ready]) (tail (answers s)))
  | Some Sent | None => (Ok tt, set_outbox s (outbox s ++ [ready]) (tail (answers s)))
  end.

(** [Session::wake_up_peer]; the result of [send] is not looked at. *)
Definition wake_up_peer (s : SessionShared) : option (result unit * SessionShared) :=
  '(marked, m) ← mark_working (queues s) (send_queue s);
  let s := set_queues s m in
  if negb marked then Some (Ok tt, s) else
  let s := set_stats s (add_send_polling (stats s)) in
  events ← polling_event_with_version;
  ready ← events !! Z.to_nat (communication_version s);
  Some (Ok tt, if send_stopped s then s else set_outbox s (outbox s ++ [ready]) (answers s)).

(** [Session::open_circuit_breaker], without the thread that clears the mark
    after thirty seconds ([close_circuit_breaker]). *)
Definition open_circuit_breaker (s : SessionShared) : SessionShared :=
  if debug_mode s then s else if unhealthy s =? 0 then set_unhealthy s 1 else s.
Definition close_circuit_breaker (s : SessionShared) : SessionShared := set_unhealthy s 0.

Definition on_stream_close (s : SessionShared) (id : Z) : SessionShared :=
  set_streams s (delete id (streams s)).

Module StreamOps.
(** [Stream::Stream]. *)
Definition make (s : SessionShared) (id session_id : Z) : Stream * SessionShared :=
  (mkStream (next_inner s) id session_id,
   set_inners s (<[next_inner s := new_inner]> (inners s)) (S (next_inner s))).

Definition is_open (i : StreamInner) : bool := state i =? kStreamOpened.
Definition fallback_state (i : StreamInner) : bool := in_fallback_state i.
Definition half_close (i : StreamInner) : StreamInner :=
  if state i =? kStreamOpened then set_state i kStreamHalfClosed else i.

Section ops.
Variable ops : PoolOps.
(** Bound on the slices of one message; a chain that is longer, or that runs in
    a circle, is [None]. *)
Variable fuel : nat.

(** ** The read path *)

(** The inner loop of [move_pending_data], over the slices of one message. *)
Fixpoint move_chain (fuel : nat) (w : memory) (b : LinkedBuffer) (offset : Z)
    : option (memory * LinkedBuffer) :=
  match fuel with
  | O => None
  | S fuel' =>
      r ← read_buffer_slice ops (shared w) offset;
      match r with
      | Unexpected _ => Some (w, b)
      | Ok slice =>
          has_next ← match buffer_header slice with
                     | Some h => BufferHeader.has_next (shared w) h
                     | None => Some false
                     end;
          if Slice.size slice =? 0 then
            h ← buffer_header slice;
            next_offset ← BufferHeader.next_buffer_offset (shared w) h;
            w ← recycle_buffer ops w slice;
            if (has_next : bool) then move_chain fuel' w b next_offset else
            match back_ (slice_list_ b) with
            | None => Some (w, b)
            | Some p =>
                back ← SList.deref (slice_list_ b) p;
                match buffer_header back with
                | None => Some (w, b)
                | Some h =>
                    m ← BufferHeader.clear_flag (shared w) h;
                    m ← BufferHeader.set_in_used m h;
                    Some (set_shared w m, b)
                end
            end
          else if negb has_next then b ← LB.append_buffer_slice b slice; Some (w, b)
          else
            h ← buffer_header slice;
            offset ← BufferHeader.next_buffer_offset (shared w) h;
            b ← LB.append_buffer_slice b slice;
            move_chain fuel' w b offset
      end
  end.

(** The outer loop, over the pending messages. *)
Fixpoint move_all (w : memory) (b : LinkedBuffer) (fallback : bool)
    (l : list BufferSliceWrapper) : option (memory * LinkedBuffer * bool) :=
  match l with
  | [] => Some (w, b, fallback)
  | data :: l' =>
      match fallback_slice data with
      | Some slice => b ← LB.append_buffer_slice b slice; move_all w b true l'
      | None => '(w, b) ← move_chain fuel w b (offset data); move_all w b fallback l'
      end
  end.

Definition move_pending_data (s : SessionShared) (st : Stream) : option SessionShared :=
  i ← inner_of s st;
  let pending := pending_data i in
  let i := set_pending i [] in
  match pending with
  | [] => Some (put_inner s st i)
  | _ =>
      let pre_len := LB.len (recv_buf i) in
      '(w, b, fb) ← move_all (mem s) (recv_buf i) (in_fallback_state i) pending;
      let s := put_inner (set_mem s w) st (set_fallback (set_recv i b) fb) in
      Some (set_stats s (add_in_flow (stats s) (u64 (LB.len b - pre_len))))
  end.

(** The loop of [read_more].  Each element of [wakes] is what the other threads
    and the peer have done by the time the condition variable is looked at
    again; when it runs out before the condition holds, the call blocks. *)
Fixpoint read_wait (wakes : list (SessionShared -> SessionShared)) (min_size : Z)
    (s : SessionShared) (st : Stream) : option (result unit * SessionShared) :=
  i ← inner_of s st;
  let ready := match pending_data i with
               | [] => negb (state i =? kStreamOpened)
               | _ => true
               end in
  if ready then
    s ← move_pending_data s st;
    i ← inner_of s st;
    if min_size <=? LB.len (recv_buf i) then Some (Ok tt, s) else
    if negb (state i =? kStreamOpened) then
      if state i =? kStreamHalfClosed then Some (fail_with kEndOfStream, s)
      else Some (fail_with Errors.kStreamClosed, s)
    else match wakes with
         | [] => None
         | wake :: wakes' => read_wait wakes' min_size (wake s) st
         end
  else match wakes with
       | [] => None
       | wake :: wakes' => read_wait wakes' min_size (wake s) st
       end.

Definition read_more (wakes : list (SessionShared -> SessionShared)) (min_size : Z)
    (s : SessionShared) (st : Stream) : option (result unit * SessionShared) :=
  s ← move_pending_data s st;
  i ← inner_of s st;
  let recv_len := LB.len (recv_buf i) in
  if min_size <=? recv_len then Some (Ok tt, s) else
  if (recv_len =? 0) && negb (state i =? kStreamOpened) then Some (fail_with kEndOfStream, s)
  else read_wait wakes min_size s st.

(** [buf.read_bytes(size)] on the receive buffer. *)
Definition recv_read (s : SessionShared) (st : Stream) (size : Z)
    : option (result Buf * SessionShared) :=
  i ← inner_of s st;
  '(r, w, b) ← LB.read_bytes ops (mem s) (recv_buf i) size;
  Some (r, put_inner (set_mem s w) st (set_recv i b)).

Definition read (wakes : list (SessionShared -> SessionShared)) (s : SessionShared) (st : Stream)
    : option (result Buf * SessionShared) :=
  i ← inner_of s st;
  '(r, s) ← (if LB.is_empty (recv_buf i) then read_more wakes 1 s st else Some (Ok tt, s));
  match r with
  | Unexpected e => Some (Unexpected e, s)
  | Ok _ => i ← inner_of s st; recv_read s st (LB.len (recv_buf i))
  end.

(** [if (buf.len() < size) read_more(size, buf)], the start of the next three. *)
Definition ensure (wakes : list (SessionShared -> SessionShared)) (s : SessionShared)
    (st : Stream) (size : Z) : option (result unit * SessionShared) :=
  i ← inner_of s st;
  if LB.len (recv_buf i) <? size then read_more wakes size s st else Some (Ok tt, s).

Definition read_bytes (wakes : list (SessionShared -> SessionShared)) (s : SessionShared)
    (st : Stream) (size : Z) : option (result Buf * SessionShared) :=
  '(r, s) ← ensure wakes s st size;
  match r with
  | Unexpected e => Some (Unexpected e, s)
  | Ok _ => recv_read s st size
  end.

Definition peek (wakes : list (SessionShared -> SessionShared)) (s : SessionShared)
    (st : Stream) (size : Z) : option (result Buf * SessionShared) :=
  '(r, s) ← ensure wakes s st size;
  match r with
  | Unexpected e => Some (Unexpected e, s)
  | Ok _ =>
      i ← inner_of s st;
      '(r, b) ← LB.peek (mem s) (recv_buf i) size;
      Some (r, put_inner s st (set_recv i b))
  end.

Definition discard (wakes : list (SessionShared -> SessionShared)) (s : SessionShared)
    (st : Stream) (size : Z) : option (result Z * SessionShared) :=
  '(r, s) ← ensure wakes s st size;
  match r with
  | Unexpected e => Some (Unexpected e, s)
  | Ok _ =>
      i ← inner_of s st;
      '(r, w, b) ← LB.discard ops (mem s) (recv_buf i) size;
      Some (r, put_inner (set_mem s w) st (set_recv i b))
  end.

(** ** The write path *)

Definition reserve (s : SessionShared) (st : Stream) (size : Z)
    : option (result span * SessionShared) :=
  i ← inner_of s st;
  '(r, w, b) ← LB.reserve ops (mem s) (send_buf i) size;
  Some (r, put_inner (set_mem s w) st (set_send i b)).

Definition write_bytes (s : SessionShared) (st : Stream) (data : list Z)
    : option (result Z * SessionShared) :=
  i ← inner_of s st;
  '(r, w, b) ← LB.write_bytes ops (mem s) (send_buf i) data;
  Some (r, put_inner (set_mem s w) st (set_send i b)).

(** [send_buf.recycle()] and [send_buf.clean()]. *)
Definition recycle_send (s : SessionShared) (st : Stream) : option SessionShared :=
  i ← inner_of s st;
  '(w, b) ← LB.recycle ops (mem s) (send_buf i);
  Some (put_inner (set_mem s w) st (set_send i b)).
Definition clean_send (s : SessionShared) (st : Stream) : option SessionShared :=
  i ← inner_of s st;
  '(w, b) ← LB.clean (mem s) (send_buf i);
  Some (put_inner (set_mem s w) st (set_send i b)).

(** The loop of [write_fallback] over the slices, up to the write cursor: from
    the start of each slice as many bytes as are unread. *)
Fixpoint fallback_bytes (w : memory) (write : option nat) (ns : list (nat * BufferSlice))
    : option (list Z) :=
  match ns with
  | [] => Some []
  | (p, s) :: ns' =>
      bytes ← read_place w (Slices.data s) 0 (u64 (write_index s - read_index s));
      if bool_decide (write = Some p) then Some bytes else
      more ← fallback_bytes w write ns';
      Some (bytes ++ more)
  end.

Definition write_fallback (s : SessionShared) (st : Stream) (stream_status : Z)
    : option (result unit * SessionShared) :=
  i ← inner_of s st;
  let buf := send_buf i in
  let buf_len := LB.len buf in
  if UINT32_MAX - 16 <? buf_len then
    s ← recycle_send s st; Some (fail_with kNoMoreBuffer, s)
  else
  event ← FallbackDataEvent.encode (replicate 16 0) (u32 (buf_len + 16))
            (communication_version s) (id_ st) stream_status;
  event ← FallbackDataEvent.as_slice event;
  bytes ← fallback_bytes (mem s) (write_ (slice_list_ buf)) (nodes (slice_list_ buf));
  s ← recycle_send s st;
  let s := open_circuit_breaker s in
  let s := set_stats s (add_fallback_write (stats s)) in
  Some (wait_for_send s None (event ++ bytes)).

(** [send_queue.put(QueueElement{id_, root_buf_offset(), state})]. *)
Definition put_message (s : SessionShared) (st : Stream) (st_state : Z)
    : option (result unit * SessionShared) :=
  i ← inner_of s st;
  root ← LB.root_buf_offset (send_buf i);
  '(r, m) ← put (queues s) (send_queue s) (mkElem (id_ st) root st_state);
  Some (r, set_queues s m).

(** The message is in the queue: the peer is woken up and the slices are its. *)
Definition published (s : SessionShared) (st : Stream) : option (result unit * SessionShared) :=
  '(ret, s) ← wake_up_peer s;
  s ← clean_send s st;
  Some (ret, s).

(** The retries of [flush] on a full queue.  [during n] is what the other
    threads and the peer do in the wait with [n] more to go. *)
Fixpoint flush_retry (during : nat -> SessionShared -> SessionShared) (retries : nat)
    (s : SessionShared) (st : Stream) (st_state : Z) : option (result unit * SessionShared) :=
  match retries with
  | O => s ← recycle_send s st; Some (fail_with kQueueFull, s)
  | S retries' =>
      let s := during retries' s in
      i ← inner_of s st;
      if negb (state i =? kStreamOpened) then
        s ← recycle_send s st; Some (fail_with Errors.kStreamClosed, s)
      else
      '(r, s) ← put_message s st st_state;
      match r with
      | Ok _ => published s st
      | Unexpected e =>
          if error_is e kQueueFull then flush_retry during retries' s st st_state
          else s ← recycle_send s st; Some (Unexpected e, s)
      end
  end.

Definition flush (during : nat -> SessionShared -> SessionShared) (s : SessionShared)
    (st : Stream) : option (result unit * SessionShared) :=
  i ← inner_of s st;
  if LB.is_empty (send_buf i) then Some (Ok tt, s) else
  let s := set_stats s (add_out_flow (stats s) (LB.len (send_buf i))) in
  let st_state := state i in
  if negb (st_state =? kStreamOpened) then
    s ← recycle_send s st; Some (fail_with Errors.kStreamClosed, s)
  else
  '(w, b) ← LB.done ops (mem s) (send_buf i);
  let i := set_send i b in
  let i := if LB.is_from_share_memory b then i else set_fallback i true in
  let s := put_inner (set_mem s w) st i in
  if in_fallback_state i then
    '(ret, s) ← write_fallback s st st_state;
    s ← clean_send s st;
    Some (ret, s)
  else
  '(r, s) ← put_message s st st_state;
  match r with
  | Ok _ => published s st
  | Unexpected e =>
      if error_is e kQueueFull then
        let s := set_stats s (add_queue_full (stats s)) in
        flush_retry during 10 s st st_state
      else s ← recycle_send s st; Some (Unexpected e, s)
  end.

(** ** Lifecycle *)

(** The loop of [clean_pending_data]; an offset that does not name a slice ends
    it, and what was still pending is lost. *)
Fixpoint clean_pending (w : memory) (l : list BufferSliceWrapper) : option memory :=
  match l with
  | [] => Some w
  | data :: l' =>
      match fallback_slice data with
      | Some slice => clean_pending (Slice.destroy w slice) l'
      | None =>
          r ← read_buffer_slice ops (shared w) (offset data);
          match r with
          | Unexpected _ => Some w
          | Ok slice => w ← recycle_buffers ops fuel w slice; clean_pending w l'
          end
      end
  end.

Definition clean_pending_data (s : SessionShared) (st : Stream) : option SessionShared :=
  i ← inner_of s st;
  w ← clean_pending (mem s) (pending_data i);
  Some (put_inner (set_mem s w) st (set_pending i [])).

(** [recv_buf.recycle()]. *)
Definition recycle_recv (s : SessionShared) (st : Stream) : option SessionShared :=
  i ← inner_of s st;
  '(w, b) ← LB.recycle ops (mem s) (recv_buf i);
  Some (put_inner (set_mem s w) st (set_recv i b)).

Definition clean (s : SessionShared) (st : Stream) : option SessionShared :=
  let s := on_stream_close s (id_ st) in
  s ← clean_pending_data s st;
  s ← recycle_recv s st;
  recycle_send s st.

Definition reset (s : SessionShared) (st : Stream) : option (result unit * SessionShared) :=
  i ← inner_of s st;
  if negb (state i =? kStreamOpened) then Some (fail_with Errors.kStreamClosed, s) else
  let unread_size := LB.len (recv_buf i) in
  if 0 <? unread_size then
    Some (Unexpected (with_size kStreamHasUnreadData unread_size), s)
  else
  let pending_data_len := Z.of_nat (length (pending_data i)) in
  if 0 <? pending_data_len then
    Some (Unexpected (with_size kStreamHasPendingData pending_data_len), s)
  else Some (Ok tt, put_inner s st (set_fallback i false)).

Definition release_read_and_reuse (s : SessionShared) (st : Stream) : option SessionShared :=
  i ← inner_of s st;
  '(w, b) ← LB.release_previous_read_and_reserve ops (mem s) (recv_buf i);
  let i := set_recv i b in
  let i := if LB.is_empty b && (SList.size (slice_list_ b) =? 1)
           then set_send (set_recv i (send_buf i)) b else i in
  Some (put_inner (set_mem s w) st i).

Definition fill_data_to_read_buffer (s : SessionShared) (st : Stream) (d : BufferSliceWrapper)
    : option (result unit * SessionShared) :=
  i ← inner_of s st;
  let s := put_inner s st (set_pending i (pending_data i ++ [d])) in
  if state i =? kStreamClosed then
    s ← clean_pending_data s st;
    s ← recycle_recv s st;
    Some (Ok tt, s)
  else Some (Ok tt, s).

Definition close (s : SessionShared) (st : Stream) : option (result unit * SessionShared) :=
  i ← inner_of s st;
  let old_state := state i in
  let s := put_inner s st (set_state i kStreamClosed) in
  if old_state =? kStreamClosed then Some (Ok tt, s) else
  s ← clean s st;
  if negb (old_state =? kStreamOpened) then Some (Ok tt, s) else
  if shutdown s =? 1 then Some (Ok tt, s) else
  '(sent, s) ← (if negb (in_fallback_state i) then
                  '(r, m) ← put (queues s) (send_queue s) (mkElem (id_ st) 0 kStreamClosed);
                  let s := set_queues s m in
                  if is_ok r then Some (true, s)
                  else Some (false, set_stats s (add_queue_full (stats s)))
                else Some (false, s));
  if (sent : bool) then wake_up_peer s else
  event ← stream_close_event (communication_version s) (id_ st);
  Some (wait_for_send s None event).
End ops.
End StreamOps.
