(* ===== verification/StreamRecv.v ===== *)
(** The receive path of a stream ([Stream::move_pending_data], [read_more] and
    the reading operations of [src/stream.cpp]): the pending messages are moved
    to the receive buffer in order, without loss, and their empty slices go
    back to the pool.  The theorems are about any pool with the laws of
    [Pool]. *)
From S2P Require Import Prelude Errors Consts Config Shm Queue Slices Pool Linked.
From S2P Require Import LinkedWrite LinkedRead Wire Stream.

Section receive.
Context {ops : PoolOps} `{!Pool ops}.

(** * Changes around a buffer that is being read *)

(** Other slots change hands; what the buffer holds stays. *)
Lemma readable_agree w w' b rest rest' xs : readable w b rest xs -> agree w w' (held b) ->
  own (shared w') (slots_in (held b) ++ rest') -> heap_ok w' -> readable w' b rest' xs.
Proof.
  intros [[Hci Hl Hp Hps Hb] Hlen] Hag Hown Hh. split; [|exact Hlen]. constructor; auto.
  - eapply chain_inv_agree; eauto.
  - rewrite <- Hb. unfold held in Hag. apply (agree_list w w').
    + eapply agree_incl; [exact Hag|set_solver].
    + pose proof (ci_wf _ _ _ Hci) as Hwf. unfold held in Hwf. now apply Forall_app in Hwf.
Qed.

(** Two slots that are out are the same or do not overlap. *)
Lemma own_apart m held s t : own m held -> s ∈ held -> t ∈ held ->
  s = t \/ s.1 + 20 + s.2 <= t.1 \/ t.1 + 20 + t.2 <= s.1.
Proof.
  intros Hown Hs Ht. destruct (decide (s = t)) as [->|Hne]; [now left|]. right.
  apply list_elem_of_split in Hs as (a & c & ->).
  eapply (own_disjoint m s (a ++ c) t); [|set_solver].
  eapply own_perm; [|exact Hown]. symmetry. apply Permutation_middle.
Qed.

(** Headers change; the bytes of a slice do not. *)
Lemma headers_slice w m' ts out s : own (shared w) out -> ts ⊆ out ->
  headers_only ts (shared w) m' -> slice_wf w s -> (forall u, slot_of s = Some u -> u ∈ out) ->
  slice_wf (set_shared w m') s /\
  forall off n, 0 <= off -> off + n <= cap s ->
    stored (set_shared w m') (data s) off n = stored w (data s) off n.
Proof.
  intros Hown Hi [Hl Hh] Hwf Hs.
  destruct Hwf as [u Hu Hu0 Hue H1 H2 H3|id l Hf Hhd Hd Hlk Hlen H1 H2 H3].
  - split; [apply (wf_shm _ _ u); auto; cbn; lia|]. intros off n Ho Hle.
    pose proof Hu as [_ Hd Hc _ _]. rewrite Hd. cbn. symmetry. apply get_bytes_ext.
    intros b Hb. apply Hh. intros (t & Ht & Hb').
    destruct (slot_of_slice u s Hu) as [Eu _]. specialize (Hs u Eu).
    assert (0 < t.2) by (apply (own_slot _ _ t Hown); set_solver).
    destruct (own_apart _ _ t u Hown) as [->|[?|?]]; auto; lia.
  - split; [eapply wf_heap; eauto|]. intros off n _ _. rewrite Hd. reflexivity.
Qed.

Lemma headers_bytes w m' ts out ss : own (shared w) out -> ts ⊆ out ->
  headers_only ts (shared w) m' -> Forall (slice_wf w) ss -> slots_in ss ⊆ out ->
  Forall (slice_wf (set_shared w m')) ss /\ list_bytes (set_shared w m') ss = list_bytes w ss.
Proof.
  intros Hown Hi Hh Hwf Hs. rewrite Forall_forall in Hwf.
  assert (forall s, s ∈ ss -> slice_wf (set_shared w m') s /\
    slice_bytes (set_shared w m') s = slice_bytes w s) as Hall.
  { intros s Hin. specialize (Hwf s Hin).
    destruct (headers_slice w m' ts out s Hown Hi Hh Hwf) as [Hwf' Hst].
    { intros u Eu. apply Hs. apply list_elem_of_omap. eauto. }
    split; [exact Hwf'|]. destruct (slice_bytes_wf _ _ Hwf) as [-> _].
    destruct (slice_bytes_wf _ _ Hwf') as [-> _]. destruct (slice_wf_index _ _ Hwf) as (? & ? & ? & -> & _).
    apply Hst; lia. }
  split; [apply Forall_forall; intros s Hin; now apply Hall|].
  unfold list_bytes. f_equal. apply list_fmap_ext. intros i s Hi'.
  apply list_elem_of_lookup_2 in Hi'. now apply Hall.
Qed.

(** What moving messages to the buffer [b] does besides: the views that are
    out stay, the heap and the slots of others are not touched. *)
Record received (w w' : memory) (b b' : LinkedBuffer) (rest : list slot) : Prop := {
  rv_views : forall sp, viewed b sp -> viewed b' sp /\ span_bytes w' sp = span_bytes w sp;
  rv_heap : heap w' = heap w;
  rv_next : heap_next w' = heap_next w;
  rv_keeps : keeps rest (shared w) (shared w');
  rv_pinned : pinned_list_ b' = pinned_list_ b;
}.

Lemma received_refl w b rest : received w w b b rest.
Proof. constructor; auto using keeps_refl. Qed.
Lemma received_trans w1 w2 w3 b1 b2 b3 rest : received w1 w2 b1 b2 rest ->
  received w2 w3 b2 b3 rest -> received w1 w3 b1 b3 rest.
Proof.
  intros [V1 H1 N1 K1 P1] [V2 H2 N2 K2 P2].
  constructor; try congruence; [|eapply keeps_trans; eauto].
  intros sp Hv. destruct (V1 sp Hv) as [Hv1 E1]. destruct (V2 sp Hv1) as [Hv2 E2]. split; congruence.
Qed.

Lemma received_append w b b' rest s : slices (slice_list_ b') = slices (slice_list_ b) ++ [s] ->
  pinned_list_ b' = pinned_list_ b -> current_pinned_ b' = current_pinned_ b ->
  received w w b b' rest.
Proof.
  intros Es Ep Ec. constructor; auto using keeps_refl. intros sp (x & Hx & Hin & Hrest).
  split; [|reflexivity]. exists x. split; [exact Hx|]. split; [|exact Hrest].
  rewrite Ep, Ec, Es. destruct Hin as [?|[? Hh]]; [now left|right]. split; [assumption|].
  now destruct (slices (slice_list_ b)).
Qed.

(** A slot of others is taken by the pool. *)
Lemma received_recycle w b rest rest' xs t s : readable w b (t :: rest) xs -> slice_of t s ->
  Z.testbit (slot_flag (shared w) t) 1 = true -> rest' ⊆ rest ->
  exists m', recycle_buffer ops w s = Some (set_shared w m') /\
    readable (set_shared w m') b rest xs /\ received w (set_shared w m') b b rest' /\
    keeps rest (shared w) m'.
Proof.
  intros Hr Hs Hbit Hi. pose proof Hr as [[Hci _ _ _ _] _]. pose proof (ci_own _ _ _ Hci) as Hown.
  destruct (recycle_law w (slots_in (held b) ++ rest) t s) as (m' & E & Hown' & Hk); auto.
  { eapply own_perm; [|exact Hown]. symmetry. apply Permutation_middle. }
  exists m'. split; [exact E|].
  assert (agree w (set_shared w m') (held b)) as Hag.
  { split; [|reflexivity]. eapply keeps_incl; [exact Hk|set_solver]. }
  split; [apply (readable_agree w _ b (t :: rest)); auto; apply (ci_heap _ _ _ Hci)|].
  split; [|eapply keeps_incl; [exact Hk|set_solver]].
  constructor; auto; [|eapply keeps_incl; [exact Hk|set_solver]].
  intros sp Hv. split; [exact Hv|].
  destruct (view_wf w b _ xs sp (proj1 Hr) Hv) as (x & Hx & Hwx & Hd & H1 & H2 & H3).
  eapply view_agree; eauto.
Qed.

(** The header flags of the buffer's own slices are rewritten to in use. *)
Lemma received_flag w b rest xs s t : readable w b rest xs -> s ∈ held b -> slot_of s = Some t ->
  let m' := put8 (put8 (shared w) (t.1 + 16) 0) (t.1 + 16) 2 in
  readable (set_shared w m') b rest xs /\ received w (set_shared w m') b b rest.
Proof.
  intros Hr Hs Et m'. pose proof Hr as [[Hci Hl Hp Hps Hb] Hlen].
  pose proof Hci as [Hown Hwf Hids Hheap Huse].
  assert (t ∈ slots_in (held b)) as Hin by (apply list_elem_of_omap; eauto).
  assert (headers_only [t] (shared w) m') as Hh.
  { apply same_but_put8; [apply same_but_put8; [apply same_but_refl|]|]; exists t; split;
      [constructor|lia|constructor|lia]. }
  destruct (headers_bytes w m' [t] (slots_in (held b) ++ rest) (held b)) as [Hwf' _]; auto;
    [set_solver|set_solver|].
  assert (own m' (slots_in (held b) ++ rest)) as Hown'.
  { eapply own_write; [exact Hown|]. eapply same_but_weaken; [exact Hh|].
    intros x (u & Hu%list_elem_of_singleton & Hx). subst u. exists t. split; [set_solver|].
    unfold in_user. destruct (own_slot _ _ t Hown) as (_ & ? & _); [set_solver|]. lia. }
  split; [split; [constructor; auto|exact Hlen]|constructor; auto].
  - constructor; auto. unfold in_use in *. rewrite Forall_forall in *. intros u Hu.
    unfold slot_flag. cbn [shared set_shared]. unfold m'. rewrite !get8_put8.
    destruct (decide (t.1 + 16 = u.1 + 16)); [reflexivity|]. apply Huse, Hu.
  - rewrite <- Hb. apply Forall_app in Hwf as [Hwl _].
    apply (headers_bytes w m' [t] (slots_in (held b) ++ rest)); auto; [set_solver|].
    unfold held. rewrite slots_in_app. set_solver.
  - intros sp Hv. split; [exact Hv|].
    destruct (view_wf w b _ xs sp (proj1 Hr) Hv) as (x & Hx & Hwx & Hd & H1 & H2 & H3).
    destruct (headers_slice w m' [t] (slots_in (held b) ++ rest) x) as [Hwx' E]; auto; [set_solver| |].
    { intros u Eu. apply elem_of_app. left. apply list_elem_of_omap. eauto. }
    unfold span_bytes. rewrite Hd. destruct (read_wf w x (sp_off sp) (sp_len sp) Hwx) as [-> _]; auto.
    destruct (read_wf _ x (sp_off sp) (sp_len sp) Hwx') as [-> _]; auto. now rewrite E.
  - cbn. eapply (headers_keeps _ _ (slots_in (held b))); [exact Hown|].
    eapply same_but_weaken; [exact Hh|]. intros x (u & Hu%list_elem_of_singleton & Hx). subst u. eauto.
Qed.

(** * Messages *)

(** A message in the pool with the bytes [bs]: its slots from [t] on, each
    linked to the next, with headers that describe the bytes. *)
Definition message (w : memory) (t : slot) (ts : list slot) (bs : list Z) : Prop :=
  msg_chain (shared w) (t :: ts) /\ Forall (slice_wf w) (read_slice (shared w) <$> t :: ts) /\
  list_bytes w (read_slice (shared w) <$> t :: ts) = bs.

Lemma slots_in_read m ts : slots_in (read_slice m <$> ts) = ts.
Proof.
  unfold slots_in. induction ts as [|t ts IH]; cbn; [reflexivity|]. rewrite IH. now destruct t.
Qed.
Lemma storages_in_read m ts : storages_in (read_slice m <$> ts) = [].
Proof. unfold storages_in. now induction ts. Qed.

Lemma message_keeps w w' t ts bs : message w t ts bs -> keeps (t :: ts) (shared w) (shared w') ->
  (forall u, u ∈ t :: ts -> 0 < u.2) -> message w' t ts bs.
Proof.
  intros (Hc & Hwf & Hb) Hk Hp.
  assert (read_slice (shared w') <$> t :: ts = read_slice (shared w) <$> t :: ts) as E.
  { apply list_fmap_ext. intros i u Hu. apply list_elem_of_lookup_2 in Hu.
    apply message_read; [|auto]. eapply keeps_incl; [exact Hk|set_solver]. }
  unfold message. rewrite E.
  destruct (agree_list w w' (read_slice (shared w) <$> t :: ts)) as [Hwf' Hb']; auto.
  { split; [now rewrite slots_in_read|]. rewrite storages_in_read. intros id Hid.
    now apply not_elem_of_nil in Hid. }
  split; [|split; [exact Hwf'|congruence]]. eapply msg_chain_keeps; eauto.
Qed.

Lemma message_tail w t u ts bs : message w t (u :: ts) bs ->
  exists bs', message w u ts bs' /\ bs = slice_bytes w (read_slice (shared w) t) ++ bs' /\
    Z.testbit (slot_flag (shared w) t) 0 = true /\ get32 (shared w) (t.1 + 12) = u.1.
Proof.
  intros ((_ & (Hf & Hn) & Hc) & Hwf & Hb). rewrite fmap_cons in *.
  apply Forall_cons_1 in Hwf as [_ Hwf]. rewrite list_bytes_cons in Hb.
  eexists. split; [split; [exact Hc|split; [exact Hwf|reflexivity]]|]. auto.
Qed.

(** The first slice of a message is read. *)
Lemma message_head w t ts bs out : message w t ts bs -> own (shared w) out -> t ∈ out ->
  read_buffer_slice ops (shared w) t.1 = Some (Ok (read_slice (shared w) t)) /\
  BufferHeader.has_next (shared w) t.1 = Some (Z.testbit (slot_flag (shared w) t) 0) /\
  BufferHeader.next_buffer_offset (shared w) t.1 = Some (get32 (shared w) (t.1 + 12)) /\
  slice_wf w (read_slice (shared w) t) /\ Z.testbit (slot_flag (shared w) t) 1 = true /\
  (Slice.size (read_slice (shared w) t) = 0 -> slice_bytes w (read_slice (shared w) t) = []).
Proof.
  intros ((Hbit & _) & Hwf & _) Hown Ht. rewrite fmap_cons in Hwf.
  apply Forall_cons_1 in Hwf as [Hwf _]. destruct (own_slot _ _ t Hown Ht) as (? & ? & ? & ? & _).
  split; [eapply read_law; eauto|]. split; [apply has_next_bit; lia|].
  split; [apply next_buffer_offset_in; lia|]. split; [exact Hwf|]. split; [exact Hbit|].
  intros E. destruct (slice_bytes_wf _ _ Hwf) as [_ Hl]. apply nil_length_inv. lia.
Qed.

(** The flags of the last slice are reset when the message ended with an empty
    one. *)
Lemma end_flag w b rest xs : readable w b rest xs ->
  exists w', (match back_ (slice_list_ b) with
     | None => Some (w, b)
     | Some p =>
         back ← SList.deref (slice_list_ b) p;
         match buffer_header back with
         | None => Some (w, b)
         | Some h =>
             m ← BufferHeader.clear_flag (shared w) h;
             m ← BufferHeader.set_in_used m h;
             Some (set_shared w m, b)
         end
     end) = Some (w', b) /\ readable w' b rest xs /\ received w w' b b rest.
Proof.
  intros Hr. pose proof Hr as [[Hci Hl _ _ _] _]. rewrite (sl_back _ Hl).
  destruct (decide (nodes (slice_list_ b) = [])) as [E|(a & [p s] & E)%list_snoc_inv].
  { rewrite E. cbn. exists w. auto using received_refl. }
  rewrite E, last_snoc. cbn [fmap option_fmap option_map fst]. rewrite (deref_ok _ _ _ _ _ Hl E).
  cbn [mbind option_bind].
  assert (s ∈ held b) as Hs by (unfold held, slices; rewrite E, fmap_app; set_solver).
  pose proof (ci_wf _ _ _ Hci) as Hwf. rewrite Forall_forall in Hwf.
  destruct (Hwf s Hs) as [t Ht H0 He _ _ _|id l Hf Hhd _ _ _ _ _ _];
    [|rewrite Hhd; exists w; auto using received_refl].
  rewrite (so_header _ _ Ht). destruct (slot_of_slice t s Ht) as [Et _].
  assert (0 < t.2) as Hp.
  { apply (own_slot _ _ t (ci_own _ _ _ Hci)). apply elem_of_app. left. apply list_elem_of_omap. eauto. }
  rewrite clear_flag_in by lia. cbn [mbind option_bind].
  rewrite set_in_used_in by (rewrite ?put8_len; lia). cbn [mbind option_bind].
  rewrite get8_put8_eq by reflexivity. eexists. split; [reflexivity|].
  apply (received_flag w b rest xs s t); auto.
Qed.

(** A slice of a message joins the buffer. *)
Lemma append_message_slice w b rest xs t bs ts : readable w b (t :: rest) xs ->
  message w t ts bs ->
  Z.of_nat (length xs) + t.2 < 18446744073709551616 ->
  Z.of_nat (length (nodes (slice_list_ b))) + 1 < 18446744073709551616 ->
  let s := read_slice (shared w) t in
  exists b', LB.append_buffer_slice b s = Some b' /\
    readable w b' rest (xs ++ slice_bytes w s) /\ (forall r, received w w b b' r) /\
    storages_in (held b') = storages_in (held b) /\ is_from_shm_ b' = is_from_shm_ b /\
    length (nodes (slice_list_ b')) = S (length (nodes (slice_list_ b))).
Proof.
  intros Hr Hm Hx Hn s. pose proof Hr as [[Hci _ _ _ _] _].
  destruct (message_head w t ts bs _ Hm (ci_own _ _ _ Hci)) as (_ & _ & _ & Hws & Hbit & _);
    [set_solver|].
  destruct (append_buffer_slice_ok w b (t :: rest) rest xs s Hr)
    as (b' & E & Hr' & Es & Ep & Ec & Esh & _); auto.
  { eapply chain_inv_slot; eauto using read_slice_of. }
  exists b'. split; [exact E|]. split; [exact Hr'|].
  split; [intros r; eapply received_append; eauto|].
  split; [unfold held; rewrite Es, Ep, !storages_in_app; cbn; now rewrite app_nil_r|].
  split; [rewrite Esh; apply andb_true_r|].
  apply (f_equal length) in Es. unfold slices in Es. rewrite length_app, !length_fmap in Es.
  cbn in Es. lia.
Qed.

(** [xs'] is in [b'] after a message was moved to [b]. *)
Definition moved (w w' : memory) (b b' : LinkedBuffer) (rest : list slot) (xs' : list Z) (n : nat)
    : Prop :=
  readable w' b' rest xs' /\ received w w' b b' rest /\
  storages_in (held b') = storages_in (held b) /\ is_from_shm_ b' = is_from_shm_ b /\
  (length (nodes (slice_list_ b')) <= length (nodes (slice_list_ b)) + n)%nat.

Lemma moved_trans w1 w2 w3 b1 b2 b3 rest xs xs' n k : moved w2 w3 b2 b3 rest xs' k ->
  received w1 w2 b1 b2 rest -> storages_in (held b2) = storages_in (held b1) ->
  is_from_shm_ b2 = is_from_shm_ b1 ->
  (length (nodes (slice_list_ b2)) <= length (nodes (slice_list_ b1)) + n)%nat -> xs = xs' ->
  moved w1 w3 b1 b3 rest xs (n + k).
Proof.
  intros (H1 & H2 & H3 & H4 & H5) R S I L ->. split; [exact H1|].
  split; [eapply received_trans; eauto|]. split; [congruence|]. split; [congruence|lia].
Qed.

(** The slices of one message are moved in order, the empty ones go back to
    the pool. *)
Lemma move_chain_ok ts : forall fuel w b t rest xs bs,
  readable w b (t :: ts ++ rest) xs -> message w t ts bs -> (length ts < fuel)%nat ->
  Z.of_nat (length xs) + total_cap (t :: ts) < 18446744073709551616 ->
  Z.of_nat (length (nodes (slice_list_ b)) + S (length ts)) < 18446744073709551616 ->
  exists w' b', StreamOps.move_chain ops fuel w b t.1 = Some (w', b') /\
    moved w w' b b' rest (xs ++ bs) (S (length ts)).
Proof.
  induction ts as [|u ts IH]; intros [|fuel] w b t rest xs bs Hr Hm Hf Hx Hn; try (cbn in Hf; lia);
    pose proof Hr as [[Hci _ _ _ _] _]; pose proof (ci_own _ _ _ Hci) as Hown;
    destruct (message_head w t _ bs _ Hm Hown) as (Erd & Ehn & Enx & Hws & Hbit & Hz); [set_solver| |set_solver|];
    cbn [StreamOps.move_chain]; rewrite Erd; cbn [mbind option_bind buffer_header read_slice];
    rewrite Ehn; cbn [mbind option_bind]; rewrite Enx; cbn [mbind option_bind];
    change (mkSlice (Some t.1) _ _ _ _ _ _ _) with (read_slice (shared w) t);
    destruct (slice_bytes_wf _ _ Hws) as [_ Hsl]; destruct (slice_wf_index _ _ Hws) as (? & ? & _ & Hsz & _);
    cbn [read_slice cap] in *.
  - assert (bs = slice_bytes w (read_slice (shared w) t)) as ->.
    { destruct Hm as (_ & _ & <-). unfold list_bytes. cbn. now rewrite app_nil_r. }
    assert (Z.testbit (slot_flag (shared w) t) 0 = false) as -> by apply Hm.
    destruct (Z.eqb_spec (Slice.size (read_slice (shared w) t)) 0) as [E|E].
    + rewrite (Hz E), app_nil_r.
      destruct (received_recycle w b rest rest xs t (read_slice (shared w) t))
        as (m1 & -> & Hr1 & Hv1 & _); auto using read_slice_of.
      cbn [mbind option_bind]. destruct (end_flag _ _ _ _ Hr1) as (w2 & -> & Hr2 & Hv2).
      exists w2, b. split; [reflexivity|]. split; [exact Hr2|].
      split; [eapply received_trans; eauto|]. split; [reflexivity|]. split; [reflexivity|lia].
    + cbn [negb]. destruct (append_message_slice w b rest xs t _ [] Hr Hm)
        as (b' & -> & Hr' & Hv & Hst & Hsh & Hln); [cbn in Hx; lia|lia|].
      cbn [mbind option_bind]. exists w, b'. split; [reflexivity|].
      split; [exact Hr'|]. split; [apply Hv|]. split; [exact Hst|]. split; [exact Hsh|lia].
  - destruct (message_tail w t u ts bs Hm) as (bs' & Hm' & -> & -> & ->).
    assert (forall v, v ∈ u :: ts -> 0 < v.2) as Hpos.
    { intros v Hv. apply (own_slot _ _ v Hown). cbn. set_solver. }
    assert (0 <= t.2) by (destruct (own_slot _ _ t Hown) as (_ & ? & _); [set_solver|lia]).
    change (total_cap (t :: u :: ts)) with (t.2 + total_cap (u :: ts)) in Hx. cbn [length] in *.
    destruct (Z.eqb_spec (Slice.size (read_slice (shared w) t)) 0) as [E|E].
    + rewrite (Hz E). cbn [app].
      destruct (received_recycle w b ((u :: ts) ++ rest) rest xs t (read_slice (shared w) t))
        as (m1 & -> & Hr1 & Hv1 & Hk1); auto using read_slice_of; [set_solver|].
      cbn [mbind option_bind].
      destruct (IH fuel (set_shared w m1) b u rest xs bs') as (w2 & b2 & -> & Hmv); auto; try lia.
      { eapply message_keeps; [exact Hm'| |exact Hpos]. eapply keeps_incl; [exact Hk1|set_solver]. }
      exists w2, b2. split; [reflexivity|].
      apply (moved_trans _ _ _ _ _ _ _ _ _ 1 _ Hmv); auto; lia.
    + cbn [negb]. destruct (append_message_slice w b ((u :: ts) ++ rest) xs t _ (u :: ts) Hr Hm)
        as (b' & -> & Hr' & Hv & Hst & Hsh & Hln); [|lia|].
      { assert (0 <= total_cap (u :: ts)); [|lia].
        eapply total_cap_nonneg; [exact Hown|]. intros v Hv. cbn. set_solver. }
      cbn [mbind option_bind].
      destruct (IH fuel w b' u rest (xs ++ slice_bytes w (read_slice (shared w) t)) bs')
        as (w2 & b2 & -> & Hmv); auto; [lia| |lia|].
      { rewrite length_app. cbn in *. lia. }
      exists w2, b2. split; [reflexivity|].
      apply (moved_trans _ _ _ _ _ _ _ _ _ 1 _ Hmv); auto; [lia|]. now rewrite app_assoc.
Qed.

(** * The pending messages of a stream *)

Section inbox.
Variable fuel : nat.

(** The messages waiting in [l]: the slots and the heap slices they are in, and
    the bytes they bring. *)
Inductive inbox (w : memory) : list BufferSliceWrapper -> list slot -> list BufferSlice ->
    list Z -> Prop :=
| inbox_nil : inbox w [] [] [] []
| inbox_shm t ts bs l slots ss bs' : message w t ts bs -> (length ts < fuel)%nat ->
    inbox w l slots ss bs' ->
    inbox w (mkWrapper None t.1 :: l) (t :: ts ++ slots) ss (bs ++ bs')
| inbox_heap s o l slots ss bs' : slice_wf w s -> is_from_shm s = false ->
    inbox w l slots ss bs' ->
    inbox w (mkWrapper (Some s) o :: l) slots (s :: ss) (slice_bytes w s ++ bs').

Lemma inbox_keeps w w' l slots ss bs : inbox w l slots ss bs ->
  keeps slots (shared w) (shared w') ->
  (forall id, id ∈ storages_in ss -> heap w' !! id = heap w !! id) ->
  (forall u, u ∈ slots -> 0 < u.2) -> inbox w' l slots ss bs.
Proof.
  intros Hi. induction Hi as [|t ts bs l slots ss bs' Hm Hf Hi IH|s o l slots ss bs' Hw Hs Hi IH];
    intros Hk Hh Hp; [constructor|..].
  - constructor; [|exact Hf|apply IH; auto].
    + eapply message_keeps; [exact Hm|eapply keeps_incl; [exact Hk|]|]; set_solver.
    + eapply keeps_incl; [exact Hk|set_solver].
    + set_solver.
  - destruct (agree_slice w w' s) as [Hw' E]; [|exact Hw|].
    { destruct Hw as [t Ht|id c ? ? Hd]; [pose proof (so_shm _ _ Ht); congruence|].
      destruct (storage_of_heap s id Hs Hd) as [Et Es]. unfold agree, slots_in, storages_in. cbn.
      rewrite Et, Es. split; [eapply keeps_incl; [exact Hk|set_solver]|].
      intros i Hi'%list_elem_of_singleton. subst i. apply Hh. unfold storages_in. cbn. rewrite Es. set_solver. }
    assert (slice_bytes w s = slice_bytes w' s) as ->.
    { destruct (slice_bytes_wf _ _ Hw) as [-> _]. destruct (slice_bytes_wf _ _ Hw') as [-> _].
      destruct (slice_wf_index _ _ Hw) as (? & ? & ? & -> & _). symmetry. apply E; lia. }
    constructor; auto. apply IH; auto. intros id Hid. apply Hh. unfold storages_in in *. cbn.
    destruct (storage_of s); set_solver.
Qed.

(** A message by the socket is in the pending ones. *)
Definition has_fallback (l : list BufferSliceWrapper) : bool :=
  existsb (fun d => match fallback_slice d with Some _ => true | None => false end) l.

Lemma inbox_fallback w l slots ss bs : inbox w l slots ss bs -> has_fallback l = false -> ss = [].
Proof. induction 1; cbn; [reflexivity|auto|discriminate]. Qed.

Lemma caps_wf_nonneg w ss : Forall (slice_wf w) ss -> 0 <= caps ss.
Proof.
  induction 1 as [|s ss Hs _ IH]; [reflexivity|]. rewrite caps_cons.
  destruct (slice_wf_index _ _ Hs) as (? & ? & _). lia.
Qed.

Lemma list_bytes_caps w ss : Forall (slice_wf w) ss -> Z.of_nat (length (list_bytes w ss)) <= caps ss.
Proof.
  induction 1 as [|s ss Hs _ IH]; [reflexivity|]. rewrite list_bytes_cons, caps_cons, length_app.
  destruct (slice_bytes_wf _ _ Hs) as [_ Hl]. destruct (slice_wf_index _ _ Hs) as (? & ? & _ & ? & _).
  lia.
Qed.
Lemma caps_read m ts : caps (read_slice m <$> ts) = total_cap ts.
Proof. unfold caps, total_cap. induction ts as [|t ts IH]; cbn; [reflexivity|]. now rewrite IH. Qed.

Lemma inbox_wf w l slots ss bs : inbox w l slots ss bs -> Forall (slice_wf w) ss.
Proof. induction 1; auto. Qed.

(** A slice that came by the socket joins the buffer. *)
Lemma append_heap w b rest xs s : readable w b rest xs -> slice_wf w s -> is_from_shm s = false ->
  (forall id, storage_of s = Some id -> id ∉ storages_in (held b)) ->
  Z.of_nat (length xs) + cap s < 18446744073709551616 ->
  Z.of_nat (length (nodes (slice_list_ b))) + 1 < 18446744073709551616 ->
  exists b' id, LB.append_buffer_slice b s = Some b' /\
    readable w b' rest (xs ++ slice_bytes w s) /\ (forall r, received w w b b' r) /\
    storage_of s = Some id /\ storages_in (held b') ≡ₚ id :: storages_in (held b) /\
    length (nodes (slice_list_ b')) = S (length (nodes (slice_list_ b))).
Proof.
  intros Hr Hw Hs Hni Hx Hn. pose proof Hr as [[Hci _ _ _ _] _].
  destruct (append_buffer_slice_ok w b rest rest xs s Hr) as (b' & E & Hr' & Es & Ep & Ec & _ & _); auto.
  { apply chain_inv_heap; auto. }
  destruct Hw as [t Ht|id c _ Hhd Hd]; [pose proof (so_shm _ _ Ht); congruence|].
  destruct (storage_of_heap s id Hs Hd) as [_ Est]. exists b', id. split; [exact E|].
  split; [exact Hr'|]. split; [intros r; eapply received_append; eauto|]. split; [exact Est|]. split.
  - unfold held. rewrite Es, Ep, !storages_in_app. unfold storages_in at 2. cbn. rewrite Est.
    rewrite <- app_assoc. cbn. symmetry. apply Permutation_middle.
  - apply (f_equal length) in Es. unfold slices in Es. rewrite length_app, !length_fmap in Es.
    cbn in Es. lia.
Qed.

(** All of them are moved to the buffer, in order. *)
Lemma move_all_ok l : forall w b rest xs slots ss bs fb, inbox w l slots ss bs ->
  readable w b (slots ++ rest) xs -> NoDup (storages_in ss ++ storages_in (held b)) ->
  Z.of_nat (length xs) + total_cap slots + caps ss < 18446744073709551616 ->
  Z.of_nat (length (nodes (slice_list_ b)) + length slots + length ss) < 18446744073709551616 ->
  exists w' b', StreamOps.move_all ops fuel w b fb l = Some (w', b', fb || has_fallback l) /\
    readable w' b' rest (xs ++ bs) /\ received w w' b b' rest /\
    storages_in (held b') ≡ₚ storages_in ss ++ storages_in (held b) /\
    (length (nodes (slice_list_ b')) <=
       length (nodes (slice_list_ b)) + length slots + length ss)%nat.
Proof.
  induction l as [|d l IH]; intros w b rest xs slots ss bs fb Hi Hr Hnd Hx Hn;
    inversion Hi as [|t ts bs1 l' slots' ss' bs' Hm Hf Hi'|s o l' slots' ss' bs' Hw Hs Hi']; subst;
    clear Hi; cbn [StreamOps.move_all fallback_slice offset has_fallback existsb].
  { exists w, b. rewrite orb_false_r, app_nil_r. split; [reflexivity|]. cbn. auto using received_refl with lia. }
  - pose proof Hr as [[Hci _ _ _ _] _]. pose proof (ci_own _ _ _ Hci) as Hown.
    change (t :: ts ++ slots') with ((t :: ts) ++ slots') in *. rewrite <- app_assoc in Hr.
    rewrite total_cap_app, length_app in *.
    assert (0 <= total_cap slots') by (eapply total_cap_nonneg; [exact Hown|set_solver]).
    pose proof (caps_wf_nonneg w ss (inbox_wf _ _ _ _ _ Hi')). cbn [length] in Hn.
    destruct (move_chain_ok ts fuel w b t (slots' ++ rest) xs bs1)
      as (w1 & b1 & -> & Hr1 & Hv1 & Hst1 & Hsh1 & Hln1); auto; try lia.
    cbn [mbind option_bind].
    destruct (IH w1 b1 rest (xs ++ bs1) slots' ss bs' fb) as (w2 & b2 & -> & Hr2 & Hv2 & Hst2 & Hln2).
    + eapply inbox_keeps; [exact Hi'| | |].
      * eapply keeps_incl; [apply (rv_keeps _ _ _ _ _ Hv1)|set_solver].
      * intros id _. now rewrite (rv_heap _ _ _ _ _ Hv1).
      * intros u Hu. apply (own_slot _ _ u Hown). set_solver.
    + exact Hr1.
    + now rewrite Hst1.
    + destruct Hm as (_ & Hwf & <-). pose proof (list_bytes_caps w _ Hwf) as Hlc.
      rewrite length_app, caps_read in *. lia.
    + lia.
    + exists w2, b2. split; [reflexivity|]. rewrite app_assoc. split; [exact Hr2|].
      split; [|split; [now rewrite Hst2, Hst1|cbn [length] in *; lia]].
      eapply received_trans; [|exact Hv2].
      destruct Hv1 as [V Hh1 N K P]. constructor; auto. eapply keeps_incl; [exact K|set_solver].
  - rewrite caps_cons in Hx. cbn [length] in Hn. pose proof Hr as [[Hci _ _ _ _] _].
    assert (0 <= total_cap slots) by (eapply total_cap_nonneg; [apply (ci_own _ _ _ Hci)|set_solver]).
    pose proof (caps_wf_nonneg w ss' (inbox_wf _ _ _ _ _ Hi')).
    destruct (append_heap w b (slots ++ rest) xs s Hr Hw Hs)
      as (b1 & id & -> & Hr1 & Hv1 & Est & Hst1 & Hln1); [|lia..|].
    { intros id E. unfold storages_in in Hnd at 1. cbn in Hnd. rewrite E in Hnd.
      apply NoDup_cons in Hnd as [Hni _]. set_solver. }
    assert (storages_in (s :: ss') = id :: storages_in ss') as Es by (unfold storages_in; cbn; now rewrite Est).
    rewrite Es in *. apply NoDup_cons in Hnd as [Hni Hnd]. cbn [mbind option_bind].
    destruct (slice_bytes_wf _ _ Hw) as [_ Hsl]. destruct (slice_wf_index _ _ Hw) as (? & ? & _ & Hsz & _).
    destruct (IH w b1 rest (xs ++ slice_bytes w s) slots ss' bs' true)
      as (w2 & b2 & -> & Hr2 & Hv2 & Hst2 & Hln2); auto.
    + rewrite Hst1, <- Permutation_middle. constructor; assumption.
    + rewrite length_app. lia.
    + lia.
    + exists w2, b2. rewrite orb_true_r. split; [reflexivity|]. rewrite app_assoc. split; [exact Hr2|].
      split; [eapply received_trans; eauto|]. split; [|cbn [length]; lia].
      rewrite Hst2, Hst1. cbn. symmetry. apply Permutation_middle.
Qed.

Lemma inbox_bytes_bound w l slots ss bs : inbox w l slots ss bs ->
  Z.of_nat (length bs) <= total_cap slots + caps ss.
Proof.
  induction 1 as [|t ts bs l slots ss bs' (_ & Hwf & Hb) _ _ IH|s o l slots ss bs' Hw _ _ IH];
    [cbn; lia|..]; rewrite length_app.
  - change (t :: ts ++ slots) with ((t :: ts) ++ slots). rewrite total_cap_app.
    pose proof (list_bytes_caps w _ Hwf) as Hl. rewrite Hb, caps_read in Hl. lia.
  - rewrite caps_cons. destruct (slice_bytes_wf _ _ Hw) as [_ Hl].
    destruct (slice_wf_index _ _ Hw) as (? & ? & _ & ? & _). lia.
Qed.

(** * The stream *)

(** [xs] is what is to be read from the stream: the bytes in its receive buffer
    and those of the messages pending. *)
Record incoming (s : SessionShared) (st : Stream) (i : StreamInner) (rest : list slot)
    (xs : list Z) (ys : list Z) (slots : list slot) (ss : list BufferSlice) (bs : list Z) : Prop := {
  in_inner : inner_of s st = Some i;
  in_recv : readable (mem s) (recv_buf i) (slots ++ rest) ys;
  in_box : inbox (mem s) (pending_data i) slots ss bs;
  in_apart : NoDup (storages_in ss ++ storages_in (held (recv_buf i)));
  in_room : Z.of_nat (length ys) + total_cap slots + caps ss < 18446744073709551616;
  in_count : Z.of_nat (length (nodes (slice_list_ (recv_buf i))) + length slots + length ss)
    < 18446744073709551616;
  in_bytes : xs = ys ++ bs;
}.

Definition to_read (s : SessionShared) (st : Stream) (rest : list slot) (xs : list Z) : Prop :=
  exists i ys slots ss bs, incoming s st i rest xs ys slots ss bs.

(** What is set when the session is made and stays as it is. *)
Record fixed (s s' : SessionShared) : Prop := {
  fx_send : send_queue s' = send_queue s;
  fx_recv : recv_queue s' = recv_queue s;
  fx_version : communication_version s' = communication_version s;
}.

Lemma fixed_refl s : fixed s s.
Proof. now constructor. Qed.
Lemma fixed_trans s1 s2 s3 : fixed s1 s2 -> fixed s2 s3 -> fixed s1 s3.
Proof. intros [] []. constructor; congruence. Qed.

(** What a reading operation of a stream leaves alone in the session. *)
Record only_reads (s s' : SessionShared) (st : Stream) : Prop := {
  or_inners : forall k, k <> inner_ st -> inners s' !! k = inners s !! k;
  or_streams : streams s' = streams s;
  or_queues : queues s' = queues s;
  or_outbox : outbox s' = outbox s;
  or_pool : pool_streams s' = pool_streams s;
  or_fixed : fixed s s';
}.

Lemma only_reads_trans s1 s2 s3 st : only_reads s1 s2 st -> only_reads s2 s3 st ->
  only_reads s1 s3 st.
Proof.
  intros [A1 B1 C1 D1 E1 F1] [A2 B2 C2 D2 E2 F2]. constructor; try congruence.
  - intros k Hk. rewrite A2 by exact Hk. auto.
  - eapply fixed_trans; eauto.
Qed.

Lemma only_reads_refl s st : only_reads s s st.
Proof. constructor; auto using fixed_refl. Qed.

Lemma only_reads_put s st w i : only_reads s (put_inner (set_mem s w) st i) st.
Proof. constructor; auto; [intros k Hk; cbn; now rewrite lookup_insert_ne|now constructor]. Qed.

Lemma inner_of_put s st i : inner_of (put_inner s st i) st = Some i.
Proof. unfold inner_of, put_inner. cbn. apply lookup_insert_eq. Qed.

Lemma put_inner_same s st i : inner_of s st = Some i -> put_inner s st i = s.
Proof.
  intros E. unfold put_inner. rewrite insert_id by exact E. now destruct s.
Qed.

(** The state after the pending messages were moved to the buffer. *)
Record settled (s s' : SessionShared) (st : Stream) (i i' : StreamInner) (rest : list slot)
    (xs : list Z) : Prop := {
  se_inner : inner_of s' st = Some i';
  se_recv : readable (mem s') (recv_buf i') rest xs;
  se_pending : pending_data i' = [];
  se_state : state i' = state i;
  se_send : send_buf i' = send_buf i;
  se_views : received (mem s) (mem s') (recv_buf i) (recv_buf i') rest;
  se_frame : only_reads s s' st;
  se_room : Z.of_nat (length xs) < 18446744073709551616;
  se_count : Z.of_nat (length (nodes (slice_list_ (recv_buf i')))) < 18446744073709551616;
  se_fallback : in_fallback_state i' = in_fallback_state i || has_fallback (pending_data i);
  se_ids : has_fallback (pending_data i) = false ->
    storages_in (held (recv_buf i')) ⊆ storages_in (held (recv_buf i));
}.

Lemma settled_incoming s s' st i i' rest xs : settled s s' st i i' rest xs ->
  incoming s' st i' rest xs xs [] [] [].
Proof.
  intros [E Hr Hp _ _ _ _ Hx Hc _ _]. pose proof Hr as [[Hci _ _ _ _] _].
  constructor; auto; rewrite ?app_nil_r; auto.
  - rewrite Hp. constructor.
  - apply (ci_ids _ _ _ Hci).
  - cbn. lia.
  - cbn. lia.
Qed.

Lemma move_pending_ok s st i rest xs ys slots ss bs : incoming s st i rest xs ys slots ss bs ->
  exists s' i', StreamOps.move_pending_data ops fuel s st = Some s' /\
    settled s s' st i i' rest xs /\ (pending_data i = [] -> s' = s /\ i' = i).
Proof.
  intros [Ei Hr Hb Hnd Hx Hn ->]. unfold StreamOps.move_pending_data. rewrite Ei.
  cbn [mbind option_bind].
  destruct (pending_data i) as [|d l] eqn:Ep.
  - inversion Hb; subst. rewrite app_nil_r.
    replace (set_pending i []) with i by (destruct i; cbn in *; now subst).
    rewrite put_inner_same by exact Ei.
    exists s, i. split; [reflexivity|]. split; [|auto].
    constructor; auto using received_refl; try (cbn in *; lia).
    + apply only_reads_refl.
    + rewrite Ep. cbn. now rewrite orb_false_r.
  - destruct (move_all_ok (d :: l) (mem s) (recv_buf i) rest ys slots ss bs (in_fallback_state i))
      as (w' & b' & E & Hr' & Hv & Hst & Hln); auto.
    cbn [set_pending recv_buf in_fallback_state]. rewrite E. cbn [mbind option_bind].
    eexists _, _. split; [reflexivity|]. split; [|discriminate].
    pose proof (inbox_bytes_bound _ _ _ _ _ Hb) as Hbb.
    constructor; cbn [set_stats set_mem mem put_inner set_inners].
    + unfold inner_of. cbn. apply lookup_insert_eq.
    + exact Hr'.
    + reflexivity.
    + reflexivity.
    + reflexivity.
    + exact Hv.
    + constructor; auto; [intros k Hk; cbn; now rewrite lookup_insert_ne|now constructor].
    + rewrite length_app. lia.
    + cbn. lia.
    + cbn. now rewrite Ep.
    + rewrite Ep. intros Hf. rewrite (inbox_fallback _ _ _ _ _ Hb Hf) in Hst. cbn in *. now rewrite Hst.
Qed.

(** A run of the other threads and the peer that brings a reader waiting for
    [n] bytes what it waits for.  Each time the reader has moved what was
    pending and has too little, the stream is open and the next wake-up comes;
    it adds to what is to be read and does not touch the receive buffer.  In
    the end [zs] is to be read. *)
Inductive fed (st : Stream) (n : Z) : list (SessionShared -> SessionShared) -> SessionShared ->
    StreamInner -> list slot -> list Z -> list slot -> list Z -> Prop :=
| fed_done s i rest xs ys slots ss bs : incoming s st i rest xs ys slots ss bs ->
    n <= Z.of_nat (length xs) -> fed st n [] s i rest xs rest xs
| fed_wait wake wakes s i s' i1 i' rest rest' rest2 xs xs' ys slots ss bs zs :
    incoming s st i rest xs ys slots ss bs ->
    Z.of_nat (length xs) < n -> state i = kStreamOpened ->
    StreamOps.move_pending_data ops fuel s st = Some s' -> inner_of s' st = Some i1 ->
    fed st n wakes (wake s') i' rest' (xs ++ xs') rest2 zs -> recv_buf i' = recv_buf i1 ->
    fed st n (wake :: wakes) s i rest xs rest2 zs.

Lemma fed_incoming st n wakes s i rest xs rest2 zs : fed st n wakes s i rest xs rest2 zs ->
  exists ys slots ss bs, incoming s st i rest xs ys slots ss bs.
Proof. destruct 1; eauto 10. Qed.

Lemma fed_enough st n wakes s i rest xs rest2 zs : fed st n wakes s i rest xs rest2 zs ->
  n <= Z.of_nat (length zs).
Proof. induction 1; auto. Qed.

(** The loop of [read_more], entered with too few bytes in the buffer. *)
Lemma read_wait_ok st n wakes s i rest xs rest2 zs : fed st n wakes s i rest xs rest2 zs ->
  LB.len (recv_buf i) < n ->
  exists s' i', StreamOps.read_wait ops fuel wakes n s st = Some (Ok tt, s') /\
    incoming s' st i' rest2 zs zs [] [] [].
Proof.
  induction 1 as [s i rest xs ys slots ss bs Hin Hn
    |wake wakes s i s1 i1 i' rest rest' rest2 xs xs' ys slots ss bs zs Hin Hn Ho Emv Ei1 Hfed IH Erb];
    intros Hlen; destruct (move_pending_ok _ _ _ _ _ _ _ _ _ Hin) as (s2 & i2 & Emv2 & Hse & Hnop);
    pose proof (proj2 (se_recv _ _ _ _ _ _ _ Hse)) as Hl2; pose proof (se_inner _ _ _ _ _ _ _ Hse) as Ei2;
    pose proof (in_inner _ _ _ _ _ _ _ _ _ Hin) as Ei.
  - assert (pending_data i <> []) as Hp.
    { intros Hp. destruct (Hnop Hp) as [_ ->]. unfold LB.len in Hlen. lia. }
    cbn [StreamOps.read_wait]. rewrite Ei. cbn [mbind option_bind].
    destruct (pending_data i); [contradiction|]. rewrite Emv2. cbn [mbind option_bind].
    rewrite Ei2. cbn [mbind option_bind]. unfold LB.len. rewrite Hl2.
    assert ((n <=? Z.of_nat (length xs)) = true) as -> by lia.
    exists s2, i2. split; [reflexivity|]. eapply settled_incoming; eauto.
  - rewrite Emv in Emv2. injection Emv2 as <-. rewrite Ei1 in Ei2. injection Ei2 as <-.
    destruct IH as (s3 & i3 & E3 & Hin3); [unfold LB.len; rewrite Erb, Hl2; lia|].
    exists s3, i3. split; [|exact Hin3]. cbn [StreamOps.read_wait]. rewrite Ei. cbn [mbind option_bind].
    destruct (pending_data i) eqn:Ep.
    + destruct (Hnop eq_refl) as [-> ->]. rewrite Ho. exact E3.
    + rewrite Emv. cbn [mbind option_bind]. rewrite Ei1. cbn [mbind option_bind].
      unfold LB.len. rewrite Hl2. assert ((n <=? Z.of_nat (length xs)) = false) as -> by lia.
      rewrite (se_state _ _ _ _ _ _ _ Hse), Ho. exact E3.
Qed.

Lemma ensure_ok st n wakes s i rest xs rest2 zs : fed st n wakes s i rest xs rest2 zs ->
  exists s' i' ys slots ss bs, StreamOps.ensure ops fuel wakes s st n = Some (Ok tt, s') /\
    incoming s' st i' rest2 zs ys slots ss bs /\ n <= Z.of_nat (length ys).
Proof.
  intros Hfed. destruct (fed_incoming _ _ _ _ _ _ _ _ _ Hfed) as (ys & slots & ss & bs & Hin).
  pose proof (in_inner _ _ _ _ _ _ _ _ _ Hin) as Ei. pose proof (proj2 (in_recv _ _ _ _ _ _ _ _ _ Hin)) as Hl.
  unfold StreamOps.ensure. rewrite Ei. cbn [mbind option_bind]. unfold LB.len. rewrite Hl.
  destruct (Z.ltb_spec (Z.of_nat (length ys)) n) as [Hlt|Hge].
  2: { destruct Hfed as [s i rest xs ? ? ? ? _ _|wake wakes s i s1 i1 i' rest rest' rest2 xs xs' ys' slots' ss' bs' zs
         Hin' Hn _ _ _ _ _]; [|pose proof (in_bytes _ _ _ _ _ _ _ _ _ Hin) as Ex;
         apply (f_equal length) in Ex; rewrite length_app in Ex; lia].
       exists s, i, ys, slots, ss, bs. auto. }
  destruct (move_pending_ok _ _ _ _ _ _ _ _ _ Hin) as (s2 & i2 & Emv2 & Hse & _).
  pose proof (proj2 (se_recv _ _ _ _ _ _ _ Hse)) as Hl2; pose proof (se_inner _ _ _ _ _ _ _ Hse) as Ei2.
  unfold StreamOps.read_more. rewrite Emv2. cbn [mbind option_bind]. rewrite Ei2. cbn [mbind option_bind].
  unfold LB.len. rewrite Hl2. destruct Hfed as [s i rest xs ? ? ? ? Hin' Hn
    |wake wakes s i s1 i1 i' rest rest' rest2 xs xs' ys' slots' ss' bs' zs Hin' Hn Ho Emv Ei1 Hfed Erb].
  - assert ((n <=? Z.of_nat (length xs)) = true) as -> by lia.
    exists s2, i2, xs, [], [], []. split; [reflexivity|]. split; [eapply settled_incoming; eauto|exact Hn].
  - rewrite Emv in Emv2. injection Emv2 as <-. rewrite Ei1 in Ei2. injection Ei2 as <-.
    assert ((n <=? Z.of_nat (length xs)) = false) as -> by lia.
    rewrite (se_state _ _ _ _ _ _ _ Hse), Ho. rewrite andb_false_r.
    destruct (read_wait_ok _ _ _ _ _ _ _ _ _ Hfed) as (s3 & i3 & E3 & Hin3);
      [unfold LB.len; rewrite Erb, Hl2; lia|].
    pose proof (proj2 (in_recv _ _ _ _ _ _ _ _ _ Hin3)) as Hl3.
    assert (n <= Z.of_nat (length zs)) by (eapply fed_enough; eauto).
    exists s3, i3, zs, [], [], []. split; [|auto].
    cbn [StreamOps.read_wait]. rewrite Ei1. cbn [mbind option_bind].
    rewrite (se_pending _ _ _ _ _ _ _ Hse), (se_state _ _ _ _ _ _ _ Hse), Ho. exact E3.
Qed.

Lemma incoming_room s st i rest xs ys slots ss bs : incoming s st i rest xs ys slots ss bs ->
  Z.of_nat (length ys) < 18446744073709551616.
Proof.
  intros [_ Hr Hb _ Hx _ _]. pose proof (caps_wf_nonneg _ _ (inbox_wf _ _ _ _ _ Hb)).
  assert (0 <= total_cap slots); [|lia].
  eapply total_cap_nonneg; [apply (ci_own _ _ _ (rd_inv _ _ _ _ (proj1 Hr)))|set_solver].
Qed.

(** Bytes are taken from the receive buffer, slices are given back. *)
Lemma incoming_shrinks s st i rest xs ys slots ss bs w' b' n :
  incoming s st i rest xs ys slots ss bs -> (n <= length ys)%nat ->
  readable w' b' (slots ++ rest) (drop n ys) ->
  shrinks (mem s) w' (recv_buf i) b' (slots ++ rest) ->
  incoming (put_inner (set_mem s w') st (set_recv i b')) st (set_recv i b') rest
    (drop n xs) (drop n ys) slots ss bs.
Proof.
  intros [Ei Hr Hb Hnd Hx Hn ->] Hle Hr' [Hlv Hids Hc]. pose proof Hr as [[Hci _ _ _ _] _].
  constructor; cbn [set_recv recv_buf pending_data].
  - apply inner_of_put.
  - exact Hr'.
  - eapply inbox_keeps; [exact Hb| | |].
    + eapply keeps_incl; [apply Hlv|set_solver].
    + intros id Hid. apply (lv_heap _ _ _ _ Hlv).
      * destruct (heap_ids _ _ (inbox_wf _ _ _ _ _ Hb) id Hid) as [c Hc'].
        apply (ci_heap _ _ _ Hci). eauto.
      * intros Hin. apply NoDup_app in Hnd as (_ & Hd & _). now apply (Hd id Hid).
    + intros u Hu. apply (own_slot _ _ u (ci_own _ _ _ Hci)). set_solver.
  - apply NoDup_app in Hnd as (H1 & H2 & _). apply NoDup_app. split; [exact H1|]. split; [set_solver|].
    apply (ci_ids _ _ _ (rd_inv _ _ _ _ (proj1 Hr'))).
  - rewrite length_drop. lia.
  - unfold slices in Hc. rewrite !length_fmap in Hc. lia.
  - now rewrite drop_app_le by exact Hle.
Qed.
Lemma incoming_reads s st i rest xs ys slots ss bs w' b' n :
  incoming s st i rest xs ys slots ss bs -> (n <= length ys)%nat ->
  readable w' b' (slots ++ rest) (drop n ys) ->
  reads (mem s) w' (recv_buf i) b' (slots ++ rest) ->
  incoming (put_inner (set_mem s w') st (set_recv i b')) st (set_recv i b') rest
    (drop n xs) (drop n ys) slots ss bs.
Proof. intros Hin Hn Hr Hrs. eapply incoming_shrinks; eauto using reads_shrinks. Qed.

(** What the reader gets: a buffer with the bytes asked for, valid until the
    next release where it is a view of a slice of the pool. *)
Definition handed (s : SessionShared) (st : Stream) (buf : Buf) (bytes : list Z) : Prop :=
  exists i, inner_of s st = Some i /\ returned (mem s) (recv_buf i) buf bytes.

Lemma fed_split (n : nat) {A} (ys bs : list A) : (n <= length ys)%nat ->
  take n (ys ++ bs) = take n ys.
Proof. intros. now rewrite take_app_le by lia. Qed.

Lemma read_bytes_run st n wakes s i rest xs rest2 zs : fed st n wakes s i rest xs rest2 zs ->
  0 <= n ->
  exists buf s', StreamOps.read_bytes ops fuel wakes s st n = Some (Ok buf, s') /\
    handed s' st buf (take (Z.to_nat n) zs) /\ to_read s' st rest2 (drop (Z.to_nat n) zs).
Proof.
  intros Hfed Hn.
  destruct (ensure_ok _ _ _ _ _ _ _ _ _ Hfed) as (s1 & i1 & ys & slots & ss & bs & E & Hin & Hge).
  unfold StreamOps.read_bytes. rewrite E. cbn [mbind option_bind].
  pose proof Hin as [Ei Hr _ _ _ _ Ezs]. unfold StreamOps.recv_read. rewrite Ei. cbn [mbind option_bind].
  pose proof (incoming_room _ _ _ _ _ _ _ _ _ Hin) as Hrm.
  destruct (read_bytes_ok (mem s1) (recv_buf i1) (slots ++ rest2) ys n Hr)
    as (buf & w' & b' & -> & Hret & Hr' & Hrs & _); [lia|lia|].
  cbn [mbind option_bind]. eexists buf, _. split; [reflexivity|]. split.
  - exists (set_recv i1 b'). split; [apply inner_of_put|]. cbn.
    rewrite Ezs, fed_split by lia. exact Hret.
  - unfold to_read. eexists _, _, _, _, _. eapply incoming_reads; eauto. lia.
Qed.

(** What a read leaves alone on its stream, when no pending message is on the
    heap. *)
Record still (s s' : SessionShared) (st : Stream) (i i' : StreamInner) (rest : list slot) : Prop := {
  sl_frame : only_reads s s' st;
  sl_send : send_buf i' = send_buf i;
  sl_state : state i' = state i;
  sl_fallback : in_fallback_state i' = in_fallback_state i;
  sl_ids : storages_in (held (recv_buf i')) ⊆ storages_in (held (recv_buf i));
  sl_leaves : leaves (mem s) (mem s') (held (recv_buf i)) rest;
}.

Lemma ensure_now s st i rest xs ys slots bs n : incoming s st i rest xs ys slots [] bs ->
  has_fallback (pending_data i) = false -> n <= Z.of_nat (length xs) ->
  exists s' i' ys' slots' bs', StreamOps.ensure ops fuel [] s st n = Some (Ok tt, s') /\
    incoming s' st i' rest xs ys' slots' [] bs' /\ n <= Z.of_nat (length ys') /\
    still s s' st i i' rest /\ has_fallback (pending_data i') = false.
Proof.
  intros Hin Hnf Hn. pose proof Hin as [Ei Hr _ _ _ _ _]. pose proof (proj2 Hr) as Hl.
  unfold StreamOps.ensure. rewrite Ei. cbn [mbind option_bind]. unfold LB.len. rewrite Hl.
  destruct (Z.ltb_spec (Z.of_nat (length ys)) n) as [Hlt|Hge].
  2: { exists s, i, ys, slots, bs. split; [reflexivity|]. split; [exact Hin|]. split; [exact Hge|].
       split; [|exact Hnf]. constructor; auto using only_reads_refl, leaves_refl. }
  destruct (move_pending_ok _ _ _ _ _ _ _ _ _ Hin) as (s2 & i2 & Emv & Hse & _).
  pose proof (settled_incoming _ _ _ _ _ _ _ Hse) as Hin2. destruct Hse as [Ei2 Hr2 Hp Hst Hsd Hv Hf _ _ Hfb Hids].
  unfold StreamOps.read_more. rewrite Emv. cbn [mbind option_bind]. rewrite Ei2. cbn [mbind option_bind].
  unfold LB.len. rewrite (proj2 Hr2). assert ((n <=? Z.of_nat (length xs)) = true) as -> by lia.
  exists s2, i2, xs, [], []. split; [reflexivity|]. split; [exact Hin2|]. split; [exact Hn|].
  split; [|now rewrite Hp]. constructor; auto.
  - now rewrite Hfb, Hnf, orb_false_r.
  - destruct Hv as [_ Hh Hnx Hk _]. constructor; [exact Hk|lia|now rewrite Hh].
Qed.

Lemma still_trans s s1 s2 st i i1 i2 rest : still s s1 st i i1 rest -> still s1 s2 st i1 i2 rest ->
  still s s2 st i i2 rest.
Proof.
  intros [F1 F2 F3 F4 F5 F6] [G1 G2 G3 G4 G5 G6].
  constructor; [eapply only_reads_trans; eauto|congruence..|set_solver|].
  eapply (leaves_trans _ (mem s1) _ _ (held (recv_buf i1))); [exact F6|exact G6|]. intros id Hid. left. now apply F5.
Qed.

(** The receive buffer was worked on. *)
Lemma shrinks_still s st i w' b' slots rest : shrinks (mem s) w' (recv_buf i) b' (slots ++ rest) ->
  still s (put_inner (set_mem s w') st (set_recv i b')) st i (set_recv i b') rest.
Proof.
  intros [[K N H] Hids _]. constructor; auto; [apply only_reads_put|]. constructor; auto.
  eapply keeps_incl; [exact K|set_solver].
Qed.

(** Enough has arrived: the calls of the reader do not wait. *)
Lemma read_now s st i rest xs ys slots bs n : incoming s st i rest xs ys slots [] bs ->
  has_fallback (pending_data i) = false -> 0 <= n <= Z.of_nat (length xs) ->
  exists buf s' i' ys' slots' bs', StreamOps.read_bytes ops fuel [] s st n = Some (Ok buf, s') /\
    returned (mem s') (recv_buf i') buf (take (Z.to_nat n) xs) /\
    incoming s' st i' rest (drop (Z.to_nat n) xs) ys' slots' [] bs' /\
    still s s' st i i' rest.
Proof.
  intros Hin Hnf Hn. destruct (ensure_now _ _ _ _ _ _ _ _ n Hin Hnf) as
    (s1 & i1 & ys1 & slots1 & bs1 & E & Hin1 & Hge & Hs1 & _); [lia|].
  unfold StreamOps.read_bytes. rewrite E. cbn [mbind option_bind].
  pose proof Hin1 as [Ei Hr _ _ _ _ Exs]. unfold StreamOps.recv_read. rewrite Ei. cbn [mbind option_bind].
  pose proof (incoming_room _ _ _ _ _ _ _ _ _ Hin1) as Hrm.
  destruct (read_bytes_ok (mem s1) (recv_buf i1) (slots1 ++ rest) ys1 n Hr)
    as (buf & w' & b' & -> & Hret & Hr' & Hrs & _); [lia|lia|].
  cbn [mbind option_bind]. eexists buf, _, (set_recv i1 b'), _, _, _. split; [reflexivity|].
  split; [cbn; rewrite Exs, fed_split by lia; exact Hret|].
  split; [eapply incoming_reads; eauto; lia|]. eapply still_trans; [exact Hs1|].
  eapply shrinks_still, reads_shrinks, Hrs.
Qed.

Lemma peek_now s st i rest xs ys slots bs n : incoming s st i rest xs ys slots [] bs ->
  has_fallback (pending_data i) = false -> 0 <= n <= Z.of_nat (length xs) ->
  exists buf s' i' ys' slots' bs', StreamOps.peek ops fuel [] s st n = Some (Ok buf, s') /\
    returned (mem s') (recv_buf i') buf (take (Z.to_nat n) xs) /\
    incoming s' st i' rest xs ys' slots' [] bs' /\ still s s' st i i' rest.
Proof.
  intros Hin Hnf Hn. destruct (ensure_now _ _ _ _ _ _ _ _ n Hin Hnf) as
    (s1 & i1 & ys1 & slots1 & bs1 & E & Hin1 & Hge & Hs1 & _); [lia|].
  unfold StreamOps.peek. rewrite E. cbn [mbind option_bind].
  pose proof Hin1 as [Ei Hr _ _ _ _ Exs]. rewrite Ei. cbn [mbind option_bind].
  pose proof (incoming_room _ _ _ _ _ _ _ _ _ Hin1) as Hrm.
  destruct (peek_ok (mem s1) (recv_buf i1) (slots1 ++ rest) ys1 n Hr)
    as (buf & b' & -> & Hret & Hr' & Hrs & _); [lia|lia|].
  cbn [mbind option_bind]. replace (put_inner s1 st (set_recv i1 b'))
    with (put_inner (set_mem s1 (mem s1)) st (set_recv i1 b')) by now destruct s1.
  eexists buf, _, (set_recv i1 b'), _, _, _. split; [reflexivity|].
  split; [cbn; rewrite Exs, fed_split by lia; exact Hret|].
  split; [change xs with (drop 0 xs); eapply (incoming_reads _ _ _ _ _ _ _ _ _ _ _ 0); eauto; lia|].
  eapply still_trans; [exact Hs1|]. eapply shrinks_still, reads_shrinks, Hrs.
Qed.

Lemma discard_now s st i rest xs ys slots bs n : incoming s st i rest xs ys slots [] bs ->
  has_fallback (pending_data i) = false -> 0 <= n <= Z.of_nat (length xs) ->
  exists s' i' ys' slots' bs', StreamOps.discard ops fuel [] s st n = Some (Ok n, s') /\
    incoming s' st i' rest (drop (Z.to_nat n) xs) ys' slots' [] bs' /\ still s s' st i i' rest.
Proof.
  intros Hin Hnf Hn. destruct (ensure_now _ _ _ _ _ _ _ _ n Hin Hnf) as
    (s1 & i1 & ys1 & slots1 & bs1 & E & Hin1 & Hge & Hs1 & _); [lia|].
  unfold StreamOps.discard. rewrite E. cbn [mbind option_bind].
  pose proof Hin1 as [Ei Hr _ _ _ _ Exs]. rewrite Ei. cbn [mbind option_bind].
  pose proof (incoming_room _ _ _ _ _ _ _ _ _ Hin1) as Hrm.
  destruct (discard_ok (mem s1) (recv_buf i1) (slots1 ++ rest) ys1 n Hr)
    as (w' & b' & -> & Hr' & Hrs & _); [lia|lia|].
  cbn [mbind option_bind]. eexists _, (set_recv i1 b'), _, _, _. split; [reflexivity|].
  split; [eapply incoming_reads; eauto; lia|]. eapply still_trans; [exact Hs1|].
  eapply shrinks_still, reads_shrinks, Hrs.
Qed.

Lemma peek_run st n wakes s i rest xs rest2 zs : fed st n wakes s i rest xs rest2 zs ->
  0 <= n ->
  exists buf s', StreamOps.peek ops fuel wakes s st n = Some (Ok buf, s') /\
    handed s' st buf (take (Z.to_nat n) zs) /\ to_read s' st rest2 zs.
Proof.
  intros Hfed Hn.
  destruct (ensure_ok _ _ _ _ _ _ _ _ _ Hfed) as (s1 & i1 & ys & slots & ss & bs & E & Hin & Hge).
  unfold StreamOps.peek. rewrite E. cbn [mbind option_bind].
  pose proof Hin as [Ei Hr _ _ _ _ Ezs]. rewrite Ei. cbn [mbind option_bind].
  pose proof (incoming_room _ _ _ _ _ _ _ _ _ Hin) as Hrm.
  destruct (peek_ok (mem s1) (recv_buf i1) (slots ++ rest2) ys n Hr)
    as (buf & b' & -> & Hret & Hr' & Hrs & _); [lia|lia|].
  cbn [mbind option_bind]. eexists buf, _. split; [reflexivity|]. split.
  - exists (set_recv i1 b'). split; [apply inner_of_put|]. cbn.
    rewrite Ezs, fed_split by lia. exact Hret.
  - unfold to_read. eexists _, _, _, _, _.
    replace (put_inner s1 st (set_recv i1 b')) with (put_inner (set_mem s1 (mem s1)) st (set_recv i1 b'))
      by now destruct s1.
    change zs with (drop 0 zs). eapply (incoming_reads _ _ _ _ _ _ _ _ _ _ _ 0); eauto; lia.
Qed.

Lemma discard_run st n wakes s i rest xs rest2 zs : fed st n wakes s i rest xs rest2 zs ->
  0 <= n ->
  exists s', StreamOps.discard ops fuel wakes s st n = Some (Ok n, s') /\
    to_read s' st rest2 (drop (Z.to_nat n) zs).
Proof.
  intros Hfed Hn.
  destruct (ensure_ok _ _ _ _ _ _ _ _ _ Hfed) as (s1 & i1 & ys & slots & ss & bs & E & Hin & Hge).
  unfold StreamOps.discard. rewrite E. cbn [mbind option_bind].
  pose proof Hin as [Ei Hr _ _ _ _ Ezs]. rewrite Ei. cbn [mbind option_bind].
  pose proof (incoming_room _ _ _ _ _ _ _ _ _ Hin) as Hrm.
  destruct (discard_ok (mem s1) (recv_buf i1) (slots ++ rest2) ys n Hr)
    as (w' & b' & -> & Hr' & Hrs & _); [lia|lia|].
  cbn [mbind option_bind]. eexists. split; [reflexivity|].
  unfold to_read. eexists _, _, _, _, _. eapply incoming_reads; eauto. lia.
Qed.

(** A stream that is no longer open and has too little: the reader gets the end
    of the stream, or, where it was closed on this side with bytes still
    unread, that it is closed; what there is stays readable. *)
Definition end_error (st_state : Z) (xs : list Z) : Err :=
  match xs with
  | [] => kEndOfStream
  | _ => if st_state =? kStreamHalfClosed then kEndOfStream else Errors.kStreamClosed
  end.

Lemma ensure_closed st n s i rest xs ys slots ss bs wakes :
  incoming s st i rest xs ys slots ss bs -> Z.of_nat (length xs) < n -> state i <> kStreamOpened ->
  exists s' i', StreamOps.ensure ops fuel wakes s st n = Some (fail_with (end_error (state i) xs), s') /\
    incoming s' st i' rest xs xs [] [] [] /\ only_reads s s' st.
Proof.
  intros Hin Hlt Hst. pose proof (in_inner _ _ _ _ _ _ _ _ _ Hin) as Ei.
  pose proof (proj2 (in_recv _ _ _ _ _ _ _ _ _ Hin)) as Hl.
  unfold StreamOps.ensure. rewrite Ei. cbn [mbind option_bind]. unfold LB.len. rewrite Hl.
  pose proof (in_bytes _ _ _ _ _ _ _ _ _ Hin) as Ex. apply (f_equal length) in Ex. rewrite length_app in Ex.
  assert ((Z.of_nat (length ys) <? n) = true) as -> by lia.
  destruct (move_pending_ok _ _ _ _ _ _ _ _ _ Hin) as (s2 & i2 & Emv & Hse & _).
  pose proof (proj2 (se_recv _ _ _ _ _ _ _ Hse)) as Hl2; pose proof (se_inner _ _ _ _ _ _ _ Hse) as Ei2.
  pose proof (settled_incoming _ _ _ _ _ _ _ Hse) as Hin2.
  destruct (move_pending_ok _ _ _ _ _ _ _ _ _ Hin2) as (s3 & i3 & Emv3 & _ & Hnop).
  destruct (Hnop (se_pending _ _ _ _ _ _ _ Hse)) as [-> _].
  unfold StreamOps.read_more. rewrite Emv. cbn [mbind option_bind]. rewrite Ei2. cbn [mbind option_bind].
  unfold LB.len. rewrite Hl2. assert ((n <=? Z.of_nat (length xs)) = false) as En by lia.
  rewrite En, (se_state _ _ _ _ _ _ _ Hse).
  assert ((state i =? kStreamOpened) = false) as Eo by now apply Z.eqb_neq.
  exists s2, i2. split; [|split; [exact Hin2|apply (se_frame _ _ _ _ _ _ _ Hse)]].
  rewrite Eo. cbn [negb]. rewrite andb_true_r. destruct xs as [|x xs]; [reflexivity|].
  cbn [length]. destruct (Z.eqb_spec (Z.of_nat (S (length xs))) 0); [lia|].
  assert (StreamOps.read_wait ops fuel wakes n s2 st =
    Some (fail_with (end_error (state i) (x :: xs)), s2)) as ->; [|reflexivity].
  destruct wakes; cbn [StreamOps.read_wait]; rewrite Ei2; cbn [mbind option_bind];
    rewrite (se_pending _ _ _ _ _ _ _ Hse), (se_state _ _ _ _ _ _ _ Hse), Eo; cbn [negb];
    rewrite Emv3; cbn [mbind option_bind]; rewrite Ei2; cbn [mbind option_bind]; unfold LB.len;
    rewrite Hl2, En, (se_state _ _ _ _ _ _ _ Hse), Eo; cbn [negb end_error];
    now destruct (state i =? kStreamHalfClosed).
Qed.

(** ** Giving pending messages back *)

(** [clean_pending_data]: every slot of the pending messages goes back to the
    pool and their heap slices are freed. *)
Lemma clean_pending_ok l : forall w slots ss bs rest, inbox w l slots ss bs ->
  own (shared w) (slots ++ rest) -> NoDup (storages_in ss) ->
  exists w', StreamOps.clean_pending ops fuel w l = Some w' /\ own (shared w') rest /\
    keeps rest (shared w) (shared w') /\ heap_next w' = heap_next w /\
    (forall id, id ∉ storages_in ss -> heap w' !! id = heap w !! id) /\
    (forall id, is_Some (heap w' !! id) -> is_Some (heap w !! id)).
Proof.
  induction l as [|d l IH]; intros w slots ss bs rest Hi Hown Hnd;
    inversion Hi as [|t ts bs1 l' slots' ss' bs' Hm Hf Hi'|s o l' slots' ss' bs' Hw Hs Hi']; subst;
    clear Hi; cbn [StreamOps.clean_pending fallback_slice offset].
  { exists w. auto 10 using keeps_refl. }
  - destruct (message_head w t ts bs1 _ Hm Hown) as (-> & _); [set_solver|]. cbn [mbind option_bind].
    destruct (recycles_law w (slots' ++ rest) t ts (read_slice (shared w) t) fuel)
      as (m' & -> & Hown' & Hk); auto using read_slice_of; [now rewrite app_assoc|apply Hm|].
    cbn [mbind option_bind].
    destruct (IH (set_shared w m') slots' ss bs' rest) as (w' & E & Hown2 & Hk2 & Hhn & Hh & Hd); auto.
    { eapply inbox_keeps; [exact Hi'|eapply keeps_incl; [exact Hk|set_solver]|reflexivity|].
      intros u Hu. apply (own_slot _ _ u Hown). set_solver. }
    exists w'. split; [exact E|]. split; [exact Hown2|].
    split; [eapply keeps_trans; [eapply keeps_incl; [exact Hk|set_solver]|exact Hk2]|]. auto.
  - destruct Hw as [t Ht|id c ? Hhd Hd' Hlk] eqn:Ew; [pose proof (so_shm _ _ Ht); congruence|]. clear Ew.
    destruct (storage_of_heap s id Hs Hd') as [_ Es].
    assert (storages_in (s :: ss') = id :: storages_in ss') as Est by (unfold storages_in; cbn; now rewrite Es).
    rewrite Est in *. apply NoDup_cons in Hnd as [Hni Hnd].
    unfold Slice.destroy. rewrite Hs, Hd'.
    destruct (IH (Memory (shared w) (delete id (heap w)) (heap_next w)) slots ss' bs' rest)
      as (w' & E & Hown2 & Hk2 & Hhn & Hh & Hd); auto.
    { eapply inbox_keeps; [exact Hi'|apply keeps_refl| |].
      - intros k Hk. cbn. rewrite lookup_delete_ne; [reflexivity|]. intros ->. contradiction.
      - intros u Hu. apply (own_slot _ _ u Hown). set_solver. }
    exists w'. split; [exact E|]. split; [exact Hown2|]. split; [exact Hk2|]. split; [exact Hhn|]. split.
    + intros k Hk. rewrite Hh by set_solver. cbn. rewrite lookup_delete_ne; [reflexivity|]. set_solver.
    + intros k Hk. specialize (Hd k Hk). cbn in Hd. destruct Hd as [v Hv].
      apply lookup_delete_Some in Hv as [_ Hv]. eauto.
Qed.
End inbox.
End receive.
