(* ===== verification/StreamSend.v ===== *)
(** The send path of a stream ([Stream::flush], [write_fallback], [close] of
    [src/stream.cpp]): a flush hands the message to the peer through the queue,
    or through the socket; when it fails every slice goes back to the pool.
    The theorems are about any pool with the laws of [Pool]. *)
From S2P Require Import Prelude Errors Consts Config Shm Queue Slices Pool Linked.
From S2P Require Import LinkedWrite LinkedRead Wire Stream StreamRecv.

Section send.
Context {ops : PoolOps} `{!Pool ops}.

(** * The send buffer *)

(** [xs] is in the stream's send buffer; nothing of it has been read. *)
Record outgoing (w : memory) (b : LinkedBuffer) (rest : list slot) (xs : list Z) : Prop := {
  og_writable : writable w b rest xs;
  og_pinned : slist_ok (pinned_list_ b);
  og_none : nodes (pinned_list_ b) = [];
}.

(** Such a buffer can be given back as a whole. *)
Lemma outgoing_readable w b rest xs : outgoing w b rest xs -> readable w b rest xs.
Proof.
  intros [[[Hci Hl _ Hb _ _] _ Hlen] Hp Hn].
  assert (slices (pinned_list_ b) = []) as Es by (unfold slices; now rewrite Hn).
  split; [|exact Hlen]. constructor; auto; unfold held; rewrite Es; [now rewrite app_nil_r|constructor].
Qed.

(** An empty buffer. *)
Lemma outgoing_empty w b rest : own (shared w) rest -> heap_ok w ->
  slist_ok (slice_list_ b) -> nodes (slice_list_ b) = [] -> write_ (slice_list_ b) = None ->
  is_from_shm_ b = true -> len_ b = 0 -> slist_ok (pinned_list_ b) -> nodes (pinned_list_ b) = [] ->
  outgoing w b rest [].
Proof.
  intros Hown Hh Hl Hn Hw Hs Hlen Hp Hpn.
  assert (slices (slice_list_ b) = []) as Es by (unfold slices; now rewrite Hn).
  constructor; auto. constructor; auto; [|unfold cursor_ok; now rewrite Hw].
  constructor; auto; rewrite ?Es; auto; constructor; auto; constructor.
Qed.

Lemma recycle_send_ok s st i rest xs : inner_of s st = Some i ->
  outgoing (mem s) (send_buf i) rest xs ->
  exists w' b', StreamOps.recycle_send ops s st = Some (put_inner (set_mem s w') st (set_send i b')) /\
    outgoing w' b' rest [] /\ leaves (mem s) w' (slices (slice_list_ (send_buf i))) rest.
Proof.
  intros Ei Hog. unfold StreamOps.recycle_send. rewrite Ei. cbn [mbind option_bind].
  destruct (recycle_ok (mem s) (send_buf i) rest xs (outgoing_readable _ _ _ _ Hog))
    as (w' & b' & E & Hr' & Ep & En & Ew & Hlv).
  rewrite E. cbn [mbind option_bind]. exists w', b'. split; [reflexivity|].
  pose proof Hr' as [[Hci Hl Hp _ _] Hlen]. destruct Hog as [_ Hpo Hpn].
  assert (slices (pinned_list_ (send_buf i)) = []) as Es by (unfold slices; now rewrite Hpn).
  assert (held b' = []) as Eh by (unfold held, slices; now rewrite Ep, En, Hpn).
  split; [|unfold held in Hlv; now rewrite Es, app_nil_r in Hlv].
  apply outgoing_empty; auto; try congruence.
  - pose proof (ci_own _ _ _ Hci) as Hown. now rewrite Eh in Hown.
  - apply (ci_heap _ _ _ Hci).
  - unfold LB.recycle in E. destruct (LB.pop_all _ _ _ _) as [[w2 l2]|]; [|discriminate].
    cbn in E. injection E as _ <-. reflexivity.
Qed.

(** [clean] on slices of the pool: the list is emptied, the slices are the
    peer's. *)
Lemma pop_all_clean fuel : forall w l, slist_ok l -> forallb is_from_shm (slices l) = true ->
  (length (nodes l) < fuel)%nat ->
  exists l', LB.pop_all fuel w l (fun w _ => Some w) = Some (w, l') /\ slist_ok l' /\ nodes l' = [].
Proof.
  induction fuel as [|fuel IH]; intros w l Hl Hs Hf; [lia|]. cbn [LB.pop_all].
  destruct (nodes l) as [|[i s] ns] eqn:En.
  - rewrite (pop_front_empty l Hl En). cbn [mbind option_bind]. eauto.
  - destruct (pop_front_ok l i s ns Hl En) as (l' & -> & Hl' & Hn' & _). cbn [mbind option_bind].
    unfold slices in Hs. rewrite En in Hs. cbn in Hs. apply andb_true_iff in Hs as [-> Hs].
    cbn [mbind option_bind]. apply IH; auto; [unfold slices; now rewrite Hn'|].
    rewrite Hn'. cbn in Hf. lia.
Qed.

Lemma clean_send_ok s st i rest rest' xs w : inner_of s st = Some i ->
  outgoing w (send_buf i) rest xs -> is_from_shm_ (send_buf i) = true ->
  own (shared (mem s)) rest' -> heap_ok (mem s) ->
  exists b', StreamOps.clean_send s st = Some (put_inner s st (set_send i b')) /\
    outgoing (mem s) b' rest' [] /\ is_from_shm_ b' = true.
Proof.
  intros Ei [[[_ Hl _ _ Hs _] _ _] Hp Hpn] Hsh Hown Hh. unfold StreamOps.clean_send. rewrite Ei.
  cbn [mbind option_bind]. unfold LB.clean.
  destruct (pop_all_clean (S (length (nodes (slice_list_ (send_buf i))))) (mem s)
    (slice_list_ (send_buf i)) Hl) as (l' & -> & Hl' & Hn'); [congruence|lia|].
  cbn [mbind option_bind]. eexists. split; [now destruct s|]. split; [|reflexivity].
  apply outgoing_empty; cbn [LB.cleared slice_list_ pinned_list_]; auto using set_write_ok.
Qed.

(** * A message is published *)

Lemma slice_wf_len w m' s : slice_wf w s -> shm_len m' = shm_len (shared w) ->
  slice_wf (set_shared w m') s.
Proof.
  intros [t Ht ? ? ? ? ?|id l ? ? ? ? ? ? ? ?] E; [apply (wf_shm _ _ t); auto; cbn; lia|].
  eapply wf_heap; eauto.
Qed.

Lemma msg_chain_in_use m ts : msg_chain m ts -> in_use m ts.
Proof.
  unfold in_use. induction ts as [|t ts IH]; [constructor|]. intros (H1 & _ & H2). constructor; auto.
Qed.

(** [done]: the buffer's slices are a message. *)
Lemma done_message w b rest xs : outgoing w b rest xs -> is_from_shm_ b = true -> xs <> [] ->
  exists t ts m', LB.done ops w b = Some (set_shared w m', b) /\
    slots_in (slices (slice_list_ b)) = t :: ts /\ message (set_shared w m') t ts xs /\
    own m' ((t :: ts) ++ rest) /\ keeps rest (shared w) m' /\ LB.root_buf_offset b = Some t.1 /\
    readable (set_shared w m') b rest xs.
Proof.
  intros Hog Hs Hne. destruct Hog as [Hwb Hp Hpn]. pose proof Hwb as [[Hci Hl Hu Hb Hsh Hcl] Hcur Hlen].
  destruct (done_ok w b rest xs Hwb Hs Hne) as (t & ts & m' & Et & E & Hown & Hk & Hch & Hrd & Hb' & Hroot).
  rewrite Et in *. exists t, ts, m'. split; [exact E|]. split; [reflexivity|].
  assert (Forall (slice_wf (set_shared w m')) (slices (slice_list_ b))) as Hwf.
  { eapply Forall_impl; [apply Hci|]. intros x Hx. apply slice_wf_len; [exact Hx|].
    now rewrite (proj1 Hk). }
  split; [split; [exact Hch|cbn [shared set_shared]; rewrite Hrd; auto]|].
  split; [exact Hown|]. split; [exact Hk|]. split; [exact Hroot|].
  assert (slices (pinned_list_ b) = []) as Es by (unfold slices; now rewrite Hpn).
  split; [|exact Hlen]. constructor; auto; unfold held; rewrite Es, ?app_nil_r; [|constructor].
  constructor; auto; [now rewrite Et|apply Hci|apply Hci|].
  rewrite Et. now apply msg_chain_in_use.
Qed.

(** The polling event of each version is there. *)
Lemma polling_lookup v : 0 <= v <= kMaxSupportProtoVersion ->
  exists events, polling_event_with_version = Some events /\
    events !! Z.to_nat v = Some (header_bytes kHeaderSize v kPolling).
Proof.
  intros Hv. unfold kMaxSupportProtoVersion in Hv.
  assert (v = 0 \/ v = 1 \/ v = 2 \/ v = 3) as Hc by lia.
  eexists. split; [vm_compute; reflexivity|]. destruct Hc as [->|[->|[->| ->] ] ]; reflexivity.
Qed.

(** * Flushing *)

(** The session has the queue it sends to, holding [l], and a version the
    polling events know. *)
Record can_send (s : SessionShared) (a : arch) (base cap h : Z) (l : list QueueElement) : Prop := {
  cs_queue : send_queue s = queue_at a base cap;
  cs_rep : queue_rep a base cap (queues s) h l;
  cs_pos : 0 < cap;
  cs_version : 0 <= communication_version s <= kMaxSupportProtoVersion;
}.

(** The polling event that is sent along, when the peer's flag was not set. *)
Definition wake_event (s : SessionShared) (a : arch) (base cap : Z) : list (list Z) :=
  if bool_decide (flag_of a base cap (queues s) = 0) && negb (send_stopped s)
  then [header_bytes kHeaderSize (communication_version s) kPolling] else [].

Lemma wake_up_peer_ok s a base cap h l : can_send s a base cap h l ->
  exists m' s', wake_up_peer s = Some (Ok tt, s') /\
    s' = set_outbox (set_stats (set_queues s m') (stats s')) (outbox s ++ wake_event s a base cap)
           (answers s) /\
    queue_rep a base cap m' h l /\ same_outside base (24 + 12 * cap) (queues s) m' /\
    flag_of a base cap m' <> 0.
Proof.
  intros [Hq Hrep _ Hv]. unfold wake_up_peer. rewrite Hq.
  destruct (mark_working_rep a base cap (queues s) h l Hrep) as (m' & -> & Hrep' & Ho & Hf).
  cbn [mbind option_bind]. unfold wake_event. destruct (bool_decide _); cbn [negb andb].
  - destruct (polling_lookup _ Hv) as (events & -> & E). cbn [mbind option_bind].
    cbn [communication_version set_stats set_queues]. rewrite E. cbn [mbind option_bind].
    eexists m', _. split; [reflexivity|]. cbn [send_stopped set_stats set_queues].
    destruct (send_stopped s); cbn [negb]; rewrite ?app_nil_r; auto.
  - eexists m', _. split; [reflexivity|]. rewrite app_nil_r. split; [now destruct s|auto].
Qed.

(** What a successful flush leaves behind. *)
Record flushed (s s' : SessionShared) (st : Stream) (i i' : StreamInner) (rest : list slot)
    (t : slot) (ts : list slot) (xs : list Z) : Prop := {
  fl_slots : slots_in (slices (slice_list_ (send_buf i))) = t :: ts;
  fl_message : message (mem s') t ts xs;
  fl_own : own (shared (mem s')) ((t :: ts) ++ rest);
  fl_keeps : keeps rest (shared (mem s)) (shared (mem s'));
  fl_heap : heap (mem s') = heap (mem s) /\ heap_next (mem s') = heap_next (mem s);
  fl_inner : inner_of s' st = Some i';
  fl_send : outgoing (mem s') (send_buf i') ((t :: ts) ++ rest) [];
  fl_same : recv_buf i' = recv_buf i /\ pending_data i' = pending_data i /\ state i' = state i /\
    in_fallback_state i' = in_fallback_state i;
  fl_others : (forall k, k <> inner_ st -> inners s' !! k = inners s !! k) /\
    streams s' = streams s /\ pool_streams s' = pool_streams s;
  fl_shm : is_from_shm_ (send_buf i') = true;
  fl_fixed : fixed s s';
}.

(** The second half of [flush], from a buffer whose slices are a message. *)
Lemma put_published s st i a base cap h l t ts rest xs w0 : can_send s a base cap h l ->
  inner_of s st = Some i -> outgoing w0 (send_buf i) rest xs ->
  is_from_shm_ (send_buf i) = true -> LB.root_buf_offset (send_buf i) = Some t.1 ->
  slots_in (slices (slice_list_ (send_buf i))) = t :: ts ->
  message (mem s) t ts xs -> own (shared (mem s)) ((t :: ts) ++ rest) -> heap_ok (mem s) ->
  0 <= id_ st < 4294967296 -> Z.of_nat (length l) < cap ->
  h + Z.of_nat (length l) + 1 < 9223372036854775808 ->
  exists s1 s' i', StreamOps.put_message s st kStreamOpened = Some (Ok tt, s1) /\
    StreamOps.published s1 st = Some (Ok tt, s') /\
    flushed s s' st i i' rest t ts xs /\
    can_send s' a base cap h (l ++ [mkElem (id_ st) t.1 kStreamOpened]) /\
    flag_of a base cap (queues s') <> 0 /\
    same_outside base (24 + 12 * cap) (queues s) (queues s') /\
    outbox s' = outbox s ++ wake_event s1 a base cap.
Proof.
  intros Hcs Ei Hog Hsh Hroot Hsl Hm Hown Hh Hid Hroom Hbig. pose proof Hcs as [Hq Hrep Hcap Hv].
  assert (elem_wf (mkElem (id_ st) t.1 kStreamOpened)) as Hel.
  { destruct (own_slot _ _ t Hown) as (? & ? & ? & ? & _); [set_solver|].
    unfold elem_wf, kStreamOpened. cbn. lia. }
  unfold StreamOps.put_message. rewrite Ei. cbn [mbind option_bind]. rewrite Hroot, Hq.
  cbn [mbind option_bind]. rewrite (put_run a base cap _ h l _ Hrep Hroom Hbig). cbn [mbind option_bind].
  set (m1 := put_mem a base cap (queues s) _ _). pose proof (put_rep a base cap _ h l _ Hrep Hel Hroom Hbig) as Hrep1.
  fold m1 in Hrep1. pose proof (put_mem_outside a base cap _ h l (mkElem (id_ st) t.1 kStreamOpened) Hrep Hcap) as Ho1.
  fold m1 in Ho1.
  assert (can_send (set_queues s m1) a base cap h (l ++ [mkElem (id_ st) t.1 kStreamOpened])) as Hcs1
    by (constructor; auto).
  destruct (wake_up_peer_ok _ _ _ _ _ _ Hcs1) as (m2 & s2 & Ew & Es2 & Hrep2 & Ho2 & Hf2).
  assert (inner_of s2 st = Some i) as Ei2 by (rewrite Es2; exact Ei).
  assert (mem s2 = mem s) as Em by (rewrite Es2; reflexivity).
  destruct (clean_send_ok s2 st i rest ((t :: ts) ++ rest) xs w0 Ei2 Hog Hsh) as (b' & Ec & Hog' & Hsh'); [now rewrite Em..|].
  eexists _, _, (set_send i b'). split; [reflexivity|].
  unfold StreamOps.published. rewrite Ew. cbn [mbind option_bind]. rewrite Ec. cbn [mbind option_bind].
  split; [reflexivity|]. split; [|split; [|split; [|split]]].
  - constructor; cbn [put_inner set_inners mem]; rewrite ?Em; auto using keeps_refl.
    + apply inner_of_put.
    + rewrite Em in Hog'. exact Hog'.
    + rewrite Es2. cbn. split; [|auto]. intros k Hk. now rewrite lookup_insert_ne.
    + rewrite Es2. now constructor.
  - constructor; try rewrite Es2; cbn; auto.
  - rewrite Es2. exact Hf2.
  - rewrite Es2. cbn. destruct Ho1 as [L1 O1]. destruct Ho2 as [L2 O2]. split; [cbn in L2; congruence|].
    intros b Hb. rewrite O1 by exact Hb. now apply O2.
  - rewrite Es2. reflexivity.
Qed.

Lemma outgoing_len w b rest xs : outgoing w b rest xs -> LB.is_empty b = bool_decide (xs = []).
Proof.
  intros [[_ _ Hl] _ _]. unfold LB.is_empty. rewrite Hl.
  destruct xs; cbn [length]; [reflexivity|]. rewrite bool_decide_eq_false_2 by discriminate.
  apply Z.eqb_neq. lia.
Qed.

Lemma set_send_same i : set_send i (send_buf i) = i.
Proof. now destruct i. Qed.

(** [done] and what [flush] does around it. *)
Lemma flush_done s st i rest xs during : inner_of s st = Some i ->
  outgoing (mem s) (send_buf i) rest xs -> xs <> [] -> is_from_shm_ (send_buf i) = true ->
  state i = kStreamOpened -> in_fallback_state i = false ->
  exists t ts m', slots_in (slices (slice_list_ (send_buf i))) = t :: ts /\
    message (set_shared (mem s) m') t ts xs /\ own m' ((t :: ts) ++ rest) /\
    keeps rest (shared (mem s)) m' /\ LB.root_buf_offset (send_buf i) = Some t.1 /\
    readable (set_shared (mem s) m') (send_buf i) rest xs /\
    let s1 := put_inner (set_mem (set_stats s (add_out_flow (stats s) (LB.len (send_buf i))))
                (set_shared (mem s) m')) st i in
    StreamOps.flush ops during s st =
    '(r, s) ← StreamOps.put_message s1 st kStreamOpened;
    match r with
    | Ok _ => StreamOps.published s st
    | Unexpected e =>
        if error_is e kQueueFull then
          StreamOps.flush_retry ops during 10 (set_stats s (add_queue_full (stats s))) st kStreamOpened
        else s ← StreamOps.recycle_send ops s st; Some (Unexpected e, s)
    end.
Proof.
  intros Ei Hog Hne Hsh Ho Hfb.
  destruct (done_message _ _ _ _ Hog Hsh Hne) as (t & ts & m' & E & Hsl & Hm & Hown & Hk & Hroot & Hr).
  exists t, ts, m'. split; [exact Hsl|]. split; [exact Hm|]. split; [exact Hown|]. split; [exact Hk|].
  split; [exact Hroot|]. split; [exact Hr|]. cbn zeta. unfold StreamOps.flush. rewrite Ei.
  cbn [mbind option_bind]. rewrite (outgoing_len _ _ _ _ Hog), bool_decide_eq_false_2 by exact Hne.
  cbn [mem set_stats]. rewrite Ho. cbn [negb]. change (negb (kStreamOpened =? kStreamOpened)) with false.
  cbn iota. rewrite E. cbn [mbind option_bind]. unfold LB.is_from_share_memory.
  rewrite Hsh, set_send_same, Hfb. reflexivity.
Qed.

Lemma flush_sends s st i rest xs a base cap h l during : inner_of s st = Some i ->
  outgoing (mem s) (send_buf i) rest xs -> xs <> [] -> is_from_shm_ (send_buf i) = true ->
  state i = kStreamOpened -> in_fallback_state i = false -> can_send s a base cap h l ->
  0 <= id_ st < 4294967296 -> Z.of_nat (length l) < cap ->
  h + Z.of_nat (length l) + 1 < 9223372036854775808 ->
  exists s' i' t ts, StreamOps.flush ops during s st = Some (Ok tt, s') /\
    flushed s s' st i i' rest t ts xs /\
    can_send s' a base cap h (l ++ [mkElem (id_ st) t.1 kStreamOpened]) /\
    flag_of a base cap (queues s') <> 0 /\
    same_outside base (24 + 12 * cap) (queues s) (queues s') /\ outbox s `prefix_of` outbox s'.
Proof.
  intros Ei Hog Hne Hsh Ho Hfb Hcs Hid Hroom Hbig.
  destruct (flush_done s st i rest xs during Ei Hog Hne Hsh Ho Hfb)
    as (t & ts & m' & Hsl & Hm & Hown & Hk & Hroot & _ & ->).
  set (s1 := put_inner _ st i).
  destruct (put_published s1 st i a base cap h l t ts rest xs (mem s))
    as (s2 & s' & i' & -> & Ep & Hfl & Hcs' & Hf & Hou & Hob); auto.
  { destruct Hcs. constructor; auto. }
  { apply inner_of_put. }
  { apply (ci_heap _ _ _ (wr_inv _ _ _ _ (wb_writing _ _ _ _ (og_writable _ _ _ _ Hog)))). }
  cbn [mbind option_bind]. rewrite Ep. exists s', i', t, ts. split; [reflexivity|].
  split; [|split; [exact Hcs'|split; [exact Hf|split; [exact Hou|]]]].
  - destruct Hfl as [F0 F1 F2 F3 F4 F5 F6 F7 F8 F9 F10]. constructor; auto.
    + eapply keeps_trans; [exact Hk|exact F3].
    + destruct F8 as (K & ? & ?). split; [|auto]. intros k Hk'. rewrite K by exact Hk'.
      cbn. now rewrite lookup_insert_ne.
    + destruct F10. now constructor.
  - rewrite Hob. cbn. now exists (wake_event s2 a base cap).
Qed.

(** ** Failing *)

(** What a flush that fails leaves behind: an empty send buffer, whose slices
    are back in the pool. *)
Record dropped (s s' : SessionShared) (st : Stream) (i : StreamInner) (rest : list slot) : Prop := {
  dr_own : own (shared (mem s')) rest;
  dr_keeps : keeps rest (shared (mem s)) (shared (mem s'));
  dr_send : exists i', inner_of s' st = Some i' /\ outgoing (mem s') (send_buf i') rest [] /\
    recv_buf i' = recv_buf i /\ pending_data i' = pending_data i /\ state i' = state i /\
    in_fallback_state i' = in_fallback_state i /\ is_from_shm_ (send_buf i') = true;
}.

Lemma recycle_dropped s st i rest xs : inner_of s st = Some i ->
  readable (mem s) (send_buf i) rest xs -> slist_ok (pinned_list_ (send_buf i)) ->
  nodes (pinned_list_ (send_buf i)) = [] ->
  exists s', StreamOps.recycle_send ops s st = Some s' /\ dropped s s' st i rest /\
    queues s' = queues s /\ outbox s' = outbox s /\ exists w i', s' = put_inner (set_mem s w) st i'.
Proof.
  intros Ei Hr Hp Hpn. unfold StreamOps.recycle_send. rewrite Ei. cbn [mbind option_bind].
  destruct (recycle_ok (mem s) (send_buf i) rest xs Hr) as (w' & b' & E & Hr' & Ep & En & Ew & Hlv).
  rewrite E. cbn [mbind option_bind]. eexists. split; [reflexivity|]. split; [|eauto].
  pose proof Hr' as [[Hci Hl _ _ _] Hlen].
  assert (held b' = []) as Eh by (unfold held, slices; now rewrite Ep, En, Hpn).
  assert (is_from_shm_ b' = true) as Esh.
  { unfold LB.recycle in E. destruct (LB.pop_all _ _ _ _) as [[w2 l2]|]; [|discriminate].
    cbn in E. now injection E as _ <-. }
  pose proof (ci_own _ _ _ Hci) as Hown. rewrite Eh in Hown. constructor; cbn.
  - exact Hown.
  - apply Hlv.
  - exists (set_send i b'). split; [apply inner_of_put|]. split; [|auto 6].
    apply outgoing_empty; cbn; auto; try congruence. apply (ci_heap _ _ _ Hci).
Qed.

(** A stream that is not open: nothing is sent. *)
Lemma flush_closed s st i rest xs during : inner_of s st = Some i ->
  outgoing (mem s) (send_buf i) rest xs -> xs <> [] -> state i <> kStreamOpened ->
  exists s', StreamOps.flush ops during s st = Some (fail_with Errors.kStreamClosed, s') /\
    dropped s s' st i rest /\ queues s' = queues s /\ outbox s' = outbox s.
Proof.
  intros Ei Hog Hne Hst. unfold StreamOps.flush. rewrite Ei. cbn [mbind option_bind].
  rewrite (outgoing_len _ _ _ _ Hog), bool_decide_eq_false_2 by exact Hne.
  assert ((state i =? kStreamOpened) = false) as -> by now apply Z.eqb_neq. cbn [negb].
  set (s1 := set_stats s _).
  destruct (recycle_dropped s1 st i rest xs) as (s' & -> & Hd & Hq & Hob & _);
    [exact Ei|now apply outgoing_readable|apply Hog|apply Hog|].
  cbn [mbind option_bind]. exists s'. split; [reflexivity|]. split; [|auto].
  destruct Hd. now constructor.
Qed.

(** A queue that stays full: after ten more attempts the flush gives up. *)
Definition quiet (s s' : SessionShared) : Prop :=
  mem s' = mem s /\ inners s' = inners s /\ queues s' = queues s /\ send_queue s' = send_queue s /\
  outbox s' = outbox s.

Lemma put_message_full s st i a base cap h l root : can_send s a base cap h l ->
  inner_of s st = Some i -> LB.root_buf_offset (send_buf i) = Some root ->
  cap <= Z.of_nat (length l) ->
  StreamOps.put_message s st kStreamOpened = Some (fail_with kQueueFull, s).
Proof.
  intros [Hq Hrep _ _] Ei Hroot Hfull. unfold StreamOps.put_message. rewrite Ei. cbn [mbind option_bind].
  rewrite Hroot, Hq. cbn [mbind option_bind]. rewrite (put_full a base cap _ h l _ Hrep Hfull).
  cbn [mbind option_bind]. now destruct s.
Qed.

Lemma flush_retry_full a base cap h l st i rest xs root during :
  (forall n s, quiet s (during n s)) -> cap <= Z.of_nat (length l) -> state i = kStreamOpened ->
  LB.root_buf_offset (send_buf i) = Some root -> slist_ok (pinned_list_ (send_buf i)) ->
  nodes (pinned_list_ (send_buf i)) = [] ->
  forall n s, inner_of s st = Some i -> readable (mem s) (send_buf i) rest xs ->
  send_queue s = queue_at a base cap -> queue_rep a base cap (queues s) h l ->
  exists s', StreamOps.flush_retry ops during n s st kStreamOpened = Some (fail_with kQueueFull, s') /\
    dropped s s' st i rest /\ queues s' = queues s /\ outbox s' = outbox s.
Proof.
  intros Hd Hfull Ho Hroot Hp Hpn. induction n as [|n IH]; intros s Ei Hr Hq Hrep; cbn [StreamOps.flush_retry].
  - destruct (recycle_dropped s st i rest xs Ei Hr Hp Hpn) as (s' & -> & Hdr & Hqq & Hob & _).
    cbn [mbind option_bind]. eauto 6.
  - destruct (Hd n s) as (Em & Ein & Equ & Esq & Eob). cbn zeta.
    assert (inner_of (during n s) st = Some i) as Ei' by (unfold inner_of; now rewrite Ein).
    rewrite Ei'. cbn [mbind option_bind]. rewrite Ho. change (negb (kStreamOpened =? kStreamOpened)) with false.
    cbn iota. unfold StreamOps.put_message at 1. rewrite Ei'. cbn [mbind option_bind].
    rewrite Hroot, Esq, Equ, Hq. cbn [mbind option_bind].
    rewrite (put_full a base cap _ h l _ Hrep Hfull). cbn [mbind option_bind].
    assert (set_queues (during n s) (queues s) = during n s) as -> by (rewrite <- Equ; now destruct (during n s)).
    change (error_is (of_kind kQueueFull) kQueueFull) with true. unfold fail_with at 1. cbn iota.
    destruct (IH (during n s)) as (s' & E & Hdr & Hqq & Hob); [exact Ei'|congruence|congruence|congruence|].
    exists s'. split; [exact E|]. split; [|split; congruence]. destruct Hdr as [D1 D2 D3].
    constructor; auto. now rewrite <- Em.
Qed.

Lemma flush_full s st i rest xs a base cap h l during : inner_of s st = Some i ->
  outgoing (mem s) (send_buf i) rest xs -> xs <> [] -> is_from_shm_ (send_buf i) = true ->
  state i = kStreamOpened -> in_fallback_state i = false -> can_send s a base cap h l ->
  cap <= Z.of_nat (length l) -> (forall n s, quiet s (during n s)) ->
  exists s', StreamOps.flush ops during s st = Some (fail_with kQueueFull, s') /\
    dropped s s' st i rest /\ queues s' = queues s /\ outbox s' = outbox s.
Proof.
  intros Ei Hog Hne Hsh Ho Hfb Hcs Hfull Hq.
  destruct (flush_done s st i rest xs during Ei Hog Hne Hsh Ho Hfb)
    as (t & ts & m' & _ & Hm & Hown & Hk & Hroot & Hr & ->).
  set (s1 := put_inner _ st i).
  assert (inner_of s1 st = Some i) as Ei1 by apply inner_of_put.
  rewrite (put_message_full s1 st i a base cap h l t.1) by (auto; destruct Hcs; constructor; auto).
  cbn [mbind option_bind]. unfold fail_with at 1. cbn iota.
  change (error_is (of_kind kQueueFull) kQueueFull) with true. cbn iota.
  destruct (flush_retry_full a base cap h l st i rest xs t.1 during Hq Hfull Ho Hroot
    (og_pinned _ _ _ _ Hog) (og_none _ _ _ _ Hog) 10 (set_stats s1 (add_queue_full (stats s1))))
    as (s' & -> & Hdr & Hqq & Hob); auto; [apply Hcs|apply Hcs|].
  exists s'. split; [reflexivity|]. split; [|auto]. destruct Hdr as [D1 D2 D3]. constructor; auto.
  eapply keeps_trans; [exact Hk|exact D2].
Qed.

(** ** The socket *)

(** A fallback event as bytes. *)
Definition fallback_event (version id status : Z) (xs : list Z) : list Z :=
  header_bytes (Z.of_nat (length xs) + 16) version kFallbackData ++ be32 id ++ be32 status ++ xs.

Lemma fallback_encode len version id status :
  FallbackDataEvent.encode (replicate 16 0) len version id status =
    Some (header_bytes len version kFallbackData ++ be32 id ++ be32 status) /\
  FallbackDataEvent.as_slice (header_bytes len version kFallbackData ++ be32 id ++ be32 status) =
    Some (header_bytes len version kFallbackData ++ be32 id ++ be32 status).
Proof. split; reflexivity. Qed.

Lemma fallback_bytes_ok w p s pre : NoDup (fst <$> (pre ++ [(p, s)])) ->
  Forall (slice_wf w) (snd <$> (pre ++ [(p, s)])) -> Forall unread (snd <$> (pre ++ [(p, s)])) ->
  StreamOps.fallback_bytes w (Some p) (pre ++ [(p, s)]) =
  Some (list_bytes w (snd <$> (pre ++ [(p, s)]))).
Proof.
  assert (forall x, slice_wf w x -> unread x ->
    read_place w (data x) 0 (u64 (write_index x - read_index x)) = Some (slice_bytes w x)) as Hrd.
  { intros x Hx [Hr _]. destruct (slice_bytes_wf w x Hx) as [E _]. rewrite E.
    destruct (slice_wf_index w x Hx) as (? & ? & ? & Hsz & _). unfold Slice.size in *. rewrite Hsz.
    rewrite Hr in *. apply (read_wf w x 0); auto; lia. }
  induction pre as [|[j y] pre IH]; intros Hnd Hwf Hun; cbn [app StreamOps.fallback_bytes].
  - cbn in Hwf, Hun. apply Forall_cons_1 in Hwf as [Hw _]. apply Forall_cons_1 in Hun as [Hu _].
    rewrite Hrd by assumption. cbn [mbind option_bind]. rewrite bool_decide_eq_true_2 by reflexivity.
    unfold list_bytes. cbn. now rewrite app_nil_r.
  - change (NoDup (j :: (fst <$> (pre ++ [(p, s)])))) in Hnd. apply NoDup_cons in Hnd as [Hni Hnd].
    change (((j, y) :: pre) ++ [(p, s)]) with ((j, y) :: (pre ++ [(p, s)])) in *.
    rewrite fmap_cons in *. apply Forall_cons_1 in Hwf as [Hw Hwf]. apply Forall_cons_1 in Hun as [Hu Hun].
    cbn [snd] in *. rewrite Hrd by assumption. cbn [mbind option_bind].
    rewrite bool_decide_eq_false_2.
    + rewrite IH by assumption. reflexivity.
    + intros [= ->]. apply Hni. rewrite fmap_app. cbn. set_solver.
Qed.

(** The bytes of the send buffer as [write_fallback] collects them. *)
Lemma outgoing_fallback w w' b rest xs : outgoing w b rest xs -> xs <> [] ->
  readable w' b rest xs ->
  StreamOps.fallback_bytes w' (write_ (slice_list_ b)) (nodes (slice_list_ b)) = Some xs.
Proof.
  intros [[[_ Hl Hu Hb _ _] Hcur _] _ _] Hne [[Hci' _ _ _ Hb'] _]. unfold cursor_ok in Hcur.
  unfold slices in *. destruct (write_ (slice_list_ b)) as [p|].
  2: { rewrite Hcur in Hb. now subst xs. }
  destruct Hcur as (pre & s & En). rewrite En in *. rewrite <- Hb'. apply fallback_bytes_ok; auto.
  - rewrite <- En. apply Hl.
  - pose proof (ci_wf _ _ _ Hci') as Hwf. unfold held, slices in Hwf. rewrite En in Hwf.
    now apply Forall_app in Hwf.
Qed.

(** [flush] hands over to [write_fallback]. *)
Lemma flush_to_fallback s st i rest xs during : inner_of s st = Some i ->
  outgoing (mem s) (send_buf i) rest xs -> xs <> [] -> state i = kStreamOpened ->
  is_from_shm_ (send_buf i) = false \/ in_fallback_state i = true ->
  exists m', keeps rest (shared (mem s)) m' /\
    readable (set_shared (mem s) m') (send_buf i) rest xs /\
    StreamOps.flush ops during s st =
    '(ret, s) ← StreamOps.write_fallback ops
        (put_inner (set_mem (set_stats s (add_out_flow (stats s) (LB.len (send_buf i))))
          (set_shared (mem s) m')) st (set_fallback i true)) st kStreamOpened;
    s ← StreamOps.clean_send s st;
    Some (ret, s).
Proof.
  intros Ei Hog Hne Ho Hfb. unfold StreamOps.flush. rewrite Ei. cbn [mbind option_bind].
  rewrite (outgoing_len _ _ _ _ Hog), bool_decide_eq_false_2 by exact Hne.
  cbn [mem set_stats]. rewrite Ho. change (negb (kStreamOpened =? kStreamOpened)) with false.
  cbn iota. destruct (is_from_shm_ (send_buf i)) eqn:Es.
  - destruct Hfb as [?|Hfb]; [discriminate|].
    destruct (done_message _ _ _ _ Hog Es Hne) as (t & ts & m' & E & _ & _ & _ & Hk & _ & Hr).
    exists m'. split; [exact Hk|]. split; [exact Hr|]. rewrite E. cbn [mbind option_bind].
    unfold LB.is_from_share_memory. rewrite Es, set_send_same, Hfb.
    replace (set_fallback i true) with i by (destruct i; cbn in *; now subst). reflexivity.
  - exists (shared (mem s)). split; [apply keeps_refl|].
    assert (set_shared (mem s) (shared (mem s)) = mem s) as Em by now destruct (mem s).
    rewrite Em. split; [now apply outgoing_readable|].
    unfold LB.done. rewrite Es. cbn [negb mbind option_bind]. unfold LB.is_from_share_memory.
    rewrite Es, set_send_same. reflexivity.
Qed.

Lemma wait_for_send_same s s' hdr body : send_stopped s' = send_stopped s ->
  answers s' = answers s -> outbox s' = outbox s ->
  (wait_for_send s' hdr body).1 = (wait_for_send s hdr body).1 /\
  outbox (wait_for_send s' hdr body).2 = outbox (wait_for_send s hdr body).2 /\
  mem (wait_for_send s' hdr body).2 = mem s' /\ inners (wait_for_send s' hdr body).2 = inners s' /\
  queues (wait_for_send s' hdr body).2 = queues s' /\
  unhealthy (wait_for_send s' hdr body).2 = unhealthy s'.
Proof.
  intros E1 E2 E3. unfold wait_for_send. rewrite E1, E2.
  destruct (send_stopped s); cbn; [auto 10|]. destruct (head (answers s)) as [[]|]; cbn; rewrite ?E3; auto 10.
Qed.

(** [write_fallback]: the bytes go out in one event, whatever the write loop
    makes of it, and the slices are back in the pool. *)
Lemma write_fallback_ok s st i rest xs w : inner_of s st = Some i ->
  outgoing w (send_buf i) rest xs -> readable (mem s) (send_buf i) rest xs -> xs <> [] ->
  Z.of_nat (length xs) <= UINT32_MAX - 16 ->
  let sent := wait_for_send s None (fallback_event (communication_version s) (id_ st) kStreamOpened xs) in
  exists s', StreamOps.write_fallback ops s st kStreamOpened = Some (sent.1, s') /\
    dropped s s' st i rest /\ queues s' = queues s /\ outbox s' = outbox sent.2 /\
    (debug_mode s = false -> unhealthy s = 0 -> unhealthy s' = 1).
Proof.
  intros Ei Hog Hr Hne Hlen sent. pose proof (wb_len _ _ _ _ (og_writable _ _ _ _ Hog)) as Hl.
  unfold StreamOps.write_fallback. rewrite Ei. cbn [mbind option_bind].
  unfold LB.len. rewrite Hl. assert ((UINT32_MAX - 16 <? Z.of_nat (length xs)) = false) as -> by lia.
  unfold UINT32_MAX in Hlen. rewrite u32_id by lia.
  destruct (fallback_encode (Z.of_nat (length xs) + 16) (communication_version s) (id_ st) kStreamOpened)
    as [-> E2]. cbn [mbind option_bind]. rewrite E2. cbn [mbind option_bind]. clear E2.
  rewrite (outgoing_fallback w _ _ rest xs Hog Hne Hr). cbn [mbind option_bind].
  destruct (recycle_dropped s st i rest xs Ei Hr (og_pinned _ _ _ _ Hog) (og_none _ _ _ _ Hog))
    as (s2 & -> & Hd & Hq & Hob & w2 & i2 & Es2). cbn [mbind option_bind].
  set (s3 := set_stats (open_circuit_breaker s2) _). rewrite <- !app_assoc.
  assert (unhealthy s3 = (if debug_mode s then unhealthy s else if unhealthy s =? 0 then 1 else unhealthy s) /\
    send_stopped s3 = send_stopped s /\ answers s3 = answers s /\ mem s3 = mem s2 /\
    inners s3 = inners s2 /\ queues s3 = queues s /\ outbox s3 = outbox s) as (Eu & E1 & E2 & E3 & E4 & E5 & E6).
  { unfold s3, open_circuit_breaker. rewrite Es2. cbn. destruct (debug_mode s); [auto 10|].
    destruct (unhealthy s =? 0); auto 10. }
  change (header_bytes (Z.of_nat (length xs) + 16) _ _ ++ _) with
    (fallback_event (communication_version s) (id_ st) kStreamOpened xs).
  destruct (wait_for_send_same s s3 None (fallback_event (communication_version s) (id_ st) kStreamOpened xs)
    E1 E2 E6) as (W1 & W2 & W3 & W4 & W5 & W6). unfold sent in *. clear sent.
  destruct (wait_for_send s3 None _) as [r s4]. cbn [fst snd] in *.
  exists s4. split; [now rewrite W1|]. split; [|split; [congruence|split; [exact W2|]]].
  - destruct Hd as [D1 D2 (i3 & Ei3 & D3)]. constructor; rewrite ?W3, ?E3; auto.
    exists i3. split; [unfold inner_of in *; now rewrite W4, E4|exact D3].
  - intros Hdb Hu. rewrite W6, Eu, Hdb, Hu. reflexivity.
Qed.

(** A flush through the socket: the bytes go out behind what was sent before,
    and from then on the stream uses the socket only. *)
Lemma flush_fallback s st i rest xs during : inner_of s st = Some i ->
  outgoing (mem s) (send_buf i) rest xs -> xs <> [] -> state i = kStreamOpened ->
  is_from_shm_ (send_buf i) = false \/ in_fallback_state i = true ->
  Z.of_nat (length xs) <= UINT32_MAX - 16 ->
  let sent := wait_for_send s None (fallback_event (communication_version s) (id_ st) kStreamOpened xs) in
  exists s', StreamOps.flush ops during s st = Some (sent.1, s') /\
    dropped s s' st (set_fallback i true) rest /\ queues s' = queues s /\ outbox s' = outbox sent.2 /\
    (debug_mode s = false -> unhealthy s = 0 -> unhealthy s' = 1).
Proof.
  intros Ei Hog Hne Ho Hfb Hlen sent.
  destruct (flush_to_fallback s st i rest xs during Ei Hog Hne Ho Hfb) as (m' & Hk & Hr & ->).
  set (i1 := set_fallback i true). set (s1 := put_inner _ st i1).
  destruct (write_fallback_ok s1 st i1 rest xs (mem s)) as (s4 & -> & Hd & Hq & Hob & Hu); auto.
  { apply inner_of_put. }
  destruct (wait_for_send_same s s1 None (fallback_event (communication_version s) (id_ st) kStreamOpened xs)
    eq_refl eq_refl eq_refl) as (W1 & W2 & _).
  change (communication_version s1) with (communication_version s) in *. rewrite W1. rewrite W2 in Hob.
  cbn [mbind option_bind]. destruct Hd as [D1 D2 (i3 & Ei3 & Hog3 & D3)].
  destruct (clean_send_ok s4 st i3 rest rest [] (mem s4)) as (b' & -> & Hog4 & Hs4); auto; [apply D3| |].
  { apply (ci_heap _ _ _ (wr_inv _ _ _ _ (wb_writing _ _ _ _ (og_writable _ _ _ _ Hog3)))). }
  cbn [mbind option_bind]. eexists. split; [reflexivity|]. split; [|auto].
  constructor; cbn; auto; [eapply keeps_trans; [exact Hk|exact D2]|].
  exists (set_send i3 b'). split; [apply inner_of_put|]. split; [exact Hog4|].
  destruct D3 as (? & ? & ? & ? & _). auto.
Qed.
End send.
