(* ===== verification/StreamClose.v ===== *)
(** Closing a stream ([Stream::close], [clean] and [clean_pending_data] of
    [src/stream.cpp]): whatever is pending,
    unread or unsent goes back to the pool, the stream leaves its session and
    the peer is told. *)
From S2P Require Import Prelude Errors Consts Config Shm Queue Slices Pool Linked.
From S2P Require Import LinkedWrite LinkedRead Wire Stream StreamRecv StreamSend.

Section close.
Context {ops : PoolOps} `{!Pool ops} (fuel : nat).

(** Other slots change hands; the send buffer stays. *)
Lemma outgoing_agree w w' b rest rest' xs : outgoing w b rest xs ->
  agree w w' (slices (slice_list_ b)) ->
  own (shared w') (slots_in (slices (slice_list_ b)) ++ rest') -> heap_ok w' -> outgoing w' b rest' xs.
Proof.
  intros [[[Hci Hl Hu Hb Hs Hcl] Hcur Hlen] Hp Hn] Hag Hown Hh. constructor; auto. constructor; auto.
  constructor; auto; [eapply chain_inv_agree; eauto| |].
  - rewrite <- Hb. apply (agree_list w w'); [exact Hag|apply Hci].
  - rewrite Forall_forall in *. intros t Ht. rewrite <- (Hcl t Ht). f_equal.
    eapply keeps_flag; [apply Hag|exact Ht|].
    apply (own_slot _ _ t (ci_own _ _ _ Hci)). set_solver.
Qed.

(** Everything a stream holds: its receive buffer, the messages pending and its
    send buffer, apart from each other. *)
Record stream_ok (s : SessionShared) (st : Stream) (i : StreamInner) (rest : list slot)
    (xs ys : list Z) (rs : list Z) (slots : list slot) (ss : list BufferSlice) (bs : list Z) : Prop := {
  sk_in : incoming fuel s st i (slots_in (slices (slice_list_ (send_buf i))) ++ rest) xs rs slots ss bs;
  sk_out : outgoing (mem s) (send_buf i) (slots_in (held (recv_buf i)) ++ slots ++ rest) ys;
  sk_apart : forall id, id ∈ storages_in (slices (slice_list_ (send_buf i))) ->
    (id ∉ storages_in ss) /\ (id ∉ storages_in (held (recv_buf i)));
}.

(** The slots of the views that are out. *)
Definition viewed_slots (i : StreamInner) : list slot :=
  slots_in (slices (pinned_list_ (recv_buf i))).

(** The first step of [clean]: the pending messages. *)
Lemma clean_pending_data_ok s st i rest xs ys rs slots ss bs : stream_ok s st i rest xs ys rs slots ss bs ->
  exists w, StreamOps.clean_pending_data ops fuel s st =
      Some (put_inner (set_mem s w) st (set_pending i [])) /\
    keeps rest (shared (mem s)) (shared w) /\
    readable w (recv_buf i) (slots_in (slices (slice_list_ (send_buf i))) ++ rest) rs /\
    outgoing w (send_buf i) (slots_in (held (recv_buf i)) ++ rest) ys.
Proof.
  intros [[Ei Hr Hb Hnd _ _ _] Hog Hap]. pose proof Hr as [[Hci _ _ _ _] _].
  set (snd_slots := slots_in (slices (slice_list_ (send_buf i)))) in *.
  set (rcv_slots := slots_in (held (recv_buf i))) in *.
  destruct (clean_pending_ok fuel (pending_data i) (mem s) slots ss bs (rcv_slots ++ snd_slots ++ rest))
    as (w & E & Hown & Hk & Hhn & Hh & Hhd); auto.
  { eapply own_perm; [|apply (ci_own _ _ _ Hci)]. apply Permutation_app_swap_app. }
  { now apply NoDup_app in Hnd. }
  assert (heap_ok w) as Hok.
  { intros id Hid. rewrite Hhn. apply (ci_heap _ _ _ Hci). auto. }
  exists w. unfold StreamOps.clean_pending_data. rewrite Ei. cbn [mbind option_bind]. rewrite E.
  split; [reflexivity|]. split; [eapply keeps_incl; [exact Hk|set_solver]|]. split.
  - apply (readable_agree (mem s) w _ (slots ++ snd_slots ++ rest)); auto.
    split; [eapply keeps_incl; [exact Hk|unfold rcv_slots; set_solver]|]. intros id Hid. apply Hh.
    apply NoDup_app in Hnd as (_ & Hd & _). intros Hin. now apply (Hd id Hin).
  - apply (outgoing_agree (mem s) w _ (rcv_slots ++ slots ++ rest)); auto.
    + split; [eapply keeps_incl; [exact Hk|unfold snd_slots; set_solver]|]. intros id Hid. apply Hh.
      now apply Hap.
    + eapply own_perm; [|exact Hown]. apply Permutation_app_swap_app.
Qed.

(** The second step: the receive buffer. *)
Lemma recycle_recv_ok s st i rest rs ys : inner_of s st = Some i ->
  readable (mem s) (recv_buf i) (slots_in (slices (slice_list_ (send_buf i))) ++ rest) rs ->
  outgoing (mem s) (send_buf i) (slots_in (held (recv_buf i)) ++ rest) ys ->
  (forall id, id ∈ storages_in (slices (slice_list_ (send_buf i))) ->
     id ∉ storages_in (held (recv_buf i))) ->
  exists w b, StreamOps.recycle_recv ops s st = Some (put_inner (set_mem s w) st (set_recv i b)) /\
    keeps rest (shared (mem s)) (shared w) /\ len_ b = 0 /\ nodes (slice_list_ b) = [] /\
    pinned_list_ b = pinned_list_ (recv_buf i) /\
    outgoing w (send_buf i) (viewed_slots i ++ rest) ys.
Proof.
  intros Ei Hr Hog Hap. unfold StreamOps.recycle_recv. rewrite Ei. cbn [mbind option_bind].
  destruct (recycle_ok (mem s) (recv_buf i) _ rs Hr) as (w & b & -> & Hr' & Ep & En & Ew & Hlv).
  cbn [mbind option_bind]. exists w, b. split; [reflexivity|].
  pose proof Hr' as [[Hci' _ _ _ _] Hlen]. pose proof Hlv as [K N H].
  split; [eapply keeps_incl; [exact K|set_solver]|]. split; [exact Hlen|]. split; [exact En|].
  split; [exact Ep|].
  assert (held b = slices (pinned_list_ (recv_buf i))) as Eh by (unfold held, slices; now rewrite Ep, En).
  apply (outgoing_agree (mem s) w _ (slots_in (held (recv_buf i)) ++ rest)); auto; [| |apply Hci'].
  - split; [eapply keeps_incl; [exact K|set_solver]|]. intros id Hid. apply H; [|now apply Hap].
    pose proof (wr_inv _ _ _ _ (wb_writing _ _ _ _ (og_writable _ _ _ _ Hog))) as Hci.
    apply (ci_heap _ _ _ Hci). apply (heap_ids _ _ (ci_wf _ _ _ Hci) id Hid).
  - eapply own_perm; [|apply (ci_own _ _ _ Hci')]. rewrite Eh. apply Permutation_app_swap_app.
Qed.

(** [clean]: all goes back but the slices whose views were not released. *)
Lemma clean_ok s st i rest xs ys rs slots ss bs : stream_ok s st i rest xs ys rs slots ss bs ->
  exists s' i', StreamOps.clean ops fuel s st = Some s' /\ inner_of s' st = Some i' /\
    own (shared (mem s')) (viewed_slots i ++ rest) /\
    keeps rest (shared (mem s)) (shared (mem s')) /\
    (exists t, s' = set_inners (set_mem (on_stream_close s (id_ st)) (mem s')) t (next_inner s) /\
       forall k, k <> inner_ st -> t !! k = inners s !! k) /\
    pending_data i' = [] /\ nodes (slice_list_ (recv_buf i')) = [] /\
    outgoing (mem s') (send_buf i') (viewed_slots i ++ rest) [] /\ state i' = state i /\
    in_fallback_state i' = in_fallback_state i.
Proof.
  intros Hok. pose proof Hok as [[Ei _ _ _ _ _ _] _ Hap]. unfold StreamOps.clean.
  set (s0 := on_stream_close s (id_ st)).
  assert (stream_ok s0 st i rest xs ys rs slots ss bs) as Hok0 
    by (destruct Hok as [[] ? ?]; constructor; [constructor|..]; assumption).
  destruct (clean_pending_data_ok _ _ _ _ _ _ _ _ _ _ Hok0) as (w1 & -> & Hk1 & Hr1 & Hog1).
  cbn [mbind option_bind]. set (s1 := put_inner _ st _).
  destruct (recycle_recv_ok s1 st (set_pending i []) rest rs ys) as (w2 & b2 & -> & Hk2 & Hl2 & Hn2 & Hp2 & Hog2);
    auto; [apply inner_of_put|intros id Hid; now apply Hap|].
  cbn [mbind option_bind]. set (i2 := set_recv _ b2). set (s2 := put_inner _ st i2).
  assert (inner_of s2 st = Some i2) as Ei2 by apply inner_of_put.
  destruct (recycle_dropped s2 st i2 (viewed_slots i ++ rest) ys Ei2)
    as (s3 & -> & Hd & Hq & Hob & w3 & i3 & Es3); [now apply outgoing_readable|apply Hog2|apply Hog2|].
  destruct Hd as [D1 D2 (i' & Ei' & Hog' & E1 & E2 & E3 & E4 & _)].
  exists s3, i'. split; [reflexivity|]. split; [exact Ei'|]. split; [exact D1|].
  split; [|split; [|split; [now rewrite E2|split; [now rewrite E1|split; [exact Hog'|now rewrite E3, E4]]]]].
  - eapply keeps_trans; [exact Hk1|]. eapply keeps_trans; [exact Hk2|].
    eapply keeps_incl; [exact D2|set_solver].
  - rewrite Es3. eexists. split; [reflexivity|]. intros k Hk. cbn. now rewrite !lookup_insert_ne.
Qed.

Lemma wait_for_send_streams s hdr body : streams (wait_for_send s hdr body).2 = streams s.
Proof.
  unfold wait_for_send. destruct (send_stopped s); [reflexivity|].
  now destruct (head (answers s)) as [[]|].
Qed.

(** What closing a stream leaves behind. *)
Record closed (s s' : SessionShared) (st : Stream) (i : StreamInner) (rest : list slot) : Prop := {
  cl_own : own (shared (mem s')) (viewed_slots i ++ rest);
  cl_keeps : keeps rest (shared (mem s)) (shared (mem s'));
  cl_inner : exists i', inner_of s' st = Some i' /\ state i' = kStreamClosed /\ pending_data i' = [] /\
    nodes (slice_list_ (recv_buf i')) = [] /\
    outgoing (mem s') (send_buf i') (viewed_slots i ++ rest) [];
  cl_streams : streams s' = delete (id_ st) (streams s);
  cl_others : forall k, k <> inner_ st -> inners s' !! k = inners s !! k;
}.

Lemma stream_ok_state s st i rest xs ys rs slots ss bs v : stream_ok s st i rest xs ys rs slots ss bs ->
  stream_ok (put_inner s st (set_state i v)) st (set_state i v) rest xs ys rs slots ss bs.
Proof.
  intros [[Ei Hr Hb Hnd Hx Hn Hxs] Hog Hap]. constructor; auto. constructor; auto. apply inner_of_put.
Qed.

(** [close] up to the message to the peer. *)
Lemma close_cleans s st i rest xs ys rs slots ss bs : stream_ok s st i rest xs ys rs slots ss bs ->
  state i <> kStreamClosed ->
  exists s', StreamOps.clean ops fuel (put_inner s st (set_state i kStreamClosed)) st = Some s' /\
    closed s s' st i rest /\ queues s' = queues s /\ outbox s' = outbox s /\
    send_queue s' = send_queue s /\ communication_version s' = communication_version s /\
    shutdown s' = shutdown s /\ answers s' = answers s /\ send_stopped s' = send_stopped s.
Proof.
  intros Hok Hst. pose proof (stream_ok_state _ _ _ _ _ _ _ _ _ _ kStreamClosed Hok) as Hok1.
  destruct (clean_ok _ _ _ _ _ _ _ _ _ _ Hok1)
    as (s' & i' & E & Ei' & Hown & Hk & (t & Es' & Ht) & Hp & Hn & Hog & Hst' & Hfb').
  exists s'. split; [exact E|].
  split; [|rewrite Es'; cbn; auto 10].
  constructor; auto.
  - exists i'. auto.
  - rewrite Es'. reflexivity.
  - intros k Hk'. rewrite Es'. cbn. rewrite Ht by exact Hk'. cbn. now rewrite lookup_insert_ne.
Qed.

Lemma close_start s st i : inner_of s st = Some i -> state i = kStreamOpened ->
  forall s1, StreamOps.clean ops fuel (put_inner s st (set_state i kStreamClosed)) st = Some s1 ->
  shutdown s1 <> 1 ->
  StreamOps.close ops fuel s st =
  '(sent, s) ← (if negb (in_fallback_state i) then
                  '(r, m) ← put (queues s1) (send_queue s1) (mkElem (id_ st) 0 kStreamClosed);
                  let s := set_queues s1 m in
                  if is_ok r then Some (true, s)
                  else Some (false, set_stats s (add_queue_full (stats s)))
                else Some (false, s1));
  if (sent : bool) then wake_up_peer s else
  event ← stream_close_event (communication_version s) (id_ st);
  Some (wait_for_send s None event).
Proof.
  intros Ei Ho s1 E Hsd. unfold StreamOps.close. rewrite Ei. cbn [mbind option_bind]. rewrite Ho.
  change (kStreamOpened =? kStreamClosed) with false. cbn iota. rewrite E. cbn [mbind option_bind].
  change (negb (kStreamOpened =? kStreamOpened)) with false. cbn iota.
  assert ((shutdown s1 =? 1) = false) as -> by now apply Z.eqb_neq. reflexivity.
Qed.

(** Closing an open stream through the queue. *)
Lemma close_by_queue s st i rest xs ys rs slots ss bs a base cap h l :
  stream_ok s st i rest xs ys rs slots ss bs -> state i = kStreamOpened -> in_fallback_state i = false ->
  shutdown s <> 1 -> can_send s a base cap h l -> 0 <= id_ st < 4294967296 ->
  Z.of_nat (length l) < cap -> h + Z.of_nat (length l) + 1 < 9223372036854775808 ->
  exists s', StreamOps.close ops fuel s st = Some (Ok tt, s') /\ closed s s' st i rest /\
    can_send s' a base cap h (l ++ [mkElem (id_ st) 0 kStreamClosed]) /\
    flag_of a base cap (queues s') <> 0.
Proof.
  intros Hok Ho Hfb Hsd [Hq Hrep Hcap Hv] Hid Hroom Hbig.
  destruct (close_cleans _ _ _ _ _ _ _ _ _ _ Hok) as (s1 & E & Hcl & Equ & Eob & Esq & Ecv & Esd & _);
    [now rewrite Ho|].
  rewrite (close_start s st i (in_inner _ _ _ _ _ _ _ _ _ _ (sk_in _ _ _ _ _ _ _ _ _ _ Hok)) Ho s1 E) by congruence.
  rewrite Hfb. cbn [negb]. rewrite Esq, Equ, Hq.
  assert (elem_wf (mkElem (id_ st) 0 kStreamClosed)) as Hel by (unfold elem_wf, kStreamClosed; cbn; lia).
  rewrite (put_run a base cap _ h l _ Hrep Hroom Hbig). cbn [mbind option_bind is_ok].
  pose proof (put_rep a base cap _ h l _ Hrep Hel Hroom Hbig) as Hrep1.
  destruct (wake_up_peer_ok (set_queues s1 (put_mem a base cap (queues s) (h + Z.of_nat (length l))
    (mkElem (id_ st) 0 kStreamClosed))) a base cap h (l ++ [mkElem (id_ st) 0 kStreamClosed]))
    as (m2 & s2 & -> & Es2 & Hrep2 & Ho2 & Hf2).
  { constructor; cbn; congruence || lia. }
  exists s2. split; [reflexivity|]. rewrite Es2. cbn. split; [|split; [|exact Hf2]].
  - destruct Hcl. now constructor.
  - constructor; cbn; congruence || lia.
Qed.

Lemma stream_close_bytes version id :
  stream_close_event version id = Some (header_bytes 12 version kStreamClose ++ be32 id).
Proof. reflexivity. Qed.

(** Closing an open stream through the socket, when the stream is in the
    fallback state or the queue is full. *)
Lemma close_by_socket s st i rest xs ys rs slots ss bs a base cap h l :
  stream_ok s st i rest xs ys rs slots ss bs -> state i = kStreamOpened ->
  shutdown s <> 1 -> can_send s a base cap h l ->
  in_fallback_state i = true \/ cap <= Z.of_nat (length l) ->
  let sent := wait_for_send s None
    (header_bytes 12 (communication_version s) kStreamClose ++ be32 (id_ st)) in
  exists s', StreamOps.close ops fuel s st = Some (sent.1, s') /\ closed s s' st i rest /\
    queues s' = queues s /\ outbox s' = outbox sent.2.
Proof.
  intros Hok Ho Hsd [Hq Hrep Hcap Hv] Hfull sent.
  destruct (close_cleans _ _ _ _ _ _ _ _ _ _ Hok) as (s1 & E & Hcl & Equ & Eob & Esq & Ecv & Esd & Ean & Est);
    [now rewrite Ho|].
  rewrite (close_start s st i (in_inner _ _ _ _ _ _ _ _ _ _ (sk_in _ _ _ _ _ _ _ _ _ _ Hok)) Ho s1 E) by congruence.
  assert (exists s2, (if negb (in_fallback_state i) then
      '(r, m) ← put (queues s1) (send_queue s1) (mkElem (id_ st) 0 kStreamClosed);
      let s := set_queues s1 m in
      if is_ok r then Some (true, s) else Some (false, set_stats s (add_queue_full (stats s)))
    else Some (false, s1)) = Some (false, s2) /\ exists t, s2 = set_stats s1 t) as (s2 & -> & t & ->).
  { destruct (in_fallback_state i); cbn [negb]; [exists s1; split; [reflexivity|exists (stats s1); now destruct s1]|].
    destruct Hfull as [?|Hfull]; [discriminate|]. rewrite Esq, Equ, Hq.
    rewrite (put_full a base cap _ h l _ Hrep Hfull). cbn [mbind option_bind is_ok fail_with].
    eexists. split; [reflexivity|]. eexists. rewrite <- Equ. now destruct s1. }
  cbn [mbind option_bind]. rewrite stream_close_bytes. cbn [mbind option_bind communication_version set_stats].
  rewrite Ecv. destruct (wait_for_send_same s (set_stats s1 t) None
    (header_bytes 12 (communication_version s) kStreamClose ++ be32 (id_ st)) Est Ean Eob)
    as (W1 & W2 & W3 & W4 & W5 & _). unfold sent in *. clear sent.
  pose proof (wait_for_send_streams (set_stats s1 t) None
    (header_bytes 12 (communication_version s) kStreamClose ++ be32 (id_ st))) as W6.
  destruct (wait_for_send (set_stats s1 t) None _) as [r s3].
  cbn [fst snd mem inners queues streams set_stats] in *. exists s3. split; [now rewrite W1|]. split; [|split; [congruence|exact W2]].
  destruct Hcl as [C1 C2 C3 C4 C5]. constructor; unfold inner_of in *; rewrite ?W3, ?W4, ?W6; auto.
Qed.

(** Closing again does nothing, nor does closing what the peer closed send. *)
Lemma close_closed s st i : inner_of s st = Some i -> state i = kStreamClosed ->
  StreamOps.close ops fuel s st = Some (Ok tt, s).
Proof.
  intros Ei Hc. unfold StreamOps.close. rewrite Ei. cbn [mbind option_bind]. rewrite Hc.
  change (kStreamClosed =? kStreamClosed) with true. cbn iota. do 2 f_equal.
  replace (set_state i kStreamClosed) with i by (destruct i; cbn in *; now subst).
  now rewrite put_inner_same.
Qed.

Lemma close_half_closed s st i rest xs ys rs slots ss bs :
  stream_ok s st i rest xs ys rs slots ss bs -> state i = kStreamHalfClosed ->
  exists s', StreamOps.close ops fuel s st = Some (Ok tt, s') /\ closed s s' st i rest /\
    queues s' = queues s /\ outbox s' = outbox s.
Proof.
  intros Hok Hh.
  destruct (close_cleans _ _ _ _ _ _ _ _ _ _ Hok) as (s1 & E & Hcl & Equ & Eob & _); [now rewrite Hh|].
  exists s1. split; [|auto]. unfold StreamOps.close.
  rewrite (in_inner _ _ _ _ _ _ _ _ _ _ (sk_in _ _ _ _ _ _ _ _ _ _ Hok)). cbn [mbind option_bind].
  rewrite Hh. change (kStreamHalfClosed =? kStreamClosed) with false. cbn iota. rewrite E. reflexivity.
Qed.
End close.
