(* ===== verification/Session.v ===== *)
(** Sessions: [src/session.cpp], [include/shmipc/session.hpp] and the pool of
    idle streams, [src/stream_pool.cpp].

    The state is [SessionShared] of [Stream].  What the other threads and the
    peer do where an operation waits or yields is an argument of it.  The
    loops of the threads a session starts are in [Loops]. *)
From S2P Require Import Prelude Errors Consts Config Shm Queue Slices Pool Linked Wire Stream.

(** [Session::EventResult] and [Session::HandlerResult]. *)
Record EventResult := mkEvent { er_consumed : Z; er_required : Z; er_err : option Error }.
Record HandlerResult := mkHandler {
  hr_consumed : Z; hr_required : Z; hr_stop : bool; hr_err : option Error;
}.

Definition is_healthy (s : SessionShared) : bool := unhealthy s =? 0.
Definition is_closed (s : SessionShared) : bool := shutdown s =? 1.

Section ops.
Variable ops : PoolOps.
Variable fuel : nat.

(** * The pool of idle streams *)

(** [StreamPool::push]: a stream for which there is no room is closed. *)
Definition pool_push (s : SessionShared) (st : Stream) : option (result unit * SessionShared) :=
  if Z.of_nat (length (pool_streams s)) <? pool_capacity s
  then Some (Ok tt, set_pool s (pool_streams s ++ [st]))
  else
    '(_, s) ← StreamOps.close ops fuel s st;
    Some (fail_with kStreamPoolFull, s).

Definition pool_pop (s : SessionShared) : option Stream * SessionShared :=
  match pool_streams s with
  | [] => (None, s)
  | st :: l => (Some st, set_pool s l)
  end.

(** [StreamPool::close]; closing a stream does not push to the pool. *)
Fixpoint pool_close (n : nat) (s : SessionShared) : option SessionShared :=
  match pool_pop s with
  | (None, s) => Some s
  | (Some st, s) =>
      match n with
      | O => None
      | S n' => '(_, s) ← StreamOps.close ops fuel s st; pool_close n' s
      end
  end.

(** * Opening, reusing and closing *)

Definition open_stream (s : SessionShared) (session_id : Z)
    : option (result Stream * SessionShared) :=
  if is_closed s then
    let err := shutdown_err s in
    let s := set_shutdown_err s None in
    match err with
    | Some e => Some (Unexpected e, s)
    | None => Some (fail_with kSessionShutdown, s)
    end
  else if unhealthy s =? 1 then Some (fail_with kSessionUnhealthy, s)
  else
    let old := next_stream_id s in
    let s := set_next_id s (u32 (old + 1)) in
    let id := u32 (old + 1) in
    if bool_decide (is_Some (streams s !! id)) then Some (fail_with kStreamsExhausted, s) else
    let '(st, s) := StreamOps.make s id session_id in
    Some (Ok st, set_streams s (<[id := st]> (streams s))).

(** The loop over the idle streams: the closed ones are left behind. *)
Fixpoint pop_open (n : nat) (s : SessionShared) : option (option Stream * SessionShared) :=
  match pool_pop s with
  | (None, s) => Some (None, s)
  | (Some st, s) =>
      i ← inner_of s st;
      if StreamOps.is_open i then Some (Some st, s) else
      match n with
      | O => None
      | S n' => pop_open n' s
      end
  end.

Definition get_or_open_stream (s : SessionShared) (session_id : Z)
    : option (result Stream * SessionShared) :=
  if negb (is_healthy s) then Some (fail_with kSessionUnhealthy, s) else
  '(o, s) ← pop_open (length (pool_streams s)) s;
  match o with
  | Some st => Some (Ok st, s)
  | None => open_stream s session_id
  end.

Definition put_or_close_stream (s : SessionShared) (st : Stream) : option SessionShared :=
  i ← inner_of s st;
  if StreamOps.fallback_state i then
    '(_, s) ← StreamOps.close ops fuel s st; Some s
  else
  '(r, s) ← StreamOps.reset s st;
  match r with
  | Ok _ =>
      s ← StreamOps.release_read_and_reuse ops s st;
      '(_, s) ← pool_push s st;
      Some s
  | Unexpected _ => '(_, s) ← StreamOps.close ops fuel s st; Some s
  end.

(** [Stream::reuse]. *)
Definition reuse (s : SessionShared) (st : Stream) : option SessionShared := put_or_close_stream s st.

(** [close] of every stream in [l]. *)
Fixpoint close_streams (s : SessionShared) (l : list Stream) : option SessionShared :=
  match l with
  | [] => Some s
  | st :: l' => '(_, s) ← StreamOps.close ops fuel s st; close_streams s l'
  end.

(** [Session::close] without the mappings and the socket it lets go and the
    accept channel it stops; the streams are closed in the order of the table. *)
Definition close (s : SessionShared) : option SessionShared :=
  if negb (shutdown s =? 0) then Some s else
  let s := set_shutdown s 1 in
  s ← pool_close (length (pool_streams s)) s;
  let all := snd <$> map_to_list (streams s) in
  let s := set_streams s ∅ in
  s ← close_streams s all;
  Some (set_stopped s).

Definition exit_err (s : SessionShared) (err : Error) : option SessionShared :=
  let s := set_stats s (add_conn_error (stats s)) in
  let s := set_shutdown_err s (Some err) in
  close s.

(** * Events *)

(** A stream the peer opened is made on the server's side; [accept_tx] hands it
    to the listener. *)
Definition get_stream (s : SessionShared) (id st_state : Z) : option Stream * SessionShared :=
  match streams s !! id with
  | Some st => (Some st, s)
  | None =>
      if negb (is_client s) && (st_state =? kStreamOpened) then
        let '(st, s) := StreamOps.make s id 0 in
        let s := set_streams s (<[id := st]> (streams s)) in
        (Some st, set_accepted s ((fun l => l ++ [st]) <$> accepted s))
      else (None, s)
  end.

(** [stream.half_close()]. *)
Definition half_close (s : SessionShared) (st : Stream) : option SessionShared :=
  i ← inner_of s st;
  Some (put_inner s st (StreamOps.half_close i)).

Definition handle_stream_message (s : SessionShared) (st : Stream) (d : BufferSliceWrapper)
    (st_state : Z) : option (result unit * SessionShared) :=
  if st_state =? kStreamClosed then s ← half_close s st; Some (Ok tt, s)
  else StreamOps.fill_data_to_read_buffer ops fuel s st d.

(** The inner loop of [handle_polling]: the elements of the queue, until it is
    empty.  The result is the error to report, with [true] when the loop was
    left by a return. *)
Fixpoint drain (n : nat) (s : SessionShared) (ret_err : option Error)
    : option (bool * option Error * SessionShared) :=
  '(r, m) ← pop (queues s) (recv_queue s);
  match r with
  | Unexpected _ => Some (false, ret_err, set_queues s m)
  | Ok ele =>
      match n with
      | O => None
      | S n' =>
          let s := set_queues s m in
          let st_state := Z.land (status ele) 0xff in
          let '(o, s) := get_stream s (seq_id ele) st_state in
          match o with
          | Some st =>
              '(r, s) ← handle_stream_message s st (mkWrapper None (offset_in_shm_buf ele)) st_state;
              drain n' s (match r with Ok _ => ret_err | Unexpected e => Some e end)
          | None =>
              if st_state =? kStreamOpened then
                r ← read_buffer_slice ops (shared (mem s)) (offset_in_shm_buf ele);
                match r with
                | Unexpected e => Some (true, Some e, s)
                | Ok slice =>
                    w ← recycle_buffers ops fuel (mem s) slice;
                    drain n' (set_mem s w) ret_err
                end
              else drain n' s ret_err
          end
      end
  end.

(** The outer loop of [handle_polling].  [during] is what happens while the thread yields; when
    elements arrived meanwhile [mark_not_working] fails and the loop goes on.
    [n] bounds the elements of one round, the length of [during] the rounds. *)
Fixpoint poll_rounds (n : nat) (during : list (SessionShared -> SessionShared))
    (s : SessionShared) (ret_err : option Error) : option (HandlerResult * SessionShared) :=
  '(returned, ret_err, s) ← drain n s ret_err;
  if (returned : bool) then Some (mkHandler kHeaderSize kHeaderSize false ret_err, s) else
  let s := match during with [] => s | f :: _ => f s end in
  '(done, m) ← mark_not_working (queues s) (recv_queue s);
  let s := set_queues s m in
  if (done : bool) then Some (mkHandler kHeaderSize kHeaderSize false ret_err, s) else
  match during with
  | [] => None
  | _ :: during' => poll_rounds n during' s ret_err
  end.

Definition handle_polling (n : nat) (during : list (SessionShared -> SessionShared))
    (s : SessionShared) : option (HandlerResult * SessionShared) :=
  poll_rounds n during (set_stats s (add_recv_polling (stats s))) None.

Definition handle_fallback_data (s : SessionShared) (event_len : Z) (buf : list Z)
    : option (HandlerResult * SessionShared) :=
  let payload_len := u64 (event_len - kHeaderSize) in
  let kFallbackDataHeader := 8 in
  if Z.of_nat (length buf) <? payload_len then Some (mkHandler 0 event_len true None, s) else
  if payload_len <? kFallbackDataHeader then None else
  let data := take (Z.to_nat (payload_len - kFallbackDataHeader))
                (drop (Z.to_nat kFallbackDataHeader) buf) in
  seq_id ← load_be_u32 buf 0;
  status ← load_be_u32 buf 4;
  let status := Z.land status 0xff in
  let s := open_circuit_breaker s in
  let '(slice, w) := Slice.from_heap (mem s) data in
  let slice := set_indices slice (read_index slice) (Slices.cap slice) in
  let s := set_stats (set_mem s w) (add_fallback_read (stats s)) in
  let '(o, s) := get_stream s seq_id status in
  match o with
  | Some st =>
      '(r, s) ← handle_stream_message s st (mkWrapper (Some slice) 0) status;
      Some (mkHandler event_len kHeaderSize false
              (match r with Ok _ => None | Unexpected e => Some e end), s)
  | None => Some (mkHandler event_len kHeaderSize false None, set_mem s (Slice.destroy (mem s) slice))
  end.

Definition handle_stream_close (s : SessionShared) (buf : list Z)
    : option (HandlerResult * SessionShared) :=
  let kIdLen := 4 in
  if Z.of_nat (length buf) <? kIdLen then Some (mkHandler 0 (kHeaderSize + kIdLen) true None, s) else
  id ← load_be_u32 buf 0;
  match streams s !! id with
  | Some st =>
      s ← half_close (set_streams s (delete id (streams s))) st;
      Some (mkHandler (kHeaderSize + kIdLen) kHeaderSize false None, s)
  | None => Some (mkHandler (kHeaderSize + kIdLen) kHeaderSize false None, s)
  end.

(** [handle_events]: the complete events of [buf], one after the other.  Each
    turn but the last consumes a header at least. *)
Fixpoint handle_events (turns n : nat) (during : list (SessionShared -> SessionShared))
    (s : SessionShared) (buf : list Z) (consumed : Z) : option (EventResult * SessionShared) :=
  if u64 (Z.of_nat (length buf) - consumed) <? kHeaderSize
  then Some (mkEvent consumed kHeaderSize None, s) else
  match turns with
  | O => None
  | S turns' =>
      let rest := drop (Z.to_nat consumed) buf in
      valid ← check_event_valid rest 0;
      match valid with
      | Unexpected e => Some (mkEvent (consumed + kHeaderSize) kHeaderSize (Some e), s)
      | Ok _ =>
          msg_type ← Header.msg_type rest 0;
          let body := drop (Z.to_nat kHeaderSize) rest in
          let handled :=
            if msg_type =? kPolling then r ← handle_polling n during s; Some (Some r)
            else if msg_type =? kStreamClose then r ← handle_stream_close s body; Some (Some r)
            else if msg_type =? kFallbackData then
              len ← Header.length rest 0;
              r ← handle_fallback_data s len body; Some (Some r)
            else Some None in
          o ← handled;
          match o with
          | None => Some (mkEvent (consumed + kHeaderSize) kHeaderSize (Some (of_kind kInvalidMsgType)), s)
          | Some (hr, s) =>
              let consumed := u64 (consumed + hr_consumed hr) in
              match hr_err hr with
              | Some e => Some (mkEvent consumed kHeaderSize (Some e), s)
              | None =>
                  if hr_stop hr then Some (mkEvent consumed (hr_required hr) None, s)
                  else handle_events turns' n during s buf consumed
              end
          end
      end
  end.
End ops.
