(* ===== verification/Delivery.v ===== *)
(** From one process to the other: the receiving end of a session
    ([Session::handle_polling], [get_stream], [handle_stream_message] of
    [src/session.cpp]) delivers the elements of the queue to their streams in
    order, and what was flushed on one side is what is read on the other. *)
From S2P Require Import Prelude Errors Consts Config Shm Queue Slices Pool Linked.
From S2P Require Import LinkedWrite LinkedRead Wire Stream StreamRecv StreamSend.
From S2P Require Import Session.

Section delivery.
Context {ops : PoolOps} `{!Pool ops} (fuel : nat).

(** * The elements of the queue *)

(** What one element does to the stream it is for. *)
Definition takes (e : QueueElement) (i : StreamInner) : StreamInner :=
  if Z.land (status e) 0xff =? kStreamClosed then StreamOps.half_close i
  else set_pending i (pending_data i ++ [mkWrapper None (offset_in_shm_buf e)]).

Definition takes_all (l : list QueueElement) (id : Z) (i : StreamInner) : StreamInner :=
  foldl (fun i e => if seq_id e =? id then takes e i else i) i l.

(** The table of streams: each stream is there under its id, has an object of
    its own and has not been closed on this side. *)
Record table_ok (s : SessionShared) : Prop := {
  to_inner : forall id st, streams s !! id = Some st ->
    exists i, inner_of s st = Some i /\ state i <> kStreamClosed;
  to_apart : forall id id' st st', streams s !! id = Some st -> streams s !! id' = Some st' ->
    inner_ st = inner_ st' -> id = id';
}.

Lemma takes_state e i : state i <> kStreamClosed -> state (takes e i) <> kStreamClosed.
Proof.
  intros H. unfold takes. destruct (_ =? _); [|exact H]. unfold StreamOps.half_close.
  destruct (state i =? kStreamOpened); [discriminate|exact H].
Qed.

(** One element, for a stream of the table. *)
Lemma deliver_one s st i e : inner_of s st = Some i -> state i <> kStreamClosed ->
  handle_stream_message ops fuel s st (mkWrapper None (offset_in_shm_buf e))
    (Z.land (status e) 0xff) = Some (Ok tt, put_inner s st (takes e i)).
Proof.
  intros Ei Hst. unfold handle_stream_message, takes. destruct (_ =? kStreamClosed).
  - unfold half_close. rewrite Ei. reflexivity.
  - unfold StreamOps.fill_data_to_read_buffer. rewrite Ei. cbn [mbind option_bind].
    assert ((state i =? kStreamClosed) = false) as -> by now apply Z.eqb_neq. reflexivity.
Qed.

(** The state after [l] was delivered. *)
Record delivered (s s' : SessionShared) (l : list QueueElement) : Prop := {
  de_fixed : fixed s s';
  de_streams : streams s' = streams s;
  de_mem : mem s' = mem s;
  de_outbox : outbox s' = outbox s;
  de_inner : forall id st i, streams s !! id = Some st -> inner_of s st = Some i ->
    inner_of s' st = Some (takes_all l id i);
}.

Lemma drain_ok a base cap l : forall n s h err, recv_queue s = queue_at a base cap ->
  queue_rep a base cap (queues s) h l -> (length l <= n)%nat -> table_ok s ->
  Forall (fun e => is_Some (streams s !! seq_id e)) l ->
  exists s', drain ops fuel n s err = Some (false, err, s') /\ delivered s s' l /\
    queue_rep a base cap (queues s') (h + Z.of_nat (length l)) [] /\
    same_outside base (24 + 12 * cap) (queues s) (queues s') /\ table_ok s'.
Proof.
  induction l as [|e l IH]; intros n s h err Hq Hrep Hn Htab Hall.
  - exists s. assert (set_queues s (queues s) = s) as Es by now destruct s.
    destruct n; cbn [drain]; rewrite Hq, (pop_empty a base cap _ h Hrep); cbn [mbind option_bind fail_with];
      rewrite Es; cbn [length Z.of_nat]; rewrite Z.add_0_r;
      (split; [reflexivity|]); (split; [constructor; auto using fixed_refl|]); auto using same_outside_refl.
  - destruct n as [|n]; [cbn in Hn; lia|]. cbn [drain].
    rewrite Hq, (pop_run a base cap _ h e l Hrep). cbn [mbind option_bind].
    pose proof (pop_rep a base cap _ h e l Hrep) as Hrep1.
    set (m1 := put64 (queues s) _ _) in *. apply Forall_cons_1 in Hall as [[st Est] Hall].
    destruct (to_inner _ Htab _ _ Est) as (i & Ei & Hst). unfold get_stream. cbn [streams set_queues].
    rewrite Est, (deliver_one (set_queues s m1) st i e Ei Hst). cbn [mbind option_bind].
    set (s1 := put_inner (set_queues s m1) st (takes e i)).
    assert (forall id st', streams s !! id = Some st' -> id <> seq_id e -> inner_ st' <> inner_ st) as Hne.
    { intros id st' Hs Hid E. apply Hid. eapply (to_apart _ Htab); eauto. }
    assert (table_ok s1) as Htab1.
    { constructor; [|apply Htab]. intros id st' Hs. destruct (decide (inner_ st' = inner_ st)) as [E|E].
      - exists (takes e i). split; [|now apply takes_state]. unfold inner_of. rewrite E. apply inner_of_put.
      - destruct (to_inner _ Htab _ _ Hs) as (i' & Ei' & Hst'). exists i'. split; [|exact Hst'].
        unfold inner_of, s1. cbn. now rewrite lookup_insert_ne. }
    destruct (IH n s1 (h + 1) err) as (s' & -> & [D0 D1 D2 D3 D4] & Hrep' & Hout & Htab'); auto; [cbn in Hn; lia|].
    exists s'. split; [reflexivity|]. split; [|split; [|split; [|exact Htab']]].
    3: { eapply same_outside_trans; [|exact Hout]. exact (pop_outside a base cap _ _ _ _ Hrep). }
    + constructor; auto; [destruct D0; now constructor|]. intros id st' i' Hs Hi'. cbn [takes_all foldl].
      apply (D4 id); [exact Hs|]. destruct (Z.eqb_spec (seq_id e) id) as [<-|Hid].
      * rewrite Est in Hs. injection Hs as <-. rewrite Ei in Hi'. injection Hi' as <-. apply inner_of_put.
      * unfold inner_of, s1. cbn. rewrite lookup_insert_ne; [exact Hi'|].
        intros E. apply (Hne id st' Hs); congruence.
    + cbn [length]. now replace (h + Z.of_nat (S (length l))) with (h + 1 + Z.of_nat (length l)) by lia.
Qed.

(** [handle_polling]: the queue is emptied, every element has reached its
    stream and the flag is cleared, so that the next flush wakes this side up
    again. *)
Lemma polling_ok a base cap l n s h : recv_queue s = queue_at a base cap ->
  queue_rep a base cap (queues s) h l -> (length l <= n)%nat -> table_ok s ->
  Forall (fun e => is_Some (streams s !! seq_id e)) l ->
  exists s', handle_polling ops fuel n [] s =
      Some (mkHandler kHeaderSize kHeaderSize false None, s') /\ delivered s s' l /\
    queue_rep a base cap (queues s') (h + Z.of_nat (length l)) [] /\
    flag_of a base cap (queues s') = 0 /\ table_ok s' /\
    same_outside base (24 + 12 * cap) (queues s) (queues s').
Proof.
  intros Hq Hrep Hn Htab Hall. set (s0 := set_stats s (add_recv_polling (stats s))).
  destruct (drain_ok a base cap l n s0 h None Hq Hrep Hn) as (s1 & E & Hd & Hrep1 & Hout & Htab1);
    [destruct Htab; now constructor|exact Hall|]. pose proof (fx_recv _ _ (de_fixed _ _ _ Hd)) as Hq1.
  unfold handle_polling. fold s0. cbn [poll_rounds]. rewrite E. cbn [mbind option_bind].
  rewrite Hq1. change (recv_queue s0) with (recv_queue s). rewrite Hq.
  destruct (mark_not_working_empty a base cap _ _ Hrep1) as (m' & -> & Hrep' & Hout' & Hf).
  cbn [mbind option_bind]. eexists. split; [reflexivity|]. split; [|split; [exact Hrep'|split; [exact Hf|split]]].
  - destruct Hd as [[] ]. constructor; auto. now constructor.
  - destruct Htab1. now constructor.
  - eapply same_outside_trans; [exact Hout|exact Hout'].
Qed.

(** * From end to end *)

(** The other process's view after this one has worked: the same mappings, its
    own heap and streams. *)
Definition sync (d c : SessionShared) : SessionShared :=
  set_queues (set_mem d (set_shared (mem d) (shared (mem c)))) (queues c).

Lemma inbox_snoc w l slots ss bs t ts b : inbox fuel w l slots ss bs -> message w t ts b ->
  (length ts < fuel)%nat ->
  inbox fuel w (l ++ [mkWrapper None t.1]) (slots ++ t :: ts) ss (bs ++ b).
Proof.
  intros Hi Hm Hf. induction Hi as [|u us bs l slots ss bs' Hm' Hf' Hi IH|s o l slots ss bs' Hw Hs Hi IH]; cbn.
  - rewrite <- (app_nil_r b). rewrite <- (app_nil_r ts). constructor; auto. constructor.
  - rewrite <- app_assoc. change (u :: us ++ slots) with ((u :: us) ++ slots).
    rewrite <- app_assoc. constructor; auto.
  - rewrite <- app_assoc. constructor; auto.
Qed.

(** A message that joins what is to be read, once the slots of the sender have
    become the message's. *)
Lemma incoming_message d st j rest snd_slots xs ys slots ss bs m' d' j' t ts b :
  incoming fuel d st j (snd_slots ++ rest) xs ys slots ss bs ->
  own m' ((t :: ts) ++ slots_in (held (recv_buf j)) ++ slots ++ rest) ->
  keeps (slots_in (held (recv_buf j)) ++ slots ++ rest) (shared (mem d)) m' ->
  message (set_shared (mem d) m') t ts b -> (length ts < fuel)%nat ->
  Z.of_nat (length ys) + caps ss < 9223372036854775808 ->
  Z.of_nat (length (nodes (slice_list_ (recv_buf j))) + length ss) < 9223372036854775808 ->
  mem d' = set_shared (mem d) m' -> inner_of d' st = Some j' -> recv_buf j' = recv_buf j ->
  pending_data j' = pending_data j ++ [mkWrapper None t.1] ->
  incoming fuel d' st j' rest (xs ++ b) ys (slots ++ t :: ts) ss (bs ++ b).
Proof.
  intros [Ei Hr Hb Hnd Hx Hn ->] Hown Hk Hm Hf Hx' Hn' Emem Ei' Erb Epd.
  pose proof Hr as [[Hci _ _ _ _] _].
  assert (own m' (slots_in (held (recv_buf j)) ++ (slots ++ t :: ts) ++ rest)) as Hown'.
  { eapply own_perm; [|exact Hown]. rewrite (Permutation_app_comm (t :: ts)), <- !app_assoc.
    apply Permutation_app_head, Permutation_app_head. apply Permutation_app_comm. }
  assert (total_cap (slots ++ t :: ts) < 4294967296 /\ Z.of_nat (length (slots ++ t :: ts)) < 4294967296)
    as [Hcap Hcnt].
  { pose proof (own_total _ _ Hown') as H1. pose proof (own_count _ _ Hown') as H2.
    rewrite !total_cap_app, !length_app in *.
    assert (forall l, l ⊆ slots_in (held (recv_buf j)) ++ (slots ++ t :: ts) ++ rest -> 0 <= total_cap l) as Hp
      by (intros l Hl; eapply total_cap_nonneg; eauto).
    pose proof (Hp (slots_in (held (recv_buf j))) ltac:(set_solver)). pose proof (Hp rest ltac:(set_solver)).
    lia. }
  constructor; rewrite ?Emem, ?Erb; auto.
  - apply (readable_agree (mem d) _ _ (slots ++ snd_slots ++ rest)); auto; [|apply Hci].
    split; [eapply keeps_incl; [exact Hk|set_solver]|reflexivity].
  - rewrite Epd. apply inbox_snoc; auto. eapply inbox_keeps; [exact Hb| |reflexivity|].
    + eapply keeps_incl; [exact Hk|set_solver].
    + intros u Hu. apply (own_slot _ _ u (ci_own _ _ _ Hci)). set_solver.
  - lia.
  - rewrite length_app in *. lia.
  - now rewrite app_assoc.
Qed.

Lemma takes_all_recv l id : forall i, recv_buf (takes_all l id i) = recv_buf i.
Proof.
  induction l as [|e l IH]; intros i; cbn [takes_all foldl]; [reflexivity|].
  change (recv_buf (takes_all l id (if seq_id e =? id then takes e i else i)) = recv_buf i).
  rewrite IH. destruct (seq_id e =? id); [|reflexivity]. unfold takes, StreamOps.half_close.
  destruct (_ =? kStreamClosed); [|reflexivity]. now destruct (state i =? kStreamOpened).
Qed.

Lemma takes_all_snoc l id e i : takes_all (l ++ [e]) id i =
  if seq_id e =? id then takes e (takes_all l id i) else takes_all l id i.
Proof. unfold takes_all. now rewrite foldl_app. Qed.

(** Two ends of a session: what [c] sends to is what [d] receives from. *)
Record connected (c d : SessionShared) (a : arch) (base cap h : Z) (l : list QueueElement) : Prop := {
  cn_send : can_send c a base cap h l;
  cn_recv : recv_queue d = queue_at a base cap;
  cn_table : table_ok d;
  cn_known : Forall (fun e => is_Some (streams d !! seq_id e)) l;
}.

(** A stream with its two ends [st] in [c] and [st'] in [d]: [xs] was written on
    one side; [zs] is still to be read on the other, counting the messages that
    are in the queue. *)
Record stream_pair (c d : SessionShared) (st st' : Stream) (i j : StreamInner) (l : list QueueElement)
    (rest : list slot) (xs zs ys : list Z) (slots : list slot) (ss : list BufferSlice) (bs : list Z)
    : Prop := {
  sp_inner : inner_of c st = Some i;
  sp_out : outgoing (mem c) (send_buf i) (slots_in (held (recv_buf j)) ++ slots ++ rest) xs;
  sp_open : state i = kStreamOpened;
  sp_shm : is_from_shm_ (send_buf i) = true;
  sp_queue : in_fallback_state i = false;
  sp_id : 0 <= id_ st < 4294967296;
  sp_peer : streams d !! id_ st = Some st';
  sp_peer_inner : inner_of d st' = Some j;
  sp_pool : shared (mem d) = shared (mem c);
  sp_in : incoming fuel (put_inner d st' (takes_all l (id_ st) j)) st' (takes_all l (id_ st) j)
    (slots_in (slices (slice_list_ (send_buf i))) ++ rest) zs ys slots ss bs;
  sp_fuel : (length (slots_in (slices (slice_list_ (send_buf i)))) <= fuel)%nat;
  sp_room : Z.of_nat (length ys) + caps ss < 9223372036854775808;
  sp_count : Z.of_nat (length (nodes (slice_list_ (recv_buf j))) + length ss) < 9223372036854775808;
}.

(** A flush on one side and a round of [handle_polling] on the other add what
    was written to what is to be read. *)
Lemma flush_polling c d st st' i j l rest xs zs ys slots ss bs a base cap h during n :
  connected c d a base cap h l -> stream_pair c d st st' i j l rest xs zs ys slots ss bs ->
  xs <> [] -> Z.of_nat (length l) < cap -> h + Z.of_nat (length l) + 1 < 9223372036854775808 ->
  (length l < n)%nat ->
  exists c' d' j' t ts, StreamOps.flush ops during c st = Some (Ok tt, c') /\
    handle_polling ops fuel n [] (sync d c') =
      Some (mkHandler kHeaderSize kHeaderSize false None, d') /\
    incoming fuel d' st' j' rest (zs ++ xs) ys (slots ++ t :: ts) ss (bs ++ xs) /\
    queue_rep a base cap (queues d') (h + Z.of_nat (length l) + 1) [] /\
    flag_of a base cap (queues d') = 0.
Proof.
  intros [Hcs Hq Htab Hkn] [Ei Hog Ho Hsh Hfb Hid Epeer Ej Epool Hin Hfu Hrm Hct] Hne Hroom Hbig Hn.
  destruct (flush_sends c st i _ xs a base cap h l during Ei Hog Hne Hsh Ho Hfb Hcs Hid Hroom Hbig)
    as (c' & i' & t & ts & Efl & Hfl & Hcs' & Hf & _ & _).
  pose proof Hfl as [Hsl Hm Hown Hk _ _ _ _ _ _ _].
  set (e := mkElem (id_ st) t.1 kStreamOpened) in *.
  destruct (polling_ok a base cap (l ++ [e]) n (sync d c') h) as (d' & Epo & [_ D1 D2 D3 D4] & Hrep' & Hfl' & _ & _); auto.
  { apply (cs_rep _ _ _ _ _ _ Hcs'). }
  { rewrite length_app. cbn. lia. }
  { destruct Htab as [T1 T2]. constructor; auto. }
  { apply Forall_app. split; [exact Hkn|]. constructor; [|constructor]. cbn. eauto. }
  specialize (D4 (id_ st) st' j Epeer Ej). rewrite takes_all_snoc in D4. cbn [seq_id e] in D4.
  rewrite Z.eqb_refl in D4. unfold takes in D4. cbn [status e offset_in_shm_buf] in D4.
  change (Z.land kStreamOpened 255 =? kStreamClosed) with false in D4. cbn iota in D4.
  assert ((length ts < fuel)%nat) as Hlt by (rewrite Hsl in Hfu; cbn in Hfu; lia).
  exists c', d', (set_pending (takes_all l (id_ st) j) (pending_data (takes_all l (id_ st) j) ++ [mkWrapper None t.1])), t, ts.
  split; [exact Efl|]. split; [exact Epo|]. split; [|split; [|exact Hfl']].
  - eapply (incoming_message _ st' _ rest _ zs ys slots ss bs (shared (mem c'))); [exact Hin|..]; auto;
      rewrite ?takes_all_recv; auto.
    + cbn [mem put_inner set_inners]. now rewrite Epool.
    + apply (message_keeps (mem c')); [exact Hm|apply keeps_refl|].
      intros u Hu. apply (own_slot _ _ u Hown). set_solver.
  - rewrite length_app in Hrep'. cbn in Hrep'. now replace (h + Z.of_nat (length l) + 1) with
      (h + Z.of_nat (length l + 1)) by lia.
Qed.
End delivery.
