(* ===== verification/BufReader.v ===== *)
(** The buffered reader of the socket: [include/shmipc/util/buf_reader.hpp],
    [src/util/buf_reader.cpp], and the blocking transfers of
    [src/protocol/block_io.cpp] and [WriteHalf::write_all] of
    [src/transport.cpp].

    The socket is a list of what the system calls answer, in order. *)
From S2P Require Import Prelude Errors.

(** What [::read] finds: some bytes that have arrived, of which it takes as many
    as it was asked for and leaves the others; the end of the stream; an
    interruption; an error. *)
Inductive read_answer := ReadBytes (bs : list Z) | ReadEof | ReadEintr | ReadError (errnum : Z).

(** What [::write] and [::send] find: room for some bytes, of which they take as
    many as there are; an interruption; an error. *)
Inductive write_answer := Wrote (n : nat) | WriteEintr | WriteError (errnum : Z).

Record BufReader := mkReader { buf_ : list Z; pos_ : Z; len_ : Z; cap_ : Z }.

Module BR.
Definition make (capacity : Z) : BufReader :=
  mkReader (replicate (Z.to_nat capacity) 0) 0 0 capacity.

Definition consume (r : BufReader) (amt : Z) : BufReader :=
  mkReader (buf_ r) (if u64 (pos_ r + amt) <? len_ r then u64 (pos_ r + amt) else len_ r)
    (len_ r) (cap_ r).

(** The bytes read and not consumed. *)
Definition buffer (r : BufReader) : list Z :=
  take (Z.to_nat (len_ r - pos_ r)) (drop (Z.to_nat (pos_ r)) (buf_ r)).

Definition clear (r : BufReader) : BufReader := mkReader (buf_ r) 0 0 (cap_ r).

Definition compact (r : BufReader) : BufReader :=
  if len_ r =? pos_ r then mkReader (buf_ r) 0 0 (cap_ r) else
  let remaining := len_ r - pos_ r in
  mkReader (buffer r ++ drop (Z.to_nat remaining) (buf_ r)) 0 remaining (cap_ r).

Section fill.
Variable strerror_r : Z -> option string.

(** The loop of [fill_buf_at_least].  The answers that run out stand for a call
    that blocks. *)
Fixpoint fill (answers : list read_answer) (r : BufReader) (len : Z)
    : option (result (list Z) * BufReader * list read_answer) :=
  if len_ r - pos_ r <? len then
    match answers with
    | [] => None
    | ReadEintr :: answers' => fill answers' r len
    | ReadError e :: answers' => Some (Unexpected (from_errno strerror_r e), r, answers')
    | ReadEof :: answers' => Some (Unexpected (error_io "invalid eof"), r, answers')
    | ReadBytes bs :: answers' =>
        let got := take (Z.to_nat (cap_ r - len_ r)) bs in
        let size := Z.of_nat (length got) in
        if size =? 0 then Some (Unexpected (error_io "invalid eof"), r, answers) else
        let r' := mkReader (take (Z.to_nat (len_ r)) (buf_ r) ++ got ++
                              drop (Z.to_nat (len_ r + size)) (buf_ r))
                    (pos_ r) (len_ r + size) (cap_ r) in
        match drop (Z.to_nat (cap_ r - len_ r)) bs with
        | [] => fill answers' r' len
        | more =>
            (* the buffer is full: one more call would ask for nothing *)
            if len_ r' - pos_ r' <? len
            then Some (Unexpected (error_io "invalid eof"), r', ReadBytes more :: answers')
            else Some (Ok (buffer r'), r', ReadBytes more :: answers')
        end
    end
  else Some (Ok (buffer r), r, answers).

Definition fill_buf_at_least (answers : list read_answer) (r : BufReader) (len : Z)
    : option (result (list Z) * BufReader * list read_answer) :=
  if len =? 0 then Some (Ok [], r, answers) else
  if len <=? len_ r - pos_ r then Some (Ok (buffer r), r, answers) else
  if cap_ r <? len then None else
  let r := if cap_ r - pos_ r <? len then compact r else r in
  fill answers r len.
End fill.
End BR.

Section sockets.
Variable strerror_r : Z -> option string.

(** * Blocking transfers *)

(** [block_read_full]: [data] is what has been read of the [n] bytes. *)
Fixpoint block_read_full (answers : list read_answer) (n : nat) (data : list Z)
    : option (result (list Z) * list read_answer) :=
  if (length data <? n)%nat then
    match answers with
    | [] => None
    | ReadEintr :: answers' => block_read_full answers' n data
    | ReadError e :: answers' =>
        Some (Unexpected (error_io (snprintf 128 ("read_full failed, had read_size:%zu, reason:" ++
                default "" (strerror_r e)))), answers')
    | ReadEof :: answers' => Some (Unexpected (error_io "EOF"), answers')
    | ReadBytes bs :: answers' =>
        match take (n - length data) bs, drop (n - length data) bs with
        | [], _ => Some (Unexpected (error_io "EOF"), answers)
        | got, [] => block_read_full answers' n (data ++ got)
        | got, more => Some (Ok (data ++ got), ReadBytes more :: answers')
        end
    end
  else Some (Ok data, answers).

(** [block_write_full] and [WriteHalf::write_all]: [sent] is what the socket has
    taken, [data] what is left. *)
Fixpoint block_write_full (answers : list write_answer) (data sent : list Z)
    : option (result unit * list Z * list write_answer) :=
  match data with
  | [] => Some (Ok tt, sent, answers)
  | _ =>
      match answers with
      | [] => None
      | WriteEintr :: answers' => block_write_full answers' data sent
      | WriteError e :: answers' => Some (Unexpected (from_errno strerror_r e), sent, answers')
      | Wrote n :: answers' =>
          block_write_full answers' (drop n data) (sent ++ take n data)
      end
  end.

(** * The reader loses nothing *)

(** The bytes the socket delivers by the answers. *)
Fixpoint delivered_bytes (answers : list read_answer) : list Z :=
  match answers with
  | ReadBytes bs :: answers' => bs ++ delivered_bytes answers'
  | _ :: answers' => delivered_bytes answers'
  | [] => []
  end.

Record reader_ok (r : BufReader) : Prop := {
  rk_order : 0 <= pos_ r <= len_ r;
  rk_cap : len_ r <= cap_ r;
  rk_buf : Z.of_nat (length (buf_ r)) = cap_ r;
  rk_size : cap_ r < 9223372036854775808;
}.

Lemma make_reader_ok n : 0 <= n < 9223372036854775808 -> reader_ok (BR.make n).
Proof. intros. constructor; cbn; rewrite ?length_replicate; lia. Qed.

Lemma buffer_length r : reader_ok r -> Z.of_nat (length (BR.buffer r)) = len_ r - pos_ r.
Proof.
  intros [H1 H2 H3 H4]. unfold BR.buffer. rewrite length_take, length_drop. lia.
Qed.

Lemma compact_ok r : reader_ok r -> reader_ok (BR.compact r) /\ BR.buffer (BR.compact r) = BR.buffer r /\
  pos_ (BR.compact r) = 0 /\ cap_ (BR.compact r) = cap_ r.
Proof.
  intros Hok. pose proof (buffer_length r Hok) as Hl. pose proof Hok as [H1 H2 H3 H4]. unfold BR.compact.
  destruct (Z.eqb_spec (len_ r) (pos_ r)) as [E|E].
  - split; [constructor; cbn; lia|]. split; [|auto]. cbn. symmetry. apply nil_length_inv. lia.
  - split; [constructor; cbn; rewrite ?length_app, ?length_drop; lia|]. split; [|auto].
    unfold BR.buffer at 1. cbn. rewrite Z.sub_0_r, drop_0.
    rewrite take_app_le by lia. apply firstn_all2. lia.
Qed.

Lemma consume_ok r n : reader_ok r -> 0 <= n < 9223372036854775808 -> reader_ok (BR.consume r n) /\
  BR.buffer (BR.consume r n) = drop (Z.to_nat n) (BR.buffer r).
Proof.
  intros Hok Hn. pose proof (buffer_length r Hok) as Hl. pose proof Hok as [H1 H2 H3 H4].
  unfold BR.consume. rewrite u64_id by lia.
  destruct (Z.ltb_spec (pos_ r + n) (len_ r)).
  - split; [constructor; cbn; lia|]. unfold BR.buffer. cbn.
    rewrite skipn_firstn_comm, drop_drop. f_equal; [lia|]. f_equal. lia.
  - split; [constructor; cbn; lia|]. unfold BR.buffer at 1. cbn. rewrite Z.sub_diag. cbn.
    symmetry. apply skipn_all2. lia.
Qed.

Definition brings (a : read_answer) : Prop :=
  match a with ReadBytes bs => bs <> [] | ReadEintr => True | _ => False end.

(** The new bytes behind those there are. *)
Lemma store_bytes_buffer r bs : reader_ok r -> Z.of_nat (length bs) <= cap_ r - len_ r ->
  let r' := mkReader (take (Z.to_nat (len_ r)) (buf_ r) ++ bs ++
              drop (Z.to_nat (len_ r + Z.of_nat (length bs))) (buf_ r))
              (pos_ r) (len_ r + Z.of_nat (length bs)) (cap_ r) in
  reader_ok r' /\ BR.buffer r' = BR.buffer r ++ bs.
Proof.
  intros Hok Hle r'. pose proof (buffer_length r Hok) as Hl. pose proof Hok as [H1 H2 H3 H4]. split.
  - constructor; cbn; rewrite ?length_app, ?length_take, ?length_drop; lia.
  - unfold BR.buffer at 1. cbn. unfold r'. cbn [len_ pos_ buf_].
    rewrite drop_app_le by (rewrite length_take; lia). rewrite app_assoc, take_app_le
      by (rewrite length_app, length_drop, length_take; lia).
    rewrite skipn_firstn_comm. rewrite firstn_all2 by (rewrite length_app, length_take, length_drop; lia).
    unfold BR.buffer. f_equal. f_equal. lia.
Qed.

Lemma fill_ok answers : forall r len, reader_ok r -> 0 < len <= cap_ r - pos_ r ->
  Forall brings answers ->
  len <= len_ r - pos_ r + Z.of_nat (length (delivered_bytes answers)) ->
  exists r' rest, BR.fill strerror_r answers r len = Some (Ok (BR.buffer r'), r', rest) /\
    reader_ok r' /\ cap_ r' = cap_ r /\ len <= Z.of_nat (length (BR.buffer r')) /\
    BR.buffer r ++ delivered_bytes answers = BR.buffer r' ++ delivered_bytes rest /\
    Forall brings rest.
Proof.
  induction answers as [|x answers IH]; intros r len Hok Hlen Hbr Hen; cbn [BR.fill];
    pose proof (buffer_length r Hok) as Hbl; destruct (Z.ltb_spec (len_ r - pos_ r) len) as [Hlt|Hge];
    try (exists r; eexists; split; [reflexivity|]; split; [exact Hok|]; split; [reflexivity|];
         split; [lia|]; split; [reflexivity|assumption]).
  - cbn in Hen. lia.
  - apply Forall_cons_1 in Hbr as [Hx Hbr]. destruct x as [bs| | |e]; try contradiction.
    + cbn in Hx, Hen. pose proof Hok as [O1 O2 O3 O4].
      set (room := Z.to_nat (cap_ r - len_ r)). set (got := take room bs).
      assert (0 < length got)%nat as Hgot
        by (unfold got, room; rewrite length_take; destruct bs; [contradiction|cbn; lia]).
      assert (length got <= room)%nat as Hroom by (unfold got; rewrite length_take; lia).
      rewrite (proj2 (Z.eqb_neq (Z.of_nat (length got)) 0)) by lia.
      destruct (store_bytes_buffer r got Hok) as [Hok' Hb']; [lia|].
      set (r1 := mkReader _ _ _ _) in *. pose proof (buffer_length r1 Hok') as Hbl1.
      assert (bs = got ++ drop room bs) as Ebs by (symmetry; apply take_drop).
      destruct (drop room bs) as [|y more] eqn:Ed.
      * rewrite app_nil_r in Ebs.
        destruct (IH r1 len Hok') as (r' & rest & E & H1 & H2 & H3 & H4 & H5); auto.
        { rewrite length_app in Hen. rewrite Ebs in Hen. cbn. lia. }
        exists r', rest. split; [exact E|]. split; [exact H1|]. split; [exact H2|]. split; [exact H3|].
        split; [|exact H5]. cbn. rewrite <- H4, Hb', <- app_assoc. now rewrite <- Ebs.
      * assert (length got = room) as El.
        { pose proof (f_equal length Ed) as L. rewrite length_drop in L. unfold got.
          rewrite length_take. cbn in L. lia. }
        rewrite (proj2 (Z.ltb_ge _ _)) by (cbn; lia).
        exists r1, (ReadBytes (y :: more) :: answers). split; [reflexivity|]. split; [exact Hok'|].
        split; [reflexivity|]. split; [cbn in *; lia|]. split; [|constructor; [discriminate|exact Hbr]].
        cbn [delivered_bytes]. rewrite Hb', <- app_assoc. f_equal. rewrite Ebs at 1. now rewrite <- app_assoc.
    + destruct (IH r len Hok Hlen Hbr Hen) as (r' & rest & E & H1 & H2 & H3 & H4 & H5).
      exists r', rest. auto 10.
Qed.

(** The reader [fill_buf_at_least] reads with: compacted when the bytes asked
    for do not fit behind the position. *)
Definition ready_for (r : BufReader) (len : Z) : BufReader :=
  if cap_ r - pos_ r <? len then BR.compact r else r.

Lemma ready_for_ok r len : reader_ok r -> len <= cap_ r ->
  reader_ok (ready_for r len) /\ BR.buffer (ready_for r len) = BR.buffer r /\
  cap_ (ready_for r len) = cap_ r /\ len <= cap_ r - pos_ (ready_for r len).
Proof.
  intros Hok Hlen. unfold ready_for. destruct (Z.ltb_spec (cap_ r - pos_ r) len); [|auto].
  destruct (compact_ok r Hok) as (C1 & C2 & C3 & C4). split; [exact C1|]. split; [exact C2|].
  split; [exact C4|]. rewrite C3. lia.
Qed.

Lemma fill_at_least_ok r len answers : reader_ok r -> 0 < len <= cap_ r -> Forall brings answers ->
  len <= Z.of_nat (length (BR.buffer r ++ delivered_bytes answers)) ->
  exists r' rest, BR.fill_buf_at_least strerror_r answers r len = Some (Ok (BR.buffer r'), r', rest) /\
    reader_ok r' /\ cap_ r' = cap_ r /\ len <= Z.of_nat (length (BR.buffer r')) /\
    BR.buffer r ++ delivered_bytes answers = BR.buffer r' ++ delivered_bytes rest /\
    Forall brings rest.
Proof.
  intros Hok Hlen Hbr Hen. pose proof (buffer_length r Hok) as Hbl. rewrite length_app in Hen.
  unfold BR.fill_buf_at_least. destruct (Z.eqb_spec len 0); [lia|].
  destruct (Z.leb_spec len (len_ r - pos_ r)) as [Hge|Hlt].
  { exists r, answers. auto 10 with lia. }
  destruct (Z.ltb_spec (cap_ r) len); [lia|]. fold (ready_for r len).
  destruct (ready_for_ok r len Hok ltac:(lia)) as (Hok1 & Eb & Ec & Hfit).
  pose proof (buffer_length _ Hok1) as Hbl1. rewrite Eb in Hbl1.
  destruct (fill_ok answers (ready_for r len) len Hok1) as (r' & rest & E & H1 & H2 & H3 & H4 & H5);
    rewrite ?Ec; auto; [lia|lia|].
  exists r', rest. rewrite <- Eb, <- Ec. auto 10.
Qed.

(** The buffered reader neither loses nor repeats a byte.  Asked for [len]
    bytes it returns as soon as it has them, whatever the sizes in which the
    socket delivers them and however often it is interrupted; what it had and
    what the socket delivered is what it has, in order, and what the socket has
    still to deliver. *)
Theorem fill_buf_at_least_exact r len answers : reader_ok r -> 0 < len <= cap_ r ->
  Forall brings answers ->
  len <= Z.of_nat (length (BR.buffer r ++ delivered_bytes answers)) ->
  exists r' rest, BR.fill_buf_at_least strerror_r answers r len = Some (Ok (BR.buffer r'), r', rest) /\
    reader_ok r' /\ len <= Z.of_nat (length (BR.buffer r')) /\
    BR.buffer r ++ delivered_bytes answers = BR.buffer r' ++ delivered_bytes rest.
Proof.
  intros Hok Hlen Hbr Hen.
  destruct (fill_at_least_ok r len answers Hok Hlen Hbr Hen) as (r' & rest & E & H1 & _ & H3 & H4 & _).
  exists r', rest. auto.
Qed.

(** What comes behind the answers that were needed is left. *)
Lemma fill_app answers more : forall r len x r' rest,
  BR.fill strerror_r answers r len = Some (Ok x, r', rest) ->
  BR.fill strerror_r (answers ++ more) r len = Some (Ok x, r', rest ++ more).
Proof.
  induction answers as [|[bs| | |e] answers IH]; intros r len x r' rest; cbn [BR.fill app];
    destruct (len_ r - pos_ r <? len) eqn:El; intros E; simplify_eq; auto.
  - destruct more; cbn [BR.fill]; now rewrite El.
  - case_match; [discriminate|]. case_match; [now apply IH|]. case_match; simplify_eq. reflexivity.
Qed.

Lemma fill_at_least_app answers more r len x r' rest :
  BR.fill_buf_at_least strerror_r answers r len = Some (Ok x, r', rest) ->
  BR.fill_buf_at_least strerror_r (answers ++ more) r len = Some (Ok x, r', rest ++ more).
Proof.
  unfold BR.fill_buf_at_least. repeat case_match; intros; simplify_eq; auto using fill_app.
Qed.

(** The error the last answer of a connection stands for. *)
Definition last_error (a : read_answer) : option Error :=
  match a with
  | ReadEof => Some (error_io "invalid eof")
  | ReadError e => Some (from_errno strerror_r e)
  | _ => None
  end.

Lemma fill_short answers final err : forall r len, reader_ok r -> len <= cap_ r - pos_ r ->
  Forall brings answers -> last_error final = Some err ->
  len_ r - pos_ r + Z.of_nat (length (delivered_bytes answers)) < len ->
  exists r', BR.fill strerror_r (answers ++ [final]) r len = Some (Unexpected err, r', []).
Proof.
  induction answers as [|x answers IH]; intros r len Hok Hlen Hbr Hf Hen; cbn [BR.fill app].
  - cbn in Hen. rewrite (proj2 (Z.ltb_lt _ _)) by lia. destruct final; simplify_eq/=; eauto.
  - apply Forall_cons_1 in Hbr as [Hx Hbr]. pose proof Hok as [O1 O2 O3 O4].
    destruct x as [bs| | |e]; try contradiction; cbn [delivered_bytes] in Hen;
      rewrite (proj2 (Z.ltb_lt _ _)) by lia; [|now apply IH].
    rewrite length_app in Hen. cbn in Hx. rewrite (firstn_all2 (n := Z.to_nat (cap_ r - len_ r)) bs) by lia.
    rewrite (skipn_all2 (n := Z.to_nat (cap_ r - len_ r)) bs) by lia.
    destruct bs as [|b bs]; [contradiction|]. rewrite (proj2 (Z.eqb_neq _ 0)) by (cbn; lia).
    destruct (store_bytes_buffer r (b :: bs) Hok) as [Hok' _]; [lia|].
    apply IH; auto. cbn [len_ pos_ cap_]. lia.
Qed.

Lemma fill_at_least_short answers final err r len : reader_ok r -> 0 < len <= cap_ r ->
  Forall brings answers -> last_error final = Some err ->
  Z.of_nat (length (BR.buffer r ++ delivered_bytes answers)) < len ->
  exists r', BR.fill_buf_at_least strerror_r (answers ++ [final]) r len = Some (Unexpected err, r', []).
Proof.
  intros Hok Hlen Hbr Hf Hen. pose proof (buffer_length r Hok) as Hbl. rewrite length_app in Hen.
  unfold BR.fill_buf_at_least. rewrite (proj2 (Z.eqb_neq len 0)), (proj2 (Z.leb_gt _ _)) by lia.
  rewrite (proj2 (Z.ltb_ge (cap_ r) len)) by lia. fold (ready_for r len).
  destruct (ready_for_ok r len Hok ltac:(lia)) as (Hok1 & Eb & Ec & Hfit).
  pose proof (buffer_length _ Hok1) as Hbl1. rewrite Eb in Hbl1.
  apply fill_short; auto; lia.
Qed.

(** A socket that takes [n] bytes, in any number of calls. *)
Fixpoint accepts (n : nat) (answers : list write_answer) : Prop :=
  match n, answers with
  | O, _ => True
  | _, Wrote k :: answers' => accepts (n - k) answers'
  | _, WriteEintr :: answers' => accepts n answers'
  | _, _ => False
  end.

(** One that delivers [n] bytes. *)
Fixpoint supplies (n : nat) (answers : list read_answer) : Prop :=
  match n, answers with
  | O, _ => True
  | _, ReadBytes bs :: answers' => bs <> [] /\ supplies (n - length bs) answers'
  | _, ReadEintr :: answers' => supplies n answers'
  | _, _ => False
  end.

(** A blocking write puts all bytes on the socket in order, however the
    calls split them and however often they are interrupted. *)
Theorem block_write_full_all answers : forall data sent, accepts (length data) answers ->
  exists rest, block_write_full answers data sent = Some (Ok tt, sent ++ data, rest).
Proof.
  induction answers as [|x answers IH]; intros [|b data] sent Ha; cbn [block_write_full];
    try (eexists; rewrite app_nil_r; reflexivity); cbn [length accepts] in Ha; [contradiction|].
  destruct x as [n| |e]; [|now apply IH|contradiction].
  destruct (IH (drop n (b :: data)) (sent ++ take n (b :: data))) as [rest E].
  { rewrite length_drop. exact Ha. }
  exists rest. rewrite E, <- app_assoc, take_drop. reflexivity.
Qed.

(** A blocking read returns the next [n] bytes of the socket and leaves the
    rest to be read. *)
Theorem block_read_full_exact answers : forall n data, (length data <= n)%nat ->
  supplies (n - length data) answers ->
  exists got rest, block_read_full answers n data = Some (Ok (data ++ got), rest) /\
    length (data ++ got) = n /\ delivered_bytes answers = got ++ delivered_bytes rest.
Proof.
  induction answers as [|x answers IH]; intros n data Hle Hs; cbn [block_read_full];
    destruct (Nat.ltb_spec (length data) n) as [Hlt|Hge];
    try (exists []; eexists; rewrite app_nil_r; split; [reflexivity|]; split; [lia|reflexivity]);
    destruct (n - length data)%nat as [|k] eqn:Ek; try lia; cbn [supplies] in Hs; [contradiction|].
  destruct x as [bs| | |e]; try contradiction.
  - destruct Hs as [Hbs Hs]. destruct bs as [|b bs]; [contradiction|].
    cbn [take]. destruct (drop (S k) (b :: bs)) as [|y more] eqn:Ed.
    + pose proof (f_equal length Ed) as L. rewrite length_drop in L. cbn in L.
      rewrite firstn_all2 by lia. cbn [length] in Hs.
      destruct (IH n (data ++ b :: bs)) as (got & rest & E & Hl & Hd).
      { rewrite length_app. cbn. lia. }
      { rewrite length_app. cbn [length]. now replace (n - (length data + S (length bs)))%nat with (S k - S (length bs))%nat by lia. }
      exists ((b :: bs) ++ got), rest. rewrite app_assoc. split; [exact E|]. split; [exact Hl|].
      cbn. now rewrite Hd, app_assoc.
    + exists (b :: take k bs), (ReadBytes (y :: more) :: answers). split; [reflexivity|].
      pose proof (f_equal length Ed) as L. rewrite length_drop in L. cbn in L.
      split; [rewrite length_app; cbn; rewrite length_take; lia|].
      change (drop (S k) (b :: bs)) with (drop k bs) in Ed. cbn [delivered_bytes]. rewrite <- Ed, app_assoc.
      change (b :: take k bs) with (take (S k) (b :: bs)). change (drop k bs) with (drop (S k) (b :: bs)).
      now rewrite take_drop.
  - destruct (IH n data Hle) as (got & rest & E & Hl & Hd); [now rewrite Ek|].
    exists got, rest. auto.
Qed.
End sockets.

(** * Witnesses *)

Lemma fill_buf_at_least_exact_witness :
  exists r' rest, BR.fill_buf_at_least (fun _ => None)
      [ReadBytes [1; 2]; ReadEintr; ReadBytes [3; 4; 5]] (BR.make 8) 4 = Some (Ok (BR.buffer r'), r', rest) /\
    [1; 2; 3; 4; 5] = BR.buffer r' ++ delivered_bytes rest.
Proof.
  destruct (fill_buf_at_least_exact (fun _ => None) (BR.make 8) 4
    [ReadBytes [1; 2]; ReadEintr; ReadBytes [3; 4; 5]]) as (r' & rest & E & _ & _ & H).
  - apply make_reader_ok. lia.
  - cbn. lia.
  - repeat constructor; discriminate.
  - vm_compute. congruence.
  - exists r', rest. split; [exact E|exact H].
Defined.

Lemma block_write_full_all_witness : exists rest,
  block_write_full (fun _ => None) [Wrote 1; WriteEintr; Wrote 2] [7; 8; 9] [] = Some (Ok tt, [7; 8; 9], rest).
Proof. apply (block_write_full_all (fun _ => None) [Wrote 1; WriteEintr; Wrote 2] [7; 8; 9] []). exact I. Defined.

Lemma block_read_full_exact_witness : exists got rest,
  block_read_full (fun _ => None) [ReadBytes [1]; ReadEintr; ReadBytes [2; 3; 4]] 3 [] =
    Some (Ok got, rest) /\ length got = 3%nat /\ [1; 2; 3; 4] = got ++ delivered_bytes rest.
Proof.
  apply (block_read_full_exact (fun _ => None) [ReadBytes [1]; ReadEintr; ReadBytes [2; 3; 4]] 3 []);
    cbn; intuition (lia || discriminate).
Defined.
