(* ===== verification/Handshake.v ===== *)
(** The handshake of a session: [src/protocol/adapter.cpp],
    [src/protocol/initializer.cpp], [include/shmipc/protocol/initializer.hpp]
    and the two entry points of [src/protocol/protocol.cpp].

    The two ends are programs that read from and write to a socket and that
    ask for shared memory to be created, mapped or unmapped; they run side by
    side, each taking a step whenever it can.  What the operating system
    answers to a mapping call is a parameter. *)
From stdpp Require Import pretty.
From S2P Require Import Prelude Errors Consts Config Wire.

(** * Programs on a socket *)

(** A call that creates, maps or releases shared memory:
    [QueueManager::create_with_*], [mapping_with_*] and [unmap],
    [BufferManager::get_with_*] ([create] is its third argument), and
    [std::filesystem::remove_all]. *)
Inductive map_call :=
| queue_create_with_file (path : string) (cap : Z)
| queue_create_with_memfd (path : string) (cap : Z)
| queue_mapping_with_file (path : string)
| queue_mapping_with_memfd (path : string) (fd : Z)
| queue_unmap (qm : Z)
| buffer_get_with_file (path : string) (cap : Z) (create : bool) (pairs : list SizePercentPair)
| buffer_get_with_memfd (path : string) (fd cap : Z) (create : bool) (pairs : list SizePercentPair)
| remove_all (path : string).

(** [Recv n] is [block_read_full] into a buffer of [n] bytes, [Send]
    [block_write_full], [SendFd] and [RecvFd] are [send_fd] and
    [block_read_out_of_bound_for_fd]; a mapping call answers a handle of the
    object it gives.  [Undefined] is undefined behaviour or an exception no
    caller catches. *)
Inductive prog (A : Type) : Type :=
| Ret (a : A)
| Send (bs : list Z) (k : result unit -> prog A)
| Recv (n : Z) (k : result (list Z) -> prog A)
| SendFd (fds : list Z) (k : result unit -> prog A)
| RecvFd (k : result (list Z) -> prog A)
| Call (c : map_call) (k : result Z -> prog A)
| Undefined.
Arguments Ret {A} _.
Arguments Send {A} _ _.
Arguments Recv {A} _ _.
Arguments SendFd {A} _ _.
Arguments RecvFd {A} _.
Arguments Call {A} _ _.
Arguments Undefined {A}.

Fixpoint prog_bind {A B} (f : A -> prog B) (p : prog A) : prog B :=
  match p with
  | Ret a => f a
  | Send bs k => Send bs (fun r => prog_bind f (k r))
  | Recv n k => Recv n (fun r => prog_bind f (k r))
  | SendFd fds k => SendFd fds (fun r => prog_bind f (k r))
  | RecvFd k => RecvFd (fun r => prog_bind f (k r))
  | Call c k => Call c (fun r => prog_bind f (k r))
  | Undefined => Undefined
  end.
#[global] Instance prog_mbind : MBind prog := @prog_bind.
#[global] Instance prog_mret : MRet prog := @Ret.

(** A value that is not there is undefined behaviour. *)
Definition defined {A} (o : option A) : prog A :=
  match o with Some a => Ret a | None => Undefined end.

(** [if (!r) return std::unexpected(f(r.error()))]. *)
Definition try_with {A B} (f : Error -> Error) (r : result A) (k : A -> prog (result B))
    : prog (result B) :=
  match r with
  | Ok a => k a
  | Unexpected e => Ret (Unexpected (f e))
  end.
Definition try_ {A B} (r : result A) (k : A -> prog (result B)) : prog (result B) :=
  try_with id r k.

Definition send (bs : list Z) : prog (result unit) := Send bs Ret.
Definition recv (n : Z) : prog (result (list Z)) := Recv n Ret.
Definition call (c : map_call) : prog (result Z) := Call c Ret.

(** What [%s] prints of a string: up to its first NUL. *)
Fixpoint c_str (s : string) : string :=
  match s with
  | EmptyString => EmptyString
  | String c s => if Ascii.eqb c Ascii.zero then EmptyString else String c (c_str s)
  end.

(** * Helpers *)

(** A header of its own in a buffer of [kHeaderSize] bytes. *)
Definition header (version : Z) (t : EventType) : prog (list Z) :=
  defined (Header.encode (replicate (Z.to_nat kHeaderSize) 0) 0 kHeaderSize version t).

Definition block_read_event_header : prog (result (list Z)) :=
  r ← recv kHeaderSize;
  try_ r (fun buf =>
    v ← defined (check_event_valid buf 0);
    try_ v (fun _ => Ret (Ok buf))).

Definition wait_event_header (expect : EventType) : prog (result (list Z)) :=
  h ← block_read_event_header;
  try_ h (fun h =>
    t ← defined (Header.msg_type h 0);
    if t =? expect then Ret (Ok h)
    else Ret (Unexpected (error_other (snprintf 160 ("expect event_type:" +:+ pretty expect +:+ " " +:+
           event_type_name expect +:+ ", but:" +:+ event_type_name t))))).

Definition handle_exchange_version : prog (result unit) :=
  h ← header kMaxSupportProtoVersion kExchangeProtoVersion;
  send h.

Definition send_share_memory_by_file_path (buffer_path queue_path : string) (version : Z)
    : prog (result unit) :=
  data ← defined (generate_shm_metadata kShareMemoryByFilePath buffer_path queue_path version);
  send data.

Definition send_memfd_to_peer (buffer_path : string) (buffer_fd : Z) (queue_path : string)
    (queue_fd version : Z) : prog (result unit) :=
  event ← defined (generate_shm_metadata kShareMemoryByMemfd buffer_path queue_path version);
  r ← send event;
  try_ r (fun _ =>
    h ← wait_event_header kAckReadyRecvFd;
    try_ h (fun _ => SendFd [buffer_fd; queue_fd] Ret)).

(** [Managers], by the handles of its buffer manager and queue manager, and
    [InitResult]; clients get no managers. *)
Record Managers := mkManagers { buffer_manager : Z; queue_manager : Z }.
Definition InitResult : Type := result (option Managers).

(** The body of an event whose header is [h]: a vector of
    [h.length() - kHeaderSize] bytes, which throws when the difference wraps. *)
Definition read_body (h : list Z) : prog (result (list Z)) :=
  len ← defined (Header.length h 0);
  let n := u64 (len - kHeaderSize) in
  if 2 ^ 63 <=? n then Undefined else recv n.

(** The last two steps of the memfd handler: receive the descriptors, map. *)
Definition recv_and_map (buffer_path queue_path : string) : prog InitResult :=
  fds ← RecvFd Ret;
  try_ fds (fun fds =>
    match fds with
    | buffer_fd :: queue_fd :: _ =>
        qm ← call (queue_mapping_with_memfd queue_path queue_fd);
        try_ qm (fun qm =>
          bm ← call (buffer_get_with_memfd buffer_path buffer_fd 0 false []);
          match bm with
          | Unexpected e => _ ← call (queue_unmap qm); Ret (Unexpected e)
          | Ok bm => Ret (Ok (Some (mkManagers bm qm)))
          end)
    | _ => Ret (Unexpected (error_other "the number of memfd received is wrong"))
    end).

Definition handle_share_memory_by_memfd (h : list Z) (version : Z) : prog InitResult :=
  body ← read_body h;
  try_with (fun e => error_other ("read shm metadata failed, reason:" +:+ message e)) body (fun body =>
    '(buffer_path, queue_path) ← defined (extract_shm_metadata body);
    ack ← header version kAckReadyRecvFd;
    r ← send ack;
    try_with (fun e => error_other ("send ack TypeAckReadyRecvFD failed reason:" +:+ message e)) r (fun _ =>
      recv_and_map buffer_path queue_path)).

Definition handle_share_memory_by_file_path (hdr : list Z) : prog InitResult :=
  body ← read_body hdr;
  try_ body (fun body =>
    '(buffer_path, queue_path) ← defined (extract_shm_metadata body);
    qm ← call (queue_mapping_with_file queue_path);
    try_with (fun e => error_other (snprintf 512 ("handle_share_memory_by_file_path mappingQueueManager failed,queuePathLen:"
        +:+ pretty (Z.of_nat (String.length queue_path)) +:+ " path:" +:+ c_str queue_path +:+
        " err=" +:+ c_str (message e)))) qm (fun qm =>
      bm ← call (buffer_get_with_file buffer_path 0 false []);
      match bm with
      | Unexpected e =>
          _ ← call (queue_unmap qm);
          Ret (Unexpected (error_other (snprintf 512 ("handle_share_memory_by_file_path mapping_buffer_manager failed, buffer_path_len:"
            +:+ pretty (Z.of_nat (String.length buffer_path)) +:+ " path:" +:+ c_str buffer_path +:+
            " err=" +:+ c_str (message e)))))
      | Ok bm => Ret (Ok (Some (mkManagers bm qm)))
      end)).

(** * Initializers *)

(** [ProtocolInitializer]. *)
Inductive ProtocolInitializer :=
| V2Client (buffer_path queue_path : string)
| V2Server (first_event : list Z)
| V3Client (mem_map_type : MemMapType) (buffer_path queue_path : string) (buffer_fd queue_fd : Z)
| V3Server (first_event : list Z).

Definition initializer_version (p : ProtocolInitializer) : Z :=
  match p with V2Client _ _ | V2Server _ => 2 | V3Client _ _ _ _ _ | V3Server _ => 3 end.

Definition v2_client_init (buffer_path queue_path : string) : prog InitResult :=
  r ← send_share_memory_by_file_path buffer_path queue_path 2;
  try_ r (fun _ => Ret (Ok None)).

Definition v2_server_init (first_event : list Z) : prog InitResult :=
  t ← defined (Header.msg_type first_event 0);
  if negb (t =? kShareMemoryByFilePath) then
    Ret (Unexpected (error_other (snprintf 192 ("ProtocolInitializerV2 expect first event is:" +:+
      pretty kShareMemoryByFilePath +:+ "(" +:+ event_type_name kShareMemoryByFilePath +:+ "),but:" +:+
      event_type_name t))))
  else handle_share_memory_by_file_path first_event.

Definition v3_client_init (mem_map_type : MemMapType) (buffer_path queue_path : string)
    (buffer_fd queue_fd : Z) : prog InitResult :=
  r ← match mem_map_type with
      | kDevShmFile => send_share_memory_by_file_path buffer_path queue_path 3
      | kMemFd => send_memfd_to_peer buffer_path buffer_fd queue_path queue_fd 3
      end;
  try_ r (fun _ =>
    ack ← wait_event_header kAckShareMemory;
    try_ ack (fun _ => Ret (Ok None))).

(** What a version-3 server does with the header of the client's memory:
    map it and acknowledge. *)
Definition v3_server_map (h : list Z) : prog InitResult :=
  t ← defined (Header.msg_type h 0);
  r ← (if t =? kShareMemoryByFilePath then handle_share_memory_by_file_path h
       else if t =? kShareMemoryByMemfd then handle_share_memory_by_memfd h 3
       else Ret (Unexpected (error_other (snprintf 220
         ("expect event type is TypeShareMemoryByFilePath or TypeShareMemoryByMemfd, but:" +:+
          pretty t +:+ "(" +:+ event_type_name t +:+ ")")))));
  try_ r (fun managers =>
    ack ← header 3 kAckShareMemory;
    wr ← send ack;
    try_ wr (fun _ => Ret (Ok managers))).

Definition v3_server_init (first_event : list Z) : prog InitResult :=
  t ← defined (Header.msg_type first_event 0);
  if negb (kExchangeProtoVersion =? t) then
    Ret (Unexpected (error_other (snprintf 192 ("ProtocolInitializerV3 expect first event is:" +:+
      pretty kExchangeProtoVersion +:+ "(" +:+ event_type_name kExchangeProtoVersion +:+ "),but:" +:+
      event_type_name t))))
  else
  r ← handle_exchange_version;
  try_with (fun e => error_other ("ProtocolInitializerV3 exchange_version failed, reason:" +:+ message e)) r (fun _ =>
    h ← block_read_event_header;
    try_with (fun e => error_other ("ProtocolInitializerV3 block_read_event_header failed, reason:" +:+ message e)) h
      v3_server_map).

(** [ProtocolInitializer::init]. *)
Definition init (p : ProtocolInitializer) : prog InitResult :=
  match p with
  | V2Client bp qp => v2_client_init bp qp
  | V2Server e => v2_server_init e
  | V3Client t bp qp bfd qfd => v3_client_init t bp qp bfd qfd
  | V3Server e => v3_server_init e
  end.

(** * Adapters *)

Definition unsupported (version : Z) : Error :=
  error_other (snprintf 160 ("not support the protocol version:" +:+ pretty version +:+
    ", max_support_version is " +:+ pretty kMaxSupportProtoVersion)).

Definition client_get_initializer (mem_map_type : MemMapType) (buffer_path queue_path : string)
    (buffer_fd queue_fd : Z) : prog (result ProtocolInitializer) :=
  match mem_map_type with
  | kDevShmFile => Ret (Ok (V2Client buffer_path queue_path))
  | kMemFd =>
      let client_version := kMaxSupportProtoVersion in
      h ← header client_version kExchangeProtoVersion;
      r ← send h;
      try_ r (fun _ =>
        recv_header ← wait_event_header kExchangeProtoVersion;
        try_with (fun e => error_other ("protrocol_initializer_v3 client_init failed, reason:" +:+ message e))
          recv_header (fun recv_header =>
          server_version ← defined (Header.version recv_header 0);
          match Z.min client_version server_version with
          | 2 => Ret (Ok (V2Client buffer_path queue_path))
          | 3 => Ret (Ok (V3Client mem_map_type buffer_path queue_path buffer_fd queue_fd))
          | v => Ret (Unexpected (unsupported v))
          end))
  end.

Definition server_get_initializer : prog (result ProtocolInitializer) :=
  h ← block_read_event_header;
  try_ h (fun h =>
    version ← defined (Header.version h 0);
    match version with
    | 2 => Ret (Ok (V2Server h))
    | 3 => Ret (Ok (V3Server h))
    | v => Ret (Unexpected (unsupported v))
    end).

Definition init_client_protocol (buffer_path : string) (buffer_memfd : Z) (queue_path : string)
    (queue_memfd : Z) (mem_map_type : MemMapType) : prog (result Z) :=
  initializer ← client_get_initializer mem_map_type buffer_path queue_path buffer_memfd queue_memfd;
  try_ initializer (fun initializer =>
    r ← init initializer;
    try_ r (fun _ => Ret (Ok (initializer_version initializer)))).

Definition init_server_protocol : prog (result (Managers * Z)) :=
  initializer ← server_get_initializer;
  try_ initializer (fun initializer =>
    r ← init initializer;
    try_ r (fun managers =>
      match managers with
      | None => Ret (Unexpected (error_other "server protocol init returned no managers"))
      | Some m => Ret (Ok (m, initializer_version initializer))
      end)).

(** [init_manager]: the client's own managers, before the handshake. *)
Definition init_manager (config : Config) : prog (result Managers) :=
  let buffer_path := share_memory_path_prefix config +:+ kBufferPathSuffix in
  let no_buffers e := error_other ("create share memory buffer manager failed, error=" +:+ message e) in
  let no_queues e := error_other ("create share memory queue manager failed, error=" +:+ message e) in
  match mem_map_type config with
  | kDevShmFile =>
      bm ← call (buffer_get_with_file buffer_path (share_memory_buffer_cap config) true
             (buffer_slice_sizes config));
      match bm with
      | Unexpected e => _ ← call (remove_all buffer_path); Ret (Unexpected (no_buffers e))
      | Ok bm =>
          qm ← call (queue_create_with_file (queue_path config) (queue_cap config));
          match qm with
          | Unexpected e => _ ← call (remove_all (queue_path config)); Ret (Unexpected (no_queues e))
          | Ok qm => Ret (Ok (mkManagers bm qm))
          end
      end
  | kMemFd =>
      bm ← call (buffer_get_with_memfd buffer_path 0 (share_memory_buffer_cap config) true
             (buffer_slice_sizes config));
      try_with no_buffers bm (fun bm =>
        qm ← call (queue_create_with_memfd (queue_path config) (queue_cap config));
        try_with no_queues qm (fun qm => Ret (Ok (mkManagers bm qm))))
  end.

(** * Two programs on one socket *)

(** What travels on the socket: a byte, or the one byte that carries file
    descriptors. *)
Inductive item := B (b : Z) | F (fds : list Z).
Definition item_byte (i : item) : Z := match i with B b => b | F _ => 0 end.

Section run.
Context {W : Type} (os : map_call -> W -> result Z * W).

(** One step of a program that sees the world [w] and has [inq] to read: the
    program, world and input after it, and what it sends.  A program that has
    returned, or that waits for input, takes no step. *)
Definition pstep {A} (p : prog A) (w : W) (inq : list item)
    : option (prog A * W * list item * list item) :=
  match p with
  | Ret _ | Undefined => None
  | Send bs k => Some (k (Ok tt), w, inq, B <$> bs)
  | Recv n k =>
      if n <=? Z.of_nat (length inq)
      then Some (k (Ok (item_byte <$> take (Z.to_nat n) inq)), w, drop (Z.to_nat n) inq, [])
      else None
  | SendFd fds k => Some (k (Ok tt), w, inq, [F fds])
  | RecvFd k =>
      match inq with
      | [] => None
      | F fds :: inq => Some (k (Ok fds), w, inq, [])
      | B _ :: inq =>
          Some (k (Unexpected (error_other "parse socket control message ret is nil")), w, inq, [])
      end
  | Call c k => let '(r, w') := os c w in Some (k r, w', inq, [])
  end.

(** The two ends and what is in flight between them. *)
Record conf (A C : Type) := mkConf {
  client : prog A; client_world : W; server : prog C; server_world : W;
  to_server : list item; to_client : list item;
}.
Arguments mkConf {A C}.
Arguments client {A C}.
Arguments server {A C}.

Inductive step {A C} : conf A C -> conf A C -> Prop :=
| step_client p w p' w' q v cs cs' sc sc' : pstep p w sc = Some (p', w', sc', cs') ->
    step (mkConf p w q v cs sc) (mkConf p' w' q v (cs ++ cs') sc')
| step_server p w q v q' v' cs cs' sc sc' : pstep q v cs = Some (q', v', cs', sc') ->
    step (mkConf p w q v cs sc) (mkConf p w q' v' cs' (sc ++ sc')).

(** The executable run: the client goes first whenever it can. *)
Definition next {A C} (c : conf A C) : option (conf A C) :=
  let '(mkConf p w q v cs sc) := c in
  match pstep p w sc with
  | Some (p', w', sc', cs') => Some (mkConf p' w' q v (cs ++ cs') sc')
  | None =>
      match pstep q v cs with
      | Some (q', v', cs', sc') => Some (mkConf p w q' v' cs' (sc ++ sc'))
      | None => None
      end
  end.
Fixpoint run {A C} (fuel : nat) (c : conf A C) : conf A C :=
  match fuel with
  | O => c
  | S fuel => match next c with Some c => run fuel c | None => c end
  end.

(** ** Every schedule ends alike *)

(** More input does not change a step a program can already take. *)
Lemma pstep_more {A} (p : prog A) w inq more p' w' inq' out :
  pstep p w inq = Some (p', w', inq', out) ->
  pstep p w (inq ++ more) = Some (p', w', inq' ++ more, out).
Proof.
  destruct p as [|bs k|n k|fds k|k|c k|]; cbn; try discriminate.
  - now intros [= <- <- <- <-].
  - destruct (Z.leb_spec n (Z.of_nat (length inq))); [|discriminate]. intros [= <- <- <- <-].
    rewrite length_app, (proj2 (Z.leb_le _ _)) by lia.
    now rewrite take_app_le, drop_app_le by lia.
  - now intros [= <- <- <- <-].
  - destruct inq as [|[|] inq]; [discriminate|..]; now intros [= <- <- <- <-].
  - destruct (os c w). now intros [= <- <- <- <-].
Qed.

(** Steps of the two ends commute. *)
Lemma step_diamond {A C} (c c1 c2 : conf A C) : step c c1 -> step c c2 ->
  c1 = c2 \/ exists d, step c1 d /\ step c2 d.
Proof.
  intros H1 H2. destruct H1 as [p w p' w' q v cs cs' sc sc' E|p w q v q' v' cs cs' sc sc' E];
    inversion H2 as [? ? ? ? ? ? ? ? ? ? E'|? ? ? ? ? ? ? ? ? ? E']; subst.
  - left. congruence.
  - right. eexists. split; [apply step_server, pstep_more, E'|].
    apply step_client, pstep_more, E.
  - right. eexists. split; [apply step_client, pstep_more, E'|].
    apply step_server, pstep_more, E.
  - left. congruence.
Qed.

Definition final {A C} (c : conf A C) : Prop := forall c', ~ step c c'.

(** With commuting steps, one run of [n] steps to a final configuration fixes
    the length and the end of every other. *)
Lemma runs_agree {A C} n : forall c d : conf A C, nsteps step n c d -> final d ->
  forall m e, nsteps step m c e -> exists k, (m + k = n)%nat /\ nsteps step k e d.
Proof.
  induction n as [n IH] using lt_wf_ind. intros c d Hn Hd m e Hm.
  destruct m as [|m].
  { inversion Hm; subst. exists n. split; [reflexivity|assumption]. }
  inversion Hm as [|? ? c2 ? S2 R2]; subst.
  destruct n as [|n]; [inversion Hn; subst; exfalso; exact (Hd _ S2)|].
  inversion Hn as [|? ? c1 ? S1 R1]; subst.
  assert (exists k, nsteps step k c2 d /\ k = n) as (k & Hk & ->).
  { destruct (step_diamond _ _ _ S1 S2) as [->|(x & X1 & X2)]; [eauto|].
    destruct (IH n ltac:(lia) _ _ R1 Hd 1%nat x) as (k & Ek & Rk);
      [econstructor; [exact X1|constructor]|].
    exists (S k). split; [econstructor; eauto|lia]. }
  destruct (IH n ltac:(lia) _ _ Hk Hd m e R2) as (k & Ek & Rk).
  exists k. split; [lia|exact Rk].
Qed.

Lemma next_step {A C} (c c' : conf A C) : next c = Some c' -> step c c'.
Proof.
  destruct c as [p w q v cs sc]. cbn. destruct (pstep p w sc) as [[[[? ?] ?] ?]|] eqn:E.
  - intros [= <-]. now constructor.
  - destruct (pstep q v cs) as [[[[? ?] ?] ?]|] eqn:E'; [|discriminate]. intros [= <-]. now constructor.
Qed.
Lemma next_final {A C} (c : conf A C) : next c = None -> final c.
Proof.
  destruct c as [p w q v cs sc]. cbn. intros H c' Hs. inversion Hs as [? ? ? ? ? ? ? ? ? ? E|? ? ? ? ? ? ? ? ? ? E]; subst.
  - now rewrite E in H.
  - rewrite E in H. now destruct (pstep p w sc) as [[[[? ?] ?] ?]|].
Qed.
End run.

Arguments mkConf {W A C}.
Arguments client {W A C}.
Arguments server {W A C}.
Arguments server_world {W A C}.

(** * What the handshake guarantees *)

Section handshake.
Context {W : Type} (os : map_call -> W -> result Z * W).

(** Every run from [c] ends in one and the same configuration, which satisfies
    [P]: no schedule diverges, deadlocks before it or ends elsewhere. *)
Definition settles {A C} (c : conf (W := W) A C) (P : conf (W := W) A C -> Prop) : Prop :=
  exists d n, P d /\ final os d /\
  forall m e, nsteps (step os) m c e -> (m <= n)%nat /\ nsteps (step os) (n - m) e d.

Definition reaches {A C} (c : conf (W := W) A C) (P : conf (W := W) A C -> Prop) : Prop :=
  exists d n, P d /\ final os d /\ nsteps (step os) n c d.

Lemma reaches_settles {A C} (c : conf A C) P : reaches c P -> settles c P.
Proof.
  intros (d & n & HP & Hd & Hn). exists d, n. split; [exact HP|split; [exact Hd|]]. intros m e He.
  destruct (runs_agree os n c d Hn Hd m e He) as (k & <- & Hk).
  split; [lia|]. now replace (m + k - m)%nat with k by lia.
Qed.
Lemma reaches_end {A C} (c : conf A C) (P : conf A C -> Prop) : next os c = None -> P c -> reaches c P.
Proof. intros H HP. exists c, O. split; [exact HP|split; [now apply next_final|constructor]]. Qed.
Lemma reaches_step {A C} (c c' : conf A C) P : step os c c' -> reaches c' P -> reaches c P.
Proof.
  intros H (d & n & HP & Hd & Hn). exists d, (S n). split; [exact HP|split; [exact Hd|]].
  econstructor; [exact H|exact Hn].
Qed.
Lemma reaches_client {A C} p w p' w' q v cs cs' sc sc' (P : conf A C -> Prop) :
  pstep os p w sc = Some (p', w', sc', cs') ->
  reaches (mkConf p' w' q v (cs ++ cs') sc') P -> reaches (mkConf p w q v cs sc) P.
Proof. intros H. now apply reaches_step, step_client. Qed.
Lemma reaches_server {A C} p w q v q' v' cs cs' sc sc' (P : conf A C -> Prop) :
  pstep os q v cs = Some (q', v', cs', sc') ->
  reaches (mkConf p w q' v' cs' (sc ++ sc')) P -> reaches (mkConf p w q v cs sc) P.
Proof. intros H. now apply reaches_step, step_server. Qed.

Lemma pstep_recv {A} n (k : result (list Z) -> prog A) w bs rest : n = Z.of_nat (length bs) ->
  pstep os (Recv n k) w ((B <$> bs) ++ rest) = Some (k (Ok bs), w, rest, []).
Proof.
  intros ->. cbn. rewrite length_app, length_fmap, (proj2 (Z.leb_le _ _)) by lia.
  rewrite Nat2Z.id. rewrite <- (length_fmap B bs).
  rewrite take_app_length, drop_app_length.
  assert (item_byte <$> (B <$> bs) = bs) as -> by (induction bs; cbn; congruence).
  reflexivity.
Qed.
Lemma pstep_recv_all {A} n (k : result (list Z) -> prog A) w bs : n = Z.of_nat (length bs) ->
  pstep os (Recv n k) w (B <$> bs) = Some (k (Ok bs), w, [], []).
Proof. intros H. rewrite <- (app_nil_r (B <$> bs)). now apply pstep_recv. Qed.
Lemma header_ret v t : header v t = Ret (header_bytes 8 v t).
Proof.
  unfold header. change (Z.to_nat kHeaderSize) with 8%nat.
  rewrite <- (app_nil_r (replicate 8 0)), encode_bytes by reflexivity. now rewrite app_nil_r.
Qed.
Lemma pstep_call {A} c (k : result Z -> prog A) w inq r w' : os c w = (r, w') ->
  pstep os (Call c k) w inq = Some (k r, w', inq, []).
Proof. intros E. cbn. now rewrite E. Qed.

(** What the server makes of a metadata event: its header and its body. *)
Lemma read_body_event {A} b q v t (f : result (list Z) -> prog A) :
  Z.of_nat (length (string_bytes b)) < 65536 -> Z.of_nat (length (string_bytes q)) < 65536 ->
  prog_bind f (read_body (header_bytes (8 + Z.of_nat (length (metadata_body b q))) v t)) =
  Recv (Z.of_nat (length (metadata_body b q))) f.
Proof.
  intros Hb Hq. unfold read_body. set (n := Z.of_nat (length (metadata_body b q))).
  pose proof (header_fields (8 + n) v t []) as (E & _). rewrite app_nil_r in E. rewrite E.
  assert (0 <= n < 200000).
  { unfold n, metadata_body. rewrite !length_app. cbn [length be16]. lia. }
  cbn [defined mbind prog_mbind prog_bind]. change kHeaderSize with 8.
  rewrite u32_id by lia. replace (8 + n - 8) with n by lia. rewrite u64_id by lia.
  now rewrite (proj2 (Z.leb_gt _ _)) by lia.
Qed.

(** The calls with which the server maps the memory. *)
Definition map_queue (t : MemMapType) (q : string) (qfd : Z) : map_call :=
  match t with
  | kDevShmFile => queue_mapping_with_file q
  | kMemFd => queue_mapping_with_memfd q qfd
  end.
Definition map_buffer (t : MemMapType) (b : string) (bfd : Z) : map_call :=
  match t with
  | kDevShmFile => buffer_get_with_file b 0 false []
  | kMemFd => buffer_get_with_memfd b bfd 0 false []
  end.
Definition negotiated (t : MemMapType) : Z :=
  match t with kDevShmFile => 2 | kMemFd => 3 end.


(** The errors the server returns when a mapping fails. *)
Definition queue_error (t : MemMapType) (q : string) (e : Error) : Error :=
  match t with
  | kDevShmFile => error_other (snprintf 512 ("handle_share_memory_by_file_path mappingQueueManager failed,queuePathLen:"
      +:+ pretty (Z.of_nat (String.length q)) +:+ " path:" +:+ c_str q +:+ " err=" +:+ c_str (message e)))
  | kMemFd => e
  end.
Definition buffer_error (t : MemMapType) (b : string) (e : Error) : Error :=
  match t with
  | kDevShmFile => error_other (snprintf 512 ("handle_share_memory_by_file_path mapping_buffer_manager failed, buffer_path_len:"
      +:+ pretty (Z.of_nat (String.length b)) +:+ " path:" +:+ c_str b +:+ " err=" +:+ c_str (message e)))
  | kMemFd => e
  end.

(** The result and world after both mappings: the queues first, then the
    buffers; queues whose buffers cannot be mapped are unmapped. *)
Definition map_outcome (t : MemMapType) (b : string) (bfd : Z) (q : string) (qfd : Z) (v : W)
    : result Managers * W :=
  let '(rq, v1) := os (map_queue t q qfd) v in
  match rq with
  | Unexpected e => (Unexpected (queue_error t q e), v1)
  | Ok qm =>
      let '(rb, v2) := os (map_buffer t b bfd) v1 in
      match rb with
      | Unexpected e => (Unexpected (buffer_error t b e), snd (os (queue_unmap qm) v2))
      | Ok bm => (Ok (mkManagers bm qm), v2)
      end
  end.
Definition map_ok {A C} (f : A -> C) (r : result A) : result C :=
  match r with Ok a => Ok (f a) | Unexpected e => Unexpected e end.

(** The client at the end: a version-2 client has returned once its event is
    sent; a version-3 client returns only if the server acknowledges. *)
Definition client_end (t : MemMapType) (r : result Managers) (p : prog (result Z)) : Prop :=
  match t, r with
  | kMemFd, Unexpected _ => exists k, p = Recv kHeaderSize k
  | _, _ => p = Ret (Ok (negotiated t))
  end.

Ltac psimp := cbn [mbind prog_mbind prog_bind try_ try_with defined send recv call id app].

Lemma check_header l v t : 1 <= v < 256 -> 0 <= t <= kMaxEventType ->
  check_event_valid (header_bytes l v t) 0 = Some (Ok tt) /\
  Header.version (header_bytes l v t) 0 = Some v /\ Header.msg_type (header_bytes l v t) 0 = Some t.
Proof.
  intros Hv Ht. pose proof (header_valid l v t [] Hv Ht) as E0.
  pose proof (header_fields l v t []) as (_ & _ & E2 & E3). rewrite app_nil_r in E0, E2, E3.
  unfold kMaxEventType, kHotRestartAck in Ht. now rewrite E0, E2, E3, !u8_id by lia.
Qed.


Section mapping.
Context {A C : Type} (p : prog A) (w : W) (sc : list item) (d : conf (W := W) A C -> Prop).
Context (b q : string) (bfd qfd : Z) (v : W).
Hypothesis (Hb : Z.of_nat (length (string_bytes b)) < 65536).
Hypothesis (Hq : Z.of_nat (length (string_bytes q)) < 65536).

Lemma handle_file ver (f : InitResult -> prog C) :
  (let '(r, v') := map_outcome kDevShmFile b bfd q qfd v in
   reaches (mkConf p w (f (map_ok Some r)) v' [] sc) d) ->
  reaches (mkConf p w (prog_bind f (handle_share_memory_by_file_path
    (header_bytes (8 + Z.of_nat (length (metadata_body b q))) ver kShareMemoryByFilePath))) v (B <$> metadata_body b q) sc) d.
Proof.
  unfold map_outcome, map_queue, map_buffer. intros H. unfold handle_share_memory_by_file_path.
  unfold mbind at 1, prog_mbind at 1. rewrite read_body_event by assumption.
  rewrite <- (app_nil_r (B <$> metadata_body b q)). psimp.
  eapply reaches_server; [apply pstep_recv; reflexivity|]. rewrite app_nil_r. psimp.
  rewrite metadata_extract by assumption. psimp.
  destruct (os (queue_mapping_with_file q) v) as [rq v1] eqn:Eq.
  eapply reaches_server; [apply pstep_call, Eq|]. rewrite app_nil_r.
  destruct rq as [qm|e]; psimp; [|exact H].
  destruct (os (buffer_get_with_file b 0 false []) v1) as [rb v2] eqn:Eb.
  eapply reaches_server; [apply pstep_call, Eb|]. rewrite app_nil_r.
  destruct rb as [bm|e]; psimp; [exact H|].
  destruct (os (queue_unmap qm) v2) as [ru v3] eqn:Eu.
  eapply reaches_server; [apply pstep_call, Eu|]. rewrite app_nil_r. exact H.
Qed.

(** The memfd handler up to where it waits for the descriptors. *)
Lemma handle_memfd_start {I} ver (f : I -> prog C) (g : InitResult -> prog I) :
  reaches (mkConf p w (prog_bind f (prog_bind g (recv_and_map b q))) v [] (sc ++ (B <$> header_bytes 8 3 kAckReadyRecvFd))) d ->
  reaches (mkConf p w (prog_bind f (prog_bind g (handle_share_memory_by_memfd
    (header_bytes (8 + Z.of_nat (length (metadata_body b q))) ver kShareMemoryByMemfd) 3))) v (B <$> metadata_body b q) sc) d.
Proof.
  intros H. unfold handle_share_memory_by_memfd.
  unfold mbind at 1, prog_mbind at 1. rewrite read_body_event by assumption.
  rewrite <- (app_nil_r (B <$> metadata_body b q)). psimp.
  eapply reaches_server; [apply pstep_recv; reflexivity|]. rewrite app_nil_r. psimp.
  rewrite metadata_extract by assumption. psimp.
  eapply reaches_server; [reflexivity|]. psimp. exact H.
Qed.

(** The memfd handler once the descriptors are there. *)
Lemma handle_memfd_end {I} (f : I -> prog C) (g : InitResult -> prog I) :
  (let '(r, v') := map_outcome kMemFd b bfd q qfd v in
   reaches (mkConf p w (prog_bind f (g (map_ok Some r))) v' [] sc) d) ->
  reaches (mkConf p w (prog_bind f (prog_bind g (recv_and_map b q))) v [F [bfd; qfd]] sc) d.
Proof.
  unfold map_outcome, map_queue, map_buffer. intros H. unfold recv_and_map. psimp.
  eapply reaches_server; [reflexivity|]. rewrite app_nil_r. psimp.
  destruct (os (queue_mapping_with_memfd q qfd) v) as [rq v1] eqn:Eq.
  eapply reaches_server; [apply pstep_call, Eq|]. rewrite app_nil_r.
  destruct rq as [qm|e]; psimp; [|exact H].
  destruct (os (buffer_get_with_memfd b bfd 0 false []) v1) as [rb v2] eqn:Eb.
  eapply reaches_server; [apply pstep_call, Eb|]. rewrite app_nil_r.
  destruct rb as [bm|e]; psimp; [exact H|].
  destruct (os (queue_unmap qm) v2) as [ru v3] eqn:Eu.
  eapply reaches_server; [apply pstep_call, Eu|]. rewrite app_nil_r. exact H.
Qed.
End mapping.

(** How the handshake ends when the mappings answer [r]. *)
Definition ended (t : MemMapType) (w v' : W) (r : result Managers)
    (d : conf (W := W) (result Z) (result (Managers * Z))) : Prop :=
  exists p, client_end t r p /\
    d = mkConf p w (Ret (map_ok (fun m => (m, negotiated t)) r)) v' [] [].

Lemma file_reaches b q bfd qfd w v :
  Z.of_nat (length (string_bytes b)) < 65536 -> Z.of_nat (length (string_bytes q)) < 65536 ->
  let '(r, v') := map_outcome kDevShmFile b bfd q qfd v in
  reaches (mkConf (init_client_protocol b bfd q qfd kDevShmFile) w init_server_protocol v [] [])
    (ended kDevShmFile w v' r).
Proof.
  intros Hb Hq. destruct (map_outcome _ b bfd q qfd v) as [r v'] eqn:Er.
  unfold init_client_protocol, client_get_initializer. psimp. cbn [init].
  unfold v2_client_init, send_share_memory_by_file_path. rewrite metadata_event by assumption.
  psimp. eapply reaches_client; [reflexivity|]. psimp.
  unfold init_server_protocol, server_get_initializer, block_read_event_header. psimp.
  rewrite fmap_app. eapply reaches_server; [apply pstep_recv; reflexivity|]. psimp.
  destruct (check_header (8 + Z.of_nat (length (metadata_body b q))) 2 kShareMemoryByFilePath)
    as (E1 & E2 & E3); [lia|vm_compute; split; discriminate|].
  rewrite E1. psimp. rewrite E2. psimp. cbn [init initializer_version]. unfold v2_server_init.
  rewrite E3. psimp. apply (handle_file _ _ _ _ b q bfd qfd v); [assumption..|].
  rewrite Er. destruct r; apply reaches_end; [reflexivity|..|reflexivity|];
    (eexists; split; [|reflexivity]; reflexivity).
Qed.

(** The version exchange leaves a version-3 client and a version-3 server. *)
Lemma exchange_reaches b q bfd qfd w v d :
  reaches (mkConf
    (r ← init (V3Client kMemFd b q bfd qfd); try_ r (fun _ => Ret (Ok 3))) w
    (r ← (h ← block_read_event_header;
      try_with (fun e => error_other ("ProtocolInitializerV3 block_read_event_header failed, reason:" +:+ message e)) h
        v3_server_map);
     try_ r (fun managers =>
       match managers with
       | None => Ret (Unexpected (error_other "server protocol init returned no managers"))
       | Some m => Ret (Ok (m, 3))
       end)) v [] []) d ->
  reaches (mkConf (init_client_protocol b bfd q qfd kMemFd) w init_server_protocol v [] []) d.
Proof.
  intros Hd.
  destruct (check_header 8 3 kExchangeProtoVersion) as (E1 & E2 & E3);
    [lia|vm_compute; split; discriminate|].
  unfold init_client_protocol, client_get_initializer. rewrite header_ret. psimp.
  eapply reaches_client; [reflexivity|]. psimp.
  unfold init_server_protocol, server_get_initializer, block_read_event_header at 1. psimp.
  eapply reaches_server; [apply pstep_recv_all; reflexivity|]. psimp.
  change kMaxSupportProtoVersion with 3. rewrite E1. psimp. rewrite E2. psimp.
  cbn [init initializer_version]. unfold v3_server_init. rewrite E3. psimp.
  rewrite Z.eqb_refl. cbn [negb]. unfold handle_exchange_version. rewrite header_ret. psimp.
  eapply reaches_server; [reflexivity|]. psimp.
  unfold wait_event_header, block_read_event_header at 1. psimp.
  eapply reaches_client; [apply pstep_recv_all; reflexivity|]. psimp.
  change kMaxSupportProtoVersion with 3. rewrite E1. psimp. rewrite E3. psimp.
  rewrite Z.eqb_refl. psimp. rewrite E2. psimp. change (3 `min` 3) with 3. psimp.
  cbn [init initializer_version]. exact Hd.
Qed.

Lemma memfd_reaches b q bfd qfd w v :
  Z.of_nat (length (string_bytes b)) < 65536 -> Z.of_nat (length (string_bytes q)) < 65536 ->
  let '(r, v') := map_outcome kMemFd b bfd q qfd v in
  reaches (mkConf (init_client_protocol b bfd q qfd kMemFd) w init_server_protocol v [] [])
    (ended kMemFd w v' r).
Proof.
  intros Hb Hq. destruct (map_outcome _ b bfd q qfd v) as [r v'] eqn:Er.
  destruct (check_header 8 3 kAckReadyRecvFd) as (A1 & _ & A3); [lia|vm_compute; split; discriminate|].
  destruct (check_header 8 3 kAckShareMemory) as (S1 & _ & S3); [lia|vm_compute; split; discriminate|].
  destruct (check_header (8 + Z.of_nat (length (metadata_body b q))) 3 kShareMemoryByMemfd)
    as (M1 & _ & M3); [lia|vm_compute; split; discriminate|].
  apply exchange_reaches. cbn [init]. unfold v3_client_init, send_memfd_to_peer.
  rewrite metadata_event by assumption. psimp. eapply reaches_client; [reflexivity|]. psimp.
  unfold block_read_event_header at 1. psimp.
  rewrite fmap_app. eapply reaches_server; [apply pstep_recv; reflexivity|]. psimp.
  rewrite M1. psimp. unfold v3_server_map. rewrite M3. psimp.
  apply handle_memfd_start; [assumption..|]. psimp.
  unfold wait_event_header at 1, block_read_event_header at 1. psimp.
  eapply reaches_client; [apply pstep_recv_all; reflexivity|]. psimp.
  rewrite A1. psimp. rewrite A3. psimp. rewrite Z.eqb_refl. psimp.
  eapply reaches_client; [reflexivity|]. psimp.
  apply (handle_memfd_end _ _ _ _ b q bfd qfd v). rewrite Er.
  unfold wait_event_header, block_read_event_header. psimp.
  destruct r as [m|e]; cbn [map_ok]; psimp.
  - rewrite header_ret. psimp. eapply reaches_server; [reflexivity|]. psimp.
    eapply reaches_client; [apply pstep_recv_all; reflexivity|]. psimp.
    rewrite S1. psimp. rewrite S3. psimp. rewrite Z.eqb_refl. psimp.
    apply reaches_end; [reflexivity|]. eexists. split; [|reflexivity]. reflexivity.
  - apply reaches_end; [reflexivity|]. eexists. split; [|reflexivity]. eexists. reflexivity.
Qed.

(** C6: the handshake agrees.  When the server can map the queues and the
    buffers, every interleaving of the two ends terminates in the same
    configuration: both return the same version (2 for files, 3 for memfds),
    the server holds the queues and buffers under the paths the client sent,
    mapped with the descriptors the client passed, and nothing is left on the
    socket. *)
Theorem handshake_agrees (t : MemMapType) (b q : string) (bfd qfd qm bm : Z) (w v v1 v2 : W) :
  Z.of_nat (length (string_bytes b)) < 65536 -> Z.of_nat (length (string_bytes q)) < 65536 ->
  os (map_queue t q qfd) v = (Ok qm, v1) -> os (map_buffer t b bfd) v1 = (Ok bm, v2) ->
  settles (mkConf (init_client_protocol b bfd q qfd t) w init_server_protocol v [] [])
    (fun d => d = mkConf (Ret (Ok (negotiated t))) w
                    (Ret (Ok (mkManagers bm qm, negotiated t))) v2 [] []).
Proof.
  intros Hb Hq E1 E2. apply reaches_settles.
  assert (map_outcome t b bfd q qfd v = (Ok (mkManagers bm qm), v2)) as E
    by (unfold map_outcome; now rewrite E1, E2).
  destruct t; [pose proof (file_reaches b q bfd qfd w v Hb Hq) as H
              |pose proof (memfd_reaches b q bfd qfd w v Hb Hq) as H];
    rewrite E in H; destruct H as (d & n & (p & -> & ->) & H); eexists _, n; (split; [reflexivity|exact H]).
Qed.

(** A server that cannot map the buffers gives the queues back.  Every
    interleaving ends with the queues it had mapped unmapped and the error
    returned; a version-3 client is then still waiting for the acknowledgement
    and has not reported success, while a version-2 client, which gets none,
    has. *)
Theorem handshake_buffer_failure (t : MemMapType) (b q : string) (bfd qfd qm : Z) (e : Error)
    (w v v1 v2 : W) :
  Z.of_nat (length (string_bytes b)) < 65536 -> Z.of_nat (length (string_bytes q)) < 65536 ->
  os (map_queue t q qfd) v = (Ok qm, v1) -> os (map_buffer t b bfd) v1 = (Unexpected e, v2) ->
  settles (mkConf (init_client_protocol b bfd q qfd t) w init_server_protocol v [] [])
    (fun d => server d = Ret (Unexpected (buffer_error t b e)) /\
              server_world d = snd (os (queue_unmap qm) v2) /\
              match t with
              | kDevShmFile => client d = Ret (Ok 2)
              | kMemFd => exists k, client d = Recv kHeaderSize k
              end).
Proof.
  intros Hb Hq E1 E2. apply reaches_settles.
  assert (map_outcome t b bfd q qfd v =
    (Unexpected (buffer_error t b e), snd (os (queue_unmap qm) v2))) as E
    by (unfold map_outcome; now rewrite E1, E2).
  destruct t; [pose proof (file_reaches b q bfd qfd w v Hb Hq) as H
              |pose proof (memfd_reaches b q bfd qfd w v Hb Hq) as H];
    rewrite E in H; destruct H as (d & n & (p & Hp & ->) & H); eexists _, n;
    (split; [|exact H]); cbn in *; auto.
Qed.
End handshake.

(** A system that numbers its mappings and keeps a log of what it was asked;
    it has no buffers under the path ["/none"]. *)
Definition demo_os (c : map_call) (log : list map_call) : result Z * list map_call :=
  (match c with
   | buffer_get_with_memfd p _ _ _ _ =>
       if String.eqb p "/none" then Unexpected (error_io "no such buffer") else Ok (Z.of_nat (length log))
   | _ => Ok (Z.of_nat (length log))
   end, log ++ [c]).

Lemma handshake_agrees_witness :
  settles demo_os
    (mkConf (init_client_protocol "/b" 7 "/q" 8 kMemFd) [] init_server_protocol [] [] [])
    (fun d => d = mkConf (Ret (Ok 3)) [] (Ret (Ok (mkManagers 1 0, 3)))
       [queue_mapping_with_memfd "/q" 8; buffer_get_with_memfd "/b" 7 0 false []] [] []).
Proof. apply (handshake_agrees demo_os kMemFd "/b" "/q" 7 8 0 1 [] [] [queue_mapping_with_memfd "/q" 8]); reflexivity. Defined.

Lemma handshake_buffer_failure_witness :
  settles demo_os
    (mkConf (init_client_protocol "/none" 7 "/q" 8 kMemFd) [] init_server_protocol [] [] [])
    (fun d => server d = Ret (Unexpected (error_io "no such buffer")) /\
       server_world d = [queue_mapping_with_memfd "/q" 8;
         buffer_get_with_memfd "/none" 7 0 false []; queue_unmap 0] /\
       exists k, client d = Recv kHeaderSize k).
Proof.
  apply (handshake_buffer_failure demo_os kMemFd "/none" "/q" 7 8 0 (error_io "no such buffer") [] []
    [queue_mapping_with_memfd "/q" 8]
    [queue_mapping_with_memfd "/q" 8; buffer_get_with_memfd "/none" 7 0 false []]); reflexivity.
Defined.
