(* ===== verification/ServerSession.v ===== *)
(** A server's session as far as its process is concerned: the server's branch of
    [Session::create] ([src/session.cpp]) with the mappings that
    [handle_share_memory_by_memfd] and [handle_share_memory_by_file_path]
    ([src/protocol/initializer.cpp]) make of what the client sent.  The exchange
    over the socket is in [Handshake]. *)
From stdpp Require Import pretty.
From S2P Require Import Prelude Errors Consts Config Shm Queue Slices Pool BufList Manager Mapping.
From S2P Require Import Registry Lifecycle Handshake.

(** What the client told: the paths, and the descriptors it passed. *)
Inductive sharing :=
| ByFile (buffer_path queue_path : string)
| ByMemfd (buffer_path queue_path : string) (buffer_fd queue_fd : Z).
Definition shared_path (s : sharing) : string :=
  match s with ByFile b _ => b | ByMemfd b _ _ _ => b end.

Section server.
Context {W : Type} (os : Os W) `{!OsLaws os} (strerror_r : Z -> option string) (a : arch).
#[local] Existing Instances io_ret io_bind.

(** The errors of [handle_share_memory_by_file_path]. *)
Definition no_queue (queue_path : string) (e : Error) : Error :=
  error_other (snprintf 512 ("handle_share_memory_by_file_path mappingQueueManager failed,queuePathLen:"
    +:+ pretty (Z.of_nat (String.length queue_path)) +:+ " path:" +:+ c_str queue_path +:+
    " err=" +:+ c_str (message e))).
Definition no_buffer (buffer_path : string) (e : Error) : Error :=
  error_other (snprintf 512 ("handle_share_memory_by_file_path mapping_buffer_manager failed, buffer_path_len:"
    +:+ pretty (Z.of_nat (String.length buffer_path)) +:+ " path:" +:+ c_str buffer_path +:+
    " err=" +:+ c_str (message e))).

(** [QueueManager::~QueueManager], which the branches that return an error run: the
    member [mem_] is unmapped, the file or the descriptor is left. *)
Definition queue_manager_destroy (qm : QueueManager) : io (W := W) unit :=
  _ ← map_unmap os (qm_mem_ qm); mret tt.

(** The mappings of the two handlers: the queues first, then the buffers. *)
Definition map_by_memfd (buffer_path queue_path : string) (buffer_fd queue_fd : Z)
    : io (W := W) (result (nat * QueueManager)) :=
  qm ← mapping_with_memfd os strerror_r a queue_path queue_fd;
  match qm with
  | Unexpected e => mret (Unexpected e)
  | Ok qm =>
      bm ← get_with_memfd os strerror_r buffer_path buffer_fd 0 false [];
      match bm with
      | Unexpected e => _ ← queue_manager_unmap os qm; _ ← queue_manager_destroy qm; mret (Unexpected e)
      | Ok bm => mret (Ok (bm, qm))
      end
  end.
Definition map_by_file (buffer_path queue_path : string) : io (W := W) (result (nat * QueueManager)) :=
  qm ← mapping_with_file os strerror_r a queue_path;
  match qm with
  | Unexpected e => mret (Unexpected (no_queue queue_path e))
  | Ok qm =>
      bm ← get_with_file os strerror_r buffer_path 0 false [];
      match bm with
      | Unexpected e => _ ← queue_manager_unmap os qm; _ ← queue_manager_destroy qm;
          mret (Unexpected (no_buffer buffer_path e))
      | Ok bm => mret (Ok (bm, qm))
      end
  end.
Definition map_shared (s : sharing) : io (W := W) (result (nat * QueueManager)) :=
  match s with
  | ByFile b q => map_by_file b q
  | ByMemfd b q bfd qfd => map_by_memfd b q bfd qfd
  end.

(** [init_server_protocol]: [told] is what came over the socket, [ack] what the
    sending of the acknowledgement gives, which only version 3 sends. *)
Definition init_server (told : result (sharing * Z)) (ack : result unit)
    : io (W := W) (result (nat * QueueManager * Z)) :=
  match told with
  | Unexpected e => mret (Unexpected e)
  | Ok (s, version) =>
      r ← map_shared s;
      match r with
      | Unexpected e => mret (Unexpected e)
      | Ok (bm, qm) =>
          match (if version =? 3 then ack else Ok tt) with
          | Unexpected e => _ ← queue_manager_destroy qm; mret (Unexpected e)
          | Ok _ => mret (Ok (bm, qm, version))
          end
      end
  end.

(** The server's branch of [Session::create]. *)
Definition create_server (config : Config) (split : result unit) (told : result (sharing * Z))
    (ack : result unit) : io (W := W) (result (nat * QueueManager * Z)) :=
  let '(checked, config) := verify config in
  match checked with
  | Unexpected e => mret (Unexpected (error_other ("verify config failed: " +:+ message e)))
  | Ok _ =>
      match split with
      | Unexpected e => mret (Unexpected e)
      | Ok _ => init_server told ack
      end
  end.

(** * What remains in the table *)

Lemma mapping_with_memfd_same path fd p r p' : mapping_with_memfd os strerror_r a path fd p = Some (r, p') ->
  same_table p p'.
Proof. unfold mapping_with_memfd. intros H. repeat io_step; subst; repeat split. Qed.
Lemma mapping_with_file_same path p r p' : mapping_with_file os strerror_r a path p = Some (r, p') ->
  same_table p p'.
Proof. unfold mapping_with_file. intros H. repeat io_step; subst; repeat split. Qed.

Lemma queue_manager_destroy_same qm p x p' : queue_manager_destroy qm p = Some (x, p') -> same_table p p'.
Proof.
  intros H. apply io_bind_inv in H as (m & p1 & H & H'). apply (map_unmap_inv os) in H as (_ & H1 & H2 & H3 & _).
  injection H' as _ <-. now repeat split.
Qed.

Lemma map_shared_got s p r p' : map_shared s p = Some (r, p') ->
  match r with
  | Ok (id, _) => got p p' (shared_path s) (Ok id)
  | Unexpected _ => same_table p p'
  end.
Proof.
  intros H.
  assert (exists qm p1, same_table p p1 /\
    match qm with
    | Unexpected _ => is_ok r = false /\ p' = p1
    | Ok qm => exists bm p2, got p1 p2 (shared_path s) bm /\
        match bm with
        | Unexpected _ => is_ok r = false /\ same_table p2 p'
        | Ok id => r = Ok (id, qm) /\ p' = p2
        end
    end) as (qm & p1 & Hs & Hq).
  { destruct s as [b q|b q bfd qfd]; unfold map_shared, map_by_file, map_by_memfd in H;
      apply io_bind_inv in H as (qm & p1 & H1 & H);
      [apply mapping_with_file_same in H1|apply mapping_with_memfd_same in H1];
      exists qm, p1; (split; [exact H1|]); (destruct qm as [qm|e]; [|injection H as <- <-; now split]);
      apply io_bind_inv in H as (bm & p2 & H2 & H); exists bm, p2; cbn [shared_path];
      [apply (get_with_file_got os) in H2|apply (get_with_memfd_got os) in H2]; (split; [exact H2|]);
      (destruct bm as [id|e]; [injection H as <- <-; now split|]);
      apply io_bind_inv in H as (x & p3 & H3 & H); apply io_bind_inv in H as (y & p4 & H4 & H);
      injection H as <- <-; (split; [reflexivity|]);
      (apply queue_manager_unmap_same in H3; [|exact OsLaws0]);
      exact (same_table_trans _ _ _ H3 (queue_manager_destroy_same _ _ _ _ H4)). }
  destruct qm as [qm|e]; [|destruct Hq as [Hr ->]; destruct r; [discriminate|exact Hs]].
  destruct Hq as (bm & p2 & Hg & Hb). destruct bm as [id|e].
  - destruct Hb as [-> ->]. unfold got in *. destruct Hs as (E1 & E2 & E3). now rewrite E1, E2, E3 in Hg.
  - destruct Hb as [Hr Hx]. destruct r; [discriminate|]. destruct Hg as [_ Hg].
    exact (same_table_trans _ _ _ Hs (same_table_trans _ _ _ Hg Hx)).
Qed.

(** C25: a server gives the buffers back, too: its session adds one reference to the
    buffers of the client's path and to nothing else, and closing it takes that
    reference away.  A handshake that fails leaves no reference, unless it is the
    acknowledgement that fails: then the reference stays, and no session exists
    that could be closed. *)
Theorem server_mappings (config : Config) (split : result unit) (s : sharing) (version : Z) (ack : result unit)
    (during : nat -> W -> W) (p p1 : process W) (r : result (nat * QueueManager * Z)) :
  registry_ok p -> 0 <= users p (shared_path s) < 2147483647 ->
  create_server config split (Ok (s, version)) ack p = Some (r, p1) ->
  match r with
  | Ok (bm, qm, v) =>
      v = version /\ (forall path, users p1 path = hold (users p) (shared_path s) 1 path) /\
      forall x p2, close_mappings os during bm qm p1 = Some (x, p2) ->
        registry_ok p2 /\ forall path, users p2 path = users p path
  | Unexpected e =>
      (forall path, users p1 path = users p path) \/
      ack = Unexpected e /\ version = 3 /\
        forall path, users p1 path = hold (users p) (shared_path s) 1 path
  end.
Proof.
  intros Hok Hu H. unfold create_server in H. destruct (verify config) as [checked config'].
  destruct checked as [u|e]; [|injection H as <- <-; now left].
  destruct split as [u'|e]; [|injection H as <- <-; now left].
  unfold init_server in H. apply io_bind_inv in H as (m & q & Hm & H). apply map_shared_got in Hm.
  destruct m as [[bm qm]|e]; [|injection H as <- <-; left; intros path; now apply same_table_users].
  destruct (got_ok p q _ bm Hok (proj2 Hu) Hm) as (Hok1 & _ & Hu1).
  destruct (Z.eqb_spec version 3) as [->|Hv]; [destruct ack as [u2|e]|].
  1,3: injection H as <- <-; split; [reflexivity|]; split; [exact Hu1|]; intros x p2;
    apply (close_mappings_ok os during p q (shared_path s)); auto; lia.
  apply io_bind_inv in H as (x & p2 & Hd & H). injection H as <- <-. right. split; [reflexivity|].
  split; [reflexivity|]. intros path. rewrite <- Hu1. apply same_table_users, (queue_manager_destroy_same _ _ _ _ Hd).
Qed.
End server.

(** * Client and server *)

(** A client's session, then the server's in a process of its own, over the
    descriptors the client passes. *)
Definition toy_server : option (result (nat * QueueManager * Z) * process toy) :=
  match toy_session (Ok 3) with
  | Some (Ok (bm, qm, _), p) =>
      match managers p !! bm with
      | Some (b, _) =>
          create_server toy_os (fun _ => None) x86_64 toy_config (Ok tt)
            (Ok (ByMemfd (path_ b) (qm_path_ qm) (memfd_ b) (qm_memfd_ qm), 3)) (Ok tt) (mkProc (world p) ∅ ∅ 0)
      | None => None
      end
  | _ => None
  end.
Definition toy_server_check : bool :=
  match toy_server with
  | Some (Ok (bm, qm, v), p) =>
      (v =? 3) && (users p "/s_buffer" =? 1) &&
      match close_mappings toy_os (fun _ w => w) bm qm p with
      | Some (_, p') => users p' "/s_buffer" =? 0
      | None => false
      end
  | _ => false
  end.
Lemma toy_server_ok : toy_server_check = true.
Proof. vm_compute. reflexivity. Qed.

Lemma empty_registry_ok {W} (w : W) : registry_ok (mkProc w ∅ ∅ 0).
Proof.
  constructor; cbn; try (intros *; now rewrite ?lookup_empty).
  all: intros id [x H]; now rewrite lookup_empty in H.
Qed.

Lemma server_mappings_witness : exists bm qm p1 p2,
  toy_server = Some (Ok (bm, qm, 3), p1) /\ users p1 "/s_buffer" = 1 /\
  close_mappings toy_os (fun _ w => w) bm qm p1 = Some (tt, p2) /\ users p2 "/s_buffer" = 0.
Proof.
  pose proof toy_server_ok as Hc. unfold toy_server_check in Hc.
  destruct toy_server as [[[[[bm qm] v]|e] p1]|] eqn:E; [|discriminate Hc..].
  apply andb_prop in Hc as [[Hv%Z.eqb_eq Hu%Z.eqb_eq]%andb_prop Hc].
  destruct (close_mappings _ _ bm qm p1) as [[[] p2]|] eqn:E2; [|discriminate Hc].
  unfold toy_server in E. destruct (toy_session (Ok 3)) as [[[[[cb cq] cv]|e] p]|] eqn:Es; try discriminate E.
  destruct (managers p !! cb) as [[b n]|] eqn:Eb; [|discriminate E].
  exists bm, qm, p1, p2. subst v. split; [reflexivity|]. split; [exact Hu|]. split; [exact E2|].
  destruct (server_mappings toy_os (fun _ => None) x86_64 toy_config (Ok tt)
    (ByMemfd (path_ b) (qm_path_ cq) (memfd_ b) (qm_memfd_ cq)) 3 (Ok tt) (fun _ w => w)
    (mkProc (world p) ∅ ∅ 0) p1 (Ok (bm, qm, 3)) (empty_registry_ok _)) as (_ & _ & Hcl);
    [change (0 <= 0 < 2147483647); lia|exact E|].
  destruct (Hcl tt p2 E2) as [_ Hp]. rewrite Hp. reflexivity.
Defined.
