(* ===== verification/Scenario.v ===== *)
(** A session between two processes, made concretely: a pool of two lists, a
    queue of four elements, one stream with both its ends.  The theorems of
    [Guarantees] are applied to it. *)
From S2P Require Import Prelude Errors Consts Config Shm Queue Slices Pool BufList.
From S2P Require Import Manager Linked LinkedWrite LinkedRead Wire Stream StreamRecv.
From S2P Require Import StreamSend StreamClose Session Delivery.

Definition demo_sizes : list SizePercentPair := [mkPair 8 50; mkPair 16 50].
Definition no_stats : Stats := mkStats 0 0 0 0 0 0 0 0.
Definition demo_stream : Stream := mkStream 0 1 0.

(** A session with one stream, [i]. *)
Definition demo_session (client : bool) (w : memory) (m : shm) (cap : Z) (i : StreamInner)
    : SessionShared :=
  mkShared 1 w m (queue_at x86_64 0 cap) (queue_at x86_64 0 cap) 3 [] 4
    {[ 1 := demo_stream ]} client 0 0 None [] false [] None no_stats {[ 0%nat := i ]} 1 false.

Definition with_send (b : LinkedBuffer) : StreamInner := mkInner LB.make b [] kStreamOpened false.

(** A fresh pool. *)
Lemma fresh_pool len pairs : pairs_ok (shm_len (zero_shm len)) 0 pairs -> exists bm m,
  Manager.create (zero_shm len) pairs "a" 0 = Some (Ok bm, m) /\ own (Pool := manager_pool bm) m [].
Proof.
  intros Hp. destruct (manager_create_rep (zero_shm len) pairs "a" 0)
    as (first & final & m & Hc & _ & _ & Hrep & _); [exact Hp|].
  eexists _, m. split; [exact Hc|]. eexists _, _. split; [exact Hrep|]. now rewrite held_none.
Qed.
Lemma demo_fresh : exists bm m,
  Manager.create (zero_shm 300) demo_sizes "a" 0 = Some (Ok bm, m) /\
  own (Pool := manager_pool bm) m [].
Proof. exact (fresh_pool 300 demo_sizes demo_pairs). Qed.

Lemma outgoing_make bm w rest : own (Pool := manager_pool bm) (shared w) rest -> heap_ok w ->
  outgoing (ops := manager_ops bm) w LB.make rest [].
Proof. intros Ho Hh. apply outgoing_empty; auto using slist_empty_ok. Qed.

(** An empty buffer over a fresh pool. *)
Lemma demo_empty : exists bm m, outgoing (ops := manager_ops bm) (Memory m ∅ 0) LB.make [] [].
Proof.
  destruct demo_fresh as (bm & m & _ & Ho). exists bm, m. apply outgoing_make; [exact Ho|].
  intros id. cbn. rewrite lookup_empty. now intros [].
Qed.

(** Three bytes written to a fresh send buffer land in shared memory. *)
Definition demo_write : option LinkedBuffer :=
  '(r, m) ← Manager.create (zero_shm 300) demo_sizes "a" 0;
  match r with
  | Ok bm => '(_, _, b) ← LB.write_bytes (manager_ops bm) (Memory m ∅ 0) LB.make [1; 2; 3]; Some b
  | Unexpected _ => None
  end.
Lemma demo_write_shm : match demo_write with
  | Some b => is_from_shm_ b = true /\ pinned_list_ b = SList.empty /\
              length (slots_in (slices (slice_list_ b))) = 1%nat
  | None => False
  end.
Proof. vm_compute. auto. Qed.

Lemma demo_written : exists bm w b, outgoing (ops := manager_ops bm) w b [] [1; 2; 3] /\
  is_from_shm_ b = true /\ length (slots_in (slices (slice_list_ b))) = 1%nat.
Proof.
  destruct demo_fresh as (bm & m & Hc & Ho).
  assert (heap_ok (Memory m ∅ 0)) as Hh by (intros id; cbn; rewrite lookup_empty; now intros []).
  destruct (outgoing_make bm (Memory m ∅ 0) [] Ho Hh) as [Hw Hp Hn].
  destruct (write_bytes_ok _ _ _ _ [1; 2; 3] Hw) as (w & b & E & Hw' & _);
    [repeat constructor; lia|cbn; lia..|].
  pose proof demo_write_shm as H. unfold demo_write in H. rewrite Hc in H.
  cbn [mbind option_bind] in H. rewrite E in H. destruct H as (H1 & H2 & H3).
  exists bm, w, b. split; [|auto]. constructor; [exact Hw'|rewrite H2; apply slist_empty_ok|now rewrite H2].
Qed.

(** A fresh queue. *)
Lemma demo_queue cap : 0 < cap <= 4 -> exists m, queue_rep x86_64 0 cap m 0 [].
Proof.
  intros Hc. destruct (create_from_bytes_rep x86_64 0 cap (zero_shm 100)) as (m & _ & H & _); [|eauto].
  unfold queue_fits. cbn. lia.
Qed.

(** The two ends of the stream, with three bytes written on the client's. *)
Lemma demo_pair : exists bm w b m, let c := demo_session true w m 4 (with_send b) in
  let d := demo_session false w m 4 new_inner in
  connected c d x86_64 0 4 0 [] /\
  stream_pair (ops := manager_ops bm) 8 c d demo_stream demo_stream (with_send b) new_inner []
    [] [1; 2; 3] [] [] [] [] [].
Proof.
  destruct demo_written as (bm & w & b & Hog & Hs & Hl). destruct (demo_queue 4) as (m & Hq); [lia|].
  exists bm, w, b, m. split.
  - constructor; [constructor; cbn; auto; try lia|reflexivity| |constructor].
    + unfold kMaxSupportProtoVersion. lia.
    + constructor.
      * intros id st Hst. cbn in Hst. apply lookup_singleton_Some in Hst as [_ <-].
        exists new_inner. split; [reflexivity|discriminate].
      * intros id id' st st' H1 H2 _. cbn in H1, H2.
        apply lookup_singleton_Some in H1 as [<- _]. now apply lookup_singleton_Some in H2 as [<- _].
  - constructor; cbn; auto; try lia.
    constructor; cbn; auto; try lia; [|constructor|constructor].
    pose proof Hog as [[[[Hown _ _ Hh _] _ _ _ _ _] _ _] _ _].
    apply outgoing_readable, outgoing_make; [exact Hown|exact Hh].
Qed.

(** The server's end after the flush and a round of polling. *)
Lemma demo_arrived : exists bm d j slots ss bs,
  incoming (ops := manager_ops bm) 8 d demo_stream j [] [1; 2; 3] [] slots ss bs.
Proof.
  destruct demo_pair as (bm & w & b & m & Hc & Hp). exists bm.
  destruct (flush_polling 8 _ _ _ _ _ _ _ _ _ _ _ _ _ _ _ _ _ _ (fun _ s => s) 4 Hc Hp)
    as (c' & d' & j' & t & ts & _ & _ & Hin & _); [discriminate|cbn; lia..|].
  cbn in Hin. eauto 10.
Qed.

(** A queue of one element that is full. *)
Lemma demo_full : exists m, queue_rep x86_64 0 1 m 0 [mkElem 1 0 0].
Proof.
  destruct (demo_queue 1) as (m & Hq); [lia|]. eexists.
  apply (put_rep x86_64 0 1 m 0 [] (mkElem 1 0 0) Hq); [|cbn; lia..].
  unfold elem_wf. cbn. lia.
Qed.

(** A session can send on a queue. *)
Lemma demo_can_send client w m cap i l : 0 < cap -> queue_rep x86_64 0 cap m 0 l ->
  can_send (demo_session client w m cap i) x86_64 0 cap 0 l.
Proof. intros Hc Hq. constructor; cbn; auto. unfold kMaxSupportProtoVersion. lia. Qed.

(** The stream with three bytes written, ready to be closed, in each state. *)
Lemma demo_stream_ok bm w b m cap st : outgoing (ops := manager_ops bm) w b [] [1; 2; 3] ->
  let i := set_state (with_send b) st in
  stream_ok (ops := manager_ops bm) 8 (demo_session true w m cap i) demo_stream i []
    [] [1; 2; 3] [] [] [] [].
Proof.
  intros Hog i. pose proof Hog as [[[[Hown _ _ Hh _] _ _ _ _ _] _ _] _ _].
  constructor; [|exact Hog|].
  - constructor; cbn; auto; try lia; [|constructor|constructor].
    apply outgoing_readable, outgoing_make; [exact Hown|exact Hh].
  - intros id _. split; apply not_elem_of_nil.
Qed.
