(* ===== verification/Guarantees.v ===== *)
(** What the components guarantee together: the theorems on buffers, streams
    and sessions that a user of the library relies on, each applied to the
    session of [Scenario]. *)
From S2P Require Import Prelude Errors Consts Config Shm Queue Slices Pool BufList.
From S2P Require Import Manager Linked LinkedWrite LinkedRead Wire Stream StreamRecv.
From S2P Require Import StreamSend StreamClose Session Delivery Scenario.

Section guarantees.
Context {ops : PoolOps} `{!Pool ops} (fuel : nat).

(** C2: bytes written at one end of a stream are read at the other.  For a
    stream with [xs] written and not flushed at one end, and [zs] to be read at
    the other, a [flush], a round of [handle_polling] by the peer and a
    [read_bytes] of [n] bytes all succeed; the read returns the first [n] bytes
    of [zs ++ xs] and leaves the others to be read, the queue is empty and its
    flag is clear, so that the next flush wakes the peer up again. *)
Theorem flush_then_read (c d : SessionShared) (st st' : Stream) (i j : StreamInner)
    (l : list QueueElement) (rest : list slot) (xs zs ys : list Z) (slots : list slot)
    (ss : list BufferSlice) (bs : list Z) (a : arch) (base cap h n : Z)
    (during : nat -> SessionShared -> SessionShared) (elems : nat) :
  connected c d a base cap h l ->
  stream_pair fuel c d st st' i j l rest xs zs ys slots ss bs -> xs <> [] ->
  Z.of_nat (length l) < cap -> h + Z.of_nat (length l) + 1 < 9223372036854775808 ->
  (length l < elems)%nat -> 0 <= n <= Z.of_nat (length (zs ++ xs)) ->
  exists c' d1 buf d2,
    StreamOps.flush ops during c st = Some (Ok tt, c') /\
    handle_polling ops fuel elems [] (sync d c') =
      Some (mkHandler kHeaderSize kHeaderSize false None, d1) /\
    StreamOps.read_bytes ops fuel [] d1 st' n = Some (Ok buf, d2) /\
    handed d2 st' buf (take (Z.to_nat n) (zs ++ xs)) /\
    to_read fuel d2 st' rest (drop (Z.to_nat n) (zs ++ xs)) /\
    queue_rep a base cap (queues d1) (h + Z.of_nat (length l) + 1) [] /\
    flag_of a base cap (queues d1) = 0.
Proof.
  intros Hc Hp Hx Hr Hh He Hn.
  destruct (flush_polling fuel c d st st' i j l rest xs zs ys slots ss bs a base cap h during elems
    Hc Hp Hx Hr Hh He) as (c' & d1 & j' & t & ts & E1 & E2 & Hin & Hq & Hf).
  destruct (read_bytes_run fuel st' n [] d1 j' rest (zs ++ xs) rest (zs ++ xs))
    as (buf & d2 & E3 & Hb & Ht); [eapply fed_done; [exact Hin|lia]|lia|].
  exists c', d1, buf, d2. auto 10.
Qed.

(** C14: a flush hands the message over.  With an open stream whose written
    bytes are in shared memory and room in the queue, [flush] publishes one
    element whose chain of slots holds exactly the bytes written, keeps every
    slot that others hold, leaves the send buffer empty and the flag of the
    consumer set. *)
Theorem flush_publishes (s : SessionShared) (st : Stream) (i : StreamInner) (rest : list slot)
    (xs : list Z) (a : arch) (base cap h : Z) (l : list QueueElement)
    (during : nat -> SessionShared -> SessionShared) :
  inner_of s st = Some i -> outgoing (mem s) (send_buf i) rest xs -> xs <> [] ->
  is_from_shm_ (send_buf i) = true -> state i = kStreamOpened -> in_fallback_state i = false ->
  can_send s a base cap h l -> 0 <= id_ st < 4294967296 -> Z.of_nat (length l) < cap ->
  h + Z.of_nat (length l) + 1 < 9223372036854775808 ->
  exists s' i' t ts, StreamOps.flush ops during s st = Some (Ok tt, s') /\
    flushed s s' st i i' rest t ts xs /\
    can_send s' a base cap h (l ++ [mkElem (id_ st) t.1 kStreamOpened]) /\
    flag_of a base cap (queues s') <> 0.
Proof.
  intros H1 H2 H3 H4 H5 H6 H7 H8 H9 H10.
  destruct (flush_sends s st i rest xs a base cap h l during H1 H2 H3 H4 H5 H6 H7 H8 H9 H10)
    as (s' & i' & t & ts & E & Hf & Hc & Hw & _). eauto 10.
Qed.

(** C20: a queue that stays full is an error and not a leak.  When the queue is
    full through all the retries, [flush] returns [kQueueFull], every slot of
    the message goes back to the pool, the queue is as it was and nothing is
    sent. *)
Theorem flush_queue_full (s : SessionShared) (st : Stream) (i : StreamInner) (rest : list slot)
    (xs : list Z) (a : arch) (base cap h : Z) (l : list QueueElement)
    (during : nat -> SessionShared -> SessionShared) :
  inner_of s st = Some i -> outgoing (mem s) (send_buf i) rest xs -> xs <> [] ->
  is_from_shm_ (send_buf i) = true -> state i = kStreamOpened -> in_fallback_state i = false ->
  can_send s a base cap h l -> cap <= Z.of_nat (length l) -> (forall n s, quiet s (during n s)) ->
  exists s', StreamOps.flush ops during s st = Some (fail_with kQueueFull, s') /\
    dropped s s' st i rest /\ queues s' = queues s /\ outbox s' = outbox s.
Proof. apply flush_full. Qed.

(** A flush on a stream that is not open fails with [kStreamClosed] and
    gives the slots of the message back. *)
Theorem flush_not_open (s : SessionShared) (st : Stream) (i : StreamInner) (rest : list slot)
    (xs : list Z) (during : nat -> SessionShared -> SessionShared) :
  inner_of s st = Some i -> outgoing (mem s) (send_buf i) rest xs -> xs <> [] ->
  state i <> kStreamOpened ->
  exists s', StreamOps.flush ops during s st = Some (fail_with Errors.kStreamClosed, s') /\
    dropped s s' st i rest /\ queues s' = queues s /\ outbox s' = outbox s.
Proof. apply flush_closed. Qed.

(** C28: a message that does not fit in shared memory goes over the socket.
    [flush] sends one fallback event with exactly the bytes written, returns
    what the send returned, gives the slots back, leaves the queue alone and
    opens the circuit breaker. *)
Theorem flush_over_socket (s : SessionShared) (st : Stream) (i : StreamInner) (rest : list slot)
    (xs : list Z) (during : nat -> SessionShared -> SessionShared) :
  inner_of s st = Some i -> outgoing (mem s) (send_buf i) rest xs -> xs <> [] ->
  state i = kStreamOpened -> is_from_shm_ (send_buf i) = false \/ in_fallback_state i = true ->
  Z.of_nat (length xs) <= UINT32_MAX - 16 ->
  let sent := wait_for_send s None (fallback_event (communication_version s) (id_ st) kStreamOpened xs) in
  exists s', StreamOps.flush ops during s st = Some (sent.1, s') /\
    dropped s s' st (set_fallback i true) rest /\ queues s' = queues s /\ outbox s' = outbox sent.2 /\
    (debug_mode s = false -> unhealthy s = 0 -> unhealthy s' = 1).
Proof. apply flush_fallback. Qed.

(** C16: a round of polling delivers everything.  [handle_polling] empties the
    queue, hands each element to its stream in the order of the queue and
    clears the flag. *)
Theorem polling_delivers (a : arch) (base cap h : Z) (l : list QueueElement) (n : nat)
    (s : SessionShared) :
  recv_queue s = queue_at a base cap -> queue_rep a base cap (queues s) h l ->
  (length l <= n)%nat -> table_ok s -> Forall (fun e => is_Some (streams s !! seq_id e)) l ->
  exists s', handle_polling ops fuel n [] s =
      Some (mkHandler kHeaderSize kHeaderSize false None, s') /\ delivered s s' l /\
    queue_rep a base cap (queues s') (h + Z.of_nat (length l)) [] /\
    flag_of a base cap (queues s') = 0 /\ table_ok s'.
Proof.
  intros H1 H2 H3 H4 H5. destruct (polling_ok (ops := ops) fuel a base cap l n s h H1 H2 H3 H4 H5)
    as (s' & E & Hd & Hq & Hf & Ht & _). eauto 8.
Qed.

(** C15: a read waits for what it needs and takes exactly that.  Whatever
    arrives in between ([fed]), [read_bytes] of [n] bytes returns the first [n]
    of all that arrived, in order, and leaves the rest. *)
Theorem stream_read (st : Stream) (n : Z) (wakes : list (SessionShared -> SessionShared))
    (s : SessionShared) (i : StreamInner) (rest rest2 : list slot) (xs zs : list Z) :
  fed fuel st n wakes s i rest xs rest2 zs -> 0 <= n ->
  exists buf s', StreamOps.read_bytes ops fuel wakes s st n = Some (Ok buf, s') /\
    handed s' st buf (take (Z.to_nat n) zs) /\ to_read fuel s' st rest2 (drop (Z.to_nat n) zs).
Proof. apply read_bytes_run. Qed.

(** [peek] returns the next [n] bytes and consumes none; [discard] consumes
    [n] bytes. *)
Theorem stream_peek_discard (st : Stream) (n : Z) (wakes : list (SessionShared -> SessionShared))
    (s : SessionShared) (i : StreamInner) (rest rest2 : list slot) (xs zs : list Z) :
  fed fuel st n wakes s i rest xs rest2 zs -> 0 <= n ->
  (exists buf s', StreamOps.peek ops fuel wakes s st n = Some (Ok buf, s') /\
    handed s' st buf (take (Z.to_nat n) zs) /\ to_read fuel s' st rest2 zs) /\
  (exists s', StreamOps.discard ops fuel wakes s st n = Some (Ok n, s') /\
    to_read fuel s' st rest2 (drop (Z.to_nat n) zs)).
Proof. intros Hf Hn. split; [eapply peek_run|eapply discard_run]; eauto. Qed.

(** Reading past the end.  On a stream that is no longer open and has fewer
    than [n] bytes to read, [read_bytes], [peek] and [discard] fail with the
    same error, end of stream when there is nothing left or the peer closed,
    and lose none of the bytes that are there. *)
Theorem stream_read_past_end (st : Stream) (n : Z) (wakes : list (SessionShared -> SessionShared))
    (s : SessionShared) (i : StreamInner) (rest : list slot) (xs ys : list Z) (slots : list slot)
    (ss : list BufferSlice) (bs : list Z) :
  incoming fuel s st i rest xs ys slots ss bs -> Z.of_nat (length xs) < n ->
  state i <> kStreamOpened ->
  exists s', StreamOps.read_bytes ops fuel wakes s st n =
      Some (fail_with (end_error (state i) xs), s') /\
    StreamOps.peek ops fuel wakes s st n = Some (fail_with (end_error (state i) xs), s') /\
    StreamOps.discard ops fuel wakes s st n = Some (fail_with (end_error (state i) xs), s') /\
    to_read fuel s' st rest xs /\ only_reads s s' st.
Proof.
  intros Hi Hn Hs. destruct (ensure_closed fuel st n s i rest xs ys slots ss bs wakes Hi Hn Hs)
    as (s' & i' & E & Hi' & Ho). exists s'.
  unfold StreamOps.read_bytes, StreamOps.peek, StreamOps.discard. rewrite E.
  split; [reflexivity|split; [reflexivity|split; [reflexivity|split; [|exact Ho]]]].
  eexists _, _, _, _, _. exact Hi'.
Qed.

(** C21: closing an open stream gives everything back and tells the peer.  With
    room in the queue [close] returns every slot of the stream but those a
    caller still views, takes the stream out of the table, and publishes one
    close element with the flag of the consumer set. *)
Theorem close_tells_peer (s : SessionShared) (st : Stream) (i : StreamInner) (rest : list slot)
    (xs ys rs : list Z) (slots : list slot) (ss : list BufferSlice) (bs : list Z) (a : arch)
    (base cap h : Z) (l : list QueueElement) :
  stream_ok fuel s st i rest xs ys rs slots ss bs -> state i = kStreamOpened ->
  in_fallback_state i = false -> shutdown s <> 1 -> can_send s a base cap h l ->
  0 <= id_ st < 4294967296 -> Z.of_nat (length l) < cap ->
  h + Z.of_nat (length l) + 1 < 9223372036854775808 ->
  exists s', StreamOps.close ops fuel s st = Some (Ok tt, s') /\ closed s s' st i rest /\
    can_send s' a base cap h (l ++ [mkElem (id_ st) 0 kStreamClosed]) /\
    flag_of a base cap (queues s') <> 0.
Proof. apply close_by_queue. Qed.

(** When the queue is full, or the stream has fallen back to the socket,
    [close] sends the close event over the socket; the slots are given back
    all the same, whatever the send returns. *)
Theorem close_over_socket (s : SessionShared) (st : Stream) (i : StreamInner) (rest : list slot)
    (xs ys rs : list Z) (slots : list slot) (ss : list BufferSlice) (bs : list Z) (a : arch)
    (base cap h : Z) (l : list QueueElement) :
  stream_ok fuel s st i rest xs ys rs slots ss bs -> state i = kStreamOpened ->
  shutdown s <> 1 -> can_send s a base cap h l ->
  in_fallback_state i = true \/ cap <= Z.of_nat (length l) ->
  let sent := wait_for_send s None
    (header_bytes 12 (communication_version s) kStreamClose ++ be32 (id_ st)) in
  exists s', StreamOps.close ops fuel s st = Some (sent.1, s') /\ closed s s' st i rest /\
    queues s' = queues s /\ outbox s' = outbox sent.2.
Proof. apply close_by_socket. Qed.

(** Closing a stream the peer has closed gives everything back and sends
    nothing. *)
Theorem close_after_peer (s : SessionShared) (st : Stream) (i : StreamInner) (rest : list slot)
    (xs ys rs : list Z) (slots : list slot) (ss : list BufferSlice) (bs : list Z) :
  stream_ok fuel s st i rest xs ys rs slots ss bs -> state i = kStreamHalfClosed ->
  exists s', StreamOps.close ops fuel s st = Some (Ok tt, s') /\ closed s s' st i rest /\
    queues s' = queues s /\ outbox s' = outbox s.
Proof. apply close_half_closed. Qed.

(** [LinkedBuffer::write_bytes] appends.  It accepts every byte, taking
    slots of the pool while there are any and the heap after, keeps the
    invariant of the buffer and touches no slot and no storage of others. *)
Theorem buffer_write (w : memory) (b : LinkedBuffer) (rest : list slot) (xs bytes : list Z) :
  writable w b rest xs -> byte_list bytes ->
  Z.of_nat (length xs) + Z.of_nat (length bytes) < 18446744073709551616 ->
  Z.of_nat (length bytes) < 4294967296 ->
  Z.of_nat (length (nodes (slice_list_ b))) < 4611686018427387904 ->
  exists w' b', LB.write_bytes ops w b bytes = Some (Ok (Z.of_nat (length bytes)), w', b') /\
    writable w' b' rest (xs ++ bytes) /\ leaves w w' (slices (slice_list_ b)) rest.
Proof.
  intros H1 H2 H3 H4 H5. destruct (write_bytes_ok w b rest xs bytes H1 H2 H3 H4 H5)
    as (w' & b' & E & Hw & Hl & _). eauto 6.
Qed.

(** [LinkedBuffer::reserve] gives a window of [size] bytes at the end of
    the buffer: whatever is stored through it is what the buffer holds after
    the bytes it had. *)
Theorem buffer_reserve (w : memory) (b : LinkedBuffer) (rest : list slot) (xs : list Z) (size : Z) :
  writable w b rest xs -> 0 < size < 4294967296 ->
  Z.of_nat (length xs) + size < 18446744073709551616 ->
  Z.of_nat (length (nodes (slice_list_ b))) < 4611686018427387904 ->
  exists sp w' b', LB.reserve ops w b size = Some (Ok sp, w', b') /\ sp_len sp = size /\
    window w' b' rest xs sp /\ leaves w w' (slices (slice_list_ b)) rest.
Proof. apply reserve_ok. Qed.

(** C33: [LinkedBuffer::read_bytes] returns the next [n] bytes and keeps every
    view it has returned before: the memory behind each is neither changed nor
    given back. *)
Theorem buffer_read_keeps_views (w : memory) (b : LinkedBuffer) (rest : list slot) (xs : list Z)
    (n : Z) :
  readable w b rest xs -> 0 <= n <= Z.of_nat (length xs) ->
  Z.of_nat (length xs) < 18446744073709551616 ->
  exists buf w' b', LB.read_bytes ops w b n = Some (Ok buf, w', b') /\
    returned w' b' buf (take (Z.to_nat n) xs) /\ readable w' b' rest (drop (Z.to_nat n) xs) /\
    (forall sp, viewed b sp -> viewed b' sp /\ span_bytes w' sp = span_bytes w sp).
Proof.
  intros H1 H2 H3. destruct (read_bytes_ok w b rest xs n H1 H2 H3)
    as (buf & w' & b' & E & Hr & Hd & [Hv _ _ _] & _). eauto 8.
Qed.

(** [release_previous_read] gives back what was read and nothing else: no
    slot stays pinned, and the bytes still to be read are the same. *)
Theorem buffer_release (w : memory) (b : LinkedBuffer) (rest : list slot) (xs : list Z) :
  readable w b rest xs ->
  exists w' b', LB.release_previous_read ops w b = Some (w', b') /\ readable w' b' rest xs /\
    nodes (pinned_list_ b') = [] /\ leaves w w' (held b) rest.
Proof.
  intros H. destruct (release_previous_read_ok w b rest xs H) as (w' & b' & E & H1 & H2 & [H3 _ _] & _).
  eauto 8.
Qed.
End guarantees.

Lemma flush_then_read_witness : exists bm c d c' d1 buf d2,
  StreamOps.flush (manager_ops bm) (fun _ s => s) c demo_stream = Some (Ok tt, c') /\
  handle_polling (manager_ops bm) 8 4 [] (sync d c') =
    Some (mkHandler kHeaderSize kHeaderSize false None, d1) /\
  StreamOps.read_bytes (manager_ops bm) 8 [] d1 demo_stream 2 = Some (Ok buf, d2) /\
  handed d2 demo_stream buf [1; 2].
Proof.
  destruct demo_pair as (bm & w & b & m & Hc & Hp).
  destruct (flush_then_read 8 _ _ _ _ _ _ _ _ _ _ _ _ _ _ _ _ _ _ 2 (fun _ s => s) 4 Hc Hp)
    as (c' & d1 & buf & d2 & E1 & E2 & E3 & Hb & _);
    [discriminate|vm_compute; reflexivity|vm_compute; reflexivity|cbn; lia|cbn; lia|].
  exists bm. eauto 10.
Defined.

Lemma flush_publishes_witness : exists bm s s', 
  StreamOps.flush (manager_ops bm) (fun _ s => s) s demo_stream = Some (Ok tt, s') /\
  exists t ts, message (mem s') t ts [1; 2; 3].
Proof.
  destruct demo_written as (bm & w & b & Hog & Hs & _). destruct (demo_queue 4) as (m & Hq); [lia|].
  destruct (flush_publishes (ops := manager_ops bm) (demo_session true w m 4 (with_send b)) demo_stream (with_send b) []
    [1; 2; 3] x86_64 0 4 0 [] (fun _ s => s)) as (s' & i' & t & ts & E & [_ Hm _ _ _ _ _ _ _ _ _] & _);
    [reflexivity|exact Hog|discriminate|exact Hs|reflexivity|reflexivity| |cbn; lia..|].
  - apply demo_can_send; [lia|exact Hq].
  - eauto 10.
Defined.

Lemma flush_queue_full_witness : exists bm s s',
  StreamOps.flush (manager_ops bm) (fun _ s => s) s demo_stream = Some (fail_with kQueueFull, s') /\
  own (Pool := manager_pool bm) (shared (mem s')) [].
Proof.
  destruct demo_written as (bm & w & b & Hog & Hs & _). destruct demo_full as (m & Hq).
  destruct (flush_queue_full (ops := manager_ops bm) (demo_session true w m 1 (with_send b)) demo_stream (with_send b) []
    [1; 2; 3] x86_64 0 1 0 [mkElem 1 0 0] (fun _ s => s)) as (s' & E & [Ho _ _] & _);
    [reflexivity|exact Hog|discriminate|exact Hs|reflexivity|reflexivity| |cbn; lia| |].
  - apply demo_can_send; [lia|exact Hq].
  - intros _ s. repeat split.
  - eauto 10.
Defined.

Lemma flush_not_open_witness : exists bm s s',
  StreamOps.flush (manager_ops bm) (fun _ s => s) s demo_stream =
    Some (fail_with Errors.kStreamClosed, s') /\
  own (Pool := manager_pool bm) (shared (mem s')) [].
Proof.
  destruct demo_written as (bm & w & b & Hog & _).
  destruct (flush_not_open (ops := manager_ops bm) (demo_session true w (zero_shm 0) 1 (set_state (with_send b) kStreamHalfClosed))
    demo_stream (set_state (with_send b) kStreamHalfClosed) [] [1; 2; 3] (fun _ s => s))
    as (s' & E & [Ho _ _] & _); [reflexivity|exact Hog|discriminate|discriminate|]. eauto 10.
Defined.

Lemma flush_over_socket_witness : exists bm s s',
  StreamOps.flush (manager_ops bm) (fun _ s => s) s demo_stream = Some (Ok tt, s') /\
  outbox s' = [fallback_event 3 1 kStreamOpened [1; 2; 3]] /\ unhealthy s' = 1.
Proof.
  destruct demo_written as (bm & w & b & Hog & _).
  destruct (flush_over_socket (ops := manager_ops bm) (demo_session true w (zero_shm 0) 1 (set_fallback (with_send b) true))
    demo_stream (set_fallback (with_send b) true) [] [1; 2; 3] (fun _ s => s))
    as (s' & E & _ & _ & Hx & Hu);
    [reflexivity|exact Hog|discriminate|reflexivity|right; reflexivity|vm_compute; discriminate|].
  eexists bm, _, s'. split; [exact E|]. split; [exact Hx|]. apply Hu; reflexivity.
Defined.

Lemma polling_delivers_witness : exists bm s', exists m,
  handle_polling (manager_ops bm) 8 4 [] (demo_session false (Memory m ∅ 0) m 1 new_inner) =
    Some (mkHandler kHeaderSize kHeaderSize false None, s') /\
  inner_of s' demo_stream = Some (set_pending new_inner [mkWrapper None 0]).
Proof.
  destruct demo_fresh as (bm & _). destruct demo_full as (m & Hq). exists bm.
  destruct (polling_delivers (ops := manager_ops bm) 8 x86_64 0 1 0 [mkElem 1 0 0] 4
    (demo_session false (Memory m ∅ 0) m 1 new_inner)) as (s' & E & [_ _ _ _ Hi] & _);
    [reflexivity|exact Hq|cbn; lia| | |].
  - constructor.
    + intros id st Hst. cbn in Hst. apply lookup_singleton_Some in Hst as [_ <-].
      exists new_inner. split; [reflexivity|discriminate].
    + intros id id' st st' H1 H2 _. cbn in H1, H2.
      apply lookup_singleton_Some in H1 as [<- _]. now apply lookup_singleton_Some in H2 as [<- _].
  - constructor; [|constructor]. cbn. eauto.
  - exists s', m. split; [exact E|]. apply (Hi 1 demo_stream new_inner); reflexivity.
Defined.

Lemma stream_read_witness : exists bm d buf d',
  StreamOps.read_bytes (manager_ops bm) 8 [] d demo_stream 2 = Some (Ok buf, d') /\
  handed d' demo_stream buf [1; 2] /\ to_read (ops := manager_ops bm) 8 d' demo_stream [] [3].
Proof.
  destruct demo_arrived as (bm & d & j & slots & ss & bs & Hin).
  destruct (stream_read (ops := manager_ops bm) 8 demo_stream 2 [] d j [] [] [1; 2; 3] [1; 2; 3])
    as (buf & d' & E & H1 & H2); [eapply fed_done; [exact Hin|cbn; lia]|lia|]. eauto 10.
Defined.

Lemma stream_peek_discard_witness : exists bm d d',
  StreamOps.discard (manager_ops bm) 8 [] d demo_stream 2 = Some (Ok 2, d') /\
  to_read (ops := manager_ops bm) 8 d' demo_stream [] [3].
Proof.
  destruct demo_arrived as (bm & d & j & slots & ss & bs & Hin).
  destruct (stream_peek_discard (ops := manager_ops bm) 8 demo_stream 2 [] d j [] [] [1; 2; 3] [1; 2; 3])
    as (_ & d' & E & H); [eapply fed_done; [exact Hin|cbn; lia]|lia|]. eauto 10.
Defined.

Lemma stream_read_past_end_witness : exists bm d d',
  StreamOps.read_bytes (manager_ops bm) 8 [] d demo_stream 1 = Some (fail_with kEndOfStream, d') /\
  to_read (ops := manager_ops bm) 8 d' demo_stream [] [].
Proof.
  destruct demo_empty as (bm & m & Hog). exists bm.
  set (i := set_state new_inner kStreamHalfClosed).
  assert (incoming (ops := manager_ops bm) 8 (demo_session true (Memory m ∅ 0) m 1 i) demo_stream i
    [] [] [] [] [] []) as Hin.
  { constructor; cbn; auto; try lia; [|constructor|constructor].
    now apply outgoing_readable. }
  destruct (stream_read_past_end (ops := manager_ops bm) 8 demo_stream 1 [] _ i [] [] [] [] [] [] Hin)
    as (d' & E & _ & _ & H & _); [cbn; lia|discriminate|]. eauto.
Defined.

Lemma close_tells_peer_witness : exists bm s s',
  StreamOps.close (manager_ops bm) 8 s demo_stream = Some (Ok tt, s') /\
  own (Pool := manager_pool bm) (shared (mem s')) [] /\ streams s' !! 1 = None.
Proof.
  destruct demo_written as (bm & w & b & Hog & _). destruct (demo_queue 4) as (m & Hq); [lia|].
  destruct (close_tells_peer (ops := manager_ops bm) 8 _ _ _ _ _ _ _ _ _ _ x86_64 0 4 0 []
    (demo_stream_ok bm w b m 4 kStreamOpened Hog)) as (s' & E & [Ho _ _ Hs _] & _);
    [reflexivity|reflexivity|discriminate| |cbn; lia..|].
  - apply demo_can_send; [lia|exact Hq].
  - eexists bm, _, s'. split; [exact E|]. split; [exact Ho|]. rewrite Hs. apply lookup_delete_eq.
Defined.

Lemma close_over_socket_witness : exists bm s s',
  StreamOps.close (manager_ops bm) 8 s demo_stream = Some (Ok tt, s') /\
  own (Pool := manager_pool bm) (shared (mem s')) [] /\
  outbox s' = [header_bytes 12 3 kStreamClose ++ be32 1].
Proof.
  destruct demo_written as (bm & w & b & Hog & _). destruct demo_full as (m & Hq).
  destruct (close_over_socket (ops := manager_ops bm) 8 _ _ _ _ _ _ _ _ _ _ x86_64 0 1 0
    [mkElem 1 0 0] (demo_stream_ok bm w b m 1 kStreamOpened Hog)) as (s' & E & [Ho _ _ _ _] & _ & Hx);
    [reflexivity|discriminate| |right; cbn; lia|].
  - apply demo_can_send; [lia|exact Hq].
  - eexists bm, _, s'. split; [exact E|]. split; [exact Ho|exact Hx].
Defined.

Lemma close_after_peer_witness : exists bm s s',
  StreamOps.close (manager_ops bm) 8 s demo_stream = Some (Ok tt, s') /\
  own (Pool := manager_pool bm) (shared (mem s')) [] /\ outbox s' = [].
Proof.
  destruct demo_written as (bm & w & b & Hog & _).
  destruct (close_after_peer (ops := manager_ops bm) 8 _ _ _ _ _ _ _ _ _ _
    (demo_stream_ok bm w b (zero_shm 0) 1 kStreamHalfClosed Hog)) as (s' & E & [Ho _ _ _ _] & _ & Hx);
    [reflexivity|].
  eexists bm, _, s'. split; [exact E|]. split; [exact Ho|exact Hx].
Defined.

Lemma buffer_write_witness : exists bm m w' b',
  LB.write_bytes (manager_ops bm) (Memory m ∅ 0) LB.make [4; 5] = Some (Ok 2, w', b') /\
  writable (ops := manager_ops bm) w' b' [] [4; 5].
Proof.
  destruct demo_empty as (bm & m & Hog). destruct Hog as [Hw _ _]. exists bm, m.
  destruct (buffer_write (ops := manager_ops bm) (Memory m ∅ 0) LB.make [] [] [4; 5] Hw)
    as (w' & b' & E & H & _); [repeat constructor; lia|cbn; lia..|]. eauto.
Defined.

Lemma buffer_reserve_witness : exists bm m sp w' b',
  LB.reserve (manager_ops bm) (Memory m ∅ 0) LB.make 6 = Some (Ok sp, w', b') /\ sp_len sp = 6.
Proof.
  destruct demo_empty as (bm & m & Hog). destruct Hog as [Hw _ _]. exists bm, m.
  destruct (buffer_reserve (ops := manager_ops bm) (Memory m ∅ 0) LB.make [] [] 6 Hw)
    as (sp & w' & b' & E & H & _); [lia|cbn; lia..|]. eauto.
Defined.

Lemma buffer_read_keeps_views_witness : exists bm w b buf w' b',
  LB.read_bytes (manager_ops bm) w b 2 = Some (Ok buf, w', b') /\
  returned w' b' buf [1; 2] /\ readable (ops := manager_ops bm) w' b' [] [3].
Proof.
  destruct demo_written as (bm & w & b & Hog & _). exists bm, w, b.
  destruct (buffer_read_keeps_views w b [] [1; 2; 3] 2 (outgoing_readable _ _ _ _ Hog))
    as (buf & w' & b' & E & H1 & H2 & _); [cbn; lia..|]. eauto 6.
Defined.

Lemma buffer_release_witness : exists bm w b w' b',
  LB.release_previous_read (manager_ops bm) w b = Some (w', b') /\
  readable (ops := manager_ops bm) w' b' [] [1; 2; 3].
Proof.
  destruct demo_written as (bm & w & b & Hog & _). exists bm, w, b.
  destruct (buffer_release w b [] [1; 2; 3] (outgoing_readable _ _ _ _ Hog))
    as (w' & b' & E & H & _). eauto.
Defined.
