(* ===== verification/Duplex.v ===== *)
(** A stream as a pair of byte channels.  The two ends of a stream write, flush,
    poll and read in any order, over the library's own operations
    ([src/stream.cpp], [handle_polling] of [src/session.cpp]); each direction
    behaves as a channel that carries the bytes written from one end to the
    other.  The messages are those of the shared memory; what is sent over the
    socket is in [Events]. *)
From stdpp Require Import gmultiset.
From S2P Require Import Prelude Errors Consts Config Shm Queue Slices Pool Linked LinkedWrite.
From S2P Require Import LinkedRead Wire Stream StreamRecv StreamSend StreamClose Session.
From S2P Require Import Delivery BufList Manager Scenario.

(** * What a stream promises *)

(** One direction: bytes written and not flushed, bytes on their way, bytes the
    other end can read. *)
Record chan := mkChan { unsent : list Z; transit : list Z; arrived : list Z }.

(** What an end may do. *)
Inductive act :=
| Write (bytes : list Z) | Flush | Poll
| Read (n : Z) | Peek (n : Z) | Discard (n : Z) | Release.

(** What it does to the direction [x] it sends on and to the direction [y] it
    receives from, with the bytes it gets. *)
Definition promise (a : act) (x y : chan) : list Z * chan * chan :=
  match a with
  | Write bytes => ([], mkChan (unsent x ++ bytes) (transit x) (arrived x), y)
  | Flush => ([], mkChan [] (transit x ++ unsent x) (arrived x), y)
  | Poll => ([], x, mkChan (unsent y) [] (arrived y ++ transit y))
  | Read n => (take (Z.to_nat n) (arrived y), x,
               mkChan (unsent y) (transit y) (drop (Z.to_nat n) (arrived y)))
  | Peek n => (take (Z.to_nat n) (arrived y), x, y)
  | Discard n => ([], x, mkChan (unsent y) (transit y) (drop (Z.to_nat n) (arrived y)))
  | Release => ([], x, y)
  end.

(** A conversation: each action is of the left end or of the right end. *)
Fixpoint promised (l : list (bool * act)) (x y : chan) : list (list Z) * chan * chan :=
  match l with
  | [] => ([], x, y)
  | (mine, a) :: l' =>
      let '(out, x, y) :=
        if (mine : bool) then promise a x y else let '(out, y, x) := promise a y x in (out, x, y) in
      let '(outs, x, y) := promised l' x y in (out :: outs, x, y)
  end.

(** All that is in a direction, in the order in which it will be read. *)
Definition stock (x : chan) : list Z := arrived x ++ transit x ++ unsent x.

(** The bytes one end writes in a conversation. *)
Definition gave (b : act) : list Z := match b with Write bytes => bytes | _ => [] end.
Fixpoint written (who : bool) (l : list (bool * act)) : list Z :=
  match l with
  | [] => []
  | (mine, b) :: l' => (if Bool.eqb mine who then gave b else []) ++ written who l'
  end.

(** What an end gets is the next of the bytes [ws] meant for it; the result is
    what it has not passed yet. *)
Definition serve (b : act) (out ws : list Z) : option (list Z) :=
  match b with
  | Read n => if bool_decide (out = take (Z.to_nat n) ws) then Some (drop (Z.to_nat n) ws) else None
  | Peek n => if bool_decide (out = take (Z.to_nat n) ws) then Some ws else None
  | Discard n => Some (drop (Z.to_nat n) ws)
  | _ => Some ws
  end.
Fixpoint serves (who : bool) (l : list (bool * act)) (outs : list (list Z)) (ws : list Z)
    : option (list Z) :=
  match l, outs with
  | [], [] => Some ws
  | (mine, b) :: l', out :: outs' =>
      ws ← (if Bool.eqb mine who then serve b out ws else Some ws); serves who l' outs' ws
  | _, _ => None
  end.

(** * What the library does *)

Section library.
Variable ops : PoolOps.
Variable fuel : nat.
(** Bound on the elements of one round of polling. *)
Variable elems : nat.

(** The calls of an end, in its process.  [None] is a call that fails, or that
    would wait. *)
Definition perform (a : act) (s : SessionShared) (st : Stream) : option (list Z * SessionShared) :=
  match a with
  | Write bytes =>
      '(r, s) ← StreamOps.write_bytes ops s st bytes;
      match r with Ok _ => Some ([], s) | Unexpected _ => None end
  | Flush =>
      '(r, s) ← StreamOps.flush ops (fun _ s => s) s st;
      match r with Ok _ => Some ([], s) | Unexpected _ => None end
  | Poll =>
      '(h, s) ← handle_polling ops fuel elems [] s;
      match hr_err h with None => Some ([], s) | Some _ => None end
  | Read n =>
      '(r, s) ← StreamOps.read_bytes ops fuel [] s st n;
      match r with
      | Ok buf => bytes ← BufOps.bytes (mem s) buf; Some (bytes, s)
      | Unexpected _ => None
      end
  | Peek n =>
      '(r, s) ← StreamOps.peek ops fuel [] s st n;
      match r with
      | Ok buf => bytes ← BufOps.bytes (mem s) buf; Some (bytes, s)
      | Unexpected _ => None
      end
  | Discard n =>
      '(r, s) ← StreamOps.discard ops fuel [] s st n;
      match r with Ok _ => Some ([], s) | Unexpected _ => None end
  | Release =>
      i ← inner_of s st;
      '(w, b) ← LB.release_previous_read ops (mem s) (recv_buf i);
      Some ([], put_inner (set_mem s w) st (set_recv i b))
  end.

(** The slots a stream has written to and not sent. *)
Definition sent (i : StreamInner) : list slot := slots_in (slices (slice_list_ (send_buf i))).

(** Where a call keeps to shared memory: what is written finds room in the pool,
    and a message has no more than [fuel] slices. *)
Definition fits (a : act) (s : SessionShared) (st : Stream) : bool :=
  match inner_of s st with
  | None => false
  | Some i =>
      match a with
      | Write bytes =>
          (LB.len (send_buf i) + Z.of_nat (length bytes) <? 4294967296) &&
          forallb (fun b => (0 <=? b) && (b <? 256)) bytes &&
          match StreamOps.write_bytes ops s st bytes with
          | Some (_, s') => match inner_of s' st with
                            | Some i' => is_from_shm_ (send_buf i')
                            | None => false
                            end
          | None => false
          end
      | Flush => (length (sent i) <=? fuel)%nat
      | Read n | Peek n | Discard n => 0 <=? n
      | Poll | Release => true
      end
  end.

(** The two processes take turns: each sees in the mappings what the other has
    done. *)
Definition turn (mine : bool) (a : act) (p : SessionShared * SessionShared) (st st' : Stream)
    : option (list Z * (SessionShared * SessionShared)) :=
  if mine
  then if fits a p.1 st then '(out, c) ← perform a p.1 st; Some (out, (c, sync p.2 c)) else None
  else if fits a p.2 st' then '(out, d) ← perform a p.2 st'; Some (out, (sync p.1 d, d)) else None.

Fixpoint converse (l : list (bool * act)) (p : SessionShared * SessionShared) (st st' : Stream)
    : option (list (list Z) * (SessionShared * SessionShared)) :=
  match l with
  | [] => Some ([], p)
  | (mine, a) :: l' =>
      '(out, p) ← turn mine a p st st';
      '(outs, p) ← converse l' p st st';
      Some (out :: outs, p)
  end.
End library.

(** * One end *)

(** Lists of slots with the same parts in another order. *)
Lemma elements_disj (l : list slot) : elements (list_to_set_disj l : gmultiset slot) ≡ₚ l.
Proof.
  induction l as [|x l IH]; [now rewrite list_to_set_disj_nil, gmultiset_elements_empty|].
  now rewrite list_to_set_disj_cons, gmultiset_elements_disj_union, gmultiset_elements_singleton, IH.
Qed.
Lemma perm_disj (l l' : list slot) :
  (list_to_set_disj l : gmultiset slot) = list_to_set_disj l' -> l ≡ₚ l'.
Proof. intros E. now rewrite <- (elements_disj l), E, elements_disj. Qed.
Ltac perm := apply perm_disj; rewrite ?list_to_set_disj_app, ?list_to_set_disj_cons; multiset_solver.

Section ends.
Context {ops : PoolOps} `{!Pool ops} (fuel : nat).

(** An end of the stream: it holds [mine], others hold [rest].  [xs] can be
    read, [ts] is in the queue at the offsets [offs], [ys] is not flushed. *)
Record end_ok (s : SessionShared) (st : Stream) (offs : list Z) (mine rest : list slot)
    (xs ts ys : list Z) (i : StreamInner) (rs bs : list Z) (slots tslots : list slot) : Prop := {
  eo_inner : inner_of s st = Some i;
  eo_open : state i = kStreamOpened;
  eo_queue : in_fallback_state i = false;
  eo_recv : readable (mem s) (recv_buf i) (slots ++ tslots ++ sent i ++ rest) rs;
  eo_box : inbox fuel (mem s) (pending_data i) slots [] bs;
  eo_transit : inbox fuel (mem s) (mkWrapper None <$> offs) tslots [] ts;
  eo_heap : storages_in (held (recv_buf i)) = [];
  eo_send : outgoing (mem s) (send_buf i) (slots_in (held (recv_buf i)) ++ slots ++ tslots ++ rest) ys;
  eo_shm : is_from_shm_ (send_buf i) = true;
  eo_bytes : xs = rs ++ bs;
  eo_mine : mine = slots_in (held (recv_buf i)) ++ slots ++ tslots ++ sent i;
}.

Definition end_has (s : SessionShared) (st : Stream) (offs : list Z) (mine rest : list slot)
    (xs ts ys : list Z) : Prop :=
  exists i rs bs slots tslots, end_ok s st offs mine rest xs ts ys i rs bs slots tslots.

Lemma storages_shm ss : forallb is_from_shm ss = true -> storages_in ss = [].
Proof.
  induction ss as [|s ss IH]; [reflexivity|]. cbn [forallb]. intros [Hs Hss]%andb_prop.
  unfold storages_in. cbn. unfold storage_of at 1. rewrite Hs. now apply IH.
Qed.

Lemma send_storages w b rest ys : outgoing w b rest ys -> is_from_shm_ b = true ->
  storages_in (slices (slice_list_ b)) = [].
Proof.
  intros [[[_ _ _ _ Hs _] _ _] _ _] Hb. apply storages_shm. now rewrite <- Hs.
Qed.

Lemma end_own s st offs mine rest xs ts ys i rs bs slots tslots :
  end_ok s st offs mine rest xs ts ys i rs bs slots tslots ->
  own (shared (mem s)) (mine ++ rest) /\ heap_ok (mem s).
Proof.
  intros [_ _ _ Hr _ _ _ _ _ _ ->]. pose proof (rd_inv _ _ _ _ (proj1 Hr)) as Hci.
  split; [|apply Hci]. pose proof (ci_own _ _ _ Hci) as Ho. rewrite <- !app_assoc. exact Ho.
Qed.

(** Where nothing is on the heap, keeping the slots is enough. *)
Lemma agree_kept w w' ss kept : storages_in ss = [] -> keeps kept (shared w) (shared w') ->
  slots_in ss ⊆ kept -> agree w w' ss.
Proof.
  intros E Hk Hi. split; [eapply keeps_incl; eauto|]. rewrite E. intros id Hid. now apply not_elem_of_nil in Hid.
Qed.
Lemma inbox_kept w w' l slots bs kept out : inbox fuel w l slots [] bs -> own (shared w) out ->
  keeps kept (shared w) (shared w') -> slots ⊆ kept -> slots ⊆ out -> inbox fuel w' l slots [] bs.
Proof.
  intros Hb Ho Hk H1 H2. eapply inbox_keeps; [exact Hb|eapply keeps_incl; eauto| |].
  - intros id Hid. now apply not_elem_of_nil in Hid.
  - intros u Hu. apply (own_slot _ _ u Ho), H2, Hu.
Qed.

(** The memory has changed outside of what the end holds. *)
Lemma end_kept s s' st offs mine rest rest' xs ts ys i rs bs slots tslots :
  end_ok s st offs mine rest xs ts ys i rs bs slots tslots ->
  keeps mine (shared (mem s)) (shared (mem s')) -> own (shared (mem s')) (mine ++ rest') ->
  heap_ok (mem s') -> inner_of s' st = Some i ->
  end_ok s' st offs mine rest' xs ts ys i rs bs slots tslots.
Proof.
  intros [Ei Ho Hq Hr Hb Ht Hh Hs Hsh Ex ->] Hk Hown Hok Ei'.
  pose proof (rd_inv _ _ _ _ (proj1 Hr)) as Hci. rewrite <- !app_assoc in Hown.
  pose proof (ci_own _ _ _ Hci) as Hown0. constructor; auto.
  - apply (readable_agree (mem s) _ _ _ _ _ Hr); auto. eapply agree_kept; [exact Hh|exact Hk|set_solver].
  - eapply inbox_kept; [exact Hb|exact Hown0|exact Hk|set_solver..].
  - eapply inbox_kept; [exact Ht|exact Hown0|exact Hk|set_solver..].
  - apply (outgoing_agree _ _ _ _ _ _ Hs); auto.
    + eapply agree_kept; [exact (send_storages _ _ _ _ Hs Hsh)|exact Hk|unfold sent; set_solver].
    + eapply own_perm; [|exact Hown]. fold (sent i). perm.
Qed.

(** ** Writing *)

Lemma shm_slots w ss : Forall (slice_wf w) ss -> forallb is_from_shm ss = true ->
  length (slots_in ss) = length ss.
Proof.
  induction 1 as [|s ss Hs _ IH]; [reflexivity|]. cbn [forallb]. intros [Es Hss]%andb_prop.
  destruct Hs as [t Ht|id l Hf]; [|congruence]. destruct (slot_of_slice _ _ Ht) as [E _].
  unfold slots_in. cbn. rewrite E. cbn. f_equal. now apply IH.
Qed.

(** The buffer has no more slices than the pool has slots. *)
Lemma send_count w b rest ys : outgoing w b rest ys -> is_from_shm_ b = true ->
  Z.of_nat (length (nodes (slice_list_ b))) < 4294967296.
Proof.
  intros [[[Hci _ _ _ Hs _] _ _] _ _] Hb. pose proof (own_count _ _ (ci_own _ _ _ Hci)) as Hc.
  rewrite length_app, (shm_slots w) in Hc; [|apply Hci|now rewrite <- Hs].
  unfold slices in Hc. rewrite length_fmap in Hc. lia.
Qed.

(** The send buffer has got the bytes [zs]. *)
Lemma end_sends s st offs mine rest xs ts ys i rs bs slots tslots w b zs :
  end_ok s st offs mine rest xs ts ys i rs bs slots tslots ->
  writable w b (slots_in (held (recv_buf i)) ++ slots ++ tslots ++ rest) (ys ++ zs) ->
  leaves (mem s) w (slices (slice_list_ (send_buf i))) (slots_in (held (recv_buf i)) ++ slots ++ tslots ++ rest) ->
  pinned_list_ b = pinned_list_ (send_buf i) -> is_from_shm_ b = true ->
  exists mine', end_ok (put_inner (set_mem s w) st (set_send i b)) st offs mine' rest xs ts (ys ++ zs)
    (set_send i b) rs bs slots tslots.
Proof.
  intros [Ei Ho Hq Hr Hb Ht Hh Hs Hsh Ex Em] Hw' Hlv Ep Hb'. pose proof Hs as [_ Hp Hn].
  pose proof (rd_inv _ _ _ _ (proj1 Hr)) as Hci.
  pose proof (wr_inv _ _ _ _ (wb_writing _ _ _ _ Hw')) as Hci'.
  pose proof (ci_own _ _ _ Hci) as Hown. pose proof (lv_keeps _ _ _ _ Hlv) as Hk.
  eexists. constructor; cbn [mem set_mem put_inner set_inners set_send recv_buf send_buf pending_data state in_fallback_state]; auto.
  - apply inner_of_put.
  - apply (readable_agree (mem s) w _ _ _ _ Hr); [|eapply own_perm; [|apply (ci_own _ _ _ Hci')]|apply Hci'].
    + eapply agree_kept; [exact Hh|exact Hk|set_solver].
    + unfold sent. cbn. perm.
  - eapply inbox_kept; [exact Hb|exact Hown|exact Hk|set_solver..].
  - eapply inbox_kept; [exact Ht|exact Hown|exact Hk|set_solver..].
  - constructor; [exact Hw'|now rewrite Ep|now rewrite Ep].
Qed.

(** ** Flushing *)

(** The elements of the stream in a queue. *)
Definition elems_of (id : Z) (offs : list Z) : list QueueElement :=
  (fun o => mkElem id o kStreamOpened) <$> offs.

Lemma flush_end s st offs mine rest xs ts ys i rs bs slots tslots a base cap h out during :
  end_ok s st offs mine rest xs ts ys i rs bs slots tslots -> ys <> [] ->
  can_send s a base cap h (elems_of (id_ st) out) -> 0 <= id_ st < 4294967296 ->
  Z.of_nat (length out) < cap -> h + Z.of_nat (length out) + 1 < 9223372036854775808 ->
  exists s' i' t tl mine', StreamOps.flush ops during s st = Some (Ok tt, s') /\
    end_ok s' st offs mine' ((t :: tl) ++ rest) xs ts [] i' rs bs slots tslots /\
    message (mem s') t tl ys /\ length (sent i) = S (length tl) /\
    keeps rest (shared (mem s)) (shared (mem s')) /\
    can_send s' a base cap h (elems_of (id_ st) (out ++ [t.1])) /\
    same_outside base (24 + 12 * cap) (queues s) (queues s') /\ fixed s s' /\
    streams s' = streams s /\ (forall k, k <> inner_ st -> inners s' !! k = inners s !! k) /\
    state i' = state i.
Proof.
  intros Hend Hne Hcs Hid Hroom Hbig. pose proof Hend as [Ei Ho Hq Hr Hb Ht Hh Hs Hsh Ex Em].
  assert (length (elems_of (id_ st) out) = length out) as El by apply length_fmap.
  destruct (flush_sends s st i _ ys a base cap h _ during Ei Hs Hne Hsh Ho Hq Hcs Hid)
    as (s' & i' & t & tl & E & Hfl & Hcs' & _ & Hout & _); [rewrite El; lia..|].
  destruct Hfl as [F0 F1 F2 F3 [F4 F4'] F5 F6 (F7 & F7' & F7'' & F7''') (F8 & F8' & _) F9 F10].
  pose proof (wr_inv _ _ _ _ (wb_writing _ _ _ _ (og_writable _ _ _ _ F6))) as Hci'.
  pose proof (rd_inv _ _ _ _ (proj1 Hr)) as Hci.
  pose proof (ci_own _ _ _ Hci) as Hown.
  exists s', i', t, tl. eexists. split; [exact E|]. split; [|split; [exact F1|split; [unfold sent; now rewrite F0|]]].
  - constructor; rewrite ?F7, ?F7', ?F7'', ?F7'''; auto.
    + apply (readable_agree (mem s) _ _ _ _ _ Hr); [|eapply own_perm; [|apply (ci_own _ _ _ Hci')]|apply Hci'].
      * eapply agree_kept; [exact Hh|exact F3|set_solver].
      * unfold sent. perm.
    + eapply inbox_kept; [exact Hb|exact Hown|exact F3|set_solver..].
    + eapply inbox_kept; [exact Ht|exact Hown|exact F3|set_solver..].
    + apply (outgoing_agree _ (mem s') _ _ (slots_in (held (recv_buf i)) ++ slots ++ tslots ++ (t :: tl) ++ rest) _ F6);
        [split; [apply keeps_refl|auto]| |apply Hci'].
      eapply own_perm; [|apply (ci_own _ _ _ Hci')]. perm.
  - split; [eapply keeps_incl; [exact F3|set_solver]|]. split.
    { unfold elems_of in *. now rewrite fmap_app. }
    split; [exact Hout|]. split; [exact F10|]. split; [exact F8'|]. split; [exact F8|exact F7''].
Qed.

(** ** Polling *)

Lemma inbox_app w l1 slots1 ss1 bs1 l2 slots2 ss2 bs2 : inbox fuel w l1 slots1 ss1 bs1 ->
  inbox fuel w l2 slots2 ss2 bs2 -> inbox fuel w (l1 ++ l2) (slots1 ++ slots2) (ss1 ++ ss2) (bs1 ++ bs2).
Proof.
  intros H1 H2. induction H1 as [|t ts b l slots ss bs Hm Hf H IH|s o l slots ss bs Hw Hs H IH]; [exact H2|..]; cbn.
  - rewrite <- !app_assoc. now constructor.
  - rewrite <- app_assoc. now constructor.
Qed.

Lemma takes_elems id offs : forall i,
  takes_all (elems_of id offs) id i = set_pending i (pending_data i ++ (mkWrapper None <$> offs)).
Proof.
  induction offs as [|o offs IH]; intros i; [cbn; rewrite app_nil_r; now destruct i|].
  unfold elems_of. rewrite fmap_cons. cbn [takes_all foldl seq_id]. rewrite Z.eqb_refl.
  change (takes_all (elems_of id offs) id (takes (mkElem id o kStreamOpened) i) =
    set_pending i (pending_data i ++ (mkWrapper None <$> o :: offs))).
  change (takes (mkElem id o kStreamOpened) i) with (set_pending i (pending_data i ++ [mkWrapper None o])).
  rewrite IH. unfold set_pending. cbn [pending_data recv_buf send_buf state in_fallback_state].
  now rewrite <- app_assoc.
Qed.

Lemma poll_end s st offs mine rest xs ts ys i rs bs slots tslots a base cap h n :
  end_ok s st offs mine rest xs ts ys i rs bs slots tslots -> recv_queue s = queue_at a base cap ->
  queue_rep a base cap (queues s) h (elems_of (id_ st) offs) -> (length offs <= n)%nat ->
  table_ok s -> streams s !! id_ st = Some st ->
  exists s', handle_polling ops fuel n [] s = Some (mkHandler kHeaderSize kHeaderSize false None, s') /\
    end_ok s' st [] mine rest (xs ++ ts) [] ys (set_pending i (pending_data i ++ (mkWrapper None <$> offs)))
      rs (bs ++ ts) (slots ++ tslots) [] /\
    mem s' = mem s /\ queue_rep a base cap (queues s') (h + Z.of_nat (length offs)) [] /\
    same_outside base (24 + 12 * cap) (queues s) (queues s') /\ fixed s s' /\
    streams s' = streams s /\ table_ok s'.
Proof.
  intros [Ei Ho Hq Hr Hb Ht Hh Hs Hsh Ex Em] Hrq Hrep Hn Htab Hst.
  assert (length (elems_of (id_ st) offs) = length offs) as El by apply length_fmap.
  destruct (polling_ok (ops := ops) fuel a base cap _ n s h Hrq Hrep) as (s' & E & [D0 D1 D2 D3 D4] & Hrep' & _ & Htab' & Hout);
    [lia|exact Htab| |].
  { apply Forall_fmap, Forall_true. intros o. cbn. eauto. }
  rewrite El in Hrep'. exists s'. split; [exact E|]. split; [|auto 10].
  specialize (D4 _ _ _ Hst Ei). rewrite takes_elems in D4.
  constructor; cbn [set_pending recv_buf send_buf pending_data state in_fallback_state]; rewrite ?D2; auto.
  - rewrite <- app_assoc. exact Hr.
  - change (@nil BufferSlice) with (@nil BufferSlice ++ []). now apply inbox_app.
  - constructor.
  - rewrite <- app_assoc. exact Hs.
  - now rewrite Ex, app_assoc.
  - rewrite Em, <- app_assoc. reflexivity.
Qed.

(** ** Reading *)

Lemma shm_caps w ss : Forall (slice_wf w) ss -> storages_in ss = [] ->
  caps ss = total_cap (slots_in ss) /\ length (slots_in ss) = length ss.
Proof.
  induction 1 as [|s ss Hs _ IH]; [now split|]. intros E.
  destruct Hs as [t Ht|id l Hf _ Hd _].
  - destruct (slot_of_slice _ _ Ht) as [Et Eo].
    assert (slots_in (s :: ss) = t :: slots_in ss) as -> by (unfold slots_in; cbn; now rewrite Et).
    assert (storages_in (s :: ss) = storages_in ss) as Ess by (unfold storages_in; cbn; now rewrite Eo).
    rewrite Ess in E. destruct (IH E) as [Ec En]. rewrite caps_cons, Ec, (so_cap _ _ Ht). cbn [length].
    now rewrite En.
  - destruct (storage_of_heap s id Hf Hd) as [_ Eo]. unfold storages_in in E. cbn in E. rewrite Eo in E. discriminate E.
Qed.

Lemma inbox_pool w l slots bs : inbox fuel w l slots [] bs -> has_fallback l = false.
Proof. remember [] as ss. induction 1; cbn; [reflexivity|auto|discriminate]. Qed.

Lemma end_incoming s st offs mine rest xs ts ys i rs bs slots tslots :
  end_ok s st offs mine rest xs ts ys i rs bs slots tslots ->
  incoming fuel s st i (tslots ++ sent i ++ rest) xs rs slots [] bs /\ has_fallback (pending_data i) = false.
Proof.
  intros [Ei Ho Hq Hr Hb Ht Hh Hs Hsh Ex Em]. pose proof Hr as [[Hci Hl1 Hl2 _ Hby] _].
  pose proof (ci_own _ _ _ Hci) as Hown. pose proof (own_total _ _ Hown) as Htot. pose proof (own_count _ _ Hown) as Hcnt.
  assert (forall l, l ⊆ slots_in (held (recv_buf i)) ++ slots ++ tslots ++ sent i ++ rest -> 0 <= total_cap l) as Hp
    by (intros l Hl; eapply total_cap_nonneg; eauto).
  assert (0 <= total_cap (slots_in (slices (pinned_list_ (recv_buf i))))).
  { apply Hp. unfold held. rewrite (slots_in_app (slices _)). set_solver. }
  pose proof (Hp (tslots ++ sent i ++ rest) ltac:(clear; set_solver)).
  assert (Forall (slice_wf (mem s)) (slices (slice_list_ (recv_buf i))) /\
    storages_in (slices (slice_list_ (recv_buf i))) = []) as [Hw Hst].
  { pose proof (ci_wf _ _ _ Hci) as Hw. unfold held in Hw, Hh. rewrite storages_in_app in Hh.
    apply Forall_app in Hw as [Hw _]. apply app_nil in Hh as [Hh _]. now split. }
  destruct (shm_caps _ _ Hw Hst) as [Ec En]. pose proof (list_bytes_caps _ _ Hw) as Hlen. rewrite Hby, Ec in Hlen.
  unfold slices in En. rewrite length_fmap in En. unfold held in Htot, Hcnt.
  rewrite slots_in_app, !total_cap_app in Htot. rewrite slots_in_app, !length_app in Hcnt.
  rewrite !total_cap_app in *. split; [|eapply inbox_pool; eauto].
  constructor; auto; cbn [caps foldr length]; try lia.
  - rewrite app_nil_l, Hh. constructor.
  - unfold slices in *. lia.
Qed.

(** The receive buffer was worked on. *)
Lemma end_still s st offs mine rest xs ts ys i rs bs slots tslots s' i' xs' rs' slots' bs' :
  end_ok s st offs mine rest xs ts ys i rs bs slots tslots ->
  incoming fuel s' st i' (tslots ++ sent i ++ rest) xs' rs' slots' [] bs' ->
  still s s' st i i' (tslots ++ sent i ++ rest) ->
  keeps rest (shared (mem s)) (shared (mem s')) /\
  exists mine', end_ok s' st offs mine' rest xs' ts ys i' rs' bs' slots' tslots.
Proof.
  intros [Ei Ho Hq Hr Hb Ht Hh Hs Hsh Ex Em] Hin' [S1 S2 S3 S4 S5 S6].
  pose proof Hin' as [Ei' Hr' Hb' _ _ _ Ex']. pose proof (rd_inv _ _ _ _ (proj1 Hr')) as Hci'.
  pose proof (lv_keeps _ _ _ _ S6) as Hk. pose proof (rd_inv _ _ _ _ (proj1 Hr)) as Hci.
  split; [eapply keeps_incl; [exact Hk|set_solver]|]. eexists.
  assert (sent i' = sent i) as Es by (unfold sent; now rewrite S2).
  constructor; rewrite ?S2, ?S3, ?S4, ?Es; auto.
  - eapply inbox_kept; [exact Ht|exact (ci_own _ _ _ Hci)|exact Hk|set_solver..].
  - rewrite Hh in S5. destruct (storages_in (held (recv_buf i'))) as [|id l]; [reflexivity|]. specialize (S5 id ltac:(constructor)).
    now apply not_elem_of_nil in S5.
  - apply (outgoing_agree _ (mem s') _ _ (slots_in (held (recv_buf i')) ++ slots' ++ tslots ++ rest) _ Hs); [| |apply Hci'].
    + eapply agree_kept; [exact (send_storages _ _ _ _ Hs Hsh)|exact Hk|unfold sent; set_solver].
    + eapply own_perm; [|apply (ci_own _ _ _ Hci')]. fold (sent i). perm.
Qed.

(** A message that others held is now on its way to this end. *)
Lemma end_gets s st offs mine rest xs ts ys i rs bs slots tslots t tl b :
  end_ok s st offs mine ((t :: tl) ++ rest) xs ts ys i rs bs slots tslots ->
  message (mem s) t tl b -> (length tl < fuel)%nat ->
  exists mine', mine' ≡ₚ mine ++ t :: tl /\
    end_ok s st (offs ++ [t.1]) mine' rest xs (ts ++ b) ys i rs bs slots (tslots ++ t :: tl).
Proof.
  intros Hend Hm Hf. pose proof (end_own _ _ _ _ _ _ _ _ _ _ _ _ _ Hend) as [Hown Hok].
  pose proof Hend as [Ei Ho Hq Hr Hb Ht Hh Hs Hsh Ex Em]. rewrite Em in Hown. eexists.
  split; [|constructor; [..|reflexivity]; auto]; [rewrite Em; perm|..].
  - apply (readable_agree (mem s) _ _ _ _ _ Hr); [split; [apply keeps_refl|auto]| |exact Hok].
    eapply own_perm; [|exact Hown]. perm.
  - rewrite fmap_app. now apply inbox_snoc.
  - apply (outgoing_agree _ (mem s) _ _ _ _ Hs); [split; [apply keeps_refl|auto]| |exact Hok].
    eapply own_perm; [|exact Hown]. fold (sent i). perm.
Qed.

(** * Both ends *)

(** A queue between them: where it is, and the offsets in it. *)
Record dir := mkDir { q_base : Z; q_cap : Z; q_head : Z; q_offs : list Z }.
Definition q_tail (q : dir) : Z := q_head q + Z.of_nat (length (q_offs q)).
Definition pushed (q : dir) (o : Z) : dir := mkDir (q_base q) (q_cap q) (q_head q) (q_offs q ++ [o]).
Definition drained (q : dir) : dir := mkDir (q_base q) (q_cap q) (q_tail q) [].

(** A session that sends on [q] and receives from [p]. *)
Record linked (a : arch) (s : SessionShared) (st : Stream) (q p : dir) : Prop := {
  lk_send : can_send s a (q_base q) (q_cap q) (q_head q) (elems_of (id_ st) (q_offs q));
  lk_recv : recv_queue s = queue_at a (q_base p) (q_cap p);
  lk_rep : queue_rep a (q_base p) (q_cap p) (queues s) (q_head p) (elems_of (id_ st) (q_offs p));
  lk_table : table_ok s;
  lk_stream : streams s !! id_ st = Some st;
  lk_id : 0 <= id_ st < 4294967296;
}.

Definition apart (q p : dir) : Prop :=
  q_base q + (24 + 12 * q_cap q) <= q_base p \/ q_base p + (24 + 12 * q_cap p) <= q_base q.

Record joint (a : arch) (c d : SessionShared) (st st' : Stream) (q p : dir) (x y : chan)
    (mc md rest : list slot) : Prop := {
  jt_left : end_has c st (q_offs p) mc (md ++ rest) (arrived y) (transit y) (unsent x);
  jt_right : end_has d st' (q_offs q) md (mc ++ rest) (arrived x) (transit x) (unsent y);
  jt_llink : linked a c st q p;
  jt_rlink : linked a d st' p q;
  jt_mem : shared (mem d) = shared (mem c);
  jt_queues : queues d = queues c;
  jt_id : id_ st' = id_ st;
  jt_apart : apart q p;
}.

(** The two ends of a stream that is open, with [x] going from left to right and
    [y] from right to left. *)
Definition talking (a : arch) (c d : SessionShared) (st st' : Stream) (q p : dir) (x y : chan)
    (rest : list slot) : Prop :=
  exists mc md, joint a c d st st' q p x y mc md rest.

Lemma talking_swap a c d st st' q p x y rest : talking a c d st st' q p x y rest ->
  talking a d c st' st p q y x rest.
Proof.
  intros (mc & md & [Hl Hr Hll Hrl Hm Hq Hi Ha]). exists md, mc. constructor; auto.
  destruct Ha; [right|left]; assumption.
Qed.

(** The other end after this one has worked. *)
Lemma end_synced c' d st offs md rest rest' xs ts ys : end_has d st offs md rest xs ts ys ->
  keeps md (shared (mem d)) (shared (mem c')) -> own (shared (mem c')) (md ++ rest') ->
  end_has (sync d c') st offs md rest' xs ts ys.
Proof.
  intros (i & rs & bs & slots & tslots & Hend) Hk Hown. exists i, rs, bs, slots, tslots.
  pose proof (end_own _ _ _ _ _ _ _ _ _ _ _ _ _ Hend) as [_ Hok].
  apply (end_kept d _ _ _ _ rest); auto. apply Hend.
Qed.

(** The links of the other end: the queues as they are now. *)
Lemma link_synced a c' d st q p q' p' : linked a d st q p ->
  queue_rep a (q_base q') (q_cap q') (queues c') (q_head q') (elems_of (id_ st) (q_offs q')) ->
  queue_rep a (q_base p') (q_cap p') (queues c') (q_head p') (elems_of (id_ st) (q_offs p')) ->
  q_base q' = q_base q -> q_cap q' = q_cap q -> q_base p' = q_base p -> q_cap p' = q_cap p ->
  linked a (sync d c') st q' p'.
Proof.
  intros [[S1 S2 S3 S4] R1 R2 T1 T2 T3] Hq Hp Eb Ec Eb' Ec'. constructor; auto.
  - constructor; auto; [now rewrite Eb, Ec|now rewrite Ec].
  - now rewrite Eb', Ec'.
  - destruct T1 as [T T']. constructor; auto.
Qed.

(** Its own links, where the stream's session was only worked on. *)
Lemma link_fixed a s s' st q p q' p' : linked a s st q p -> fixed s s' -> table_ok s' ->
  streams s' = streams s ->
  queue_rep a (q_base q') (q_cap q') (queues s') (q_head q') (elems_of (id_ st) (q_offs q')) ->
  queue_rep a (q_base p') (q_cap p') (queues s') (q_head p') (elems_of (id_ st) (q_offs p')) ->
  q_base q' = q_base q -> q_cap q' = q_cap q -> q_base p' = q_base p -> q_cap p' = q_cap p ->
  linked a s' st q' p'.
Proof.
  intros [[S1 S2 S3 S4] R1 R2 T1 T2 T3] [F1 F2 F3] Ht Es Hq Hp Eb Ec Eb' Ec'. constructor; auto; try congruence.
  constructor; auto; congruence.
Qed.

(** The table after the object of the stream was changed. *)
Lemma table_changed s s' st i i' : table_ok s -> streams s' = streams s -> streams s !! id_ st = Some st ->
  inner_of s st = Some i -> inner_of s' st = Some i' -> state i' = kStreamOpened ->
  (forall k, k <> inner_ st -> inners s' !! k = inners s !! k) -> table_ok s'.
Proof.
  intros [T1 T2] Es Est Ei Ei' Ho Hk. constructor; rewrite Es; [|exact T2].
  intros id st1 H1. destruct (decide (inner_ st1 = inner_ st)) as [E|E].
  - exists i'. split; [|rewrite Ho; discriminate]. unfold inner_of in *. now rewrite E.
  - destruct (T1 id st1 H1) as (j & Hj & Hs). exists j. split; [|exact Hs]. unfold inner_of in *. now rewrite Hk.
Qed.

Lemma apart_rep a m m' q p st offs : apart q p -> same_outside (q_base q) (24 + 12 * q_cap q) m m' ->
  queue_rep a (q_base p) (q_cap p) m (q_head p) (elems_of st offs) ->
  queue_rep a (q_base p) (q_cap p) m' (q_head p) (elems_of st offs).
Proof.
  intros Ha [Hl Ho] Hr. apply (queue_rep_frame a _ _ m); auto. intros b Hb. apply Ho. unfold apart in Ha. lia.
Qed.

(** The same two queues, with other contents. *)
Definition same_queue (q q' : dir) : Prop := q_base q' = q_base q /\ q_cap q' = q_cap q.
Definition holds_at (a : arch) (m : shm) (id : Z) (q : dir) : Prop :=
  queue_rep a (q_base q) (q_cap q) m (q_head q) (elems_of id (q_offs q)).

(** The left end has worked. *)
Lemma joint_after a c d st st' q p x y mc md rest c' q' p' x' y' mc' md' :
  joint a c d st st' q p x y mc md rest ->
  end_has c' st (q_offs p') mc' (md' ++ rest) (arrived y') (transit y') (unsent x') ->
  end_has (sync d c') st' (q_offs q') md' (mc' ++ rest) (arrived x') (transit x') (unsent y') ->
  fixed c c' -> table_ok c' -> streams c' = streams c ->
  holds_at a (queues c') (id_ st) q' -> holds_at a (queues c') (id_ st) p' ->
  same_queue q q' -> same_queue p p' ->
  talking a c' (sync d c') st st' q' p' x' y' rest.
Proof.
  intros [_ _ Hll Hrl _ _ Hi Ha] Hl Hr Hf Ht Es Hq Hp [E1 E2] [E3 E4]. exists mc', md'. constructor; auto.
  - eapply link_fixed; eauto.
  - eapply link_synced; eauto; rewrite Hi; auto.
  - unfold apart in *. now rewrite E1, E2, E3, E4.
Qed.

Lemma joint_queues a c d st st' q p x y mc md rest : joint a c d st st' q p x y mc md rest ->
  holds_at a (queues c) (id_ st) q /\ holds_at a (queues c) (id_ st) p.
Proof. intros [_ _ [[_ Hq _ _] _ Hp _ _ _] _ _ _ _ _]. now split. Qed.

Lemma bytes_ok bytes : forallb (fun b => (0 <=? b) && (b <? 256)) bytes = true -> byte_list bytes.
Proof.
  intros H. apply Forall_forall. intros b Hb. pose proof (proj1 (forallb_forall _ _) H b (proj1 (list_elem_of_In _ _) Hb)) as Hx.
  cbv beta in Hx. lia.
Qed.

Variable elems : nat.

(** What the left end has to send, and that writing to it keeps the two talking. *)
Lemma left_outgoing a c d st st' q p x y rest : talking a c d st st' q p x y rest ->
  exists i r, inner_of c st = Some i /\ outgoing (mem c) (send_buf i) r (unsent x) /\
    Z.of_nat (length (nodes (slice_list_ (send_buf i)))) < 4294967296 /\
    forall w b zs, writable w b r (unsent x ++ zs) -> leaves (mem c) w (slices (slice_list_ (send_buf i))) r ->
      pinned_list_ b = pinned_list_ (send_buf i) -> is_from_shm_ b = true ->
      let c' := put_inner (set_mem c w) st (set_send i b) in
      talking a c' (sync d c') st st' q p (mkChan (unsent x ++ zs) (transit x) (arrived x)) y rest.
Proof.
  intros (mc & md & Hj). pose proof Hj as [(i & rs & bs & slots & tslots & Hl) Hr Hll _ Hm _ _ _].
  pose proof Hl as [Ei Ho _ _ _ _ _ Hs Hsh _ _]. exists i. eexists. split; [exact Ei|]. split; [exact Hs|].
  split; [exact (send_count _ _ _ _ Hs Hsh)|]. intros w b zs Hw Hlv Ep Hb c'.
  destruct (end_sends _ _ _ _ _ _ _ _ _ _ _ _ _ _ _ _ Hl Hw Hlv Ep Hb) as [mc' Hl']. fold c' in Hl'.
  destruct (joint_queues _ _ _ _ _ _ _ _ _ _ _ _ Hj) as [Hq Hp].
  eapply (joint_after _ _ _ _ _ _ _ _ _ _ _ _ c' q p _ _ mc' md Hj); auto; try now split.
  - do 5 eexists. exact Hl'.
  - eapply end_synced; [exact Hr|rewrite Hm; eapply keeps_incl; [apply Hlv|set_solver]|].
    eapply own_perm; [|exact (proj1 (end_own _ _ _ _ _ _ _ _ _ _ _ _ _ Hl'))]. perm.
  - destruct Hll as [_ _ _ Ht Hst _]. eapply (table_changed c c' st i); [exact Ht|reflexivity|exact Hst|exact Ei|apply inner_of_put|exact Ho|].
    intros k Hne. cbn. now rewrite lookup_insert_ne.
Qed.

Lemma left_write a c d st st' q p x y rest bytes : talking a c d st st' q p x y rest ->
  fits ops fuel (Write bytes) c st = true ->
  exists c', perform ops fuel elems (Write bytes) c st = Some ([], c') /\
    talking a c' (sync d c') st st' q p (mkChan (unsent x ++ bytes) (transit x) (arrived x)) y rest.
Proof.
  intros Ht Hfit. destruct (left_outgoing _ _ _ _ _ _ _ _ _ _ Ht) as (i & r & Ei & Hs & Hcnt & Hthen).
  pose proof Hs as [Hw _ _]. unfold fits in Hfit. rewrite Ei in Hfit.
  apply andb_prop in Hfit as [[Hlen Hby]%andb_prop Hpool]. apply Z.ltb_lt in Hlen.
  unfold LB.len in Hlen. rewrite (wb_len _ _ _ _ Hw) in Hlen.
  destruct (write_bytes_ok (mem c) (send_buf i) _ _ bytes Hw (bytes_ok _ Hby)) as (w & b & E & Hw' & Hlv & _ & Ep); [lia..|].
  unfold perform, StreamOps.write_bytes in *. rewrite Ei in *. cbn [mbind option_bind] in *. rewrite E in *.
  cbn [mbind option_bind] in *. rewrite inner_of_put in Hpool. cbn in Hpool.
  eexists. split; [reflexivity|]. now apply Hthen.
Qed.

(** What the left end can read, and that working on it keeps the two talking. *)
Lemma left_incoming a c d st st' q p x y rest : talking a c d st st' q p x y rest ->
  exists i r rs slots bs, incoming fuel c st i r (arrived y) rs slots [] bs /\
    has_fallback (pending_data i) = false /\ state i = kStreamOpened /\
    forall c' i' xs' rs' slots' bs', incoming fuel c' st i' r xs' rs' slots' [] bs' -> still c c' st i i' r ->
      talking a c' (sync d c') st st' q p x (mkChan (unsent y) (transit y) xs') rest.
Proof.
  intros (mc & md & Hj). pose proof Hj as [(i & rs & bs & slots & tslots & Hl) Hr Hll _ Hm _ _ _].
  destruct (end_incoming _ _ _ _ _ _ _ _ _ _ _ _ _ Hl) as [Hin Hnf].
  exists i, (tslots ++ sent i ++ md ++ rest), rs, slots, bs. split; [exact Hin|]. split; [exact Hnf|]. split; [apply Hl|].
  intros c' i' xs' rs' slots' bs' Hin' Hst. pose proof Hst as [[F1 F2 F3 _ _ F4] _ S3 _ _ _].
  destruct (end_still _ _ _ _ _ _ _ _ _ _ _ _ _ _ _ _ _ _ _ Hl Hin' Hst) as (Hk & mc' & Hl').
  destruct (joint_queues _ _ _ _ _ _ _ _ _ _ _ _ Hj) as [Hq Hp].
  eapply (joint_after _ _ _ _ _ _ _ _ _ _ _ _ c' q p _ _ mc' md Hj); auto; try (now split); try now rewrite F3.
  - do 5 eexists. exact Hl'.
  - eapply end_synced; [exact Hr|rewrite Hm; eapply keeps_incl; [exact Hk|set_solver]|].
    eapply own_perm; [|exact (proj1 (end_own _ _ _ _ _ _ _ _ _ _ _ _ _ Hl'))]. perm.
  - destruct Hll as [_ _ _ Ht Hs _]. eapply (table_changed c c' st i); eauto; [apply Hl|apply Hl'..].
Qed.

Lemma left_read a c d st st' q p x y rest n : talking a c d st st' q p x y rest ->
  0 <= n <= Z.of_nat (length (arrived y)) ->
  exists c', perform ops fuel elems (Read n) c st = Some (take (Z.to_nat n) (arrived y), c') /\
    talking a c' (sync d c') st st' q p x (mkChan (unsent y) (transit y) (drop (Z.to_nat n) (arrived y))) rest.
Proof.
  intros Ht Hn. destruct (left_incoming _ _ _ _ _ _ _ _ _ _ Ht) as (i & r & rs & slots & bs & Hin & Hnf & _ & Hthen).
  destruct (read_now fuel c st i r _ rs slots bs n Hin Hnf Hn) as (buf & c' & i' & rs' & slots' & bs' & E & (Eb & _) & Hin' & Hs).
  exists c'. unfold perform. rewrite E. cbn [mbind option_bind]. rewrite Eb. split; [reflexivity|eauto].
Qed.

Lemma left_peek a c d st st' q p x y rest n : talking a c d st st' q p x y rest ->
  0 <= n <= Z.of_nat (length (arrived y)) ->
  exists c', perform ops fuel elems (Peek n) c st = Some (take (Z.to_nat n) (arrived y), c') /\
    talking a c' (sync d c') st st' q p x y rest.
Proof.
  intros Ht Hn. destruct (left_incoming _ _ _ _ _ _ _ _ _ _ Ht) as (i & r & rs & slots & bs & Hin & Hnf & _ & Hthen).
  destruct (peek_now fuel c st i r _ rs slots bs n Hin Hnf Hn) as (buf & c' & i' & rs' & slots' & bs' & E & (Eb & _) & Hin' & Hs).
  exists c'. unfold perform. rewrite E. cbn [mbind option_bind]. rewrite Eb. split; [reflexivity|].
  destruct y. eauto.
Qed.

Lemma left_discard a c d st st' q p x y rest n : talking a c d st st' q p x y rest ->
  0 <= n <= Z.of_nat (length (arrived y)) ->
  exists c', StreamOps.discard ops fuel [] c st n = Some (Ok n, c') /\
    talking a c' (sync d c') st st' q p x (mkChan (unsent y) (transit y) (drop (Z.to_nat n) (arrived y))) rest.
Proof.
  intros Ht Hn. destruct (left_incoming _ _ _ _ _ _ _ _ _ _ Ht) as (i & r & rs & slots & bs & Hin & Hnf & _ & Hthen).
  destruct (discard_now fuel c st i r _ rs slots bs n Hin Hnf Hn) as (c' & i' & rs' & slots' & bs' & E & Hin' & Hs).
  exists c'. split; [exact E|eauto].
Qed.

Lemma left_release a c d st st' q p x y rest : talking a c d st st' q p x y rest ->
  exists c', perform ops fuel elems Release c st = Some ([], c') /\
    talking a c' (sync d c') st st' q p x y rest.
Proof.
  intros Ht. destruct (left_incoming _ _ _ _ _ _ _ _ _ _ Ht) as (i & r & rs & slots & bs & Hin & _ & _ & Hthen).
  pose proof Hin as [Ei Hr _ _ _ _ _].
  destruct (release_previous_read_ok _ _ _ _ Hr) as (w' & b' & E & Hr' & _ & Hs & _).
  eexists. unfold perform. rewrite Ei. cbn [mbind option_bind]. rewrite E. split; [reflexivity|].
  destruct y. eapply Hthen; [|eapply shrinks_still, Hs].
  change arrived0 with (drop 0 arrived0). eapply incoming_shrinks; eauto; lia.
Qed.

Lemma left_polls a c d st st' q p x y rest : talking a c d st st' q p x y rest ->
  (length (q_offs p) <= elems)%nat ->
  exists c', handle_polling ops fuel elems [] c = Some (mkHandler kHeaderSize kHeaderSize false None, c') /\
    talking a c' (sync d c') st st' q (drained p) x (mkChan (unsent y) [] (arrived y ++ transit y)) rest.
Proof.
  intros (mc & md & Hj) Hn. pose proof Hj as [(i & rs & bs & slots & tslots & Hl) Hr Hll _ Hm _ _ Ha].
  destruct (joint_queues _ _ _ _ _ _ _ _ _ _ _ _ Hj) as [Hq Hp].
  destruct (poll_end _ _ _ _ _ _ _ _ _ _ _ _ _ a _ _ _ elems Hl (lk_recv _ _ _ _ _ Hll) (lk_rep _ _ _ _ _ Hll) Hn
    (lk_table _ _ _ _ _ Hll) (lk_stream _ _ _ _ _ Hll)) as (c' & E & Hl' & Em & Hrep & Hout & Hf & Es & Ht).
  exists c'. split; [exact E|].
  eapply (joint_after _ _ _ _ _ _ _ _ _ _ _ _ c' q (drained p) _ _ mc md Hj); auto; try now split.
  - do 5 eexists. exact Hl'.
  - eapply end_synced; [exact Hr|rewrite Hm, Em; apply keeps_refl|]. rewrite Em.
    eapply own_perm; [|exact (proj1 (end_own _ _ _ _ _ _ _ _ _ _ _ _ _ Hl))]. perm.
  - apply (apart_rep a (queues c) (queues c') p q); auto. destruct Ha; [right|left]; assumption.
Qed.

Lemma sync_sync (c d e : SessionShared) : sync (sync d c) e = sync d e.
Proof. reflexivity. Qed.
Lemma sync_same (c d : SessionShared) : shared (mem d) = shared (mem c) -> queues d = queues c -> sync d c = d.
Proof.
  intros Em Eq. unfold sync. rewrite <- Em, <- Eq. destruct d as [? w]; cbn. now destruct w.
Qed.

Lemma left_flush_none a c d st st' q p x y rest : talking a c d st st' q p x y rest -> unsent x = [] ->
  perform ops fuel elems Flush c st = Some ([], c) /\ sync d c = d.
Proof.
  intros (mc & md & [(i & rs & bs & slots & tslots & Hl) _ _ _ Hm Hq _ _]) Ex. split; [|now apply sync_same].
  unfold perform, StreamOps.flush. rewrite (eo_inner _ _ _ _ _ _ _ _ _ _ _ _ _ Hl). cbn [mbind option_bind].
  rewrite (outgoing_len _ _ _ _ (eo_send _ _ _ _ _ _ _ _ _ _ _ _ _ Hl)), Ex. reflexivity.
Qed.

Lemma left_flush a c d st st' q p x y rest during : talking a c d st st' q p x y rest -> unsent x <> [] ->
  fits ops fuel Flush c st = true -> q_tail q + 1 < 9223372036854775808 ->
  Z.of_nat (length (q_offs q)) < q_cap q ->
  exists c' o, StreamOps.flush ops during c st = Some (Ok tt, c') /\
    talking a c' (sync d c') st st' (pushed q o) p (mkChan [] (transit x ++ unsent x) (arrived x)) y rest.
Proof.
  intros (mc & md & Hj) Hne Hfit Hbig Hroom. pose proof Hj as [(i & rs & bs & slots & tslots & Hl) Hr Hll _ Hm _ _ Ha].
  unfold fits in Hfit. rewrite (eo_inner _ _ _ _ _ _ _ _ _ _ _ _ _ Hl) in Hfit. apply Nat.leb_le in Hfit.
  destruct (joint_queues _ _ _ _ _ _ _ _ _ _ _ _ Hj) as [Hq Hp].
  destruct (flush_end _ _ _ _ _ _ _ _ _ _ _ _ _ a _ _ _ _ during Hl Hne (lk_send _ _ _ _ _ Hll)
    (lk_id _ _ _ _ _ Hll) Hroom Hbig) as (c' & i' & t & tl & mc' & E & Hl' & Hmsg & Hlen & Hk & Hcs & Hout & Hf & Es & Hoth & Est).
  exists c', t.1. split; [exact E|].
  pose proof (end_own _ _ _ _ _ _ _ _ _ _ _ _ _ Hl') as [Hown Hok].
  assert (end_has (sync d c') st' (q_offs q) md ((t :: tl) ++ mc' ++ rest) (arrived x) (transit x) (unsent y)) as Hr1.
  { eapply end_synced; [exact Hr|rewrite Hm; eapply keeps_incl; [exact Hk|set_solver]|].
    eapply own_perm; [|exact Hown]. perm. }
  destruct Hr1 as (j & rs1 & bs1 & slots1 & tslots1 & Hr1).
  destruct (end_gets _ _ _ _ _ _ _ _ _ _ _ _ _ t tl (unsent x) Hr1) as (md' & Hmd & Hr2); [|lia|].
  { eapply message_keeps; [exact Hmsg|apply keeps_refl|]. intros u Hu. apply (own_slot _ _ u Hown). set_solver. }
  eapply (joint_after _ _ _ _ _ _ _ _ _ _ _ _ c' (pushed q t.1) p _ _ mc' md' Hj); auto; try now split.
  - exists i', rs, bs, slots, tslots. eapply end_kept; [exact Hl'|apply keeps_refl| |exact Hok|apply Hl'].
    eapply own_perm; [|exact Hown]. rewrite Hmd. perm.
  - do 5 eexists. exact Hr2.
  - destruct Hll as [_ _ _ Ht Hs _]. eapply (table_changed c c' st i i'); eauto; [apply Hl|apply Hl'..].
  - apply (cs_rep _ _ _ _ _ _ Hcs).
  - eapply apart_rep; eauto.
Qed.

(** A flush that finds the queue full fails, a read of too much would wait. *)
Lemma left_flush_full a c d st st' q p x y rest : talking a c d st st' q p x y rest -> unsent x <> [] ->
  q_cap q <= Z.of_nat (length (q_offs q)) -> perform ops fuel elems Flush c st = None.
Proof.
  intros (mc & md & Hj) Hne Hfull. pose proof Hj as [(i & rs & bs & slots & tslots & Hl) _ Hll _ _ _ _ _].
  pose proof Hl as [Ei Ho Hq Hr Hb Ht Hh Hs Hsh Ex Em]. unfold perform.
  destruct (flush_full c st i _ _ a _ _ _ _ (fun _ s => s) Ei Hs Hne Hsh Ho Hq (lk_send _ _ _ _ _ Hll))
    as (s' & -> & _); [unfold elems_of; now rewrite length_fmap|intros _ s; repeat split|reflexivity].
Qed.

Lemma left_waits a c d st st' q p x y rest n : talking a c d st st' q p x y rest ->
  Z.of_nat (length (arrived y)) < n -> StreamOps.ensure ops fuel [] c st n = None.
Proof.
  intros Ht Hn. destruct (left_incoming _ _ _ _ _ _ _ _ _ _ Ht) as (i & r & rs & slots & bs & Hin & _ & Ho & _).
  destruct (move_pending_ok fuel _ _ _ _ _ _ _ _ _ Hin) as (s2 & i2 & Emv & [Ei2 Hr2 Hp2 Hst _ _ _ _ _ _ _] & _).
  pose proof (in_bytes _ _ _ _ _ _ _ _ _ _ Hin) as Ex. apply (f_equal length) in Ex. rewrite length_app in Ex.
  pose proof (proj2 (in_recv _ _ _ _ _ _ _ _ _ _ Hin)) as Hlen.
  unfold StreamOps.ensure. rewrite (in_inner _ _ _ _ _ _ _ _ _ _ Hin).
  cbn [mbind option_bind]. unfold LB.len. rewrite Hlen.
  assert ((Z.of_nat (length rs) <? n) = true) as -> by lia.
  unfold StreamOps.read_more. rewrite Emv. cbn [mbind option_bind]. rewrite Ei2. cbn [mbind option_bind].
  unfold LB.len. rewrite (proj2 Hr2). assert ((n <=? Z.of_nat (length (arrived y))) = false) as -> by lia.
  rewrite Hst, Ho. cbn [negb Z.eqb]. rewrite andb_false_r.
  cbn [StreamOps.read_wait]. rewrite Ei2. cbn [mbind option_bind]. rewrite Hp2, Hst, Ho. reflexivity.
Qed.

(** What can be done now: a flush that has something to send needs room, a read
    needs the bytes. *)
Definition enabled (b : act) (q : dir) (x y : chan) : Prop :=
  match b with
  | Flush => unsent x = [] \/ Z.of_nat (length (q_offs q)) < q_cap q
  | Read n | Peek n | Discard n => n <= Z.of_nat (length (arrived y))
  | _ => True
  end.

Lemma offs_bound a c d st st' q p x y rest : talking a c d st st' q p x y rest ->
  Z.of_nat (length (q_offs p)) <= q_cap p.
Proof.
  intros (mc & md & [_ _ [_ _ Hp _ _ _] _ _ _ _ _]). pose proof (rep_bounded _ _ _ _ _ _ Hp) as Hb.
  unfold elems_of in Hb. now rewrite length_fmap in Hb.
Qed.

Lemma left_can a c d st st' q p x y rest b : talking a c d st st' q p x y rest ->
  fits ops fuel b c st = true -> enabled b q x y ->
  q_tail q + 1 < 9223372036854775808 -> q_cap p <= Z.of_nat elems ->
  exists c' q' p' x' y' out, perform ops fuel elems b c st = Some (out, c') /\
    promise b x y = (out, x', y') /\ talking a c' (sync d c') st st' q' p' x' y' rest /\
    same_queue q q' /\ same_queue p p' /\ q_tail q' <= q_tail q + 1 /\ q_tail p' = q_tail p.
Proof.
  intros Ht Hf He Hbig Hel. pose proof (offs_bound _ _ _ _ _ _ _ _ _ _ Ht) as Hoff.
  assert (forall n, b = Read n \/ b = Peek n \/ b = Discard n -> 0 <= n) as Hpos.
  { unfold fits in Hf. destruct (inner_of c st); [|discriminate]. intros n [->|[->| ->]]; lia. }
  destruct b as [bytes| | |n|n|n|].
  - destruct (left_write _ _ _ _ _ _ _ _ _ _ _ Ht Hf) as (c' & E & Ht').
    exists c', q, p. do 3 eexists. split; [exact E|]. split; [reflexivity|]. split; [exact Ht'|].
    repeat split; lia.
  - destruct (decide (unsent x = [])) as [Eu|Hne].
    + destruct (left_flush_none _ _ _ _ _ _ _ _ _ _ Ht Eu) as [E Es]. exists c, q, p. do 3 eexists.
      split; [exact E|]. split; [reflexivity|]. rewrite Es, Eu, app_nil_r. split; [|repeat split; lia].
      destruct x. cbn in *. now subst.
    + destruct He as [He|Hroom]; [contradiction|].
      destruct (left_flush _ _ _ _ _ _ _ _ _ _ (fun _ s => s) Ht Hne Hf Hbig Hroom) as (c' & o & E & Ht').
      exists c', (pushed q o), p. do 3 eexists. unfold perform. rewrite E. split; [reflexivity|]. split; [reflexivity|]. split; [exact Ht'|].
      repeat split. unfold q_tail, pushed. cbn. rewrite length_app. cbn. lia.
  - destruct (left_polls _ _ _ _ _ _ _ _ _ _ Ht) as (c' & E & Ht'); [lia|].
    exists c', q, (drained p). do 3 eexists. unfold perform. rewrite E. split; [reflexivity|]. split; [reflexivity|]. split; [exact Ht'|].
    repeat split; [lia|]. unfold drained. unfold q_tail at 1. cbn. lia.
  - specialize (Hpos n ltac:(auto)).
    destruct (left_read _ _ _ _ _ _ _ _ _ _ n Ht ltac:(cbn in He; lia)) as (c' & E & Ht').
    exists c', q, p. do 3 eexists. split; [exact E|]. split; [reflexivity|]. split; [exact Ht'|]. repeat split; lia.
  - specialize (Hpos n ltac:(auto)).
    destruct (left_peek _ _ _ _ _ _ _ _ _ _ n Ht ltac:(cbn in He; lia)) as (c' & E & Ht').
    exists c', q, p. do 3 eexists. split; [exact E|]. split; [reflexivity|]. split; [exact Ht'|]. repeat split; lia.
  - specialize (Hpos n ltac:(auto)).
    destruct (left_discard _ _ _ _ _ _ _ _ _ _ n Ht ltac:(cbn in He; lia)) as (c' & E & Ht').
    exists c', q, p. do 3 eexists. unfold perform. rewrite E. split; [reflexivity|].
    split; [reflexivity|]. split; [exact Ht'|]. repeat split; lia.
  - destruct (left_release _ _ _ _ _ _ _ _ _ _ Ht) as (c' & E & Ht').
    exists c', q, p. do 3 eexists. split; [exact E|]. split; [reflexivity|]. split; [exact Ht'|]. repeat split; lia.
Qed.

(** A call that returns was enabled. *)
Lemma left_enabled a c d st st' q p x y rest b r : talking a c d st st' q p x y rest ->
  perform ops fuel elems b c st = Some r -> enabled b q x y.
Proof.
  intros Ht E. assert (forall n, Z.of_nat (length (arrived y)) < n -> b = Read n \/ b = Peek n \/ b = Discard n ->
    perform ops fuel elems b c st = None) as Hwait.
  { intros n Hn H. pose proof (left_waits _ _ _ _ _ _ _ _ _ _ _ Ht Hn) as Ew.
    destruct H as [->|[->| ->]]; unfold perform, StreamOps.read_bytes, StreamOps.peek, StreamOps.discard; now rewrite Ew. }
  destruct b as [bytes| | |n|n|n|]; cbn [enabled]; auto.
  2-4: destruct (Z.le_gt_cases n (Z.of_nat (length (arrived y)))) as [|Hn]; [assumption|];
    rewrite (Hwait n) in E by (auto; lia); discriminate.
  destruct (decide (unsent x = [])) as [|Hne]; [now left|right].
  destruct (Z.lt_ge_cases (Z.of_nat (length (q_offs q))) (q_cap q)) as [|Hfull]; [assumption|].
  rewrite (left_flush_full _ _ _ _ _ _ _ _ _ _ Ht Hne Hfull) in E. discriminate.
Qed.

(** One turn, of either end. *)
Lemma turn_ok (mine : bool) b a e st st' q p x y rest : talking a e.1 e.2 st st' q p x y rest ->
  fits ops fuel b (if mine then e.1 else e.2) (if mine then st else st') = true ->
  (if mine then enabled b q x y else enabled b p y x) ->
  q_tail q + 1 < 9223372036854775808 -> q_tail p + 1 < 9223372036854775808 ->
  q_cap q <= Z.of_nat elems -> q_cap p <= Z.of_nat elems ->
  exists out e' q' p' x' y', turn ops fuel elems mine b e st st' = Some (out, e') /\
    promised [(mine, b)] x y = ([out], x', y') /\ talking a e'.1 e'.2 st st' q' p' x' y' rest /\
    same_queue q q' /\ same_queue p p' /\ q_tail q' <= q_tail q + 1 /\ q_tail p' <= q_tail p + 1.
Proof.
  intros Ht Hf He Hq Hp Hcq Hcp. unfold turn. destruct mine.
  - destruct (left_can _ _ _ _ _ _ _ _ _ _ _ Ht Hf He Hq Hcp)
      as (c' & q' & p' & x' & y' & out & E & Epr & Ht' & S1 & S2 & T1 & T2).
    rewrite Hf, E. exists out, (c', sync e.2 c'), q', p', x', y'. cbn [promised]. rewrite Epr.
    split; [reflexivity|]. split; [reflexivity|]. split; [exact Ht'|]. split; [exact S1|]. split; [exact S2|]. lia.
  - apply talking_swap in Ht. destruct (left_can _ _ _ _ _ _ _ _ _ _ _ Ht Hf He Hp Hcq)
      as (d' & p' & q' & y' & x' & out & E & Epr & Ht' & S1 & S2 & T1 & T2). apply talking_swap in Ht'.
    rewrite Hf, E. exists out, (sync e.1 d', d'), q', p', x', y'. cbn [promised]. rewrite Epr.
    split; [reflexivity|]. split; [reflexivity|]. split; [exact Ht'|]. split; [exact S2|]. split; [exact S1|]. lia.
Qed.

(** What one turn does to the bytes in the two directions; [more] is written
    later. *)
Lemma promise_serve b q x y out x' y' more : enabled b q x y -> promise b x y = (out, x', y') ->
  stock x ++ gave b = stock x' /\ serve b out (stock y ++ more) = Some (stock y' ++ more).
Proof.
  intros He E. unfold stock. rewrite <- !app_assoc.
  destruct b as [bytes| | |n|n|n|]; cbn [enabled promise gave serve] in *; injection E as <- <- <-;
    cbn [arrived transit unsent]; rewrite ?app_nil_r, <- ?app_assoc; split; auto.
  all: rewrite ?take_app_le, ?drop_app_le by lia; now rewrite ?bool_decide_true.
Qed.

Lemma converse_ok a st st' rest l : forall c d q p x y outs e, talking a c d st st' q p x y rest ->
  q_cap q <= Z.of_nat elems -> q_cap p <= Z.of_nat elems ->
  q_tail q + Z.of_nat (length l) + 1 < 9223372036854775808 ->
  q_tail p + Z.of_nat (length l) + 1 < 9223372036854775808 ->
  converse ops fuel elems l (c, d) st st' = Some (outs, e) ->
  exists q' p' x' y', promised l x y = (outs, x', y') /\ talking a e.1 e.2 st st' q' p' x' y' rest /\
    serves false l outs (stock x ++ written true l) = Some (stock x') /\
    serves true l outs (stock y ++ written false l) = Some (stock y') /\
    same_queue q q' /\ same_queue p p' /\ q_tail q' + 1 < 9223372036854775808 /\
    q_tail p' + 1 < 9223372036854775808.
Proof.
  induction l as [|[mine b] l IH]; intros c d q p x y outs e Ht Hcq Hcp Hq Hp E.
  { injection E as <- <-. exists q, p, x, y. cbn in Hq, Hp |- *. rewrite !app_nil_r. repeat split; auto; lia. }
  cbn [converse length] in *. destruct (turn ops fuel elems mine b (c, d) st st') as [[out e1]|] eqn:E1; [|discriminate E].
  cbn [mbind option_bind] in E. destruct (converse ops fuel elems l e1 st st') as [[outs1 e2]|] eqn:E2; [|discriminate E].
  injection E as <- <-.
  assert (if mine then enabled b q x y else enabled b p y x) as He.
  { unfold turn in E1. destruct mine; cbn in E1; destruct (fits _ _ _ _ _); try discriminate E1.
    - destruct (perform ops fuel elems b c st) eqn:Eb; [|discriminate E1]. eapply left_enabled; eauto.
    - destruct (perform ops fuel elems b d st') eqn:Eb; [|discriminate E1]. eapply left_enabled; [apply talking_swap|]; eauto. }
  destruct (turn_ok mine b a (c, d) st st' q p x y rest Ht) as
    (out' & e1' & q1 & p1 & x1 & y1 & E1' & Epr & Ht1 & [S1 S1'] & [S2 S2'] & T1 & T2); auto; try lia.
  { unfold turn in E1. destruct mine; cbn in E1 |- *; destruct (fits _ _ _ _ _); [reflexivity|discriminate|reflexivity|discriminate]. }
  rewrite E1 in E1'. injection E1' as <- <-. destruct e1 as [c1 d1].
  destruct (IH c1 d1 q1 p1 x1 y1 outs1 e2 Ht1) as
    (q' & p' & x' & y' & Epr' & Ht' & Hx & Hy & [S3 S3'] & [S4 S4'] & T3 & T4); auto; try lia; try congruence.
  exists q', p', x', y'. cbn [promised serves written] in *.
  destruct mine; cbn [Bool.eqb app mbind option_bind].
  - destruct (promise b x y) as [[o u] v] eqn:Eb. injection Epr as -> -> ->. rewrite Epr'.
    destruct (promise_serve b q x y out x1 y1 (written false l) He Eb) as [Ex ->].
    rewrite app_assoc, Ex. cbn [mbind option_bind]. repeat split; auto; try congruence; lia.
  - destruct (promise b y x) as [[o u] v] eqn:Eb. injection Epr as -> -> ->. rewrite Epr'.
    destruct (promise_serve b p y x out y1 x1 (written true l) He Eb) as [Ey ->].
    rewrite (app_assoc (stock y)), Ey. cbn [mbind option_bind]. repeat split; auto; try congruence; lia.
Qed.

(** A stream both ends of which have just been opened. *)
Record opened (a : arch) (c d : SessionShared) (st st' : Stream) (q p : dir) (rest : list slot) : Prop := {
  op_left : inner_of c st = Some new_inner;
  op_right : inner_of d st' = Some new_inner;
  op_own : own (shared (mem c)) rest;
  op_heap : heap_ok (mem c) /\ heap_ok (mem d);
  op_llink : linked a c st q p;
  op_rlink : linked a d st' p q;
  op_mem : shared (mem d) = shared (mem c);
  op_queues : queues d = queues c;
  op_id : id_ st' = id_ st;
  op_apart : apart q p;
  op_empty : q_offs q = [] /\ q_offs p = [];
}.

Definition nothing : chan := mkChan [] [] [].

Lemma end_new s st rest : inner_of s st = Some new_inner -> own (shared (mem s)) rest -> heap_ok (mem s) ->
  end_has s st [] [] rest [] [] [].
Proof.
  intros Ei Ho Hh. exists new_inner, [], [], [], [].
  assert (outgoing (mem s) LB.make rest []) as Hg by (apply outgoing_empty; auto using slist_empty_ok).
  constructor; auto; [now apply outgoing_readable|constructor..].
Qed.

Lemma opened_talking a c d st st' q p rest : opened a c d st st' q p rest ->
  talking a c d st st' q p nothing nothing rest.
Proof.
  intros [E1 E2 Ho [H1 H2] L1 L2 Em Eq Ei Ha [N1 N2]]. exists [], []. constructor; auto.
  - rewrite N2. now apply end_new.
  - rewrite N1. apply end_new; auto. now rewrite Em.
Qed.

End ends.

(** C1: a stream is a pair of byte channels.  From a stream that both processes
    have just opened, let the two ends write, flush, poll, read, peek, discard
    and release what they read, in any order, each call through the library's
    own code.  What every call returns is what two channels of bytes would
    return.  Of all bytes one end writes, the other gets the next ones at every
    read, and those it has not passed are the ones readable, on their way or not
    flushed yet: nothing is lost, doubled, reordered or invented, in either
    direction.  And no end is ever stuck: a write that finds room in the pool, a
    poll, a release, a read of bytes that have arrived and a flush while the
    queue has room go through. *)
Theorem stream_is_duplex {ops : PoolOps} `{!Pool ops} (fuel elems : nat) a c d st st' q p rest l outs e :
  opened a c d st st' q p rest ->
  q_cap q <= Z.of_nat elems -> q_cap p <= Z.of_nat elems ->
  q_tail q + Z.of_nat (length l) + 1 < 9223372036854775808 ->
  q_tail p + Z.of_nat (length l) + 1 < 9223372036854775808 ->
  converse ops fuel elems l (c, d) st st' = Some (outs, e) ->
  exists q' p' x y, promised l nothing nothing = (outs, x, y) /\
    serves false l outs (written true l) = Some (stock x) /\
    serves true l outs (written false l) = Some (stock y) /\
    talking fuel a e.1 e.2 st st' q' p' x y rest /\
    forall (mine : bool) b, (if mine then enabled b q' x y else enabled b p' y x) ->
      fits ops fuel b (if mine then e.1 else e.2) (if mine then st else st') = true ->
      is_Some (turn ops fuel elems mine b e st st').
Proof.
  intros Ho%(opened_talking fuel) Hcq Hcp Hq Hp E.
  destruct (converse_ok fuel elems a st st' rest l c d q p nothing nothing outs e Ho Hcq Hcp Hq Hp E)
    as (q' & p' & x & y & Epr & Ht & Hx & Hy & [_ Sq] & [_ Sp] & Tq & Tp).
  exists q', p', x, y. split; [exact Epr|]. split; [exact Hx|]. split; [exact Hy|]. split; [exact Ht|].
  intros mine b He Hf. destruct (turn_ok fuel elems mine b a e st st' q' p' x y rest Ht Hf He Tq Tp) as
    (out & e' & _ & _ & _ & _ & -> & _); [congruence..|eauto].
Qed.

(** * A conversation *)

(** Two queues of four elements in one mapping. *)
Definition demo_queues : option shm :=
  '(_, m) ← create_from_bytes x86_64 (zero_shm 144) 0 4;
  '(_, m) ← create_from_bytes x86_64 m 72 4;
  Some m.

(** The session of each process, with one new stream. *)
Definition demo_end (client : bool) (m qs : shm) : SessionShared :=
  let q := queue_at x86_64 0 4 in
  let p := queue_at x86_64 72 4 in
  mkShared 1 (Memory m ∅ 0) qs (if client then p else q) (if client then q else p) 3 [] 4
    {[ 1 := demo_stream ]} client 0 0 None [] false [] None no_stats {[ 0%nat := new_inner ]} 1 false.

(** The client asks, the server answers in two messages, and asks back. *)
Definition demo_words : list (bool * act) :=
  [(true, Write [1; 2; 3]); (true, Write [4]); (true, Flush); (false, Poll); (false, Peek 3); (false, Read 2);
   (false, Write [9; 8; 7; 6; 5; 4; 3; 2; 1; 0]); (false, Flush); (false, Write [11]); (true, Poll);
   (true, Read 3); (false, Flush); (true, Poll); (true, Discard 7); (true, Release); (true, Read 1); (false, Read 2)].
Definition demo_answers : list (list Z) :=
  [[]; []; []; []; [1; 2; 3]; [1; 2]; []; []; []; []; [9; 8; 7]; []; []; []; []; [11]; [3; 4]].

Definition demo_talk (qs : option shm) (pool : option (result BufferManager * shm))
    : option (list (list Z)) :=
  match qs, pool with
  | Some qs, Some (Ok bm, m) =>
      fst <$> converse (manager_ops bm) 8 4 demo_words (demo_end true m qs, demo_end false m qs)
                demo_stream demo_stream
  | _, _ => None
  end.
Lemma demo_talks : demo_talk demo_queues (Manager.create (zero_shm 300) demo_sizes "a" 0) = Some demo_answers.
Proof. now vm_compute. Qed.

Lemma demo_queues_rep : exists qs, demo_queues = Some qs /\
  queue_rep x86_64 0 4 qs 0 [] /\ queue_rep x86_64 72 4 qs 0 [].
Proof.
  destruct (create_from_bytes_rep x86_64 0 4 (zero_shm 144)) as (m1 & E1 & H1 & [L1 _] & _);
    [unfold queue_fits; cbn; lia|].
  destruct (create_from_bytes_rep x86_64 72 4 m1) as (m2 & E2 & H2 & [L2 O2] & _);
    [unfold queue_fits; rewrite <- L1; cbn; lia|].
  exists m2. unfold demo_queues. rewrite E1. cbn [mbind option_bind]. rewrite E2. split; [reflexivity|].
  split; [|exact H2]. apply (queue_rep_frame x86_64 0 4 m1); auto. intros b Hb. apply O2. lia.
Qed.

Lemma demo_linked (client : bool) m qs q p : q_cap q = 4 -> q_cap p = 4 ->
  q_base q = (if client then 72 else 0) -> q_base p = (if client then 0 else 72) ->
  q_offs q = [] -> q_offs p = [] -> q_head q = 0 -> q_head p = 0 ->
  queue_rep x86_64 0 4 qs 0 [] -> queue_rep x86_64 72 4 qs 0 [] ->
  linked x86_64 (demo_end client m qs) demo_stream q p.
Proof.
  intros C1 C2 B1 B2 O1 O2 H1 H2 R1 R2. constructor; cbn; rewrite ?C1, ?C2, ?B1, ?B2, ?O1, ?O2, ?H1, ?H2; try lia.
  - constructor; cbn; [now destruct client|now destruct client|lia|unfold kMaxSupportProtoVersion; lia].
  - now destruct client.
  - now destruct client.
  - constructor; cbn.
    + intros id st [_ <-]%lookup_singleton_Some. exists new_inner. split; [reflexivity|discriminate].
    + intros id id' st st' [<- _]%lookup_singleton_Some [<- _]%lookup_singleton_Some _. reflexivity.
  - reflexivity.
Qed.

Lemma opened_over len pairs : pairs_ok (shm_len (zero_shm len)) 0 pairs ->
  exists bm m qs, demo_queues = Some qs /\ Manager.create (zero_shm len) pairs "a" 0 = Some (Ok bm, m) /\
  opened (ops := manager_ops bm) x86_64 (demo_end true m qs) (demo_end false m qs) demo_stream demo_stream
    (mkDir 72 4 0 []) (mkDir 0 4 0 []) [].
Proof.
  intros Hp. destruct (fresh_pool len pairs Hp) as (bm & m & Ec & Ho). destruct demo_queues_rep as (qs & Eq & R1 & R2).
  assert (heap_ok (Memory m ∅ 0)) as Hh by (intros id; cbn; rewrite lookup_empty; now intros []).
  exists bm, m, qs. split; [exact Eq|]. split; [exact Ec|].
  constructor; auto; [now apply demo_linked..|right; cbn; lia].
Qed.

Lemma demo_converses : exists bm m qs e,
  opened (ops := manager_ops bm) x86_64 (demo_end true m qs) (demo_end false m qs) demo_stream demo_stream
    (mkDir 72 4 0 []) (mkDir 0 4 0 []) [] /\
  converse (manager_ops bm) 8 4 demo_words (demo_end true m qs, demo_end false m qs) demo_stream demo_stream =
    Some (demo_answers, e).
Proof.
  destruct (opened_over 300 demo_sizes demo_pairs) as (bm & m & qs & Eq & Ec & Ho). exists bm, m, qs.
  pose proof demo_talks as Et. rewrite Eq, Ec in Et. cbn [demo_talk] in Et.
  apply fmap_Some in Et as ([outs e] & E & ->). exists e. split; [exact Ho|exact E].
Qed.

Lemma stream_is_duplex_witness : exists bm e q p x y, let ops := manager_ops bm in
  serves false demo_words demo_answers [1; 2; 3; 4] = Some (stock x) /\
  serves true demo_words demo_answers [9; 8; 7; 6; 5; 4; 3; 2; 1; 0; 11] = Some (stock y) /\
  talking (ops := ops) 8 x86_64 e.1 e.2 demo_stream demo_stream q p x y [] /\
  is_Some (turn ops 8 4 true Poll e demo_stream demo_stream).
Proof.
  destruct demo_converses as (bm & m & qs & e & Ho & E).
  assert (Hc : 4 <= Z.of_nat 4) by lia.
  assert (Hb : forall q, q_head q = 0 -> q_offs q = [] -> q_tail q + Z.of_nat (length demo_words) + 1 < 9223372036854775808)
    by (intros q E1 E2; unfold q_tail; rewrite E1, E2; cbn; lia).
  destruct (stream_is_duplex (ops := manager_ops bm) 8 4 x86_64 _ _ _ _ _ _ _ _ _ _ Ho Hc Hc
    (Hb (mkDir 72 4 0 []) eq_refl eq_refl) (Hb (mkDir 0 4 0 []) eq_refl eq_refl) E)
    as (q & p & x & y & _ & Hx & Hy & Ht & Hp).
  exists bm, e, q, p, x, y. split; [exact Hx|]. split; [exact Hy|]. split; [exact Ht|].
  apply (Hp true Poll); [exact I|]. destruct Ht as (mc & md & [(i & rs & bs & s1 & s2 & Hl) _ _ _ _ _ _ _]).
  unfold fits. now rewrite (eo_inner _ _ _ _ _ _ _ _ _ _ _ _ _ _ Hl).
Defined.
