(* ===== verification/Bench.v ===== *)
(** The benchmark, [src/bench/bench_ping_pong.cpp]: two processes send messages
    of one size to and fro, over the library and over a socket. *)
From S2P Require Import Prelude Errors Consts Config Shm Queue Slices Pool BufList Manager.
From S2P Require Import Mapping Sizing BufReader Linked LinkedWrite LinkedRead Wire Stream.
From S2P Require Import StreamRecv StreamSend StreamClose Session Delivery Scenario Duplex.

(** * The configuration *)

Definition benchmark_config : SessionManagerConfig :=
  with_config default_sm_config
    {| connection_write_timeout := 1 * 1000000000;
       connection_read_timeout := connection_read_timeout default_config;
       connection_timeout := connection_timeout default_config;
       initialize_timeout := initialize_timeout default_config;
       queue_cap := 65536;
       queue_path := queue_path default_config;
       share_memory_buffer_cap := Z.shiftl 256 20;
       share_memory_path_prefix := share_memory_path_prefix default_config;
       buffer_slice_sizes := buffer_slice_sizes default_config;
       mem_map_type := kMemFd;
       rebuild_interval := rebuild_interval default_config;
       max_stream_num := max_stream_num default_config |}.

(** What [bench_shmipc] makes of it; [rnd] is the random number in decimal. *)
Definition bench_config (size : Z) (rnd : string) : SessionManagerConfig :=
  let c := config_ benchmark_config in
  with_session_num
    (with_config benchmark_config
      {| connection_write_timeout := connection_write_timeout c;
         connection_read_timeout := connection_read_timeout c;
         connection_timeout := connection_timeout c;
         initialize_timeout := initialize_timeout c;
         queue_cap := queue_cap c;
         queue_path := queue_path c;
         share_memory_buffer_cap :=
           if Z.shiftl 4 20 <=? size then Z.shiftl 1 30 else share_memory_buffer_cap c;
         share_memory_path_prefix := (share_memory_path_prefix c ++ rnd)%string;
         buffer_slice_sizes :=
           [mkPair (u32 (size + 256)) 70; mkPair (Z.shiftl 16 10 + 256) 20;
            mkPair (Z.shiftl 64 10 + 256) 10];
         mem_map_type := mem_map_type c;
         rebuild_interval := rebuild_interval c;
         max_stream_num := max_stream_num c |}) 1.

(** The sizes of [main], and how often a message of each goes to and fro. *)
Definition sizes : list Z :=
  [64; 512; 1024; 4096; Z.shiftl 16 10; Z.shiftl 32 10; Z.shiftl 64 10; Z.shiftl 256 10;
   Z.shiftl 512 10; Z.shiftl 1 20; Z.shiftl 4 20].

(** [iters] is an [int]: halving it 32 times leaves 1 or less. *)
Fixpoint halve_iters (fuel : nat) (iters size : Z) : Z :=
  match fuel with
  | O => iters
  | S fuel' =>
      if (1 <? iters) && (Z.shiftl 256 20 <? u64 (u64 iters * size))
      then halve_iters fuel' (Z.quot iters 2) size
      else iters
  end.
Definition iters_of (base_iters size : Z) : Z := halve_iters 32 base_iters size.

(** * Messages over the library *)

(** What a call of the program ends in: it returns, or the process exits. *)
Inductive ending (A : Type) := Returns (x : A) | Exits (code : Z).
Arguments Returns {A} x.
Arguments Exits {A} code.

Definition write_empty_slice (slice : BufferSlice) (size : Z) : Z * BufferSlice :=
  let slice := set_indices slice (read_index slice) (u64 (write_index slice + size)) in
  if cap slice <? write_index slice then
    let wrote := u32 (cap slice - u32 (u32 (write_index slice) - size)) in
    (wrote, set_indices slice (read_index slice) (cap slice))
  else (size, slice).

Section program.
Variable ops : PoolOps.
(** Bound on the slices of a message. *)
Variable fuel : nat.

(** The loop of [write_empty_buffer]; its first allocation is the one
    [LinkedBuffer::write_bytes] makes. *)
Fixpoint write_empty_loop (turns : nat) (w : memory) (l : LinkedBuffer) (size wrote : Z)
    : option (memory * LinkedBuffer) :=
  match turns with
  | O => None
  | S turns' =>
      '(w, l) ← LB.ensure_write ops w l (u32 (size - wrote));
      p ← write_ (slice_list_ l);
      s ← SList.deref (slice_list_ l) p;
      let '(k, s) := write_empty_slice s (u32 (size - wrote)) in
      let l := LB.set_list l (SList.assign (slice_list_ l) p s) in
      let wrote := u32 (wrote + k) in
      if wrote <? size then
        '(w, l) ← (match SList.next (slice_list_ l) p with
                   | Some _ => Some (w, l)
                   | None => LB.alloc ops w l (u32 (size - wrote))
                   end);
        let l := LB.set_list l (SList.set_write (slice_list_ l) (SList.next (slice_list_ l) p)) in
        write_empty_loop turns' w l size wrote
      else Some (w, l)
  end.

(** Every turn but the first finds a slice with room: one turn per byte and one
    more are enough. *)
Definition write_empty_buffer (w : memory) (l : LinkedBuffer) (size : Z) : option (memory * LinkedBuffer) :=
  if size =? 0 then Some (w, l) else
  '(w, l) ← write_empty_loop (S (S (Z.to_nat size))) w l size 0;
  Some (w, LB.set_len l (u64 (LB.len l + size))).

(** The loop of [must_write].  Each element of [rounds] is what the other threads
    and the peer do while [flush] tries again, and in the pause behind it; when it
    runs out the loop goes on for ever. *)
Fixpoint flush_until (rounds : list ((nat -> SessionShared -> SessionShared) * (SessionShared -> SessionShared)))
    (s : SessionShared) (st : Stream) : option (ending unit * SessionShared) :=
  match rounds with
  | [] => None
  | (during, pause) :: rounds' =>
      '(r, s) ← StreamOps.flush ops during s st;
      match r with
      | Ok _ => Some (Returns tt, s)
      | Unexpected e =>
          if error_is e kQueueFull then flush_until rounds' (pause s) st else Some (Exits 1, s)
      end
  end.

Definition must_write (rounds : list ((nat -> SessionShared -> SessionShared) * (SessionShared -> SessionShared)))
    (s : SessionShared) (st : Stream) (size : Z) : option (ending unit * SessionShared) :=
  i ← inner_of s st;
  '(w, b) ← write_empty_buffer (mem s) (send_buf i) size;
  flush_until rounds (put_inner (set_mem s w) st (set_send i b)) st.

Definition must_read (wakes : list (SessionShared -> SessionShared)) (s : SessionShared)
    (st : Stream) (size : Z) : option (ending bool * SessionShared) :=
  '(r, s) ← StreamOps.discard ops fuel wakes s st size;
  match r with
  | Ok _ => Some (Returns true, s)
  | Unexpected e =>
      if error_is e Errors.kStreamClosed || error_is e kEndOfStream then Some (Returns false, s)
      else Some (Exits 1, s)
  end.

(** [s.recv_buf().release_previous_read()]. *)
Definition release_read (s : SessionShared) (st : Stream) : option SessionShared :=
  i ← inner_of s st;
  '(w, b) ← LB.release_previous_read ops (mem s) (recv_buf i);
  Some (put_inner (set_mem s w) st (set_recv i b)).

(** What happens around one turn of a loop: the flushes of [must_write] and the
    waits of [must_read]. *)
Record around := mkAround {
  rounds_ : list ((nat -> SessionShared -> SessionShared) * (SessionShared -> SessionShared));
  wakes_ : list (SessionShared -> SessionShared);
}.

(** The thread of the server for a stream. *)
Fixpoint server_stream (turns : list around) (s : SessionShared) (st : Stream) (size : Z)
    : option (ending unit * SessionShared) :=
  match turns with
  | [] => None
  | t :: turns' =>
      '(r, s) ← must_read (wakes_ t) s st size;
      match r with
      | Exits code => Some (Exits code, s)
      | Returns false => Some (Returns tt, s)
      | Returns true =>
          s ← release_read s st;
          '(r, s) ← must_write (rounds_ t) s st size;
          match r with
          | Exits code => Some (Exits code, s)
          | Returns _ => server_stream turns' s st size
          end
      end
  end.

(** A worker of the client, one turn per iteration. *)
Fixpoint client_stream (turns : list around) (s : SessionShared) (st : Stream) (size : Z)
    : option (ending unit * SessionShared) :=
  match turns with
  | [] => '(_, s) ← StreamOps.close ops fuel s st; Some (Returns tt, s)
  | t :: turns' =>
      '(r, s) ← must_write (rounds_ t) s st size;
      match r with
      | Exits code => Some (Exits code, s)
      | Returns _ =>
          '(r, s) ← must_read (wakes_ t) s st size;
          match r with
          | Exits code => Some (Exits code, s)
          | Returns _ =>
              s ← StreamOps.release_read_and_reuse ops s st;
              client_stream turns' s st size
          end
      end
  end.
End program.

(** * Messages over a socket *)

(** The reading loop of both sides: [Some] with the bytes when the buffer is full,
    [None] when [::read] returned 0 or less.  The answers that run out stand for a
    call that blocks. *)
Fixpoint uds_read (answers : list read_answer) (size : nat) (got : list Z)
    : option (option (list Z) * list read_answer) :=
  if (length got <? size)%nat then
    match answers with
    | [] => None
    | ReadBytes bs :: answers' =>
        match take (size - length got) bs, drop (size - length got) bs with
        | [], _ => Some (None, answers)
        | l, [] => uds_read answers' size (got ++ l)
        | l, more => Some (Some (got ++ l), ReadBytes more :: answers')
        end
    | _ :: answers' => Some (None, answers')
    end
  else Some (Some got, answers).

(** The writing loop: what the socket has taken, and whether that is all. *)
Fixpoint uds_write (answers : list write_answer) (data sent : list Z)
    : option (bool * list Z * list write_answer) :=
  match data with
  | [] => Some (true, sent, answers)
  | _ =>
      match answers with
      | [] => None
      | Wrote (S n) :: answers' => uds_write answers' (drop (S n) data) (sent ++ take (S n) data)
      | _ :: answers' => Some (false, sent, answers')
      end
  end.

(** [read_full_or_die]. *)
Definition read_full_or_die (answers : list read_answer) (size : nat)
    : option (ending (list Z) * list read_answer) :=
  '(r, answers) ← uds_read answers size [];
  match r with
  | Some got => Some (Returns got, answers)
  | None => Some (Exits 0, answers)
  end.

(** A connection of the server: [turns] bounds the messages it answers; at the
    end it has closed the connection.  The result is what it wrote. *)
Fixpoint uds_server (turns : nat) (reads : list read_answer) (writes : list write_answer)
    (size : nat) (sent : list Z) : option (list Z) :=
  match turns with
  | O => None
  | S turns' =>
      '(r, reads) ← uds_read reads size [];
      match r with
      | None => Some sent
      | Some _ =>
          '(all, sent, writes) ← uds_write writes (replicate size 0) sent;
          match all with
          | true => uds_server turns' reads writes size sent
          | false => Some sent
          end
      end
  end.

(** A worker of the client; the result is what it wrote. *)
Fixpoint uds_worker (iters : nat) (reads : list read_answer) (writes : list write_answer)
    (size : nat) (sent : list Z) : option (ending unit * list Z) :=
  match iters with
  | O => Some (Returns tt, sent)
  | S iters' =>
      '(all, sent, writes) ← uds_write writes (replicate size 0) sent;
      match all with
      | false => Some (Exits 1, sent)
      | true =>
          '(r, reads) ← read_full_or_die reads size;
          match r with
          | Exits code => Some (Exits code, sent)
          | Returns _ => uds_worker iters' reads writes size sent
          end
      end
  end.

(** * Sending *)

Lemma write_empty_slice_ok s size : 0 <= write_index s <= cap s -> cap s < 4294967296 ->
  0 <= size < 4294967296 ->
  let k := Z.min size (cap s - write_index s) in
  write_empty_slice s size = (k, set_indices s (read_index s) (write_index s + k)).
Proof.
  intros Hw Hc Hs k. unfold write_empty_slice. cbn [cap write_index read_index set_indices].
  rewrite u64_id by lia. destruct (Z.ltb_spec (cap s) (write_index s + size)) as [Hlt|Hle].
  - assert (u32 (u32 (write_index s + size) - size) = write_index s) as ->.
    { unfold u32. rewrite Zminus_mod_idemp_l. rewrite Z.mod_small; lia. }
    rewrite u32_id by lia. replace k with (cap s - write_index s) by lia.
    f_equal. unfold set_indices. cbn. f_equal. lia.
  - now replace k with size by lia.
Qed.

Section bench.
Context {ops : PoolOps} `{!Pool ops}.

(** A turn that only moves the write index: what is in the memory there is now
    part of the message. *)
Lemma empty_turn w b rest xs pre i s post k : writing w b rest xs ->
  at_cursor (slice_list_ b) pre i s post -> 0 <= k <= cap s - write_index s ->
  let s' := set_indices s (read_index s) (write_index s + k) in
  let b' := LB.set_list b (SList.assign (slice_list_ b) i s') in
  exists zs, Z.of_nat (length zs) = k /\ writing w b' rest (xs ++ zs) /\
    at_cursor (slice_list_ b') pre i s' post /\ carried w b w b' rest.
Proof.
  intros Hwr (En & Hw & Hf) Hk s' b'. pose proof (writing_wf _ _ _ _ _ _ _ _ Hwr En) as Hws.
  destruct (slice_bytes_more w w s k Hws Hws) as [Hws' Hsb]; [lia..|reflexivity|].
  destruct (write_slice w w b rest xs _ pre i s post _ Hwr En Hf (wrote_refl w s) Hws' Hsb)
    as (Hwr' & En' & Hlv & Hst).
  exists (stored w (data s) (write_index s) k). split; [|split; [exact Hwr'|split; [now split|]]].
  - destruct (slice_bytes_wf _ _ Hws) as [_ L1]. destruct (slice_bytes_wf _ _ Hws') as [_ L2].
    destruct (slice_wf_index _ _ Hws) as (_ & _ & _ & S1 & _). destruct (slice_wf_index _ _ Hws') as (_ & _ & _ & S2 & _).
    rewrite S1 in L1. rewrite S2 in L2. rewrite Hsb, length_app in L2. cbn in L2. lia.
  - split; [exact Hlv|]. split; [|now split]. intros id Hid. left. now rewrite <- Hst.
Qed.

(** The loop, with [wrote] bytes written. *)
Lemma write_empty_loop_ok size rest : size < 4294967296 -> forall turns w b wrote xs pre i s post,
  writing w b rest xs -> at_cursor (slice_list_ b) pre i s post -> 0 <= wrote < size ->
  all_needed s post (size - wrote) -> room_for b s post (size - wrote) ->
  size - wrote + (if 0 <? cap s - write_index s then 1 else 2) <= Z.of_nat turns ->
  exists w' b' zs, write_empty_loop ops turns w b size wrote = Some (w', b') /\
    Z.of_nat (length zs) = size - wrote /\ writing w' b' rest (xs ++ zs) /\
    cursor_ok (slice_list_ b') /\ carried w b w' b' rest.
Proof.
  intros Hsz turns. induction turns as [|turns IH];
    intros w b wrote xs pre i s post Hwr Hat Hn Hneed Hroom Hturns; [case_match; lia|].
  pose proof Hat as (En & Hw & Hf). pose proof (wr_list _ _ _ _ Hwr) as Hl.
  destruct (slice_wf_index w s (writing_wf _ _ _ _ _ _ _ _ Hwr En)) as (Hri & Hwi & Hcap & _).
  cbn [write_empty_loop]. unfold LB.ensure_write. rewrite Hw. cbn [mbind option_bind]. rewrite Hw.
  cbn [mbind option_bind]. rewrite (deref_ok _ _ _ _ _ Hl En). cbn [mbind option_bind].
  rewrite (u32_id (size - wrote)) by lia. rewrite write_empty_slice_ok by lia.
  set (k := Z.min _ _) in *. set (s1 := set_indices _ _ _) in *.
  destruct (empty_turn w b rest xs pre i s post k Hwr Hat ltac:(lia)) as (zs1 & Hz1 & Hwr1 & Hat1 & Hc1).
  fold s1 in Hwr1, Hat1, Hc1. set (b1 := LB.set_list b _) in *. rewrite (u32_id (wrote + k)) by lia.
  destruct (Z.ltb_spec (wrote + k) size) as [Hmore|Hdone].
  2: { exists w, b1, zs1. split; [reflexivity|]. split; [lia|]. split; [exact Hwr1|].
       split; [eapply cursor_last; [exact Hat1|exact Hneed|lia]|exact Hc1]. }
  rewrite u32_id by lia. assert (k = cap s - write_index s) as Ek by lia.
  destruct (next_turn w b1 rest _ pre i s1 post (size - (wrote + k)) Hwr1 Hat1)
    as (w2 & b2 & pre2 & j & t & post2 & -> & H); [cbn; lia|lia| | |].
  { intros a z Ea. specialize (Hneed a z Ea). cbn [cap write_index s1 set_indices]. lia. }
  { eapply filled_room; [exact Hat|exact Hat1|exact Hroom|cbn [cap write_index s1 set_indices]; lia]. }
  cbn [mbind option_bind]. cbv zeta in H. set (b3 := LB.set_list b2 _) in *.
  destruct H as (Hwr3 & Hat3 & Hneed3 & Hroom3 & Ht & Hc3).
  destruct (IH w2 b3 (wrote + k) _ pre2 j t post2 Hwr3 Hat3)
    as (w' & b' & zs2 & -> & Hz2 & Hwr' & Hcur & Hc); auto; [lia| |].
  { assert ((0 <? cap t - write_index t) = true) as -> by lia.
    destruct (Z.ltb_spec 0 (cap s - write_index s)); lia. }
  exists w', b', (zs1 ++ zs2). split; [reflexivity|]. rewrite length_app. split; [lia|].
  rewrite app_assoc. split; [exact Hwr'|]. split; [exact Hcur|].
  eapply carried_trans; [exact Hc1|]. eapply carried_trans; eauto.
Qed.

(** [write_empty_buffer] appends [size] bytes, whatever the memory holds. *)
Lemma write_empty_ok w b rest xs size : writable w b rest xs -> 0 <= size < 4294967296 ->
  Z.of_nat (length xs) + size < 18446744073709551616 ->
  Z.of_nat (length (nodes (slice_list_ b))) < 4611686018427387904 ->
  exists w' b' zs, write_empty_buffer ops w b size = Some (w', b') /\ Z.of_nat (length zs) = size /\
    writable w' b' rest (xs ++ zs) /\ leaves w w' (slices (slice_list_ b)) rest /\
    pinned_list_ b' = pinned_list_ b.
Proof.
  intros [Hwr Hcur Hl] Hs Hx Hlen. unfold write_empty_buffer. destruct (Z.eqb_spec size 0) as [->|Hne].
  { exists w, b, []. rewrite app_nil_r. split; [reflexivity|]. split; [reflexivity|].
    split; [now constructor|]. split; [apply leaves_refl|reflexivity]. }
  destruct (ensure_write_ok w b rest xs size Hwr Hcur)
    as (w1 & b1 & pre & i & s & post & E & Hwr1 & Hat & Hneed & Hroom & Hc1 & Hn1); [lia..|].
  assert (write_empty_loop ops (S (S (Z.to_nat size))) w b size 0 =
          write_empty_loop ops (S (S (Z.to_nat size))) w1 b1 size 0) as ->.
  { cbn [write_empty_loop]. rewrite Z.sub_0_r, (u32_id size), E by lia.
    cbn [mbind option_bind]. assert (LB.ensure_write ops w1 b1 size = Some (w1, b1)) as ->; [|reflexivity].
    unfold LB.ensure_write. now rewrite (proj1 (proj2 Hat)). }
  destruct (write_empty_loop_ok size rest ltac:(lia) (S (S (Z.to_nat size))) w1 b1 0 xs pre i s post Hwr1 Hat)
    as (w2 & b2 & zs & -> & Hz & Hwr2 & Hcur2 & Hc2); rewrite ?Z.sub_0_r; auto; [lia|case_match; lia|].
  destruct (carried_trans _ _ _ _ _ _ _ Hc1 Hc2) as (Hlv & _ & Hl2 & Hp2). cbn [mbind option_bind].
  eexists w2, _, zs. split; [reflexivity|]. split; [lia|]. split; [|split; [exact Hlv|exact Hp2]].
  constructor; cbn; [destruct Hwr2; now constructor|exact Hcur2|].
  unfold LB.len. rewrite Hl2, Hl, u64_id, length_app by lia. lia.
Qed.

Variable fuel : nat.

(** The message finds room in the pool, in no more than [fuel] slices. *)
Definition has_room (s : SessionShared) (st : Stream) (size : Z) : bool :=
  match inner_of s st with
  | None => false
  | Some i =>
      match write_empty_buffer ops (mem s) (send_buf i) size with
      | Some (_, b) => is_from_shm_ b && (length (slots_in (slices (slice_list_ b))) <=? fuel)%nat
      | None => false
      end
  end.

Lemma has_room_run s st i size w b : inner_of s st = Some i ->
  write_empty_buffer ops (mem s) (send_buf i) size = Some (w, b) -> has_room s st size = true ->
  is_from_shm_ b = true /\ fits ops fuel Flush (put_inner (set_mem s w) st (set_send i b)) st = true.
Proof.
  intros Ei E H. unfold has_room in H. rewrite Ei, E in H. apply andb_prop in H as [Hb Hl]. split; [exact Hb|].
  unfold fits. now rewrite inner_of_put.
Qed.

Lemma must_write_sends a c d st st' q p x y rest size during pause rounds :
  talking fuel a c d st st' q p x y rest -> 0 < size < 4294967296 -> has_room c st size = true ->
  Z.of_nat (length (unsent x)) + size < 18446744073709551616 ->
  Z.of_nat (length (q_offs q)) < q_cap q -> q_tail q + 1 < 9223372036854775808 ->
  exists c' o zs, must_write ops ((during, pause) :: rounds) c st size = Some (Returns tt, c') /\
    Z.of_nat (length zs) = size /\
    talking fuel a c' (sync d c') st st' (pushed q o) p
      (mkChan [] (transit x ++ unsent x ++ zs) (arrived x)) y rest.
Proof.
  intros Ht Hs Hroom Hx Hq Htail. destruct (left_outgoing fuel _ _ _ _ _ _ _ _ _ _ Ht) as (i & r & Ei & Hog & Hcnt & Hthen).
  destruct (write_empty_ok (mem c) (send_buf i) r _ size (og_writable _ _ _ _ Hog)) as (w & b & zs & E & Hz & Hw & Hlv & Ep); [lia..|].
  destruct (has_room_run c st i size w b Ei E Hroom) as [Hb Hfit].
  specialize (Hthen w b zs Hw Hlv Ep Hb). cbv zeta in Hthen. set (c1 := put_inner _ _ _) in *.
  destruct (left_flush fuel a c1 (sync d c1) st st' q p _ y rest during Hthen) as (c' & o & Ef & Ht'); auto.
  { cbn. intros [_ H]%app_nil. subst zs. cbn in Hz. lia. }
  exists c', o, zs. unfold must_write. rewrite Ei. cbn [mbind option_bind]. rewrite E. cbn [mbind option_bind flush_until].
  fold c1. rewrite Ef. split; [reflexivity|]. split; [exact Hz|]. exact Ht'.
Qed.

Lemma must_read_gets elems a c d st st' q p x y rest size : talking fuel a c d st st' q p x y rest ->
  Z.of_nat (length (q_offs p)) <= Z.of_nat elems -> arrived y = [] ->
  Z.of_nat (length (transit y)) = size ->
  exists c1 c2 c3, handle_polling ops fuel elems [] c = Some (mkHandler kHeaderSize kHeaderSize false None, c1) /\
    must_read ops fuel [] c1 st size = Some (Returns true, c2) /\ release_read ops c2 st = Some c3 /\
    talking fuel a c3 (sync d c3) st st' q (drained p) x (mkChan (unsent y) [] []) rest.
Proof.
  intros Ht Hn Ha Hs. destruct (left_polls fuel elems a c d st st' q p x y rest Ht ltac:(lia)) as (c1 & E1 & Ht1).
  rewrite Ha in Ht1. cbn [app] in Ht1.
  destruct (left_discard fuel a c1 _ st st' q _ x _ rest size Ht1) as (c2 & E2 & Ht2); [cbn; lia|].
  destruct (left_release fuel elems a c2 _ st st' q _ x _ rest Ht2) as (c3 & E3 & Ht3).
  exists c1, c2, c3. split; [exact E1|]. unfold must_read. rewrite E2. split; [reflexivity|].
  split; [unfold release_read; unfold perform in E3|].
  - destruct (inner_of c2 st) as [i|]; [|discriminate E3]. cbn [mbind option_bind] in *.
    destruct (LB.release_previous_read ops (mem c2) (recv_buf i)) as [[w b]|]; [|discriminate E3]. cbn in *. congruence.
  - rewrite !sync_sync in Ht3. cbn [arrived transit unsent] in Ht3. rewrite drop_ge in Ht3 by lia. exact Ht3.
Qed.

(** The queue is full through all retries of the first flush: that flush gives the
    message up, and the second finds nothing to send. *)
Lemma must_write_drops a c d st st' q p x y rest size during pause during' pause' rounds :
  talking fuel a c d st st' q p x y rest -> 0 < size < 4294967296 -> has_room c st size = true ->
  Z.of_nat (length (unsent x)) + size < 18446744073709551616 ->
  q_cap q <= Z.of_nat (length (q_offs q)) -> (forall n s, quiet s (during n s)) ->
  (forall s, inner_of (pause s) st = inner_of s st) ->
  exists c', must_write ops ((during, pause) :: (during', pause') :: rounds) c st size = Some (Returns tt, pause c') /\
    queues c' = queues c /\ outbox c' = outbox c.
Proof.
  intros Ht Hs Hroom Hx Hfull Hq Hpause.
  destruct (left_outgoing fuel _ _ _ _ _ _ _ _ _ _ Ht) as (i & r & Ei & Hog & Hcnt & Hthen).
  destruct (write_empty_ok (mem c) (send_buf i) r _ size (og_writable _ _ _ _ Hog)) as (w & b & zs & E & Hz & Hw & Hlv & Ep); [lia..|].
  destruct (has_room_run c st i size w b Ei E Hroom) as [Hb _].
  specialize (Hthen w b zs Hw Hlv Ep Hb). cbv zeta in Hthen. set (c1 := put_inner _ _ _) in *.
  unfold must_write. rewrite Ei. cbn [mbind option_bind]. rewrite E. cbn [mbind option_bind flush_until]. fold c1.
  destruct Hthen as (mc & md & [(i1 & rs & bs & slots & tslots & Hl) _ Hll _ _ _ _ _]).
  pose proof Hl as [Ei1 Ho1 Hq1 _ _ _ _ Hog1 Hsh1 _ _].
  assert (unsent x ++ zs <> []) as Hne by (intros [_ H]%app_nil; subst zs; cbn in Hz; lia).
  destruct (flush_full c1 st i1 _ _ a _ _ _ _ during Ei1 Hog1 Hne Hsh1 Ho1 Hq1 (lk_send _ _ _ _ _ Hll))
    as (s' & -> & [_ _ Hdr] & Eq & Eo); [unfold elems_of; now rewrite length_fmap|exact Hq|].
  destruct Hdr as (i2 & Ei2 & Hog2 & _). cbn [mbind option_bind]. unfold fail_with.
  change (error_is (of_kind kQueueFull) kQueueFull) with true. cbn iota.
  exists s'. unfold StreamOps.flush at 1. rewrite Hpause, Ei2. cbn [mbind option_bind].
  rewrite (outgoing_len _ _ _ _ Hog2). split; [reflexivity|]. now rewrite Eq, Eo.
Qed.
End bench.

(** A session with room for a message. *)
Lemma demo_ready : exists bm m qs,
  opened (ops := manager_ops bm) x86_64 (demo_end true m qs) (demo_end false m qs) demo_stream demo_stream
    (mkDir 72 4 0 []) (mkDir 0 4 0 []) [] /\
  has_room (ops := manager_ops bm) 8 (demo_end true m qs) demo_stream 12 = true.
Proof.
  destruct (opened_over 300 demo_sizes demo_pairs) as (bm & m & qs & Eq & Ec & Ho). exists bm, m, qs. split; [exact Ho|].
  assert (match demo_queues, Manager.create (zero_shm 300) demo_sizes "a" 0 with
          | Some qs, Some (Ok bm, m) => has_room (ops := manager_ops bm) 8 (demo_end true m qs) demo_stream 12
          | _, _ => false
          end = true) as H by (vm_compute; reflexivity).
  now rewrite Eq, Ec in H.
Qed.

(** C18: one way of the ping-pong, of the benchmark's own calls: [must_write] at
    one end returns after one flush, whatever the other threads do meanwhile,
    and once the other end has polled, its [must_read] returns true without a
    wait and [release_previous_read] goes through; the two ends are then as
    before, with all bytes passed on and nothing in the queue.  The message must
    find room in the pool and in the queue. *)
Theorem ping_arrives {ops : PoolOps} `{!Pool ops} (fuel elems : nat) a c d st st' q p y rest size
    during pause rounds :
  talking fuel a c d st st' q p nothing y rest -> 0 < size < 4294967296 ->
  has_room (ops := ops) fuel c st size = true -> q_offs q = [] -> 0 < q_cap q -> (0 < elems)%nat ->
  q_tail q + 1 < 9223372036854775808 ->
  exists c' d1 d2 d3 q', must_write ops ((during, pause) :: rounds) c st size = Some (Returns tt, c') /\
    handle_polling ops fuel elems [] (sync d c') = Some (mkHandler kHeaderSize kHeaderSize false None, d1) /\
    must_read ops fuel [] d1 st' size = Some (Returns true, d2) /\ release_read ops d2 st' = Some d3 /\
    talking fuel a (sync c' d3) d3 st st' q' p nothing y rest /\
    same_queue q q' /\ q_offs q' = [] /\ q_tail q' = q_tail q + 1.
Proof.
  intros Ht Hs Hroom Ho Hcap Hel Htail.
  destruct (must_write_sends fuel a c d st st' q p nothing y rest size during pause rounds Ht Hs Hroom)
    as (c' & o & zs & E & Hz & Ht1); [cbn; lia|rewrite Ho; cbn; lia|exact Htail|].
  apply talking_swap in Ht1.
  destruct (must_read_gets fuel elems a _ c' st' st p (pushed q o) y _ rest size Ht1) as (d1 & d2 & d3 & E1 & E2 & E3 & Ht3);
    [unfold pushed; rewrite Ho; cbn; lia|reflexivity|exact Hz|].
  apply talking_swap in Ht3. exists c', d1, d2, d3, (drained (pushed q o)).
  repeat (split; [eassumption|]). split; [now split|]. split; [reflexivity|].
  unfold drained, pushed, q_tail. cbn. rewrite Ho. cbn. lia.
Qed.

(** * What the loops lose *)

(** A slice that was [reset] is never given back: the flag it is told by is
    clear. *)
Lemma reset_not_returned bm w s t : slice_of t s -> 0 <= t.1 -> t.1 + 20 + t.2 <= shm_len (shared w) ->
  0 <= t.2 ->
  exists s' m, Slice.reset (shared w) s = Some (s', m) /\
    Manager.recycle_buffer (set_shared w m) bm s' = Some (set_shared w m).
Proof.
  intros [E1 E2 E3 E4 E5] H1 H2 H3. unfold Slice.reset. rewrite E1.
  unfold BufferHeader.set_size, BufferHeader.set_start, BufferHeader.clear_flag. consts. shm_run.
  eexists _, _. split; [reflexivity|]. unfold Manager.recycle_buffer. cbn [is_from_shm buffer_header].
  rewrite E5. cbn [shared set_shared]. unfold BufferHeader.is_in_used. consts. shm_run.
  now rewrite get8_put8_eq.
Qed.






Lemma ping_arrives_witness : exists bm c' d1 d2 d3 q', let ops := manager_ops bm in
  exists c d, must_write ops [(fun _ s => s, fun s => s)] c demo_stream 12 = Some (Returns tt, c') /\
    handle_polling ops 8 4 [] (sync d c') = Some (mkHandler kHeaderSize kHeaderSize false None, d1) /\
    must_read ops 8 [] d1 demo_stream 12 = Some (Returns true, d2) /\
    release_read ops d2 demo_stream = Some d3 /\ q_offs q' = [].
Proof.
  destruct demo_ready as (bm & m & qs & Ho & Hr).
  destruct (ping_arrives (ops := manager_ops bm) 8 4 x86_64 _ _ _ _ _ _ _ _ 12 (fun _ s => s) (fun s => s) []
    (opened_talking 8 _ _ _ _ _ _ _ _ Ho)) as (c' & d1 & d2 & d3 & q' & E1 & E2 & E3 & E4 & _ & _ & E5 & _);
    [lia|exact Hr|reflexivity|cbn; lia|lia|unfold q_tail; cbn; lia|].
  exists bm, c', d1, d2, d3, q'. cbv zeta. eauto 10.
Defined.

(** * How often *)

Lemma halve_iters_bound size : 0 < size < 4294967296 -> forall fuel iters, 1 <= iters < 2 ^ Z.of_nat fuel ->
  iters < 2147483648 ->
  let n := halve_iters fuel iters size in
  1 <= n <= iters /\ (n = 1 \/ n * size <= Z.shiftl 256 20).
Proof.
  intros Hs fuel. induction fuel as [|fuel IH]; intros iters Hi Hm; [cbn in Hi; lia|].
  cbn [halve_iters]. rewrite (u64_id iters), (u64_id (iters * size)) by nia.
  destruct (Z.ltb_spec 1 iters) as [H1|H1]; cbn [andb]; [|lia].
  destruct (Z.ltb_spec (Z.shiftl 256 20) (iters * size)) as [H2|H2]; [|lia].
  rewrite Z.quot_div_nonneg by lia. rewrite Nat2Z.inj_succ, Z.pow_succ_r in Hi by lia.
  destruct (IH (iters / 2)) as [Hb Hd]; [split; [apply Z.div_le_lower_bound; lia|apply Z.div_lt_upper_bound; lia]|
    apply Z.div_lt_upper_bound; lia|].
  split; [|exact Hd]. assert (iters / 2 <= iters) by (apply Z.div_le_upper_bound; lia). lia.
Qed.

(** A size is measured at least once and with 256 MiB at most, unless one
    message is larger. *)
Lemma iters_bound base size : 1 <= base < 2147483648 -> 0 < size < 4294967296 ->
  1 <= iters_of base size <= base /\ (iters_of base size = 1 \/ iters_of base size * size <= Z.shiftl 256 20).
Proof. intros Hb Hs. apply (halve_iters_bound size Hs 32); [cbn; lia|lia]. Qed.

(** [verify] takes the configuration of every size; with messages of 16 and of 64
    KiB it has two lists of one slice size. *)
Lemma bench_configs rnd : Forall (fun size =>
    let c := config_ (bench_config size rnd) in
    fst (verify c) = Ok tt /\
    bool_decide (NoDup (Config.size <$> buffer_slice_sizes c)) =
      negb ((size =? Z.shiftl 16 10) || (size =? Z.shiftl 64 10))) sizes.
Proof. repeat constructor. Qed.

(** * The socket *)

(** The worker and the server read what the other wrote, however the socket cuts
    it. *)
Lemma uds_read_all size : forall answers got, (length got <= size)%nat ->
  Forall (fun x => exists b bs, x = ReadBytes (b :: bs)) answers ->
  (size - length got <= length (delivered_bytes answers))%nat ->
  exists answers', uds_read answers size got = Some (Some (got ++ take (size - length got) (delivered_bytes answers)), answers') /\
    delivered_bytes answers' = drop (size - length got) (delivered_bytes answers) /\
    Forall (fun x => exists b bs, x = ReadBytes (b :: bs)) answers'.
Proof.
  induction answers as [|x answers IH]; intros got Hg Ha Hn; cbn [uds_read].
  - destruct (Nat.ltb_spec (length got) size) as [Hlt|Hge]; [cbn in Hn; lia|].
    exists []. replace (size - length got)%nat with 0%nat by lia. now rewrite app_nil_r.
  - destruct (Nat.ltb_spec (length got) size) as [Hlt|Hge].
    2: { eexists. replace (size - length got)%nat with 0%nat by lia. rewrite app_nil_r. eauto. }
    apply Forall_cons_1 in Ha as [(b & bs & ->) Ha]. cbn [delivered_bytes] in *. set (l := b :: bs) in *.
    destruct (Nat.le_gt_cases (size - length got) (length l)) as [Hle|Hgt].
    + rewrite take_app_le, drop_app_le by exact Hle.
      destruct (take (size - length got) l) as [|z zs] eqn:Et; [apply (f_equal length) in Et; rewrite length_take in Et; cbn in *; lia|].
      rewrite <- Et. destruct (drop (size - length got) l) as [|y ys] eqn:Ed.
      * destruct (IH (got ++ take (size - length got) l)) as (answers' & E & Hd & Hf); auto;
          rewrite length_app, length_take in *; [lia|lia|].
        exists answers'. rewrite E. replace (size - (length got + (size - length got) `min` length l))%nat with 0%nat in * by lia.
        rewrite app_nil_r. cbn [app drop] in *. auto.
      * eexists. split; [reflexivity|]. split; [reflexivity|]. constructor; eauto.
    + rewrite (take_ge l), (drop_ge l) by lia.
      destruct (IH (got ++ l)) as (answers' & E & Hd & Hf); auto; rewrite length_app in *; [lia|lia|].
      exists answers'. unfold l at 1. fold l. rewrite E, take_app, drop_app, (take_ge l), (drop_ge l), <- app_assoc by lia.
      rewrite Nat.sub_add_distr. cbn [app]. rewrite Nat.sub_add_distr in Hd. auto.
Qed.
