(* ===== verification/Events.v ===== *)
(** Events on the socket: what [handle_events] of [src/session.cpp] does with a
    fallback event, complete or not, and what becomes of its bytes. *)
From S2P Require Import Prelude Errors Consts Config Shm Queue Slices Pool BufList.
From S2P Require Import Manager Linked LinkedWrite LinkedRead Wire Stream StreamRecv.
From S2P Require Import StreamSend StreamClose Session Delivery Scenario.

Section events.
Context {ops : PoolOps} `{!Pool ops} (fuel : nat).

Lemma inbox_snoc_heap w l slots ss bs s o : inbox fuel w l slots ss bs -> slice_wf w s ->
  is_from_shm s = false ->
  inbox fuel w (l ++ [mkWrapper (Some s) o]) slots (ss ++ [s]) (bs ++ slice_bytes w s).
Proof.
  intros Hi Hw Hs. induction Hi as [|u us b l slots ss bs' Hm Hf Hi IH|s' o' l slots ss bs' Hw' Hs' Hi IH]; cbn.
  - rewrite <- (app_nil_r (slice_bytes w s)). constructor; auto. constructor.
  - rewrite <- app_assoc. constructor; auto.
  - rewrite <- app_assoc. constructor; auto.
Qed.

(** The slice [handle_fallback_data] makes of the bytes it received. *)
Definition fallback_of (w : memory) (xs : list Z) : BufferSlice :=
  mkSlice None (OnHeap (heap_next w)) (u32 (Z.of_nat (length xs))) 0 0 0
    (u32 (Z.of_nat (length xs))) false.
Definition with_storage (w : memory) (xs : list Z) : memory :=
  Memory (shared w) (<[heap_next w := xs]> (heap w)) (S (heap_next w)).

Lemma storages_below w ss id : Forall (slice_wf w) ss -> heap_ok w -> id ∈ storages_in ss ->
  (id < heap_next w)%nat.
Proof.
  intros Hwf Hh Hid. apply list_elem_of_omap in Hid as (x & Hx & E). rewrite Forall_forall in Hwf.
  destruct (Hwf x Hx) as [t Ht|id' l Hf _ Hd Hl].
  - destruct (slot_of_slice t x Ht) as [_ E']. congruence.
  - destruct (storage_of_heap x id' Hf Hd) as [_ E']. rewrite E in E'. simplify_eq. eauto.
Qed.

Lemma fallback_of_wf w xs : Z.of_nat (length xs) < 4294967296 ->
  slice_wf (with_storage w xs) (fallback_of w xs) /\
  slice_bytes (with_storage w xs) (fallback_of w xs) = xs /\
  cap (fallback_of w xs) = Z.of_nat (length xs).
Proof.
  intros Hl. assert (slice_wf (with_storage w xs) (fallback_of w xs)) as Hw.
  { apply (wf_heap _ _ (heap_next w) xs); cbn; rewrite ?u32_id by lia; auto; try lia.
    now rewrite lookup_insert_eq. }
  split; [exact Hw|]. split; [|cbn; now rewrite u32_id by lia].
  destruct (slice_bytes_wf _ _ Hw) as [-> _]. cbn. rewrite lookup_insert_eq. cbn.
  unfold Slice.size. cbn. rewrite u32_id, Z.sub_0_r, u64_id, Nat2Z.id by lia. apply firstn_all.
Qed.

(** The slice joins what is to be read. *)
Lemma incoming_fallback s st i rest zs ys slots ss bs xs s' i' o :
  incoming fuel s st i rest zs ys slots ss bs -> Z.of_nat (length xs) < 4294967296 ->
  Z.of_nat (length ys) + total_cap slots + caps ss + Z.of_nat (length xs) < 18446744073709551616 ->
  Z.of_nat (length (nodes (slice_list_ (recv_buf i))) + length slots + length ss) + 1
    < 18446744073709551616 ->
  mem s' = with_storage (mem s) xs -> inner_of s' st = Some i' -> recv_buf i' = recv_buf i ->
  pending_data i' = pending_data i ++ [mkWrapper (Some (fallback_of (mem s) xs)) o] ->
  incoming fuel s' st i' rest (zs ++ xs) ys slots (ss ++ [fallback_of (mem s) xs]) (bs ++ xs).
Proof.
  intros [Ei Hr Hb Hnd Hx Hn ->] Hl Hroom Hcnt Em Ei' Er Ep.
  pose proof Hr as [[[Hown Hwf _ Hh _] _ _ _ _] _].
  destruct (fallback_of_wf (mem s) xs Hl) as (Hw & Hbytes & Hcap).
  assert (forall id, (id < heap_next (mem s))%nat -> heap (with_storage (mem s) xs) !! id = heap (mem s) !! id)
    as Hold by (intros id Hid; cbn; now rewrite lookup_insert_ne by lia).
  assert (forall id, id ∈ storages_in (held (recv_buf i)) -> (id < heap_next (mem s))%nat) as Hb1
    by (intros id; now apply storages_below).
  assert (forall id, id ∈ storages_in ss -> (id < heap_next (mem s))%nat) as Hb2
    by (intros id; apply storages_below; [eapply inbox_wf; exact Hb|exact Hh]).
  assert (storages_in (ss ++ [fallback_of (mem s) xs]) = storages_in ss ++ [heap_next (mem s)]) as Est
    by now rewrite storages_in_app.
  constructor; rewrite ?Er, ?Em; auto.
  - apply (readable_agree (mem s) _ _ (slots ++ rest)); auto.
    + split; [apply keeps_refl|]. auto.
    + intros id [l Hid]. cbn in Hid |- *. destruct (decide (heap_next (mem s) = id)) as [<-|Hne]; [lia|].
      rewrite lookup_insert_ne in Hid by congruence. specialize (Hh id (mk_is_Some _ _ Hid)). lia.
  - rewrite Ep. replace (bs ++ xs)
      with (bs ++ slice_bytes (with_storage (mem s) xs) (fallback_of (mem s) xs)) by now rewrite Hbytes.
    apply inbox_snoc_heap; auto. eapply inbox_keeps; [exact Hb|apply keeps_refl|auto|].
    intros u Hu. apply (own_slot _ _ u Hown). set_solver.
  - rewrite Est, <- app_assoc. apply NoDup_app in Hnd as (N1 & N2 & N3). apply NoDup_app.
    split; [exact N1|]. split.
    + intros id Hid. specialize (Hb2 id Hid).
      intros [H%list_elem_of_singleton|H]%elem_of_app; [lia|]. exact (N2 id Hid H).
    + apply NoDup_cons. split; [|exact N3]. intros H. specialize (Hb1 _ H). lia.
  - rewrite caps_app, caps_cons, Hcap. unfold caps at 2. cbn [foldr]. lia.
  - rewrite length_app. cbn. lia.
  - now rewrite app_assoc.
Qed.

(** A fallback event, by its header and the fields behind it. *)
Lemma fallback_event_parts v id status xs more : 1 <= v < 256 -> 0 <= id < 4294967296 ->
  0 <= status < 256 -> Z.of_nat (length xs) + 16 < 4294967296 ->
  let buf := fallback_event v id status xs ++ more in
  Z.of_nat (length (fallback_event v id status xs)) = Z.of_nat (length xs) + 16 /\
  check_event_valid buf 0 = Some (Ok tt) /\ Header.msg_type buf 0 = Some kFallbackData /\
  Header.length buf 0 = Some (Z.of_nat (length xs) + 16) /\
  drop (Z.to_nat kHeaderSize) buf = be32 id ++ be32 status ++ xs ++ more.
Proof.
  intros Hv Hid Hst Hl buf. unfold buf, fallback_event. rewrite <- !app_assoc.
  set (n := Z.of_nat (length xs) + 16).
  pose proof (header_fields n v kFallbackData (be32 id ++ be32 status ++ xs ++ more))
    as (E1 & _ & _ & E4).
  split; [rewrite !length_app; cbn [length header_bytes be32 be16 app]; lia|].
  split; [|split; [exact E4|split; [now rewrite E1, u32_id by lia|reflexivity]]].
  apply header_valid; [exact Hv|vm_compute; split; discriminate].
Qed.

Lemma fallback_fields id status xs : 0 <= id < 4294967296 -> 0 <= status < 256 ->
  load_be_u32 (be32 id ++ be32 status ++ xs) 0 = Some id /\
  load_be_u32 (be32 id ++ be32 status ++ xs) 4 = Some status.
Proof.
  intros Hid Hst. split.
  - rewrite (load_be_u32_app [] id _ 0 eq_refl : load_be_u32 (be32 id ++ _) 0 = _). now rewrite u32_id.
  - rewrite (load_be_u32_app (be32 id) status) by reflexivity. now rewrite u32_id by lia.
Qed.

(** The handler of one fallback event for a stream of the table. *)
Lemma handle_fallback_ok d st j rest zs ys slots ss bs xs id more :
  incoming fuel d st j rest zs ys slots ss bs -> streams d !! id = Some st ->
  state j <> kStreamClosed -> 0 <= id < 4294967296 -> Z.of_nat (length xs) + 16 < 4294967296 ->
  Z.of_nat (length ys) + total_cap slots + caps ss + Z.of_nat (length xs) < 18446744073709551616 ->
  Z.of_nat (length (nodes (slice_list_ (recv_buf j))) + length slots + length ss) + 1
    < 18446744073709551616 ->
  exists d', handle_fallback_data ops fuel d (Z.of_nat (length xs) + 16)
      (be32 id ++ be32 kStreamOpened ++ xs ++ more) =
    Some (mkHandler (Z.of_nat (length xs) + 16) kHeaderSize false None, d') /\
    to_read fuel d' st rest (zs ++ xs) /\
    (debug_mode d = false -> unhealthy d = 0 -> unhealthy d' = 1).
Proof.
  intros Hin Hst Hs Hid Hl Hroom Hcnt. unfold handle_fallback_data.
  replace (u64 _) with (Z.of_nat (length xs) + 8) by (change kHeaderSize with 8; rewrite u64_id; lia).
  rewrite (proj2 (Z.ltb_ge _ _)) by (rewrite !length_app; cbn [length be32]; lia).
  rewrite (proj2 (Z.ltb_ge _ 8)) by lia.
  destruct (fallback_fields id kStreamOpened (xs ++ more) Hid) as [-> ->]; [vm_compute; split; [discriminate|reflexivity]|].
  cbn [mbind option_bind]. change (Z.land kStreamOpened 255) with kStreamOpened.
  replace (take _ (drop (Z.to_nat 8) (be32 id ++ be32 kStreamOpened ++ xs ++ more))) with xs.
  2: { change (drop (Z.to_nat 8) _) with (xs ++ more).
       replace (Z.to_nat (Z.of_nat (length xs) + 8 - 8)) with (length xs) by lia. now rewrite take_app_length. }
  assert (exists u, open_circuit_breaker d = set_unhealthy d u /\
    (debug_mode d = false -> unhealthy d = 0 -> u = 1)) as (u & -> & Hu).
  { unfold open_circuit_breaker. destruct (debug_mode d) eqn:Ed; [|destruct (Z.eqb_spec (unhealthy d) 0)].
    - exists (unhealthy d). split; [now destruct d|discriminate].
    - exists 1. auto.
    - exists (unhealthy d). split; [now destruct d|contradiction]. }
  unfold Slice.from_heap, heap_alloc, get_stream. cbn [mem set_unhealthy streams set_mem set_stats].
  rewrite Hst. unfold handle_stream_message, StreamOps.fill_data_to_read_buffer.
  change (kStreamOpened =? kStreamClosed) with false. cbn iota.
  pose proof (in_inner _ _ _ _ _ _ _ _ _ _ Hin) as Ej. unfold inner_of in *.
  cbn [inners set_stats set_mem set_unhealthy]. rewrite Ej. cbn [mbind option_bind].
  rewrite (proj2 (Z.eqb_neq _ _) Hs). eexists. split; [reflexivity|]. split; [|exact Hu].
  eexists _, _, _, _, _.
  eapply (incoming_fallback d st j rest zs ys slots ss bs xs _ _ 0 Hin);
    [lia|exact Hroom|exact Hcnt|reflexivity|unfold inner_of; cbn; apply lookup_insert_eq|reflexivity..].
Qed.

(** C27: bytes sent over the socket arrive.  A complete fallback event for an
    open stream, with less than a header behind it, is handled in one turn:
    exactly its bytes are consumed, the payload is added behind what the stream
    has to read, and the circuit breaker opens on this side too. *)
Theorem fallback_delivered (d : SessionShared) (st : Stream) (j : StreamInner) (rest : list slot)
    (zs ys : list Z) (slots : list slot) (ss : list BufferSlice) (bs xs more : list Z) (id v : Z)
    (n : nat) (during : list (SessionShared -> SessionShared)) :
  incoming fuel d st j rest zs ys slots ss bs -> streams d !! id = Some st ->
  state j <> kStreamClosed -> 0 <= id < 4294967296 -> 1 <= v < 256 ->
  Z.of_nat (length xs) + 16 < 4294967296 -> (length more < 8)%nat ->
  Z.of_nat (length ys) + total_cap slots + caps ss + Z.of_nat (length xs) < 18446744073709551616 ->
  Z.of_nat (length (nodes (slice_list_ (recv_buf j))) + length slots + length ss) + 1
    < 18446744073709551616 ->
  exists d', handle_events ops fuel 1 n during d (fallback_event v id kStreamOpened xs ++ more) 0 =
      Some (mkEvent (Z.of_nat (length xs) + 16) kHeaderSize None, d') /\
    to_read fuel d' st rest (zs ++ xs) /\
    (debug_mode d = false -> unhealthy d = 0 -> unhealthy d' = 1).
Proof.
  intros Hin Hst Hs Hid Hv Hl Hm Hroom Hcnt.
  destruct (handle_fallback_ok d st j rest zs ys slots ss bs xs id more Hin Hst Hs Hid Hl Hroom Hcnt)
    as (d' & E & Ht & Hu). exists d'. split; [|auto].
  destruct (fallback_event_parts v id kStreamOpened xs more Hv Hid) as (E0 & E1 & E2 & E3 & E4);
    [vm_compute; split; [discriminate|reflexivity]|exact Hl|].
  cbn [handle_events]. change (Z.to_nat 0) with O. rewrite drop_0, length_app.
  rewrite Z.sub_0_r, u64_id by lia.
  rewrite (proj2 (Z.ltb_ge _ _)) by (change kHeaderSize with 8; lia).
  rewrite E1. cbn [mbind option_bind]. rewrite E2. cbn [mbind option_bind].
  change (kFallbackData =? kPolling) with false. change (kFallbackData =? kStreamClose) with false.
  change (kFallbackData =? kFallbackData) with true. cbn iota.
  rewrite E3. cbn [mbind option_bind]. rewrite E4, E. cbn [mbind option_bind hr_consumed hr_err hr_stop].
  rewrite Z.add_0_l, (u64_id (Z.of_nat (length xs) + 16)) by lia.
  rewrite u64_id, (proj2 (Z.ltb_lt _ _)) by (try change kHeaderSize with 8; lia). reflexivity.
Qed.

(** An incomplete event waits.  Any proper prefix of a fallback event that
    has its header is left in the buffer with nothing consumed, the state is
    untouched, and the reader is told the length of the whole event. *)
Theorem fallback_waits (d : SessionShared) (id v : Z) (xs : list Z) (k turns n : nat)
    (during : list (SessionShared -> SessionShared)) :
  0 <= id < 4294967296 -> 1 <= v < 256 -> Z.of_nat (length xs) + 16 < 4294967296 ->
  (8 <= k < length xs + 16)%nat ->
  handle_events ops fuel (S turns) n during d (take k (fallback_event v id kStreamOpened xs)) 0 =
    Some (mkEvent 0 (Z.of_nat (length xs) + 16) None, d).
Proof.
  intros Hid Hv Hl Hk. set (body := be32 id ++ be32 kStreamOpened ++ xs).
  set (len := Z.of_nat (length xs) + 16).
  assert (take k (fallback_event v id kStreamOpened xs) =
    header_bytes len v kFallbackData ++ take (k - 8) body) as ->.
  { unfold fallback_event. rewrite take_app_ge by (cbn; lia). reflexivity. }
  assert (length (take (k - 8) body) = (k - 8)%nat) as Eb
    by (rewrite length_take; unfold body; rewrite !length_app; cbn [length be32]; lia).
  pose proof (header_fields len v kFallbackData (take (k - 8) body)) as (E1 & _ & _ & E4).
  cbn [handle_events]. change (Z.to_nat 0) with O. rewrite drop_0, length_app, Eb.
  change (length (header_bytes len v kFallbackData)) with 8%nat.
  rewrite Z.sub_0_r, (u64_id (Z.of_nat (8 + (k - 8)))) by lia.
  rewrite (proj2 (Z.ltb_ge (Z.of_nat (8 + (k - 8))) kHeaderSize)) by (change kHeaderSize with 8; lia).
  rewrite header_valid by (try lia; vm_compute; split; discriminate). cbn [mbind option_bind].
  rewrite E4. cbn [mbind option_bind]. change (u8 kFallbackData) with kFallbackData.
  change (kFallbackData =? kPolling) with false. change (kFallbackData =? kStreamClose) with false.
  change (kFallbackData =? kFallbackData) with true. cbn iota.
  rewrite E1. cbn [mbind option_bind]. rewrite u32_id by lia. unfold handle_fallback_data.
  replace (u64 (len - kHeaderSize)) with (Z.of_nat (length xs) + 8)
    by (change kHeaderSize with 8; rewrite u64_id; lia).
  change (drop (Z.to_nat kHeaderSize) _) with (take (k - 8) body). rewrite Eb.
  rewrite (proj2 (Z.ltb_lt _ _)) by lia. reflexivity.
Qed.
End events.

(** A server's end of an open stream with nothing to read. *)
Lemma demo_idle : exists bm m, incoming (ops := manager_ops bm) 8
  (demo_session false (Memory m ∅ 0) m 1 new_inner) demo_stream new_inner [] [] [] [] [] [].
Proof.
  destruct demo_empty as (bm & m & Hog). exists bm, m.
  constructor; cbn; auto; try lia; [|constructor|constructor]. now apply outgoing_readable.
Qed.

Lemma fallback_delivered_witness : exists bm d d',
  handle_events (manager_ops bm) 8 1 4 [] d (fallback_event 3 1 kStreamOpened [7; 8] ++ [0]) 0 =
    Some (mkEvent 18 kHeaderSize None, d') /\
  to_read (ops := manager_ops bm) 8 d' demo_stream [] [7; 8] /\ unhealthy d' = 1.
Proof.
  destruct demo_idle as (bm & m & Hin).
  destruct (fallback_delivered (ops := manager_ops bm) 8 _ demo_stream new_inner [] [] [] [] [] []
    [7; 8] [0] 1 3 4 [] Hin) as (d' & E & H & Hu);
    [reflexivity|discriminate|lia|lia|cbn; lia|cbn; lia|cbn; lia|cbn; lia|].
  eexists bm, _, d'. split; [exact E|]. split; [exact H|]. apply Hu; reflexivity.
Defined.

Lemma fallback_waits_witness : exists bm d,
  handle_events (manager_ops bm) 8 1 4 [] d (take 17 (fallback_event 3 1 kStreamOpened [7; 8])) 0 =
    Some (mkEvent 0 18 None, d).
Proof.
  destruct demo_idle as (bm & m & _). eexists bm, (demo_session false (Memory m ∅ 0) m 1 new_inner).
  apply (fallback_waits (ops := manager_ops bm) 8 _ 1 3 [7; 8] 17 0 4 []); [lia|lia|cbn; lia|cbn; lia].
Defined.
