(* ===== verification/Table.v ===== *)
(** The table of streams of a session: the ids in it, the objects behind them
    and the pool of idle streams ([src/session.cpp], [src/stream_pool.cpp]). *)
From S2P Require Import Prelude Errors Consts Config Shm Queue Slices Pool Linked Wire Stream Session Scenario.

(** Each stream of the table is there under its own id, has an object, and
    shares it with no other; objects not made yet are not in the store. *)
Record table_wf (s : SessionShared) : Prop := {
  tw_id : forall id st, streams s !! id = Some st -> id_ st = id /\ is_Some (inner_of s st);
  tw_apart : forall id id' st st', streams s !! id = Some st -> streams s !! id' = Some st' ->
    inner_ st = inner_ st' -> id = id';
  tw_next : forall k, is_Some (inners s !! k) -> (k < next_inner s)%nat;
}.









(** [open_stream].  On a session that is up and healthy it returns a stream
    under the next id, open and with empty buffers, in an object no other stream
    has, and leaves the other streams as they were; an id that is taken is
    [kStreamsExhausted], a session that is unhealthy or closed refuses, and in
    these cases the table is unchanged. *)
Theorem open_stream_result (s : SessionShared) (sid : Z) :
  table_wf s ->
  let id := u32 (next_stream_id s + 1) in
  exists r s', open_stream s sid = Some (r, s') /\
    match r with
    | Ok st => is_closed s = false /\ unhealthy s <> 1 /\ id_ st = id /\
        streams s !! id = None /\ streams s' = <[id := st]> (streams s) /\
        inner_of s st = None /\ inner_of s' st = Some new_inner /\
        (forall k, k <> inner_ st -> inners s' !! k = inners s !! k)
    | Unexpected e => streams s' = streams s /\ inners s' = inners s /\
        (is_closed s = true \/
         unhealthy s = 1 /\ e = of_kind kSessionUnhealthy \/
         is_Some (streams s !! id) /\ e = of_kind kStreamsExhausted)
    end.
Proof.
  intros [_ _ H3] id. unfold open_stream. destruct (is_closed s) eqn:Ec.
  { destruct (shutdown_err s); eexists _, _; (split; [reflexivity|]); cbn; auto. }
  destruct (Z.eqb_spec (unhealthy s) 1) as [Eu|Eu]; [eexists _, _; split; [reflexivity|]; cbn; auto 6|].
  cbn. fold id. destruct (bool_decide _) eqn:Eb; eexists _, _; (split; [reflexivity|]).
  - apply bool_decide_eq_true in Eb. cbn. auto 6.
  - apply bool_decide_eq_false, eq_None_not_Some in Eb. unfold inner_of. cbn.
    rewrite lookup_insert_eq. repeat split; auto.
    + apply eq_None_not_Some. intros H. specialize (H3 _ H). lia.
    + intros k Hk. now rewrite lookup_insert_ne.
Qed.

(** The first open stream of the pool, past the closed ones. *)
Lemma pop_open_finds s l : forall dead st i n, pool_streams s = dead ++ st :: l ->
  Forall (fun d => exists j, inner_of s d = Some j /\ state j <> kStreamOpened) dead ->
  inner_of s st = Some i -> state i = kStreamOpened -> (length dead <= n)%nat ->
  pop_open n s = Some (Some st, set_pool s l).
Proof.
  intros dead. revert s. induction dead as [|x dead IH]; intros s st i n Ep Hd Hi Ho Hn.
  - destruct n; cbn; unfold pool_pop; rewrite Ep; cbn; unfold inner_of in *; cbn; rewrite Hi; cbn;
      unfold StreamOps.is_open; now rewrite Ho.
  - apply Forall_cons_1 in Hd as [(j & Hj & Hc) Hd]. destruct n as [|n]; [cbn in Hn; lia|].
    cbn. unfold pool_pop. rewrite Ep. cbn. unfold inner_of in *. cbn. rewrite Hj. cbn.
    unfold StreamOps.is_open. rewrite (proj2 (Z.eqb_neq _ _) Hc).
    apply (IH (set_pool s (dead ++ st :: l)) st i n); auto. cbn in Hn. lia.
Qed.

(** [get_or_open_stream] reuses.  On a healthy session it returns the oldest
    idle stream that is still open, leaves the ones behind it in the pool and
    drops the closed ones before it; an unhealthy session hands out none. *)
Theorem get_or_open_reuses (s : SessionShared) (sid : Z) (dead l : list Stream) (st : Stream)
    (i : StreamInner) :
  pool_streams s = dead ++ st :: l ->
  Forall (fun d => exists j, inner_of s d = Some j /\ state j <> kStreamOpened) dead ->
  inner_of s st = Some i -> state i = kStreamOpened ->
  get_or_open_stream s sid =
    Some (if is_healthy s then (Ok st, set_pool s l) else (fail_with kSessionUnhealthy, s)).
Proof.
  intros Ep Hd Hi Ho. unfold get_or_open_stream. destruct (is_healthy s); cbn [negb]; [|reflexivity].
  rewrite (pop_open_finds s l dead st i); auto. rewrite Ep, length_app. lia.
Qed.

(** A session with no stream. *)
Definition demo_bare : SessionShared :=
  set_inners (set_streams (demo_session true (Memory (zero_shm 0) ∅ 0) (zero_shm 0) 1 new_inner) ∅) ∅ 0.

Lemma demo_bare_wf : table_wf demo_bare.
Proof. constructor; cbn; intros *; rewrite ?lookup_empty; try discriminate. now intros []. Qed.


Lemma open_stream_result_witness : exists st s', open_stream demo_bare 0 = Some (Ok st, s') /\
  inner_of s' st = Some new_inner.
Proof.
  destruct (open_stream_result demo_bare 0 demo_bare_wf) as ([st|e] & s' & E & H).
  - exists st, s'. split; [exact E|]. destruct H as (_ & _ & _ & _ & _ & _ & H & _). exact H.
  - vm_compute in E. discriminate E.
Defined.

Lemma get_or_open_reuses_witness :
  let s := set_pool (demo_session true (Memory (zero_shm 0) ∅ 0) (zero_shm 0) 1 new_inner) [demo_stream] in
  get_or_open_stream s 0 = Some (Ok demo_stream, set_pool s []).
Proof.
  exact (get_or_open_reuses (set_pool (demo_session true (Memory (zero_shm 0) ∅ 0) (zero_shm 0) 1 new_inner)
    [demo_stream]) 0 [] [] demo_stream new_inner eq_refl (Forall_nil_2 _) eq_refl eq_refl).
Defined.
