(* ===== verification/Text.v ===== *)
(** Strings of the program: decimal numbers as [std::to_string] writes them and
    [strtol] and [std::stoi] read them, and [std::string::rfind]. *)
From Stdlib Require Import Ascii.
From stdpp Require Import pretty.
From S2P Require Import Prelude.

(** * Characters and numbers *)

Definition digit_value (c : ascii) : option Z :=
  let n := Z.of_nat (nat_of_ascii c) in
  if (48 <=? n) && (n <=? 57) then Some (n - 48) else None.
Definition is_digit (c : ascii) : bool := bool_decide (is_Some (digit_value c)).

(** [isspace] in the C locale. *)
Definition is_space (c : ascii) : bool :=
  let n := nat_of_ascii c in (n =? 32)%nat || ((9 <=? n) && (n <=? 13))%nat.

Fixpoint skip_spaces (s : list ascii) : list ascii :=
  match s with
  | c :: s' => if is_space c then skip_spaces s' else s
  | [] => []
  end.

(** The value of the digits a string starts with, after [acc]. *)
Fixpoint read_digits (acc : Z) (s : list ascii) : Z :=
  match s with
  | c :: s' => match digit_value c with Some d => read_digits (10 * acc + d) s' | None => acc end
  | [] => acc
  end.

Definition starts_with_digit (s : list ascii) : bool :=
  match s with c :: _ => is_digit c | [] => false end.

(** [strtol] to the base 10: [None] where there is no number ([end == v]); the
    value, and whether it was out of the range of [long] and clamped. *)
Definition strtol (s : list ascii) : option (Z * bool) :=
  let s := skip_spaces s in
  let '(neg, s) := match s with
                   | c :: s' => if Ascii.eqb c "-" then (true, s')
                                else if Ascii.eqb c "+" then (false, s') else (false, s)
                   | [] => (false, [])
                   end in
  if negb (starts_with_digit s) then None else
  let v := if (neg : bool) then - read_digits 0 s else read_digits 0 s in
  if v <? -9223372036854775808 then Some (-9223372036854775808, true) else
  if 9223372036854775807 <? v then Some (9223372036854775807, true) else Some (v, false).

(** [std::stoi]: [None] is an exception, of a string without a number or of one
    out of range.  What follows the number is ignored. *)
Definition stoi (s : list ascii) : option Z :=
  '(v, clamped) ← strtol s;
  if (clamped : bool) then None else
  if (-2147483648 <=? v) && (v <=? 2147483647) then Some v else None.

(** [rfind]: what is before and after the last [c]. *)
Fixpoint rfind_split (c : ascii) (s : list ascii) : option (list ascii * list ascii) :=
  match s with
  | [] => None
  | x :: s' =>
      match rfind_split c s' with
      | Some (a, b) => Some (x :: a, b)
      | None => if Ascii.eqb x c then Some ([], s') else None
      end
  end.

Abbreviation chars := String.list_ascii_of_string.

(** * Lemmas *)

Lemma chars_app a b : chars (a +:+ b) = chars a ++ chars b.
Proof. induction a as [|c a IH]; [reflexivity|]. exact (f_equal (cons c) IH). Qed.

Lemma rfind_none c s : c ∉ s -> rfind_split c s = None.
Proof.
  induction s as [|x s IH]; intros Hc; [reflexivity|]. apply not_elem_of_cons in Hc as [Hx Hs].
  cbn. rewrite IH by exact Hs. destruct (Ascii.eqb_spec x c); congruence.
Qed.

Lemma rfind_last c a b : c ∉ b -> rfind_split c (a ++ c :: b) = Some (a, b).
Proof.
  intros Hb. induction a as [|x a IH]; cbn; [rewrite rfind_none by exact Hb; now rewrite Ascii.eqb_refl|].
  now rewrite IH.
Qed.

(** The digits of [x]. *)
Lemma digit_char (x : N) : (x < 10)%N -> digit_value (pretty_N_char x) = Some (Z.of_N x).
Proof.
  intros Hx. assert (x = 0 \/ x = 1 \/ x = 2 \/ x = 3 \/ x = 4 \/ x = 5 \/ x = 6 \/ x = 7 \/ x = 8 \/ x = 9)%N as H by lia.
  naive_solver.
Qed.

Lemma pretty_go_digits (x : N) : forall s, Forall (fun c => is_digit c) (chars s) ->
  Forall (fun c => is_digit c) (chars (pretty_N_go x s)).
Proof.
  induction (N.lt_wf_0 x) as [x _ IH]; intros s Hs.
  assert (x = 0 \/ 0 < x)%N as [->|Hx] by lia; [now rewrite pretty_N_go_0|].
  rewrite pretty_N_go_step by exact Hx. apply IH; [now apply N.div_lt|]. cbn. constructor; [|exact Hs].
  unfold is_digit. rewrite digit_char by now apply N.mod_lt. now apply bool_decide_pack.
Qed.

Lemma pretty_go_value (x : N) : forall s,
  read_digits 0 (chars (pretty_N_go x s)) = read_digits (Z.of_N x) (chars s).
Proof.
  induction (N.lt_wf_0 x) as [x _ IH]; intros s.
  assert (x = 0 \/ 0 < x)%N as [->|Hx] by lia; [now rewrite pretty_N_go_0|].
  rewrite pretty_N_go_step by exact Hx. rewrite IH by now apply N.div_lt. cbn [String.list_ascii_of_string read_digits].
  rewrite digit_char by now apply N.mod_lt. f_equal.
  rewrite <- (N2Z.inj_mul 10), <- N2Z.inj_add. f_equal. symmetry. now apply N.div_mod.
Qed.

(** [std::to_string] of a number that is not negative. *)
Lemma pretty_digits (z : Z) : 0 <= z -> Forall (fun c => is_digit c) (chars (pretty z)).
Proof.
  intros Hz. destruct z as [|p|p]; [repeat constructor| |lia]. cbn.
  unfold pretty, pretty_positive, pretty, pretty_N. case_decide; [lia|]. apply pretty_go_digits. constructor.
Qed.

Lemma pretty_value (z : Z) : 0 <= z -> read_digits 0 (chars (pretty z)) = z.
Proof.
  intros Hz. destruct z as [|p|p]; [reflexivity| |lia]. cbn.
  unfold pretty, pretty_positive, pretty, pretty_N. case_decide; [lia|]. now rewrite pretty_go_value.
Qed.

Lemma pretty_nonempty (z : Z) : 0 <= z -> chars (pretty z) <> [].
Proof.
  intros Hz E. destruct (decide (z = 0)) as [->|Hn]; [discriminate E|].
  pose proof (pretty_value z Hz) as H. rewrite E in H. cbn in H. lia.
Qed.

Lemma digit_not (c : ascii) (s : list ascii) : is_digit c = false -> Forall (fun c => is_digit c) s -> c ∉ s.
Proof. intros Hc Hs Hin. rewrite Forall_forall in Hs. apply Hs in Hin. now rewrite Hc in Hin. Qed.

(** [stoi] reads what [to_string] wrote. *)
Lemma stoi_to_string (z : Z) : 0 <= z <= 2147483647 -> stoi (chars (pretty z)) = Some z.
Proof.
  intros Hz. pose proof (pretty_digits z ltac:(lia)) as Hd. pose proof (pretty_value z ltac:(lia)) as Hv.
  pose proof (pretty_nonempty z ltac:(lia)) as Hne. unfold stoi, strtol.
  destruct (chars (pretty z)) as [|c s]; [contradiction|]. apply Forall_cons in Hd as [Hc _].
  assert (is_space c = false /\ Ascii.eqb c "-" = false /\ Ascii.eqb c "+" = false) as (H1 & H2 & H3).
  { clear -Hc. destruct c as [[] [] [] [] [] [] [] []]; vm_compute in Hc; try contradiction; try discriminate; auto. }
  cbn [skip_spaces]. rewrite H1, H2, H3. cbn [starts_with_digit]. rewrite (Is_true_true_1 _ Hc). cbn [negb]. rewrite Hv.
  assert ((z <? -9223372036854775808) = false) as -> by lia. assert ((9223372036854775807 <? z) = false) as -> by lia.
  cbn [mbind option_bind]. assert ((-2147483648 <=? z) && (z <=? 2147483647) = true) as -> by lia. reflexivity.
Qed.

(** What stands before the last separator is determined by the whole. *)
Lemma last_separator (c : ascii) (a a' b b' : list ascii) : c ∉ b -> c ∉ b' ->
  a ++ c :: b = a' ++ c :: b' -> a = a' /\ b = b'.
Proof.
  intros Hb Hb' E. pose proof (rfind_last c a b Hb) as H1. pose proof (rfind_last c a' b' Hb') as H2.
  rewrite E in H1. rewrite H1 in H2. now simplify_eq.
Qed.

Lemma strtol_range s v c : strtol s = Some (v, c) -> -9223372036854775808 <= v <= 9223372036854775807.
Proof.
  unfold strtol. destruct (match skip_spaces s with [] => _ | _ => _ end) as [neg t].
  destruct (negb _); [discriminate|]. set (x := if neg then _ else _).
  destruct (Z.ltb_spec x (-9223372036854775808)); [intros [= <- _]; lia|].
  destruct (Z.ltb_spec 9223372036854775807 x); intros [= <- _]; lia.
Qed.
