(* ===== verification/Loops.v ===== *)
(** The two loops of a session over its socket ([Session::read_loop],
    [write_loop] and [recv_loop] of [src/session.cpp]): the events of one side,
    written in any pieces and read in any pieces, are handled by the other side
    one after the other. *)
From S2P Require Import Prelude Errors Consts Config Shm Queue Slices Pool BufList.
From S2P Require Import Manager Linked LinkedWrite LinkedRead Wire Stream StreamRecv.
From S2P Require Import StreamSend StreamClose Session Delivery BufReader Scenario Events Text.

(** [SendReady], without the promise. *)
Record SendReady := mkReady { ready_hdr : list Z; ready_body : list Z }.

(** [buf_reader_capacity]: the value of [BUF_READER_CAPACITY], where it is set
    to a positive number. *)
Definition buf_reader_capacity (env : option string) : Z :=
  let default_cap := 32 * 1024 * 1024 in
  match env with
  | None => default_cap
  | Some v =>
      match strtol (chars v) with
      | None => default_cap
      | Some (parsed, _) => if 0 <? parsed then u64 parsed else default_cap
      end
  end.

Section loops.
Variable ops : PoolOps.
Variable fuel : nat.
Variable strerror_r : Z -> option string.

(** [read_loop].  [wakes] is what the other threads do while the loop waits for
    the socket, round by round; [n] and [during] are those of [handle_polling].
    [rounds] bounds the rounds. *)
Fixpoint read_loop (rounds n : nat) (during wakes : list (SessionShared -> SessionShared))
    (reads : list read_answer) (r : BufReader) (len : Z) (s : SessionShared) : option SessionShared :=
  match rounds with
  | O => None
  | S rounds' =>
      '(buf, r, reads) ← BR.fill_buf_at_least strerror_r reads r len;
      let s := match wakes with [] => s | f :: _ => f s end in
      if shutdown s =? 1 then Some s else
      match buf with
      | Unexpected e => exit_err ops fuel s e
      | Ok buf =>
          '(result, s) ← handle_events ops fuel (length buf) n during s buf 0;
          let r := BR.consume r (er_consumed result) in
          match er_err result with
          | Some e =>
              if is_closed s
              then read_loop rounds' n during (tail wakes) reads r (er_required result) s
              else exit_err ops fuel s e
          | None => read_loop rounds' n during (tail wakes) reads r (er_required result) s
          end
      end
  end.

(** [write_loop]: [received] is what [recv] hands out before the channel is
    stopped, [writes] what the socket answers.  The result is the session, the
    bytes the socket took and the number of promises kept. *)
Fixpoint write_loop (received : list SendReady) (writes : list write_answer) (s : SessionShared)
    (sent : list Z) (kept : nat) : option (SessionShared * list Z * nat) :=
  match received with
  | [] => Some (s, sent, kept)
  | ready :: received' =>
      '(r, sent, writes) ← block_write_full strerror_r writes (ready_hdr ready) sent;
      match r with
      | Unexpected e => s ← exit_err ops fuel s e; Some (s, sent, kept)
      | Ok _ =>
          '(r, sent, writes) ← block_write_full strerror_r writes (ready_body ready) sent;
          match r with
          | Unexpected e => s ← exit_err ops fuel s e; Some (s, sent, kept)
          | Ok _ => write_loop received' writes s sent (S kept)
          end
      end
  end.

(** [recv_loop]: the accepted streams go to the listener until its channel
    refuses one.  [takes] is what [send] answers. *)
Fixpoint recv_loop {A} (streams : list A) (takes : list bool) (out : list A) : list A :=
  match streams, takes with
  | [], _ => out
  | st :: streams', b :: takes' => if (b : bool) then recv_loop streams' takes' (out ++ [st]) else out
  | _ :: _, [] => out
  end.

(** Whatever the environment says, the buffer of the reader is not empty. *)
Lemma buf_reader_capacity_pos env : 1 <= buf_reader_capacity env < 9223372036854775808.
Proof.
  unfold buf_reader_capacity. destruct env as [v|]; [|lia].
  destruct (strtol (chars v)) as [[parsed c]|] eqn:E; [|lia]. apply strtol_range in E.
  destruct (Z.ltb_spec 0 parsed); [rewrite u64_id; lia|lia].
Qed.

(** * The events themselves *)

Inductive event :=
  | EvPolling
  | EvStreamClose (id : Z)
  | EvFallback (id status : Z) (data : list Z).

Definition event_bytes (version : Z) (ev : event) : list Z :=
  match ev with
  | EvPolling => header_bytes kHeaderSize version kPolling
  | EvStreamClose id => header_bytes 12 version kStreamClose ++ be32 id
  | EvFallback id status data => fallback_event version id status data
  end.

Definition event_ok (cap : Z) (ev : event) : Prop :=
  match ev with
  | EvPolling => kHeaderSize <= cap
  | EvStreamClose id => 0 <= id < 4294967296 /\ 12 <= cap
  | EvFallback id status data =>
      0 <= id < 4294967296 /\ 0 <= status < 256 /\
      Z.of_nat (length data) + 16 < 4294967296 /\ Z.of_nat (length data) + 16 <= cap
  end.

(** What an event does to the session. *)
Definition apply_event (n : nat) (during : list (SessionShared -> SessionShared)) (ev : event)
    (s : SessionShared) : option (option Error * SessionShared) :=
  match ev with
  | EvPolling => '(hr, s) ← handle_polling ops fuel n during s; Some (hr_err hr, s)
  | EvStreamClose id =>
      match streams s !! id with
      | Some st => s ← half_close (set_streams s (delete id (streams s))) st; Some (None, s)
      | None => Some (None, s)
      end
  | EvFallback id status data =>
      let s := open_circuit_breaker s in
      let slice := fallback_of (mem s) data in
      let s := set_stats (set_mem s (with_storage (mem s) data)) (add_fallback_read (stats s)) in
      let '(o, s) := get_stream s id status in
      match o with
      | Some st =>
          '(r, s) ← handle_stream_message ops fuel s st (mkWrapper (Some slice) 0) status;
          Some (match r with Ok _ => None | Unexpected e => Some e end, s)
      | None => Some (None, set_mem s (Slice.destroy (mem s) slice))
      end
  end.

(** The events one after the other, until one fails. *)
Fixpoint apply_events (n : nat) (during : list (SessionShared -> SessionShared)) (evs : list event)
    (s : SessionShared) : option (option Error * SessionShared) :=
  match evs with
  | [] => Some (None, s)
  | ev :: evs' =>
      '(err, s) ← apply_event n during ev s;
      match err with
      | Some e => Some (Some e, s)
      | None => apply_events n during evs' s
      end
  end.

(** The session that has handled the events of a connection that ends with the
    error [last]. *)
Definition serve (n : nat) (during : list (SessionShared -> SessionShared)) (evs : list event)
    (last : Error) (s : SessionShared) : option SessionShared :=
  '(err, s) ← apply_events n during evs s;
  exit_err ops fuel s (default last err).

(** * The events in the bytes *)

Lemma event_bytes_length v ev cap : event_ok cap ev ->
  8 <= Z.of_nat (length (event_bytes v ev)) <= cap /\ Z.of_nat (length (event_bytes v ev)) < 4294967296.
Proof.
  destruct ev as [|id|id status data]; cbn [event_ok event_bytes]; intros H.
  - change (length (header_bytes _ _ _)) with 8%nat. change kHeaderSize with 8 in H. lia.
  - change (length (_ ++ _)) with 12%nat. lia.
  - unfold fallback_event. rewrite !length_app. cbn [length header_bytes be32 be16 app]. lia.
Qed.

Lemma poll_rounds_result n during : forall s err hr s',
  poll_rounds ops fuel n during s err = Some (hr, s') ->
  hr_consumed hr = kHeaderSize /\ hr_stop hr = false.
Proof.
  induction during as [|f during IH]; intros s err hr s'; cbn [poll_rounds];
    destruct (drain ops fuel n s err) as [[[[] e] s1]|]; cbn [mbind option_bind]; intros E;
    simplify_eq; auto;
    (destruct (mark_not_working _ _) as [[[] m]|]; cbn [mbind option_bind] in E; simplify_eq; auto).
  eapply IH. exact E.
Qed.

(** The turn of the loop that handles [ev]. *)
Lemma handle_events_event v ev cap turns n during s pre more : 1 <= v < 256 -> event_ok cap ev ->
  let buf := pre ++ event_bytes v ev ++ more in
  Z.of_nat (length buf) < 9223372036854775808 ->
  let c := Z.of_nat (length (pre ++ event_bytes v ev)) in
  handle_events ops fuel (S turns) n during s buf (Z.of_nat (length pre)) =
    '(err, s') ← apply_event n during ev s;
    match err with
    | Some e => Some (mkEvent c kHeaderSize (Some e), s')
    | None => handle_events ops fuel turns n during s' buf c
    end.
Proof.
  intros Hv Hok buf Hl c. pose proof (event_bytes_length v ev cap Hok) as [He1 He2].
  assert (drop (length pre) buf = event_bytes v ev ++ more) as Edrop by apply drop_app_length.
  assert (Z.of_nat (length buf) = c + Z.of_nat (length more)) as Elen
    by (unfold buf, c; rewrite !length_app; lia).
  assert (c = Z.of_nat (length pre) + Z.of_nat (length (event_bytes v ev))) as Ec
    by (unfold c; rewrite length_app; lia).
  clearbody buf c. cbn [handle_events]. rewrite u64_id by lia.
  rewrite (proj2 (Z.ltb_ge _ _)) by (change kHeaderSize with 8; lia).
  rewrite Nat2Z.id, Edrop.
  destruct ev as [|id|id status data]; cbn [event_bytes apply_event event_ok] in *.
  - rewrite header_valid by (try lia; vm_compute; split; discriminate). cbn [mbind option_bind].
    destruct (header_fields kHeaderSize v kPolling more) as (_ & _ & _ & ->). cbn [mbind option_bind].
    change (u8 kPolling =? kPolling) with true. cbn iota.
    destruct (handle_polling ops fuel n during s) as [[hr s']|] eqn:Ep; [|reflexivity].
    cbn [mbind option_bind]. destruct (poll_rounds_result _ _ _ _ _ _ Ep) as [-> ->].
    cbn in Ec. rewrite u64_id by (change kHeaderSize with 8; lia).
    change kHeaderSize with 8 at 1 3. now rewrite Ec.
  - rewrite <- app_assoc. rewrite header_valid by (try lia; vm_compute; split; discriminate).
    cbn [mbind option_bind].
    destruct (header_fields 12 v kStreamClose (be32 id ++ more)) as (_ & _ & _ & ->). cbn [mbind option_bind].
    change (u8 kStreamClose =? kPolling) with false. change (u8 kStreamClose =? kStreamClose) with true.
    cbn iota. change (drop (Z.to_nat kHeaderSize) _) with (be32 id ++ more). unfold handle_stream_close.
    rewrite (proj2 (Z.ltb_ge _ _)) by (rewrite length_app; cbn; lia).
    rewrite (load_be_u32_app [] id more 0 eq_refl : load_be_u32 (be32 id ++ more) 0 = _).
    rewrite (u32_id id) by lia. cbn [mbind option_bind]. change (Z.of_nat (length _)) with 12 in Ec at 2.
    destruct (streams s !! id) as [st|]; [destruct (half_close _ st) as [s'|]|]; cbn [mbind option_bind];
      try reflexivity; cbn [hr_consumed hr_err hr_stop]; change (kHeaderSize + 4) with 12;
      rewrite u64_id by lia; now rewrite Ec.
  - destruct (fallback_event_parts v id status data more) as (E0 & E1 & E2 & E3 & E4); [lia..|].
    rewrite E1. cbn [mbind option_bind]. rewrite E2. cbn [mbind option_bind].
    change (kFallbackData =? kPolling) with false. change (kFallbackData =? kStreamClose) with false.
    change (kFallbackData =? kFallbackData) with true. cbn iota. rewrite E3. cbn [mbind option_bind].
    rewrite E4. unfold handle_fallback_data.
    replace (u64 _) with (Z.of_nat (length data) + 8) by (change kHeaderSize with 8; rewrite u64_id; lia).
    rewrite (proj2 (Z.ltb_ge _ _)) by (rewrite !length_app; cbn [length be32]; lia).
    rewrite (proj2 (Z.ltb_ge _ 8)) by lia.
    destruct (fallback_fields id status (data ++ more)) as [-> ->]; [lia..|]. cbn [mbind option_bind].
    replace (take _ (drop (Z.to_nat 8) _)) with data.
    2: { change (drop (Z.to_nat 8) _) with (data ++ more).
         replace (Z.to_nat (Z.of_nat (length data) + 8 - 8)) with (length data) by lia.
         now rewrite take_app_length. }
    replace (Z.land status 255) with status
      by (change 255 with (Z.ones 8); rewrite Z.land_ones by lia; symmetry; apply Z.mod_small; lia).
    unfold Slice.from_heap, heap_alloc. cbn [Slices.cap read_index].
    unfold with_storage, fallback_of, set_indices. 
    cbn [buffer_header Slices.data start offset_in_shm Slices.cap is_from_shm read_index].
    rewrite E0 in Ec.
    match goal with |- context [get_stream ?x id status] => destruct (get_stream x id status) as [[st|] s1] end;
      [destruct (handle_stream_message ops fuel s1 st _ status) as [[[u|e] s2]|]|];
      cbn [mbind option_bind hr_consumed hr_err hr_stop]; try reflexivity;
      rewrite u64_id by lia; now rewrite Ec.
Qed.

(** An incomplete event at the end is left, and the loop is told how much to
    wait for: more than there is, no more than the event. *)
Lemma handle_events_fragment v ev cap k turns n during s pre : 1 <= v < 256 -> event_ok cap ev ->
  (k < length (event_bytes v ev))%nat -> let buf := pre ++ take k (event_bytes v ev) in
  Z.of_nat (length buf) < 9223372036854775808 ->
  exists req, handle_events ops fuel (S turns) n during s buf (Z.of_nat (length pre)) =
      Some (mkEvent (Z.of_nat (length pre)) req None, s) /\
    Z.of_nat k < req <= Z.of_nat (length (event_bytes v ev)).
Proof.
  intros Hv Hok Hk buf Hl. pose proof (event_bytes_length v ev cap Hok) as [He1 He2].
  assert (drop (length pre) buf = take k (event_bytes v ev)) as Edrop by apply drop_app_length.
  assert (Z.of_nat (length buf) = Z.of_nat (length pre) + Z.of_nat k) as Elen
    by (unfold buf; rewrite length_app, length_take; lia).
  clearbody buf. cbn [handle_events]. rewrite u64_id by lia.
  destruct (Z.ltb_spec (Z.of_nat (length buf) - Z.of_nat (length pre)) kHeaderSize) as [Hlt|Hge].
  { exists kHeaderSize. split; [reflexivity|]. change kHeaderSize with 8 in *. lia. }
  change kHeaderSize with 8 in Hge. rewrite Nat2Z.id, Edrop.
  destruct ev as [|id|id status data]; cbn [event_bytes event_ok] in *.
  - change (length (header_bytes _ _ _)) with 8%nat in Hk. lia.
  - rewrite take_app_ge by (cbn; lia). change (length (header_bytes _ _ _)) with 8%nat.
    rewrite header_valid by (try lia; vm_compute; split; discriminate). cbn [mbind option_bind].
    destruct (header_fields 12 v kStreamClose (take (k - 8) (be32 id))) as (_ & _ & _ & ->).
    cbn [mbind option_bind]. change (u8 kStreamClose =? kPolling) with false.
    change (u8 kStreamClose =? kStreamClose) with true. cbn iota.
    change (drop (Z.to_nat kHeaderSize) _) with (take (k - 8) (be32 id)). unfold handle_stream_close.
    change (length (_ ++ be32 id)) with 12%nat in *.
    rewrite (proj2 (Z.ltb_lt _ _)) by (rewrite length_take; cbn; lia). cbn [mbind option_bind].
    cbn [hr_consumed hr_err hr_stop hr_required]. rewrite Z.add_0_r, u64_id by lia.
    eexists. split; [reflexivity|]. change kHeaderSize with 8. lia.
  - destruct (fallback_event_parts v id status data []) as (E0 & _); [lia..|]. rewrite E0 in *.
    unfold fallback_event in *. set (len := Z.of_nat (length data) + 16) in *.
    set (body := be32 id ++ be32 status ++ data) in *.
    assert (length body = length data + 8)%nat as Ebody by (unfold body; rewrite !length_app; cbn; lia).
    rewrite take_app_ge by (cbn; lia). change (length (header_bytes _ _ _)) with 8%nat.
    rewrite header_valid by (try lia; vm_compute; split; discriminate). cbn [mbind option_bind].
    destruct (header_fields len v kFallbackData (take (k - 8) body)) as (E1 & _ & _ & ->).
    cbn [mbind option_bind]. change (u8 kFallbackData) with kFallbackData.
    change (kFallbackData =? kPolling) with false. change (kFallbackData =? kStreamClose) with false.
    change (kFallbackData =? kFallbackData) with true. cbn iota.
    rewrite E1. cbn [mbind option_bind]. rewrite u32_id by lia. unfold handle_fallback_data.
    replace (u64 (len - kHeaderSize)) with (Z.of_nat (length data) + 8)
      by (change kHeaderSize with 8; rewrite u64_id; lia).
    change (drop (Z.to_nat kHeaderSize) _) with (take (k - 8) body).
    rewrite (proj2 (Z.ltb_lt _ _)) by (rewrite length_take; lia). cbn [mbind option_bind].
    cbn [hr_consumed hr_err hr_stop hr_required]. rewrite Z.add_0_r, u64_id by lia.
    exists len. split; [reflexivity|]. lia.
Qed.

Lemma event_bytes_lengths v cap evs : Forall (event_ok cap) evs ->
  (8 * length evs <= length (concat (event_bytes v <$> evs)))%nat.
Proof.
  induction 1 as [|ev evs Hok _ IH]; [cbn; lia|]. rewrite fmap_cons. cbn [concat length].
  rewrite length_app. pose proof (event_bytes_length v ev cap Hok). lia.
Qed.

(** [handle_events] on a buffer of events with a part of one more. *)
Lemma handle_events_all v cap n during ev k : 1 <= v < 256 -> event_ok cap ev ->
  (k < length (event_bytes v ev))%nat -> forall evs turns s pre, Forall (event_ok cap) evs ->
  let body := concat (event_bytes v <$> evs) in
  let buf := pre ++ body ++ take k (event_bytes v ev) in
  Z.of_nat (length buf) < 9223372036854775808 -> (length evs < turns)%nat ->
  match apply_events n during evs s with
  | None => handle_events ops fuel turns n during s buf (Z.of_nat (length pre)) = None
  | Some (Some e, s') => exists c,
      handle_events ops fuel turns n during s buf (Z.of_nat (length pre)) =
        Some (mkEvent c kHeaderSize (Some e), s')
  | Some (None, s') => exists req,
      handle_events ops fuel turns n during s buf (Z.of_nat (length pre)) =
        Some (mkEvent (Z.of_nat (length (pre ++ body))) req None, s') /\
      Z.of_nat k < req <= Z.of_nat (length (event_bytes v ev))
  end.
Proof.
  intros Hv Hev Hk. induction evs as [|e evs IH]; intros turns s pre Hok body buf Hl Ht;
    (destruct turns as [|turns]; [cbn in Ht; lia|]).
  - cbn [apply_events]. unfold buf, body. cbn [fmap list_fmap concat]. rewrite app_nil_r.
    eapply handle_events_fragment; eauto.
  - apply Forall_cons_1 in Hok as [He Hok]. set (body' := concat (event_bytes v <$> evs)).
    assert (buf = pre ++ event_bytes v e ++ (body' ++ take k (event_bytes v ev))) as Eb
      by (unfold buf, body; cbn [fmap list_fmap concat]; now rewrite <- app_assoc).
    assert (buf = (pre ++ event_bytes v e) ++ body' ++ take k (event_bytes v ev)) as Eb'
      by now rewrite Eb, app_assoc.
    rewrite Eb in Hl |- *. rewrite (handle_events_event v e cap) by assumption. rewrite <- Eb, Eb'.
    cbn [apply_events]. destruct (apply_event n during e s) as [[[err|] s1]|]; cbn [mbind option_bind];
      [now eexists| |reflexivity].
    specialize (IH turns s1 (pre ++ event_bytes v e) Hok). cbn zeta in IH. fold body' in IH.
    replace (length (pre ++ body)) with (length ((pre ++ event_bytes v e) ++ body'))
      by (unfold body; cbn [fmap list_fmap concat]; now rewrite <- app_assoc).
    apply IH; [|cbn in Ht; lia]. rewrite <- Eb', Eb. exact Hl.
Qed.

(** The bytes that have been read so far end within an event, or within what
    follows the last one. *)
Lemma events_split v cap ev k : event_ok cap ev -> (k < length (event_bytes v ev))%nat ->
  forall evs X Y, Forall (event_ok cap) evs ->
  X ++ Y = concat (event_bytes v <$> evs) ++ take k (event_bytes v ev) ->
  exists evs1 evs2 ev1 k1, evs = evs1 ++ evs2 /\ event_ok cap ev1 /\
    (k1 < length (event_bytes v ev1))%nat /\
    X = concat (event_bytes v <$> evs1) ++ take k1 (event_bytes v ev1) /\
    take k1 (event_bytes v ev1) ++ Y = concat (event_bytes v <$> evs2) ++ take k (event_bytes v ev) /\
    (evs2 = [] \/ exists evs3, evs2 = ev1 :: evs3).
Proof.
  intros Hev Hk. induction evs as [|e evs IH]; intros X Y Hok E.
  - cbn in E. exists [], [], ev, (length X). assert (X = take (length X) (event_bytes v ev)) as EX.
    { rewrite <- (take_app_length X Y) at 1. rewrite E, take_take. f_equal.
      apply (f_equal length) in E. rewrite length_app, length_take in E. lia. }
    split; [reflexivity|]. split; [exact Hev|]. split.
    { apply (f_equal length) in E. rewrite length_app, length_take in E. lia. }
    cbn. rewrite <- EX. auto.
  - apply Forall_cons_1 in Hok as [He Hok]. cbn [fmap list_fmap concat] in E. rewrite <- app_assoc in E.
    destruct (le_lt_dec (length (event_bytes v e)) (length X)) as [Hle|Hlt].
    + assert (X = event_bytes v e ++ drop (length (event_bytes v e)) X) as EX.
      { rewrite <- (take_drop (length (event_bytes v e)) X) at 1. f_equal.
        rewrite <- (take_app_le X Y), E by exact Hle. apply take_app_length. }
      set (X' := drop (length (event_bytes v e)) X) in *. rewrite EX, <- app_assoc in E. simplify_list_eq.
      destruct (IH X' Y Hok) as (evs1 & evs2 & ev1 & k1 & -> & H1 & H2 & H3 & H4 & H5); [exact E|].
      exists (e :: evs1), evs2, ev1, k1. split; [reflexivity|]. split; [exact H1|]. split; [exact H2|].
      split; [rewrite EX, H3; cbn; now rewrite <- app_assoc|]. auto.
    + exists [], (e :: evs), e, (length X). assert (X = take (length X) (event_bytes v e)) as EX.
      { rewrite <- (take_app_length X Y) at 1. rewrite E. now rewrite take_app_le by lia. }
      split; [reflexivity|]. split; [exact He|]. split; [exact Hlt|]. cbn [fmap list_fmap concat app].
      rewrite <- EX. split; [reflexivity|]. split; [now rewrite <- app_assoc|]. right. eauto.
Qed.

(** * The handlers do not shut the session down *)

Definition keeps_shutdown (f : SessionShared -> SessionShared) : Prop :=
  forall s, shutdown (f s) = shutdown s.

Lemma get_stream_shutdown s id st_state : shutdown (get_stream s id st_state).2 = shutdown s.
Proof. unfold get_stream, StreamOps.make. destruct (_ !! _); [|case_match]; reflexivity. Qed.

Lemma half_close_shutdown s st s' : half_close s st = Some s' -> shutdown s' = shutdown s.
Proof. unfold half_close. destruct (inner_of s st); cbn; intros; by simplify_eq. Qed.

Lemma handle_stream_message_shutdown s st d st_state r s' :
  handle_stream_message ops fuel s st d st_state = Some (r, s') -> shutdown s' = shutdown s.
Proof.
  unfold handle_stream_message. case_match.
  - destruct (half_close s st) as [s1|] eqn:E1; cbn; intros; simplify_eq.
    now apply half_close_shutdown in E1.
  - unfold StreamOps.fill_data_to_read_buffer, StreamOps.clean_pending_data, StreamOps.recycle_recv.
    destruct (inner_of s st); cbn [mbind option_bind]; [|discriminate].
    case_match; [|intros; by simplify_eq].
    destruct (inner_of _ st); cbn [mbind option_bind]; [|discriminate].
    destruct (StreamOps.clean_pending _ _ _ _); cbn [mbind option_bind]; [|discriminate].
    destruct (inner_of _ st); cbn [mbind option_bind]; [|discriminate].
    destruct (LB.recycle _ _ _) as [[]|]; cbn [mbind option_bind]; intros; by simplify_eq.
Qed.

Lemma drain_shutdown n : forall s err b err' s',
  drain ops fuel n s err = Some (b, err', s') -> shutdown s' = shutdown s.
Proof.
  induction n as [|n IH]; intros s err b err' s'; cbn [drain];
    destruct (pop (queues s) (recv_queue s)) as [[[ele|e] m]|]; cbn [mbind option_bind]; intros E;
    simplify_eq; try reflexivity.
  pose proof (get_stream_shutdown (set_queues s m) (seq_id ele) (Z.land (status ele) 255)) as Hg.
  destruct (get_stream _ _ _) as [[st|] s1]; cbn in Hg.
  - destruct (handle_stream_message _ _ s1 _ _ _) as [[r s2]|] eqn:Em; cbn in E; [|discriminate].
    apply handle_stream_message_shutdown in Em. apply IH in E. congruence.
  - case_match; [|apply IH in E; congruence].
    destruct (read_buffer_slice _ _ _) as [[slice|e]|]; cbn in E; simplify_eq; [|exact Hg].
    destruct (recycle_buffers _ _ _ _); cbn in E; [|discriminate]. apply IH in E. cbn in E. congruence.
Qed.

Lemma poll_rounds_shutdown n during : Forall keeps_shutdown during -> forall s err hr s',
  poll_rounds ops fuel n during s err = Some (hr, s') -> shutdown s' = shutdown s.
Proof.
  induction 1 as [|f during Hf _ IH]; intros s err hr s'; cbn [poll_rounds];
    destruct (drain ops fuel n s err) as [[[[] e] s1]|] eqn:Ed; cbn [mbind option_bind]; intros E;
    simplify_eq; apply drain_shutdown in Ed; auto;
    (destruct (mark_not_working _ _) as [[[] m]|]; cbn [mbind option_bind] in E; simplify_eq; auto).
  - cbn. now rewrite Hf.
  - apply IH in E. cbn in E. rewrite Hf in E. congruence.
Qed.

Lemma apply_event_shutdown n during ev s err s' : Forall keeps_shutdown during ->
  apply_event n during ev s = Some (err, s') -> shutdown s' = shutdown s.
Proof.
  intros Hd. destruct ev as [|id|id status data]; cbn [apply_event].
  - destruct (handle_polling ops fuel n during s) as [[hr s1]|] eqn:Ep; cbn; intros; simplify_eq.
    now apply (poll_rounds_shutdown n during Hd) in Ep.
  - case_match; [|intros; by simplify_eq].
    destruct (half_close _ _) eqn:Eh; cbn; intros; simplify_eq. now apply half_close_shutdown in Eh.
  - assert (forall x, shutdown (open_circuit_breaker x) = shutdown x) as Hb
      by (intros x; unfold open_circuit_breaker; repeat case_match; reflexivity).
    match goal with |- context [get_stream ?x id status] =>
      pose proof (get_stream_shutdown x id status) as Hg; destruct (get_stream x id status) as [[st|] s1] end;
      cbn in Hg; rewrite Hb in Hg.
    + destruct (handle_stream_message _ _ _ _ _ _) as [[r s2]|] eqn:Em; cbn; intros; simplify_eq.
      apply handle_stream_message_shutdown in Em. congruence.
    + intros. by simplify_eq.
Qed.

Lemma apply_events_shutdown n during evs : Forall keeps_shutdown during -> forall s err s',
  apply_events n during evs s = Some (err, s') -> shutdown s' = shutdown s.
Proof.
  intros Hd. induction evs as [|ev evs IH]; intros s err s'; cbn [apply_events].
  { intros. by simplify_eq. }
  destruct (apply_event n during ev s) as [[[e|] s1]|] eqn:Ea; cbn [mbind option_bind]; intros E;
    simplify_eq; apply apply_event_shutdown in Ea; auto. apply IH in E. congruence.
Qed.

Lemma apply_events_app n during evs1 evs2 s : apply_events n during (evs1 ++ evs2) s =
  '(err, s) ← apply_events n during evs1 s;
  match err with Some e => Some (Some e, s) | None => apply_events n during evs2 s end.
Proof.
  revert s. induction evs1 as [|ev evs1 IH]; intros s; cbn [app apply_events]; [reflexivity|].
  destruct (apply_event n during ev s) as [[[e|] s1]|]; cbn [mbind option_bind]; auto.
Qed.

(** * The read loop serves the events *)

(** The head of the loop: [len] is more than the reader has, and there is that
    much to come unless all events have been handled. *)
Lemma read_loop_serves v cap n during ev k final err : 1 <= v < 256 -> event_ok cap ev ->
  (k < length (event_bytes v ev))%nat -> Forall keeps_shutdown during ->
  last_error strerror_r final = Some err ->
  forall rounds evs reads r len s, Forall (event_ok cap) evs -> reader_ok r -> cap_ r = cap ->
  Forall brings reads -> (length (delivered_bytes reads) < rounds)%nat -> shutdown s = 0 ->
  let all := concat (event_bytes v <$> evs) ++ take k (event_bytes v ev) in
  BR.buffer r ++ delivered_bytes reads = all -> Z.of_nat (length (BR.buffer r)) < len <= cap ->
  (evs <> [] -> len <= Z.of_nat (length all)) ->
  read_loop rounds n during [] (reads ++ [final]) r len s = serve n during evs err s.
Proof.
  intros Hv Hev Hk Hd Hf. induction rounds as [|rounds IH];
    intros evs reads r len s Hevs Hr Hcap Hbr Hrd Hs all Eall Hlen Hsome; [lia|].
  cbn [read_loop]. destruct (Z.le_gt_cases len (Z.of_nat (length all))) as [Hle|Hgt].
  - destruct (fill_at_least_ok strerror_r r len reads Hr) as (r' & rest & Ef & Hr' & Ec & Hl & Eb & Hbr');
      [lia|exact Hbr|now rewrite Eall|].
    rewrite (fill_at_least_app _ _ [final] _ _ _ _ _ Ef). cbn [mbind option_bind].
    rewrite Hs. cbn [Z.eqb].
    assert (length (delivered_bytes rest) < length (delivered_bytes reads))%nat as Hless
      by (apply (f_equal length) in Eb; rewrite !length_app in Eb; lia).
    rewrite Eall in Eb. symmetry in Eb.
    destruct (events_split v cap ev k Hev Hk evs _ _ Hevs Eb)
      as (evs1 & evs2 & ev1 & k1 & -> & Hev1 & Hk1 & Ebuf & Erest & Hnext).
    apply Forall_app in Hevs as [Hevs1 Hevs2].
    pose proof (buffer_length r' Hr') as Hbl. pose proof Hr' as [O1 O2 O3 O4].
    pose proof (event_bytes_lengths v cap evs1 Hevs1) as Hcnt.
    pose proof (f_equal length Ebuf) as Lbuf. rewrite length_app in Lbuf.
    pose proof (handle_events_all v cap n during ev1 k1 Hv Hev1 Hk1 evs1 (length (BR.buffer r')) s []
      Hevs1) as Hh. cbn zeta in Hh. cbn [app length] in Hh. rewrite <- Ebuf in Hh.
    specialize (Hh ltac:(lia) ltac:(lia)). change (Z.of_nat 0) with 0 in Hh.
    unfold serve. rewrite apply_events_app.
    destruct (apply_events n during evs1 s) as [[[e|] s1]|] eqn:Ea; cbn [mbind option_bind].
    + destruct Hh as [c ->]. cbn [mbind option_bind er_err]. unfold is_closed.
      rewrite (apply_events_shutdown _ _ _ Hd _ _ _ Ea), Hs. reflexivity.
    + destruct Hh as (req & -> & Hreq). cbn [mbind option_bind er_err er_consumed er_required].
      destruct (consume_ok r' (Z.of_nat (length (concat (event_bytes v <$> evs1)))) Hr') as [Hr2 Eb2]; [lia|].
      rewrite Nat2Z.id, Ebuf, drop_app_length in Eb2. pose proof (event_bytes_length v ev1 cap Hev1) as Hl1.
      apply (IH evs2 rest); auto.
      * cbn. lia.
      * lia.
      * rewrite (apply_events_shutdown _ _ _ Hd _ _ _ Ea). exact Hs.
      * now rewrite Eb2.
      * rewrite Eb2, length_take. lia.
      * intros Hne. destruct Hnext as [->|[evs3 ->]]; [contradiction|].
        rewrite fmap_cons. cbn [concat]. rewrite !length_app. lia.
    + now rewrite Hh.
  - destruct evs as [|e evs]; [|specialize (Hsome ltac:(discriminate)); lia].
    destruct (fill_at_least_short strerror_r reads final err r len Hr) as [r' Ef]; auto; [lia|rewrite Eall; lia|].
    rewrite Ef. cbn [mbind option_bind]. rewrite Hs. reflexivity.
Qed.

Lemma read_loop_start (v cap : Z) (n rounds : nat) (during : list (SessionShared -> SessionShared))
    (evs : list event) (cut : event) (k : nat) (reads : list read_answer) (final : read_answer)
    (err : Error) (s : SessionShared) :
  1 <= v < 256 -> Forall (event_ok cap) (cut :: evs) -> cap < 9223372036854775808 ->
  (k < length (event_bytes v cut))%nat ->
  Forall brings reads -> last_error strerror_r final = Some err ->
  delivered_bytes reads = concat (event_bytes v <$> evs) ++ take k (event_bytes v cut) ->
  Forall keeps_shutdown during -> shutdown s = 0 -> (length (delivered_bytes reads) < rounds)%nat ->
  read_loop rounds n during [] (reads ++ [final]) (BR.make cap) kHeaderSize s =
    serve n during evs err s.
Proof.
  intros Hv Hevs Hcap Hk Hbr Hf Hd Hdu Hs Hr. apply Forall_cons_1 in Hevs as [Hcut Hevs].
  pose proof (event_bytes_length v cut cap Hcut) as Hl.
  assert (BR.buffer (BR.make cap) = []) as Eb by reflexivity.
  apply (read_loop_serves v cap n during cut k final err); auto.
  - apply make_reader_ok. lia.
  - rewrite Eb. cbn [length]. change kHeaderSize with 8. lia.
  - intros Hne. destruct evs as [|e evs]; [contradiction|]. apply Forall_cons_1 in Hevs as [He _].
    pose proof (event_bytes_length v e cap He). rewrite fmap_cons. cbn [concat].
    rewrite !length_app. change kHeaderSize with 8. lia.
Qed.

(** C17: reading the socket in pieces makes no difference.  Whatever the sizes in
    which the bytes of a list of events arrive and however often the calls are
    interrupted, [read_loop] handles the events one after the other, each once,
    as [serve] does; a last event that is cut off is dropped, and the loop ends
    the session with the error of the connection.  One round per byte and one
    more is enough. *)
Theorem read_loop_equiv (v cap : Z) (n rounds : nat) (during : list (SessionShared -> SessionShared))
    (evs : list event) (cut : event) (k : nat) (reads : list read_answer) (final : read_answer)
    (err : Error) (s : SessionShared) :
  1 <= v < 256 -> Forall (event_ok cap) (cut :: evs) -> cap < 9223372036854775808 ->
  (k < length (event_bytes v cut))%nat ->
  Forall brings reads -> last_error strerror_r final = Some err ->
  delivered_bytes reads = concat (event_bytes v <$> evs) ++ take k (event_bytes v cut) ->
  Forall keeps_shutdown during -> shutdown s = 0 -> (length (delivered_bytes reads) < rounds)%nat ->
  read_loop rounds n during [] (reads ++ [final]) (BR.make cap) kHeaderSize s =
    serve n during evs err s.
Proof. apply read_loop_start. Qed.

(** * The write loop *)

(** The socket's answers are enough to write [k] bytes or to fail. *)
Fixpoint enough (k : nat) (writes : list write_answer) : Prop :=
  match k, writes with
  | O, _ => True
  | _, [] => False
  | _, WriteError _ :: _ => True
  | _, (WriteEintr | Wrote O) :: writes' => enough k writes'
  | S k', Wrote (S _) :: writes' => enough k' writes'
  end.

Lemma enough_le writes : forall j k, enough k writes -> (j <= k)%nat -> enough j writes.
Proof.
  induction writes as [|x writes IH]; intros [|j] [|k]; cbn; try (lia || auto).
  destruct x as [[|x]| |e]; intros H Hle; auto; eapply IH; eauto; lia.
Qed.

(** One message: written, with answers left for the others, or cut off by an
    error. *)
Lemma block_write_some writes : forall data sent k, enough (length data + k) writes ->
  (exists writes', block_write_full strerror_r writes data sent = Some (Ok tt, sent ++ data, writes') /\
     enough k writes') \/
  (exists e part writes', block_write_full strerror_r writes data sent =
     Some (Unexpected e, sent ++ part, writes') /\ part `prefix_of` data /\
     (length part < length data)%nat).
Proof.
  induction writes as [|x writes IH]; intros data sent k H; destruct data as [|b data]; cbn [block_write_full].
  1,3: left; eexists; rewrite app_nil_r; split; [reflexivity|exact H].
  - contradiction.
  - cbn [length Nat.add] in H. destruct x as [[|x]| |e]; cbn [enough] in H.
    + cbn [drop take]. rewrite app_nil_r. now apply IH.
    + destruct (IH (drop (S x) (b :: data)) (sent ++ take (S x) (b :: data)) k) as [Hok|Herr].
      { eapply enough_le; [exact H|]. rewrite length_drop. cbn. lia. }
      * left. rewrite <- app_assoc, take_drop in Hok. exact Hok.
      * right. destruct Herr as (e & part & writes' & E & Hp & Hlt).
        exists e, (take (S x) (b :: data) ++ part), writes'. rewrite app_assoc. split; [exact E|].
        rewrite <- (take_drop (S x) (b :: data)) at 2 4. split; [now apply prefix_app|].
        rewrite !length_app. lia.
    + now apply IH.
    + right. exists (from_errno strerror_r e), [], writes. rewrite app_nil_r.
      split; [reflexivity|]. split; [apply prefix_nil|cbn; lia].
Qed.

Definition message_bytes (ready : SendReady) : list Z := ready_hdr ready ++ ready_body ready.

Lemma socket_write_loop received : forall writes s sent kept,
  enough (length (concat (message_bytes <$> received))) writes ->
  write_loop received writes s sent kept =
    Some (s, sent ++ concat (message_bytes <$> received), (kept + length received)%nat) \/
  exists e k part ready, received !! k = Some ready /\ part `prefix_of` message_bytes ready /\
    (length part < length (message_bytes ready))%nat /\
    write_loop received writes s sent kept =
      s' ← exit_err ops fuel s e;
      Some (s', sent ++ concat (message_bytes <$> take k received) ++ part, (kept + k)%nat).
Proof.
  induction received as [|ready received IH]; intros writes s sent kept Hen.
  { left. cbn. now rewrite app_nil_r, Nat.add_0_r. }
  rewrite fmap_cons in *. cbn [concat] in Hen. unfold message_bytes at 1 in Hen.
  rewrite !length_app, <- Nat.add_assoc in Hen. cbn [write_loop].
  destruct (block_write_some writes (ready_hdr ready) sent _ Hen)
    as [(w1 & -> & Hen1)|(e & part & w1 & -> & Hp & Hl)]; cbn [mbind option_bind].
  2: { right. exists e, O, part, ready. split; [reflexivity|]. unfold message_bytes.
       split; [now apply prefix_app_r|]. split; [rewrite length_app; lia|]. cbn. now rewrite Nat.add_0_r. }
  destruct (block_write_some w1 (ready_body ready) (sent ++ ready_hdr ready) _ Hen1)
    as [(w2 & -> & Hen2)|(e & part & w2 & -> & Hp & Hl)]; cbn [mbind option_bind].
  2: { right. exists e, O, (ready_hdr ready ++ part), ready. split; [reflexivity|]. unfold message_bytes.
       split; [now apply prefix_app|]. split; [rewrite !length_app; lia|].
       cbn. now rewrite Nat.add_0_r, app_assoc. }
  rewrite <- app_assoc. change (ready_hdr ready ++ ready_body ready) with (message_bytes ready).
  destruct (IH w2 s (sent ++ message_bytes ready) (S kept) Hen2) as [->|(e & k & part & r & H1 & H2 & H3 & ->)].
  - left. cbn [concat length]. rewrite <- app_assoc. do 2 f_equal. lia.
  - right. exists e, (S k), part, r. cbn [take]. rewrite fmap_cons. cbn [concat lookup list_lookup].
    split; [exact H1|]. split; [exact H2|]. split; [exact H3|].
    destruct (exit_err ops fuel s e); [|reflexivity]. cbn. rewrite <- !app_assoc. do 2 f_equal. lia.
Qed.

(** The event a message carries. *)
Definition event_message (v : Z) (ev : event) : SendReady := mkReady [] (event_bytes v ev).

(** C9: the other side handles exactly the events that were reported as sent.
    One side's [write_loop] is handed the messages of [evs], and the other
    side's [read_loop] reads what the socket took.  However the bytes are split
    on either side, the reader handles in order the events whose promise the
    writer has kept, all of them when no write fails; when a write fails the
    event that was cut off has no effect. *)
Theorem events_over_socket (v cap : Z) (n : nat) (during : list (SessionShared -> SessionShared))
    (evs : list event) (writes : list write_answer) (s1 s2 : SessionShared) :
  1 <= v < 256 -> 12 <= cap < 9223372036854775808 -> Forall (event_ok cap) evs ->
  enough (length (concat (event_bytes v <$> evs))) writes ->
  Forall keeps_shutdown during -> shutdown s2 = 0 ->
  exists sent kept,
    (write_loop (event_message v <$> evs) writes s1 [] 0 = Some (s1, sent, kept) /\ kept = length evs \/
     exists e, write_loop (event_message v <$> evs) writes s1 [] 0 =
       s' ← exit_err ops fuel s1 e; Some (s', sent, kept)) /\
    forall rounds reads final err, Forall brings reads -> last_error strerror_r final = Some err ->
      delivered_bytes reads = sent -> (length sent < rounds)%nat ->
      read_loop rounds n during [] (reads ++ [final]) (BR.make cap) kHeaderSize s2 =
        serve n during (take kept evs) err s2.
Proof.
  intros Hv Hcap Hok Hen Hdu Hs.
  assert (forall l, message_bytes <$> (event_message v <$> l) = event_bytes v <$> l) as Em
    by (intros l; rewrite <- list_fmap_compose; reflexivity).
  assert (event_ok cap EvPolling) as Hpoll by (cbn; change kHeaderSize with 8; lia).
  destruct (socket_write_loop (event_message v <$> evs) writes s1 [] 0)
    as [E|(e & k & part & ready & Hk & Hp & Hl & E)]; [now rewrite Em|..]; rewrite ?Em in E.
  - exists (concat (event_bytes v <$> evs)), (length evs). rewrite length_fmap in E.
    split; [left; split; [exact E|reflexivity]|]. intros rounds reads final err Hbr Hf Hd Hr.
    rewrite firstn_all. apply (read_loop_start v cap n rounds during evs EvPolling 0); auto.
    + lia.
    + cbn. lia.
    + now rewrite app_nil_r.
    + now rewrite Hd.
  - rewrite <- fmap_take, Em in E. cbn [app Nat.add] in E.
    exists (concat (event_bytes v <$> take k evs) ++ part), k. split; [right; eauto|].
    intros rounds reads final err Hbr Hf Hd Hr.
    rewrite list_lookup_fmap in Hk. destruct (evs !! k) as [ev|] eqn:Ek; [|discriminate].
    injection Hk as <-. change (message_bytes (event_message v ev)) with (event_bytes v ev) in *.
    destruct Hp as [more Ep]. apply (read_loop_start v cap n rounds during (take k evs) ev (length part)); auto.
    + constructor; [|now apply Forall_take]. rewrite Forall_forall in Hok. apply Hok.
      eapply list_elem_of_lookup_2. exact Ek.
    + lia.
    + now rewrite Hd, Ep, take_app_length.
    + now rewrite Hd.
Qed.

(** * An event that is too short *)

Lemma handle_events_short l v more turns n during s : 0 <= l < 8 -> 1 <= v < 256 ->
  Z.of_nat (length more) < 4294967296 ->
  handle_events ops fuel (S turns) n during s (header_bytes l v kFallbackData ++ more) 0 =
    Some (mkEvent 0 l None, s).
Proof.
  intros Hl Hv Hm. cbn [handle_events]. change (Z.to_nat 0) with O. rewrite drop_0, length_app.
  change (length (header_bytes l v kFallbackData)) with 8%nat.
  rewrite (u64_id (Z.of_nat (8 + length more) - 0)) by lia.
  rewrite (proj2 (Z.ltb_ge _ kHeaderSize)) by (change kHeaderSize with 8; lia).
  rewrite header_valid by (try lia; vm_compute; split; discriminate). cbn [mbind option_bind].
  destruct (header_fields l v kFallbackData more) as (E1 & _ & _ & ->).
  cbn [mbind option_bind]. change (u8 kFallbackData) with kFallbackData.
  change (kFallbackData =? kPolling) with false. change (kFallbackData =? kStreamClose) with false.
  change (kFallbackData =? kFallbackData) with true. cbn iota. rewrite E1. cbn [mbind option_bind].
  rewrite u32_id by lia. unfold handle_fallback_data. change (drop (Z.to_nat kHeaderSize) _) with more.
  replace (u64 (l - kHeaderSize)) with (18446744073709551616 + l - 8).
  2: { change kHeaderSize with 8. unfold u64. rewrite <- (Z_mod_plus_full (l - 8) 1). symmetry.
       rewrite Z.mod_small; [lia|]. change (2 ^ 64) with 18446744073709551616. lia. }
  rewrite (proj2 (Z.ltb_lt _ _)) by lia. reflexivity.
Qed.

(** With the event in the buffer the loop neither reads nor ends. *)
Lemma read_loop_stuck l v more n during rounds : 0 <= l < 8 -> 1 <= v < 256 ->
  Z.of_nat (length more) < 4294967296 -> forall reads r s len, reader_ok r -> shutdown s = 0 ->
  BR.buffer r = header_bytes l v kFallbackData ++ more -> 0 <= len <= 8 ->
  read_loop rounds n during [] reads r len s = None.
Proof.
  intros Hl Hv Hm. induction rounds as [|rounds IH]; intros reads r s len Hr Hs Eb Hlen; [reflexivity|].
  pose proof (buffer_length r Hr) as Hbl. rewrite Eb, length_app in Hbl.
  change (length (header_bytes l v kFallbackData)) with 8%nat in Hbl.
  destruct (consume_ok r 0 Hr ltac:(lia)) as [Hr' Eb']. rewrite drop_0 in Eb'.
  cbn [read_loop]. unfold BR.fill_buf_at_least. destruct (Z.eqb_spec len 0) as [->|Hne].
  - cbn [mbind option_bind]. rewrite Hs. cbn [Z.eqb length handle_events].
    change (u64 (Z.of_nat 0 - 0) <? kHeaderSize) with true. cbn [mbind option_bind er_err er_consumed er_required].
    apply IH; auto; [now rewrite Eb'|change kHeaderSize with 8; lia].
  - rewrite (proj2 (Z.leb_le _ _)) by lia. cbn [mbind option_bind]. rewrite Hs. cbn [Z.eqb].
    rewrite Eb. change (length (header_bytes l v kFallbackData ++ more)) with (S (7 + length more)).
    rewrite handle_events_short by assumption. cbn [mbind option_bind er_err er_consumed er_required].
    apply IH; auto; [now rewrite Eb'|lia].
Qed.

(** A fallback event whose length field is below the size of a header is
    never got rid of.  Once it is at the front of the buffer the read loop
    neither handles nor refuses it and does not look at the socket again: it
    has not ended after any number of rounds, whatever the peer sends next and
    even when the connection is closed. *)
Theorem short_fallback_spins (l v cap : Z) (more : list Z) (n rounds : nat)
    (during : list (SessionShared -> SessionShared)) (reads : list read_answer) (s : SessionShared) :
  0 <= l < 8 -> 1 <= v < 256 -> 8 <= cap < 4294967296 -> shutdown s = 0 ->
  read_loop rounds n during []
    (ReadBytes (header_bytes l v kFallbackData ++ more) :: reads) (BR.make cap) kHeaderSize s = None.
Proof.
  intros Hl Hv Hc Hs. destruct rounds as [|rounds]; [reflexivity|].
  destruct (fill_at_least_ok strerror_r (BR.make cap) kHeaderSize
    [ReadBytes (header_bytes l v kFallbackData ++ more)]) as (r & rest & Ef & Hr & Ec & Hlen & Eb & _).
  { apply make_reader_ok. lia. }
  { change kHeaderSize with 8. cbn. lia. }
  { repeat constructor; discriminate. }
  { cbn [BR.make BR.buffer delivered_bytes app]. rewrite !length_app. cbn. change kHeaderSize with 8. lia. }
  change kHeaderSize with 8 in Hlen. cbn [delivered_bytes] in Eb. rewrite app_nil_r in Eb.
  change (BR.buffer (BR.make cap)) with (@nil Z) in Eb. rewrite app_nil_l in Eb.
  assert (exists more', BR.buffer r = header_bytes l v kFallbackData ++ more') as [more' Er].
  { exists (drop 8 (BR.buffer r)). rewrite <- (take_drop 8 (BR.buffer r)) at 1. f_equal.
    rewrite <- (take_app_le (BR.buffer r) (delivered_bytes rest)), <- Eb by lia. reflexivity. }
  pose proof (buffer_length r Hr) as Hbl. destruct Hr as [O1 O2 O3 O4] eqn:Ehr. clear Ehr.
  pose proof (f_equal length Er) as Lr. rewrite length_app in Lr. cbn [BR.make cap_] in Ec.
  change (length (header_bytes l v kFallbackData)) with 8%nat in Lr.
  cbn [read_loop]. apply (fill_at_least_app _ _ reads) in Ef. cbn [app] in Ef. rewrite Ef.
  cbn [mbind option_bind]. rewrite Hs. cbn [Z.eqb]. rewrite Er, <- Er, Lr.
  cbn [Nat.add]. rewrite Er, handle_events_short by (auto; lia).
  cbn [mbind option_bind er_err er_consumed er_required].
  destruct (consume_ok r 0 (Build_reader_ok r O1 O2 O3 O4) ltac:(lia)) as [Hr' Eb']. rewrite drop_0 in Eb'.
  apply (read_loop_stuck l v more'); auto; [lia|now rewrite Eb', Er|lia].
Qed.
End loops.

(** * Witnesses *)

Definition demo_events : list event := [EvStreamClose 1; EvFallback 2 kStreamOpened [7; 8]].
Definition demo_bytes : list Z := concat (event_bytes 3 <$> demo_events).

Lemma demo_events_ok : Forall (event_ok 64) demo_events.
Proof.
  apply Forall_cons_2; [cbn; lia|]. apply Forall_cons_2; [|apply Forall_nil_2].
  cbn. change kStreamOpened with 0. lia.
Qed.

Lemma read_loop_equiv_witness : exists bm s,
  read_loop (manager_ops bm) 8 (fun _ => None) 40 4 [] []
      [ReadBytes (take 3 demo_bytes); ReadEintr; ReadBytes (drop 3 demo_bytes ++ [0; 0]); ReadEof]
      (BR.make 64) kHeaderSize s =
    serve (manager_ops bm) 8 4 [] demo_events (error_io "invalid eof") s.
Proof.
  destruct demo_idle as (bm & m & _). exists bm, (demo_session false (Memory m ∅ 0) m 1 new_inner).
  apply (read_loop_equiv (manager_ops bm) 8 (fun _ => None) 3 64 4 40 [] demo_events EvPolling 2
    [ReadBytes (take 3 demo_bytes); ReadEintr; ReadBytes (drop 3 demo_bytes ++ [0; 0])] ReadEof);
    [lia|constructor; [vm_compute; discriminate|apply demo_events_ok]|lia|vm_compute; lia| |
     reflexivity|reflexivity|constructor|reflexivity|vm_compute; lia].
  repeat constructor; discriminate.
Defined.

Lemma demo_write_loop ops s : write_loop ops 8 (fun _ => None) (event_message 3 <$> demo_events)
  (replicate 40 (Wrote 1)) s [] 0 = Some (s, demo_bytes, 2%nat).
Proof. reflexivity. Qed.

Lemma events_over_socket_witness : exists bm s,
  write_loop (manager_ops bm) 8 (fun _ => None) (event_message 3 <$> demo_events)
      (replicate 40 (Wrote 1)) s [] 0 = Some (s, demo_bytes, 2%nat) /\
  read_loop (manager_ops bm) 8 (fun _ => None) 40 4 [] [] [ReadBytes demo_bytes; ReadEof]
      (BR.make 64) kHeaderSize s =
    serve (manager_ops bm) 8 4 [] demo_events (error_io "invalid eof") s.
Proof.
  destruct demo_idle as (bm & m & _). exists bm, (demo_session false (Memory m ∅ 0) m 1 new_inner).
  split; [apply demo_write_loop|].
  destruct (events_over_socket (manager_ops bm) 8 (fun _ => None) 3 64 4 [] demo_events
    (replicate 40 (Wrote 1)) (demo_session false (Memory m ∅ 0) m 1 new_inner)
    (demo_session false (Memory m ∅ 0) m 1 new_inner)) as (sent & kept & Hw & H);
    [lia|lia|apply demo_events_ok|vm_compute; exact I|constructor|reflexivity|].
  assert (sent = demo_bytes /\ kept = 2%nat) as [-> ->].
  { rewrite demo_write_loop in Hw. destruct Hw as [[E _]|[e E]]; [now injection E as <- <-|].
    destruct (exit_err _ _ _ e); cbn [mbind option_bind] in E; [now injection E as _ <- <-|discriminate]. }
  apply (H 40%nat [ReadBytes demo_bytes] ReadEof); [|reflexivity|reflexivity|vm_compute; lia].
  repeat constructor; discriminate.
Defined.

Lemma short_fallback_spins_witness : exists bm s, forall rounds,
  read_loop (manager_ops bm) 8 (fun _ => None) rounds 4 [] []
    [ReadBytes (header_bytes 4 3 kFallbackData ++ [1]); ReadEof] (BR.make 64) kHeaderSize s = None.
Proof.
  destruct demo_idle as (bm & m & _). exists bm, (demo_session false (Memory m ∅ 0) m 1 new_inner).
  intros rounds. apply (short_fallback_spins (manager_ops bm) 8 (fun _ => None) 4 3 64 [1] 4 rounds []
    [ReadEof]); [lia|lia|lia|reflexivity].
Defined.
