(* ===== verification/Channel.v ===== *)
(** Channels and events between the threads of a process:
    [include/shmipc/sync/channel.hpp] and [include/shmipc/sync/event.hpp].

    [Channel] is the state its mutex protects and the operations on it; an
    operation that has to wait has no result.  The threads, the two condition
    variables and the order in which they run are a step relation below: a
    thread that finds its condition false goes to sleep, and runs again when it
    is notified, when its time is up, or for no reason at all. *)
From S2P Require Import Prelude.

Record Channel (T : Type) := mkChannel { queue_ : list T; chan_cap : Z; stopped_ : bool }.
Arguments mkChannel {T}.
Arguments queue_ {T}.
Arguments chan_cap {T}.
Arguments stopped_ {T}.

Module Chan.
Section ops.
Context {T : Type}.

Definition make (cap : Z) : Channel T := mkChannel [] cap false.

Definition is_full (c : Channel T) : bool :=
  negb (chan_cap c =? 0) && (chan_cap c <=? Z.of_nat (length (queue_ c))).

(** The condition [push] waits for, and the one of [pop]. *)
Definition can_push (c : Channel T) : bool := stopped_ c || negb (is_full c).
Definition can_pop (c : Channel T) : bool := stopped_ c || negb (bool_decide (queue_ c = [])).

Definition push (c : Channel T) (value : T) : option (bool * Channel T) :=
  if can_push c then
    if stopped_ c then Some (false, c)
    else Some (true, mkChannel (queue_ c ++ [value]) (chan_cap c) (stopped_ c))
  else None.

(** [expired]: the time is up. *)
Definition push_timeout (c : Channel T) (value : T) (expired : bool) : option (bool * Channel T) :=
  match push c value with
  | Some r => Some r
  | None => if expired then Some (false, c) else None
  end.

Definition pop (c : Channel T) : option (option T * Channel T) :=
  if can_pop c then
    match queue_ c with
    | [] => Some (None, c)
    | value :: l => Some (Some value, mkChannel l (chan_cap c) (stopped_ c))
    end
  else None.

Definition stop (c : Channel T) : Channel T := mkChannel (queue_ c) (chan_cap c) true.
Definition stopped (c : Channel T) : bool := stopped_ c.

(** [Sender] and [Receiver], two handles of one channel; a receiver that was
    never given one stops nothing. *)
Definition send (c : Channel T) (value : T) : option (bool * Channel T) := push c value.
Definition send_timeout (c : Channel T) (value : T) (expired : bool) : option (bool * Channel T) :=
  push_timeout c value expired.
Definition recv (c : Channel T) : option (option T * Channel T) := pop c.
Definition receiver_stop (c : option (Channel T)) : option (Channel T) := stop <$> c.
End ops.
End Chan.

(** [Event]: a flag that is set once; [wait] and [wait_for] have no result while
    they wait. *)
Module Event.
Definition set (e : bool) : bool := true.
Definition is_set (e : bool) : bool := e.
Definition wait (e : bool) : option unit := if e then Some tt else None.
Definition wait_for (e expired : bool) : option bool :=
  if e then Some true else if expired then Some false else None.
End Event.

(** * The threads *)

Section threads.
Context {T : Type}.

(** A thread in one operation: about to take the mutex and look at the
    condition, asleep, about to look at it for the last time, or done. *)
Inductive task :=
  | Sending (value : T) (timed : bool)
  | SendAsleep (value : T) (timed : bool)
  | SendLast (value : T)
  | SendDone (ok : bool)
  | Receiving
  | RecvAsleep
  | RecvDone (value : option T)
  | Stopping
  | StopNotEmpty
  | StopNotFull
  | StopDone.

(** [pushed] and [popped] are what went in and out, in order. *)
Record machine := mkMachine {
  chan : Channel T; tasks : list task; pushed : list T; popped : list T;
}.

Definition wake_receiver (t : task) : task := match t with RecvAsleep => Receiving | _ => t end.
Definition wake_sender (t : task) : task := match t with SendAsleep v b => Sending v b | _ => t end.

(** [notify_one]: one of those that sleep, if there is one. *)
Inductive notify_one (wake : task -> task) (asleep : task -> Prop) (ts : list task) : list task -> Prop :=
  | notify_some j t : ts !! j = Some t -> asleep t -> notify_one wake asleep ts (<[j := wake t]> ts)
  | notify_none : (forall t, t ∈ ts -> ~ asleep t) -> notify_one wake asleep ts ts.

Definition receiver_asleep (t : task) : Prop := t = RecvAsleep.
Definition sender_asleep (t : task) : Prop := exists v b, t = SendAsleep v b.

(** A step a thread takes by itself once it may take the mutex. *)
Inductive work : machine -> machine -> Prop :=
  | work_push c c' ts ts' i t v xs ys :
      ts !! i = Some t -> (exists b, t = Sending v b) \/ t = SendLast v ->
      Chan.push c v = Some (true, c') ->
      notify_one wake_receiver receiver_asleep (<[i := SendDone true]> ts) ts' ->
      work (mkMachine c ts xs ys) (mkMachine c' ts' (xs ++ [v]) ys)
  | work_push_refused c ts i t v xs ys :
      ts !! i = Some t -> (exists b, t = Sending v b) \/ t = SendLast v ->
      Chan.push c v = Some (false, c) ->
      work (mkMachine c ts xs ys) (mkMachine c (<[i := SendDone false]> ts) xs ys)
  | work_push_sleep c ts i v b xs ys :
      ts !! i = Some (Sending v b) -> Chan.push_timeout c v false = None ->
      work (mkMachine c ts xs ys) (mkMachine c (<[i := SendAsleep v b]> ts) xs ys)
  | work_push_late c ts i v xs ys :
      ts !! i = Some (SendLast v) -> Chan.push c v = None ->
      Chan.push_timeout c v true = Some (false, c) ->
      work (mkMachine c ts xs ys) (mkMachine c (<[i := SendDone false]> ts) xs ys)
  | work_pop c c' ts ts' i v xs ys :
      ts !! i = Some Receiving -> Chan.pop c = Some (Some v, c') ->
      notify_one wake_sender sender_asleep (<[i := RecvDone (Some v)]> ts) ts' ->
      work (mkMachine c ts xs ys) (mkMachine c' ts' xs (ys ++ [v]))
  | work_pop_end c ts i xs ys :
      ts !! i = Some Receiving -> Chan.pop c = Some (None, c) ->
      work (mkMachine c ts xs ys) (mkMachine c (<[i := RecvDone None]> ts) xs ys)
  | work_pop_sleep c ts i xs ys :
      ts !! i = Some Receiving -> Chan.pop c = None ->
      work (mkMachine c ts xs ys) (mkMachine c (<[i := RecvAsleep]> ts) xs ys)
  | work_stop c ts i xs ys :
      ts !! i = Some Stopping ->
      work (mkMachine c ts xs ys) (mkMachine (Chan.stop c) (<[i := StopNotEmpty]> ts) xs ys)
  | work_stop_not_empty c ts i xs ys :
      ts !! i = Some StopNotEmpty ->
      work (mkMachine c ts xs ys) (mkMachine c (wake_receiver <$> <[i := StopNotFull]> ts) xs ys)
  | work_stop_not_full c ts i xs ys :
      ts !! i = Some StopNotFull ->
      work (mkMachine c ts xs ys) (mkMachine c (wake_sender <$> <[i := StopDone]> ts) xs ys).

(** What comes from outside: a new operation, a timeout, a wake-up without a
    notification. *)
Inductive outside : machine -> machine -> Prop :=
  | outside_call c ts t xs ys :
      (exists v b, t = Sending v b) \/ t = Receiving \/ t = Stopping ->
      outside (mkMachine c ts xs ys) (mkMachine c (ts ++ [t]) xs ys)
  | outside_timeout c ts i v xs ys :
      ts !! i = Some (SendAsleep v true) ->
      outside (mkMachine c ts xs ys) (mkMachine c (<[i := SendLast v]> ts) xs ys)
  | outside_spurious c ts i t xs ys :
      ts !! i = Some t ->
      outside (mkMachine c ts xs ys) (mkMachine c (<[i := wake_sender (wake_receiver t)]> ts) xs ys).

Definition channel_step (m m' : machine) : Prop := work m m' \/ outside m m'.
Definition initial (cap : Z) : machine := mkMachine (Chan.make cap) [] [] [].

(** * Counting threads *)

Definition count (f : task -> nat) (ts : list task) : nat := sum_list_with f ts.

Definition recv_awake (t : task) : nat := match t with Receiving => 1 | _ => 0 end.
Definition recv_asleep (t : task) : nat := match t with RecvAsleep => 1 | _ => 0 end.
Definition send_awake (t : task) : nat := match t with Sending _ _ | SendLast _ => 1 | _ => 0 end.
Definition send_asleep (t : task) : nat := match t with SendAsleep _ _ => 1 | _ => 0 end.
(** Threads that are going to notify all receivers, and all senders. *)
Definition will_notify_recv (t : task) : nat := match t with StopNotEmpty => 1 | _ => 0 end.
Definition will_notify_send (t : task) : nat :=
  match t with StopNotEmpty | StopNotFull => 1 | _ => 0 end.
(** Operations that have put a value in, and that have taken one out. *)
Definition has_sent (t : task) : nat := match t with SendDone true => 1 | _ => 0 end.
Definition has_received (t : task) : nat := match t with RecvDone (Some _) => 1 | _ => 0 end.
(** The notifications left to a thread that stops the channel. *)
Definition stop_left (t : task) : nat :=
  match t with Stopping => 3 | StopNotEmpty => 2 | StopNotFull => 1 | _ => 0 end.
(** What is left to a thread in [push] or [pop]. *)
Definition op_left (t : task) : nat :=
  match t with
  | Sending _ _ | SendLast _ | Receiving => 3
  | SendAsleep _ _ | RecvAsleep => 2
  | _ => 0
  end.

Lemma count_insert f i t t' ts : ts !! i = Some t ->
  (count f (<[i := t']> ts) + f t = count f ts + f t')%nat.
Proof.
  unfold count. revert i. induction ts as [|x ts IH]; intros [|i] H; simplify_eq/=; [lia|].
  specialize (IH i H). lia.
Qed.

Lemma count_app f ts ts' : (count f (ts ++ ts') = count f ts + count f ts')%nat.
Proof. apply sum_list_with_app. Qed.

Lemma count_fmap f g ts : count f (g <$> ts) = count (f ∘ g) ts.
Proof. unfold count. induction ts as [|t ts IH]; cbn in *; [reflexivity|]. now rewrite IH. Qed.

Lemma count_ext f g ts : (forall t, f t = g t) -> count f ts = count g ts.
Proof. unfold count. intros H. induction ts as [|t ts IH]; cbn; [reflexivity|]. now rewrite H, IH. Qed.

Lemma count_le f g ts : (forall t, f t <= g t)%nat -> (count f ts <= count g ts)%nat.
Proof. unfold count. intros H. induction ts as [|t ts IH]; cbn; [lia|]. specialize (H t). lia. Qed.

Lemma count_pos f ts t : t ∈ ts -> (f t <= count f ts)%nat.
Proof. unfold count. intros H. induction H as [|x y ts H IH]; cbn; lia. Qed.

Lemma count_zero f ts : (forall t, t ∈ ts -> f t = 0%nat) -> count f ts = 0%nat.
Proof.
  unfold count. intros H. induction ts as [|t ts IH]; cbn; [reflexivity|]. rewrite (H t) by constructor.
  apply IH. intros t' Ht'. apply H. now constructor.
Qed.

(** Replacing thread [i], in every count the invariant is about. *)
Ltac replaced H t' :=
  pose proof (count_insert recv_awake _ _ t' _ H);
  pose proof (count_insert recv_asleep _ _ t' _ H);
  pose proof (count_insert send_awake _ _ t' _ H);
  pose proof (count_insert send_asleep _ _ t' _ H);
  pose proof (count_insert will_notify_recv _ _ t' _ H);
  pose proof (count_insert will_notify_send _ _ t' _ H);
  pose proof (count_insert has_sent _ _ t' _ H);
  pose proof (count_insert has_received _ _ t' _ H);
  pose proof (count_insert stop_left _ _ t' _ H);
  pose proof (count_insert op_left _ _ t' _ H);
  cbn [recv_awake recv_asleep send_awake send_asleep will_notify_recv will_notify_send has_sent
       has_received stop_left op_left] in *.

(** The counts a notification leaves alone. *)
Definition same_stops (ts ts' : list task) : Prop :=
  count will_notify_recv ts' = count will_notify_recv ts /\
  count will_notify_send ts' = count will_notify_send ts /\
  count has_sent ts' = count has_sent ts /\ count has_received ts' = count has_received ts /\
  count stop_left ts' = count stop_left ts /\ length ts' = length ts.

Lemma notify_receiver ts ts' : notify_one wake_receiver receiver_asleep ts ts' ->
  (count recv_asleep ts = 0%nat /\ ts' = ts \/
   count recv_asleep ts = S (count recv_asleep ts') /\
   count recv_awake ts' = S (count recv_awake ts) /\ count op_left ts' = S (count op_left ts)) /\
  count send_awake ts' = count send_awake ts /\ count send_asleep ts' = count send_asleep ts /\
  same_stops ts ts'.
Proof.
  unfold same_stops. intros [j t Hj ->|Hn].
  - cbn [wake_receiver]. rewrite length_insert. replaced Hj Receiving. lia.
  - split; [left|repeat split]. split; [|reflexivity]. apply count_zero.
    intros t Ht. specialize (Hn t Ht). destruct t; try reflexivity. now destruct Hn.
Qed.

Lemma notify_sender ts ts' : notify_one wake_sender sender_asleep ts ts' ->
  (count send_asleep ts = 0%nat /\ ts' = ts \/
   count send_asleep ts = S (count send_asleep ts') /\
   count send_awake ts' = S (count send_awake ts) /\ count op_left ts' = S (count op_left ts)) /\
  count recv_awake ts' = count recv_awake ts /\ count recv_asleep ts' = count recv_asleep ts /\
  same_stops ts ts'.
Proof.
  unfold same_stops. intros [j t Hj (v & b & ->)|Hn].
  - cbn [wake_sender]. rewrite length_insert. replaced Hj (Sending v b). lia.
  - split; [left|repeat split]. split; [|reflexivity]. apply count_zero.
    intros t Ht. specialize (Hn t Ht). destruct t; try reflexivity. destruct Hn. eexists _, _. reflexivity.
Qed.

Lemma notify_one_exists (wake : task -> task) (asleep : task -> Prop) `{forall t, Decision (asleep t)} ts :
  exists ts', notify_one wake asleep ts ts'.
Proof.
  destruct (decide (Exists asleep ts)) as [H1|H1].
  - apply Exists_exists in H1 as (t & Ht & Ha). apply list_elem_of_lookup in Ht as [j Hj].
    eexists. econstructor; eauto.
  - exists ts. apply notify_none. intros t Ht Ha. apply H1. apply Exists_exists. eauto.
Qed.

(** * The invariant *)

Record chan_inv (cap : Z) (m : machine) : Prop := {
  ci_cap : chan_cap (chan m) = cap;
  ci_fifo : pushed m = popped m ++ queue_ (chan m);
  ci_bound : cap = 0 \/ Z.of_nat (length (queue_ (chan m))) <= cap;
  (** receivers sleep only while those awake can take all there is *)
  ci_recv : (0 < count recv_asleep (tasks m))%nat ->
    (length (queue_ (chan m)) <= count recv_awake (tasks m))%nat;
  (** senders sleep only while those awake can fill all that is free *)
  ci_send : (0 < count send_asleep (tasks m))%nat -> stopped_ (chan m) = false ->
    cap <> 0 /\ cap - Z.of_nat (length (queue_ (chan m))) <= Z.of_nat (count send_awake (tasks m));
  (** once it is stopped whoever sleeps is going to be notified *)
  ci_stop_recv : stopped_ (chan m) = true -> (0 < count recv_asleep (tasks m))%nat ->
    (0 < count will_notify_recv (tasks m))%nat;
  ci_stop_send : stopped_ (chan m) = true -> (0 < count send_asleep (tasks m))%nat ->
    (0 < count will_notify_send (tasks m))%nat;
  (** what went in was reported as sent, what went out was returned *)
  ci_sent : count has_sent (tasks m) = length (pushed m);
  ci_received : count has_received (tasks m) = length (popped m);
}.

Lemma chan_push_ok (c c' : Channel T) v : Chan.push c v = Some (true, c') ->
  c' = mkChannel (queue_ c ++ [v]) (chan_cap c) false /\ stopped_ c = false /\
  (chan_cap c = 0 \/ Z.of_nat (length (queue_ c)) < chan_cap c).
Proof.
  unfold Chan.push, Chan.can_push, Chan.is_full. destruct (stopped_ c); cbn; [discriminate|].
  destruct (Z.eqb_spec (chan_cap c) 0); cbn; [intros; simplify_eq; auto|].
  destruct (Z.leb_spec (chan_cap c) (Z.of_nat (length (queue_ c)))); cbn; intros; simplify_eq; auto.
Qed.

Lemma push_refused (c c' : Channel T) v : Chan.push c v = Some (false, c') -> stopped_ c = true.
Proof.
  unfold Chan.push. destruct (stopped_ c); [reflexivity|]. destruct (Chan.can_push c); discriminate.
Qed.

Lemma push_waits (c : Channel T) v : Chan.push c v = None ->
  stopped_ c = false /\ Chan.is_full c = true /\ chan_cap c <> 0 /\
  chan_cap c <= Z.of_nat (length (queue_ c)).
Proof.
  unfold Chan.push, Chan.can_push, Chan.is_full. destruct (stopped_ c); cbn; [discriminate|].
  destruct (Z.eqb_spec (chan_cap c) 0); cbn; [discriminate|].
  destruct (Z.leb_spec (chan_cap c) (Z.of_nat (length (queue_ c)))); cbn; [auto|discriminate].
Qed.

Lemma chan_pop_ok (c c' : Channel T) v : Chan.pop c = Some (Some v, c') ->
  queue_ c = v :: queue_ c' /\ chan_cap c' = chan_cap c /\ stopped_ c' = stopped_ c.
Proof. unfold Chan.pop. destruct (Chan.can_pop c), (queue_ c) eqn:E; intros; simplify_eq; auto. Qed.

Lemma pop_waits (c : Channel T) : Chan.pop c = None -> queue_ c = [] /\ stopped_ c = false.
Proof.
  unfold Chan.pop, Chan.can_pop. destruct (stopped_ c), (queue_ c); cbn; intros; try discriminate; auto.
Qed.

Lemma pop_end (c c' : Channel T) : Chan.pop c = Some (None, c') -> queue_ c = [] /\ stopped_ c = true.
Proof.
  unfold Chan.pop, Chan.can_pop. destruct (stopped_ c), (queue_ c); cbn; intros; try discriminate; auto.
Qed.

Lemma count_wake_receivers ts : count recv_asleep (wake_receiver <$> ts) = 0%nat.
Proof.
  rewrite count_fmap. apply count_zero. now intros [] _.
Qed.
Lemma count_wake_senders ts : count send_asleep (wake_sender <$> ts) = 0%nat.
Proof. rewrite count_fmap. apply count_zero. now intros [] _. Qed.

(** A wake-up of all leaves the counts of the others alone. *)
Lemma count_wake f g ts : (forall t, f (g t) = f t) -> count f (g <$> ts) = count f ts.
Proof. intros H. rewrite count_fmap. now apply count_ext. Qed.

(** Each clause from the old one that it needs. *)
Ltac by_clauses I5 I6 I7 :=
  constructor; cbn [chan tasks pushed popped queue_ chan_cap stopped_ Chan.stop]; intros;
  rewrite ?length_app; cbn [length]; auto;
  try congruence;
  first [ lia | specialize (I5 ltac:(lia) ltac:(congruence)); lia
        | specialize (I6 ltac:(congruence)); lia | specialize (I7 ltac:(congruence)); lia | idtac ].

Lemma work_inv cap m m' : 0 <= cap -> chan_inv cap m -> work m m' -> chan_inv cap m'.
Proof.
  intros Hcap [I1 I2 I3 I4 I5 I6 I7 I8 I9] Hw.
  destruct Hw as [c c' ts ts' i t v xs ys Hi Ht Hp Hn|c ts i t v xs ys Hi Ht Hp|c ts i v b xs ys Hi Hp
    |c ts i v xs ys Hi Hp _|c c' ts ts' i v xs ys Hi Hp Hn|c ts i xs ys Hi Hp|c ts i xs ys Hi Hp
    |c ts i xs ys Hi|c ts i xs ys Hi|c ts i xs ys Hi]; cbn [chan tasks pushed popped] in *.
  - apply chan_push_ok in Hp as (-> & Hs & Hroom).
    apply notify_receiver in Hn as (Hr' & Hs1 & Hs2 & Hn1 & Hn2 & Hn3 & Hn4 & _).
    assert (count send_awake (<[i := SendDone true]> ts) + 1 = count send_awake ts /\
      count send_asleep (<[i := SendDone true]> ts) = count send_asleep ts /\
      count recv_asleep (<[i := SendDone true]> ts) = count recv_asleep ts /\
      count recv_awake (<[i := SendDone true]> ts) = count recv_awake ts /\
      count has_sent (<[i := SendDone true]> ts) = S (count has_sent ts) /\
      count has_received (<[i := SendDone true]> ts) = count has_received ts)%nat
      as (Ha & Hb & Hc & Hd & He & Hg)
      by (destruct Ht as [[b ->]| ->]; replaced Hi (SendDone true); lia).
    assert (count recv_asleep ts' = 0%nat \/
      count recv_asleep ts = S (count recv_asleep ts') /\ count recv_awake ts' = S (count recv_awake ts)) as Hr
      by (destruct Hr' as [[Hr' ->]|Hr']; lia). clear Hr'.
    constructor; cbn [chan tasks pushed popped queue_ chan_cap stopped_]; rewrite ?length_app;
      cbn [length]; intros; try congruence; try lia.
    + rewrite I2. now rewrite app_assoc.
    + specialize (I5 ltac:(lia) Hs). lia.
  - apply push_refused in Hp. destruct Ht as [[b ->]| ->]; replaced Hi (SendDone false); by_clauses I5 I6 I7.
  - unfold Chan.push_timeout in Hp. destruct (Chan.push c v) eqn:Ep; [discriminate|].
    apply push_waits in Ep as (Hs & _ & Hc & Hf). replaced Hi (SendAsleep v b). by_clauses I5 I6 I7.
  - apply push_waits in Hp as (Hs & _ & Hc & Hf). replaced Hi (SendDone false). by_clauses I5 I6 I7.
  - apply chan_pop_ok in Hp as (Hq & Hc & Hs). apply notify_sender in Hn as (Hr' & Hs1 & Hs2 & Hn1 & Hn2 & Hn3 & Hn4 & _).
    replaced Hi (RecvDone (Some v)).
    assert (count send_asleep ts' = 0%nat \/
      count send_asleep ts = S (count send_asleep ts') /\ count send_awake ts' = S (count send_awake ts)) as Hr
      by (destruct Hr' as [[Hr' ->]|Hr']; lia). clear Hr'.
    assert (length (queue_ c) = S (length (queue_ c'))) as Hl by now rewrite Hq.
    by_clauses I5 I6 I7. rewrite I2, Hq, <- app_assoc. reflexivity.
  - apply pop_end in Hp as (Hq & Hs). apply (f_equal length) in Hq. cbn in Hq.
    replaced Hi (RecvDone None). by_clauses I5 I6 I7.
  - apply pop_waits in Hp as (Hq & Hs). apply (f_equal length) in Hq. cbn in Hq.
    replaced Hi RecvAsleep. by_clauses I5 I6 I7.
  - replaced Hi StopNotEmpty. by_clauses I5 I6 I7.
  - pose proof (count_wake_receivers (<[i := StopNotFull]> ts)).
    pose proof (count_wake send_awake wake_receiver (<[i := StopNotFull]> ts) ltac:(now intros [])).
    pose proof (count_wake send_asleep wake_receiver (<[i := StopNotFull]> ts) ltac:(now intros [])).
    pose proof (count_wake will_notify_send wake_receiver (<[i := StopNotFull]> ts) ltac:(now intros [])).
    pose proof (count_wake has_sent wake_receiver (<[i := StopNotFull]> ts) ltac:(now intros [])).
    pose proof (count_wake has_received wake_receiver (<[i := StopNotFull]> ts) ltac:(now intros [])).
    replaced Hi StopNotFull. by_clauses I5 I6 I7.
  - pose proof (count_wake_senders (<[i := StopDone]> ts)).
    pose proof (count_wake recv_awake wake_sender (<[i := StopDone]> ts) ltac:(now intros [])).
    pose proof (count_wake recv_asleep wake_sender (<[i := StopDone]> ts) ltac:(now intros [])).
    pose proof (count_wake will_notify_recv wake_sender (<[i := StopDone]> ts) ltac:(now intros [])).
    pose proof (count_wake has_sent wake_sender (<[i := StopDone]> ts) ltac:(now intros [])).
    pose proof (count_wake has_received wake_sender (<[i := StopDone]> ts) ltac:(now intros [])).
    replaced Hi StopDone. by_clauses I5 I6 I7.
Qed.

Lemma outside_inv cap m m' : chan_inv cap m -> outside m m' -> chan_inv cap m'.
Proof.
  intros [I1 I2 I3 I4 I5 I6 I7 I8 I9] Ho.
  destruct Ho as [c ts t xs ys Ht|c ts i v xs ys Hi|c ts i t xs ys Hi]; cbn [chan tasks pushed popped] in *.
  - assert (forall f, count f (ts ++ [t]) = count f ts + f t)%nat as Ha
      by (intros f; rewrite count_app; cbn; lia).
    pose proof (Ha recv_awake). pose proof (Ha recv_asleep). pose proof (Ha send_awake).
    pose proof (Ha send_asleep). pose proof (Ha will_notify_recv). pose proof (Ha will_notify_send).
    pose proof (Ha has_sent). pose proof (Ha has_received).
    destruct Ht as [(v & b & ->)|[->| ->]];
      cbn [recv_awake recv_asleep send_awake send_asleep will_notify_recv will_notify_send has_sent
           has_received] in *;
      by_clauses I5 I6 I7.
  - replaced Hi (SendLast v). by_clauses I5 I6 I7.
  - destruct t; cbn [wake_receiver wake_sender];
      match goal with |- chan_inv _ (mkMachine _ (<[_ := ?t']> _) _ _) => replaced Hi t' end;
      by_clauses I5 I6 I7.
Qed.

Lemma initial_inv cap : 0 <= cap -> chan_inv cap (initial cap).
Proof. intros H. constructor; cbn; intros; auto; lia. Qed.

Lemma channel_reachable cap m : 0 <= cap -> rtc channel_step (initial cap) m -> chan_inv cap m.
Proof.
  intros Hcap Hr. eapply (rtc_invariant channel_step); [|now apply initial_inv|exact Hr].
  intros x y Hx [Hw|Ho]; [exact (work_inv cap x y Hcap Hx Hw)|exact (outside_inv cap x y Hx Ho)].
Qed.

(** * Progress and termination *)

(** A thread that has something to do, other than sleeping. *)
Definition awake (t : task) : Prop :=
  match t with
  | Sending _ _ | SendLast _ | Receiving | Stopping | StopNotEmpty | StopNotFull => True
  | _ => False
  end.

#[local] Instance receiver_asleep_dec t : Decision (receiver_asleep t).
Proof. unfold receiver_asleep. destruct t; (left; reflexivity) || (right; discriminate). Defined.
#[local] Instance sender_asleep_dec t : Decision (sender_asleep t).
Proof.
  unfold sender_asleep. destruct t; try (right; intros (?&?&?); discriminate). left. eauto.
Defined.

(** A sender that is awake has a step, whatever the channel. *)
Lemma sender_works c ts i t v xs ys : ts !! i = Some t ->
  (exists b, t = Sending v b) \/ t = SendLast v -> exists m', work (mkMachine c ts xs ys) m'.
Proof.
  intros Hi Ht. destruct (Chan.push c v) as [[[|] c']|] eqn:Ep.
  - destruct (notify_one_exists wake_receiver receiver_asleep (<[i := SendDone true]> ts)) as [ts' Hn].
    eexists. eapply work_push; eauto.
  - assert (c' = c) as -> by (unfold Chan.push in Ep; repeat case_match; simplify_eq; reflexivity).
    eexists. eapply work_push_refused; eauto.
  - destruct Ht as [[b ->]| ->]; eexists.
    + eapply work_push_sleep; [exact Hi|]. unfold Chan.push_timeout. now rewrite Ep.
    + eapply work_push_late; [exact Hi|exact Ep|]. unfold Chan.push_timeout. now rewrite Ep.
Qed.

Lemma awake_works m t : t ∈ tasks m -> awake t -> exists m', work m m'.
Proof.
  intros Ht Ha. apply list_elem_of_lookup in Ht as [i Hi]. destruct m as [c ts xs ys]. cbn in Hi.
  destruct t; try contradiction.
  - eapply sender_works; eauto.
  - eapply sender_works; eauto.
  - destruct (Chan.pop c) as [[[v|] c']|] eqn:Ep.
    + destruct (notify_one_exists wake_sender sender_asleep (<[i := RecvDone (Some v)]> ts)) as [ts' Hn].
      eexists. eapply work_pop; eauto.
    + assert (c' = c) as -> by (unfold Chan.pop in Ep; repeat case_match; simplify_eq; reflexivity).
      eexists. eapply work_pop_end; eauto.
    + eexists. eapply work_pop_sleep; eauto.
  - eexists. eapply work_stop; eauto.
  - eexists. eapply work_stop_not_empty; eauto.
  - eexists. eapply work_stop_not_full; eauto.
Qed.

(** What is left to do: the notifications of a stop wake up at most everyone. *)
Definition left_to_do (m : machine) : nat :=
  count stop_left (tasks m) * S (3 * length (tasks m)) + count op_left (tasks m).

Lemma op_left_bound ts : (count op_left ts <= 3 * length ts)%nat.
Proof.
  unfold count. induction ts as [|t ts IH]; cbn; [lia|].
  assert (op_left t <= 3)%nat by (destruct t; cbn; lia). lia.
Qed.

Lemma work_decreases m m' : work m m' -> (left_to_do m' < left_to_do m)%nat.
Proof.
  unfold left_to_do. intros Hw.
  destruct Hw as [c c' ts ts' i t v xs ys Hi Ht Hp Hn|c ts i t v xs ys Hi Ht Hp|c ts i v b xs ys Hi Hp
    |c ts i v xs ys Hi Hp _|c c' ts ts' i v xs ys Hi Hp Hn|c ts i xs ys Hi Hp|c ts i xs ys Hi Hp
    |c ts i xs ys Hi|c ts i xs ys Hi|c ts i xs ys Hi]; cbn [tasks]; rewrite ?length_fmap, ?length_insert.
  - apply notify_receiver in Hn as (Hr & _ & _ & _ & _ & _ & _ & -> & ->). rewrite length_insert.
    assert (count stop_left (<[i := SendDone true]> ts) = count stop_left ts /\
      count op_left (<[i := SendDone true]> ts) + 3 = count op_left ts)%nat as (-> & Hb)
      by (destruct Ht as [[b ->]| ->]; replaced Hi (SendDone true); lia).
    destruct Hr as [[_ ->]|Hr]; lia.
  - destruct Ht as [[b ->]| ->]; replaced Hi (SendDone false); nia.
  - replaced Hi (SendAsleep v b). nia.
  - replaced Hi (SendDone false). nia.
  - apply notify_sender in Hn as (Hr & _ & _ & _ & _ & _ & _ & -> & ->). rewrite length_insert.
    replaced Hi (RecvDone (Some v)).
    destruct Hr as [[_ ->]|Hr]; nia.
  - replaced Hi (RecvDone None). nia.
  - replaced Hi RecvAsleep. nia.
  - replaced Hi StopNotEmpty. nia.
  - rewrite (count_wake stop_left) by now intros [].
    pose proof (op_left_bound (wake_receiver <$> <[i := StopNotFull]> ts)) as Hb.
    rewrite length_fmap, length_insert in Hb. replaced Hi StopNotFull. nia.
  - rewrite (count_wake stop_left) by now intros [].
    pose proof (op_left_bound (wake_sender <$> <[i := StopDone]> ts)) as Hb.
    rewrite length_fmap, length_insert in Hb. replaced Hi StopDone. nia.
Qed.

(** A thread that sleeps has a reason to. *)
Definition settled (c : Channel T) (t : task) : Prop :=
  match t with
  | SendAsleep _ _ => Chan.is_full c = true /\ stopped_ c = false
  | RecvAsleep => queue_ c = [] /\ stopped_ c = false
  | SendDone _ | RecvDone _ | StopDone => True
  | _ => False
  end.

Lemma idle_settled cap m : 0 <= cap -> chan_inv cap m -> (forall m', ~ work m m') ->
  Forall (settled (chan m)) (tasks m).
Proof.
  intros Hcap [I1 I2 I3 I4 I5 I6 I7 I8 I9] Hidle.
  assert (forall t, t ∈ tasks m -> ~ awake t) as Hno
    by (intros t Ht Ha; destruct (awake_works m t Ht Ha) as [m' Hm']; exact (Hidle m' Hm')).
  assert (count recv_awake (tasks m) = 0%nat /\ count send_awake (tasks m) = 0%nat /\
    count will_notify_recv (tasks m) = 0%nat /\ count will_notify_send (tasks m) = 0%nat)
    as (Z1 & Z2 & Z3 & Z4).
  { repeat split; apply count_zero; intros t Ht; specialize (Hno t Ht); destruct t; cbn in *; tauto. }
  apply Forall_forall. intros t Ht. specialize (Hno t Ht).
  destruct t; cbn in *; try tauto.
  - pose proof (count_pos send_asleep _ _ Ht) as Hp. cbn in Hp.
    destruct (stopped_ (chan m)); [specialize (I7 eq_refl ltac:(lia)); lia|].
    destruct (I5 ltac:(lia) eq_refl) as [Hne Hf]. split; [|reflexivity]. unfold Chan.is_full.
    rewrite I1, (proj2 (Z.eqb_neq cap 0)), (proj2 (Z.leb_le _ _)) by lia. reflexivity.
  - pose proof (count_pos recv_asleep _ _ Ht) as Hp. cbn in Hp.
    destruct (stopped_ (chan m)); [specialize (I6 eq_refl ltac:(lia)); lia|].
    split; [|reflexivity]. apply nil_length_inv. lia.
Qed.

Lemma work_bounded n m m' : nsteps work n m m' -> (n <= left_to_do m)%nat.
Proof.
  induction 1 as [|n x y z Hxy _ IH]; [lia|]. apply work_decreases in Hxy. lia.
Qed.

(** C10: a channel is a bounded queue.  However its threads are scheduled, the
    values come out in the order in which they went in, each once; a value is in
    the channel or was handed out exactly when its [push] returned true; and a
    channel with a capacity never holds more. *)
Theorem channel_fifo (cap : Z) (m : machine) : 0 <= cap -> rtc channel_step (initial cap) m ->
  pushed m = popped m ++ queue_ (chan m) /\
  count has_sent (tasks m) = length (pushed m) /\ count has_received (tasks m) = length (popped m) /\
  (cap <> 0 -> Z.of_nat (length (queue_ (chan m))) <= cap).
Proof.
  intros Hcap Hr. destruct (channel_reachable cap m Hcap Hr) as [I1 I2 I3 I4 I5 I6 I7 I8 I9].
  repeat split; auto. intros Hne. destruct I3; [contradiction|assumption].
Qed.

(** C11: no notification is lost and every wait that can end ends.  From any
    reachable state the threads come to rest after a bounded number of steps of
    their own; then every operation has returned, except senders asleep on a
    full channel and receivers asleep on an empty one, and none is asleep on a
    channel that was stopped. *)
Theorem channel_settles (cap : Z) (m : machine) : 0 <= cap -> rtc channel_step (initial cap) m ->
  (forall n m', nsteps work n m m' -> (n <= left_to_do m)%nat) /\
  (forall m', rtc work m m' -> (forall m'', ~ work m' m'') -> Forall (settled (chan m')) (tasks m')).
Proof.
  intros Hcap Hr. split; [intros n m'; apply work_bounded|]. intros m' Hw Hidle.
  apply (idle_settled cap); [exact Hcap| |exact Hidle].
  eapply rtc_invariant; [|exact (channel_reachable cap m Hcap Hr)|exact Hw].
  intros x y Hx Hy. exact (work_inv cap x y Hcap Hx Hy).
Qed.
End threads.

(** * Witnesses *)

(** A receiver goes to sleep, a sender wakes it up, and it takes the value. *)
Definition demo_end : machine (T := Z) :=
  mkMachine (Chan.make 1) [RecvDone (Some 7); SendDone true] [7] [7].

Lemma demo_run : rtc channel_step (initial 1) demo_end.
Proof.
  eapply rtc_l. { right. apply (outside_call _ [] Receiving). auto. }
  eapply rtc_l. { left. eapply (work_pop_sleep _ _ 0); reflexivity. }
  eapply rtc_l. { right. apply (outside_call _ [RecvAsleep] (Sending 7 false)). eauto. }
  eapply rtc_l.
  { left. eapply (work_push _ _ _ _ 1 _ 7); [reflexivity|eauto|reflexivity|].
    apply (notify_some _ _ _ 0 RecvAsleep); reflexivity. }
  eapply rtc_l; [|apply rtc_refl]. left. eapply (work_pop _ _ _ _ 0 7); [reflexivity|reflexivity|].
  apply notify_none. intros t Ht (v & b & ->). cbn in Ht.
  apply elem_of_cons in Ht as [Ht|Ht]; [discriminate|]. apply list_elem_of_singleton in Ht. discriminate.
Qed.

Lemma channel_fifo_witness : pushed demo_end = popped demo_end ++ [] /\
  count has_sent (tasks demo_end) = 1%nat.
Proof.
  destruct (channel_fifo 1 demo_end ltac:(lia) demo_run) as (H1 & H2 & _). split; [exact H1|exact H2].
Defined.

Lemma channel_settles_witness : Forall (settled (chan demo_end)) (tasks demo_end).
Proof.
  destruct (channel_settles 1 demo_end ltac:(lia) demo_run) as [_ H]. apply (H demo_end); [apply rtc_refl|].
  intros m'' Hw. apply work_decreases in Hw. vm_compute in Hw. lia.
Defined.
