(* ===== verification/SessionThreads.v ===== *)
(** The threads of a session and its end ([src/session.cpp]): the loops
    [Session::create] starts, [recv_loop] of a server, the timer of the circuit
    breaker, [Session::close], and [~SessionShared], which runs on the thread
    that lets the last reference go.

    A state holds what the threads share and where each of them is; a step is
    one access to it, or one call that may have to wait and then has no result.
    What the operations do to streams and mappings is in [Session] and
    [Lifecycle]; here a stream of the table counts as the reference it is.  The
    program's own handles, [Session] and [Stream] objects, are threads that call
    the session. *)
From S2P Require Import Prelude Channel.

(** What is left of [Session::close] after the exchange of [shutdown]. *)
Inductive closing := CEvent | CStreams | CStopSend | CStopAccept | CShutdown.

(** What is left of [~SessionShared]. *)
Inductive destroying := DStop | DBreaker | DShutdown | DStopSend | DStopAccept | DJoinRead | DJoinWrite.

(** Where a thread is. *)
Inductive tpc :=
| UIdle                     (* a handle of the program, outside the session *)
| UClose (k : closing)
| UOpen                     (* [open_stream], past the test of [is_closed] *)
| UBreak                    (* [open_circuit_breaker], past the exchange *)
| ULocked                   (* the same, with [breaker_mtx] *)
| RRead                     (* [read_loop]: in [fill_buf_at_least] *)
| RCheck (ok : bool)        (* it returned *)
| RHandle                   (* [handle_events] *)
| RPush                     (* [get_stream], handing the new stream on *)
| RExit                     (* [exit_err], before the exchange of [close] *)
| RClose (k : closing)
| RDone                     (* returning: the [ReadHalf] closes the descriptor *)
| WRecv | WWrite | WExit | WClose (k : closing) | WDone
| VStore | VRecv | VSend    (* [recv_loop] *)
| BStart | BWait | BStore   (* the timer *)
| Drop                      (* letting its reference go *)
| Destroy (k : destroying)
| Exit                      (* returning from the thread's function *)
| Ended.

#[export] Instance closing_eq : EqDecision closing.
Proof. solve_decision. Defined.
#[export] Instance destroying_eq : EqDecision destroying.
Proof. solve_decision. Defined.
#[export] Instance tpc_eq : EqDecision tpc.
Proof. solve_decision. Defined.

(** The number [conn_fd] in the descriptor table of the process. *)
Inductive slot_owner := Mine | Free | Other.

Record sess := mkSess {
  shut : bool;                 (* shutdown *)
  shut_event : bool;
  unhealthy_ : bool;
  breaker_stop : bool;
  table : nat;                 (* streams in the table *)
  send_channel : Channel unit;
  accept_channel : Channel unit;
  accept_stored : bool;        (* recv_loop has stored its receiver *)
  down : bool;                 (* the connection was shut down *)
  conn : slot_owner;
  hit_other : bool;            (* a descriptor of somebody else was shut down *)
  breaker_mtx : option nat;
  breaker_thread : option nat;
  dead : bool;                 (* the destructor was entered *)
  ts : list tpc;
}.

(** The threads [create] starts come first. *)
Definition reader : nat := 0.
Definition writer : nat := 1.

(** Does the thread hold a reference to the [SessionShared]? *)
Definition holds (pc : tpc) : nat :=
  match pc with BStart | Destroy _ | Exit | Ended => 0 | _ => 1 end.

(** The strong count. *)
Definition strong (s : sess) : nat :=
  sum_list_with holds (ts s) + table s + length (queue_ (accept_channel s)).

Definition set_t (s : sess) (i : nat) (pc : tpc) : sess :=
  mkSess (shut s) (shut_event s) (unhealthy_ s) (breaker_stop s) (table s) (send_channel s) (accept_channel s)
    (accept_stored s) (down s) (conn s) (hit_other s) (breaker_mtx s) (breaker_thread s) (dead s)
    (<[i := pc]> (ts s)).
Definition spawn (s : sess) (pc : tpc) : sess :=
  mkSess (shut s) (shut_event s) (unhealthy_ s) (breaker_stop s) (table s) (send_channel s) (accept_channel s)
    (accept_stored s) (down s) (conn s) (hit_other s) (breaker_mtx s) (breaker_thread s) (dead s) (ts s ++ [pc]).
Definition set_shut (s : sess) : sess :=
  mkSess true (shut_event s) (unhealthy_ s) (breaker_stop s) (table s) (send_channel s) (accept_channel s)
    (accept_stored s) (down s) (conn s) (hit_other s) (breaker_mtx s) (breaker_thread s) (dead s) (ts s).
Definition set_event (s : sess) : sess :=
  mkSess (shut s) (Event.set (shut_event s)) (unhealthy_ s) (breaker_stop s) (table s) (send_channel s)
    (accept_channel s) (accept_stored s) (down s) (conn s) (hit_other s) (breaker_mtx s) (breaker_thread s)
    (dead s) (ts s).
Definition set_unhealthy (s : sess) (b : bool) : sess :=
  mkSess (shut s) (shut_event s) b (breaker_stop s) (table s) (send_channel s) (accept_channel s)
    (accept_stored s) (down s) (conn s) (hit_other s) (breaker_mtx s) (breaker_thread s) (dead s) (ts s).
Definition set_breaker_stop (s : sess) : sess :=
  mkSess (shut s) (shut_event s) (unhealthy_ s) (Event.set (breaker_stop s)) (table s) (send_channel s)
    (accept_channel s) (accept_stored s) (down s) (conn s) (hit_other s) (breaker_mtx s) (breaker_thread s)
    (dead s) (ts s).
Definition set_table (s : sess) (n : nat) : sess :=
  mkSess (shut s) (shut_event s) (unhealthy_ s) (breaker_stop s) n (send_channel s) (accept_channel s)
    (accept_stored s) (down s) (conn s) (hit_other s) (breaker_mtx s) (breaker_thread s) (dead s) (ts s).
Definition set_send (s : sess) (c : Channel unit) : sess :=
  mkSess (shut s) (shut_event s) (unhealthy_ s) (breaker_stop s) (table s) c (accept_channel s)
    (accept_stored s) (down s) (conn s) (hit_other s) (breaker_mtx s) (breaker_thread s) (dead s) (ts s).
Definition set_accept (s : sess) (c : Channel unit) (stored : bool) : sess :=
  mkSess (shut s) (shut_event s) (unhealthy_ s) (breaker_stop s) (table s) (send_channel s) c
    stored (down s) (conn s) (hit_other s) (breaker_mtx s) (breaker_thread s) (dead s) (ts s).
Definition set_conn (s : sess) (o : slot_owner) : sess :=
  mkSess (shut s) (shut_event s) (unhealthy_ s) (breaker_stop s) (table s) (send_channel s) (accept_channel s)
    (accept_stored s) (down s) o (hit_other s) (breaker_mtx s) (breaker_thread s) (dead s) (ts s).
Definition set_breaker (s : sess) (mtx thread : option nat) : sess :=
  mkSess (shut s) (shut_event s) (unhealthy_ s) (breaker_stop s) (table s) (send_channel s) (accept_channel s)
    (accept_stored s) (down s) (conn s) (hit_other s) mtx thread (dead s) (ts s).
Definition set_dead (s : sess) : sess :=
  mkSess (shut s) (shut_event s) (unhealthy_ s) (breaker_stop s) (table s) (send_channel s) (accept_channel s)
    (accept_stored s) (down s) (conn s) (hit_other s) (breaker_mtx s) (breaker_thread s) true (ts s).

(** [::shutdown(conn_fd, SHUT_RDWR)]: it acts on whatever has the number. *)
Definition shutdown_fd (s : sess) : sess :=
  match conn s with
  | Mine =>
      mkSess (shut s) (shut_event s) (unhealthy_ s) (breaker_stop s) (table s) (send_channel s) (accept_channel s)
        (accept_stored s) true (conn s) (hit_other s) (breaker_mtx s) (breaker_thread s) (dead s) (ts s)
  | Free => s
  | Other =>
      mkSess (shut s) (shut_event s) (unhealthy_ s) (breaker_stop s) (table s) (send_channel s) (accept_channel s)
        (accept_stored s) (down s) (conn s) true (breaker_mtx s) (breaker_thread s) (dead s) (ts s)
  end.

(** [accept_channel.stop()]: nothing as long as nobody has stored a receiver. *)
Definition stop_accept (s : sess) : sess :=
  if accept_stored s then set_accept s (Chan.stop (accept_channel s)) true else s.
Definition stop_send (s : sess) : sess := set_send s (Chan.stop (send_channel s)).

(** * The operations, step by step *)

(** One step of [close]: the pool and the table of streams are emptied as one. *)
Definition close_step (s : sess) (k : closing) : sess * option closing :=
  match k with
  | CEvent => (set_event s, Some CStreams)
  | CStreams => (set_table s 0, Some CStopSend)
  | CStopSend => (stop_send s, Some CStopAccept)
  | CStopAccept => (stop_accept s, Some CShutdown)
  | CShutdown => (shutdown_fd s, None)
  end.

(** A thread that goes on with [close], and then with [next]. *)
Definition closing_thread (s : sess) (i : nat) (k : closing) (at_ : closing -> tpc) (next : tpc) : sess :=
  let '(s, k) := close_step s k in set_t s i (match k with Some k => at_ k | None => next end).

(** The exchange at the head of [close]: a thread that comes second returns. *)
Definition enter_close (s : sess) (i : nat) (at_ : closing -> tpc) (next : tpc) : sess :=
  if shut s then set_t s i next else set_t (set_shut s) i (at_ CEvent).

(** [t.join()] waits for the end of the thread. *)
Definition ended (s : sess) (j : nat) : bool :=
  match ts s !! j with Some Ended => true | _ => false end.
Definition join (s : sess) (j : nat) : option unit := if ended s j then Some tt else None.

(** [join_or_detach_self] of the thread [j], if there is one to join, by [i]. *)
Definition join_or_detach_self (s : sess) (i : nat) (j : option nat) : option unit :=
  match j with
  | None => Some tt
  | Some j => if (i =? j)%nat then Some tt else join s j
  end.

(** One step of [~SessionShared] on thread [i]. *)
Definition destroy_step (s : sess) (i : nat) (k : destroying) : option sess :=
  match k with
  | DStop => Some (set_t (set_breaker_stop s) i (Destroy DBreaker))
  | DBreaker =>
      match breaker_mtx s with
      | Some _ => None
      | None => _ ← join_or_detach_self s i (breaker_thread s);
                Some (set_t (set_breaker s None None) i (Destroy DShutdown))
      end
  | DShutdown => Some (set_t (shutdown_fd s) i (Destroy DStopSend))
  | DStopSend => Some (set_t (stop_send s) i (Destroy DStopAccept))
  | DStopAccept => Some (set_t (stop_accept s) i (Destroy DJoinRead))
  | DJoinRead => _ ← join_or_detach_self s i (Some reader); Some (set_t s i (Destroy DJoinWrite))
  | DJoinWrite => _ ← join_or_detach_self s i (Some writer); Some (set_t s i Exit)
  end.

(** A reference is let go; the last one takes the destructor with it. *)
Definition release (s : sess) (i : nat) : sess :=
  let s' := set_t s i Exit in
  if (strong s' =? 0)%nat then set_t (set_dead s') i (Destroy DStop) else s'.

(** What a call that depends on the peer, on the listener or on the time gives:
    success, failure, a stream the peer has opened, one it has closed. *)
Inductive answer := Yes | No | New | Gone.

Section session.
Context (server : bool).

(** [read_loop]; the new streams of a server go through the accept channel. *)
Definition reader_step (s : sess) (i : nat) (pc : tpc) (a : answer) : option sess :=
  match pc with
  | RRead => match a with
             | Yes => Some (set_t s i (RCheck true))
             | _ => Some (set_t s i (RCheck false))
             end
  | RCheck ok => Some (set_t s i (if shut s then RDone else if ok then RHandle else RExit))
  | RHandle => match a with
               | Yes => Some (set_t s i RRead)
               | No => Some (set_t s i (if shut s then RRead else RExit))
               | New => if server then Some (set_t (set_table s (S (table s))) i RPush) else None
               | Gone => Some (set_t (set_table s (pred (table s))) i RRead)
               end
  | RPush => '(_, c) ← Chan.send (accept_channel s) tt;
             Some (set_t (set_accept s c (accept_stored s)) i RRead)
  | RExit => Some (enter_close s i RClose RDone)
  | RClose k => Some (closing_thread s i k RClose RDone)
  | RDone => Some (set_t (set_conn s Free) i Drop)
  | _ => None
  end.

Definition writer_step (s : sess) (i : nat) (pc : tpc) (a : answer) : option sess :=
  match pc with
  | WRecv => '(r, c) ← Chan.recv (send_channel s);
             Some (set_t (set_send s c) i (match r with Some _ => WWrite | None => WDone end))
  | WWrite => Some (set_t s i (match a with Yes => WRecv | _ => WExit end))
  | WExit => Some (enter_close s i WClose WDone)
  | WClose k => Some (closing_thread s i k WClose WDone)
  | WDone => Some (set_t s i Drop)
  | _ => None
  end.

(** [recv_loop]; the answer is what sending to the listener gives. *)
Definition recv_step (s : sess) (i : nat) (pc : tpc) (a : answer) : option sess :=
  match pc with
  | VStore => Some (set_t (set_accept s (accept_channel s) true) i VRecv)
  | VRecv => '(r, c) ← Chan.recv (accept_channel s);
             Some (match r with
                   | Some _ => set_t (set_accept s c (accept_stored s)) i VSend
                   | None => set_t s i Drop
                   end)
  | VSend => match a with
             | Yes => Some (spawn (set_t s i VRecv) UIdle)
             | _ => Some (set_t s i Drop)
             end
  | _ => None
  end.

(** The thread of the circuit breaker; [Yes]: the thirty seconds are over. *)
Definition timer_step (s : sess) (i : nat) (pc : tpc) (a : answer) : option sess :=
  match pc with
  | BStart => Some (set_t s i (if (strong s =? 0)%nat then Exit else BWait))
  | BWait => stop ← Event.wait_for (breaker_stop s) (match a with Yes => true | _ => false end);
             Some (set_t s i (if (stop : bool) then Drop else BStore))
  | BStore => Some (set_t (set_unhealthy s false) i Drop)
  | _ => None
  end.

(** [open_circuit_breaker] after the exchange of [unhealthy]. *)
Definition breaker_step (s : sess) (i : nat) (pc : tpc) : option sess :=
  match pc with
  | UBreak => match breaker_mtx s with
              | Some _ => None
              | None => Some (set_t (set_breaker s (Some i) (breaker_thread s)) i ULocked)
              end
  | ULocked =>
      _ ← match breaker_thread s with Some j => join s j | None => Some tt end;
      Some (spawn (set_t (set_breaker s None (Some (length (ts s)))) i UIdle) BStart)
  | _ => None
  end.

(** The next step of the threads of the session, and of calls under way. *)
Definition run_thread (s : sess) (i : nat) (pc : tpc) (a : answer) : option sess :=
  match pc with
  | UIdle | Ended => None
  | UClose k => Some (closing_thread s i k UClose UIdle)
  | UOpen => Some (spawn (set_t (set_table s (S (table s))) i UIdle) UIdle)
  | UBreak | ULocked => breaker_step s i pc
  | RRead | RCheck _ | RHandle | RPush | RExit | RClose _ | RDone => reader_step s i pc a
  | WRecv | WWrite | WExit | WClose _ | WDone => writer_step s i pc a
  | VStore | VRecv | VSend => recv_step s i pc a
  | BStart | BWait | BStore => timer_step s i pc a
  | Drop => Some (release s i)
  | Destroy k => destroy_step s i k
  | Exit => Some (set_t s i Ended)
  end.

(** What the program may call on a handle. *)
Inductive call := KClose | KOpen | KCloseStream | KSend | KBreaker | KCopy | KDrop.

Definition start_call (s : sess) (i : nat) (k : call) : option sess :=
  match k with
  | KClose => Some (enter_close s i UClose UIdle)
  | KOpen => if shut s then Some s else Some (set_t s i UOpen)
  | KCloseStream => Some (set_table s (pred (table s)))
  | KSend => '(_, c) ← Chan.send (send_channel s) tt; Some (set_send s c)
  | KBreaker => if unhealthy_ s then Some s else Some (set_t (set_unhealthy s true) i UBreak)
  | KCopy => Some (spawn s UIdle)
  | KDrop => Some (set_t s i Drop)
  end.

Inductive action :=
| Run (i : nat) (a : answer)
| Call (i : nat) (k : call)
| OpenFd                     (* the process opens a descriptor, which gets the free number *)
| CloseFd.

Definition exec (s : sess) (a : action) : option sess :=
  match a with
  | Run i a => pc ← ts s !! i; run_thread s i pc a
  | Call i k => pc ← ts s !! i; match pc with UIdle => start_call s i k | _ => None end
  | OpenFd => match conn s with Free => Some (set_conn s Other) | _ => None end
  | CloseFd => match conn s with Other => Some (set_conn s Free) | _ => None end
  end.

(** [Session::create] has returned: its two threads, on a server [recv_loop],
    which the listener starts, and the handle that was returned. *)
Definition created (accept_cap : Z) : sess :=
  mkSess false false false false 0 (Chan.make 4096) (Chan.make accept_cap) false false Mine false None None false
    ([RRead; WRecv] ++ (if server then [VStore] else []) ++ [UIdle]).

Definition sess_step (s s' : sess) : Prop := exists a, exec s a = Some s'.
Definition exec_all (s : sess) (l : list action) : option sess :=
  foldl (fun s a => s ← s; exec s a) (Some s) l.
End session.

(** * The reference count *)

Lemma sum_insert {A} (f : A -> nat) (l : list A) i x y : l !! i = Some x ->
  (sum_list_with f (<[i := y]> l) + f x = sum_list_with f l + f y)%nat.
Proof.
  intros (l1 & l2 & -> & ->)%list_elem_of_split_length. rewrite insert_app_r_alt, Nat.sub_diag by lia.
  rewrite !sum_list_with_app. cbn. lia.
Qed.

Lemma sum_at {A} (f : A -> nat) (l : list A) i x : l !! i = Some x -> (f x <= sum_list_with f l)%nat.
Proof. intros (l1 & l2 & -> & ->)%list_elem_of_split_length. rewrite sum_list_with_app. cbn. lia. Qed.

Lemma holds_strong s i pc : ts s !! i = Some pc -> (holds pc <= strong s)%nat.
Proof. intros E. pose proof (sum_at holds _ _ _ E). unfold strong. lia. Qed.

Lemma strong_zero s i pc : strong s = 0%nat -> ts s !! i = Some pc -> holds pc = 0%nat.
Proof. intros Hs E. pose proof (holds_strong s i pc E). lia. Qed.

(** Calls that leave alone what the invariant speaks of. *)
Record quiet_call (s s0 : sess) : Prop := {
  qc_ts : ts s0 = ts s;
  qc_dead : dead s0 = dead s;
  qc_mtx : breaker_mtx s0 = breaker_mtx s;
  qc_thread : breaker_thread s0 = breaker_thread s;
  qc_stop : breaker_stop s0 = breaker_stop s;
  qc_conn : conn s0 = conn s;
  qc_shut : shut s0 = shut s;
  qc_down : down s = true -> down s0 = true;
  qc_queue : queue_ (accept_channel s0) = queue_ (accept_channel s);
  qc_accept : stopped_ (accept_channel s) = true -> stopped_ (accept_channel s0) = true;
  qc_send : stopped_ (send_channel s) = true -> stopped_ (send_channel s0) = true;
  qc_sends : queue_ (send_channel s0) = queue_ (send_channel s);
  qc_table : (table s0 <= table s)%nat;
}.

Lemma shutdown_fd_quiet s : quiet_call s (shutdown_fd s).
Proof. unfold shutdown_fd. destruct (conn s) eqn:E; split; cbn; auto. Qed.
Lemma stop_accept_quiet s : quiet_call s (stop_accept s).
Proof. unfold stop_accept. destruct (accept_stored s); split; cbn; auto. Qed.
Lemma stop_send_quiet s : quiet_call s (stop_send s).
Proof. split; cbn; auto. Qed.
Lemma close_step_quiet s k s0 o : close_step s k = (s0, o) -> quiet_call s s0.
Proof.
  destruct k; intros [= <- _]; auto using shutdown_fd_quiet, stop_accept_quiet, stop_send_quiet;
    split; cbn; auto; lia.
Qed.

(** The step a thread makes, by its place. *)
Ltac open_run E :=
  cbn [run_thread reader_step writer_step recv_step timer_step breaker_step] in E.

(** Take a step apart into its cases. *)
Ltac step_cases E :=
  unfold start_call, closing_thread, enter_close, destroy_step, release in E;
  repeat match type of E with
  | mbind _ _ = Some _ => let x := fresh "x" in let Ex := fresh "Ex" in apply bind_Some in E as (x & Ex & E)
  | (match ?x with _ => _ end) = Some _ => let K := fresh "K" in destruct x eqn:K; try discriminate E
  | Some ?t = Some _ =>
      match t with
      | context [match ?x with _ => _ end] =>
          lazymatch x with context [match _ with _ => _ end] => fail | _ => let K := fresh "K" in destruct x eqn:K end
      end
  | None = Some _ => discriminate E
  | Some _ = Some _ => injection E as <-
  end;
  repeat match goal with
  | K : close_step _ _ = (_, _) |- _ => apply close_step_quiet in K; destruct K
  | |- context [shutdown_fd ?s] =>
      let s0 := fresh "s" in let K := fresh "Q" in
      pose proof (shutdown_fd_quiet s) as K; generalize dependent (shutdown_fd s); intros s0 K; destruct K
  | |- context [stop_accept ?s] =>
      let s0 := fresh "s" in let K := fresh "Q" in
      pose proof (stop_accept_quiet s) as K; generalize dependent (stop_accept s); intros s0 K; destruct K
  end.

(** The shape of a step of one thread: it moves, and may start another one. *)
Definition sort (pc : tpc) : nat :=
  match pc with
  | UIdle | UClose _ | UOpen | UBreak | ULocked => 0
  | RRead | RCheck _ | RHandle | RPush | RExit | RClose _ | RDone => 1
  | WRecv | WWrite | WExit | WClose _ | WDone => 2
  | VStore | VRecv | VSend => 3
  | BStart | BWait | BStore => 4
  | Drop | Destroy _ | Exit | Ended => 5
  end.

Record moves (s s' : sess) (i : nat) (pc pc' : tpc) (new : list tpc) : Prop := {
  mv_ts : ts s' = <[i := pc']> (ts s) ++ new;
  mv_sort : (sort pc' = sort pc \/ sort pc' = 5)%nat;
  mv_new : new = [] \/ new = [UIdle] \/ (new = [BStart] /\ breaker_thread s' = Some (length (ts s)));
  mv_conn : if decide (pc = RDone) then conn s' = Free /\ pc' = Drop
            else conn s' = conn s /\ (sort pc = 1 -> sort pc' = 1)%nat;
  mv_mtx : (breaker_mtx s' = breaker_mtx s /\ pc <> ULocked) \/ (breaker_mtx s' = Some i /\ pc' = ULocked) \/
           breaker_mtx s' = None;
  mv_thread : breaker_thread s' = breaker_thread s \/ breaker_thread s' = None \/ new = [BStart];
  mv_stop : breaker_stop s' = breaker_stop s \/ exists k, pc = Destroy k;
  mv_dead : if decide (pc = Drop) then strong s' = pred (strong s) /\ dead s' = dead s || (strong s' =? 0)%nat
            else dead s' = dead s /\ (holds pc = 1 -> holds pc' = 1)%nat /\ (strong s = 0 -> strong s' = 0)%nat;
  mv_destroy : (exists k, pc' = Destroy k) ->
               (exists k, pc = Destroy k) \/ (pc = Drop /\ dead s' = true);
  mv_timer : pc = BStart -> (holds pc' = 1 \/ strong s = 0)%nat;
  mv_run : pc <> Ended;
  mv_exit : pc = Exit -> strong s' = strong s;
  mv_shut : shut s = true -> shut s' = true;
  mv_down : down s = true -> down s' = true;
  mv_send : stopped_ (send_channel s) = true -> stopped_ (send_channel s') = true;
}.

Lemma strong_set s s' i pc pc' new : ts s !! i = Some pc -> ts s' = <[i := pc']> (ts s) ++ new ->
  (strong s' + holds pc + table s + length (queue_ (accept_channel s)) =
   strong s + holds pc' + sum_list_with holds new + table s' + length (queue_ (accept_channel s')))%nat.
Proof.
  intros Hi E. unfold strong. rewrite E, sum_list_with_app. pose proof (sum_insert holds _ _ _ pc' Hi). lia.
Qed.

Lemma strong_streams s : (table s + length (queue_ (accept_channel s)) <= strong s)%nat.
Proof. unfold strong. lia. Qed.

Lemma chan_send_queue (c c' : Channel unit) b : Chan.send c tt = Some (b, c') ->
  stopped_ c = true -> stopped_ c' = true.
Proof.
  unfold Chan.send, Chan.push. destruct (Chan.can_push c); [|discriminate].
  destruct (stopped_ c) eqn:E; intros [= <- <-]; auto.
Qed.
Lemma chan_recv_queue (c c' : Channel unit) r : Chan.recv c = Some (r, c') -> stopped_ c' = stopped_ c.
Proof.
  unfold Chan.recv, Chan.pop. destruct (Chan.can_pop c); [|discriminate]. now destruct (queue_ c); intros [= <- <-].
Qed.

Lemma strong_drop s i : ts s !! i = Some Drop -> strong (set_t s i Exit) = pred (strong s).
Proof.
  intros Hi. pose proof (strong_set s (set_t s i Exit) i Drop Exit [] Hi ltac:(cbn; now rewrite app_nil_r)) as Hc.
  pose proof (holds_strong s i Drop Hi). cbn [holds sum_list_with table accept_channel set_t] in *. lia.
Qed.

Lemma strong_ended s i : ts s !! i = Some Exit -> strong (set_t s i Ended) = strong s.
Proof.
  intros Hi. pose proof (strong_set s (set_t s i Ended) i Exit Ended [] Hi ltac:(cbn; now rewrite app_nil_r)) as Hc.
  cbn [holds sum_list_with table accept_channel set_t] in Hc. lia.
Qed.

Lemma strong_exit s i k : strong (set_t (set_dead (set_t s i Exit)) i (Destroy k)) = strong (set_t s i Exit).
Proof.
  unfold strong. cbn. rewrite list_insert_insert_eq. do 2 f_equal.
  destruct (decide (i < length (ts s))%nat) as [[pc Hpc]%lookup_lt_is_Some|Hn].
  - pose proof (sum_insert holds _ _ _ Exit Hpc). pose proof (sum_insert holds _ _ _ (Destroy k) Hpc). cbn in *. lia.
  - rewrite !list_insert_ge by lia. reflexivity.
Qed.

Lemma run_moves server s i pc a s' : ts s !! i = Some pc -> run_thread server s i pc a = Some s' ->
  exists pc' new, moves s s' i pc pc' new.
Proof.
  intros Hi E. pose proof (holds_strong s i pc Hi) as Hh. pose proof (strong_streams s) as Hst.
  destruct pc; open_run E; step_cases E.
  all: repeat match goal with
    | K : Chan.send _ _ = Some _ |- _ => pose proof (chan_send_queue _ _ _ K); clear K
    | K : Chan.recv _ = Some _ |- _ => apply chan_recv_queue in K
    | K : (_ =? _)%nat = true |- _ => apply Nat.eqb_eq in K
    | K : (_ =? _)%nat = false |- _ => apply Nat.eqb_neq in K
    end.
  all: first
    [ eexists _, [UIdle]; split; [cbn; reflexivity|..]
    | eexists _, [BStart]; split; [cbn; reflexivity|..]
    | eexists _, []; split; [cbn; rewrite ?qc_ts0, ?app_nil_r, ?list_insert_insert_eq; reflexivity|..] ].
  all: cbn [sort holds] in *.
  all: lazymatch goal with
    | |- _ \/ _ = 5%nat => first [left; reflexivity|right; reflexivity]
    | |- _ \/ _ = [UIdle] \/ _ => first [left; reflexivity|right; left; reflexivity|right; right; split; reflexivity]
    | |- if decide (_ = RDone) then _ else _ =>
        first [rewrite decide_True by reflexivity; split; reflexivity
              |rewrite decide_False by discriminate; split;
               [cbn; first [reflexivity|assumption]|first [discriminate|reflexivity|exact (fun H => H)]]]
    | |- (_ /\ _ <> ULocked) \/ _ =>
        first [left; split; [cbn; first [reflexivity|assumption]|discriminate]
              |right; left; split; reflexivity|right; right; reflexivity]
    | |- _ \/ _ \/ _ = [BStart] =>
        first [left; cbn; first [reflexivity|assumption]|right; left; reflexivity|right; right; reflexivity]
    | |- _ \/ exists k, _ = Destroy k => first [left; cbn; first [reflexivity|assumption]|right; eexists; reflexivity]
    | |- (exists k, _ = Destroy k) -> _ =>
        intros [? HD]; first [discriminate HD|left; eexists; reflexivity|right; split; reflexivity]
    | |- _ = BStart -> _ => first [discriminate|left; reflexivity|right; assumption]
    | |- _ <> Ended => discriminate
    | |- _ = Exit -> _ => first [discriminate|intros _; now apply strong_ended]
    | |- shut _ = true -> _ => cbn; first [exact (fun H => H)|intros _; reflexivity|now rewrite qc_shut0]
    | |- down _ = true -> _ => cbn; first [exact (fun H => H)|assumption]
    | |- stopped_ _ = true -> _ => cbn; first [exact (fun H => H)|assumption|reflexivity|congruence]
    | |- if decide (Drop = Drop) then _ else _ => idtac
    | |- if decide (_ = Drop) then _ else _ =>
        rewrite decide_False by discriminate;
        (split; [cbn; first [reflexivity|assumption]|]); (split; [first [reflexivity|discriminate]|]);
        intros Hz; first [lia|
          match goal with Hi : ts ?s0 !! ?j = Some _ |- strong (set_t ?s1 ?j ?q) = _ =>
            assert (ts (set_t s1 j q) = <[j := q]> (ts s0) ++ []) as Ht
              by (cbn; rewrite app_nil_r; first [reflexivity|now rewrite qc_ts0]);
            pose proof (strong_set s0 _ j _ q [] Hi Ht) as Hc end;
          unfold strong in *; cbn [ts table accept_channel set_t set_breaker_stop set_breaker stop_send set_send holds] in *; cbn [sum_list_with] in Hc; rewrite ?qc_queue0 in *; lia]
    end.
  - rewrite decide_True by reflexivity.
    rewrite strong_exit. split; [apply (strong_drop s i Hi)|]. now rewrite K, orb_true_r.
  - rewrite decide_True by reflexivity. split; [apply (strong_drop s i Hi)|]. cbn [dead set_t].
    apply Nat.eqb_neq in K. now rewrite K, orb_false_r.
Qed.

Lemma call_moves s i k s' : ts s !! i = Some UIdle -> start_call s i k = Some s' ->
  exists pc' new, moves s s' i UIdle pc' new.
Proof.
  intros Hi E. pose proof (holds_strong s i UIdle Hi) as Hh.
  assert (<[i := UIdle]> (ts s) = ts s) as Hid by now apply list_insert_id.
  destruct k; step_cases E.
  all: repeat match goal with
    | K : Chan.send _ _ = Some _ |- _ => pose proof (chan_send_queue _ _ _ K); clear K end.
  all: first
    [ exists UIdle, [UIdle]; split; [cbn [ts spawn]; now rewrite Hid|..]
    | exists UIdle, []; split; [cbn [ts set_t set_table set_send]; now rewrite app_nil_r, Hid|..]
    | eexists _, []; split; [cbn; rewrite app_nil_r; reflexivity|..] ].
  all: cbn [sort holds] in *.
  all: lazymatch goal with
    | |- if decide (_ = RDone) then _ else _ => rewrite decide_False by discriminate; now split
    | |- (_ /\ _ <> ULocked) \/ _ => left; now split
    | |- (exists k, _ = Destroy k) -> _ => intros [? HD]; discriminate HD
    | |- _ = BStart -> _ => discriminate
    | |- _ <> Ended => discriminate
    | |- _ = Exit -> _ => discriminate
    | |- if decide (_ = Drop) then _ else _ =>
        rewrite decide_False by discriminate; (split; [reflexivity|]); (split; [reflexivity|]); intros; lia
    | |- _ => cbn; auto
    end.
Qed.

(** * The invariant *)

(** The threads [create] started keep their places. *)
Definition placed (i : nat) (pc : tpc) : Prop :=
  match i with
  | O => sort pc = 1%nat \/ sort pc = 5%nat
  | S O => sort pc = 2%nat \/ sort pc = 5%nat
  | _ => sort pc <> 1%nat /\ sort pc <> 2%nat
  end.

Record sess_inv (s : sess) : Prop := {
  si_two : (2 <= length (ts s))%nat;
  si_placed : forall i pc, ts s !! i = Some pc -> placed i pc;
  si_conn : forall pc, ts s !! reader = Some pc -> conn s = Mine <-> sort pc = 1%nat;
  si_mtx : forall i, breaker_mtx s = Some i -> ts s !! i = Some ULocked;
  si_timer : forall j, breaker_thread s = Some j ->
    exists pc, ts s !! j = Some pc /\ (sort pc = 4%nat \/ sort pc = 5%nat);
  si_stop : breaker_stop s = true -> dead s = true;
  si_dead : dead s = true <-> strong s = 0%nat;
  si_once : forall i j k k', ts s !! i = Some (Destroy k) -> ts s !! j = Some (Destroy k') -> i = j;
  si_destroy : forall i k, ts s !! i = Some (Destroy k) -> dead s = true;
}.

(** The threads after a step: the one that moved, a new one, or one of before. *)
Lemma moves_lookup s s' i pc pc' new j q : ts s !! i = Some pc -> moves s s' i pc pc' new -> ts s' !! j = Some q ->
  (j = i /\ q = pc') \/ (j <> i /\ ts s !! j = Some q) \/ (new = [q] /\ j = length (ts s)).
Proof.
  intros Hi M E. rewrite (mv_ts _ _ _ _ _ _ M) in E. apply lookup_app_Some in E as [E|[Hl E]].
  - apply list_lookup_insert_Some in E as [(-> & -> & _)|[Hne E]]; auto.
  - right. right. rewrite length_insert in *.
    destruct (mv_new _ _ _ _ _ _ M) as [->|[->|[-> _]]]; [discriminate E|..];
      apply list_lookup_singleton_Some in E as [Hz ->]; split; auto; lia.
Qed.

Lemma moves_self s s' i pc pc' new : ts s !! i = Some pc -> moves s s' i pc pc' new -> ts s' !! i = Some pc'.
Proof.
  intros Hi M. rewrite (mv_ts _ _ _ _ _ _ M). apply lookup_app_l_Some, list_lookup_insert_eq.
  now apply lookup_lt_Some in Hi.
Qed.

Lemma moves_other s s' i pc pc' new j : moves s s' i pc pc' new -> j <> i -> is_Some (ts s !! j) ->
  ts s' !! j = ts s !! j.
Proof.
  intros M Hne [q Hq]. rewrite (mv_ts _ _ _ _ _ _ M), Hq. apply lookup_app_l_Some.
  rewrite list_lookup_insert_ne; auto.
Qed.

Lemma placed_new s q : (2 <= length (ts s))%nat -> q = UIdle \/ q = BStart -> placed (length (ts s)) q.
Proof. intros Hl Hq. destruct (length (ts s)) as [|[|n]]; [lia|lia|]. cbn. destruct Hq as [->| ->]; cbn; lia. Qed.

Lemma new_sort s s' i pc pc' new q : moves s s' i pc pc' new -> new = [q] -> q = UIdle \/ q = BStart.
Proof. intros M ->. destruct (mv_new _ _ _ _ _ _ M) as [E|[E|[E _]]]; [discriminate E|injection E; auto..]. Qed.

Lemma moves_count s s' i pc pc' new : sess_inv s -> ts s !! i = Some pc -> moves s s' i pc pc' new ->
  dead s' = true <-> strong s' = 0%nat.
Proof.
  intros I Hi M. pose proof (mv_dead _ _ _ _ _ _ M) as Hd. pose proof (moves_self _ _ _ _ _ _ Hi M) as Hi'.
  pose proof (holds_strong _ _ _ Hi') as Hh'. pose proof (holds_strong _ _ _ Hi) as Hh.
  pose proof (si_dead _ I) as Hds. case_decide as Epc.
  - subst pc. destruct Hd as [Hs ->]. cbn in Hh. assert (dead s = false) as ->
      by (destruct (dead s); [|reflexivity]; pose proof (proj1 Hds eq_refl); lia).
    cbn. rewrite Nat.eqb_eq. reflexivity.
  - destruct Hd as (-> & Hk & Hz). rewrite Hds. split; [exact Hz|]. intros Hs'.
    destruct (decide (holds pc = 1%nat)) as [H1|H1]; [rewrite (Hk H1) in Hh'; lia|].
    destruct pc; cbn in H1; try congruence.
    + destruct (mv_timer _ _ _ _ _ _ M eq_refl) as [H2|?]; [lia|assumption].
    + apply Hds. exact (si_destroy _ I _ _ Hi).
    + now rewrite <- (mv_exit _ _ _ _ _ _ M eq_refl).
    + now destruct (mv_run _ _ _ _ _ _ M).
Qed.

Section moves.
Context (s s' : sess) (i : nat) (pc pc' : tpc) (new : list tpc).
Context (I : sess_inv s) (Hi : ts s !! i = Some pc) (M : moves s s' i pc pc' new).

Lemma moves_dead : dead s = true -> dead s' = true.
Proof.
  intros Hd. pose proof (mv_dead _ _ _ _ _ _ M) as H. case_decide; [destruct H as [_ ->]; now rewrite Hd|].
  destruct H as [-> _]. exact Hd.
Qed.

Lemma moves_placed j q : ts s' !! j = Some q -> placed j q.
Proof.
  intros Hq. destruct (moves_lookup s s' i pc pc' new j q Hi M Hq) as [[-> ->]|[[_ H]|[H ->]]].
  - pose proof (si_placed _ I _ _ Hi) as Hp. unfold placed in *. pose proof (mv_sort _ _ _ _ _ _ M).
    destruct i as [|[|n]]; lia.
  - exact (si_placed _ I _ _ H).
  - apply placed_new; [apply I|now apply (new_sort s s' i pc pc' new)].
Qed.

Lemma moves_conn q : ts s' !! reader = Some q -> conn s' = Mine <-> sort q = 1%nat.
Proof.
  intros Hq. pose proof (mv_conn _ _ _ _ _ _ M) as Hc.
  destruct (moves_lookup s s' i pc pc' new _ q Hi M Hq) as [[E ->]|[[Hne H]|[_ H]]].
  - assert (ts s !! reader = Some pc) as Hr by now rewrite E. pose proof (si_conn _ I _ Hr) as Hci. case_decide as Epc.
    + destruct Hc as [-> ->]. cbn. split; [discriminate|lia].
    + destruct Hc as [-> Hs]. rewrite Hci. split; [exact Hs|]. intros Hs'.
      destruct (mv_sort _ _ _ _ _ _ M); [congruence|lia].
  - pose proof (si_placed _ I _ _ Hi) as Hp. case_decide as Epc.
    + rewrite Epc in Hp. exfalso. unfold reader in Hne. destruct i as [|[|n]]; cbn in Hp; [now apply Hne|lia|lia].
    + destruct Hc as [-> _]. exact (si_conn _ I q H).
  - pose proof (si_two _ I). unfold reader in H. lia.
Qed.

Lemma moves_timer j : breaker_thread s' = Some j -> exists q, ts s' !! j = Some q /\ (sort q = 4%nat \/ sort q = 5%nat).
Proof.
  intros Hj. assert (breaker_thread s' = breaker_thread s \/ (new = [BStart] /\ j = length (ts s))) as [E|[En ->]].
  { destruct (mv_thread _ _ _ _ _ _ M) as [E|[E|E]]; [now left|congruence|right].
    destruct (mv_new _ _ _ _ _ _ M) as [En|[En|[En Eb]]]; [congruence|congruence|]. split; congruence. }
  - rewrite E in Hj. destruct (si_timer _ I j Hj) as (q & Hq & Hs). destruct (decide (j = i)) as [->|Hne].
    + exists pc'. split; [exact (moves_self _ _ _ _ _ _ Hi M)|]. pose proof (mv_sort _ _ _ _ _ _ M).
      rewrite Hi in Hq. injection Hq as <-. lia.
    + exists q. split; [rewrite (moves_other _ _ _ _ _ _ j M Hne); eauto|exact Hs].
  - exists BStart. split; [|now left]. rewrite (mv_ts _ _ _ _ _ _ M), En. apply lookup_app_Some. right.
    rewrite length_insert, Nat.sub_diag. auto.
Qed.

(** Who runs the destructor after a step did before, or has just let go. *)
Lemma moves_destroy j k : ts s' !! j = Some (Destroy k) ->
  (j = i /\ exists k, pc' = Destroy k) \/ (j <> i /\ ts s !! j = Some (Destroy k)).
Proof.
  intros Hj. destruct (moves_lookup s s' i pc pc' new j _ Hi M Hj) as [[-> <-]|[?|[H _]]]; [eauto|auto|].
  destruct (new_sort s s' i pc pc' new _ M H); discriminate.
Qed.

Lemma destroy_alone j k : (exists k, pc' = Destroy k) -> j <> i -> ts s !! j <> Some (Destroy k).
Proof.
  intros Hd Hne Hj. destruct (mv_destroy _ _ _ _ _ _ M Hd) as [[k1 E]|[E _]]; rewrite E in Hi.
  - apply Hne. exact (si_once _ I _ _ _ _ Hj Hi).
  - pose proof (si_destroy _ I _ _ Hj) as Hde. apply (si_dead _ I) in Hde.
    pose proof (holds_strong _ _ _ Hi). cbn in *. lia.
Qed.

Lemma moves_inv : sess_inv s'.
Proof.
  constructor.
  - rewrite (mv_ts _ _ _ _ _ _ M), length_app, length_insert. pose proof (si_two _ I). lia.
  - exact moves_placed.
  - exact moves_conn.
  - intros j Hj. destruct (mv_mtx _ _ _ _ _ _ M) as [[E Hne]|[[E Epc]|E]]; rewrite E in Hj.
    + pose proof (si_mtx _ I j Hj) as Hjl. rewrite (moves_other _ _ _ _ _ _ j M); [exact Hjl| |eauto].
      intros ->. congruence.
    + injection Hj as <-. rewrite <- Epc. exact (moves_self _ _ _ _ _ _ Hi M).
    + discriminate Hj.
  - exact moves_timer.
  - intros Hst. apply moves_dead. destruct (mv_stop _ _ _ _ _ _ M) as [E|[k E]].
    + apply (si_stop _ I). congruence.
    + rewrite E in Hi. exact (si_destroy _ I _ _ Hi).
  - exact (moves_count s s' i pc pc' new I Hi M).
  - intros j j' k k' Hj Hj'. destruct (moves_destroy _ _ Hj) as [[-> Hd]|[Hne H1]];
      destruct (moves_destroy _ _ Hj') as [[-> Hd']|[Hne' H2]]; auto.
    + now destruct (destroy_alone j' k' Hd Hne').
    + now destruct (destroy_alone j k Hd' Hne).
    + exact (si_once _ I _ _ _ _ H1 H2).
  - intros j k Hj. destruct (moves_destroy _ _ Hj) as [[-> Hd]|[_ H]].
    + destruct (mv_destroy _ _ _ _ _ _ M Hd) as [[k1 E]|[_ ?]]; [|assumption].
      apply moves_dead. rewrite E in Hi. exact (si_destroy _ I _ _ Hi).
    + apply moves_dead. exact (si_destroy _ I _ _ H).
Qed.
End moves.

Lemma set_conn_inv s o : sess_inv s -> conn s <> Mine -> o <> Mine -> sess_inv (set_conn s o).
Proof.
  intros [H1 H2 H3 H4 H5 H6 H7 H8 H9] Hc Ho. constructor; auto.
  intros pc Hpc. pose proof (H3 pc Hpc). cbn. tauto.
Qed.

Lemma sess_step_inv server s s' : sess_inv s -> sess_step server s s' -> sess_inv s'.
Proof.
  intros I [a E]. destruct a as [i a|i k| |]; cbn in E.
  - apply bind_Some in E as (pc & Hi & E). destruct (run_moves server s i pc a s' Hi E) as (pc' & new & M).
    exact (moves_inv _ _ _ _ _ _ I Hi M).
  - apply bind_Some in E as (pc & Hi & E). destruct pc; try discriminate E.
    destruct (call_moves s i k s' Hi E) as (pc' & new & M). exact (moves_inv _ _ _ _ _ _ I Hi M).
  - destruct (conn s) eqn:Ec; try discriminate E. injection E as <-. apply set_conn_inv; congruence.
  - destruct (conn s) eqn:Ec; try discriminate E. injection E as <-. apply set_conn_inv; congruence.
Qed.

Lemma created_inv server cap : sess_inv (created server cap).
Proof.
  constructor; cbn [ts created].
  - destruct server; cbn; lia.
  - intros i pc Hi. destruct server; cbn in Hi; repeat (destruct i as [|i]; [injection Hi as <-; cbn; lia|cbn in Hi]);
      discriminate Hi.
  - intros pc [= <-]. cbn. tauto.
  - discriminate.
  - discriminate.
  - discriminate.
  - destruct server; cbn; split; discriminate.
  - intros i j k k' Hi. destruct server; cbn in Hi;
      do 4 (destruct i as [|i]; [discriminate Hi|cbn in Hi]); discriminate Hi.
  - intros i k Hi. destruct server; cbn in Hi;
      do 4 (destruct i as [|i]; [discriminate Hi|cbn in Hi]); discriminate Hi.
Qed.

Lemma reachable_sess_inv server cap s : rtc (sess_step server) (created server cap) s -> sess_inv s.
Proof. apply rtc_invariant; [intros ? ?; apply sess_step_inv|apply created_inv]. Qed.

(** ** The end of a session *)
















(** ** A state in which no thread can go on *)

(** Reads and writes of a connection that was shut down return. *)
Definition free_to_run (s : sess) (pc : tpc) : bool :=
  match pc with RRead | WWrite => down s | _ => true end.
Definition resting (server : bool) (s : sess) : Prop := forall i pc, ts s !! i = Some pc ->
  free_to_run s pc = true -> run_thread server s i pc Yes = None.












Lemma exec_all_steps server l : forall s s', exec_all server s l = Some s' -> rtc (sess_step server) s s'.
Proof.
  unfold exec_all. induction l as [|a l IH]; intros s s' E; cbn [foldl] in E; [injection E as <-; apply rtc_refl|].
  cbn [mbind option_bind] in E. destruct (exec server s a) as [s1|] eqn:E1.
  - eapply rtc_l; [exists a; exact E1|]. now apply IH.
  - exfalso. clear IH E1. induction l as [|a' l IH]; [discriminate E|]. now apply IH.
Qed.


(** * Theorems *)

(** C13: The destructor of a session runs once, when the last reference is gone,
    on the thread that let it go.  No other thread of the session is then inside
    it: each has ended, is about to, or is a timer that will find the session
    gone, and these are all the joins of the destructor can wait for.  Two things
    the code hopes for never happen: the timer of the circuit breaker is never
    stopped early, since it holds a reference while it waits, and the descriptor
    the destructor shuts down is never the session's, since the read loop has
    closed it before. *)
Theorem destructor_last (server : bool) (cap : Z) (s : sess) :
  rtc (sess_step server) (created server cap) s ->
  (dead s = true <-> strong s = 0%nat) /\
  (forall i k, ts s !! i = Some (Destroy k) -> dead s = true /\ conn s <> Mine /\
     forall j pc, ts s !! j = Some pc -> j <> i -> pc = BStart \/ pc = Exit \/ pc = Ended) /\
  (forall i, ts s !! i = Some BWait -> breaker_stop s = false).
Proof.
  intros Hr. pose proof (reachable_sess_inv server cap s Hr) as I. split; [apply I|]. split.
  - intros i k Hi. pose proof (si_destroy _ I _ _ Hi) as Hd. split; [exact Hd|]. apply (si_dead _ I) in Hd.
    split.
    + intros Hc. pose proof (si_two _ I). destruct (ts s !! reader) as [r|] eqn:Er;
        [|apply lookup_ge_None in Er; unfold reader in Er; lia].
      apply (si_conn _ I _ Er) in Hc. pose proof (strong_zero _ _ _ Hd Er). destruct r; cbn in *; discriminate.
    + intros j pc Hj Hne. pose proof (strong_zero _ _ _ Hd Hj) as Hh. destruct pc; cbn in Hh; try discriminate Hh; auto.
      destruct Hne. exact (si_once _ I _ _ _ _ Hj Hi).
  - intros i Hi. destruct (breaker_stop s) eqn:E; [|reflexivity].
    pose proof (proj1 (si_dead _ I) (si_stop _ I E)) as Hz. now pose proof (strong_zero _ _ _ Hz Hi).
Qed.


(** A client that is closed by the program and lets its handle go. *)
Definition quiet_end : list action :=
  Call 2 KClose :: replicate 5 (Run 2 Yes) ++ [Call 2 KDrop; Run 2 Yes; Run 2 Yes] ++
  [Run 0 No; Run 0 Yes; Run 0 Yes; Run 0 Yes; Run 0 Yes] ++ replicate 11 (Run 1 Yes).
Definition end_state (server : bool) (l : list action) : sess :=
  default (created server 10) (exec_all server (created server 10) l).

Lemma end_reached server l : match exec_all server (created server 10) l with Some _ => true | None => false end = true ->
  rtc (sess_step server) (created server 10) (end_state server l).
Proof.
  unfold end_state. destruct (exec_all server (created server 10) l) as [s|] eqn:E; [|discriminate].
  intros _. exact (exec_all_steps server l _ _ E).
Qed.

Lemma destructor_last_witness :
  ts (end_state false (take 17 quiet_end)) !! 1%nat = Some (Destroy DStop) /\ dead (end_state false (take 17 quiet_end)) = true.
Proof.
  split; [vm_compute; reflexivity|].
  destruct (destructor_last false 10 (end_state false (take 17 quiet_end))) as (_ & H & _).
  - apply end_reached. vm_compute. reflexivity.
  - apply (H 1%nat DStop). vm_compute. reflexivity.
Defined.


(** The read loop ends between the exchange of [shutdown] and the end of [close]
    on another thread; its descriptor is closed, and the number is given out. *)
Definition number_reused : list action :=
  [Call 2 KClose; Run 0 Yes; Run 0 Yes; Run 0 Yes; OpenFd] ++ replicate 5 (Run 2 Yes).

(** The peer opens a stream while the server's program closes the session: the
    read loop has passed the test of [shutdown], and puts the stream in the table
    after [close] has emptied it.  All handles are let go. *)
Definition late_stream : list action :=
  [Run 0 Yes; Run 0 Yes; Run 2 Yes; Call 3 KClose] ++ replicate 5 (Run 3 Yes) ++ [Run 0 New] ++
  replicate 6 (Run 0 Yes) ++ replicate 4 (Run 1 Yes) ++ replicate 3 (Run 2 Yes) ++ [Call 3 KDrop; Run 3 Yes; Run 3 Yes].

(** The session is closed before [recv_loop] has stored its receiver. *)
Definition closed_first : list action :=
  Call 3 KClose :: replicate 5 (Run 3 Yes) ++ [Call 3 KDrop; Run 3 Yes; Run 3 Yes] ++ replicate 5 (Run 0 Yes) ++
  replicate 4 (Run 1 Yes) ++ [Run 2 Yes].

(** C40: Three races of [close], each from a session as [create] returns it.
    First, [close] shuts down a descriptor of somebody else: the read loop may
    have closed [conn_fd] already, and the process may have given the number out
    again.  Second, a stream that comes in while the session is closed stays in
    the table, and since it holds a reference the session is never destroyed,
    although all its threads have ended and the program holds nothing of it.
    Third, a [recv_loop] that starts after [close] waits for ever, and keeps the
    session with it. *)
Theorem close_races :
  (exists s, rtc (sess_step false) (created false 10) s /\ hit_other s = true /\ dead s = false) /\
  (exists s, rtc (sess_step true) (created true 10) s /\ Forall (eq Ended) (ts s) /\ table s = 1%nat /\ dead s = false) /\
  (exists s, rtc (sess_step true) (created true 10) s /\ shut s = true /\ resting true s /\ down s = true /\
     ts s = [Ended; Ended; VRecv; Ended] /\ dead s = false).
Proof.
  split; [|split].
  - exists (end_state false number_reused). split; [apply end_reached; vm_compute; reflexivity|]. vm_compute. auto.
  - exists (end_state true late_stream). split; [apply end_reached; vm_compute; reflexivity|].
    vm_compute. repeat constructor.
  - exists (end_state true closed_first). split; [apply end_reached; vm_compute; reflexivity|].
    assert (ts (end_state true closed_first) = [Ended; Ended; VRecv; Ended]) as Et by (vm_compute; reflexivity).
    split; [vm_compute; reflexivity|]. split; [|split; [vm_compute; reflexivity|split; [exact Et|vm_compute; reflexivity]]].
    intros i pc Hi _. rewrite Et in Hi. apply list_elem_of_lookup_2 in Hi.
    assert (pc = Ended \/ pc = VRecv) as [->| ->] by set_solver; vm_compute; reflexivity.
Qed.
