(* ===== verification/Managers.v ===== *)
(** Many sessions to one peer, and the sessions of a server:
    [Session::client] and the state [Session::create] starts with
    ([include/shmipc/session.hpp], [src/session.cpp]), [SessionManager]
    ([include/shmipc/session_manager.hpp]) and [Listener]
    ([include/shmipc/listener.hpp], [src/listener.cpp]).

    Connecting, the handshake and the threads are arguments: a list of what
    each attempt gives. *)
From Stdlib Require Import Ascii.
From stdpp Require Import pretty.
From S2P Require Import Prelude Errors Consts Config Shm Queue Slices Pool BufList Manager Linked.
From S2P Require Import Wire Stream StreamRecv StreamSend Session Channel Mapping Scenario Text.

Definition set_paths (c : Config) (prefix queue : string) : Config :=
  mkConfig (connection_write_timeout c) (connection_read_timeout c) (connection_timeout c)
    (initialize_timeout c) (queue_cap c) queue (share_memory_buffer_cap c) prefix (buffer_slice_sizes c)
    (mem_map_type c) (rebuild_interval c) (max_stream_num c).

(** * A session *)

(** The names of a client's session, which [Session::client] writes to the
    configuration it is given. *)
Definition client_config (pid session_id epoch_id rand_id : Z) (cfg : Config) : result unit * Config :=
  let prefix := share_memory_path_prefix cfg +:+ "_" +:+ pretty pid in
  let cfg := set_paths cfg prefix (queue_path cfg) in
  if bool_decide (mem_map_type cfg = kDevShmFile) &&
     (kFileNameMaxLen <? Z.of_nat (String.length prefix) + kEpochInfoMaxLen + kQueueInfoMaxLen)
  then (fail_with kFileNameTooLong, cfg)
  else
  let prefix := if 0 <? epoch_id
                then prefix +:+ "_epoch_" +:+ pretty epoch_id +:+ "_" +:+ pretty rand_id else prefix in
  let queue := if String.eqb prefix "" then queue_path cfg
               else prefix +:+ "_queue_" +:+ pretty session_id in
  (Ok tt, set_paths cfg prefix queue).

(** The state of a new session, over the managers it was given. *)
Definition new_shared (config : Config) (client debug : bool) (w : memory) (m : shm) (qm : QueueManager)
    (version : Z) : SessionShared :=
  mkShared (if client then 1 else 2) w m (qm_send_queue qm) (qm_recv_queue qm) version [] (max_stream_num config)
    ∅ client 0 0 None [] false [] (if client then None else Some []) no_stats ∅ 0 debug.

(** * [SessionManager] *)

Definition kSessionRoundRobinThreshold : Z := 32.

(** A slot: a session with the pool it allocates from. *)
Record SessionSlot := mkSlot { slot_ops : PoolOps; slot_session : SessionShared }.

Record Inner := mkInnerSM {
  sm_config : SessionManagerConfig;
  sessions : list SessionSlot;
  count : Z;
  shutdown_event : bool;
}.


(** The loop of [create]: [connect i] is what connecting gives, [start] what
    [Session::create] makes of the connection.  The configuration is the one the
    calls before have left. *)
Fixpoint create_sessions {C} (pid : Z) (connect : Z -> result C) (start : Config -> C -> result SessionSlot)
    (n : nat) (i : Z) (cfg : Config) (made : list SessionSlot) : result (list SessionSlot) * Config :=
  match n with
  | O => (Ok made, cfg)
  | S n' =>
      match connect i with
      | Unexpected e => (Unexpected e, cfg)
      | Ok conn =>
          let '(named, cfg) := client_config pid i 0 0 cfg in
          match named with
          | Unexpected e => (Unexpected e, cfg)
          | Ok _ =>
              match start cfg conn with
              | Unexpected e => (Unexpected e, cfg)
              | Ok s => create_sessions pid connect start n' (i + 1) cfg (made ++ [s])
              end
          end
      end
  end.

Definition create_manager {C} (pid : Z) (connect : Z -> result C) (start : Config -> C -> result SessionSlot)
    (sm : SessionManagerConfig) : result Inner :=
  let '(r, cfg) := create_sessions pid connect start (Z.to_nat (session_num_ sm)) 0 (config_ sm) [] in
  match r with
  | Unexpected e => Unexpected e
  | Ok l => Ok (mkInnerSM (mkSMConfig cfg (session_num_ sm) (stream_max_idle_time_ sm)) l 0 false)
  end.

(** The session a request goes to. *)
Definition pick (count : Z) (n : nat) : Z :=
  (u64 (count + 1) / kSessionRoundRobinThreshold) mod Z.of_nat n.



(** [close]: every session, in order. *)
Fixpoint close_slots (fuel : nat) (l : list SessionSlot) : option (list SessionSlot) :=
  match l with
  | [] => Some []
  | slot :: l' =>
      s ← Session.close (slot_ops slot) fuel (slot_session slot);
      rest ← close_slots fuel l';
      Some (mkSlot (slot_ops slot) s :: rest)
  end.


(** * [Listener] *)

(** [accept_loop]: [accepts] is what [accept] gives and what [Session::server]
    makes of it; the sessions so far and what the channel of streams is sent. *)
Fixpoint accept_loop {S} (accepts : list (result (result S))) (made : list S) (sent : list (io_result Stream))
    : list S * list (io_result Stream) :=
  match accepts with
  | [] => (made, sent)
  | Unexpected e :: _ => (made, sent ++ [IoErr (to_io_error_code e)])
  | Ok (Unexpected _) :: accepts' => accept_loop accepts' made sent
  | Ok (Ok s) :: accepts' => accept_loop accepts' (made ++ [s]) sent
  end.

Record Listener := mkListener {
  stream_rx_ : Channel (io_result Stream);
  sessions_ : list SessionSlot;
  listener_fd_ : Z;
  accept_thread_ : bool;  (* joinable *)
}.

(** [start]; the channel of streams is unbounded. *)
Definition start (listen : result Z) : result Listener :=
  match listen with
  | Unexpected e => Unexpected e
  | Ok fd => Ok (mkListener (Chan.make 0) [] fd true)
  end.

(** [accept]: the next stream of any session. *)
Definition accept (stream_rx : Channel (io_result Stream)) : option (io_result Stream * Channel (io_result Stream)) :=
  '(res, c) ← Chan.recv stream_rx;
  Some (default (IoErr connection_aborted) res, c).

(** [close] and the destructor.  [late] is the sessions the accept thread adds
    after [close] has copied the list and before the thread has ended. *)
Definition listener_close (fuel : nat) (late : list SessionSlot) (l : Listener) : option Listener :=
  closed ← close_slots fuel (sessions_ l);
  let late := if accept_thread_ l then late else [] in
  Some (mkListener (Chan.stop (stream_rx_ l)) (closed ++ late) (-1) false).
Definition listener_destroy (fuel : nat) (late : list SessionSlot) (l : Listener) : option Listener :=
  if accept_thread_ l then listener_close fuel late l else Some l.

(** A listener that was closed accepts nothing more; its destructor then does
    nothing. *)
Lemma closed_listener fuel late l l' : listener_close fuel late l = Some l' ->
  Chan.stopped (stream_rx_ l') = true /\ listener_fd_ l' = -1 /\
  (forall late', listener_destroy fuel late' l' = Some l').
Proof. unfold listener_close. intros H. apply bind_Some in H as (c & _ & H). injection H as <-. auto. Qed.

(** A session that is accepted while the listener closes stays open. *)
Lemma late_session_open fuel late l l' slot : listener_close fuel late l = Some l' -> accept_thread_ l = true ->
  slot ∈ late -> slot ∈ sessions_ l'.
Proof.
  unfold listener_close. intros H Ha Hs. apply bind_Some in H as (c & _ & H). injection H as <-. rewrite Ha. cbn.
  apply elem_of_app. auto.
Qed.

(** * Sharing the requests out *)

Lemma filter_ext_in {A} (P Q : A -> Prop) `{forall x, Decision (P x), forall x, Decision (Q x)} (l : list A) :
  (forall x, x ∈ l -> P x <-> Q x) -> filter P l = filter Q l.
Proof.
  induction l as [|x l IH]; intros Hl; [reflexivity|]. rewrite !filter_cons.
  rewrite IH by (intros y Hy; apply Hl; now constructor).
  specialize (Hl x ltac:(constructor)). destruct (decide (P x)), (decide (Q x)); tauto.
Qed.

Section round_robin.
Variable n : nat.
Hypothesis Hn : (0 < n)%nat.
Variable i : Z.

(** [pick] without the wrap-around. *)
Definition slot_of_call (k : Z) : Z := ((k + 1) / 32) mod Z.of_nat n.
Definition calls_of (l : list Z) : list Z := filter (fun k => slot_of_call k = i) l.

Lemma slot_periodic k : slot_of_call (k + 32 * Z.of_nat n) = slot_of_call k.
Proof.
  unfold slot_of_call. replace (k + 32 * Z.of_nat n + 1) with (k + 1 + Z.of_nat n * 32) by lia.
  rewrite Z.div_add by lia. rewrite <- (Z.mul_1_l (Z.of_nat n)) at 1. apply Z_mod_plus_full.
Qed.

Lemma calls_shift c : length (calls_of (seqZ (c + 1) (32 * Z.of_nat n))) =
  length (calls_of (seqZ c (32 * Z.of_nat n))).
Proof.
  unfold calls_of. rewrite (seqZ_cons c) by lia.
  replace (seqZ (c + 1) (32 * Z.of_nat n)) with (seqZ (Z.succ c) (Z.pred (32 * Z.of_nat n) + 1)) by (f_equal; lia).
  rewrite seqZ_app by lia. rewrite filter_app, length_app, filter_cons.
  replace (seqZ (Z.succ c + Z.pred (32 * Z.of_nat n)) 1) with [c + 32 * Z.of_nat n].
  2: { rewrite (seqZ_cons _ 1) by lia. cbn. f_equal. lia. }
  rewrite filter_cons, slot_periodic. cbn [filter list_filter].
  destruct (decide (slot_of_call c = i)); cbn; lia.
Qed.

Lemma filter_all (l : list Z) : (forall k, k ∈ l -> slot_of_call k = i) -> calls_of l = l.
Proof.
  unfold calls_of. induction l as [|k l IH]; intros H; [reflexivity|].
  rewrite filter_cons, decide_True by (apply H; constructor). f_equal. apply IH. intros x Hx. apply H. now constructor.
Qed.
Lemma filter_none (l : list Z) : (forall k, k ∈ l -> slot_of_call k <> i) -> calls_of l = [].
Proof.
  unfold calls_of. induction l as [|k l IH]; intros H; [reflexivity|].
  rewrite filter_cons, decide_False by (apply H; constructor). apply IH. intros x Hx. apply H. now constructor.
Qed.

Lemma calls_first : 0 <= i < Z.of_nat n -> length (calls_of (seqZ (-1) (32 * Z.of_nat n))) = 32%nat.
Proof.
  intros Hi. replace (32 * Z.of_nat n) with (32 * i + (32 + 32 * (Z.of_nat n - i - 1))) by lia.
  rewrite !seqZ_app by lia. unfold calls_of. rewrite !filter_app. fold (calls_of (seqZ (-1) (32 * i))).
  fold (calls_of (seqZ (-1 + 32 * i) 32)). fold (calls_of (seqZ (-1 + 32 * i + 32) (32 * (Z.of_nat n - i - 1)))).
  rewrite (filter_none (seqZ (-1) (32 * i))).
  2: { intros k [H1 H2]%elem_of_seqZ. unfold slot_of_call. rewrite Z.mod_small; [|split].
       - intros E. pose proof (Z.div_lt_upper_bound (k + 1) 32 i ltac:(lia) ltac:(lia)). lia.
       - apply Z.div_pos; lia.
       - apply Z.div_lt_upper_bound; lia. }
  rewrite (filter_all (seqZ (-1 + 32 * i) 32)).
  2: { intros k [H1 H2]%elem_of_seqZ. unfold slot_of_call.
       assert ((k + 1) / 32 = i) as -> by (symmetry; apply (Z.div_unique_pos _ _ _ (k + 1 - 32 * i)); lia).
       apply Z.mod_small. lia. }
  rewrite (filter_none (seqZ (-1 + 32 * i + 32) _)).
  2: { intros k [H1 H2]%elem_of_seqZ. unfold slot_of_call. rewrite Z.mod_small; [|split].
       - intros E. pose proof (Z.div_le_lower_bound (k + 1) 32 (i + 1) ltac:(lia) ltac:(lia)). lia.
       - apply Z.div_pos; lia.
       - apply Z.div_lt_upper_bound; lia. }
  cbn [app]. rewrite app_nil_r, length_seqZ. reflexivity.
Qed.

Lemma calls_window c : 0 <= i < Z.of_nat n -> 0 <= c ->
  length (calls_of (seqZ c (32 * Z.of_nat n))) = 32%nat.
Proof.
  intros Hi Hc. replace c with (-1 + Z.of_nat (Z.to_nat (c + 1))) by lia.
  induction (Z.to_nat (c + 1)) as [|m IH]; [apply calls_first; exact Hi|].
  replace (-1 + Z.of_nat (S m)) with (-1 + Z.of_nat m + 1) by lia. now rewrite calls_shift.
Qed.
End round_robin.

(** Requests are shared out evenly.  Over any [32 * n] consecutive requests
    to a manager of [n] sessions each session is picked exactly 32 times, as long
    as the counter does not wrap. *)
Theorem round_robin_fair (n : nat) (c i : Z) : (0 < n)%nat -> 0 <= c ->
  c + 32 * Z.of_nat n < 18446744073709551616 -> 0 <= i < Z.of_nat n ->
  length (filter (fun k => pick k n = i) (seqZ c (32 * Z.of_nat n))) = 32%nat.
Proof.
  intros Hn Hc Hw Hi. rewrite <- (calls_window n Hn i c Hi Hc). unfold calls_of. f_equal.
  apply filter_ext_in. intros k [H1 H2]%elem_of_seqZ.
  unfold pick, slot_of_call, kSessionRoundRobinThreshold. now rewrite u64_id by lia.
Qed.

(** * Streams go back to their session *)









(** A stream that outlived its session was closed with it ([Session.close]):
    handing it back changes nothing but its own state. *)
Lemma closed_not_pooled ops fuel s st i : inner_of s st = Some i -> state i = kStreamClosed ->
  put_or_close_stream ops fuel s st = Some (put_inner s st (set_state i kStreamClosed)).
Proof.
  intros Hi Hs. unfold put_or_close_stream, StreamOps.fallback_state, StreamOps.reset, StreamOps.close.
  rewrite Hi. cbn. rewrite Hs. destruct (in_fallback_state i); cbn; rewrite ?Hi; cbn; rewrite ?Hs; reflexivity.
Qed.

















(** * The names of the sessions *)

(** The prefix of session [i]: each session of a manager adds the process id to
    what the one before it left. *)
Definition prefix_of (pid : Z) (cfg : Config) (i : nat) : string :=
  Nat.iter (S i) (fun p => p +:+ "_" +:+ pretty pid) (share_memory_path_prefix cfg).
Definition queue_of (pid : Z) (cfg : Config) (i : nat) : string :=
  prefix_of pid cfg i +:+ "_queue_" +:+ pretty (Z.of_nat i).

Lemma client_config_ok pid i cfg u cfg' : client_config pid i 0 0 cfg = (Ok u, cfg') ->
  let p := share_memory_path_prefix cfg +:+ "_" +:+ pretty pid in
  cfg' = set_paths cfg p (p +:+ "_queue_" +:+ pretty i).
Proof.
  unfold client_config. destruct (_ && _); [discriminate|]. intros [= _ <-]. cbn.
  destruct (String.eqb_spec (share_memory_path_prefix cfg +:+ "_" +:+ pretty pid) "") as [E|_]; [|reflexivity].
  apply (f_equal chars) in E. rewrite !chars_app in E. cbn in E. now destruct (chars (share_memory_path_prefix cfg)).
Qed.

Lemma create_sessions_names {C} pid (connect : Z -> result C) start n : forall i cfg made l cfg',
  create_sessions pid connect start n i cfg made = (Ok l, cfg') ->
  exists new, l = made ++ new /\ forall k slot, new !! k = Some slot ->
    exists c, connect (i + Z.of_nat k) = Ok c /\
      start (set_paths cfg (prefix_of pid cfg k) (prefix_of pid cfg k +:+ "_queue_" +:+ pretty (i + Z.of_nat k))) c
        = Ok slot.
Proof.
  induction n as [|n IH]; intros i cfg made l cfg'; cbn [create_sessions].
  { intros [= -> _]. exists []. split; [now rewrite app_nil_r|intros k slot; discriminate]. }
  destruct (connect i) as [c|e] eqn:Ec; [|discriminate].
  destruct (client_config pid i 0 0 cfg) as [[u|e] cfg1] eqn:En; [|discriminate].
  apply client_config_ok in En. cbn in En.
  destruct (start cfg1 c) as [slot|e] eqn:Es; [|discriminate]. intros H. apply IH in H as (new & -> & Hnew).
  exists (slot :: new). split; [now rewrite <- app_assoc|]. intros [|k] slot'; cbn [lookup list_lookup].
  - intros [= <-]. exists c. rewrite Z.add_0_r. split; [exact Ec|]. rewrite <- Es, En. reflexivity.
  - intros Hk. destruct (Hnew k slot' Hk) as (c' & Hc & Hs). exists c'.
    replace (i + Z.of_nat (S k)) with (i + 1 + Z.of_nat k) by lia. split; [exact Hc|].
    assert (prefix_of pid cfg1 k = prefix_of pid cfg (S k)) as Ep.
    { unfold prefix_of. rewrite En. cbn [set_paths share_memory_path_prefix]. now rewrite (Nat.iter_succ_r (S k)). }
    rewrite <- Hs, Ep, En. reflexivity.
Qed.

Lemma queue_of_inj pid cfg i j : queue_of pid cfg i = queue_of pid cfg j -> i = j.
Proof.
  intros E. apply (f_equal chars) in E. unfold queue_of in E. rewrite !chars_app in E.
  change (chars "_queue_") with (chars "_queue" ++ ["_"%char]) in E. rewrite <- !app_assoc in E. cbn [app] in E.
  rewrite (app_assoc (chars (prefix_of pid cfg i))), (app_assoc (chars (prefix_of pid cfg j))) in E.
  apply last_separator in E as [_ E]; [|apply digit_not; [reflexivity|apply pretty_digits; lia]..].
  apply (f_equal String.string_of_list_ascii) in E. rewrite !String.string_of_list_ascii_of_string in E.
  apply (inj pretty) in E. lia.
Qed.

(** No two sessions of a manager use the same queue.  Session [i] of a new
    manager is created with the process id added to the prefix of the session
    before it and with its number in the path of its queue, and the paths of
    any two sessions differ. *)
Theorem session_names {C} (pid : Z) (connect : Z -> result C) (start : Config -> C -> result SessionSlot)
    (sm : SessionManagerConfig) (x : Inner) : create_manager pid connect start sm = Ok x ->
  (forall i slot, sessions x !! i = Some slot -> exists c, connect (Z.of_nat i) = Ok c /\
     start (set_paths (config_ sm) (prefix_of pid (config_ sm) i) (queue_of pid (config_ sm) i)) c = Ok slot) /\
  (forall i j, i <> j -> queue_of pid (config_ sm) i <> queue_of pid (config_ sm) j).
Proof.
  unfold create_manager. destruct (create_sessions _ _ _ _ _ _ _) as [[l|e] cfg] eqn:E; [|discriminate].
  intros [= <-]. cbn [sessions]. apply create_sessions_names in E as (new & -> & Hnew). split; [exact Hnew|].
  intros i j Hij Eq. apply Hij. now apply queue_of_inj in Eq.
Qed.

(** * The theorems at work *)

Lemma round_robin_fair_witness : length (filter (fun k => pick k 3 = 1) (seqZ 100 96)) = 32%nat.
Proof. apply (round_robin_fair 3 100 1); lia. Defined.

(** A manager of two sessions over pools of their own. *)
Definition demo_queues : QueueManager := 
  mkQM (queue_at x86_64 0 4) (queue_at x86_64 0 4) "q" 0 (mkMap (Some 0) 128) kMemFd.
Definition demo_start (cfg : Config) (c : unit) : result SessionSlot :=
  match Manager.create (zero_shm 300) demo_sizes (share_memory_path_prefix cfg) 0 with
  | Some (Ok bm, m) => Ok (mkSlot (manager_ops bm) (new_shared cfg true false (Memory m ∅ 0) (zero_shm 128) demo_queues 3))
  | _ => fail_with kNoMoreBuffer
  end.
Definition demo_manager : result Inner :=
  create_manager 7 (fun _ => Ok tt) demo_start (mkSMConfig default_config 2 0).





Lemma session_names_witness : exists x slot c, demo_manager = Ok x /\ sessions x !! 1%nat = Some slot /\
  demo_start (set_paths default_config (prefix_of 7 default_config 1) (queue_of 7 default_config 1)) c = Ok slot.
Proof.
  assert (match demo_manager with Ok x => is_Some (sessions x !! 1%nat) | Unexpected _ => False end) as H.
  { assert (match demo_manager with Ok x => length (sessions x) = 2%nat | Unexpected _ => False end) as H.
    { vm_compute. reflexivity. }
    destruct demo_manager as [x|e]; [|destruct H]. apply lookup_lt_is_Some. lia. }
  destruct demo_manager as [x|e] eqn:E; [|destruct H]. destruct H as [slot Hs].
  destruct (session_names 7 (fun _ => Ok tt) demo_start (mkSMConfig default_config 2 0) x E) as [Hn _].
  destruct (Hn 1%nat slot Hs) as (c & _ & Hc). exists x, slot, c. auto.
Defined.
