(* ===== verification/Compact.v ===== *)
(** Streams as byte streams: [ShmBufReader] ([include/shmipc/util/shmbuf_reader.hpp])
    and [StreamExt] ([include/shmipc/compact.hpp], [src/compact.cpp]), the
    reading and writing of plain byte ranges over a stream. *)
From S2P Require Import Prelude Errors Consts Config Shm Queue Slices Pool BufList.
From S2P Require Import Manager Linked LinkedWrite LinkedRead Wire Stream StreamRecv.
From S2P Require Import StreamSend StreamClose Session Delivery Scenario.

(** * [ShmBufReader] *)

Record ShmBufReader := mkReader { buf_ : Buf; consumed_ : Z }.

Module ShmReader.
(** [read] into [room] bytes: whether all is consumed, and the bytes copied. *)
Definition read (w : memory) (r : ShmBufReader) (room : nat) : option (bool * list Z * ShmBufReader) :=
  if BufOps.size (buf_ r) <=? consumed_ r then Some (true, [], r) else
  all ← BufOps.bytes w (buf_ r);
  let inner := drop (Z.to_nat (consumed_ r)) all in
  if (length inner <=? room)%nat then
    Some (true, inner, mkReader (buf_ r) (u64 (consumed_ r + Z.of_nat (length inner))))
  else Some (false, take room inner, mkReader (buf_ r) (u64 (consumed_ r + Z.of_nat room))).

Definition consumed (r : ShmBufReader) : Z := consumed_ r.
End ShmReader.

(** * [StreamExt] *)

Record StreamExt := mkExt { ext_inner : Stream; reader_ : option ShmBufReader }.

(** What other threads and the peer do while one [Stream::read] waits. *)
Definition wait := list (SessionShared -> SessionShared).

Module Ext.
Definition make (st : Stream) : StreamExt := mkExt st None.

Section ops.
Variable ops : PoolOps.
Variable fuel : nat.

(** The branch of [read] that has a reader. *)
Definition consume (s : SessionShared) (x : StreamExt) (r : ShmBufReader) (room : nat)
    : option (io_result (list Z) * SessionShared * StreamExt) :=
  '(all, bytes, r) ← ShmReader.read (mem s) r room;
  Some (IoOk bytes, s, mkExt (ext_inner x) (if (all : bool) then None else Some r)).

(** [read] into [room] bytes: the bytes it copies there.  [waits] holds one
    element per call of [Stream::read]; where there is none the call blocks. *)
Definition read (waits : list wait) (s : SessionShared) (x : StreamExt) (room : nat)
    : option (io_result (list Z) * list wait * SessionShared * StreamExt) :=
  if (room =? 0)%nat then Some (IoOk [], waits, s, x) else
  match reader_ x with
  | Some r => '(res, s, x) ← consume s x r room; Some (res, waits, s, x)
  | None =>
      match waits with
      | [] => None
      | wakes :: waits =>
          '(data, s) ← StreamOps.read ops fuel wakes s (ext_inner x);
          match data with
          | Unexpected e => Some (IoErr (to_io_error_code e), waits, s, x)
          | Ok buf => '(res, s, x) ← consume s x (mkReader buf 0) room; Some (res, waits, s, x)
          end
      end
  end.

Definition write (s : SessionShared) (x : StreamExt) (data : list Z)
    : option (io_result Z * SessionShared) :=
  '(n, s) ← StreamOps.write_bytes ops s (ext_inner x) data;
  Some (match n with Ok n => IoOk n | Unexpected e => IoErr (to_io_error_code e) end, s).

Definition flush (during : nat -> SessionShared -> SessionShared) (s : SessionShared) (x : StreamExt)
    : option (io_result unit * SessionShared) :=
  '(r, s) ← StreamOps.flush ops during s (ext_inner x);
  Some (match r with
        | Ok _ => IoOk tt
        | Unexpected e => if error_is e Errors.kStreamClosed then IoOk tt else IoErr (to_io_error_code e)
        end, s).

(** The loop of [read_exact], with [got] read and [room] bytes to go.  Every
    round brings a byte, so that [room] bounds the rounds. *)
Fixpoint read_rounds (n : nat) (waits : list wait) (s : SessionShared) (x : StreamExt) (room : nat)
    (got : list Z) : option (io_result (list Z) * list wait * SessionShared * StreamExt) :=
  if (room =? 0)%nat then Some (IoOk got, waits, s, x) else
  match n with
  | O => None
  | S n' =>
      '(r, waits, s, x) ← read waits s x room;
      match r with
      | IoErr e => Some (IoErr e, waits, s, x)
      | IoOk [] => Some (IoErr broken_pipe, waits, s, x)
      | IoOk bytes => read_rounds n' waits s x (room - length bytes) (got ++ bytes)
      end
  end.
Definition read_exact (waits : list wait) (s : SessionShared) (x : StreamExt) (size : nat)
    : option (io_result (list Z) * list wait * SessionShared * StreamExt) :=
  read_rounds size waits s x size [].

(** [write_all]; a write that takes nothing is tried again, so that the rounds
    are bounded by [n]. *)
Fixpoint write_all (n : nat) (s : SessionShared) (x : StreamExt) (data : list Z)
    : option (io_result unit * SessionShared) :=
  match data with
  | [] => Some (IoOk tt, s)
  | _ =>
      match n with
      | O => None
      | S n' =>
          '(r, s) ← write s x data;
          match r with
          | IoErr e => Some (IoErr e, s)
          | IoOk k => write_all n' s x (drop (Z.to_nat k) data)
          end
      end
  end.

Definition shutdown (during : nat -> SessionShared -> SessionShared) (s : SessionShared) (x : StreamExt)
    : option (io_result unit * SessionShared) :=
  '(r, s) ← flush during s x;
  match r with
  | IoErr e => Some (IoErr e, s)
  | IoOk _ =>
      '(r, s) ← StreamOps.close ops fuel s (ext_inner x);
      Some (match r with Ok _ => IoOk tt | Unexpected e => IoErr (to_io_error_code e) end, s)
  end.
End ops.
End Ext.

(** * Reading exactly *)

Section adapter.
Context {ops : PoolOps} `{!Pool ops} (fuel : nat).

(** [Stream::read] returns what the receive buffer holds, at least a byte. *)
Lemma stream_read_run st wakes s i rest xs rest2 zs : fed fuel st 1 wakes s i rest xs rest2 zs ->
  exists buf s' c zs', StreamOps.read ops fuel wakes s st = Some (Ok buf, s') /\ zs = c ++ zs' /\ c <> [] /\
    Z.of_nat (length c) < 18446744073709551616 /\
    handed s' st buf c /\ to_read fuel s' st rest2 zs'.
Proof.
  intros Hfed. destruct (ensure_ok _ _ _ _ _ _ _ _ _ _ Hfed) as (s1 & i1 & ys & slots & ss & bs & E & Hin & Hge).
  assert (exists j, inner_of s st = Some j /\ LB.is_empty (recv_buf j) = (LB.len (recv_buf j) <? 1)) as (j & Ej & Hj).
  { destruct (fed_incoming _ _ _ _ _ _ _ _ _ _ Hfed) as (ys0 & slots0 & ss0 & bs0 & Hin0).
    exists i. split; [apply (in_inner _ _ _ _ _ _ _ _ _ _ Hin0)|].
    pose proof (proj2 (in_recv _ _ _ _ _ _ _ _ _ _ Hin0)) as Hl. unfold LB.is_empty, LB.len. rewrite Hl. lia. }
  unfold StreamOps.ensure in E. rewrite Ej in E. cbn [mbind option_bind] in E.
  unfold StreamOps.read. rewrite Ej. cbn [mbind option_bind]. rewrite Hj, E. cbn [mbind option_bind].
  pose proof Hin as [Ei Hr _ _ _ _ Ezs]. rewrite Ei. cbn [mbind option_bind].
  pose proof (proj2 Hr) as Hl. unfold StreamOps.recv_read, LB.len. rewrite Ei, Hl. cbn [mbind option_bind].
  pose proof (incoming_room _ _ _ _ _ _ _ _ _ _ Hin) as Hrm.
  destruct (read_bytes_ok (mem s1) (recv_buf i1) (slots ++ rest2) ys (Z.of_nat (length ys)) Hr)
    as (buf & w' & b' & -> & Hret & Hr' & Hrs & _); [lia|lia|].
  cbn [mbind option_bind]. rewrite Nat2Z.id in *. rewrite firstn_all in Hret.
  eexists buf, _, ys, bs. split; [reflexivity|]. split; [exact Ezs|]. split; [intros ->; cbn in Hge; lia|].
  split; [exact Hrm|]. split.
  - exists (set_recv i1 b'). split; [apply inner_of_put|exact Hret].
  - pose proof (incoming_reads fuel s1 st i1 rest2 zs ys slots ss bs w' b' (length ys) Hin (le_n _) Hr' Hrs) as H.
    replace (drop (length ys) zs) with bs in H by (rewrite Ezs; symmetry; apply drop_app_length).
    unfold to_read. eexists _, _, _, _, _. exact H.
Qed.

(** The adapter holds on to a reader only while it has bytes left, [ys]. *)
Definition unread (s : SessionShared) (x : StreamExt) (ys : list Z) : Prop :=
  match reader_ x with
  | None => ys = []
  | Some r => exists all, BufOps.bytes (mem s) (buf_ r) = Some all /\
      BufOps.size (buf_ r) = Z.of_nat (length all) /\ Z.of_nat (length all) < 18446744073709551616 /\
      0 <= consumed_ r /\ ys = drop (Z.to_nat (consumed_ r)) all /\ ys <> []
  end.

Lemma unread_nil s x : unread s x [] -> reader_ x = None.
Proof. unfold unread. destruct (reader_ x); [|auto]. intros (? & _ & _ & _ & _ & _ & ?). contradiction. Qed.

Lemma ext_consume_ok s x r room ys : (0 < room)%nat -> unread s (mkExt (ext_inner x) (Some r)) ys ->
  exists x', Ext.consume s x r room = Some (IoOk (take room ys), s, x') /\ unread s x' (drop room ys) /\
    ext_inner x' = ext_inner x.
Proof.
  intros Hroom (all & Hb & Hs & Hlt & Hc & -> & Hne). unfold Ext.consume, ShmReader.read. rewrite Hs.
  assert (Z.to_nat (consumed_ r) < length all)%nat as Hca.
  { apply not_ge. intros H. apply Hne. apply drop_ge. lia. }
  destruct (Z.leb_spec (Z.of_nat (length all)) (consumed_ r)) as [?|_]; [lia|]. rewrite Hb. cbn [mbind option_bind].
  destruct (Nat.leb_spec (length (drop (Z.to_nat (consumed_ r)) all)) room) as [Hle|Hgt]; cbn [mbind option_bind].
  - rewrite take_ge by lia. eexists. split; [reflexivity|]. split; [apply drop_ge; lia|reflexivity].
  - eexists. split; [reflexivity|]. split; [|reflexivity]. rewrite length_drop in Hgt. exists all.
    cbn [reader_ buf_ consumed_]. rewrite u64_id by lia. split; [exact Hb|]. split; [exact Hs|]. split; [exact Hlt|].
    split; [lia|]. rewrite drop_drop. split; [f_equal; lia|]. intros H. apply (f_equal length) in H.
    rewrite length_drop in H. cbn in H. lia.
Qed.

(** The stream brings a reader that takes all there is, again and again, [n]
    bytes: [zs] are the bytes, those the last call leaves included. *)
Inductive supplied (st : Stream) : list wait -> nat -> SessionShared -> list slot -> list Z -> Prop :=
| supplied_done s rest zs : to_read fuel s st rest zs -> supplied st [] 0 s rest zs
| supplied_more wakes waits n s i rest1 rest2 rest xs zs1 buf s' c zs : (0 < n)%nat ->
    fed fuel st 1 wakes s i rest1 xs rest2 zs1 ->
    StreamOps.read ops fuel wakes s st = Some (Ok buf, s') -> BufOps.bytes (mem s') buf = Some c ->
    supplied st waits (n - length c) s' rest zs ->
    supplied st (wakes :: waits) n s rest (c ++ zs).

Lemma read_fresh st wakes waits s x i rest1 xs rest2 zs1 buf s' c room : ext_inner x = st -> reader_ x = None ->
  (0 < room)%nat -> fed fuel st 1 wakes s i rest1 xs rest2 zs1 ->
  StreamOps.read ops fuel wakes s st = Some (Ok buf, s') -> BufOps.bytes (mem s') buf = Some c -> c <> [] /\
  exists x', Ext.read ops fuel (wakes :: waits) s x room = Some (IoOk (take room c), waits, s', x') /\
    unread s' x' (drop room c) /\ ext_inner x' = st.
Proof.
  intros Hst Hx Hroom Hfed E Hc. destruct (stream_read_run _ _ _ _ _ _ _ _ Hfed)
    as (buf' & s1 & c' & zs' & E' & _ & Hne & Hlt & (j & _ & Hb & Hs & _) & _).
  rewrite E in E'. injection E' as <- <-. rewrite Hb in Hc. injection Hc as ->. split; [exact Hne|].
  destruct (ext_consume_ok s' x (mkReader buf 0) room c Hroom) as (x' & Ex & Hu & Hi).
  { exists c. cbn. rewrite drop_0. auto 10 using Z.le_refl. }
  exists x'. unfold Ext.read. destruct (Nat.eqb_spec room 0) as [?|_]; [lia|]. rewrite Hx, Hst, E.
  cbn [mbind option_bind]. rewrite Ex. cbn [mbind option_bind]. rewrite Hi. auto.
Qed.

Lemma read_kept waits s x ys room : unread s x ys -> ys <> [] -> (0 < room)%nat ->
  exists x', Ext.read ops fuel waits s x room = Some (IoOk (take room ys), waits, s, x') /\
    unread s x' (drop room ys) /\ ext_inner x' = ext_inner x.
Proof.
  intros Hu Hne Hroom. unfold Ext.read. destruct (Nat.eqb_spec room 0) as [?|_]; [lia|].
  unfold unread in Hu. destruct (reader_ x) as [r|] eqn:Er; [|contradiction].
  destruct (ext_consume_ok s x r room ys Hroom Hu) as (x' & -> & Hu' & Hi). cbn. eauto.
Qed.

Lemma supplied_zero st waits n s rest zs : supplied st waits n s rest zs -> n = 0%nat ->
  waits = [] /\ to_read fuel s st rest zs.
Proof. destruct 1; [auto|lia]. Qed.

(** One round of the loop that brings [c]. *)
Lemma read_rounds_step n waits s x room got c waits' s' x' : (0 < room)%nat -> c <> [] ->
  Ext.read ops fuel waits s x room = Some (IoOk (take room c), waits', s', x') ->
  Ext.read_rounds ops fuel (S n) waits s x room got =
    Ext.read_rounds ops fuel n waits' s' x' (room - length c) (got ++ take room c).
Proof.
  intros Hroom Hc E. cbn [Ext.read_rounds]. destruct (Nat.eqb_spec room 0) as [?|_]; [lia|]. rewrite E.
  cbn [mbind option_bind]. destruct c as [|b c]; [contradiction|]. destruct room as [|room]; [lia|].
  cbn [take]. f_equal. cbn [length]. rewrite length_take. lia.
Qed.

Lemma read_rounds_done n waits s x got : Ext.read_rounds ops fuel n waits s x 0 got = Some (IoOk got, waits, s, x).
Proof. now destruct n. Qed.

Lemma read_rounds_ok st waits room s rest zs : supplied st waits room s rest zs -> forall n x got,
  ext_inner x = st -> reader_ x = None -> (room <= n)%nat ->
  exists s' x' ys' zs', Ext.read_rounds ops fuel n waits s x room got =
      Some (IoOk (got ++ take room zs), [], s', x') /\
    unread s' x' ys' /\ to_read fuel s' st rest zs' /\ ys' ++ zs' = drop room zs /\ ext_inner x' = st.
Proof.
  induction 1 as [s rest zs Hr|wakes waits room s i rest1 rest2 rest xs zs1 buf s' c zs Hroom Hfed E Hc Hsup IH];
    intros n x got Hx Hnone Hn.
  { exists s, x, [], zs. rewrite read_rounds_done, take_0, app_nil_r, drop_0. unfold unread. rewrite Hnone. auto. }
  destruct n as [|n]; [lia|].
  destruct (read_fresh st wakes waits s x i rest1 xs rest2 zs1 buf s' c room Hx Hnone Hroom Hfed E Hc)
    as (Hne & x1 & E1 & Hu & Hx1).
  rewrite (read_rounds_step n _ _ _ _ got c _ _ _ Hroom Hne E1). rewrite take_app, drop_app.
  destruct (decide (room <= length c)%nat) as [Hle|Hgt].
  - destruct (supplied_zero _ _ _ _ _ _ Hsup ltac:(lia)) as [-> Hr].
    replace (room - length c)%nat with 0%nat by lia. rewrite read_rounds_done.
    exists s', x1, (drop room c), zs. rewrite take_0, drop_0, app_nil_r. auto.
  - rewrite drop_ge in Hu |- * by lia. rewrite (take_ge c) by lia.
    destruct (IH n x1 (got ++ c) Hx1 (unread_nil _ _ Hu)) as (s2 & x2 & ys' & zs' & E2 & H); [destruct c; [contradiction|cbn; lia]|].
    exists s2, x2, ys', zs'. rewrite E2, <- app_assoc. auto.
Qed.

(** C31: [read_exact] fills the buffer.  When the adapter has the bytes [ys] left
    of what it read last and its stream brings what is missing, a piece at a
    time ([supplied]), [read_exact] of [n] bytes returns, with the first [n]
    bytes in order; what the last piece has too many stays with the adapter and
    the stream, for the next call. *)
Theorem read_exact_fills (st : Stream) (x : StreamExt) (waits : list wait) (n : nat) (s : SessionShared)
    (rest : list slot) (ys zs : list Z) :
  ext_inner x = st -> unread s x ys -> supplied st waits (n - length ys) s rest zs ->
  exists s' x' ys' zs', Ext.read_exact ops fuel waits s x n = Some (IoOk (take n (ys ++ zs)), [], s', x') /\
    unread s' x' ys' /\ to_read fuel s' st rest zs' /\ ys' ++ zs' = drop n (ys ++ zs).
Proof.
  intros Hx Hu Hsup. unfold Ext.read_exact. rewrite take_app, drop_app.
  destruct (decide (n = 0)%nat) as [->|Hn].
  { destruct (supplied_zero _ _ _ _ _ _ Hsup ltac:(lia)) as [-> Hr]. rewrite read_rounds_done.
    exists s, x, ys, zs. rewrite !take_0, !drop_0. auto. }
  destruct (decide (ys = [])) as [->|Hne].
  { cbn [length] in *. rewrite Nat.sub_0_r in *. rewrite take_nil, drop_nil. cbn [app].
    destruct (read_rounds_ok st waits n s rest zs Hsup n x [] Hx (unread_nil _ _ Hu) (le_n _))
      as (s' & x' & ys' & zs' & E & H1 & H2 & H3 & _). exists s', x', ys', zs'. auto. }
  destruct n as [|n]; [lia|].
  destruct (read_kept waits s x ys (S n) Hu Hne ltac:(lia)) as (x1 & E1 & Hu1 & Hx1).
  rewrite (read_rounds_step n _ _ _ (S n) [] ys _ _ _ (Nat.lt_0_succ n) Hne E1). cbn [app].
  destruct (decide (S n <= length ys)%nat) as [Hle|Hgt].
  - destruct (supplied_zero _ _ _ _ _ _ Hsup ltac:(lia)) as [-> Hr].
    replace (S n - length ys)%nat with 0%nat by lia. rewrite read_rounds_done.
    exists s, x1, (drop (S n) ys), zs. rewrite take_0, drop_0, app_nil_r. auto.
  - rewrite drop_ge in Hu1 |- * by lia. rewrite (take_ge ys) by lia.
    destruct (read_rounds_ok st waits _ s rest zs Hsup n x1 ys) as (s' & x' & ys' & zs' & E & H1 & H2 & H3 & _);
      [congruence|exact (unread_nil _ _ Hu1)|destruct ys; [contradiction|cbn; lia]|]. exists s', x', ys', zs'. auto.
Qed.

(** [write_all] needs one write: it takes everything. *)
Lemma write_all_ok (s : SessionShared) (x : StreamExt) (i : StreamInner) (rest : list slot) (xs data : list Z) :
  inner_of s (ext_inner x) = Some i -> writable (mem s) (send_buf i) rest xs -> byte_list data -> data <> [] ->
  Z.of_nat (length xs) + Z.of_nat (length data) < 18446744073709551616 -> Z.of_nat (length data) < 4294967296 ->
  Z.of_nat (length (nodes (slice_list_ (send_buf i)))) < 4611686018427387904 ->
  exists w b, Ext.write_all ops 1 s x data = Some (IoOk tt, put_inner (set_mem s w) (ext_inner x) (set_send i b)) /\
    writable w b rest (xs ++ data) /\ leaves (mem s) w (slices (slice_list_ (send_buf i))) rest.
Proof.
  intros Hi Hw Hb Hne H1 H2 H3. destruct (write_bytes_ok _ _ _ _ _ Hw Hb H1 H2 H3) as (w & b & E & Hw' & Hl & _).
  exists w, b. split; [|auto]. destruct data as [|y data]; [contradiction|]. cbn [Ext.write_all].
  unfold Ext.write, StreamOps.write_bytes. rewrite Hi. cbn [mbind option_bind]. rewrite E. cbn [mbind option_bind].
  rewrite Nat2Z.id, drop_all. reflexivity.
Qed.

(** [shutdown] of a stream with nothing to flush closes it; a stream that is
    closed already is left alone. *)
Lemma shutdown_closed during s x i : inner_of s (ext_inner x) = Some i -> LB.is_empty (send_buf i) = true ->
  state i = kStreamClosed ->
  Ext.shutdown ops fuel during s x = Some (IoOk tt, put_inner s (ext_inner x) (set_state i kStreamClosed)).
Proof.
  intros Hi He Hs. unfold Ext.shutdown, Ext.flush, StreamOps.flush, StreamOps.close. rewrite Hi. cbn [mbind option_bind].
  rewrite He. cbn [mbind option_bind]. rewrite Hi. cbn [mbind option_bind]. rewrite Hs. reflexivity.
Qed.
End adapter.

(** Three bytes arrived, and one is read. *)
Lemma read_exact_fills_witness : exists bm d d' x',
  Ext.read_exact (manager_ops bm) 8 [[]] d (Ext.make demo_stream) 1 = Some (IoOk [1], [], d', x').
Proof.
  destruct demo_arrived as (bm & d & j & slots & ss & bs & Hin).
  assert (fed (ops := manager_ops bm) 8 demo_stream 1 [] d j [] [1; 2; 3] [] [1; 2; 3]) as Hfed
    by (eapply fed_done; [exact Hin|cbn; lia]).
  destruct (stream_read_run (ops := manager_ops bm) 8 _ _ _ _ _ _ _ _ Hfed)
    as (buf & d' & c & zs' & E & Ec & Hne & _ & (i & _ & Hb & _) & Hr).
  destruct (read_exact_fills (ops := manager_ops bm) 8 demo_stream (Ext.make demo_stream) [[]] 1 d [] [] (c ++ zs'))
    as (s' & x' & ys' & zs2 & E' & _); [reflexivity|reflexivity| |].
  { cbn [length Nat.sub]. eapply (supplied_more (ops := manager_ops bm) 8 demo_stream [] [] 1);
      [lia|exact Hfed|exact E|exact Hb|].
    replace (1 - length c)%nat with 0%nat by (destruct c; [contradiction|cbn; lia]). now constructor. }
  exists bm, d, s', x'. rewrite E'. cbn [app]. now rewrite <- Ec.
Defined.
