(* ===== verification/Greeter.v ===== *)
(** The examples, [src/examples/greeter_client.cpp], [greeter_server.cpp] and their
    [_tokio] variants over [StreamExt]: a client sends a request of known length,
    the server reads it and answers.  What they do with their stream; the session
    manager and the listener they get it from are in [Managers]. *)
From S2P Require Import Prelude Errors Consts Config Shm Queue Slices Pool BufList Manager.
From S2P Require Import Linked LinkedWrite LinkedRead Wire Stream StreamRecv StreamSend.
From S2P Require Import StreamClose Session Delivery Scenario Duplex Compact.

Definition request_msg : list Z := string_bytes "client say hello world!!!".
Definition resp_msg : list Z := string_bytes "server hello world!!!".

(** The configuration of the client; the server has the default one. *)
Definition greeter_config : SessionManagerConfig :=
  let c := default_config in
  with_config default_sm_config
    {| connection_write_timeout := connection_write_timeout c;
       connection_read_timeout := connection_read_timeout c;
       connection_timeout := connection_timeout c;
       initialize_timeout := initialize_timeout c;
       queue_cap := queue_cap c;
       queue_path := queue_path c;
       share_memory_buffer_cap := share_memory_buffer_cap c;
       share_memory_path_prefix := "/dev/shm/client.ipc.shm";
       buffer_slice_sizes := buffer_slice_sizes c;
       mem_map_type := kMemFd;
       rebuild_interval := rebuild_interval c;
       max_stream_num := max_stream_num c |}.

Section examples.
Variable ops : PoolOps.
Variable fuel : nat.

(** [write_bytes] and [flush], as both programs call them. *)
Definition say (during : nat -> SessionShared -> SessionShared) (s : SessionShared) (st : Stream)
    (msg : list Z) : option (result unit * SessionShared) :=
  '(w, s) ← StreamOps.write_bytes ops s st msg;
  match w with
  | Unexpected e => Some (Unexpected e, s)
  | Ok _ => StreamOps.flush ops during s st
  end.

(** [read_bytes], and the text that is printed. *)
Definition hear (wakes : wait) (s : SessionShared) (st : Stream) (len : Z)
    : option (result (list Z) * SessionShared) :=
  '(r, s) ← StreamOps.read_bytes ops fuel wakes s st len;
  match r with
  | Unexpected e => Some (Unexpected e, s)
  | Ok buf => text ← BufOps.bytes (mem s) buf; Some (Ok text, s)
  end.

(** What [main] of the client does with the stream it got: the exit code, with the
    response.  [put_back] gives the stream to its session. *)
Definition greeter_client (during : nat -> SessionShared -> SessionShared) (wakes : wait)
    (s : SessionShared) (st : Stream) : option (Z * list Z * SessionShared) :=
  '(f, s) ← say during s st request_msg;
  match f with
  | Unexpected _ => Some (1, [], s)
  | Ok _ =>
      '(r, s) ← hear wakes s st (Z.of_nat (length resp_msg));
      match r with
      | Unexpected _ => Some (1, [], s)
      | Ok text => s ← put_or_close_stream ops fuel s st; Some (0, text, s)
      end
  end.

(** A turn of [handle_stream] of the server: the request, when the turn went
    through. *)
Definition handle_turn (wakes : wait) (during : nat -> SessionShared -> SessionShared)
    (s : SessionShared) (st : Stream) : option (option (list Z) * SessionShared) :=
  '(r, s) ← hear wakes s st (Z.of_nat (length request_msg));
  match r with
  | Unexpected _ => Some (None, s)
  | Ok text =>
      '(f, s) ← say during s st resp_msg;
      Some (match f with Ok _ => Some text | Unexpected _ => None end, s)
  end.

(** [handle_stream]: until a turn fails; then the stream is closed. *)
Fixpoint handle_stream (turns : list (wait * (nat -> SessionShared -> SessionShared)))
    (s : SessionShared) (st : Stream) : option SessionShared :=
  match turns with
  | [] => None
  | (wakes, during) :: turns' =>
      '(r, s) ← handle_turn wakes during s st;
      match r with
      | Some _ => handle_stream turns' s st
      | None => '(_, s) ← StreamOps.close ops fuel s st; Some s
      end
  end.

(** The same over [StreamExt]. *)
Definition greeter_client_tokio (during : nat -> SessionShared -> SessionShared) (waits : list wait)
    (s : SessionShared) (st : Stream) : option (Z * list Z * SessionShared) :=
  let conn := Ext.make st in
  '(w, s) ← Ext.write ops s conn request_msg;
  match w with
  | IoErr _ => Some (1, [], s)
  | IoOk _ =>
      '(f, s) ← Ext.flush ops during s conn;
      match f with
      | IoErr _ => Some (1, [], s)
      | IoOk _ =>
          '(r, _, s, conn) ← Ext.read_exact ops fuel waits s conn (length resp_msg);
          match r with
          | IoErr _ => Some (1, [], s)
          | IoOk text => s ← put_or_close_stream ops fuel s (ext_inner conn); Some (0, text, s)
          end
      end
  end.

Definition handle_turn_tokio (waits : list wait) (during : nat -> SessionShared -> SessionShared)
    (s : SessionShared) (conn : StreamExt) : option (option (list Z) * SessionShared * StreamExt) :=
  '(r, _, s, conn) ← Ext.read_exact ops fuel waits s conn (length request_msg);
  match r with
  | IoErr _ => Some (None, s, conn)
  | IoOk text =>
      '(w, s) ← Ext.write_all ops (length resp_msg) s conn resp_msg;
      match w with
      | IoErr _ => Some (None, s, conn)
      | IoOk _ =>
          '(f, s) ← Ext.flush ops during s conn;
          Some (match f with IoOk _ => Some text | IoErr _ => None end, s, conn)
      end
  end.

Fixpoint handle_stream_tokio (turns : list (list wait * (nat -> SessionShared -> SessionShared)))
    (s : SessionShared) (conn : StreamExt) : option SessionShared :=
  match turns with
  | [] => None
  | (waits, during) :: turns' =>
      '(r, s, conn) ← handle_turn_tokio waits during s conn;
      match r with
      | Some _ => handle_stream_tokio turns' s conn
      | None => '(_, s) ← Ext.shutdown ops fuel during s conn; Some s
      end
  end.

End examples.

Section greeting.
Context {ops : PoolOps} `{!Pool ops} (fuel elems : nat).



End greeting.




