(* ===== verification/Transport.v ===== *)
(** The transports of [include/shmipc/transport.hpp] and [src/transport.cpp]:
    addresses, and the sockets that connecting, listening, accepting and
    splitting open and close; the descriptors passed over a socket by
    [src/protocol/block_io.cpp], the timeouts of [src/protocol/protocol.cpp] and
    the levels of [src/log.cpp].  [WriteHalf::write_all] is
    [BufReader.block_write_full].

    The calls of the operating system are arguments, each the answer it gives;
    [open] is the set of the open descriptors. *)
From Stdlib Require Import Ascii.
From stdpp Require Import pretty.
From S2P Require Import Prelude Errors Consts Config Shm Queue Slices Pool BufList Manager Mapping Text.

(** * Addresses *)

(** [sizeof(sockaddr_un::sun_path)] on Linux. *)
Definition sun_path_size : nat := 108.

Record UnixAddr := mkUnixAddr { path : string }.
Record TcpAddr := mkTcpAddr { host : string; port : Z }.

Definition from_pathname (p : string) : result UnixAddr :=
  if String.eqb p "" then Unexpected (error_io "empty unix socket path") else
  if (sun_path_size <=? String.length p)%nat then Unexpected (error_io "unix socket path too long") else
  Ok (mkUnixAddr p).

(** [strncpy] of [c_str()] to the zeroed [sun_path]: up to the first NUL, at
    most all but one of its bytes. *)
Definition NUL : ascii := ascii_of_nat 0.
Fixpoint c_str (s : list ascii) : list ascii :=
  match s with
  | [] => []
  | c :: s' => if Ascii.eqb c NUL then [] else c :: c_str s'
  end.
Definition sun_path (addr : UnixAddr) : list ascii :=
  let s := take (sun_path_size - 1) (c_str (chars (path addr))) in
  s ++ replicate (sun_path_size - length s) NUL.

(** [host.size() >= 2 && host.front() == '[' && host.back() == ']']. *)
Definition bracketed (host : list ascii) : bool :=
  match host with
  | c :: (_ :: _) as rest => Ascii.eqb c "[" && bool_decide (last rest = Some "]"%char)
  | _ => false
  end.
Definition strip_brackets (host : list ascii) : list ascii :=
  if bracketed host then take (length host - 2) (drop 1 host) else host.

Module Tcp.
Definition parse (s : string) : result TcpAddr :=
  match rfind_split ":" (chars s) with
  | None | Some (_, []) => Unexpected (error_io ("invalid tcp address: " +:+ s))
  | Some (host, digits) =>
      let host := strip_brackets host in
      match stoi digits with
      | None => Unexpected (error_io ("invalid tcp port in: " +:+ s))
      | Some port =>
          if (port <? 0) || (65535 <? port) then Unexpected (error_io ("tcp port out of range in: " +:+ s))
          else Ok (mkTcpAddr (String.string_of_list_ascii host) (u16 port))
      end
  end.

Definition to_string (addr : TcpAddr) : string := host addr +:+ ":" +:+ pretty (port addr).
End Tcp.

(** * Sockets *)

Section sockets.
Variable strerror_r : Z -> option string.

Definition failed {A} (e : Z) : result A := Unexpected (from_errno strerror_r e).

Definition accept (answer : sysres Z) (open : gset Z) : result Z * gset Z :=
  match answer with
  | Errno e => (failed e, open)
  | Done fd => (Ok fd, {[fd]} ∪ open)
  end.

Definition connect_unix (socket : sysres Z) (connect : Z -> list ascii -> sysres unit) (addr : UnixAddr)
    (open : gset Z) : result Z * gset Z :=
  match socket with
  | Errno e => (failed e, open)
  | Done fd =>
      let open := {[fd]} ∪ open in
      match connect fd (sun_path addr) with
      | Errno e => (failed e, open ∖ {[fd]})
      | Done _ => (Ok fd, open)
      end
  end.

(** [inet_pton] gives the address of a host; the answer is in host order. *)
Definition INADDR_LOOPBACK : Z := 2130706433.
Definition INADDR_ANY : Z := 0.

Definition connect_tcp (socket : sysres Z) (inet_pton : string -> option Z) (connect : Z -> Z -> Z -> sysres unit)
    (addr : TcpAddr) (open : gset Z) : result Z * gset Z :=
  match socket with
  | Errno e => (failed e, open)
  | Done fd =>
      let open := {[fd]} ∪ open in
      let ip := match inet_pton (host addr) with
                | Some ip => Some ip
                | None => if String.eqb (host addr) "localhost" then Some INADDR_LOOPBACK else None
                end in
      match ip with
      | None => (Unexpected (error_io ("invalid ipv4 host: " +:+ host addr)), open ∖ {[fd]})
      | Some ip =>
          match connect fd ip (port addr) with
          | Errno e => (failed e, open ∖ {[fd]})
          | Done _ => (Ok fd, open)
          end
      end
  end.

(** [bind(...) != 0 || listen(fd, 512) != 0]. *)
Definition bind_listen (bind listen : sysres unit) : sysres unit :=
  match bind with Errno e => Errno e | Done _ => listen end.

(** [files]: the socket files there are.  A stale one is removed first, whatever
    comes of the call; [bind] makes a new one. *)
Definition listen_unix (socket : sysres Z) (bind : Z -> list ascii -> sysres unit) (listen : Z -> sysres unit)
    (addr : UnixAddr) (open : gset Z) (files : gset string) : result Z * gset Z * gset string :=
  match socket with
  | Errno e => (failed e, open, files)
  | Done fd =>
      let open := {[fd]} ∪ open in
      let files := files ∖ {[path addr]} in
      let bound := bind fd (sun_path addr) in
      let files := match bound with Done _ => {[path addr]} ∪ files | Errno _ => files end in
      match bind_listen bound (listen fd) with
      | Errno e => (failed e, open ∖ {[fd]}, files)
      | Done _ => (Ok fd, open, files)
      end
  end.

Definition listen_tcp (socket : sysres Z) (inet_pton : string -> option Z) (bind : Z -> Z -> Z -> sysres unit)
    (listen : Z -> sysres unit) (addr : TcpAddr) (open : gset Z) : result Z * gset Z :=
  match socket with
  | Errno e => (failed e, open)
  | Done fd =>
      let open := {[fd]} ∪ open in
      let ip := if String.eqb (host addr) "" || String.eqb (host addr) "0.0.0.0" then Some INADDR_ANY
                else inet_pton (host addr) in
      match ip with
      | None => (Unexpected (error_io ("invalid ipv4 host: " +:+ host addr)), open ∖ {[fd]})
      | Some ip =>
          match bind_listen (bind fd ip (port addr)) (listen fd) with
          | Errno e => (failed e, open ∖ {[fd]})
          | Done _ => (Ok fd, open)
          end
      end
  end.

(** The two halves over a descriptor, where it can be duplicated. *)
Definition split_fd (dup : sysres Z) (fd : Z) (open : gset Z) : option (Z * Z) * gset Z :=
  match dup with
  | Errno _ => (None, open)
  | Done dup_fd => (Some (fd, dup_fd), {[dup_fd]} ∪ open)
  end.

(** [into_split]: the halves, and what the stream then has for a descriptor. *)
Definition into_split (dup : sysres Z) (fd : Z) (open : gset Z) : option (Z * Z) * Z * gset Z :=
  let '(halves, open) := split_fd dup fd open in (halves, -1, open).

(** The destructors of the streams, the halves and the listeners. *)
Definition destroy (fd : Z) (open : gset Z) : gset Z := if 0 <=? fd then open ∖ {[fd]} else open.
End sockets.

(** * Descriptors over a socket *)

(** A message of [sendmsg] and [recvmsg]: the bytes, and the control messages
    with their level, type and descriptors.  [kMemfdCount] descriptors fit the
    control buffer of both. *)
Definition SOL_SOCKET : Z := 1.
Definition SCM_RIGHTS : Z := 1.
Definition SOCK_STREAM : Z := 1.
Definition SOCK_DGRAM : Z := 2.
Record cmsg := mkCmsg { cmsg_level : Z; cmsg_type : Z; cmsg_fds : list Z }.
Record socket_message := mkMessage { msg_bytes : list Z; msg_control : list cmsg }.

(** [send_fd]: the message is the argument of the call [sendmsg].  More
    descriptors than fit the control buffer are written past its end. *)
Definition send_fd (strerror_r : Z -> option string) (so_type : sysres Z) (sendmsg : socket_message -> sysres Z)
    (fds : list Z) : option (result unit) :=
  let send m := match sendmsg m with
                | Errno e => Some (failed strerror_r e)
                | Done _ => Some (Ok tt)
                end in
  match fds with
  | [] => send (mkMessage [] [])
  | _ =>
      match so_type with
      | Errno e => Some (failed strerror_r e)
      | Done sock_type =>
          if kMemfdCount <? Z.of_nat (length fds) then None else
          send (mkMessage (if sock_type =? SOCK_DGRAM then [] else [0]) [mkCmsg SOL_SOCKET SCM_RIGHTS fds])
      end
  end.

(** The loop over the control messages. *)
Fixpoint first_rights (l : list cmsg) : option (list Z) :=
  match l with
  | [] => None
  | c :: l' => if (cmsg_level c =? SOL_SOCKET) && (cmsg_type c =? SCM_RIGHTS) then Some (cmsg_fds c)
               else first_rights l'
  end.

(** [block_read_out_of_bound_for_fd]: [recvmsg] is given how many bytes are
    asked for. *)
Definition block_read_out_of_bound_for_fd (strerror_r : Z -> option string) (so_type : sysres Z)
    (recvmsg : nat -> sysres (list cmsg)) : result (list Z) :=
  match so_type with
  | Errno e => failed strerror_r e
  | Done sock_type =>
      match recvmsg (if sock_type =? SOCK_DGRAM then 0%nat else 1%nat) with
      | Errno e => Unexpected (error_io ("try recv fd from peer failed, reason:" +:+ default "" (strerror_r e)))
      | Done control =>
          match first_rights control with
          | Some fds => Ok fds
          | None => Unexpected (error_other "parse socket control message ret is nil")
          end
      end
  end.

(** * The timeouts of a handshake *)

(** The constructor of [HandshakeTimeoutGuard]: seconds and microseconds of a
    timeout in nanoseconds; the conversions round towards zero. *)
Definition handshake_timeval (timeout : Z) : Z * Z :=
  let secs := Z.quot timeout 1000000000 in
  let usecs := Z.quot (timeout - secs * 1000000000) 1000 in
  if (secs =? 0) && (usecs =? 0) then (0, 1) else (secs, usecs).

(** * Logging *)

Inductive Level := kOff | kError | kWarn | kInfo | kDebug | kTrace.

Definition parse_level (value : option string) : Level :=
  match value with
  | None => kInfo
  | Some v =>
      if String.eqb v "off" then kOff else if String.eqb v "error" then kError else
      if String.eqb v "warn" then kWarn else if String.eqb v "info" then kInfo else
      if String.eqb v "debug" then kDebug else if String.eqb v "trace" then kTrace else kInfo
  end.

Definition level_number (l : Level) : Z :=
  match l with kOff => 0 | kError => 1 | kWarn => 2 | kInfo => 3 | kDebug => 4 | kTrace => 5 end.
Definition enabled (threshold level : Level) : bool := level_number level <=? level_number threshold.

(** * Addresses are read back *)

Lemma parse_digits (h : list ascii) (p : Z) : 0 <= p <= 65535 ->
  forall s, chars s = h ++ ":"%char :: chars (pretty p) ->
  Tcp.parse s = Ok (mkTcpAddr (String.string_of_list_ascii (strip_brackets h)) p).
Proof.
  intros Hp s Hs. unfold Tcp.parse. rewrite Hs, rfind_last by (apply digit_not; [reflexivity|apply pretty_digits; lia]).
  pose proof (stoi_to_string p ltac:(lia)) as Hv. pose proof (pretty_nonempty p ltac:(lia)) as Hne.
  destruct (chars (pretty p)) as [|c ds]; [contradiction|]. rewrite Hv.
  assert ((p <? 0) || (65535 <? p) = false) as -> by lia. rewrite u16_id by lia. reflexivity.
Qed.

Lemma strip_bracketed (h : list ascii) : strip_brackets ("["%char :: h ++ ["]"%char]) = h.
Proof.
  unfold strip_brackets.
  assert (bracketed ("["%char :: h ++ ["]"%char]) = true) as ->.
  { unfold bracketed. destruct (h ++ ["]"%char]) as [|c l] eqn:E; [now destruct h|].
    rewrite <- E, last_snoc. now rewrite bool_decide_eq_true_2. }
  cbn [drop]. replace (length ("["%char :: h ++ ["]"%char]) - 2)%nat with (length h)
    by (cbn; rewrite length_app; cbn; lia).
  apply take_app_length.
Qed.

(** Addresses are read back.  A TCP address that is printed parses to itself,
    whatever its host (colons included) as long as it is not put in brackets;
    the host of an address in brackets is taken out of them; and an address that
    parses has a port of 16 bits. *)
Theorem tcp_addr_roundtrip :
  (forall addr, 0 <= port addr <= 65535 -> bracketed (chars (host addr)) = false ->
     Tcp.parse (Tcp.to_string addr) = Ok addr) /\
  (forall h p, 0 <= p <= 65535 ->
     Tcp.parse ("[" +:+ h +:+ "]:" +:+ pretty p) = Ok (mkTcpAddr h p)) /\
  (forall s addr, Tcp.parse s = Ok addr -> 0 <= port addr <= 65535).
Proof.
  split; [|split].
  - intros [h p] Hp Hb. cbn [port host] in *. rewrite (parse_digits (chars h) p Hp).
    + unfold strip_brackets. rewrite Hb. now rewrite String.string_of_list_ascii_of_string.
    + unfold Tcp.to_string. now rewrite !chars_app.
  - intros h p Hp. rewrite (parse_digits ("["%char :: chars h ++ ["]"%char]) p Hp).
    + now rewrite strip_bracketed, String.string_of_list_ascii_of_string.
    + rewrite !chars_app. cbn. now rewrite <- app_assoc.
  - intros s addr H. unfold Tcp.parse in H. repeat case_match; try discriminate. injection H as <-. cbn.
    rewrite u16_id; lia.
Qed.

Lemma tcp_addr_roundtrip_witness :
  Tcp.parse "::1:80" = Ok (mkTcpAddr "::1" 80) /\ Tcp.parse "[::1]:80" = Ok (mkTcpAddr "::1" 80).
Proof.
  destruct tcp_addr_roundtrip as (H1 & H2 & _). split.
  - apply (H1 (mkTcpAddr "::1" 80)); [cbn; lia|reflexivity].
  - apply (H2 "::1" 80). lia.
Defined.

Lemma c_str_whole s : NUL ∉ s -> c_str s = s.
Proof.
  induction s as [|c s IH]; intros H; [reflexivity|]. apply not_elem_of_cons in H as [Hc Hs]. cbn.
  destruct (Ascii.eqb_spec c NUL) as [E|_]; [congruence|]. now rewrite IH.
Qed.

(** A path [from_pathname] accepts is copied whole and terminated. *)
Lemma sun_path_whole p addr : from_pathname p = Ok addr -> NUL ∉ chars p ->
  path addr = p /\ (length (chars p) < sun_path_size)%nat /\
  sun_path addr = chars p ++ replicate (sun_path_size - length (chars p)) NUL.
Proof.
  unfold from_pathname. intros H Hn. destruct (String.eqb p ""); [discriminate|].
  destruct (Nat.leb_spec sun_path_size (String.length p)) as [|Hlt]; [discriminate|]. injection H as <-.
  assert (length (chars p) = String.length p) as El by (clear; induction p as [|c p IH]; cbn; auto).
  split; [reflexivity|]. split; [lia|]. unfold sun_path. cbn [path]. rewrite c_str_whole by exact Hn.
  unfold sun_path_size in *. now rewrite take_ge by lia.
Qed.

(** * Sockets that fail are closed *)

Section owned.
Variable strerror_r : Z -> option string.

(** One descriptor more on success, none on failure. *)
Definition owned (open : gset Z) (r : result Z * gset Z) : Prop :=
  match r.1 with Ok fd => r.2 = {[fd]} ∪ open | Unexpected _ => r.2 = open end.

Lemma socket_closed fd (open : gset Z) : fd ∉ open -> ({[fd]} ∪ open) ∖ {[fd]} = open.
Proof. intros H. set_solver. Qed.

Lemma sockets_owned socket open : (forall fd, socket = Done fd -> fd ∉ open) ->
  (forall connect addr, owned open (connect_unix strerror_r socket connect addr open)) /\
  (forall pton connect addr, owned open (connect_tcp strerror_r socket pton connect addr open)) /\
  (forall bind listen addr files, owned open (listen_unix strerror_r socket bind listen addr open files).1) /\
  (forall pton bind listen addr, owned open (listen_tcp strerror_r socket pton bind listen addr open)) /\
  owned open (accept strerror_r socket open).
Proof.
  intros Hnew. unfold connect_unix, connect_tcp, listen_unix, listen_tcp, accept, owned.
  destruct socket as [fd|e]; [|repeat split; intros; reflexivity].
  pose proof (socket_closed fd open (Hnew fd eq_refl)) as Hc.
  split; [|split; [|split; [|split]]].
  - intros connect addr. destruct (connect _ _); [reflexivity|exact Hc].
  - intros pton connect addr. destruct (match pton _ with Some _ => _ | None => _ end) as [ip|]; [|exact Hc].
    destruct (connect _ _ _); [reflexivity|exact Hc].
  - intros bind listen addr files. cbn zeta. destruct (bind_listen _ _); [reflexivity|exact Hc].
  - intros pton bind listen addr. destruct (if _ || _ then _ else _) as [ip|]; [|exact Hc].
    destruct (bind_listen _ _); [reflexivity|exact Hc].
  - reflexivity.
Qed.

(** When the descriptor cannot be duplicated there are no halves, and the
    stream has forgotten its own: nothing closes it. *)
Lemma split_fails_leaks e fd open : fd ∈ open ->
  let '(halves, left_fd, open') := into_split (Errno e) fd open in
  halves = None /\ fd ∈ destroy left_fd open'.
Proof. intros H. cbn. auto. Qed.
End owned.

(** Every level is read back from its name. *)
Lemma parse_level_names : parse_level (Some "off") = kOff /\ parse_level (Some "error") = kError /\
  parse_level (Some "warn") = kWarn /\ parse_level (Some "info") = kInfo /\ parse_level (Some "debug") = kDebug /\
  parse_level (Some "trace") = kTrace /\ parse_level None = kInfo.
Proof. repeat split. Qed.

(** * Descriptors arrive *)

(** What [send_fd] hands to the operating system carries one byte on a stream
    socket and the descriptors, and the receiver of that message gets them. *)
Lemma fds_arrive strerror_r (fds : list Z) : fds <> [] -> Z.of_nat (length fds) <= 2 -> exists m,
  (forall sendmsg, send_fd strerror_r (Done SOCK_STREAM) sendmsg fds =
     Some (match sendmsg m with Errno e => failed strerror_r e | Done _ => Ok tt end)) /\
  msg_bytes m = [0] /\
  forall recvmsg, recvmsg (length (msg_bytes m)) = Done (msg_control m) ->
    block_read_out_of_bound_for_fd strerror_r (Done SOCK_STREAM) recvmsg = Ok fds.
Proof.
  intros Hne Hl. exists (mkMessage [0] [mkCmsg SOL_SOCKET SCM_RIGHTS fds]). split; [|split; [reflexivity|]].
  - intros sendmsg. unfold send_fd, kMemfdCount. destruct fds as [|fd fds]; [contradiction|].
    destruct (Z.ltb_spec 2 (Z.of_nat (length (fd :: fds)))) as [?|_]; [lia|]. cbn. now case_match.
  - intros recvmsg H. cbn in H. unfold block_read_out_of_bound_for_fd. cbn. rewrite H. reflexivity.
Qed.

(** The timeout of a handshake is never switched off, and is the one that was
    asked for, to the microsecond. *)
Lemma handshake_timeval_ok (timeout : Z) : 0 <= timeout ->
  let '(s, us) := handshake_timeval timeout in
  0 <= s /\ 0 <= us < 1000000 /\ 0 < s + us /\ (1000 <= timeout -> 1000000 * s + us = timeout / 1000).
Proof.
  intros Ht. unfold handshake_timeval. rewrite (Z.quot_div_nonneg timeout) by lia.
  pose proof (Z.mod_pos_bound timeout 1000000000 ltac:(lia)) as Hm.
  pose proof (Z.div_mod timeout 1000000000 ltac:(lia)) as Hd.
  assert (0 <= timeout / 1000000000) as Hq by (apply Z.div_pos; lia).
  set (q := timeout / 1000000000) in *. set (r := timeout mod 1000000000) in *.
  replace (timeout - q * 1000000000) with r by lia. rewrite Z.quot_div_nonneg by lia.
  pose proof (Z.div_mod r 1000 ltac:(lia)) as Hr. pose proof (Z.mod_pos_bound r 1000 ltac:(lia)) as Hrm.
  assert (timeout / 1000 = 1000000 * q + r / 1000) as Et.
  { symmetry. apply (Z.div_unique_pos timeout 1000 _ (r mod 1000)); lia. }
  destruct ((q =? 0) && (r / 1000 =? 0)) eqn:E; lia.
Qed.
