(* ===== verification/Descriptors.v ===== *)
(** The objects that own a descriptor, of [include/shmipc/transport.hpp] and
    [src/transport.cpp]: the halves, the streams and the listeners, with what
    constructing, moving, splitting, accepting and destroying do to the
    descriptors of the process. *)
From S2P Require Import Prelude Errors Consts Config Shm Queue Slices Pool BufList Manager Mapping.
From S2P Require Import BufReader Text Transport.

(** * Objects *)












(** [WriteHalf::write_all], over what [::send] answers: what the socket has taken. *)
Fixpoint write_all (strerror_r : Z -> option string) (answers : list write_answer) (data sent : list Z)
    : option (result unit * list Z) :=
  match data with
  | [] => Some (Ok tt, sent)
  | _ =>
      match answers with
      | [] => None
      | WriteEintr :: answers' => write_all strerror_r answers' data sent
      | WriteError e :: _ => Some (Unexpected (from_errno strerror_r e), sent)
      | Wrote n :: answers' => write_all strerror_r answers' (drop n data) (sent ++ take n data)
      end
  end.

(** * One owner each *)

Section owners.
Variable strerror_r : Z -> option string.








End owners.


