(* ===== verification/Trace.v ===== *)
(** What the library prints and how it times out: the lines of [src/log.cpp] and
    [include/shmipc/log.hpp], the traces of [src/protocol/protocol.cpp] with the
    text of a header ([src/protocol/event.cpp]), and the guard that limits a
    handshake in time.  The environment variables and the socket options are
    arguments. *)
From Stdlib Require Import Ascii.
From stdpp Require Import pretty.
From S2P Require Import Prelude Errors Consts Config Shm Queue Slices Pool BufList Manager Mapping.
From S2P Require Import Wire Handshake Text Transport.

(** * Lines *)

Definition newline : string := String (ascii_of_nat 10) EmptyString.
Definition level_name (l : Level) : string :=
  match l with
  | kOff => "OFF" | kError => "ERROR" | kWarn => "WARN" | kInfo => "INFO" | kDebug => "DEBUG" | kTrace => "TRACE"
  end.

(** [threshold], which reads the variable once. *)
Definition threshold (shmipc_log : option string) : Level := parse_level shmipc_log.

(** [write]: what goes to the standard error. *)
Definition log_write (level : Level) (message : string) : string :=
  level_name level +:+ " " +:+ Handshake.c_str message +:+ newline.

(** [SHMIPC_LOG_IMPL], behind [SHMIPC_ERROR] and the others. *)
Definition log_impl (shmipc_log : option string) (level : Level) (message : string) : option string :=
  if enabled (threshold shmipc_log) level then Some (log_write level message) else None.

(** * Traces *)

(** [Header::to_string]. *)
Definition header_text (length magic version : Z) (t : EventType) : string :=
  "Header { length: " +:+ pretty length +:+ ", magic: " +:+ pretty magic +:+ ", version: " +:+ pretty version
    +:+ ", msg_type: " +:+ Handshake.c_str (event_type_name t) +:+ " }".
Definition header_to_string (p : list Z) (i : nat) : option string :=
  length ← Header.length p i;
  magic ← Header.magic p i;
  version ← Header.version p i;
  t ← Header.msg_type p i;
  Some (snprintf 160 (header_text length magic version t)).

Definition protocol_trace_mode (shmipc_protocol_trace : option string) : bool :=
  match shmipc_protocol_trace with
  | None | Some EmptyString => false
  | Some (String c _) => negb (Ascii.eqb c NUL)
  end.

Definition protocol_trace (shmipc_protocol_trace shmipc_log : option string) (h : list Z) (i : nat)
    (body : list Z) (send : bool) : option (option string) :=
  if negb (protocol_trace_mode shmipc_protocol_trace) then Some None else
  text ← header_to_string h i;
  Some (log_impl shmipc_log kWarn
    ((if send then "send, header:" else "recv, header:") +:+ text +:+ " body:" +:+ bytes_string body)).

(** * Timeouts *)

(** [SO_RCVTIMEO] and [SO_SNDTIMEO] of a socket, in seconds and microseconds; zero
    is no timeout. *)
Record timeouts := mkTimeouts { so_rcvtimeo : Z * Z; so_sndtimeo : Z * Z }.

(** The constructor and the destructor of [HandshakeTimeoutGuard]. *)
Definition guard_make (timeout : Z) (_ : timeouts) : timeouts :=
  mkTimeouts (handshake_timeval timeout) (handshake_timeval timeout).
Definition guard_destroy (_ : timeouts) : timeouts := mkTimeouts (0, 0) (0, 0).

(** * A header is printed whole *)

Lemma string_length_app (s t : string) : String.length (s +:+ t) = (String.length s + String.length t)%nat.
Proof. induction s as [|c s IH]; [reflexivity|]. exact (f_equal S IH). Qed.

Lemma pretty_go_length n : forall (x : N) s, (x < 10 ^ N.of_nat n)%N ->
  (String.length (pretty_N_go x s) <= n + String.length s)%nat.
Proof.
  induction n as [|n IH]; intros x s Hx.
  - assert (x = 0)%N as -> by (cbn in Hx; lia). rewrite pretty_N_go_0. lia.
  - assert (x = 0 \/ 0 < x)%N as [->|Hp] by lia; [rewrite pretty_N_go_0; lia|].
    rewrite pretty_N_go_step by exact Hp. etransitivity; [apply IH|cbn; lia].
    rewrite Nat2N.inj_succ, N.pow_succ_r' in Hx. apply N.Div0.div_lt_upper_bound. lia.
Qed.

Lemma pretty_length (n : nat) (z : Z) : (0 < n)%nat -> 0 <= z < 10 ^ Z.of_nat n ->
  (String.length (pretty z) <= n)%nat.
Proof.
  intros Hn [Hz Hlt]. destruct z as [|p|p]; [cbn; lia| |lia].
  unfold pretty, pretty_Z, pretty, pretty_positive, pretty, pretty_N. case_decide; [lia|].
  etransitivity; [apply (pretty_go_length n)|cbn; lia].
  apply N2Z.inj_lt. rewrite N2Z.inj_pow. cbn. rewrite nat_N_Z. exact Hlt.
Qed.

Lemma c_str_length s : (String.length (Handshake.c_str s) <= String.length s)%nat.
Proof. induction s as [|c s IH]; cbn; [lia|]. case_match; cbn; lia. Qed.

Lemma event_type_name_length t : 0 <= t < 256 -> (String.length (event_type_name t) <= 21)%nat.
Proof.
  intros Ht. assert (Forall (fun n => (String.length (event_type_name (Z.of_nat n)) <= 21)%nat) (seq 0 256)) as H.
  { apply (bool_decide_unpack _). now vm_compute. }
  rewrite Forall_forall in H. rewrite <- (Z2Nat.id t) by lia. apply H, elem_of_seq. lia.
Qed.

Lemma substring_whole n s : (String.length s <= n)%nat -> String.substring 0 n s = s.
Proof.
  revert n. induction s as [|c s IH]; intros [|n] H; cbn in *; try lia; try reflexivity. f_equal. apply IH. lia.
Qed.

(** The text of a header fits in the buffer of 160 bytes: [snprintf] cuts
    nothing off, whatever the four fields hold. *)
Lemma header_text_fits length magic version t : 0 <= length < 4294967296 -> 0 <= magic < 65536 ->
  0 <= version < 256 -> 0 <= t < 256 ->
  snprintf 160 (header_text length magic version t) = header_text length magic version t.
Proof.
  intros H1 H2 H3 H4. apply substring_whole. unfold header_text. rewrite !string_length_app.
  pose proof (pretty_length 10 length ltac:(lia) ltac:(lia)). pose proof (pretty_length 5 magic ltac:(lia) ltac:(lia)).
  pose proof (pretty_length 3 version ltac:(lia) ltac:(lia)). pose proof (event_type_name_length t H4).
  pose proof (c_str_length (event_type_name t)). cbn [String.length]. lia.
Qed.

(** With the guard every call of the handshake ends, behind it none is limited. *)
Lemma guard_limits timeout s : 0 <= timeout ->
  so_rcvtimeo (guard_make timeout s) <> (0, 0) /\ so_sndtimeo (guard_make timeout s) <> (0, 0) /\
  guard_destroy (guard_make timeout s) = mkTimeouts (0, 0) (0, 0).
Proof.
  intros Ht. cbn. unfold handshake_timeval. destruct (_ && _) eqn:E; repeat split; try (intros [=]; lia).
  all: intros [= H1 H2]; rewrite H1, H2 in E; discriminate.
Qed.

(** What is printed at a threshold is printed at every higher one. *)
Lemma log_monotone env env' level message : level_number (threshold env) <= level_number (threshold env') ->
  is_Some (log_impl env level message) -> log_impl env' level message = log_impl env level message.
Proof.
  unfold log_impl, enabled. intros Hle [line H]. destruct (Z.leb_spec (level_number level) (level_number (threshold env))) as [Hl|];
    [|discriminate H]. now destruct (Z.leb_spec (level_number level) (level_number (threshold env'))); [|lia].
Qed.
