(* ===== verification/Conformance.v ===== *)
(** The unit tests of the repository, run on the definitions: each [Example] is a
    test of [src/tests] with the values it expects.  What the tests of one file
    share is a definition; random bytes are replaced by bytes that differ, and the
    sizes of the tests that write a byte at a time are scaled down. *)
From S2P Require Import Prelude Errors Consts Config Shm Queue Slices Pool BufList.
From S2P Require Import Manager Mapping Linked Wire Trace.

(** [ASSERT_TRUE]: the test stops when the condition does not hold. *)
Definition assert (b : bool) : option unit := if b then Some tt else None.
Definition expect_ok {A} (r : result A) : option A :=
  match r with Ok x => Some x | Unexpected _ => None end.

(** * tests/test_config.cpp *)

Definition with_sizes (pairs : list SizePercentPair) (queue_cap buffer_cap : Z) : Config :=
  let c := default_config in
  {| connection_write_timeout := connection_write_timeout c; connection_read_timeout := connection_read_timeout c;
     connection_timeout := connection_timeout c; initialize_timeout := initialize_timeout c;
     Config.queue_cap := queue_cap; queue_path := queue_path c; share_memory_buffer_cap := buffer_cap;
     share_memory_path_prefix := share_memory_path_prefix c; buffer_slice_sizes := pairs;
     mem_map_type := mem_map_type c; rebuild_interval := rebuild_interval c; max_stream_num := max_stream_num c |}.

Example config_aligns :
  let '(r, c) := verify (with_sizes [mkPair 4097 50; mkPair 8193 50] 8193 33554432) in
  r = Ok tt /\ queue_cap c = 8200 /\ buffer_slice_sizes c = [mkPair 4100 50; mkPair 8196 50].
Proof. vm_compute. auto. Qed.

Example config_too_small :
  is_ok (fst (verify (with_sizes (buffer_slice_sizes default_config) 8192 1048575))) = false.
Proof. reflexivity. Qed.

Example config_percents : is_ok (fst (verify (with_sizes [mkPair 4096 50] 8192 33554432))) = false.
Proof. reflexivity. Qed.

Example config_defaults : let c := default_config in
  queue_cap c = 8192 /\ queue_path c = "/dev/shm/shmipc_queue" /\ share_memory_buffer_cap c = 32 * 1024 * 1024 /\
  share_memory_path_prefix c = "/dev/shm/shmipc" /\ mem_map_type c = kMemFd /\ max_stream_num c = 4096 /\
  buffer_slice_sizes c = [mkPair (8192 - 20) 50; mkPair (32 * 1024 - 20) 30; mkPair (128 * 1024 - 20) 20] /\
  fst (verify c) = Ok tt.
Proof. vm_compute. repeat split. Qed.

(** * tests/test_buffer_list.cpp *)

Definition refused {A} (r : option (result A)) : bool :=
  match r with Some (Unexpected _) => true | _ => false end.

(** [CreateAndMappingFreeBufferList] and [CreateRejectsOverflowingDimensions]. *)
Definition list_mapping_test : option unit :=
  let mem := zero_shm (count_buffer_list_mem_size 10 16) in
  _ ← assert (refused (fst <$> BList.create mem 0 16 (shm_len mem) 0));
  _ ← assert (refused (fst <$> BList.create mem 11 16 (shm_len mem) 0));
  _ ← assert (refused (fst <$> BList.create (zero_shm 1) 4294967295 4294967295 1 4294967279));
  _ ← assert (refused (BList.mapping (zero_shm 10) 10 0));
  '(l, mem) ← BList.create mem 10 16 (shm_len mem) 0;
  _ ← expect_ok l;
  _ ← assert (refused (BList.mapping mem (shm_len mem) 8));
  l ← BList.mapping mem (shm_len mem) 0;
  _ ← expect_ok l;
  Some tt.
Example list_mapping_passes : list_mapping_test = Some tt.
Proof. vm_compute. reflexivity. Qed.

(** [PutPop]: the list is emptied, filled up again and emptied again. *)
Fixpoint pop_while (fuel : nat) (m : shm) (l : BufferList) (cap_per_buffer : Z) (buffers : list BufferSlice)
    : option (list BufferSlice * shm) :=
  match fuel with
  | O => None
  | S fuel' =>
      remain ← BList.remain m l;
      if remain <=? 0 then Some (buffers, m) else
      '(b, m) ← BList.pop m l;
      b ← expect_ok b;
      h ← buffer_header b;
      next ← BufferHeader.has_next m h;
      _ ← assert ((Slice.capacity b =? cap_per_buffer) && (Slice.size b =? 0) && negb next);
      pop_while fuel' m l cap_per_buffer (buffers ++ [b])
  end.
Definition put_pop_test (buffer_num cap_per_buffer : Z) : option unit :=
  let mem := zero_shm (count_buffer_list_mem_size buffer_num cap_per_buffer) in
  let fuel := S (Z.to_nat buffer_num) in
  '(l, m) ← BList.create mem buffer_num cap_per_buffer (shm_len mem) 0;
  l ← expect_ok l;
  origin_size ← BList.remain m l;
  '(buffers, m) ← pop_while fuel m l cap_per_buffer [];
  m ← foldl (fun m b => m ← m; BList.push m l b) (Some m) buffers;
  size ← BList.remain m l;
  _ ← assert (size =? origin_size);
  '(again, m) ← pop_while fuel m l cap_per_buffer [];
  assert (length again =? length buffers)%nat.
Example put_pop_passes : put_pop_test 100 4096 = Some tt.
Proof. vm_compute. reflexivity. Qed.

(** * tests/test_buffer_manager.cpp *)

(** A pool in anonymous memory, as [map_anonymous] and [BufferManager::create] make it. *)
Definition pool_of (len : Z) (pairs : list SizePercentPair) : option (BufferManager * memory) :=
  '(bm, m) ← Manager.create (zero_shm len) pairs "" 0;
  bm ← expect_ok bm;
  Some (bm, Memory m ∅ 0).
Definition alloc_one (bm : BufferManager) (w : memory) (size : Z) : option (result BufferSlice * memory) :=
  '(r, m) ← Manager.alloc_shm_buffer (shared w) bm size; Some (r, set_shared w m).

(** [ReadBufferSlice]. *)
Definition read_buffer_slice_test : option unit :=
  '(bm, w) ← pool_of 1048576 [mkPair 4096 100];
  '(s, w) ← alloc_one bm w 4096;
  s ← expect_ok s;
  let written := map (fun i => Z.of_nat i * 7 mod 256) (seq 0 4096) in
  '(n, s, w) ← Slice.append w s written;
  _ ← assert ((n =? 4096) && (Slice.size s =? 4096));
  m ← Slice.update (shared w) s None;
  s2 ← Manager.read_buffer_slice m (offset_in_shm s);
  s2 ← expect_ok s2;
  _ ← assert ((Slice.capacity s2 =? Slice.capacity s) && (Slice.size s2 =? Slice.size s));
  bytes ← span_bytes (set_shared w m) (fst (Slice.read s2 4096));
  _ ← assert (bool_decide (bytes = written));
  _ ← assert (refused (Manager.read_buffer_slice m (offset_in_shm s + 1048576)));
  assert (refused (Manager.read_buffer_slice m (offset_in_shm s + 4096))).

(** [AllocRecycle]. *)
Fixpoint alloc_while (fuel : nat) (bm : BufferManager) (w : memory) (buffers : list BufferSlice)
    : option (list BufferSlice * memory) :=
  match fuel with
  | O => None
  | S fuel' =>
      '(s, w) ← alloc_one bm w 4096;
      match s with
      | Ok s => alloc_while fuel' bm w (buffers ++ [s])
      | Unexpected _ => Some (buffers, w)
      end
  end.
Definition alloc_recycle_test : option unit :=
  '(bm, w) ← pool_of 1048576 [mkPair 4096 50; mkPair 8192 50];
  remain ← Manager.remain_size (shared w) bm;
  _ ← assert (remain =? 1048576 - 4096 - 8192);
  num_of_slice ← Manager.slice_size (shared w) bm;
  '(buffers, w) ← alloc_while 1024 bm w [];
  w ← foldl (fun w b => w ← w; Manager.recycle_buffer w bm b) (Some w) buffers;
  '(slices, size, m) ← Manager.alloc_shm_buffers (shared w) bm SList.empty (256 * 1024);
  _ ← assert (size =? 256 * 1024);
  b ← foldl (fun b s => b ← b; LB.append_buffer_slice b s) (Some LB.make) (map snd (nodes slices));
  '(w, b) ← LB.done (manager_ops bm) (set_shared w m) b;
  '(first, _) ← SList.pop_front (slice_list_ b);
  first ← first;
  w ← Manager.recycle_buffers 1024 w bm first;
  size ← Manager.slice_size (shared w) bm;
  assert (size =? num_of_slice).

(** [SkipDuplicateRecycle]. *)
Definition duplicate_test : option unit :=
  '(bm, w) ← pool_of 1048576 [mkPair 4096 100];
  l ← head (lists_ bm);
  size ← BList.size_load (shared w) l;
  counter ← BList.counter_load (shared w) l;
  let stands w size counter :=
    size' ← BList.size_load (shared w) l;
    counter' ← BList.counter_load (shared w) l;
    assert ((size' =? size) && (counter' =? counter)) in
  '(slice, w) ← alloc_one bm w 4096;
  slice ← expect_ok slice;
  alias ← Manager.read_buffer_slice (shared w) (offset_in_shm slice);
  alias ← expect_ok alias;
  _ ← stands w (size - 1) (counter + 1);
  w ← Manager.recycle_buffer w bm slice;
  _ ← stands w size counter;
  w ← Manager.recycle_buffer w bm alias;
  _ ← stands w size counter;
  returned ← Manager.check_buffer_returned (shared w) bm;
  assert returned.

Example manager_tests_pass :
  read_buffer_slice_test = Some tt /\ alloc_recycle_test = Some tt /\ duplicate_test = Some tt.
Proof. vm_compute. auto. Qed.

(** * tests/test_linked_buffer.cpp *)

(** [init_shm], with slices of [size], four and sixteen times as many bytes. *)
Definition init_shm (size : Z) : option (BufferManager * memory) :=
  pool_of (2560 * size) [mkPair size 70; mkPair (4 * size) 20; mkPair (16 * size) 10].
Definition at_front (b : LinkedBuffer) : LinkedBuffer :=
  LB.set_list b (SList.set_write (slice_list_ b) (front_ (slice_list_ b))).
Definition new_linked_buffer_with_slice (s : BufferSlice) : option LinkedBuffer :=
  l ← SList.push_back (slice_list_ LB.make) s;
  Some (LB.set_list LB.make (SList.set_write l (back_ l))).
Definition new_linked_buffer (bm : BufferManager) (w : memory) (bytes : Z) : option (memory * LinkedBuffer) :=
  '(w, b) ← LB.alloc (manager_ops bm) w LB.make bytes; Some (w, at_front b).

Fixpoint write_each (ops : PoolOps) (w : memory) (b : LinkedBuffer) (bytes : list Z)
    : option (memory * LinkedBuffer) :=
  match bytes with
  | [] => Some (w, b)
  | x :: bytes' =>
      '(r, w, b) ← LB.write_bytes ops w b [x];
      n ← expect_ok r;
      _ ← assert (n =? 1);
      write_each ops w b bytes'
  end.
Fixpoint read_each (ops : PoolOps) (times : nat) (w : memory) (b : LinkedBuffer) (n : Z)
    : option (memory * LinkedBuffer) :=
  match times with
  | O => Some (w, b)
  | S times' =>
      '(r, w, b) ← LB.read_bytes ops w b n;
      r ← expect_ok r;
      _ ← assert (BufOps.size r =? n);
      read_each ops times' w b n
  end.
Definition list_is (l : SliceList) (size : Z) (write : bool) : bool :=
  (SList.size l =? size) && Bool.eqb write (match write_ l with Some _ => true | None => false end).

(** [ReleasePreviousRead], which does not look at the pool: how many slices are
    missing in it at the end. *)
Definition release_test (size : Z) (slice_num : nat) : option Z :=
  '(bm, w) ← init_shm size;
  before ← Manager.slice_size (shared w) bm;
  let ops := manager_ops bm in
  '(s, w) ← alloc_one bm w (size / 4);
  s ← expect_ok s;
  b ← new_linked_buffer_with_slice s;
  '(w, b) ← write_each ops w b (map (fun i => Z.of_nat i mod 256) (seq 0 (slice_num * Z.to_nat size)));
  '(w, b) ← LB.done ops w b;
  '(w, b) ← read_each ops (Nat.div slice_num 2) w b size;
  _ ← assert (SList.size (pinned_list_ b) =? Z.of_nat slice_num / 2 - 1);
  '(r, w, b) ← LB.discard ops w b (LB.len b);
  _ ← expect_ok r;
  '(w, b) ← LB.release_previous_read_and_reserve ops w b;
  _ ← assert ((SList.size (pinned_list_ b) =? 0) && (LB.len b =? 0) && list_is (slice_list_ b) 1 true);
  '(w, b) ← LB.release_previous_read ops w b;
  _ ← assert (list_is (slice_list_ b) 0 false);
  after ← Manager.slice_size (shared w) bm;
  Some (before - after).

(** [Reserve]. *)
Definition reserve_test : option unit :=
  '(bm, w) ← init_shm 4096;
  let ops := manager_ops bm in
  '(w, b) ← new_linked_buffer bm w ((64 + 64 + 64) * 1024);
  _ ← assert (list_is (slice_list_ b) 3 true && LB.is_from_share_memory b);
  '(r, w, b) ← LB.reserve ops w b (60 * 1024);
  r ← expect_ok r;
  _ ← assert ((sp_len r =? 60 * 1024) && (SList.size (slice_list_ b) =? 3) && LB.is_from_share_memory b
    && bool_decide (write_ (slice_list_ b) = front_ (slice_list_ b)));
  '(r, w, b) ← LB.reserve ops w b (6 * 1024);
  r ← expect_ok r;
  front ← front_ (slice_list_ b);
  _ ← assert ((sp_len r =? 6 * 1024) && (SList.size (slice_list_ b) =? 3) && LB.is_from_share_memory b
    && bool_decide (write_ (slice_list_ b) = SList.next (slice_list_ b) front));
  '(r, w, b) ← LB.reserve ops w b (128 * 1024);
  r ← expect_ok r;
  assert ((sp_len r =? 128 * 1024) && (SList.size (slice_list_ b) =? 4) && negb (LB.is_from_share_memory b)
    && bool_decide (write_ (slice_list_ b) = back_ (slice_list_ b))).

(** [Done]: what fills two slices is read back, the third was returned. *)
Definition done_test (size : Z) : option unit :=
  '(bm, w) ← init_shm size;
  let ops := manager_ops bm in
  let mock_data := map (fun i => Z.of_nat i * 11 mod 256) (seq 0 (Z.to_nat (32 * size))) in
  '(w, b) ← new_linked_buffer bm w (3 * 16 * size);
  _ ← assert (SList.size (slice_list_ b) =? 3);
  '(r, w, b) ← LB.write_bytes ops w b mock_data;
  _ ← expect_ok r;
  '(w, b) ← LB.done ops w b;
  _ ← assert (SList.size (slice_list_ b) =? 2);
  '(r, w, b) ← LB.read_bytes ops w b (32 * size);
  r ← expect_ok r;
  bytes ← BufOps.bytes w r;
  assert (bool_decide (bytes = mock_data)).

(** The slice that [release_previous_read_and_reserve] kept is lost for the pool. *)
Example linked_tests_pass :
  release_test 64 100 = Some 1 /\ reserve_test = Some tt /\ done_test 64 = Some tt.
Proof. vm_compute. auto. Qed.

(** * tests/test_slice.cpp *)

Definition heap_slice (size : Z) : BufferSlice * memory :=
  Slice.from_heap (Memory (zero_shm 0) ∅ 0) (repeat 0 (Z.to_nat size)).

(** [Skip]. *)
Definition skip_test (size : Z) : option unit :=
  let '(s, w) := heap_slice size in
  '(_, s, _) ← Slice.append w s (repeat 0 (Z.to_nat size));
  let remain := Slice.capacity s in
  let '(n, s) := Slice.skip s 10 in
  let remain := remain - n in
  _ ← assert (Slice.size s =? remain);
  let '(n, s) := Slice.skip s 100 in
  let remain := remain - n in
  _ ← assert (Slice.size s =? remain);
  let '(_, s) := Slice.skip s 10000 in
  assert (Slice.size s =? 0).

(** [Reserve]. *)
Definition slice_reserve_test (size : Z) : option unit :=
  let '(s, w) := heap_slice size in
  let '(data1, s) := Slice.reserve s 100 in
  data1 ← expect_ok data1;
  _ ← assert (sp_len data1 =? 100);
  let data1_copy := map Z.of_nat (seq 0 100) in
  w ← write_place w (sp_data data1) (sp_off data1) data1_copy;
  let '(data2, s) := Slice.reserve s size in
  _ ← assert (negb (is_ok data2));
  let '(read_data, s) := Slice.read s 100 in
  bytes ← span_bytes w read_data;
  _ ← assert (bool_decide (bytes = data1_copy));
  assert (sp_len (fst (Slice.read s 10000)) =? 0).

(** [SplitFromWrite]: [n] slices, the write pointer at slice [at_], what remains. *)
Definition split_test (n at_ : nat) : option (Z * Z * bool) :=
  let s := fst (heap_slice 1024) in
  l ← foldl (fun l i => l ← l; l ← SList.push_back l s;
    Some (if (i =? at_)%nat then SList.set_write l (back_ l) else l)) (Some SList.empty) (seq 0 n);
  '(chain, l) ← SList.split_from_write l;
  Some (Z.of_nat (length chain), SList.size l, bool_decide (back_ l = write_ l)).

Example slice_tests_pass : skip_test 8192 = Some tt /\ slice_reserve_test 8192 = Some tt /\
  split_test 1 0 = Some (0, 1, true) /\ split_test 2 0 = Some (1, 1, true) /\
  split_test 2 1 = Some (0, 2, true) /\ split_test 100 50 = Some (49, 51, true).
Proof. vm_compute. auto 10. Qed.

(** * tests/test_protocol.cpp *)

(** [HeaderEncodeDecode]. *)
Definition header_test : option unit :=
  buf ← Header.encode (repeat 0 8) 0 4096 3 kPolling;
  length ← Header.length buf 0;
  magic ← Header.magic buf 0;
  version ← Header.version buf 0;
  t ← Header.msg_type buf 0;
  _ ← assert ((length =? 4096) && (magic =? kMagicNumber) && (version =? 3) && (t =? kPolling));
  _ ← assert (bool_decide (take 4 buf = [0; 0; 16; 0]));
  valid ← check_event_valid buf 0;
  _ ← expect_ok valid;
  text ← header_to_string buf 0;
  assert (has_substring "Polling" text).

(** [CheckEventValidRejectsBadFrames]: the error of a header. *)
Definition frame_error (version : Z) (t : EventType) (corrupt : bool) : option (result unit) :=
  buf ← Header.encode (repeat 0 8) 0 8 version t;
  check_event_valid (if corrupt then <[4%nat := 18]> buf else buf) 0.
Definition is_error (k : Err) (r : option (result unit)) : bool :=
  match r with Some (Unexpected e) => error_is e k | _ => false end.

(** [PollingEventWithVersion]. *)
Definition polling_test : option unit :=
  events ← polling_event_with_version;
  _ ← assert (Z.of_nat (List.length events) =? kMaxSupportProtoVersion + 1);
  foldl (fun r '(i, e) => _ ← r;
    length ← Header.length e 0; t ← Header.msg_type e 0; version ← Header.version e 0; magic ← Header.magic e 0;
    assert ((length =? kHeaderSize) && (t =? kPolling) && (version =? Z.of_nat i) && (magic =? kMagicNumber)))
    (Some tt) (zip (seq 0 (List.length events)) events).

(** [ShmMetadataRoundTrip]. *)
Definition metadata_test : option unit :=
  data ← generate_shm_metadata kShareMemoryByFilePath "/dev/shm/buf_xyz" "/dev/shm/q_xyz" 3;
  length ← Header.length data 0;
  t ← Header.msg_type data 0;
  version ← Header.version data 0;
  _ ← assert ((length =? Z.of_nat (List.length data)) && (t =? kShareMemoryByFilePath) && (version =? 3));
  '(bp, qp) ← extract_shm_metadata (drop 8 data);
  assert (String.eqb bp "/dev/shm/buf_xyz" && String.eqb qp "/dev/shm/q_xyz").

Example protocol_tests_pass : header_test = Some tt /\
  is_error kInvalidVersion (frame_error 3 kPolling true) = true /\
  is_error kInvalidVersion (frame_error 0 kPolling false) = true /\
  is_error kInvalidMsgType (frame_error 2 99 false) = true /\
  polling_test = Some tt /\ metadata_test = Some tt.
Proof. vm_compute. auto 10. Qed.

(** * tests/test_queue.cpp *)

(** [Operate]. *)
Definition same_element (i : Z) (e : QueueElement) : bool :=
  (seq_id e =? i) && (offset_in_shm_buf e =? i) && (status e =? i).
Definition operate_test (cap : nat) : option unit :=
  '(q, m) ← create_from_bytes x86_64 (zero_shm (count_queue_mem_size (Z.of_nat cap))) 0 (Z.of_nat cap);
  let size_is m n :=
    empty ← is_empty m q; full ← is_full m q; size ← queue_size m q;
    assert (Bool.eqb empty (n =? 0) && Bool.eqb full (n =? Z.of_nat cap) && (size =? n)) in
  _ ← size_is m 0;
  m ← foldl (fun m i => m ← m; let i := Z.of_nat i in
    '(r, m) ← Queue.put m q (mkElem i i i); _ ← expect_ok r; Some m) (Some m) (seq 0 cap);
  '(r, m) ← Queue.put m q (mkElem 1 1 1);
  _ ← assert (match r with Unexpected e => error_is e kQueueFull | Ok _ => false end);
  _ ← size_is m (Z.of_nat cap);
  m ← foldl (fun m i => m ← m; '(r, m) ← Queue.pop m q; e ← expect_ok r;
    _ ← assert (same_element (Z.of_nat i) e); Some m) (Some m) (seq 0 cap);
  '(r, m) ← Queue.pop m q;
  _ ← assert (match r with Unexpected e => error_is e kQueueEmpty | Ok _ => false end);
  _ ← size_is m 0;
  let working m b := w ← consumer_is_working m q; assert (Bool.eqb w b) in
  _ ← working m false;
  '(_, m) ← mark_working m q;
  _ ← working m true;
  '(_, m) ← mark_not_working m q;
  _ ← working m false;
  '(_, m) ← Queue.put m q (mkElem 1 1 1);
  '(_, m) ← mark_not_working m q;
  working m true.
Example queue_tests_pass : operate_test 512 = Some tt.
Proof. vm_compute. reflexivity. Qed.
